(* ===== verification/_CoqProject ===== *)
-Q . S2P
Prelude.v
GoStd.v
Json.v
Base64.v
GqlOpcodes.v
GqlFrame.v
GqlResult.v
GqlQuery.v
GqlValidator.v
GqlPages.v
GqlSanitize.v
Errors.v
ErrorsHeap.v
ErrorsJson.v
Lockdown.v
RateLimiter.v
AuditLog.v
Session.v
Memory.v
SecretStores.v
Zkp.v
Event.v
Bus.v
BusThreads.v
BusLocks.v
Kernel.v
Registry.v
SessionBus.v
Interfaces.v
Storage.v
StorageHeap.v
Intrusion.v
Crypto.v
Bridge.v
Provider.v
Tier.v
Tools.v
Pqc.v
Port.v
