(* ===== verification/Prelude.v ===== *)
(** * Grimlocker engine: a verification development

    This library models the Go code under [src/engine], the domain core of
    the Grimlocker password vault, and proves what makes its parts correct.
    Every definition that models code bears the name the code gives it, with
    a prefix or the receiver's name where two would clash.

    ** The program and its parts

    A client sends GQL frames. [gql] decodes and validates them against the
    session that [security] keeps; [kernel] carries events between modules
    over a bus; [security] also holds the key material, the audit log and the
    defences against guessing; [crypto] and [bridge] derive keys and encrypt;
    [storage] defines the block store; [errors] is the shared error system.
    The parts meet in few places: the validator reads a session through the
    [SessionInfo] interface, which only the tests implement, the session
    announces itself on the bus, the stores of secrets zero their buffers
    through [MemoryGuard], a write transaction drives a [BlockStore], the
    registry registers modules with the bus.

    ** The files, in dependency order

    - [Prelude]: the outcomes of Go code (a value, an error or a panic) as a
      monad with a panic-freedom predicate, bytes, strings, slices, big-endian
      integers and the list lemmas the parts share; hint database [no_panic].
    - [GoStd]: what the engine uses of the language and the standard library:
      formatted messages, ranging over a string, hexadecimal, time, xor.
    - [Json], [Base64]: [encoding/json] and [encoding/base64] as the engine uses
      them: a printer with Go's escapes, sorted map keys and omitted zero
      values, the reader a client needs, the lemma that reading undoes printing
      up to UTF-8 repair, and field-by-field access to objects.
    - [GqlOpcodes], [GqlFrame], [GqlQuery], [GqlValidator]: the constants of
      [gql/opcodes.go] and [gql/errors.go], the frame codec of [gql/frame.go],
      the query codec of [gql/types.go], both stages of [gql/validator.go].
      Encoders fill a buffer and decoders walk one by offset, as the code
      does; the layout and the grammar they must meet are separate
      definitions. The order in which a Go map is iterated is an argument.
    - [GqlResult], [GqlPages], [GqlSanitize]: results, their JSON and their frames,
      with a client that decodes them; pages of entries that hold what the
      validator accepts; [SanitizeFieldKey] with [strings.TrimSpace].
    - [Errors], [ErrorsHeap], [ErrorsJson]: [errors/types.go],
      [errors/logging.go] and [errors/stacktrace.go] over values; the pointers
      and maps behind the errors, in a heap, with what a reference denotes;
      the bytes [MarshalJSON] writes.
    - [Lockdown], [RateLimiter], [AuditLog], [Intrusion]: the files of the same names
      in [security]: state records, a function per method, traces of calls.
    - [Session]: [security/session.go] as atomic steps over the session, its
      timer and the tasks still to run, in any interleaving.
    - [Memory], [SecretStores], [Zkp]: [memguard.go] and [constant_time.go];
      [mvk_store.go] and [secret_guard.go] over a heap of buffers; [zkp.go].
    - [Event], [Bus], [BusThreads], [BusLocks]: [event.go] and [uuid.go]; [bus.go]
      with a step for each call; with a step for each critical section and any
      number of threads; with the three mutexes as state, and a step for each
      lock, read and unlock, which may block. Each refines the one before.
    - [Kernel], [Registry], [SessionBus]: [handler.go] and [module_factory.go];
      [dispatcher.go] as a class with laws, both models of the bus as its
      instances, [registry.go] over any dispatcher; the session and the bus in
      one world, where the session announces what it did.
    - [Interfaces]: [MVKStore], [LockdownManager] and [AuditLog] of
      [security] as classes with laws and their instances.
    - [Storage], [StorageHeap]: [storage], whose store interface is a class with
      laws; the write transaction over values, and over a heap of the slices it
      shares with its caller, related by dereferencing.
    - [Crypto], [Bridge]: [crypto] and [bridge/gofallback.go]; the enclave's
      interface as a class with laws, its pure Go instance, the provider over
      any bridge, and [bridge/rustbridge_helpers.go].
    - [Provider], [Tier]: the interfaces of [crypto] and of
      [provider/interfaces.go] as classes; laws where the comments state them,
      the instances the repository has, and clients proved over the class.
    - [Tools], [Pqc], [Port]: [tools/ssh_gen.go]; [crypto/pqc_ready.go]; the
      aliases of [port.go].

    ** What the theorems show

    - GQL: [ValidateFrame] accepts exactly the frames that meet a declarative
      specification; the frame decoder accepts exactly what the encoder
      writes; the query decoder is the grammar; encoding a query loses nothing
      exactly when its parts fit their wire widths; a decoded query is well typed
      and decoding normalizes; a clean query survives the whole path; no input
      makes any of it panic. A client reads every result and every error frame
      back; how large a page of entries can be; sanitized keys are identifiers.
    - Bus: dispatch starts exactly the handlers the history of registrations
      calls for; a request returns its own reply, the first one; the TTL never
      runs out. Under every interleaving of critical sections: a gate that
      stays closed holds, no handler runs unasked, a handler that stays
      registered is told, replies are not mixed up; and two things
      only an interleaving does, that gate and handlers are read at different
      moments, and that a reused request ID cuts a request off. With the locks:
      they make the sections atomic, nothing deadlocks, and every call returns. Handlers and
      registry: the effect of every stack of decorators; the life cycle of
      modules, over any dispatcher. Events: routing prefix, identifiers.
    - Session: a positive auto-lock always locks in time, a locked session
      holds nothing, handles do not flow into events, and two ways in which
      the timer misbehaves. Over any
      dispatcher: what a session puts on the bus, and that a lock notifies;
      over the threads of the bus: that a lock is heard.
    - Secrets: no key byte survives in a buffer whose owner is gone; tokens
      and challenges work once; what a proof gives away; the master key is the
      entropy bytes at the derived offsets, which are always in range, and so is
      every offset of the coordinate key; encryption under a workspace key
      round-trips; shredding and writing the entropy file end, and write every
      byte; the fallback bridge breaks its interface's promise on handles.
    - Defences: when the lockdown and the rate limiter lock and for how long,
      on every trace, and what the end of the soft lock changes; the intrusion
      detector's reports, operation by operation, stale ones included; the audit
      log is a bounded queue whose chain fixes the whole history up to a
      collision of the texts hashed, and whose stored [PrevHash] is wrong.
    - Storage: what a commit does to the store, also when it fails half-way;
      what readers see after it; that staged blocks share the caller's bytes.
    - Errors: wrapping and matching, what a handler reveals, what the JSON
      of an error reveals, and who sees it when an error is annotated.
    - Interfaces: what a client can conclude from the laws alone, about a store
      of keys, a provider of ciphers and the tiers of a vault.
    - Tools: how many random draws give each passphrase; the lines of a public
      key. Texts over the bridge: offsets as JSON and Base64 read back.

    Where a theorem describes behaviour that a comment or a document denies,
    its own comment states what the code does.

    ** Conventions and bounds

    A clock reading or a random draw is an argument of the method that takes
    it, one argument per reading. A method under a mutex is atomic; [Session],
    [Bus] and [BusThreads] say what interleaves, and [BusLocks] proves it of the
    bus. An [int64] is a [Z] with its wrap-around
    written out where the code can reach it; [int] is 64 bits wide. The
    decoders recurse on a count read from the input, bounded by the length
    of the input. Fuel appears in the loops over a string of [GoStd], [Json] and
    [GqlSanitize], as many as the bytes it has, in the JSON reader of [Json],
    for which [parse_print] shows the length of the text is enough, in the
    decimal printer, one per bit, in the filter loop of [Bus], which runs once per
    handler, and in the two loops of [Crypto] that write files, where
    [Shred_total] and [entropy_loop_total] show theirs is enough.

    Parameters stand for code outside the engine: HKDF, Argon2id and
    ChaCha20-Poly1305; SHA-256, HMAC and BLAKE2b; Ed25519, the encodings of
    golang.org/x/crypto/ssh and PEM; [strings.ToUpper]; the Go runtime's call
    stack; the block store, the files and the memory guard behind their
    interfaces. Theorems that rely on a property of one state it, and its
    witness has an instance.

    ** What is not modelled

    Logging output beyond the lines [Kernel] and [Errors] keep; the
    implementations of interfaces that are not in the repository, which are
    classes here; struct tags of types the engine never marshals; the code of a
    handler or a module, which is a value or a function of the caller; the
    Go memory model below the mutexes and channels; the mutexes themselves, apart
    from those of the bus; the Rust enclave. JSON is read
    back only by the clients of the theorems, since the engine writes JSON and
    never reads it. *)

From Stdlib Require Export ZArith Lia.
From stdpp Require Export base tactics gmap strings list sorting.
From Stdlib Require Export Strings.Byte.

#[global] Open Scope Z_scope.

(** ** Outcomes of Go code

    A call returns a value ([Ret]), returns a non-nil error ([Err]) or
    panics ([Panic]: an index, slice bound or allocation size out of range). *)

Inductive res (E A : Type) : Type :=
| Ret (a : A)
| Err (e : E)
| Panic.
Arguments Ret {E A} _.
Arguments Err {E A} _.
Arguments Panic {E A}.

#[global] Instance res_ret E : MRet (res E) := fun A a => Ret a.
#[global] Instance res_bind E : MBind (res E) := fun A B f m =>
  match m with
  | Ret a => f a
  | Err e => Err e
  | Panic => Panic
  end.

(** [if guard { return err }] of the source. *)
Definition check {E} (guard : bool) (e : E) : res E unit :=
  if guard then Err e else Ret tt.

(** [if err := f(); err != nil { return wrap(err) }] of the source. *)
Definition map_err {E E' A} (f : E -> E') (m : res E A) : res E' A :=
  match m with
  | Ret a => Ret a
  | Err e => Err (f e)
  | Panic => Panic
  end.

Section Outcomes.
Context {E : Type}.

Lemma Ret_inj {A} (a b : A) : Ret (E := E) a = Ret b -> a = b.
Proof. congruence. Qed.

Lemma bind_Ret_inv {A B} (m : res E A) (f : A -> res E B) b :
  m ≫= f = Ret b <-> exists a, m = Ret a /\ f a = Ret b.
Proof.
  split.
  - destruct m as [a| |]; [by exists a | done | done].
  - by intros (a & -> & ?).
Qed.

Lemma bind_Panic_inv {A B} (m : res E A) (f : A -> res E B) :
  m ≫= f = Panic <-> m = Panic \/ exists a, m = Ret a /\ f a = Panic.
Proof.
  split.
  - destruct m as [a| |]; [by eauto | done | by left].
  - by intros [-> | (a & -> & ?)].
Qed.

Lemma bind_assoc {A B C} (m : res E A) (f : A -> res E B) (g : B -> res E C) :
  (m ≫= f) ≫= g = m ≫= (fun a => f a ≫= g).
Proof. by destruct m. Qed.

Lemma bind_ext {A B} (m : res E A) (f g : A -> res E B) :
  (forall a, m = Ret a -> f a = g a) -> m ≫= f = m ≫= g.
Proof. destruct m; cbn; auto. Qed.

Lemma check_Ret_inv (g : bool) (e : E) u : check g e = Ret u <-> g = false.
Proof. by destruct g, u. Qed.

Lemma check_not_Panic (g : bool) (e : E) : check g e <> Panic.
Proof. by destruct g. Qed.

Lemma map_err_Ret_inv {E' A} (f : E -> E') (m : res E A) a :
  map_err f m = Ret a <-> m = Ret a.
Proof. destruct m; cbn; split; congruence. Qed.

Lemma map_err_Panic_inv {E' A} (f : E -> E') (m : res E A) :
  map_err f m = Panic <-> m = Panic.
Proof. by destruct m. Qed.
End Outcomes.

(** ** Panic freedom

    [wp m Q]: [m] does not panic, and what it returns satisfies [Q]. *)

Definition wp {E A} (m : res E A) (Q : A -> Prop) : Prop :=
  match m with
  | Ret a => Q a
  | Err _ => True
  | Panic => False
  end.

Section Wp.
Context {E : Type}.

Lemma wp_bind {A B} (m : res E A) (f : A -> res E B) Q :
  wp m (fun a => wp (f a) Q) -> wp (m ≫= f) Q.
Proof. by destruct m. Qed.

Lemma wp_mono {A} (m : res E A) (P Q : A -> Prop) :
  wp m P -> (forall a, P a -> Q a) -> wp m Q.
Proof. destruct m; cbn; auto. Qed.

Lemma wp_check (g : bool) (e : E) (Q : unit -> Prop) : (g = false -> Q tt) -> wp (check g e) Q.
Proof. destruct g; cbn; auto. Qed.

Lemma wp_map_err {E' A} (f : E' -> E) (m : res E' A) Q : wp m Q -> wp (map_err f m) Q.
Proof. by destruct m. Qed.

Lemma wp_not_Panic {A} (m : res E A) Q : wp m Q -> m <> Panic.
Proof. by destruct m. Qed.

Lemma not_Panic_wp {A} (m : res E A) : m <> Panic -> wp m (fun _ => True).
Proof. by destruct m. Qed.
End Wp.

(** Sequences, checks and values do not panic when their parts do not. *)
Lemma seq_no_Panic {E A B} (m : res E A) (k : A -> res E B) :
  m <> Panic -> (forall a, k a <> Panic) -> m ≫= k <> Panic.
Proof. destruct m; cbn; auto. Qed.

Create HintDb no_panic.
#[export] Hint Resolve check_not_Panic : no_panic.
#[export] Hint Extern 1 (_ ≫= _ <> Panic) => apply seq_no_Panic; [|intros] : no_panic.
#[export] Hint Extern 2 (Ret _ <> Panic) => discriminate : no_panic.
#[export] Hint Extern 2 (Err _ <> Panic) => discriminate : no_panic.
Ltac no_panic := auto 20 with no_panic nocore.

(** Decompose every hypothesis that says a composed call returned. *)
Ltac inv_res :=
  repeat match goal with
  | H : _ ≫= _ = Ret _ |- _ =>
      apply bind_Ret_inv in H;
      let a := fresh "r" in let Ha := fresh "Hr" in destruct H as (a & Ha & H)
  | H : (match ?p with (_, _) => _ end) = Ret _ |- _ => is_var p; destruct p
  | H : check _ _ = Ret _ |- _ => apply check_Ret_inv in H
  | H : map_err _ _ = Ret _ |- _ => apply map_err_Ret_inv in H
  | H : Ret _ = Ret _ |- _ => apply Ret_inj in H
  | H : Err _ = Ret _ |- _ => discriminate H
  | H : Panic = Ret _ |- _ => discriminate H
  end.

(** [switch x { case c1, c2, ...: }] of the source. *)
Definition one_of {A} `{EqDecision A} (x : A) (cases : list A) : bool :=
  bool_decide (x ∈ cases).

Lemma one_of_true {A} `{EqDecision A} (x : A) cases :
  one_of x cases = true <-> x ∈ cases.
Proof. apply bool_decide_eq_true. Qed.

Lemma one_of_false {A} `{EqDecision A} (x : A) cases :
  one_of x cases = false <-> x ∉ cases.
Proof. apply bool_decide_eq_false. Qed.

(** ** Machine integers: a w-bit integer is a [Z], conversions wrap. *)

Definition u8 (z : Z) : Z := z mod 2 ^ 8.
Definition u16 (z : Z) : Z := z mod 2 ^ 16.
Definition u32 (z : Z) : Z := z mod 2 ^ 32.
Definition u64 (z : Z) : Z := z mod 2 ^ 64.
Definition i64 (z : Z) : Z := (z + 2 ^ 63) mod 2 ^ 64 - 2 ^ 63.

Lemma u8_small z : 0 <= z < 2 ^ 8 -> u8 z = z.
Proof. apply Z.mod_small. Qed.
Lemma u16_small z : 0 <= z < 2 ^ 16 -> u16 z = z.
Proof. apply Z.mod_small. Qed.
Lemma u32_small z : 0 <= z < 2 ^ 32 -> u32 z = z.
Proof. apply Z.mod_small. Qed.
Lemma i64_small z : - 2 ^ 63 <= z < 2 ^ 63 -> i64 z = z.
Proof. intros. unfold i64. rewrite Z.mod_small; lia. Qed.

(** ** Bytes *)

#[global] Instance byte_eq_dec : EqDecision byte := Byte.byte_eq_dec.

(** The value of a byte, and the conversion [byte(z)], which wraps. *)
Definition bz (b : byte) : Z := Z.of_N (Byte.to_N b).
Definition zb (z : Z) : byte :=
  default x00 (Byte.of_N (Z.to_N (z mod 2 ^ 8))).

Lemma bz_range b : 0 <= bz b < 2 ^ 8.
Proof. unfold bz. pose proof (to_N_bounded b). lia. Qed.

Lemma bz_zb z : bz (zb z) = z mod 2 ^ 8.
Proof.
  unfold bz, zb. pose proof (Z.mod_pos_bound z (2 ^ 8) eq_refl) as Hz.
  destruct (Byte.of_N (Z.to_N (z mod 2 ^ 8))) as [b|] eqn:E; cbn [from_option id].
  - apply Byte.to_of_N in E. rewrite E. lia.
  - apply Byte.of_N_None_iff in E. lia.
Qed.

Lemma zb_bz b : zb (bz b) = b.
Proof.
  unfold zb. rewrite Z.mod_small by apply bz_range.
  unfold bz. rewrite N2Z.id, Byte.of_to_N. done.
Qed.

Lemma bz_inj b c : bz b = bz c -> b = c.
Proof. intros H. by rewrite <- (zb_bz b), H, zb_bz. Qed.
#[global] Instance bz_Inj : Inj (=) (=) bz.
Proof. exact bz_inj. Qed.

Lemma zb_mod z : zb (z mod 2 ^ 8) = zb z.
Proof. apply (inj bz). rewrite !bz_zb. by rewrite Z.mod_mod. Qed.

(** A Go string is an immutable byte sequence; [[]byte(s)] and [string(b)]. *)
Definition str_bytes (s : string) : list byte := String.list_byte_of_string s.
Definition bytes_str (l : list byte) : string := String.string_of_list_byte l.

Lemma bytes_str_bytes s : bytes_str (str_bytes s) = s.
Proof. apply String.string_of_list_byte_of_string. Qed.

Lemma str_bytes_str l : str_bytes (bytes_str l) = l.
Proof. apply String.list_byte_of_string_of_list_byte. Qed.

Lemma length_str_bytes s : length (str_bytes s) = String.length s.
Proof.
  unfold str_bytes, String.list_byte_of_string. rewrite length_map.
  induction s; cbn; congruence.
Qed.

Lemma str_bytes_nil s : str_bytes s = [] <-> s = EmptyString.
Proof. by destruct s. Qed.

Lemma length_bytes_str l : String.length (bytes_str l) = length l.
Proof. by rewrite <- length_str_bytes, str_bytes_str. Qed.

Lemma length_app_string (a b : string) : String.length (a +:+ b) = (String.length a + String.length b)%nat.
Proof.
  induction a as [|c a IH]; [done|].
  change (S (String.length (a +:+ b)) = S (String.length a + String.length b))%nat. by rewrite IH.
Qed.

Lemma length_substring n s : (n <= String.length s)%nat -> String.length (String.substring 0 n s) = n.
Proof.
  revert n. induction s as [|c s IH]; intros [|n] Hn; cbn in *; try lia. rewrite IH; lia.
Qed.

Lemma app_string_inj (a b c : string) : a +:+ c = b +:+ c -> String.length a = String.length b -> a = b.
Proof.
  revert b. induction a as [|x a IH]; intros [|y b] H Hl; cbn in *; try done.
  injection Hl as Hl. injection H as -> H. f_equal. by apply IH.
Qed.

Lemma app_string_inj2 (a b s t : string) :
  a +:+ s = b +:+ t -> String.length a = String.length b -> a = b /\ s = t.
Proof.
  revert b. induction a as [|x a IH]; intros [|y b] H Hl; cbn in *; try done.
  injection Hl as Hl. injection H as -> H. by destruct (IH b H Hl) as [-> ->].
Qed.

Definition len {A} (l : list A) : Z := Z.of_nat (length l).
Definition slen (s : string) : Z := Z.of_nat (String.length s).

Lemma len_nonneg {A} (l : list A) : 0 <= len l.
Proof. unfold len. lia. Qed.

(** ** Slices and buffers

    Slice expressions and the [encoding/binary] and [copy] writes into a
    buffer. A bound past the end panics. *)

Section Buffers.
Context {E A : Type}.

(** [l[i]] *)
Definition index (i : nat) (l : list A) : res E A :=
  match l !! i with
  | Some x => Ret x
  | None => Panic
  end.

(** [l[i] = x] *)
Definition set_index (i : nat) (x : A) (l : list A) : res E (list A) :=
  if decide (i < length l)%nat then Ret (<[i := x]> l) else Panic.

(** [l[lo:hi]] and [l[lo:]] *)
Definition slice (lo hi : nat) (l : list A) : res E (list A) :=
  if decide (lo <= hi <= length l)%nat then Ret (take (hi - lo) (drop lo l)) else Panic.
Definition slice_from (lo : nat) (l : list A) : res E (list A) := slice lo (length l) l.

Definition splice (off : nat) (src buf : list A) : list A :=
  take off buf ++ src ++ drop (off + length src) buf.

(** A fixed-width store into [buf[off:]]: it panics when it does not fit. *)
Definition store_at (off : nat) (src buf : list A) : res E (list A) :=
  if decide (off + length src <= length buf)%nat then Ret (splice off src buf) else Panic.

(** [copy(buf[off:], src)]: copies what fits, panics when [off] is past the end. *)
Definition copy_at (off : nat) (src buf : list A) : res E (list A) :=
  if decide (off <= length buf)%nat
  then Ret (splice off (take (length buf - off) src) buf) else Panic.

Lemma splice_app (pre src rest : list A) :
  (length src <= length rest)%nat ->
  splice (length pre) src (pre ++ rest) = (pre ++ src) ++ drop (length src) rest.
Proof.
  intros _. unfold splice.
  rewrite take_app_length, drop_app, drop_ge by lia. cbn.
  by replace (length pre + length src - length pre)%nat with (length src) by lia;
    rewrite app_assoc.
Qed.

Lemma store_at_app (pre src rest : list A) :
  (length src <= length rest)%nat ->
  store_at (length pre) src (pre ++ rest) = Ret ((pre ++ src) ++ drop (length src) rest).
Proof.
  intros H. unfold store_at. rewrite decide_True by (rewrite length_app; lia).
  by rewrite splice_app.
Qed.

Lemma copy_at_app (pre src rest : list A) :
  (length src <= length rest)%nat ->
  copy_at (length pre) src (pre ++ rest) = Ret ((pre ++ src) ++ drop (length src) rest).
Proof.
  intros H. unfold copy_at. rewrite decide_True by (rewrite length_app; lia).
  rewrite length_app. rewrite (take_ge src) by lia. by rewrite splice_app.
Qed.

Lemma store_at_off off (pre src rest : list A) :
  off = length pre -> (length src <= length rest)%nat ->
  store_at off src (pre ++ rest) = Ret ((pre ++ src) ++ drop (length src) rest).
Proof. intros ->. apply store_at_app. Qed.

Lemma copy_at_off off (pre src rest : list A) :
  off = length pre -> (length src <= length rest)%nat ->
  copy_at off src (pre ++ rest) = Ret ((pre ++ src) ++ drop (length src) rest).
Proof. intros ->. apply copy_at_app. Qed.

Lemma set_index_app (pre rest : list A) x y :
  set_index (length pre) x (pre ++ y :: rest) = Ret ((pre ++ [x]) ++ rest).
Proof.
  unfold set_index. rewrite decide_True by (rewrite length_app; cbn; lia).
  by rewrite insert_app_r_alt, Nat.sub_diag, <- app_assoc by lia.
Qed.

Lemma slice_from_app (pre rest : list A) :
  slice_from (length pre) (pre ++ rest) = Ret rest.
Proof.
  unfold slice_from, slice. rewrite length_app, decide_True by lia.
  rewrite drop_app_length, take_ge by lia. done.
Qed.

(** Copying a whole source into a fresh buffer of its size. *)
Lemma copy_at_fresh (src buf : list A) :
  length buf = length src -> copy_at 0 src buf = Ret src.
Proof.
  intros H. pose proof (copy_at_app [] src buf) as Hc. cbn [app length] in Hc.
  rewrite Hc by lia. by rewrite drop_ge, app_nil_r by lia.
Qed.

Lemma slice_Ret_inv lo hi (l r : list A) :
  slice lo hi l = Ret r ->
  (lo <= hi <= length l)%nat /\ r = take (hi - lo) (drop lo l).
Proof. unfold slice. case_decide; naive_solver. Qed.

Lemma slice_in_range lo hi (l : list A) :
  (lo <= hi <= length l)%nat -> slice lo hi l = Ret (take (hi - lo) (drop lo l)).
Proof. intros. unfold slice. by rewrite decide_True. Qed.

Lemma wp_slice lo hi (l : list A) (Q : list A -> Prop) :
  (lo <= hi <= length l)%nat -> Q (take (hi - lo) (drop lo l)) ->
  wp (slice lo hi l : res E (list A)) Q.
Proof. intros H HQ. by rewrite slice_in_range. Qed.

Lemma index_in_range i (l : list A) : (i < length l)%nat -> index i l <> Panic.
Proof.
  intros [x Hx]%lookup_lt_is_Some. unfold index. by rewrite Hx.
Qed.
End Buffers.

Definition zeros (n : nat) : list byte := replicate n x00.

Lemma length_zeros n : length (zeros n) = n.
Proof. apply length_replicate. Qed.

(** ** Big-endian integers ([binary.BigEndian]) *)

Fixpoint be_encode (n : nat) (v : Z) : list byte :=
  match n with
  | O => []
  | S n => zb (Z.shiftr v (8 * Z.of_nat n)) :: be_encode n v
  end.

Definition be_step (acc : Z) (b : byte) : Z := Z.lor (Z.shiftl acc 8) (bz b).
Definition be_decode (l : list byte) : Z := foldl be_step 0 l.

(** The low [k] bits of a shifted value are clear, so [lor] is [add]. *)
Lemma land_shiftl_small a b k : 0 <= k -> 0 <= b < 2 ^ k -> Z.land (Z.shiftl a k) b = 0.
Proof.
  intros Hk Hb. apply Z.bits_inj'. intros n Hn. rewrite Z.land_spec, Z.bits_0.
  destruct (decide (n < k)) as [?|?]; [by rewrite Z.shiftl_spec_low|].
  rewrite <- (Z.mod_small b (2 ^ k)), Z.mod_pow2_bits_high by lia.
  apply andb_false_r.
Qed.

Lemma lor_shiftl_add a b k : 0 <= k -> 0 <= b < 2 ^ k -> Z.lor (Z.shiftl a k) b = a * 2 ^ k + b.
Proof.
  intros Hk Hb. pose proof (land_shiftl_small a b k Hk Hb) as H0.
  rewrite <- Z.lxor_lor, <- Z.add_nocarry_lxor, Z.shiftl_mul_pow2 by done. done.
Qed.

Lemma be_step_add acc b : be_step acc b = acc * 2 ^ 8 + bz b.
Proof. apply lor_shiftl_add; [lia | apply bz_range]. Qed.

Lemma be_fold_add acc l : foldl be_step acc l = acc * 2 ^ (8 * len l) + be_decode l.
Proof.
  unfold be_decode. revert acc. induction l as [|b l IH]; intros acc.
  - cbn [foldl]. change (2 ^ (8 * len (@nil byte))) with 1. lia.
  - cbn [foldl]. rewrite IH, (IH (be_step 0 b)), !be_step_add.
    unfold len. cbn [length].
    replace (8 * Z.of_nat (S (length l))) with (8 + 8 * Z.of_nat (length l)) by lia.
    rewrite Z.pow_add_r by lia. lia.
Qed.

Lemma be_decode_cons b l : be_decode (b :: l) = bz b * 2 ^ (8 * len l) + be_decode l.
Proof.
  unfold be_decode at 1. cbn [foldl]. rewrite be_fold_add, be_step_add. lia.
Qed.

Lemma be_decode_range l : 0 <= be_decode l < 2 ^ (8 * len l).
Proof.
  induction l as [|b l IH]; [by vm_compute|].
  rewrite be_decode_cons. pose proof (bz_range b) as Hb.
  unfold len in *. cbn [length].
  replace (8 * Z.of_nat (S (length l))) with (8 + 8 * Z.of_nat (length l)) by lia.
  rewrite Z.pow_add_r by lia. nia.
Qed.

Lemma length_be_encode n v : length (be_encode n v) = n.
Proof. induction n; cbn; congruence. Qed.

Lemma be_decode_encode n v : be_decode (be_encode n v) = v mod 2 ^ (8 * Z.of_nat n).
Proof.
  induction n as [|n IH]; [cbn; by rewrite Z.mod_1_r|].
  cbn [be_encode]. rewrite be_decode_cons, IH, bz_zb. unfold len.
  rewrite length_be_encode, Z.shiftr_div_pow2 by lia.
  replace (8 * Z.of_nat (S n)) with (8 * Z.of_nat n + 8) by lia.
  rewrite Z.pow_add_r, Z.rem_mul_r by lia. lia.
Qed.

Lemma be_encode_mod n v : be_encode n (v mod 2 ^ (8 * Z.of_nat n)) = be_encode n v.
Proof.
  cut (forall m, (n <= m)%nat -> be_encode n (v mod 2 ^ (8 * Z.of_nat m)) = be_encode n v);
    [intros H; apply H; lia|].
  induction n as [|n IH]; intros m Hm; [done|]. cbn [be_encode]. rewrite IH by lia.
  f_equal. rewrite <- zb_mod, <- (zb_mod (Z.shiftr v _)). f_equal.
  apply Z.bits_inj'. intros i Hi.
  destruct (decide (i < 8)) as [?|?]; [|by rewrite !Z.mod_pow2_bits_high by lia].
  rewrite !Z.mod_pow2_bits_low, !Z.shiftr_spec, Z.mod_pow2_bits_low by lia. done.
Qed.

Lemma be_encode_decode l : be_encode (length l) (be_decode l) = l.
Proof.
  induction l as [|b l IH]; [done|]. cbn [length be_encode].
  pose proof (be_decode_range l) as Hr. unfold len in Hr.
  rewrite be_decode_cons. unfold len. f_equal.
  - rewrite Z.shiftr_div_pow2, Z.div_add_l, Z.div_small, Z.add_0_r by lia. apply zb_bz.
  - transitivity (be_encode (length l) (be_decode l)); [|exact IH].
    rewrite <- be_encode_mod, Z.add_comm, Z.mod_add by (apply Z.pow_nonzero; lia).
    apply be_encode_mod.
Qed.

(** ** Finite maps *)

Lemma NoDup_fst_filter {K V} (P : K * V -> Prop) `{!forall x, Decision (P x)} (l : list (K * V)) :
  NoDup l.*1 -> NoDup (filter P l).*1.
Proof.
  induction l as [|x l IH]; [done|]. rewrite fmap_cons, NoDup_cons. intros [Hx Hl].
  rewrite filter_cons. case_decide; [|by apply IH].
  rewrite fmap_cons. apply NoDup_cons. split; [|by apply IH].
  intros (y & E & Hy)%list_elem_of_fmap. apply Hx, list_elem_of_fmap. exists y.
  by apply list_elem_of_filter in Hy as [_ Hy].
Qed.

(** Counting the entries of a map that satisfy a test. *)
Lemma size_map_filter {V} (P : string * V -> Prop) `{!forall x, Decision (P x)} (m : gmap string V) :
  size (filter P m) = length (filter P (map_to_list m)).
Proof.
  rewrite map_filter_alt, map_size_list_to_map; [done|].
  apply NoDup_fst_filter, NoDup_fst_map_to_list.
Qed.

Section Filters.
Context {A : Type} (P : A -> Prop) `{!forall x, Decision (P x)}.

Lemma filter_all l : Forall P l -> filter P l = l.
Proof. induction 1 as [|x l Hx _ IH]; [done|]. by rewrite filter_cons_True, IH. Qed.

Lemma StronglySorted_filter (R : A -> A -> Prop) l : StronglySorted R l -> StronglySorted R (filter P l).
Proof.
  induction 1 as [|x l _ IH Hx]; [constructor|]. destruct (decide (P x)).
  - rewrite filter_cons_True by done. constructor; [done|].
    apply Forall_forall. intros y [_ Hy]%list_elem_of_filter. by eapply Forall_forall in Hx.
  - by rewrite filter_cons_False.
Qed.
End Filters.
