(* ===== verification/GoStd.v ===== *)
(** * The parts of the Go language and standard library the engine uses

    Formatted messages, the [for i, c := range s] loop over a string with its
    UTF-8 decoding, [encoding/hex], and [time]. *)

From S2P Require Import Prelude.

(** ** Formatted messages

    [fmt.Sprintf] and [fmt.Errorf] texts are kept as the format string with
    its arguments; they are not rendered. *)

Inductive msg : Type :=
| Lit (s : string)
| Sprintf (format : string) (args : list arg)
with arg : Type :=
| AInt (z : Z)
| ADur (d : Z)      (* a [time.Duration] *)
| AStr (s : string)
| AMsg (m : msg).

Definition msg_empty (m : msg) : bool :=
  match m with
  | Lit EmptyString => true
  | _ => false
  end.

(** ** UTF-8: one decoding step and the range loop over a string

    An invalid sequence yields [RuneError] and advances one byte. *)

Definition RuneError : Z := 65533.

Definition in_bytes (lo hi : Z) (b : byte) : bool := (lo <=? bz b) && (bz b <=? hi).

Definition decode_rune (l : list byte) : Z * nat :=
  match l with
  | [] => (RuneError, 0%nat)
  | b0 :: t =>
      let c := bz b0 in
      if c <? 128 then (c, 1%nat)
      else if (194 <=? c) && (c <=? 223) then
        match t with
        | b1 :: _ =>
            if in_bytes 128 191 b1 then ((c - 192) * 64 + (bz b1 - 128), 2%nat)
            else (RuneError, 1%nat)
        | _ => (RuneError, 1%nat)
        end
      else if (224 <=? c) && (c <=? 239) then
        match t with
        | b1 :: b2 :: _ =>
            if in_bytes (if c =? 224 then 160 else 128) (if c =? 237 then 159 else 191) b1
               && in_bytes 128 191 b2
            then ((c - 224) * 4096 + (bz b1 - 128) * 64 + (bz b2 - 128), 3%nat)
            else (RuneError, 1%nat)
        | _ => (RuneError, 1%nat)
        end
      else if (240 <=? c) && (c <=? 244) then
        match t with
        | b1 :: b2 :: b3 :: _ =>
            if in_bytes (if c =? 240 then 144 else 128) (if c =? 244 then 143 else 191) b1
               && in_bytes 128 191 b2 && in_bytes 128 191 b3
            then ((c - 240) * 262144 + (bz b1 - 128) * 4096 + (bz b2 - 128) * 64
                  + (bz b3 - 128), 4%nat)
            else (RuneError, 1%nat)
        | _ => (RuneError, 1%nat)
        end
      else (RuneError, 1%nat)
  end.

(** [utf8.AppendRune] of a rune that is not a surrogate. *)
Definition encode_rune (r : Z) : list byte :=
  if r <? 128 then [zb r]
  else if r <? 2048 then [zb (192 + r / 64); zb (128 + r mod 64)]
  else if r <? 65536 then [zb (224 + r / 4096); zb (128 + r / 64 mod 64); zb (128 + r mod 64)]
  else [zb (240 + r / 262144); zb (128 + r / 4096 mod 64); zb (128 + r / 64 mod 64); zb (128 + r mod 64)].

(** The iterations [(i, c)] of [for i, c := range s]. Each consumes at least
    one byte, so the length of the string is enough fuel. *)
Fixpoint range_fuel (fuel pos : nat) (l : list byte) : list (nat * Z) :=
  match fuel, l with
  | S fuel, _ :: _ =>
      let '(r, n) := decode_rune l in
      (pos, r) :: range_fuel fuel (pos + n) (drop n l)
  | _, _ => []
  end.

Definition range_string (s : string) : list (nat * Z) :=
  range_fuel (String.length s) 0 (str_bytes s).
Definition runes (s : string) : list Z := snd <$> range_string s.

(** A loop over those iterations whose body returns an error or goes on. *)
Fixpoint for_range {E} (body : nat -> Z -> res E unit) (its : list (nat * Z)) : res E unit :=
  match its with
  | [] => Ret tt
  | (i, c) :: rest => _ ← body i c; for_range body rest
  end.

Definition ascii (z : Z) : Prop := z < 128.
#[global] Instance ascii_dec z : Decision (ascii z).
Proof. unfold ascii. apply _. Defined.

Section Utf8.
(** The shape of one step: an ASCII byte is its own rune; any other start
    byte yields a non-ASCII rune and consumes non-ASCII bytes only. *)
Lemma decode_rune_spec b t :
  (ascii (bz b) /\ decode_rune (b :: t) = (bz b, 1%nat)) \/
  (exists r n, decode_rune (b :: t) = (r, n) /\ ~ ascii r /\
    (1 <= n <= length (b :: t))%nat /\
    Forall (fun c => ~ ascii (bz c)) (take n (b :: t))).
Proof.
  unfold ascii. cbn [decode_rune].
  destruct (Z.ltb_spec (bz b) 128) as [Hb|Hb]; [by left|right].
  assert (exists r n, (RuneError, 1%nat) = (r, n) /\ ~ r < 128 /\
    (1 <= n <= length (b :: t))%nat /\ Forall (fun c => ~ bz c < 128) (take n (b :: t)))
    as Hbad.
  { exists RuneError, 1%nat. cbn. unfold RuneError.
    repeat split; [lia|lia|lia|]. repeat constructor. lia. }
  unfold in_bytes.
  repeat match goal with
    | |- context [if ?c then _ else _] => destruct c eqn:?
    | |- context [match ?l with [] => _ | _ => _ end] => destruct l
    end; try exact Hbad.
  all: eexists _, _; split; [reflexivity|]; cbn [length take];
    rewrite ?andb_true_iff, ?Z.leb_le, ?andb_false_iff, ?Z.leb_gt, ?Z.eqb_eq, ?Z.eqb_neq in *;
    repeat split; try lia; repeat (constructor; [lia|]); try constructor.
Qed.

Lemma filter_ascii_none (l : list byte) :
  Forall (fun c => ~ ascii (bz c)) l -> filter ascii (bz <$> l) = [].
Proof.
  induction 1; [done|]. cbn [fmap list_fmap]. by rewrite filter_cons_False.
Qed.

(** The ASCII runes of a string are its ASCII bytes, in order. *)
Lemma range_ascii_filter fuel pos l :
  (length l <= fuel)%nat ->
  filter ascii (snd <$> range_fuel fuel pos l) = filter ascii (bz <$> l).
Proof.
  revert pos l. induction fuel as [|fuel IH]; intros pos [|b t] Hl; try done.
  { cbn in Hl. lia. }
  cbn [range_fuel].
  destruct (decode_rune_spec b t) as [[Hb ->] | (r & n & -> & Hr & Hn & Hall)].
  - cbn [fmap list_fmap snd]. cbn in Hl. rewrite !filter_cons_True by done.
    f_equal. apply IH. cbn. lia.
  - cbn [fmap list_fmap snd]. rewrite filter_cons_False by done.
    rewrite IH by (rewrite length_drop; cbn in *; lia).
    transitivity (filter ascii (bz <$> (take n (b :: t) ++ drop n (b :: t))));
      [|by rewrite take_drop].
    rewrite fmap_app, filter_app, (filter_ascii_none _ Hall). done.
Qed.

(** A string of ASCII runes only is a string of ASCII bytes only. *)
Lemma range_Forall_ascii fuel pos l :
  (length l <= fuel)%nat ->
  Forall ascii (snd <$> range_fuel fuel pos l) -> Forall ascii (bz <$> l).
Proof.
  revert pos l. induction fuel as [|fuel IH]; intros pos [|b t] Hl H;
    try (constructor; done); try (cbn in Hl; lia).
  cbn [range_fuel] in H.
  destruct (decode_rune_spec b t) as [[Hb Hd] | (r & n & Hd & Hr & Hn & Hall)];
    rewrite Hd in H; cbn [fmap list_fmap snd] in H; apply Forall_cons in H as [H1 H2]; [|done].
  constructor; [done|]. eapply IH; [|exact H2]. cbn in *. lia.
Qed.

Lemma range_of_ascii l pos :
  Forall ascii (bz <$> l) -> snd <$> range_fuel (length l) pos l = bz <$> l.
Proof.
  revert pos. induction l as [|b t IH]; intros pos Hall; [done|].
  cbn [fmap list_fmap] in Hall. apply Forall_cons in Hall as [Hb Ht].
  cbn [length range_fuel].
  destruct (decode_rune_spec b t) as [[_ ->] | (r & n & _ & _ & Hn & HF)].
  - cbn [fmap list_fmap snd]. f_equal. by apply IH.
  - exfalso. destruct n as [|n]; [lia|]. cbn in HF. by apply Forall_cons in HF as [? _].
Qed.

Lemma runes_ascii_filter s : filter ascii (runes s) = filter ascii (bz <$> str_bytes s).
Proof. apply range_ascii_filter. by rewrite length_str_bytes. Qed.

Lemma runes_of_ascii s : Forall ascii (bz <$> str_bytes s) -> runes s = bz <$> str_bytes s.
Proof. unfold runes, range_string. rewrite <- length_str_bytes. apply range_of_ascii. Qed.

(** Checking every rune against a set of ASCII characters is checking every byte. *)
Lemma runes_Forall_bytes (P : Z -> Prop) s :
  (forall c, P c -> ascii c) ->
  Forall P (runes s) <-> Forall P (bz <$> str_bytes s).
Proof.
  intros HP. split; intros H.
  - rewrite <- runes_of_ascii; [done|].
    eapply range_Forall_ascii; [|eapply Forall_impl; [exact H|exact HP]].
    by rewrite length_str_bytes.
  - rewrite runes_of_ascii; [done|]. eapply Forall_impl; [exact H|exact HP].
Qed.

(** An ASCII character occurs as a rune exactly when it occurs as a byte. *)
Lemma runes_elem_ascii c s : ascii c -> c ∈ runes s <-> c ∈ bz <$> str_bytes s.
Proof.
  intros Hc. pose proof (runes_ascii_filter s) as E.
  split; intros H.
  - assert (c ∈ filter ascii (runes s)) as Hf by by apply list_elem_of_filter.
    rewrite E in Hf. by apply list_elem_of_filter in Hf as [].
  - assert (c ∈ filter ascii (bz <$> str_bytes s)) as Hf by by apply list_elem_of_filter.
    rewrite <- E in Hf. by apply list_elem_of_filter in Hf as [].
Qed.

(** A validation loop accepts exactly when its body accepts every rune. *)
Lemma for_range_Ret {E} (body : nat -> Z -> res E unit) (P : Z -> Prop) s :
  (forall i c, body i c = Ret tt <-> P c) ->
  for_range body (range_string s) = Ret tt <-> Forall P (runes s).
Proof.
  intros Hb. unfold runes. induction (range_string s) as [|[i c] its IH]; cbn.
  - split; [constructor|done].
  - specialize (Hb i c). rewrite Forall_cons.
    destruct (body i c) as [[]| |]; cbn; naive_solver.
Qed.
End Utf8.

(** ** [encoding/hex], and the ["%x"] verb of a byte slice *)

Definition hex_digit (n : Z) : byte := if n <? 10 then zb (48 + n) else zb (87 + n).

Definition hex_encode (l : list byte) : list byte :=
  b ← l; [hex_digit (bz b / 16); hex_digit (bz b mod 16)].

Definition from_hex_char (c : byte) : option Z :=
  let z := bz c in
  if (48 <=? z) && (z <=? 57) then Some (z - 48)
  else if (97 <=? z) && (z <=? 102) then Some (z - 87)
  else if (65 <=? z) && (z <=? 70) then Some (z - 55)
  else None.

Fixpoint hex_decode (l : list byte) : option (list byte) :=
  match l with
  | [] => Some []
  | [_] => None
  | a :: b :: rest =>
      x ← from_hex_char a; y ← from_hex_char b; r ← hex_decode rest;
      Some (zb (16 * x + y) :: r)
  end.

Lemma from_hex_digit n : 0 <= n < 16 -> from_hex_char (hex_digit n) = Some n.
Proof.
  intros Hn. rewrite <- (Z2Nat.id n) by lia.
  assert (Z.to_nat n < 16)%nat as H by lia. revert H. generalize (Z.to_nat n). clear n Hn.
  intros n H. do 16 (destruct n as [|n]; [by vm_compute|]). lia.
Qed.

Lemma hex_decode_encode l : hex_decode (hex_encode l) = Some l.
Proof.
  induction l as [|b l IH]; [done|].
  change (hex_encode (b :: l))
    with (hex_digit (bz b / 16) :: hex_digit (bz b mod 16) :: hex_encode l).
  pose proof (bz_range b) as Hb. cbn [hex_decode].
  rewrite !from_hex_digit by (try apply Z.mod_pos_bound; try split;
    try apply Z.div_pos; try apply Z.div_lt_upper_bound; lia).
  cbn. rewrite IH. cbn. rewrite <- Z.div_mod by lia. by rewrite zb_bz.
Qed.

#[global] Instance hex_encode_Inj : Inj (=) (=) hex_encode.
Proof.
  intros l1 l2 H. apply (f_equal hex_decode) in H.
  rewrite !hex_decode_encode in H. congruence.
Qed.

Lemma length_hex_encode l : length (hex_encode l) = (2 * length l)%nat.
Proof.
  induction l as [|b l IH]; [done|].
  change (hex_encode (b :: l))
    with (hex_digit (bz b / 16) :: hex_digit (bz b mod 16) :: hex_encode l).
  cbn [length]. lia.
Qed.

(** The hex text as a Go string. *)
Definition hex_string (l : list byte) : string := bytes_str (hex_encode l).

#[global] Instance hex_string_Inj : Inj (=) (=) hex_string.
Proof.
  intros l1 l2 H. apply (f_equal str_bytes) in H.
  unfold hex_string in H. rewrite !str_bytes_str in H. by apply (inj hex_encode).
Qed.

(** ** [time]

    A [time.Time] is its nanosecond count from the Unix epoch, a
    [time.Duration] an [int64] nanosecond count. [time.Time{}] is the first
    instant of year 1. Every reading of the clock is an argument. *)

Definition time_zero : Z := -62135596800 * 1000000000.
Definition Second : Z := 1000000000.
Definition Minute : Z := 60 * Second.
Definition Hour : Z := 60 * Minute.
Definition time_Add (t d : Z) : Z := t + d.
Definition time_After (t u : Z) : bool := u <? t.
Definition time_Before (t u : Z) : bool := t <? u.
(** [time.Duration(n) * unit] wraps like every [int64] product. *)
Definition duration_mul (n unit_ : Z) : Z := i64 (n * unit_).
(** [t.Sub(u)] saturates. *)
Definition time_Sub (t u : Z) : Z := Z.max (- 2 ^ 63) (Z.min (2 ^ 63 - 1) (t - u)).

(** ** Exclusive or of bytes *)

Definition xor_byte (x y : byte) : byte := zb (Z.lxor (bz x) (bz y)).

Lemma bz_xor_byte x y : bz (xor_byte x y) = Z.lxor (bz x) (bz y).
Proof.
  unfold xor_byte. rewrite bz_zb. apply Z.mod_small.
  pose proof (bz_range x). pose proof (bz_range y).
  assert (0 <= Z.lxor (bz x) (bz y)) as Hxy by (apply Z.lxor_nonneg; lia).
  split; [done|]. destruct (Z.eq_dec (Z.lxor (bz x) (bz y)) 0) as [->|Hne]; [done|].
  apply Z.log2_lt_pow2; [lia|].
  eapply Z.le_lt_trans; [apply Z.log2_lxor; lia|].
  apply Z.max_lub_lt.
  - destruct (Z.eq_dec (bz x) 0) as [->|?]; [done|]. apply Z.log2_lt_pow2; lia.
  - destruct (Z.eq_dec (bz y) 0) as [->|?]; [done|]. apply Z.log2_lt_pow2; lia.
Qed.

Lemma xor_byte_cancel x y : xor_byte (xor_byte x y) y = x.
Proof.
  apply (inj bz). rewrite !bz_xor_byte, Z.lxor_assoc, Z.lxor_nilpotent. apply Z.lxor_0_r.
Qed.

Lemma xor_byte_comm x y : xor_byte x y = xor_byte y x.
Proof. unfold xor_byte. by rewrite Z.lxor_comm. Qed.

Definition xor_bytes : list byte -> list byte -> list byte := zip_with xor_byte.

Lemma length_xor_bytes a b : length (xor_bytes a b) = Nat.min (length a) (length b).
Proof. apply length_zip_with. Qed.

Lemma xor_bytes_cancel a b : length a = length b -> xor_bytes (xor_bytes a b) b = a.
Proof.
  revert b. induction a as [|x a IH]; intros [|y b] Hl; try done.
  cbn. rewrite xor_byte_cancel. f_equal. apply IH. by injection Hl.
Qed.

Lemma xor_bytes_comm a b : xor_bytes a b = xor_bytes b a.
Proof.
  revert b. induction a as [|x a IH]; intros [|y b]; try done.
  cbn. by rewrite xor_byte_comm, IH.
Qed.

Lemma xor_bytes_assoc a b c : xor_bytes (xor_bytes a b) c = xor_bytes a (xor_bytes b c).
Proof.
  revert b c. induction a as [|x a IH]; intros [|y b] [|z c]; try done.
  cbn. rewrite IH. f_equal. apply (inj bz). rewrite !bz_xor_byte. apply Z.lxor_assoc.
Qed.

(** [for i := from; i < from+n; i++ { out[i] = a[i] ^ b[i] }] *)
Fixpoint xor_loop {E} (n from : nat) (a b : list byte) : res E (list byte) :=
  match n with
  | O => Ret []
  | S n =>
      x ← index from a;
      y ← index from b;
      rest ← xor_loop n (S from) a b;
      Ret (xor_byte x y :: rest)
  end.

Lemma xor_loop_drop {E} n i (a b : list byte) :
  (i + n <= length a)%nat -> (i + n <= length b)%nat ->
  xor_loop (E := E) n i a b = Ret (xor_bytes (take n (drop i a)) (take n (drop i b))).
Proof.
  revert i. induction n as [|n IH]; intros i Ha Hb; [done|]. cbn [xor_loop]. unfold index.
  destruct (lookup_lt_is_Some_2 a i) as [x Hx]; [lia|].
  destruct (lookup_lt_is_Some_2 b i) as [y Hy]; [lia|].
  rewrite Hx, Hy. cbn [mbind res_bind]. rewrite IH by lia.
  by rewrite (drop_S a x i Hx), (drop_S b y i Hy).
Qed.

Lemma xor_loop_all {E} n (a b : list byte) :
  length a = n -> length b = n -> xor_loop (E := E) n 0 a b = Ret (xor_bytes a b).
Proof. intros. rewrite xor_loop_drop, !drop_0, !take_ge by lia. done. Qed.
