(* ===== verification/Json.v ===== *)
(** * The JSON that [encoding/json] writes

    [json.Marshal] of the values the engine sends: the string escaping of
    [appendString] with HTML escaping, decimal integers, arrays, objects in
    field order and maps with sorted keys. The reader is the specification:
    a recursive-descent parser of compact JSON texts. *)

From S2P Require Import Prelude GoStd.

(** ** Values *)

#[warnings="-register-all"]
Inductive json :=
| JNum (z : Z)
| JBool (b : bool)
| JStr (s : string)
| JArr (vs : list json)
| JObj (kvs : list (string * json)).

Fixpoint json_ind' (P : json -> Prop) (Hn : forall z, P (JNum z)) (Hb : forall b, P (JBool b))
    (Hs : forall s, P (JStr s)) (Ha : forall vs, Forall P vs -> P (JArr vs))
    (Ho : forall kvs, Forall (fun kv => P kv.2) kvs -> P (JObj kvs)) (j : json) : P j :=
  let rec := json_ind' P Hn Hb Hs Ha Ho in
  match j with
  | JNum z => Hn z
  | JBool b => Hb b
  | JStr s => Hs s
  | JArr vs => Ha vs ((fix go vs := match vs return Forall P vs with
                       | [] => Forall_nil_2 P
                       | v :: vs => Forall_cons_2 P v vs (rec v) (go vs)
                       end) vs)
  | JObj kvs => Ho kvs ((fix go kvs := match kvs return Forall (fun kv => P kv.2) kvs with
                         | [] => Forall_nil_2 _
                         | kv :: kvs => Forall_cons_2 (fun kv => P kv.2) kv kvs (rec kv.2) (go kvs)
                         end) kvs)
  end.

(** ** Writing *)

(** The bytes of an ASCII literal; [c_] names the characters of the syntax. *)
Definition lit (s : string) : list byte := str_bytes s.
Definition c_quote : byte := zb 34.
Definition c_backslash : byte := zb 92.
Definition c_comma : byte := zb 44.
Definition c_colon : byte := zb 58.
Definition c_lbracket : byte := zb 91.
Definition c_rbracket : byte := zb 93.
Definition c_lbrace : byte := zb 123.
Definition c_rbrace : byte := zb 125.
Definition c_minus : byte := zb 45.

(** [htmlSafeSet] *)
Definition html_safe (b : byte) : bool :=
  (32 <=? bz b) && negb (one_of (bz b) [34; 38; 60; 62; 92]).

(** The escape of an ASCII byte that is not safe. *)
Definition escape_ascii (b : byte) : list byte :=
  if one_of (bz b) [34; 92] then [c_backslash; b]
  else if bz b =? 8 then [c_backslash; zb 98]
  else if bz b =? 12 then [c_backslash; zb 102]
  else if bz b =? 10 then [c_backslash; zb 110]
  else if bz b =? 13 then [c_backslash; zb 114]
  else if bz b =? 9 then [c_backslash; zb 116]
  else c_backslash :: lit "u00" ++ [hex_digit (bz b / 16); hex_digit (bz b mod 16)].

(** The loop of [appendString]; each turn consumes at least one byte. *)
Fixpoint escape (fuel : nat) (l : list byte) : list byte :=
  match fuel, l with
  | S fuel, b :: t =>
      if bz b <? 128 then (if html_safe b then [b] else escape_ascii b) ++ escape fuel t
      else
        let '(c, size) := decode_rune l in
        (if (c =? RuneError) && (size =? 1)%nat then c_backslash :: lit "ufffd"
         else if (c =? 8232) || (c =? 8233) then c_backslash :: lit "u202" ++ [hex_digit (Z.land c 15)]
         else take size l)
        ++ escape fuel (drop size l)
  | _, _ => []
  end.

Definition quote (s : string) : list byte :=
  [c_quote] ++ escape (String.length s) (str_bytes s) ++ [c_quote].

(** [strconv.AppendInt(dst, z, 10)] *)
Fixpoint digits (fuel : nat) (z : Z) : list byte :=
  match fuel with
  | O => []
  | S fuel => (if z <? 10 then [] else digits fuel (z / 10)) ++ [zb (48 + z mod 10)]
  end.

Definition decimal (z : Z) : list byte :=
  let n := Z.abs z in
  (if z <? 0 then [c_minus] else []) ++ digits (S (Z.to_nat (Z.log2 n))) n.

Fixpoint joined (parts : list (list byte)) : list byte :=
  match parts with
  | [] => []
  | [p] => p
  | p :: parts => p ++ [c_comma] ++ joined parts
  end.

Fixpoint print (j : json) : list byte :=
  match j with
  | JNum z => decimal z
  | JBool b => lit (if b then "true" else "false")
  | JStr s => quote s
  | JArr vs => [c_lbracket] ++ joined (map print vs) ++ [c_rbracket]
  | JObj kvs => [c_lbrace] ++ joined (map (fun kv => quote kv.1 ++ [c_colon] ++ print kv.2) kvs)
                ++ [c_rbrace]
  end.

(** A map is an object with its keys sorted. *)
Definition key_le (a b : string * string) : Prop := Is_true (String.leb a.1 b.1).
#[global] Instance key_le_dec a b : Decision (key_le a b).
Proof. unfold key_le. apply _. Defined.

Definition json_map (m : gmap string string) : json :=
  JObj (map (fun kv => (kv.1, JStr kv.2)) (merge_sort key_le (map_to_list m))).

(** ["name,omitempty"]: the field unless it has its zero value. *)
Definition omit_if (zero : bool) (name : string) (v : json) : list (string * json) :=
  if zero then [] else [(name, v)].

(** ** Reading *)

(** The value of a one-character escape. *)
Definition unescape (e : byte) : option byte :=
  if one_of (bz e) [34; 92; 47] then Some e
  else if bz e =? 98 then Some (zb 8)
  else if bz e =? 102 then Some (zb 12)
  else if bz e =? 110 then Some (zb 10)
  else if bz e =? 114 then Some (zb 13)
  else if bz e =? 116 then Some (zb 9)
  else None.

(** The characters of a string up to its closing quote, and what follows. *)
Fixpoint read_chars (l : list byte) : option (list byte * list byte) :=
  match l with
  | [] => None
  | c :: l =>
      if bz c =? 34 then Some ([], l)
      else if bz c =? 92 then
        match l with
        | e :: l =>
            if bz e =? 117 then
              match l with
              | a :: b :: c :: d :: l =>
                  '(w, x) ← (w ← from_hex_char a; x ← from_hex_char b; Some (w, x));
                  '(y, z) ← (y ← from_hex_char c; z ← from_hex_char d; Some (y, z));
                  let r := 4096 * w + 256 * x + 16 * y + z in
                  if (55296 <=? r) && (r <=? 57343) then None
                  else '(s, rest) ← read_chars l; Some (encode_rune r ++ s, rest)
              | _ => None
              end
            else v ← unescape e; '(s, rest) ← read_chars l; Some (v :: s, rest)
        | [] => None
        end
      else if bz c <? 32 then None
      else '(s, rest) ← read_chars l; Some (c :: s, rest)
  end.

Definition is_digit (c : byte) : bool := (48 <=? bz c) && (bz c <=? 57).

Fixpoint read_digits (acc : Z) (l : list byte) : Z * list byte :=
  match l with
  | c :: t => if is_digit c then read_digits (10 * acc + (bz c - 48)) t else (acc, l)
  | [] => (acc, [])
  end.

(** [l] without the prefix [p]. *)
Fixpoint strip (p l : list byte) : option (list byte) :=
  match p, l with
  | [], _ => Some l
  | a :: p, b :: l => if decide (a = b) then strip p l else None
  | _, _ => None
  end.

Fixpoint read_value (fuel : nat) (l : list byte) : option (json * list byte) :=
  match fuel, l with
  | S fuel, c :: t =>
      if bz c =? 34 then '(s, rest) ← read_chars t; Some (JStr (bytes_str s), rest)
      else if bz c =? 91 then
        match strip [c_rbracket] t with
        | Some rest => Some (JArr [], rest)
        | None => '(vs, rest) ← read_elements fuel t; Some (JArr vs, rest)
        end
      else if bz c =? 123 then
        match strip [c_rbrace] t with
        | Some rest => Some (JObj [], rest)
        | None => '(kvs, rest) ← read_members fuel t; Some (JObj kvs, rest)
        end
      else if bz c =? 116 then rest ← strip (lit "true") l; Some (JBool true, rest)
      else if bz c =? 102 then rest ← strip (lit "false") l; Some (JBool false, rest)
      else if bz c =? 45 then
        match t with
        | d :: _ => if is_digit d then let '(z, rest) := read_digits 0 t in Some (JNum (- z), rest) else None
        | [] => None
        end
      else if is_digit c then let '(z, rest) := read_digits 0 l in Some (JNum z, rest)
      else None
  | _, _ => None
  end
with read_elements (fuel : nat) (l : list byte) : option (list json * list byte) :=
  match fuel with
  | O => None
  | S fuel =>
      '(v, rest) ← read_value fuel l;
      match rest with
      | c :: rest =>
          if bz c =? 44 then '(vs, rest) ← read_elements fuel rest; Some (v :: vs, rest)
          else if bz c =? 93 then Some ([v], rest)
          else None
      | [] => None
      end
  end
with read_members (fuel : nat) (l : list byte) : option (list (string * json) * list byte) :=
  match fuel with
  | O => None
  | S fuel =>
      l ← strip [c_quote] l;
      '(k, l) ← read_chars l;
      l ← strip [c_colon] l;
      '(v, rest) ← read_value fuel l;
      match rest with
      | c :: rest =>
          if bz c =? 44 then '(kvs, rest) ← read_members fuel rest; Some ((bytes_str k, v) :: kvs, rest)
          else if bz c =? 125 then Some ([(bytes_str k, v)], rest)
          else None
      | [] => None
      end
  end.

(** A whole text. *)
Definition parse (l : list byte) : option json :=
  '(j, rest) ← read_value (length l) l;
  match rest with
  | [] => Some j
  | _ => None
  end.

(** ** Strings *)

(** The text with every invalid byte replaced by U+FFFD. *)
Fixpoint to_valid (fuel : nat) (l : list byte) : list byte :=
  match fuel, l with
  | S fuel, _ :: _ =>
      let '(c, size) := decode_rune l in
      (if (c =? RuneError) && (size =? 1)%nat then encode_rune RuneError else take size l)
      ++ to_valid fuel (drop size l)
  | _, _ => []
  end.

Definition ToValid (s : string) : string := bytes_str (to_valid (String.length s) (str_bytes s)).

#[global] Arguments ToValid : simpl never.

(** [utf8.ValidString(s)]: no step of the decoder fails. *)
Definition ValidString (s : string) : Prop := ToValid s = s.
#[global] Instance ValidString_dec s : Decision (ValidString s).
Proof. unfold ValidString. apply _. Defined.

Section Strings.

Lemma base64_digit a b : 0 <= b < 64 -> (a * 64 + b) / 64 = a /\ (a * 64 + b) mod 64 = b.
Proof.
  intros Hb. rewrite Z.div_add_l, (Z.div_small b), Z.add_0_r by lia. split; [done|].
  rewrite Z.add_comm, Z.mod_add by lia. by apply Z.mod_small.
Qed.

Lemma zb_eq z b : z = bz b -> zb z = b.
Proof. intros ->. apply zb_bz. Qed.

(** A rune that was decoded without error encodes as the bytes consumed. *)
Lemma encode_decode_rune l c n :
  l <> [] -> decode_rune l = (c, n) -> ~ (c = RuneError /\ n = 1%nat) -> encode_rune c = take n l.
Proof.
  intros Hl Hd Hv. destruct l as [|b0 t]; [done|]. cbn [decode_rune] in Hd.
  pose proof (bz_range b0) as H0. unfold in_bytes in Hd.
  destruct (Z.ltb_spec (bz b0) 128) as [Ha|Ha].
  { injection Hd as <- <-. unfold encode_rune.
    destruct (Z.ltb_spec (bz b0) 128); [|lia]. by rewrite zb_bz. }
  assert ((c, n) = (RuneError, 1%nat) -> encode_rune c = take n (b0 :: t)) as Hbad
    by (intros [= -> ->]; exfalso; by apply Hv).
  repeat match type of Hd with
    | (if ?g then _ else _) = _ => destruct g eqn:?; try (by apply Hbad)
    | (match ?x with [] => _ | _ => _ end) = _ => destruct x; try (by apply Hbad)
    end; rewrite ?andb_true_iff, ?Z.leb_le, ?Z.leb_gt in *.
  all: injection Hd as <- <-; unfold encode_rune; cbn [take];
    repeat match goal with b : byte |- _ => generalize (zb_bz b) (bz_range b); revert b end; intros.
  all: repeat match goal with H : context [if ?g then _ else _] |- _ => destruct g eqn:? end;
    rewrite ?Z.eqb_eq, ?Z.eqb_neq in *.
  all: repeat match goal with |- context [?x <? ?y] => destruct (Z.ltb_spec x y); try lia end.
  all: repeat (f_equal; try (apply zb_eq; Z.div_mod_to_equations; lia)).
Qed.

(** One turn of the escaping loop, read back. *)
Lemma read_escape_ascii b l :
  bz b < 128 ->
  read_chars ((if html_safe b then [b] else escape_ascii b) ++ l) =
  '(s, rest) ← read_chars l; Some (b :: s, rest).
Proof. intros Hb. destruct b; try (by vm_compute in Hb); reflexivity. Qed.

Lemma read_plain p l :
  Forall (fun b => ~ ascii (bz b)) p ->
  read_chars (p ++ l) = '(s, rest) ← read_chars l; Some (p ++ s, rest).
Proof.
  unfold ascii. induction 1 as [|b p Hb _ IH]; [cbn; by destruct (read_chars l) as [[]|]|].
  cbn [app read_chars]. destruct (Z.eqb_spec (bz b) 34), (Z.eqb_spec (bz b) 92), (Z.ltb_spec (bz b) 32); try lia.
  rewrite IH. by destruct (read_chars l) as [[]|].
Qed.

Lemma read_rune a b c d r l :
  4096 * a + 256 * b + 16 * c + d = r -> 0 <= a < 16 -> 0 <= b < 16 -> 0 <= c < 16 -> 0 <= d < 16 ->
  r < 55296 \/ 57343 < r ->
  read_chars (c_backslash :: zb 117 :: hex_digit a :: hex_digit b :: hex_digit c :: hex_digit d :: l) =
  '(s, rest) ← read_chars l; Some (encode_rune r ++ s, rest).
Proof.
  intros Hr Ha Hb Hc Hd Hs. cbn [read_chars].
  change (bz c_backslash =? 34) with false. change (bz c_backslash =? 92) with true.
  change (bz (zb 117) =? 117) with true. cbv iota.
  rewrite !from_hex_digit by done. cbn. rewrite Hr.
  by destruct (Z.leb_spec 55296 r), (Z.leb_spec r 57343); try lia.
Qed.

Lemma read_escape fuel l rest :
  (length l <= fuel)%nat ->
  read_chars (escape fuel l ++ c_quote :: rest) = Some (to_valid fuel l, rest).
Proof.
  revert l. induction fuel as [|fuel IH]; intros [|b t] Hl; try done; try (cbn in Hl; lia).
  cbn [escape to_valid].
  destruct (decode_rune_spec b t) as [[Hb Hd]|(c & n & Hd & Hc & Hn & HF)]; rewrite Hd.
  - unfold ascii in Hb. rewrite (proj2 (Z.ltb_lt _ _) Hb), <- app_assoc, read_escape_ascii by done.
    rewrite IH by (cbn in *; lia). cbn [mbind option_bind drop take app].
    unfold RuneError. by rewrite (proj2 (Z.eqb_neq (bz b) 65533)) by lia.
  - destruct (Z.ltb_spec (bz b) 128) as [Hb|_].
    { exfalso. destruct n as [|n]; [lia|]. by apply Forall_cons in HF as [HF _]. }
    assert (length (drop n (b :: t)) <= fuel)%nat as Hf by (rewrite length_drop; cbn in *; lia).
    rewrite <- app_assoc.
    destruct ((c =? RuneError) && (n =? 1)%nat) eqn:E.
    + change ((c_backslash :: lit "ufffd") ++ escape fuel (drop n (b :: t)) ++ c_quote :: rest)
        with (c_backslash :: zb 117 :: hex_digit 15 :: hex_digit 15 :: hex_digit 15 :: hex_digit 13
              :: escape fuel (drop n (b :: t)) ++ c_quote :: rest).
      rewrite (read_rune 15 15 15 13 RuneError), IH by (done || lia || (unfold RuneError; lia)). done.
    + destruct ((c =? 8232) || (c =? 8233)) eqn:Es.
      * assert (encode_rune c = take n (b :: t)) as <-.
        { apply encode_decode_rune; [done|done|]. intros [-> ->]. by vm_compute in E. }
        assert (c = 8232 \/ c = 8233) as Hcc by lia.
        assert (hex_digit (Z.land c 15) = hex_digit (c - 8224)) as -> by by destruct Hcc as [-> | ->].
        change ((c_backslash :: lit "u202" ++ [hex_digit (c - 8224)]) ++ escape fuel (drop n (b :: t)) ++ c_quote :: rest)
          with (c_backslash :: zb 117 :: hex_digit 2 :: hex_digit 0 :: hex_digit 2 :: hex_digit (c - 8224)
                :: escape fuel (drop n (b :: t)) ++ c_quote :: rest).
        by rewrite (read_rune 2 0 2 (c - 8224) c), IH by (done || lia).
      * by rewrite read_plain, IH by done.
Qed.

Lemma quote_cons s rest :
  quote s ++ rest = c_quote :: escape (String.length s) (str_bytes s) ++ c_quote :: rest.
Proof. unfold quote. cbn. by rewrite <- app_assoc. Qed.

Lemma read_quote s rest :
  read_chars (escape (String.length s) (str_bytes s) ++ c_quote :: rest) =
  Some (str_bytes (ToValid s), rest).
Proof. rewrite read_escape by (by rewrite length_str_bytes). unfold ToValid. by rewrite str_bytes_str. Qed.
End Strings.

(** ** Numbers *)

Section Numbers.
Definition value_of (p : list byte) (acc : Z) : Z := foldl (fun acc c => 10 * acc + (bz c - 48)) acc p.
(** Text that does not go on with a digit. *)
Definition stops (rest : list byte) : Prop :=
  match rest with
  | [] => True
  | c :: _ => is_digit c = false
  end.

Lemma read_digits_app p acc rest :
  Forall (fun c => is_digit c = true) p -> stops rest ->
  read_digits acc (p ++ rest) = (value_of p acc, rest).
Proof.
  intros Hp Hr. revert acc. induction Hp as [|c p Hc _ IH]; intros acc.
  - destruct rest as [|c rest]; [done|]. cbn in *. by rewrite Hr.
  - cbn. by rewrite Hc, IH.
Qed.

Lemma digit_byte d : 0 <= d < 10 -> is_digit (zb (48 + d)) = true /\ bz (zb (48 + d)) = 48 + d.
Proof.
  intros Hd. assert (bz (zb (48 + d)) = 48 + d) as E by (rewrite bz_zb; apply Z.mod_small; lia).
  split; [|done]. unfold is_digit. rewrite E. lia.
Qed.

Lemma digits_spec fuel z :
  0 <= z < 10 ^ Z.of_nat fuel ->
  Forall (fun c => is_digit c = true) (digits fuel z) /\ value_of (digits fuel z) 0 = z /\
  (fuel <> 0%nat -> digits fuel z <> []).
Proof.
  revert z. induction fuel as [|fuel IH]; intros z Hz; [cbn in *; split_and!; [constructor|lia|done]|].
  cbn [digits]. destruct (digit_byte (z mod 10)) as [Hd Ed]; [by apply Z.mod_pos_bound|].
  assert (0 <= z / 10 < 10 ^ Z.of_nat fuel) as Hq.
  { split; [apply Z.div_pos; lia|]. apply Z.div_lt_upper_bound; [lia|].
    rewrite Nat2Z.inj_succ, Z.pow_succ_r in Hz by lia. lia. }
  destruct (IH _ Hq) as (H1 & H2 & _). destruct (Z.ltb_spec z 10); split_and!.
  - by repeat constructor.
  - cbn. rewrite Ed, Z.mod_small by lia. lia.
  - done.
  - apply Forall_app. split; [done|by repeat constructor].
  - unfold value_of in *. rewrite foldl_app, H2. cbn. rewrite Ed. pose proof (Z.div_mod z 10). lia.
  - intros _ H0. by apply app_eq_nil in H0 as [_ ?].
Qed.

Lemma digits_abs z : 0 <= Z.abs z < 10 ^ Z.of_nat (S (Z.to_nat (Z.log2 (Z.abs z)))).
Proof.
  split; [lia|]. pose proof (Z.log2_nonneg (Z.abs z)) as Hl. rewrite Nat2Z.inj_succ, Z2Nat.id by done.
  destruct (decide (z = 0)) as [->|Hz]; [done|].
  eapply Z.lt_le_trans; [apply Z.log2_spec; lia|]. apply Z.pow_le_mono_l. lia.
Qed.

(** A decimal number starts with a digit or a minus sign before a digit. *)
Lemma decimal_shape z :
  exists d ds, is_digit d = true /\ Forall (fun c => is_digit c = true) (d :: ds) /\
    value_of (d :: ds) 0 = Z.abs z /\ decimal z = (if z <? 0 then [c_minus] else []) ++ d :: ds.
Proof.
  destruct (digits_spec _ _ (digits_abs z)) as (H1 & H2 & H3). unfold decimal.
  destruct (digits _ _) as [|d ds]; [by destruct H3|]. exists d, ds.
  split_and!; [by inversion H1|done|done|done].
Qed.
End Numbers.

(** ** Values *)

(** The value as a reader gets it: every string made valid. *)
Fixpoint norm (j : json) : json :=
  match j with
  | JNum z => JNum z
  | JBool b => JBool b
  | JStr s => JStr (ToValid s)
  | JArr vs => JArr (map norm vs)
  | JObj kvs => JObj (map (fun kv => (ToValid kv.1, norm kv.2)) kvs)
  end.

Section Values.
Definition member (kv : string * json) : list byte := quote kv.1 ++ [c_colon] ++ print kv.2.

Lemma print_obj kvs : print (JObj kvs) = [c_lbrace] ++ joined (map member kvs) ++ [c_rbrace].
Proof. done. Qed.

Lemma print_nonempty j : (1 <= length (print j))%nat.
Proof.
  destruct j as [z|[]|s|vs|kvs]; try (cbn; lia).
  cbn. destruct (decimal_shape z) as (d & ds & _ & _ & _ & ->). rewrite length_app. cbn. lia.
Qed.

(** No value starts with a closing bracket, and members start with a quote. *)
Lemma print_head j : exists c t, print j = c :: t /\ c <> c_rbracket /\ c <> c_rbrace.
Proof.
  destruct j as [z|[]|s|vs|kvs]; try (by eexists _, _).
  destruct (decimal_shape z) as (d & ds & Hd & _ & _ & E). cbn [print]. rewrite E.
  destruct (z <? 0); eexists _, _; (split; [reflexivity|]); [done|].
  split; intros ->; by vm_compute in Hd.
Qed.

Lemma joined_cons p parts :
  joined (p :: parts) = p ++ match parts with [] => [] | _ => [c_comma] ++ joined parts end.
Proof. destruct parts; [cbn; by rewrite app_nil_r|done]. Qed.

(** What a value's reader does with every text that stops a number. *)
Definition reads (j : json) : Prop :=
  forall fuel rest, (length (print j) <= fuel)%nat -> stops rest ->
    read_value fuel (print j ++ rest) = Some (norm j, rest).

Lemma read_elements_joined vs fuel rest :
  Forall reads vs -> vs <> [] -> (length (joined (map print vs)) + 1 <= fuel)%nat ->
  read_elements fuel (joined (map print vs) ++ c_rbracket :: rest) = Some (map norm vs, rest).
Proof.
  intros Hvs. revert fuel. induction Hvs as [|v vs Hv Hvs IH]; intros fuel Hne Hf; [done|].
  rewrite map_cons, joined_cons in *. destruct fuel as [|fuel]; [lia|]. cbn [read_elements].
  rewrite length_app in Hf. rewrite <- app_assoc. destruct vs as [|v' vs].
  - cbn [map app]. rewrite Hv by (done || (cbn in Hf; lia)). done.
  - cbn [map app] in Hf |- *. cbn [length] in Hf.
    rewrite Hv by (done || lia). cbn [mbind option_bind].
    change (bz c_comma =? 44) with true. cbv iota. rewrite IH by (done || cbn [map]; lia). done.
Qed.

Lemma strip_cons a p l : strip (a :: p) (a :: l) = strip p l.
Proof. cbn. by rewrite decide_True. Qed.

Lemma strip_ne a b p l : a <> b -> strip (a :: p) (b :: l) = None.
Proof. intros H. cbn. by rewrite decide_False. Qed.

Lemma read_members_joined kvs fuel rest :
  Forall (fun kv => reads kv.2) kvs -> kvs <> [] ->
  (length (joined (map member kvs)) + 1 <= fuel)%nat ->
  read_members fuel (joined (map member kvs) ++ c_rbrace :: rest) =
  Some (map (fun kv => (ToValid kv.1, norm kv.2)) kvs, rest).
Proof.
  intros Hvs. revert fuel. induction Hvs as [|[k v] kvs Hv Hvs IH]; intros fuel Hne Hf; [done|].
  rewrite map_cons, joined_cons in *. destruct fuel as [|fuel]; [lia|]. cbn [read_members].
  rewrite length_app in Hf. rewrite <- app_assoc. unfold member at 1. unfold member in Hf at 1.
  cbn [fst snd] in *. rewrite !length_app in Hf. rewrite <- !app_assoc, quote_cons.
  rewrite strip_cons. cbn [strip mbind option_bind]. rewrite read_quote. cbn [mbind option_bind app].
  rewrite decide_True by done. cbn [mbind option_bind]. destruct kvs as [|kv' kvs].
  - cbn [map app]. rewrite Hv by (done || (cbn in Hf; lia)). cbn [mbind option_bind].
    change (bz c_rbrace =? 44) with false. change (bz c_rbrace =? 125) with true. by rewrite bytes_str_bytes.
  - cbn [map app] in Hf |- *. cbn [length] in Hf.
    rewrite Hv by (done || lia). cbn [mbind option_bind].
    change (bz c_comma =? 44) with true. cbv iota. rewrite IH by (done || cbn [map]; lia).
    cbn. by rewrite bytes_str_bytes.
Qed.

Lemma joined_head (parts : list (list byte)) c t rest :
  joined ((c :: t) :: parts) ++ rest = c :: (t ++ match parts with [] => [] | _ => [c_comma] ++ joined parts end) ++ rest.
Proof. rewrite joined_cons. cbn. by rewrite <- app_assoc. Qed.

Lemma reads_number z : reads (JNum z).
Proof.
  intros fuel rest Hf Hr. destruct (decimal_shape z) as (d & ds & Hd & HF & Hv & E). cbn [print norm] in *.
  rewrite E in *. destruct fuel as [|fuel]; [rewrite length_app in Hf; cbn in Hf; lia|].
  pose proof (read_digits_app (d :: ds) 0 rest HF Hr) as Hrd.
  destruct (Z.ltb_spec z 0).
  - cbn [app read_value]. change (bz c_minus =? 34) with false. change (bz c_minus =? 91) with false.
    change (bz c_minus =? 123) with false. change (bz c_minus =? 116) with false.
    change (bz c_minus =? 102) with false. change (bz c_minus =? 45) with true. cbv iota.
    cbn [app] in Hrd. rewrite Hd, Hrd, Hv. do 3 f_equal. lia.
  - cbn [app read_value]. cbn [app] in Hrd. pose proof Hd as Hd'. unfold is_digit in Hd'.
    repeat match goal with |- context [bz d =? ?n] => destruct (Z.eqb_spec (bz d) n); [lia|] end.
    rewrite Hd, Hrd, Hv. do 3 f_equal. lia.
Qed.

Lemma read_print j : reads j.
Proof.
  induction j as [z|b|s|vs IH|kvs IH] using json_ind'; [apply reads_number|..];
    intros fuel rest Hf Hr;
    (destruct fuel as [|fuel]; [eapply Nat.le_trans in Hf; [|apply print_nonempty]; lia|]).
  - by destruct b.
  - cbn [print norm]. rewrite quote_cons. cbn [read_value]. change (bz c_quote =? 34) with true.
    cbv iota. rewrite read_quote. cbn. by rewrite bytes_str_bytes.
  - cbn [print norm] in *. destruct vs as [|v vs]; [by cbn|].
    rewrite !length_app in Hf. cbn [app length] in Hf |- *. cbn [read_value].
    change (bz c_lbracket =? 34) with false. change (bz c_lbracket =? 91) with true. cbv iota.
    rewrite <- app_assoc. cbn [app]. destruct (print_head v) as (c & t & Ev & Hc & _).
    assert (forall l, strip [c_rbracket] (joined (map print (v :: vs)) ++ l) = None) as ->
      by (intros l; by rewrite map_cons, Ev, joined_head, strip_ne).
    by rewrite read_elements_joined by (done || lia).
  - rewrite print_obj in *. cbn [norm]. destruct kvs as [|kv kvs]; [by cbn|].
    rewrite !length_app in Hf. cbn [app length] in Hf |- *. cbn [read_value].
    change (bz c_lbrace =? 34) with false. change (bz c_lbrace =? 91) with false.
    change (bz c_lbrace =? 123) with true. cbv iota.
    rewrite <- app_assoc. cbn [app].
    assert (forall l, strip [c_rbrace] (joined (map member (kv :: kvs)) ++ l) = None) as ->
      by (intros l; rewrite map_cons; unfold member at 1, quote; cbn [app]; by rewrite joined_head, strip_ne).
    by rewrite read_members_joined by (done || lia).
Qed.

(** Every text the printer writes is read back, with its strings made valid. *)
Lemma parse_print j : parse (print j) = Some (norm j).
Proof.
  unfold parse. pose proof (read_print j (length (print j)) [] (le_n _) I) as H.
  rewrite app_nil_r in H. by rewrite H.
Qed.
End Values.

(** ** Sizes *)

Section Sizes.
(** A byte takes at most six bytes in a string. *)
Lemma escape_bound fuel l : (length (escape fuel l) <= 6 * length l)%nat.
Proof.
  revert l. induction fuel as [|fuel IH]; intros [|b t]; cbn [escape]; try (cbn; lia).
  destruct (decode_rune_spec b t) as [[Hb Hd]|(c & n & Hd & Hc & Hn & HF)]; rewrite Hd.
  - unfold ascii in Hb. rewrite (proj2 (Z.ltb_lt _ _) Hb), length_app. specialize (IH t). cbn [length].
    assert (length (if html_safe b then [b] else escape_ascii b) <= 6)%nat by (destruct b; by vm_compute; lia).
    lia.
  - destruct (Z.ltb_spec (bz b) 128) as [Hb|_].
    { exfalso. destruct n as [|n]; [lia|]. by apply Forall_cons in HF as [HF _]. }
    rewrite length_app. specialize (IH (drop n (b :: t))). rewrite length_drop in IH.
    assert (forall x, length (c_backslash :: lit "u202" ++ [x]) = 6%nat) as H6 by done.
    destruct (_ && _); [change (length (c_backslash :: lit "ufffd")) with 6%nat; lia|].
    destruct (_ || _); [rewrite H6; lia|]. rewrite length_take. lia.
Qed.

Lemma quote_bound s : len (quote s) <= 2 + 6 * slen s.
Proof.
  unfold quote, len, slen. rewrite !length_app. pose proof (escape_bound (String.length s) (str_bytes s)) as H.
  rewrite length_str_bytes in H. cbn [length]. lia.
Qed.

Lemma digits_length fuel z k : (1 <= k)%nat -> 0 <= z < 10 ^ Z.of_nat k -> (length (digits fuel z) <= k)%nat.
Proof.
  revert z k. induction fuel as [|fuel IH]; intros z k Hk Hz; cbn [digits]; [cbn; lia|].
  rewrite length_app. cbn [length]. destruct (Z.ltb_spec z 10); [cbn; lia|].
  destruct k as [|[|k]]; [lia|cbn in Hz; lia|].
  rewrite Nat2Z.inj_succ, Z.pow_succ_r in Hz by lia.
  assert (length (digits fuel (z / 10)) <= S k)%nat; [|lia].
  apply IH; [lia|]. split; [apply Z.div_pos; lia|]. apply Z.div_lt_upper_bound; lia.
Qed.

(** The decimal text of an [int64] has at most 20 characters. *)
Lemma decimal_bound z : - 2 ^ 63 <= z < 2 ^ 63 -> len (decimal z) <= 20.
Proof.
  intros Hz. unfold decimal, len. rewrite length_app.
  pose proof (digits_length (S (Z.to_nat (Z.log2 (Z.abs z)))) (Z.abs z) 19) as H.
  destruct (z <? 0); cbn [length]; lia.
Qed.

Lemma joined_length parts :
  Z.of_nat (length (joined parts)) + 1 = Z.of_nat (sum_list_with (fun p => S (length p)) parts) + (if parts is [] then 1 else 0).
Proof.
  induction parts as [|p [|p' parts] IH]; [done|cbn; lia|].
  rewrite joined_cons, length_app. cbn [sum_list_with] in *. cbn [app length]. lia.
Qed.
End Sizes.

(** ** Objects, field by field

    The encoder's optional fields, and a client that reads an object by field
    name and gives every absent field its zero value. *)

Definition is_empty (s : string) : bool := bool_decide (s = EmptyString).

(** A string field that is omitted when empty. *)
Definition opt_str (name s : string) : list (string * json) := omit_if (is_empty s) name (JStr s).

Definition get (name : string) (kvs : list (string * json)) : option json :=
  snd <$> head (filter (fun kv => kv.1 = name) kvs).

Definition as_str (v : option json) : option string :=
  match v with
  | None => Some EmptyString
  | Some (JStr s) => Some s
  | _ => None
  end.
Definition as_num (v : option json) : option Z :=
  match v with
  | None => Some 0
  | Some (JNum z) => Some z
  | _ => None
  end.
Definition as_bool (v : option json) : option bool :=
  match v with
  | None => Some false
  | Some (JBool b) => Some b
  | _ => None
  end.
Definition as_map (v : option json) : option (gmap string string) :=
  match v with
  | None => Some ∅
  | Some (JObj kvs) =>
      list_to_map <$> mapM (fun kv : string * json => match kv.2 with JStr s => Some (kv.1, s) | _ => None end) kvs
  | _ => None
  end.
Definition as_list {A} (f : json -> option A) (v : option json) : option (list A) :=
  match v with
  | None => Some []
  | Some (JArr vs) => mapM f vs
  | _ => None
  end.

(** The map a client gets: keys and values made valid; fields whose names
    become equal are one field. *)
Definition valid_fields (m : gmap string string) : gmap string string :=
  list_to_map ((fun kv => (ToValid kv.1, ToValid kv.2)) <$> merge_sort key_le (map_to_list m)).

Section Objects.
Lemma get_app name a b : get name (a ++ b) = match get name a with Some v => Some v | None => get name b end.
Proof. unfold get. rewrite filter_app. by destruct (filter _ a). Qed.

Lemma norm_omit zero name v :
  ToValid name = name ->
  map (fun kv => (ToValid kv.1, norm kv.2)) (omit_if zero name v) = omit_if zero name (norm v).
Proof. intros Hn. destruct zero; [done|]. cbn [omit_if map fst snd]. by rewrite Hn. Qed.

Lemma get_omit name zero name' v :
  get name (omit_if zero name' v) = if decide (name' = name) then (if zero then None else Some v) else None.
Proof.
  unfold get, omit_if. destruct zero; [by case_decide|].
  destruct (decide (name' = name)); [by rewrite filter_cons_True|by rewrite filter_cons_False].
Qed.

Lemma ToValid_empty s : ToValid s = EmptyString -> s = EmptyString.
Proof.
  intros H. apply (f_equal str_bytes) in H. unfold ToValid in H. rewrite str_bytes_str in H.
  destruct s as [|c s]; [done|]. exfalso. cbn [String.length] in H.
  change (str_bytes (String c s)) with (Ascii.byte_of_ascii c :: str_bytes s) in H. cbn [to_valid] in H.
  destruct (decode_rune_spec (Ascii.byte_of_ascii c) (str_bytes s)) as [[_ Hd]|(r & n & Hd & _ & Hn & _)];
    rewrite Hd in H; apply app_eq_nil in H as [H _]; destruct (_ && _); try done.
  destruct n; [lia|done].
Qed.

Lemma as_str_opt s (zero := is_empty s) :
  as_str (if zero then None else Some (JStr (ToValid s))) = Some (ToValid s).
Proof. unfold zero, is_empty. destruct (bool_decide_reflect (s = EmptyString)) as [->|]; done. Qed.

Lemma as_num_opt z : as_num (if z =? 0 then None else Some (JNum z)) = Some z.
Proof. destruct (Z.eqb_spec z 0) as [->|]; done. Qed.

(** A list of objects, omitted when empty. *)
Lemma as_list_opt {A B} (f : json -> option B) (enc : A -> json) (g : A -> B) (l : list A) :
  (forall x, f (norm (enc x)) = Some (g x)) ->
  as_list f (if bool_decide (length l = 0%nat) then None else Some (norm (JArr (map enc l)))) = Some (map g l).
Proof.
  intros Hf. destruct l as [|x l]; [done|]. rewrite bool_decide_false by done. cbn [norm as_list].
  generalize (x :: l). clear x l. intros l. rewrite map_map. induction l as [|x l IH]; [done|].
  cbn [map mapM]. rewrite Hf. cbn. by rewrite IH.
Qed.

Lemma as_map_sorted (m : gmap string string) :
  as_map (if bool_decide (m = ∅) then None else Some (norm (json_map m))) = Some (valid_fields m).
Proof.
  unfold valid_fields. destruct (bool_decide_reflect (m = ∅)) as [->|_]; [by vm_compute|].
  unfold json_map. cbn [norm as_map]. rewrite map_map. cbn [fst snd norm].
  generalize (merge_sort key_le (map_to_list m)). intros l.
  assert (mapM (fun kv : string * json => match kv.2 with JStr s => Some (kv.1, s) | _ => None end)
    (map (fun kv => (ToValid kv.1, JStr (ToValid kv.2))) l) =
    Some ((fun kv => (ToValid kv.1, ToValid kv.2)) <$> l)) as ->; [|done].
  induction l as [|kv l IH]; [done|]. cbn. by rewrite IH.
Qed.
Lemma get_cons name k v l : get name ((k, v) :: l) = if decide (k = name) then Some v else get name l.
Proof.
  unfold get. destruct (decide (k = name)); [by rewrite filter_cons_True|by rewrite filter_cons_False].
Qed.

Lemma norm_cons k v l :
  ToValid k = k ->
  map (fun kv : string * json => (ToValid kv.1, norm kv.2)) ((k, v) :: l) =
  (k, norm v) :: map (fun kv => (ToValid kv.1, norm kv.2)) l.
Proof. intros Hk. cbn [map fst snd]. by rewrite Hk. Qed.

Lemma option_id {A} (o : option A) : match o with Some v => Some v | None => None end = o.
Proof. by destruct o. Qed.

Lemma valid_fields_id m :
  map_Forall (fun k v => ValidString k /\ ValidString v) m -> valid_fields m = m.
Proof.
  intros Hm. unfold valid_fields. pose proof (merge_sort_Permutation key_le (map_to_list m)) as Hp.
  assert ((fun kv => (ToValid kv.1, ToValid kv.2)) <$> merge_sort key_le (map_to_list m) =
          merge_sort key_le (map_to_list m)) as ->.
  { rewrite <- list_fmap_id. apply list_fmap_ext. intros i [k v] Hkv.
    apply list_elem_of_lookup_2 in Hkv. rewrite Hp in Hkv. apply elem_of_map_to_list in Hkv.
    destruct (Hm k v Hkv) as [Hk Hv]. unfold ValidString in *. unfold id. cbn [fst snd]. by rewrite Hk, Hv. }
  rewrite <- (list_to_map_to_list m) at 2. symmetry.
  apply list_to_map_proper; [apply NoDup_fst_map_to_list|by symmetry].
Qed.
End Objects.

(** Look a field up in an object written by the encoder. *)
Ltac read_fields :=
  cbn [norm]; rewrite ?map_app, ?norm_omit, ?norm_cons by reflexivity; cbn [map norm];
  rewrite ?get_app, ?get_omit, ?get_cons;
  repeat match goal with |- context [decide (?a = ?b)] =>
    first [rewrite (decide_True (P := a = b)) by done | rewrite (decide_False (P := a = b)) by done] end;
  change (get _ []) with (@None json); cbv iota; rewrite ?option_id.

