(* ===== verification/Base64.v ===== *)
(** * Standard Base64 ([encoding/base64])

    [StdEncoding.EncodeToString] and [DecodeString]: padding, line breaks
    skipped between characters, and the offset of the first bad one. *)

From S2P Require Import Prelude GoStd.

Definition alphabet : list byte :=
  str_bytes "ABCDEFGHIJKLMNOPQRSTUVWXYZabcdefghijklmnopqrstuvwxyz0123456789+/".
Definition pad : byte := zb 61.

(** ** Encoding, three bytes at a time *)

Definition sextet (val : Z) (shift : Z) : byte :=
  default x00 (alphabet !! Z.to_nat (Z.land (Z.shiftr val shift) 63)).

Fixpoint encode (src : list byte) : list byte :=
  match src with
  | b0 :: b1 :: b2 :: rest =>
      let val := Z.lor (Z.lor (Z.shiftl (bz b0) 16) (Z.shiftl (bz b1) 8)) (bz b2) in
      sextet val 18 :: sextet val 12 :: sextet val 6 :: sextet val 0 :: encode rest
  | [b0; b1] =>
      let val := Z.lor (Z.shiftl (bz b0) 16) (Z.shiftl (bz b1) 8) in
      [sextet val 18; sextet val 12; sextet val 6; pad]
  | [b0] =>
      let val := Z.shiftl (bz b0) 16 in
      [sextet val 18; sextet val 12; pad; pad]
  | [] => []
  end.

(** ** Decoding *)

Definition newline (c : byte) : bool := (bz c =? 10) || (bz c =? 13).

Fixpoint index_of (c : byte) (l : list byte) (i : Z) : option Z :=
  match l with
  | [] => None
  | x :: l => if decide (x = c) then Some i else index_of c l (i + 1)
  end.

(** [decodeMap] *)
Definition decode_char (c : byte) : option Z := index_of c alphabet 0.

(** The bytes of a quantum of [j] sextets: one less than there are sextets. *)
Definition quantum (dbuf : list Z) : list byte :=
  let d i := default 0 (dbuf !! i) in
  let val := Z.lor (Z.lor (Z.lor (Z.shiftl (d 0%nat) 18) (Z.shiftl (d 1%nat) 12)) (Z.shiftl (d 2%nat) 6)) (d 3%nat) in
  take (length dbuf - 1) [zb (Z.shiftr val 16); zb (Z.shiftr val 8); zb val].

Fixpoint skip_newlines (src : list byte) (si : Z) : list byte * Z :=
  match src with
  | c :: rest => if newline c then skip_newlines rest (si + 1) else (src, si)
  | [] => ([], si)
  end.

(** What follows the first padding character, with [si] its successor: the
    offset of a corrupt character, or nothing, and whether the quantum counts. *)
Definition padding (j : nat) (src : list byte) (si : Z) : bool * option Z :=
  let trailing rest si :=
    match skip_newlines rest si with
    | ([], _) => (true, None)
    | (_, si) => (true, Some si)
    end in
  match j with
  | 2%nat =>
      match skip_newlines src si with
      | ([], si) => (false, Some si)
      | (c :: rest, si) => if decide (c = pad) then trailing rest (si + 1) else (false, Some (si - 1))
      end
  | 3%nat => trailing src si
  | _ => (false, Some (si - 1))
  end.

(** From offset [si], with the sextets [dbuf] of the current quantum: the bytes
    decoded and the offset of the first corrupt character. *)
Fixpoint decode_from (src : list byte) (si : Z) (dbuf : list Z) : list byte * option Z :=
  match src with
  | [] => if decide (dbuf = []) then ([], None) else ([], Some (si - len dbuf))
  | c :: rest =>
      match decode_char c with
      | Some v =>
          if decide (length dbuf = 3%nat)
          then let '(out, err) := decode_from rest (si + 1) [] in (quantum (dbuf ++ [v]) ++ out, err)
          else decode_from rest (si + 1) (dbuf ++ [v])
      | None =>
          if newline c then decode_from rest (si + 1) dbuf
          else if decide (c = pad)
          then let '(counts, err) := padding (length dbuf) rest (si + 1) in
               (if counts then quantum dbuf else [], err)
          else ([], Some si)
      end
  end.

Definition EncodeToString (data : list byte) : string := bytes_str (encode data).

Definition CorruptInputError (off : Z) : msg := Sprintf "illegal base64 data at input byte %d" [AInt off].
Definition DecodeString (s : string) : list byte * option msg :=
  let '(out, err) := decode_from (str_bytes s) 0 [] in (out, CorruptInputError <$> err).

Example encode_sample : EncodeToString (map zb [77; 97; 110; 77]) = "TWFuTQ=="%string.
Proof. by vm_compute. Qed.
Example decode_sample : DecodeString (bytes_str (str_bytes "TW" ++ [zb 10] ++ str_bytes "FuTQ=" ++ [zb 13] ++ str_bytes "=")) =
  (map zb [77; 97; 110; 77], None).
Proof. by vm_compute. Qed.
(** The bits a shortened quantum does not use are not checked. *)
Example decode_loose : DecodeString "TR==" = DecodeString "TQ==".
Proof. by vm_compute. Qed.
Example decode_errors :
  map (fun s => (DecodeString s).2) ["TWF"; "TW*F"; "TQ=X"; "TQ==TQ=="; "=QQQ"]%string =
  map (fun off => Some (CorruptInputError off)) [0; 2; 2; 4; 0].
Proof. by vm_compute. Qed.

(** ** Lemmas *)

(** Linear arithmetic with division by constants. *)
Ltac div_lia := Z.to_euclidean_division_equations; lia.

Section Sextets.
Lemma decode_char_alphabet v :
  0 <= v < 64 -> decode_char (default x00 (alphabet !! Z.to_nat v)) = Some v.
Proof.
  intros Hv.
  assert (Forall (fun n => decode_char (default x00 (alphabet !! n)) = Some (Z.of_nat n)) (seq 0 64)) as H.
  { apply (bool_decide_unpack _). by vm_compute. }
  rewrite Forall_forall in H. rewrite (H (Z.to_nat v)) by (apply elem_of_seq; lia). by rewrite Z2Nat.id by lia.
Qed.

Lemma decode_sextet val k : decode_char (sextet val k) = Some (Z.shiftr val k mod 64).
Proof.
  unfold sextet. change 63 with (Z.ones 6). rewrite Z.land_ones by lia. change (2 ^ 6) with 64.
  apply decode_char_alphabet. apply Z.mod_pos_bound. lia.
Qed.

Lemma newline_no_char c : newline c = true -> decode_char c = None.
Proof. destruct c; try done; by intros _. Qed.

Lemma lor_add q b k : 0 <= k -> 0 <= b < 2 ^ k -> Z.lor (q * 2 ^ k) b = q * 2 ^ k + b.
Proof. intros Hk Hb. rewrite <- (lor_shiftl_add q b k), Z.shiftl_mul_pow2 by done. done. Qed.

Lemma lor2 a b : 0 <= b < 256 -> Z.lor (Z.shiftl a 16) (Z.shiftl b 8) = a * 65536 + b * 256.
Proof. intros Hb. rewrite lor_shiftl_add, Z.shiftl_mul_pow2 by (rewrite ?Z.shiftl_mul_pow2; lia). lia. Qed.

Lemma lor3 a b c : 0 <= b < 256 -> 0 <= c < 256 ->
  Z.lor (Z.lor (Z.shiftl a 16) (Z.shiftl b 8)) c = a * 65536 + b * 256 + c.
Proof.
  intros Hb Hc. rewrite lor2 by done. replace (a * 65536 + b * 256) with ((a * 256 + b) * 2 ^ 8) by lia.
  by rewrite lor_add by lia.
Qed.

(** The sextets of 24 bits, joined. *)
Lemma join_sextets val :
  0 <= val < 2 ^ 24 ->
  Z.lor (Z.lor (Z.lor (Z.shiftl (Z.shiftr val 18 mod 64) 18) (Z.shiftl (Z.shiftr val 12 mod 64) 12))
    (Z.shiftl (Z.shiftr val 6 mod 64) 6)) (Z.shiftr val 0 mod 64) = val.
Proof.
  intros Hv. rewrite !Z.shiftr_div_pow2, !Z.shiftl_mul_pow2 by lia.
  set (v0 := _ mod 64). set (v1 := val / 2 ^ 12 mod 64). set (v2 := val / 2 ^ 6 mod 64). set (v3 := val / 2 ^ 0 mod 64).
  assert (0 <= v1 < 64 /\ 0 <= v2 < 64 /\ 0 <= v3 < 64) as (?&?&?) by (split_and!; apply Z.mod_pos_bound; lia).
  rewrite lor_add by lia.
  replace (v0 * 2 ^ 18 + v1 * 2 ^ 12) with ((v0 * 2 ^ 6 + v1) * 2 ^ 12) by lia. rewrite lor_add by lia.
  replace ((v0 * 2 ^ 6 + v1) * 2 ^ 12 + v2 * 2 ^ 6) with (((v0 * 2 ^ 6 + v1) * 2 ^ 6 + v2) * 2 ^ 6) by lia.
  rewrite lor_add by lia. unfold v0, v1, v2, v3. clear -Hv.
  change (2 ^ 18) with (64 * (64 * 64)). change (2 ^ 12) with (64 * 64). change (2 ^ 6) with 64.
  change (2 ^ 0) with 1. rewrite <- !Z.div_div, Z.div_1_r by lia.
  assert (0 <= val / 64 / 64 / 64 < 64) as ?. { rewrite !Z.div_div by lia. split; [by apply Z.div_pos; lia|]. by apply Z.div_lt_upper_bound; lia. }
  rewrite (Z.mod_small (val / 64 / 64 / 64)) by done.
  pose proof (Z.div_mod val 64). pose proof (Z.div_mod (val / 64) 64). pose proof (Z.div_mod (val / 64 / 64) 64). lia.
Qed.

Lemma bytes24 a b c (val := a * 65536 + b * 256 + c) :
  0 <= a < 256 -> 0 <= b < 256 -> 0 <= c < 256 ->
  (val / 2 ^ 16) mod 2 ^ 8 = a /\ (val / 2 ^ 8) mod 2 ^ 8 = b /\ val mod 2 ^ 8 = c.
Proof.
  intros Ha Hb Hc. unfold val. change (2 ^ 16) with (256 * 256). change (2 ^ 8) with 256.
  rewrite <- !Z.div_div by lia.
  assert ((a * 65536 + b * 256 + c) / 256 = a * 256 + b) as -> by div_lia.
  assert ((a * 256 + b) / 256 = a) as -> by div_lia. split_and!; div_lia.
Qed.

(** A quantum whose missing sextets are zero gives the leading bytes of 24 bits. *)
Lemma quantum_bytes dbuf b0 b1 b2 (val := bz b0 * 65536 + bz b1 * 256 + bz b2) :
  (forall i, default 0 (dbuf !! i) = default 0 (map (fun k => Z.shiftr val k mod 64) [18; 12; 6; 0] !! i)) ->
  quantum dbuf = take (length dbuf - 1) [b0; b1; b2].
Proof.
  intros Hd. unfold quantum. rewrite !Hd. cbn [map lookup list_lookup default from_option id].
  pose proof (bz_range b0). pose proof (bz_range b1). pose proof (bz_range b2).
  rewrite join_sextets by (unfold val; lia). f_equal. rewrite !Z.shiftr_div_pow2 by lia.
  destruct (bytes24 (bz b0) (bz b1) (bz b2)) as (E0 & E1 & E2); [done..|].
  f_equal; [|f_equal; [|f_equal]]; apply (inj bz); by rewrite bz_zb.
Qed.

Lemma decode_encode data si : decode_from (encode data) si [] = (data, None).
Proof.
  remember (length data) as n eqn:Hn. revert data si Hn.
  induction n as [n IH] using lt_wf_ind. intros [|b0 [|b1 [|b2 rest]]] si ->; [done| | |].
  all: pose proof (bz_range b0); cbn [encode]; set (val := Z.lor _ _) || set (val := Z.shiftl (bz b0) 16).
  - cbn [decode_from]. rewrite !decode_sextet. cbn [length app]. rewrite !decide_False by done.
    change (decode_char pad) with (@None Z). change (newline pad) with false. cbn iota beta.
    rewrite decide_True by done. cbn [padding skip_newlines length].
    try (rewrite decide_True by done; cbn [skip_newlines]).
    rewrite (quantum_bytes _ b0 x00 x00); [done|]. change (bz x00) with 0.
    assert (val = bz b0 * 65536 + 0 * 256 + 0) as -> by (unfold val; rewrite Z.shiftl_mul_pow2; lia).
    intros [|[|[|[|i]]]]; cbn [lookup list_lookup default from_option id map]; try done;
      rewrite Z.shiftr_div_pow2 by lia; div_lia.
  - cbn [decode_from]. rewrite !decode_sextet. cbn [length app]. rewrite !decide_False by done.
    change (decode_char pad) with (@None Z). change (newline pad) with false. cbn iota beta.
    rewrite decide_True by done. cbn [padding skip_newlines length].
    try (rewrite decide_True by done; cbn [skip_newlines]).
    rewrite (quantum_bytes _ b0 b1 x00); [done|]. change (bz x00) with 0.
    pose proof (bz_range b1). unfold val. rewrite lor2, Z.add_0_r by lia.
    intros [|[|[|[|i]]]]; cbn [lookup list_lookup default from_option id map]; try done;
      rewrite Z.shiftr_div_pow2 by lia; div_lia.
  - cbn [decode_from]. rewrite !decode_sextet. cbn [length app]. rewrite !decide_False by done.
    rewrite decide_True by done. rewrite (IH (length rest)) by (cbn; lia).
    rewrite (quantum_bytes _ b0 b1 b2); [done|].
    pose proof (bz_range b1). pose proof (bz_range b2). unfold val. by rewrite lor3 by lia.
Qed.
End Sextets.

(** ** Line breaks *)

Definition unbroken (l : list byte) : list byte := filter (fun c => newline c = false) l.

Section Breaks.
Lemma unbroken_cons c l : unbroken (c :: l) = if newline c then unbroken l else c :: unbroken l.
Proof. unfold unbroken. rewrite filter_cons. by destruct (newline c). Qed.

Lemma unbroken_idem l : unbroken (unbroken l) = unbroken l.
Proof. apply filter_all, Forall_forall. intros c Hc. by apply list_elem_of_filter in Hc as [Hc _]. Qed.

Lemma skip_newlines_spec l si :
  exists si', match unbroken l with
  | [] => skip_newlines l si = ([], si')
  | c :: t => exists r, skip_newlines l si = (c :: r, si') /\ unbroken r = t
  end.
Proof.
  revert si. induction l as [|c l IH]; intros si; [by exists si|].
  rewrite unbroken_cons. cbn [skip_newlines]. destruct (newline c); [apply IH|].
  exists si, l. done.
Qed.

Lemma padding_unbroken j l si si' :
  padding j (unbroken l) si = (true, None) -> padding j l si' = (true, None).
Proof.
  assert (forall l si si',
    (let (x, k) := skip_newlines (unbroken l) si in match x with [] => (true, None) | _ => (true, Some k) end) = (true, None) ->
    (let (x, k) := skip_newlines l si' in match x with [] => (true, None) | _ => (true, Some k) end) = (true, @None Z)) as Ht.
  { clear. intros l si si'. destruct (skip_newlines_spec (unbroken l) si) as [k1 H1].
    destruct (skip_newlines_spec l si') as [k2 H2]. rewrite unbroken_idem in H1.
    destruct (unbroken l) as [|c t]; [by rewrite H2|]. destruct H1 as (r & -> & _). done. }
  destruct j as [|[|[|[|j]]]]; try done; [|apply Ht]. unfold padding.
  destruct (skip_newlines_spec (unbroken l) si) as [k1 H1].
  destruct (skip_newlines_spec l si') as [k2 H2]. rewrite unbroken_idem in H1.
  destruct (unbroken l) as [|c t]; [by rewrite H1|].
  destruct H1 as (r1 & -> & Hr1), H2 as (r2 & -> & Hr2). case_decide; [|done]. subst t.
  intros Hp. apply (Ht r2 (k1 + 1)). rewrite Hr2. clear Hr2.
  destruct (skip_newlines_spec r1 (k1 + 1)) as [k3 H3], (skip_newlines_spec (unbroken r1) (k1 + 1)) as [k4 H4].
  rewrite unbroken_idem in H4. destruct (unbroken r1); [by rewrite H4|].
  destruct H3 as (r3 & E3 & _). by rewrite E3 in Hp.
Qed.

(** Line breaks change at most the offset of an error. *)
Lemma decode_unbroken l si si' dbuf out :
  decode_from (unbroken l) si dbuf = (out, None) -> decode_from l si' dbuf = (out, None).
Proof.
  revert si si' dbuf out. induction l as [|c l IH]; intros si si' dbuf out.
  { cbn. by case_decide; [intros [= <-]|]. }
  rewrite unbroken_cons. destruct (newline c) eqn:E; cbn [decode_from].
  - rewrite newline_no_char by done. rewrite E. apply IH.
  - destruct (decode_char c) as [v|].
    + case_decide; [|apply IH]. destruct (decode_from (unbroken l) (si + 1) []) as [o err] eqn:Ed.
      intros [= <- ->]. by rewrite (IH _ (si' + 1) _ _ Ed).
    + rewrite E. case_decide; [|done].
      destruct (padding (length dbuf) (unbroken l) (si + 1)) as [counts err] eqn:Ep. intros [= <- ->].
      assert (counts = true) as -> by (unfold padding in Ep; destruct (length dbuf) as [|[|[|[|j]]]];
        repeat (case_match; try done); congruence).
      by rewrite (padding_unbroken _ _ _ (si' + 1) Ep).
Qed.

Lemma length_encode data : Z.of_nat (length (encode data)) = 4 * ((len data + 2) / 3).
Proof.
  remember (length data) as n eqn:Hn. unfold len. rewrite <- Hn. revert data Hn.
  induction n as [n IH] using lt_wf_ind. intros [|b0 [|b1 [|b2 rest]]] ->; [done..|].
  cbn [encode length]. rewrite !Nat2Z.inj_succ, (IH (length rest)) by (cbn; lia). div_lia.
Qed.

Lemma encode_characters data : Forall (fun c => c ∈ pad :: alphabet) (encode data).
Proof.
  assert (forall val k, sextet val k ∈ pad :: alphabet) as Hs.
  { intros val k. unfold sextet. change 63 with (Z.ones 6). rewrite Z.land_ones by lia.
    pose proof (Z.mod_pos_bound (Z.shiftr val k) (2 ^ 6) eq_refl) as H.
    set (i := Z.to_nat _). assert (i < length alphabet)%nat as Hi by (change (length alphabet) with 64%nat; unfold i; lia).
    destruct (lookup_lt_is_Some_2 _ _ Hi) as [c Hc]. rewrite Hc. apply elem_of_cons. right.
    by eapply list_elem_of_lookup_2. }
  assert (pad ∈ pad :: alphabet) as Hp by (apply elem_of_cons; by left).
  remember (length data) as n eqn:Hn. revert data Hn.
  induction n as [n IH] using lt_wf_ind. intros [|b0 [|b1 [|b2 rest]]] ->; cbn [encode]; auto 10 using Forall_cons, Forall_nil.
  repeat (constructor; [apply Hs|]). apply (IH (length rest)); [cbn; lia|done].
Qed.
End Breaks.
