(* ===== verification/GqlOpcodes.v ===== *)
(** * GQL protocol constants ([engine/gql/opcodes.go], [engine/gql/errors.go])

    The frame version, opcodes, flags, the operations with their
    classification, the size limits and the error-code names. *)

From S2P Require Import Prelude GoStd.

Definition Version : byte := x01.

(** [type Opcode byte] *)
Definition OpcodeQuery : byte := x01.
Definition OpcodeMutate : byte := x02.
Definition OpcodeResult : byte := x03.
Definition OpcodeError : byte := x04.

(** [type Flag uint16] *)
Definition FlagNone : Z := 0.
Definition FlagCompressed : Z := 1.
Definition FlagEncrypted : Z := 2.

(** [type Operation string] *)
Definition OpListEntries : string := "list_entries".
Definition OpGetEntry : string := "get_entry".
Definition OpQueryEntries : string := "query_entries".
Definition OpCreateEntry : string := "create_entry".
Definition OpUpdateEntry : string := "update_entry".
Definition OpDeleteEntry : string := "delete_entry".
Definition OpSearchEntries : string := "search_entries".
Definition OpFileListFolder : string := "file.list_folder".
Definition OpFileCreateFolder : string := "file.create_folder".
Definition OpFileRenameFolder : string := "file.rename_folder".
Definition OpFileDeleteFolder : string := "file.delete_folder".
Definition OpFileMove : string := "file.move".
Definition OpFileIngest : string := "file.ingest".
Definition OpFileDownload : string := "file.download".
Definition OpFileUploadStatus : string := "file.upload_progress".
Definition OpWorkspaceList : string := "workspace.list".
Definition OpWorkspaceCreate : string := "workspace.create".
Definition OpWorkspaceSwitch : string := "workspace.switch".
Definition OpWorkspaceRename : string := "workspace.rename".
Definition OpWorkspaceDelete : string := "workspace.delete".
Definition OpSyncListPeers : string := "sync.list_peers".
Definition OpSyncTrigger : string := "sync.trigger".
Definition OpAuditList : string := "audit.list".
Definition OpToolSSHGen : string := "tool.ssh_gen".
Definition OpToolRecoveryPhrase : string := "tool.recovery_phrase".
Definition OpSystemHealth : string := "system.health".

Definition isValidOpcode (o : byte) : bool :=
  one_of o [OpcodeQuery; OpcodeMutate; OpcodeResult; OpcodeError].

Definition isValidOperation (op : string) : bool :=
  one_of op
    [OpListEntries; OpGetEntry; OpQueryEntries;
     OpCreateEntry; OpUpdateEntry; OpDeleteEntry;
     OpSearchEntries;
     OpFileListFolder; OpFileCreateFolder; OpFileRenameFolder;
     OpFileDeleteFolder; OpFileMove; OpFileIngest; OpFileDownload;
     OpFileUploadStatus;
     OpWorkspaceList; OpWorkspaceCreate; OpWorkspaceSwitch;
     OpWorkspaceRename; OpWorkspaceDelete;
     OpSyncListPeers; OpSyncTrigger;
     OpAuditList;
     OpToolSSHGen; OpToolRecoveryPhrase;
     OpSystemHealth].

Definition isReadOperation (op : string) : bool :=
  one_of op
    [OpListEntries; OpGetEntry; OpQueryEntries;
     OpSearchEntries;
     OpFileListFolder; OpFileDownload; OpFileUploadStatus;
     OpWorkspaceList;
     OpSyncListPeers;
     OpAuditList;
     OpToolRecoveryPhrase;
     OpSystemHealth].

Definition isWriteOperation (op : string) : bool :=
  one_of op
    [OpCreateEntry; OpUpdateEntry; OpDeleteEntry;
     OpFileCreateFolder; OpFileRenameFolder; OpFileDeleteFolder;
     OpFileMove; OpFileIngest;
     OpWorkspaceCreate; OpWorkspaceSwitch; OpWorkspaceRename;
     OpWorkspaceDelete;
     OpSyncTrigger;
     OpToolSSHGen].

Definition FrameHeaderSize : nat := 8.
Definition MaxPayloadSize : Z := 16 * 1024 * 1024.
Definition MaxNamespaceLen : Z := 128.
Definition MaxEntryIDLen : Z := 64.
Definition MaxCategoryLen : Z := 32.
Definition MaxFieldKeyLen : Z := 64.
Definition MaxFieldValueLen : Z := 8192.
Definition MaxFieldsCount : Z := 100.
Definition MaxDataLen : Z := 10 * 1024 * 1024.

(** [errors.go]: the names of the error codes of a result. *)
Definition ErrorCodeNames : gmap Z string :=
  list_to_map
    [(-1, "BUS_TIMEOUT"); (-2, "INVALID_STORAGE_RESPONSE"); (-3, "STORAGE_ERROR");
     (-10, "MISSING_ENTRY_ID"); (-11, "ENTRY_NOT_FOUND");
     (-20, "CATEGORY_QUERY_FAILED");
     (-30, "CREATE_FAILED"); (-31, "UPDATE_FAILED"); (-32, "DELETE_FAILED");
     (-100, "DISPATCHER_UNAVAILABLE"); (-101, "INVALID_FRAME");
     (-102, "SCHEMA_VALIDATION"); (-103, "ACL_DENIED");
     (-104, "NOT_A_QUERY_FRAME"); (-105, "DISPATCH_ERROR")]%string.

Definition ErrorCodeName (code : Z) : string :=
  match ErrorCodeNames !! code with
  | Some name => name
  | None => "UNKNOWN"
  end.

(** ** Classification *)

Lemma read_write_disjoint op : isReadOperation op = true -> isWriteOperation op = false.
Proof.
  unfold isReadOperation. rewrite one_of_true. intros H.
  repeat (apply elem_of_cons in H as [->|H]; [by vm_compute|]). by apply elem_of_nil in H.
Qed.

Lemma valid_read_or_write op :
  isValidOperation op = isReadOperation op || isWriteOperation op.
Proof.
  destruct (isValidOperation op) eqn:E.
  - unfold isValidOperation in E. rewrite one_of_true in E.
    repeat (apply elem_of_cons in E as [->|E]; [by vm_compute|]). by apply elem_of_nil in E.
  - symmetry. apply orb_false_iff.
    unfold isValidOperation, isReadOperation, isWriteOperation in *.
    rewrite one_of_false in E. split; apply one_of_false; intros H; apply E; clear E.
    all: repeat (apply elem_of_cons in H as [->|H]; [by apply one_of_true; vm_compute|]).
    all: by apply elem_of_nil in H.
Qed.

Lemma valid_read_iff op :
  isReadOperation op = true <-> isValidOperation op = true /\ isWriteOperation op = false.
Proof.
  rewrite valid_read_or_write. pose proof (read_write_disjoint op).
  destruct (isReadOperation op), (isWriteOperation op); cbn; naive_solver.
Qed.

(** An accepted operation fits its length-prefixed field. *)
Lemma valid_operation_len op : isValidOperation op = true -> op <> EmptyString /\ slen op <= 20.
Proof.
  unfold isValidOperation. rewrite one_of_true. intros H.
  repeat (apply elem_of_cons in H as [->|H]; [by vm_compute|]). by apply elem_of_nil in H.
Qed.
