(* ===== verification/GqlFrame.v ===== *)
(** * GQL frames ([engine/gql/frame.go])

    The eight-byte header and the payload. [Frame_Encode] writes into a
    buffer the way the code does; [frame_wire] is the layout it must produce. *)

From S2P Require Import Prelude GoStd GqlOpcodes.

(** The errors of the package: [fmt.Errorf] values and the two error structs
    of the validator. *)
Inductive gql_error : Type :=
| Errorf (m : msg)
| SyntacticError (Field : string) (Reason Details : msg)
| SemanticError (Operation : string) (Reason : msg).

Record Frame := mkFrame {
  f_Version : byte;
  f_Opcode : byte;
  f_Flags : Z;
  f_PayloadSize : Z;
  f_Payload : list byte
}.
#[global] Instance Frame_eq_dec : EqDecision Frame.
Proof. solve_decision. Defined.

Definition Frame_Encode (f : Frame) : res gql_error (list byte) :=
  let buf := zeros (FrameHeaderSize + length (f_Payload f)) in
  buf ← set_index 0 (f_Version f) buf;
  buf ← set_index 1 (f_Opcode f) buf;
  buf ← store_at 2 (be_encode 2 (u16 (f_Flags f))) buf;
  buf ← store_at 4 (be_encode 4 (u32 (len (f_Payload f)))) buf;
  copy_at 8 (f_Payload f) buf.

Definition DecodeFrame (data : list byte) : res gql_error Frame :=
  _ ← check (len data <? Z.of_nat FrameHeaderSize)
        (Errorf (Sprintf "gql: frame too short: %d bytes (min %d)"
                   [AInt (len data); AInt (Z.of_nat FrameHeaderSize)]));
  version ← index 0 data;
  opcode ← index 1 data;
  flag_bytes ← slice 2 4 data;
  size_bytes ← slice 4 8 data;
  let flags := be_decode flag_bytes in
  let payloadSize := be_decode size_bytes in
  _ ← check (negb (bool_decide (version = Version)))
        (Errorf (Sprintf "gql: unsupported version %d (expected %d)"
                   [AInt (bz version); AInt (bz Version)]));
  _ ← check (negb (isValidOpcode opcode))
        (Errorf (Sprintf "gql: unknown opcode 0x%02x" [AInt (bz opcode)]));
  _ ← check (MaxPayloadSize <? payloadSize)
        (Errorf (Sprintf "gql: payload size %d exceeds max %d"
                   [AInt payloadSize; AInt MaxPayloadSize]));
  let expectedLen := Z.of_nat FrameHeaderSize + payloadSize in
  _ ← check (negb (len data =? expectedLen))
        (Errorf (Sprintf "gql: frame length mismatch: have %d bytes, header says %d"
                   [AInt (len data); AInt expectedLen]));
  payload ← (if 0 <? payloadSize
             then rest ← slice_from 8 data; copy_at 0 rest (zeros (Z.to_nat payloadSize))
             else Ret []);
  Ret {| f_Version := version; f_Opcode := opcode; f_Flags := flags;
         f_PayloadSize := payloadSize; f_Payload := payload |}.

(** ** The wire layout *)

Definition frame_wire (f : Frame) : list byte :=
  [f_Version f; f_Opcode f] ++ be_encode 2 (f_Flags f) ++
  be_encode 4 (len (f_Payload f)) ++ f_Payload f.

(** The frames the decoder accepts. *)
Record frame_ok (f : Frame) : Prop := {
  fo_version : f_Version f = Version;
  fo_opcode : isValidOpcode (f_Opcode f) = true;
  fo_flags : 0 <= f_Flags f < 2 ^ 16;
  fo_size : f_PayloadSize f = len (f_Payload f);
  fo_max : len (f_Payload f) <= MaxPayloadSize
}.

Lemma Frame_Encode_wire f : Frame_Encode f = Ret (frame_wire f).
Proof.
  unfold Frame_Encode, frame_wire. destruct f as [v o fl ps p]; cbn [f_Version f_Opcode f_Flags f_Payload].
  cbv zeta. rewrite <- (be_encode_mod 2 fl), <- (be_encode_mod 4 (len p)).
  change (zeros (FrameHeaderSize + length p)) with (x00 :: x00 :: zeros 6 ++ zeros (length p)).
  rewrite (set_index_app [] (x00 :: zeros 6 ++ zeros (length p)) v x00). cbn [mbind res_bind].
  rewrite (set_index_app [v] (zeros 6 ++ zeros (length p)) o x00). cbn [mbind res_bind].
  change (([v] ++ [o]) ++ zeros 6 ++ zeros (length p)) with ([v; o] ++ zeros 6 ++ zeros (length p)).
  rewrite store_at_off by (rewrite ?length_app, ?length_be_encode; cbn; lia).
  cbn [mbind res_bind]. rewrite (length_be_encode 2).
  rewrite store_at_off by (rewrite ?length_drop, ?length_app, ?length_be_encode; cbn; lia).
  cbn [mbind res_bind]. rewrite (length_be_encode 4).
  assert (drop 4 (drop 2 (zeros 6 ++ zeros (length p))) = zeros (length p)) as -> by done.
  rewrite copy_at_off by (rewrite ?length_app, ?length_be_encode, ?length_zeros; cbn; lia).
  rewrite drop_ge, app_nil_r by (rewrite length_zeros; lia).
  by rewrite <- !app_assoc.
Qed.

(** A frame's wire form parses back: the header fields are where the decoder reads them. *)
Lemma frame_wire_header f :
  exists b2 b3 b4 b5 b6 b7,
    frame_wire f = [f_Version f; f_Opcode f; b2; b3; b4; b5; b6; b7] ++ f_Payload f /\
    be_decode [b2; b3] = f_Flags f mod 2 ^ 16 /\
    be_decode [b4; b5; b6; b7] = len (f_Payload f) mod 2 ^ 32.
Proof.
  unfold frame_wire.
  pose proof (be_decode_encode 2 (f_Flags f)) as H2.
  pose proof (be_decode_encode 4 (len (f_Payload f))) as H4.
  do 6 eexists. split; [reflexivity|]. split; [exact H2|exact H4].
Qed.

(** On eight or more bytes the decoder runs its four checks in order and
    returns the bytes after the header as the payload. *)
Lemma DecodeFrame_header v o b2 b3 b4 b5 b6 b7 p :
  let size := be_decode [b4; b5; b6; b7] in
  DecodeFrame ([v; o; b2; b3; b4; b5; b6; b7] ++ p) =
    (_ ← check (negb (bool_decide (v = Version)))
          (Errorf (Sprintf "gql: unsupported version %d (expected %d)"
                     [AInt (bz v); AInt (bz Version)]));
     _ ← check (negb (isValidOpcode o))
          (Errorf (Sprintf "gql: unknown opcode 0x%02x" [AInt (bz o)]));
     _ ← check (MaxPayloadSize <? size)
          (Errorf (Sprintf "gql: payload size %d exceeds max %d" [AInt size; AInt MaxPayloadSize]));
     _ ← check (negb (8 + len p =? 8 + size))
          (Errorf (Sprintf "gql: frame length mismatch: have %d bytes, header says %d"
                     [AInt (8 + len p); AInt (8 + size)]));
     Ret (mkFrame v o (be_decode [b2; b3]) size p)).
Proof.
  intros size. unfold DecodeFrame.
  assert (len ([v; o; b2; b3; b4; b5; b6; b7] ++ p) = 8 + len p) as ->
    by (unfold len; rewrite length_app; cbn; lia).
  pose proof (len_nonneg p) as Hp. change (Z.of_nat FrameHeaderSize) with 8.
  destruct (Z.ltb_spec (8 + len p) 8); [lia|].
  set (data := [v; o; b2; b3; b4; b5; b6; b7] ++ p).
  assert (length data = 8 + length p)%nat as Hl by (unfold data; by rewrite length_app).
  change (index 0 data) with (Ret (E := gql_error) v).
  change (index 1 data) with (Ret (E := gql_error) o).
  rewrite !slice_in_range by (rewrite Hl; lia).
  change (take (4 - 2) (drop 2 data)) with [b2; b3].
  change (take (8 - 4) (drop 4 data)) with [b4; b5; b6; b7].
  cbn [check mbind res_bind]. fold size. cbv zeta.
  do 3 (apply bind_ext; intros ? _). apply bind_ext; intros ? Hc. apply check_Ret_inv, negb_false_iff, Z.eqb_eq in Hc.
  unfold slice_from. rewrite slice_in_range by (rewrite Hl; lia).
  change (drop 8 data) with p. unfold len in *.
  destruct (Z.ltb_spec 0 size) as [H0|H0]; cbn [mbind res_bind].
  - rewrite take_ge, copy_at_fresh by (rewrite ?length_zeros; lia). done.
  - destruct p; [done|cbn in *; lia].
Qed.

Lemma split_header (data : list byte) :
  8 <= len data ->
  exists v o b2 b3 b4 b5 b6 b7 p, data = [v; o; b2; b3; b4; b5; b6; b7] ++ p.
Proof.
  intros Hl. unfold len in Hl.
  do 8 (destruct data as [|? data]; [cbn in Hl; lia|]). by do 9 eexists.
Qed.

Lemma DecodeFrame_spec data f :
  DecodeFrame data = Ret f <-> frame_ok f /\ data = frame_wire f.
Proof.
  split.
  - intros H. destruct (Z.ltb_spec (len data) 8) as [Hl|Hl].
    { unfold DecodeFrame in H. change (Z.of_nat FrameHeaderSize) with 8 in H.
      apply Z.ltb_lt in Hl. by rewrite Hl in H. }
    destruct (split_header data Hl) as (v & o & b2 & b3 & b4 & b5 & b6 & b7 & p & ->).
    rewrite DecodeFrame_header in H. inv_res.
    apply negb_false_iff in Hr, Hr0, Hr2. apply bool_decide_eq_true in Hr. subst v.
    apply Z.ltb_ge in Hr1. apply Z.eqb_eq in Hr2. subst f.
    pose proof (be_decode_range [b2; b3]) as R2.
    assert (be_decode [b4; b5; b6; b7] = len p) as Es by lia.
    split.
    + split; cbn [f_Version f_Opcode f_Flags f_PayloadSize f_Payload]; [done|done|exact R2|done|lia].
    + unfold frame_wire. cbn [f_Version f_Opcode f_Flags f_PayloadSize f_Payload].
      rewrite <- Es. pose proof (be_encode_decode [b2; b3]) as E2.
      pose proof (be_encode_decode [b4; b5; b6; b7]) as E4.
      change (length [b2; b3]) with 2%nat in E2. change (length [b4; b5; b6; b7]) with 4%nat in E4.
      by rewrite E2, E4.
  - intros [[Hv Ho Hf Hs Hm] ->].
    destruct (frame_wire_header f) as (b2 & b3 & b4 & b5 & b6 & b7 & -> & E2 & E4).
    rewrite DecodeFrame_header, E2, E4. unfold MaxPayloadSize in *. pose proof (len_nonneg (f_Payload f)).
    rewrite !Z.mod_small by lia. rewrite Hv, bool_decide_true, Ho by done.
    destruct (Z.ltb_spec (16 * 1024 * 1024) (len (f_Payload f))); [lia|].
    rewrite Z.eqb_refl. cbn. destruct f; cbn in *; congruence.
Qed.

(** C2. The frame codec is canonical: [DecodeFrame] returns a frame exactly
    when the frame is well formed (current version, known opcode, flags and
    payload size in range) and encoding it gives back the input bytes. *)
Theorem DecodeFrame_canonical data f :
  DecodeFrame data = Ret f <-> frame_ok f /\ Frame_Encode f = Ret data.
Proof.
  rewrite Frame_Encode_wire, DecodeFrame_spec.
  split; (intros [H E]; split; [done|congruence]).
Qed.

(** No byte sequence makes [DecodeFrame] panic. *)
Lemma DecodeFrame_total data : DecodeFrame data <> Panic.
Proof.
  destruct (Z.ltb_spec (len data) 8) as [Hl|Hl].
  - unfold DecodeFrame. change (Z.of_nat FrameHeaderSize) with 8.
    apply Z.ltb_lt in Hl. by rewrite Hl.
  - destruct (split_header data Hl) as (v & o & b2 & b3 & b4 & b5 & b6 & b7 & p & ->).
    rewrite DecodeFrame_header. cbv zeta.
    repeat match goal with |- context [check ?g _] => destruct g; cbn [check mbind res_bind] end; done.
Qed.
