(* ===== verification/GqlResult.v ===== *)
(** * GQL results ([engine/gql/types.go], [frame.go])

    The result records, their JSON form with its field names and omitted
    zero values, and the result and error frames. [decode_result] is the
    client: it reads the JSON and gives every absent field its zero value. *)

From S2P Require Import Prelude GoStd Json GqlOpcodes GqlFrame.

Record GQLEntry := mkEntry {
  e_ID : string;
  e_Category : string;
  e_Type : string;
  e_Title : string;
  e_Fields : gmap string string;
  e_CreatedAt : Z;
  e_UpdatedAt : Z
}.

Record GQLResult := mkResult {
  r_RequestID : string;
  r_Success : bool;
  r_Entries : list GQLEntry;
  r_TotalCount : Z;
  r_ErrorCode : Z;
  r_ErrorMsg : string
}.

(** ** Encoding *)

Definition entry_json (e : GQLEntry) : json := JObj (
  [("id"%string, JStr (e_ID e)); ("category"%string, JStr (e_Category e))]
  ++ opt_str "type" (e_Type e)
  ++ opt_str "title" (e_Title e)
  ++ omit_if (bool_decide (e_Fields e = ∅)) "fields" (json_map (e_Fields e))
  ++ [("created_at"%string, JNum (e_CreatedAt e)); ("updated_at"%string, JNum (e_UpdatedAt e))]).

Definition result_json (r : GQLResult) : json := JObj (
  opt_str "request_id" (r_RequestID r)
  ++ [("success"%string, JBool (r_Success r))]
  ++ omit_if (bool_decide (length (r_Entries r) = 0%nat)) "entries" (JArr (map entry_json (r_Entries r)))
  ++ omit_if (r_TotalCount r =? 0) "total_count" (JNum (r_TotalCount r))
  ++ omit_if (r_ErrorCode r =? 0) "error_code" (JNum (r_ErrorCode r))
  ++ opt_str "error_msg" (r_ErrorMsg r)).

(** [json.Marshal(r)], which has no error for this type. *)
Definition EncodeResult (r : GQLResult) : list byte := print (result_json r).

Definition NewResultFrame (result : GQLResult) : Frame :=
  let payload := EncodeResult result in
  {| f_Version := Version; f_Opcode := OpcodeResult; f_Flags := FlagNone;
     f_PayloadSize := u32 (len payload); f_Payload := payload |}.

Definition NewErrorFrame (code : Z) (msg : string) : Frame :=
  let result := mkResult EmptyString false [] 0 code msg in
  let payload := EncodeResult result in
  {| f_Version := Version; f_Opcode := OpcodeError; f_Flags := FlagNone;
     f_PayloadSize := u32 (len payload); f_Payload := payload |}.

(** ** The client's decoder *)

Definition entry_of (j : json) : option GQLEntry :=
  match j with
  | JObj kvs =>
      id ← as_str (get "id" kvs); category ← as_str (get "category" kvs);
      type ← as_str (get "type" kvs); title ← as_str (get "title" kvs);
      fields ← as_map (get "fields" kvs);
      created ← as_num (get "created_at" kvs); updated ← as_num (get "updated_at" kvs);
      Some (mkEntry id category type title fields created updated)
  | _ => None
  end.

Definition result_of (j : json) : option GQLResult :=
  match j with
  | JObj kvs =>
      request ← as_str (get "request_id" kvs); success ← as_bool (get "success" kvs);
      entries ← as_list entry_of (get "entries" kvs); total ← as_num (get "total_count" kvs);
      code ← as_num (get "error_code" kvs); msg ← as_str (get "error_msg" kvs);
      Some (mkResult request success entries total code msg)
  | _ => None
  end.

Definition decode_result (payload : list byte) : option GQLResult := j ← parse payload; result_of j.

(** ** What the client gets *)

(** The result with every string made valid. *)
Definition valid_entry (e : GQLEntry) : GQLEntry :=
  mkEntry (ToValid (e_ID e)) (ToValid (e_Category e)) (ToValid (e_Type e)) (ToValid (e_Title e))
    (valid_fields (e_Fields e)) (e_CreatedAt e) (e_UpdatedAt e).

Definition valid_result (r : GQLResult) : GQLResult :=
  mkResult (ToValid (r_RequestID r)) (r_Success r) (map valid_entry (r_Entries r))
    (r_TotalCount r) (r_ErrorCode r) (ToValid (r_ErrorMsg r)).

(** Every string is valid UTF-8. *)
Definition entry_strings_valid (e : GQLEntry) : Prop :=
  ValidString (e_ID e) /\ ValidString (e_Category e) /\ ValidString (e_Type e) /\
  ValidString (e_Title e) /\ map_Forall (fun k v => ValidString k /\ ValidString v) (e_Fields e).
Definition strings_valid (r : GQLResult) : Prop :=
  ValidString (r_RequestID r) /\ ValidString (r_ErrorMsg r) /\ Forall entry_strings_valid (r_Entries r).

(** ** Lemmas *)

Section Decoding.
Lemma entry_of_json e : entry_of (norm (entry_json e)) = Some (valid_entry e).
Proof.
  unfold entry_json, opt_str. cbn [norm entry_of]. read_fields.
  rewrite !as_str_opt, as_map_sorted. done.
Qed.

Lemma entries_of_json es :
  as_list entry_of (if bool_decide (length es = 0%nat) then None else Some (norm (JArr (map entry_json es)))) =
  Some (map valid_entry es).
Proof. exact (as_list_opt entry_of entry_json valid_entry es entry_of_json). Qed.

Lemma result_of_json r : result_of (norm (result_json r)) = Some (valid_result r).
Proof.
  unfold result_json, opt_str. cbn [norm result_of]. read_fields.
  rewrite !as_str_opt, entries_of_json, !as_num_opt. done.
Qed.
End Decoding.

Section Validity.
Lemma valid_result_id r : strings_valid r -> valid_result r = r.
Proof.
  intros (H1 & H2 & Hes). destruct r as [rid ok es n c m]. unfold valid_result. cbn in *.
  rewrite H1, H2. f_equal. induction Hes as [|e es (Hi & Hc & Ht & Hti & Hf) _ IH]; [done|]. cbn.
  rewrite IH. f_equal. destruct e as [i cat t ti fs c1 c2]. unfold valid_entry. cbn in *.
  rewrite Hi, Hc, Ht, Hti, valid_fields_id by done. done.
Qed.

Lemma decode_EncodeResult r : decode_result (EncodeResult r) = Some (valid_result r).
Proof. unfold decode_result, EncodeResult. rewrite parse_print. apply result_of_json. Qed.
End Validity.

(** ** Frames *)

Section Frames.
(** Encoding a frame whose header is in order, and decoding it. *)
Lemma frame_roundtrip f :
  f_Version f = Version -> isValidOpcode (f_Opcode f) = true -> f_Flags f = FlagNone ->
  f_PayloadSize f = u32 (len (f_Payload f)) ->
  exists bytes, Frame_Encode f = Ret bytes /\
    (len (f_Payload f) <= MaxPayloadSize -> DecodeFrame bytes = Ret f) /\
    (MaxPayloadSize < len (f_Payload f) -> exists e, DecodeFrame bytes = Err e).
Proof.
  intros Hv Ho Hf Hs. exists (frame_wire f). split; [apply Frame_Encode_wire|]. split.
  - intros Hl. apply DecodeFrame_spec. split; [|done]. pose proof (len_nonneg (f_Payload f)).
    split; [done|done|rewrite Hf; by vm_compute| |done]. rewrite Hs. apply u32_small.
    unfold MaxPayloadSize in Hl. lia.
  - intros Hl. destruct (DecodeFrame (frame_wire f)) as [f'|e|] eqn:E; [|by exists e|by apply DecodeFrame_total in E].
    exfalso. apply DecodeFrame_spec in E as [[_ _ _ _ Hmax] E].
    destruct (frame_wire_header f) as (a & b & c & d & e & g & E1 & _).
    destruct (frame_wire_header f') as (a' & b' & c' & d' & e' & g' & E2 & _).
    rewrite E1, E2 in E. injection E as _ _ _ _ _ _ _ _ E. rewrite <- E in Hmax. lia.
Qed.

Lemma result_frame_roundtrip r :
  exists bytes, Frame_Encode (NewResultFrame r) = Ret bytes /\
    (len (EncodeResult r) <= MaxPayloadSize -> DecodeFrame bytes = Ret (NewResultFrame r)) /\
    (MaxPayloadSize < len (EncodeResult r) -> exists e, DecodeFrame bytes = Err e).
Proof. by apply (frame_roundtrip (NewResultFrame r)). Qed.
End Frames.

(** ** Sizes *)

Section Bounds.
Definition total (f : string * json -> nat) (kvs : list (string * json)) : Z := Z.of_nat (sum_list_with f kvs).
Definition member_size (kv : string * json) : nat := S (length (member kv)).

Lemma total_app f a b : total f (a ++ b) = total f a + total f b.
Proof. unfold total. rewrite sum_list_with_app. lia. Qed.
Lemma total_cons f kv kvs : total f (kv :: kvs) = Z.of_nat (f kv) + total f kvs.
Proof. unfold total. cbn. lia. Qed.
Lemma total_omit f zero name v : total f (omit_if zero name v) <= total f [(name, v)].
Proof. unfold total. destruct zero; cbn; lia. Qed.

Lemma sum_list_with_map {A B} (g : A -> B) (f : B -> nat) l :
  sum_list_with f (map g l) = sum_list_with (fun x => f (g x)) l.
Proof. induction l as [|x l IH]; cbn; [done|]. by rewrite IH. Qed.

Lemma sum_list_with_le {A} (f : A -> nat) (B : nat) l :
  (forall x, x ∈ l -> f x <= B)%nat -> (sum_list_with f l <= length l * B)%nat.
Proof.
  induction l as [|x l IH]; intros H; cbn; [lia|].
  pose proof (H x (list_elem_of_here x l)). assert (sum_list_with f l <= length l * B)%nat; [|lia].
  apply IH. intros y Hy. apply H. by right.
Qed.

Lemma obj_size kvs : len (print (JObj kvs)) <= 2 + total member_size kvs.
Proof.
  rewrite print_obj. unfold len, total. rewrite !length_app. cbn [length].
  pose proof (joined_length (map member kvs)) as H. rewrite sum_list_with_map in H.
  unfold member_size. destruct (map member kvs); lia.
Qed.

Lemma arr_size vs : len (print (JArr vs)) <= 2 + Z.of_nat (sum_list_with (fun v => S (length (print v))) vs).
Proof.
  cbn [print]. unfold len. rewrite !length_app. cbn [length].
  pose proof (joined_length (map print vs)) as H. rewrite sum_list_with_map in H.
  destruct (map print vs); lia.
Qed.

Lemma member_size_le k v n :
  len (print v) <= n -> Z.of_nat (member_size (k, v)) <= 4 + 6 * slen k + n.
Proof.
  intros Hv. unfold member_size, member. cbn [fst snd]. rewrite !length_app. cbn [length].
  pose proof (quote_bound k) as Hk. unfold len in *. lia.
Qed.
End Bounds.

Section Members.
Lemma str_member_size k s n : slen s <= n -> Z.of_nat (member_size (k, JStr s)) <= 6 + 6 * slen k + 6 * n.
Proof.
  intros Hs. pose proof (member_size_le k (JStr s) (2 + 6 * slen s) (quote_bound s)). lia.
Qed.

Lemma num_member_size k z : - 2 ^ 63 <= z < 2 ^ 63 -> Z.of_nat (member_size (k, JNum z)) <= 24 + 6 * slen k.
Proof. intros Hz. pose proof (member_size_le k (JNum z) 20 (decimal_bound z Hz)). lia. Qed.

End Members.

Lemma error_payload_size code msg :
  - 2 ^ 31 <= code < 2 ^ 31 -> slen msg <= 2500000 ->
  len (f_Payload (NewErrorFrame code msg)) <= MaxPayloadSize.
Proof.
  intros Hc Hm. cbn [f_Payload NewErrorFrame]. unfold EncodeResult, result_json.
  etransitivity; [apply obj_size|]. unfold opt_str. rewrite !total_app.
  pose proof (total_omit member_size (is_empty msg) "error_msg" (JStr msg)).
  pose proof (total_omit member_size (code =? 0) "error_code" (JNum code)).
  pose proof (str_member_size "error_msg" _ _ Hm). pose proof (num_member_size "error_code" code).
  assert (Z.of_nat (member_size ("success"%string, JBool false)) = 16) by done.
  rewrite !total_cons in *. unfold total in *. cbn [r_RequestID r_TotalCount r_Entries r_ErrorCode r_ErrorMsg r_Success] in *.
  cbn [omit_if is_empty Z.eqb bool_decide decide length sum_list_with] in *.
  unfold slen, MaxPayloadSize in *. cbn [String.length] in *.
  change (omit_if (is_empty EmptyString) "request_id" (JStr EmptyString)) with (@nil (string * json)).
  change (omit_if (bool_decide (0%nat = 0%nat)) "entries" (JArr (map entry_json []))) with (@nil (string * json)).
  cbn [sum_list_with]. lia.
Qed.

(** ** Theorems *)

(** C8. Results survive JSON. Whatever strings, counts and fields a result
    holds, the client that parses its encoding, giving absent fields their
    zero values, gets the result with its strings made valid UTF-8; a result
    whose strings are all valid comes back unchanged. *)
Theorem EncodeResult_roundtrip r :
  decode_result (EncodeResult r) = Some (valid_result r) /\
  (strings_valid r -> decode_result (EncodeResult r) = Some r).
Proof.
  split; [apply decode_EncodeResult|]. intros Hr. by rewrite decode_EncodeResult, valid_result_id.
Qed.

(** Errors reach the client. An error frame for any [int32] code and any
    message of up to 2,500,000 bytes is accepted by the frame decoder, and its
    payload reads as a failed result with that code and the message made
    valid UTF-8, and nothing else. *)
Theorem error_reply_end_to_end code msg :
  - 2 ^ 31 <= code < 2 ^ 31 -> slen msg <= 2500000 ->
  exists bytes f, Frame_Encode (NewErrorFrame code msg) = Ret bytes /\ DecodeFrame bytes = Ret f /\
    f_Opcode f = OpcodeError /\
    decode_result (f_Payload f) = Some (mkResult EmptyString false [] 0 code (ToValid msg)).
Proof.
  intros Hc Hm. destruct (frame_roundtrip (NewErrorFrame code msg)) as (bytes & He & Hd & _); try done.
  exists bytes, (NewErrorFrame code msg). split_and!; [done|by apply Hd, error_payload_size|done|].
  cbn [f_Payload NewErrorFrame]. by rewrite decode_EncodeResult.
Qed.

(** ** Witnesses *)

Definition sample_entry : GQLEntry :=
  mkEntry "e-1" "PASSWORD" EmptyString "<mail>" (list_to_map [("user"%string, "ada"%string); ("url"%string, "a&b"%string)]) 7 (-7).
Definition sample_result : GQLResult := mkResult "r1" true [sample_entry] 1 0 EmptyString.

(** A byte that is not UTF-8 is lost. *)
Definition latin1_result : GQLResult := mkResult EmptyString false [] 0 5 (bytes_str [zb 233]).

Lemma EncodeResult_roundtrip_witness :
  decode_result (EncodeResult sample_result) = Some sample_result /\
  decode_result (EncodeResult latin1_result) = Some (mkResult EmptyString false [] 0 5 (bytes_str (map zb [239; 191; 189]))).
Proof.
  split.
  - apply (EncodeResult_roundtrip sample_result). split_and!; [by vm_compute|by vm_compute|].
    constructor; [|constructor]. split_and!; [by vm_compute|by vm_compute|by vm_compute|by vm_compute|]. apply (bool_decide_unpack _). by vm_compute.
  - rewrite (proj1 (EncodeResult_roundtrip latin1_result)). by vm_compute.
Defined.

Lemma error_reply_end_to_end_witness :
  exists bytes f, Frame_Encode (NewErrorFrame 1001 "vault locked") = Ret bytes /\ DecodeFrame bytes = Ret f /\
    f_Opcode f = OpcodeError /\
    decode_result (f_Payload f) = Some (mkResult EmptyString false [] 0 1001 "vault locked").
Proof.
  pose proof (error_reply_end_to_end 1001 "vault locked") as H.
  assert (ToValid "vault locked" = "vault locked"%string) as E by by vm_compute.
  rewrite E in H. by apply H; vm_compute.
Defined.
