(* ===== verification/GqlQuery.v ===== *)
(** * GQL query payloads ([engine/gql/types.go])

    The query record, its binary encoder (which writes into a buffer sized in
    a first pass) and its decoder (which walks the payload by offset), with
    the grammar of payloads they implement. A Go map iterates in an arbitrary
    order, possibly a different one at each loop: the orders are arguments. *)

From S2P Require Import Prelude GoStd GqlOpcodes GqlFrame.

Record GQLQuery := mkQuery {
  q_Namespace : string;
  q_Operation : string;
  q_EntryID : string;
  q_Category : string;
  q_Title : string;
  q_Fields : gmap string string;
  q_Credentials : list byte;
  q_Limit : Z;
  q_Offset : Z
}.

(** An order in which a [range] loop may visit a map. *)
Definition range_order {V} (m : gmap string V) (order : list (string * V)) : Prop :=
  order ≡ₚ map_to_list m.

(** ** Encoding *)

Definition serializeField (buf : list byte) (offset : nat) (s : string)
    : res gql_error (list byte * nat) :=
  let l := String.length s in
  buf ← store_at offset (be_encode 2 (u16 (Z.of_nat l))) buf;
  let offset := (offset + 2)%nat in
  buf ← copy_at offset (str_bytes s) buf;
  Ret (buf, (offset + l)%nat).

Definition fieldSize (s : string) : nat := (2 + String.length s)%nat.

Fixpoint fields_size (order : list (string * string)) : nat :=
  match order with
  | [] => 0
  | (k, v) :: rest => (fieldSize k + fieldSize v + fields_size rest)%nat
  end.

Fixpoint serializeFields (buf : list byte) (off : nat) (order : list (string * string))
    : res gql_error (list byte * nat) :=
  match order with
  | [] => Ret (buf, off)
  | (k, v) :: rest =>
      '(buf, off) ← serializeField buf off k;
      '(buf, off) ← serializeField buf off v;
      serializeFields buf off rest
  end.

(** The [field_count] byte: [uint8(len(q.Fields))], capped. *)
Definition field_count (q : GQLQuery) : Z :=
  let fc := u8 (Z.of_nat (size (q_Fields q))) in
  if MaxFieldsCount <? fc then MaxFieldsCount else fc.

Definition GQLQuery_Encode (order1 order2 : list (string * string)) (q : GQLQuery)
    : res gql_error (list byte) :=
  let creds := bytes_str (q_Credentials q) in
  let size := (1 + fieldSize (q_Operation q) + fieldSize (q_Namespace q)
               + fieldSize (q_EntryID q) + fieldSize (q_Category q)
               + fieldSize (q_Title q) + fields_size order1 + 4 + 4 + fieldSize creds)%nat in
  let buf := zeros size in
  let off := 0%nat in
  buf ← set_index off (zb (field_count q)) buf;
  let off := (off + 1)%nat in
  '(buf, off) ← serializeField buf off (q_Operation q);
  '(buf, off) ← serializeField buf off (q_Namespace q);
  '(buf, off) ← serializeField buf off (q_EntryID q);
  '(buf, off) ← serializeField buf off (q_Category q);
  '(buf, off) ← serializeField buf off (q_Title q);
  '(buf, off) ← serializeFields buf off order2;
  buf ← store_at off (be_encode 4 (q_Limit q)) buf;
  let off := (off + 4)%nat in
  buf ← store_at off (be_encode 4 (q_Offset q)) buf;
  let off := (off + 4)%nat in
  '(buf, _) ← serializeField buf off creds;
  Ret buf.

(** ** Decoding *)

Definition deserializeField (data : list byte) : res gql_error (string * nat) :=
  _ ← check (len data <? 2) (Errorf (Lit "gql: field too short for length prefix"));
  prefix ← slice 0 2 data;
  let l := Z.to_nat (be_decode prefix) in
  _ ← check (len data <? 2 + Z.of_nat l)
        (Errorf (Sprintf "gql: field truncated: need %d bytes, have %d"
                   [AInt (2 + Z.of_nat l); AInt (len data)]));
  body ← slice 2 (2 + l) data;
  Ret (bytes_str body, (2 + l)%nat).

(** [fmt.Errorf("...: %w", ..., err)] *)
Definition wrap (format : string) (args : list arg) (e : gql_error) : gql_error :=
  match e with
  | Errorf m => Errorf (Sprintf format (args ++ [AMsg m]))
  | _ => e
  end.

(** [s, n, err := deserializeField(payload[off:])], the wrapped error, [off += n]. *)
Definition read_field (format : string) (args : list arg) (payload : list byte) (off : nat)
    : res gql_error (string * nat) :=
  data ← slice_from off payload;
  '(s, n) ← map_err (wrap format args) (deserializeField data);
  Ret (s, (off + n)%nat).

(** [binary.BigEndian.Uint32(payload[off:])] *)
Definition read_u32 (trunc : string) (payload : list byte) (off : nat) : res gql_error (Z * nat) :=
  _ ← check (len payload <? Z.of_nat off + 4) (Errorf (Lit trunc));
  b ← slice off (off + 4) payload;
  Ret (be_decode b, (off + 4)%nat).

(** The loop over the fields: [todo] iterations left, the next one is [i]. *)
Fixpoint decode_fields (todo : nat) (i : Z) (payload : list byte) (off : nat)
    (m : gmap string string) : res gql_error (gmap string string * nat) :=
  match todo with
  | O => Ret (m, off)
  | S todo =>
      _ ← check (len payload <=? Z.of_nat off)
            (Errorf (Sprintf "gql: truncated at field %d" [AInt i]));
      '(k, off) ← read_field "gql: field[%d].key: %w" [AInt i] payload off;
      _ ← check (len payload <=? Z.of_nat off)
            (Errorf (Sprintf "gql: truncated at field[%d].value" [AInt i]));
      '(v, off) ← read_field "gql: field[%d].value: %w" [AInt i] payload off;
      decode_fields todo (i + 1) payload off (<[k := v]> m)
  end.

Definition DecodeQuery (payload : list byte) (op : string) : res gql_error GQLQuery :=
  _ ← check (len payload <? 1) (Errorf (Lit "gql: payload too short for field_count"));
  let off := 0%nat in
  fc ← index off payload;
  let fieldCount := bz fc in
  let off := (off + 1)%nat in
  _ ← check (MaxFieldsCount <? fieldCount)
        (Errorf (Sprintf "gql: field_count %d exceeds max %d"
                   [AInt fieldCount; AInt MaxFieldsCount]));
  '(s, off) ← read_field "gql: operation: %w" [] payload off;
  let operation := if decide (s = EmptyString) then op else s in
  '(namespace, off) ← read_field "gql: namespace: %w" [] payload off;
  '(entry_id, off) ← read_field "gql: entry_id: %w" [] payload off;
  '(category, off) ← read_field "gql: category: %w" [] payload off;
  '(title, off) ← read_field "gql: title: %w" [] payload off;
  '(fields, off) ← decode_fields (Z.to_nat fieldCount) 0 payload off ∅;
  '(limit, off) ← read_u32 "gql: truncated at limit" payload off;
  '(offset, off) ← read_u32 "gql: truncated at offset" payload off;
  creds ← (if Z.of_nat off <? len payload
           then '(s, _) ← read_field "gql: credentials: %w" [] payload off; Ret (str_bytes s)
           else Ret []);
  Ret (mkQuery namespace operation entry_id category title fields creds limit offset).

(** ** The payload grammar *)

Definition field_wire (s : string) : list byte := be_encode 2 (slen s) ++ str_bytes s.

Fixpoint fields_wire (order : list (string * string)) : list byte :=
  match order with
  | [] => []
  | (k, v) :: rest => field_wire k ++ field_wire v ++ fields_wire rest
  end.

(** A string that its two-byte length prefix can carry. *)
Definition short (s : string) : Prop := slen s < 2 ^ 16.

(** The map a list of decoded pairs builds, last occurrence winning. *)
Definition fields_map (order : list (string * string)) (m : gmap string string)
    : gmap string string :=
  foldl (fun m '(k, v) => <[k := v]> m) m order.

(** What the encoder must produce, field order [order]. *)
Definition query_wire (q : GQLQuery) (order : list (string * string)) : list byte :=
  [zb (field_count q)] ++ field_wire (q_Operation q) ++ field_wire (q_Namespace q) ++
  field_wire (q_EntryID q) ++ field_wire (q_Category q) ++ field_wire (q_Title q) ++
  fields_wire order ++ be_encode 4 (q_Limit q) ++ be_encode 4 (q_Offset q) ++
  field_wire (bytes_str (q_Credentials q)).

Lemma length_field_wire s : length (field_wire s) = fieldSize s.
Proof. unfold field_wire. by rewrite length_app, length_be_encode, length_str_bytes. Qed.

Lemma length_fields_wire order : length (fields_wire order) = fields_size order.
Proof.
  induction order as [|[k v] order IH]; [done|]. cbn [fields_wire fields_size].
  rewrite !length_app, !length_field_wire, IH. lia.
Qed.

#[export] Instance fields_size_Proper : Proper ((≡ₚ) ==> (=)) fields_size.
Proof. induction 1 as [|[k v] ? ? ? IH|[k v] [k' v'] ?|]; cbn; lia. Qed.

Create Rewrite HintDb wire.
#[export] Hint Rewrite @length_app length_be_encode length_zeros length_field_wire
  length_fields_wire length_str_bytes : wire.

(** Arithmetic on positions in a wire text. *)
Ltac wire_lia := autorewrite with wire; cbn [length]; lia.

Section Writers.
Lemma drop_zeros k n : drop k (zeros n) = zeros (n - k).
Proof. apply drop_replicate. Qed.

Lemma store_be_zeros k v pre n off :
  off = length pre -> (k <= n)%nat ->
  store_at (E := gql_error) off (be_encode k v) (pre ++ zeros n)
  = Ret ((pre ++ be_encode k v) ++ zeros (n - k)).
Proof.
  intros Hoff Hn. rewrite store_at_off by (done || wire_lia).
  by rewrite drop_zeros, length_be_encode.
Qed.

Lemma serializeField_zeros pre n off s :
  off = length pre -> (fieldSize s <= n)%nat ->
  serializeField (pre ++ zeros n) off s
  = Ret ((pre ++ field_wire s) ++ zeros (n - fieldSize s), (off + fieldSize s)%nat).
Proof.
  unfold fieldSize. intros -> Hn. unfold serializeField.
  rewrite store_be_zeros by lia. cbn [mbind res_bind].
  rewrite copy_at_off by wire_lia. cbn [mbind res_bind].
  rewrite drop_zeros, length_str_bytes. unfold field_wire.
  rewrite (be_encode_mod 2 (Z.of_nat (String.length s)) : be_encode 2 (u16 _) = _).
  replace (n - 2 - String.length s)%nat with (n - (2 + String.length s))%nat by lia.
  by rewrite Nat.add_assoc, <- !app_assoc.
Qed.

Lemma serializeFields_zeros pre n off order :
  off = length pre -> (fields_size order <= n)%nat ->
  serializeFields (pre ++ zeros n) off order
  = Ret ((pre ++ fields_wire order) ++ zeros (n - fields_size order),
         (off + fields_size order)%nat).
Proof.
  revert pre n off. induction order as [|[k v] order IH]; intros pre n off -> Hn.
  { cbn. by rewrite app_nil_r, Nat.sub_0_r, Nat.add_0_r. }
  cbn [serializeFields fields_wire fields_size] in *.
  rewrite serializeField_zeros by lia. cbn [mbind res_bind].
  rewrite serializeField_zeros by (try wire_lia; lia). cbn [mbind res_bind].
  rewrite IH by (try wire_lia; lia).
  rewrite <- !app_assoc, !Nat.sub_add_distr, !Nat.add_assoc. done.
Qed.
End Writers.

(** The encoder fills its buffer exactly: it never panics and the two passes
    agree whatever the iteration orders. *)
Lemma GQLQuery_Encode_wire q order1 order2 :
  range_order (q_Fields q) order1 -> range_order (q_Fields q) order2 ->
  GQLQuery_Encode order1 order2 q = Ret (query_wire q order2).
Proof.
  intros H1 H2. unfold GQLQuery_Encode. cbv zeta.
  rewrite H1, <- H2.
  set (creds := bytes_str (q_Credentials q)).
  match goal with |- context [zeros ?m] => set (n := m) end.
  replace (zeros n) with (x00 :: zeros (n - 1)) by (unfold n; done).
  rewrite (set_index_app [] (zeros (n - 1)) (zb (field_count q)) x00). cbn [mbind res_bind].
  do 5 (rewrite serializeField_zeros by (unfold n; (wire_lia || lia)); cbn [mbind res_bind]).
  rewrite serializeFields_zeros by (unfold n; (wire_lia || lia)). cbn [mbind res_bind].
  rewrite store_be_zeros by (unfold n; (wire_lia || lia)). cbn [mbind res_bind].
  rewrite store_be_zeros by (unfold n; (wire_lia || lia)). cbn [mbind res_bind].
  rewrite serializeField_zeros by (unfold n; (wire_lia || lia)). cbn [mbind res_bind].
  match goal with |- Ret (_ ++ zeros ?k) = _ => assert (k = 0)%nat as -> by (unfold n; lia) end.
  unfold query_wire. fold creds. cbn [zeros replicate]. by rewrite app_nil_r, <- !app_assoc.
Qed.

Section Readers.
Lemma deserializeField_spec data s n :
  deserializeField data = Ret (s, n) <->
  short s /\ n = fieldSize s /\ exists rest, data = field_wire s ++ rest.
Proof.
  unfold deserializeField, short, fieldSize, field_wire, slen. split.
  - intros H. inv_res. rewrite Z.ltb_ge in *.
    destruct data as [|b0 [|b1 t]]; unfold len in *; cbn [length] in *; [lia|lia|].
    rewrite slice_in_range in Hr0 by (cbn; lia). inv_res. subst r0.
    change (take (2 - 0) (drop 0 (b0 :: b1 :: t))) with [b0; b1] in *.
    pose proof (be_decode_range [b0; b1]) as Hd. unfold len in Hd; cbn [length] in Hd.
    set (l := be_decode [b0; b1]) in *.
    rewrite slice_in_range in Hr2 by (cbn [length]; lia). inv_res. subst r2.
    replace (2 + Z.to_nat l - 2)%nat with (Z.to_nat l) in * by lia.
    change (drop 2 (b0 :: b1 :: t)) with t in *.
    injection H as <- <-. rewrite length_bytes_str, str_bytes_str, length_take_le by lia.
    split; [lia|]. split; [done|]. exists (drop (Z.to_nat l) t).
    rewrite Z2Nat.id by lia. unfold l.
    rewrite (be_encode_decode [b0; b1] : be_encode 2 _ = _). cbn. by rewrite take_drop.
  - intros (Hs & -> & rest & ->).
    set (data := _ ++ rest).
    assert (length data = 2 + String.length s + length rest)%nat as Hl
      by (unfold data; wire_lia).
    unfold len. rewrite Hl.
    destruct (Z.ltb_spec (Z.of_nat (2 + String.length s + length rest)) 2); [lia|].
    rewrite slice_in_range by lia. cbn [check mbind res_bind].
    assert (be_decode (take (2 - 0) (drop 0 data)) = Z.of_nat (String.length s)) as ->.
    { unfold data. rewrite <- app_assoc, drop_0.
      rewrite take_app_length' by (by rewrite length_be_encode).
      rewrite be_decode_encode. apply Z.mod_small. lia. }
    rewrite Nat2Z.id.
    destruct (Z.ltb_spec (Z.of_nat (2 + String.length s + length rest))
                (2 + Z.of_nat (String.length s))); [lia|].
    rewrite slice_in_range by lia. cbn [check mbind res_bind].
    unfold data. rewrite <- app_assoc, drop_app_length' by (by rewrite length_be_encode).
    rewrite take_app_length' by (rewrite length_str_bytes; lia).
    by rewrite bytes_str_bytes.
Qed.

Lemma slice_from_spec (payload data : list byte) off :
  slice_from (E := gql_error) off payload = Ret data <->
  (off <= length payload)%nat /\ data = drop off payload.
Proof.
  unfold slice_from, slice. case_decide as Hd.
  - rewrite take_ge by (rewrite length_drop; lia). split; [intros [= <-]; split; [lia|done]|].
    by intros [_ ->].
  - split; [done|]. intros [? _]. lia.
Qed.

Lemma read_field_spec format args payload off s off' :
  read_field format args payload off = Ret (s, off') <->
  short s /\ off' = (off + fieldSize s)%nat /\
  drop off payload = field_wire s ++ drop off' payload.
Proof.
  unfold read_field. split.
  - intros H. inv_res. apply slice_from_spec in Hr as [Hoff ->].
    apply deserializeField_spec in Hr0 as (Hs & -> & rest & Hd). injection H as -> <-.
    split; [done|]. split; [done|]. rewrite Hd. f_equal.
    rewrite <- drop_drop, Hd, drop_app_length'; [done|]. by rewrite length_field_wire.
  - intros (Hs & -> & Hd).
    assert (off <= length payload)%nat as Hoff.
    { apply (f_equal length) in Hd. revert Hd. rewrite length_drop, length_app, length_field_wire.
      unfold fieldSize. lia. }
    rewrite (proj2 (slice_from_spec payload (drop off payload) off)) by done.
    cbn [mbind res_bind].
    rewrite (proj2 (deserializeField_spec (drop off payload) s (fieldSize s))); [done|].
    split; [done|]. split; [done|]. by eexists.
Qed.

Lemma read_u32_spec trunc payload off z off' :
  read_u32 trunc payload off = Ret (z, off') <->
  0 <= z < 2 ^ 32 /\ off' = (off + 4)%nat /\
  drop off payload = be_encode 4 z ++ drop off' payload.
Proof.
  unfold read_u32, len. split.
  - intros H. inv_res. rewrite Z.ltb_ge in *. rewrite slice_in_range in Hr0 by lia. inv_res.
    subst r0. injection H as <- <-.
    replace (off + 4 - off)%nat with 4%nat by lia.
    assert (length (take 4 (drop off payload)) = 4)%nat as Hl
      by (rewrite length_take_le; [done|rewrite length_drop; lia]).
    pose proof (be_decode_range (take 4 (drop off payload))) as Hrg.
    pose proof (be_encode_decode (take 4 (drop off payload))) as He.
    unfold len in Hrg. rewrite Hl in Hrg, He. rewrite He.
    split; [exact Hrg|]. split; [done|].
    by rewrite <- drop_drop, take_drop.
  - intros (Hz & -> & Hd).
    assert (off + 4 <= length payload)%nat as Hoff.
    { apply (f_equal length) in Hd. revert Hd. rewrite !length_drop, length_app, length_be_encode, length_drop.
      lia. }
    destruct (Z.ltb_spec (Z.of_nat (length payload)) (Z.of_nat off + 4)); [lia|].
    rewrite slice_in_range by lia. cbn [check mbind res_bind].
    replace (off + 4 - off)%nat with 4%nat by lia.
    rewrite Hd, take_app_length' by (by rewrite length_be_encode).
    rewrite be_decode_encode, Z.mod_small by exact Hz. done.
Qed.
End Readers.

Section Grammar.
Lemma read_field_fwd format args payload off s rest :
  short s -> drop off payload = field_wire s ++ rest ->
  read_field format args payload off = Ret (s, (off + fieldSize s)%nat) /\
  drop (off + fieldSize s) payload = rest.
Proof.
  intros Hs Hd.
  assert (drop (off + fieldSize s) payload = rest) as Hr.
  { rewrite <- drop_drop, Hd. by rewrite drop_app_length' by (by rewrite length_field_wire). }
  split; [|done]. apply read_field_spec. by rewrite Hr.
Qed.

Lemma read_u32_fwd trunc payload off z rest :
  0 <= z < 2 ^ 32 -> drop off payload = be_encode 4 z ++ rest ->
  read_u32 trunc payload off = Ret (z, (off + 4)%nat) /\ drop (off + 4) payload = rest.
Proof.
  intros Hz Hd.
  assert (drop (off + 4) payload = rest) as Hr by by rewrite <- drop_drop, Hd.
  split; [|done]. apply read_u32_spec. by rewrite Hr.
Qed.

Lemma nonempty_drop (payload rest : list byte) off s :
  drop off payload = field_wire s ++ rest -> (len payload <=? Z.of_nat off) = false.
Proof.
  intros H. apply (f_equal length) in H. revert H.
  rewrite length_drop, length_app, length_field_wire. unfold fieldSize, len.
  intros. apply Z.leb_gt. lia.
Qed.

Lemma decode_fields_fwd order i payload off m rest :
  Forall (fun '(k, v) => short k /\ short v) order ->
  drop off payload = fields_wire order ++ rest ->
  decode_fields (length order) i payload off m
    = Ret (fields_map order m, (off + fields_size order)%nat) /\
  drop (off + fields_size order) payload = rest.
Proof.
  revert i off m. induction order as [|[k v] order IH]; intros i off m HF Hd.
  { cbn. by rewrite Nat.add_0_r. }
  apply Forall_cons in HF as [[Hk Hv] HF]. cbn [fields_wire] in Hd.
  rewrite <- !app_assoc in Hd. cbn [length decode_fields].
  rewrite (nonempty_drop _ _ _ _ Hd). cbn [check mbind res_bind].
  edestruct read_field_fwd as [-> Hd1]; [exact Hk|exact Hd|]. cbn [mbind res_bind].
  rewrite (nonempty_drop _ _ _ _ Hd1). cbn [check mbind res_bind].
  edestruct read_field_fwd as [-> Hd2]; [exact Hv|exact Hd1|]. cbn [mbind res_bind].
  edestruct IH as [-> Hd3]; [exact HF|exact Hd2|].
  cbn [fields_size fields_map foldl]. rewrite !Nat.add_assoc. done.
Qed.

Lemma decode_fields_inv todo i payload off m m' off' :
  decode_fields todo i payload off m = Ret (m', off') ->
  exists order, length order = todo /\ Forall (fun '(k, v) => short k /\ short v) order /\
    m' = fields_map order m /\ drop off payload = fields_wire order ++ drop off' payload.
Proof.
  revert i off m. induction todo as [|todo IH]; intros i off m H; cbn [decode_fields] in H.
  { apply Ret_inj in H. injection H as -> ->. by exists []. }
  inv_res. apply IH in H as (order & <- & HF & -> & D3).
  repeat match goal with
    | Hf : read_field _ _ _ _ = Ret (?s, _) |- _ =>
        apply read_field_spec in Hf as (Hshort & _ & Hd); revert Hshort Hd
    end.
  intros Hk D1 Hv D2.
  match goal with |- context [<[?k := ?v]> m] => exists ((k, v) :: order) end. split; [done|]. split; [by constructor|]. split; [done|].
  cbn [fields_wire]. by rewrite D1, D2, D3, <- !app_assoc.
Qed.
End Grammar.

(** One [read_field] at the front of the text that [D] says is left. *)
Ltac field_step D :=
  let D' := fresh "D" in
  edestruct read_field_fwd as [-> D']; [|exact D|];
  [done|cbn [mbind res_bind]; clear D; rename D' into D].

(** The payloads the decoder accepts for the operation [op] of the frame, and
    the query each one denotes. Bytes after the credentials are ignored. *)
Record query_grammar (payload : list byte) (op : string) (q : GQLQuery)
    (op0 : string) (order : list (string * string)) (tail : list byte) : Prop := {
  qg_payload : payload = [zb (len order)] ++ field_wire op0 ++ field_wire (q_Namespace q) ++
    field_wire (q_EntryID q) ++ field_wire (q_Category q) ++ field_wire (q_Title q) ++
    fields_wire order ++ be_encode 4 (q_Limit q) ++ be_encode 4 (q_Offset q) ++ tail;
  qg_count : len order <= MaxFieldsCount;
  qg_short : Forall short [op0; q_Namespace q; q_EntryID q; q_Category q; q_Title q];
  qg_pairs : Forall (fun '(k, v) => short k /\ short v) order;
  qg_operation : q_Operation q = if decide (op0 = EmptyString) then op else op0;
  qg_fields : q_Fields q = fields_map order ∅;
  qg_limit : 0 <= q_Limit q < 2 ^ 32;
  qg_offset : 0 <= q_Offset q < 2 ^ 32;
  qg_tail : (tail = [] /\ q_Credentials q = []) \/
    (exists extra, tail = field_wire (bytes_str (q_Credentials q)) ++ extra /\
      short (bytes_str (q_Credentials q)))
}.

Lemma DecodeQuery_inv payload op q :
  DecodeQuery payload op = Ret q -> exists op0 order tail, query_grammar payload op q op0 order tail.
Proof.
  unfold DecodeQuery. intros H. inv_res.
  destruct payload as [|fc payload]; [done|]. injection Hr0 as <-.
  apply Z.ltb_ge in Hr1. pose proof (bz_range fc).
  repeat match goal with
    | Hf : read_field _ _ _ _ = Ret _ |- _ => apply read_field_spec in Hf as (? & _ & ?)
    | Hf : read_u32 _ _ _ = Ret _ |- _ => apply read_u32_spec in Hf as (? & _ & ?)
    | Hf : decode_fields _ _ _ _ _ = Ret _ |- _ =>
        apply decode_fields_inv in Hf as (order & ? & ? & ? & ?)
    end.
  match goal with Hf : (if Z.of_nat ?n <? _ then _ else _) = Ret ?c |- _ =>
    rename n into off; rename c into creds; rename Hf into Htail end.
  assert (len order = bz fc) as Hcount by (unfold len; lia).
  subst q. exists s, order, (drop off (fc :: payload)).
  split; cbn [q_Namespace q_Operation q_EntryID q_Category q_Title q_Fields q_Credentials
              q_Limit q_Offset]; try done.
  - change (fc :: payload) with ([fc] ++ drop (0 + 1) (fc :: payload)) at 1.
    rewrite Hcount, zb_bz.
    repeat match goal with
      D : drop ?o _ = _ |- context [_ ++ drop ?o _] => rewrite D; clear D end.
    done.
  - lia.
  - by repeat constructor.
  - destruct (Z.ltb_spec (Z.of_nat off) (len (fc :: payload))) as [Hlt|Hge].
    + inv_res. match goal with Hf : read_field _ _ _ off = Ret _ |- _ =>
        apply read_field_spec in Hf as (? & _ & Hd) end. subst creds. right.
      rewrite Hd, bytes_str_bytes. eauto.
    + left. apply Ret_inj in Htail. subst creds. split; [|done].
      apply drop_ge. unfold len in Hge. lia.
Qed.

Lemma DecodeQuery_fwd payload op q op0 order tail :
  query_grammar payload op q op0 order tail -> DecodeQuery payload op = Ret q.
Proof.
  intros [Hp Hc Hs HF Hop Hfl Hl Ho Ht].
  destruct q as [ns o eid cat title fl cr lim offs].
  cbn [q_Namespace q_Operation q_EntryID q_Category q_Title q_Fields q_Credentials
       q_Limit q_Offset] in *.
  rewrite !Forall_cons in Hs. destruct Hs as (H1 & H2 & H3 & H4 & H5 & _).
  unfold MaxFieldsCount in Hc. pose proof (len_nonneg order).
  assert (bz (zb (len order)) = len order) as Hbz by (rewrite bz_zb; apply Z.mod_small; lia).
  unfold DecodeQuery.
  assert (drop (0 + 1) payload = field_wire op0 ++ field_wire ns ++
    field_wire eid ++ field_wire cat ++ field_wire title ++ fields_wire order ++
    be_encode 4 lim ++ be_encode 4 offs ++ tail) as D0 by by rewrite Hp.
  assert (index (E := gql_error) 0 payload = Ret (zb (len order))) as -> by by rewrite Hp.
  destruct (Z.ltb_spec (len payload) 1) as [Hlt|_];
    [rewrite Hp in Hlt; unfold len in Hlt; cbn in Hlt; lia|].
  cbn [check mbind res_bind]. rewrite Hbz.
  destruct (Z.ltb_spec MaxFieldsCount (len order)); [unfold MaxFieldsCount in *; lia|].
  cbn [check mbind res_bind].
  assert (Z.to_nat (len order) = length order) as -> by (unfold len; lia).
  do 5 field_step D0.
  edestruct decode_fields_fwd as [-> D1]; [exact HF|exact D0|]. cbn [mbind res_bind].
  edestruct read_u32_fwd as [-> D2]; [exact Hl|exact D1|]. cbn [mbind res_bind].
  edestruct read_u32_fwd as [-> D3]; [exact Ho|exact D2|]. cbn [mbind res_bind].
  clear -D3 Ht Hop Hfl.
  match type of D3 with drop ?o _ = _ => set (off := o) in * end. clearbody off.
  destruct Ht as [[-> ->] | (extra & -> & Hs)].
  - destruct (Z.ltb_spec (Z.of_nat off) (len payload)) as [Hlt|_].
    { apply (f_equal length) in D3. rewrite length_drop in D3. unfold len in Hlt. cbn in D3. lia. }
    cbn [mbind res_bind]. by subst.
  - pose proof (nonempty_drop _ _ _ _ D3) as Hne. rewrite Z.leb_antisym in Hne.
    apply negb_false_iff in Hne. rewrite Hne.
    edestruct read_field_fwd as [-> _]; [exact Hs|exact D3|]. cbn [mbind res_bind].
    rewrite str_bytes_str. by subst.
Qed.

Lemma DecodeQuery_spec payload op q :
  DecodeQuery payload op = Ret q <->
  exists op0 order tail, query_grammar payload op q op0 order tail.
Proof. split; [apply DecodeQuery_inv|]. intros (op0 & order & tail & H). by eapply DecodeQuery_fwd. Qed.

Section PanicFree.
Lemma read_field_wp format args payload off :
  (off <= length payload)%nat ->
  wp (read_field format args payload off) (fun '(_, off') => (off' <= length payload)%nat).
Proof.
  intros Hoff. unfold read_field, slice_from, deserializeField.
  apply wp_bind, wp_slice; [done|]. rewrite take_ge by (rewrite length_drop; lia).
  apply wp_bind, wp_map_err, wp_bind, wp_check. rewrite Z.ltb_ge. unfold len.
  rewrite length_drop. intros Hl.
  apply wp_bind, wp_slice; [rewrite length_drop; lia|].
  match goal with |- context [Z.to_nat ?z] => set (l := Z.to_nat z) end.
  apply wp_bind, wp_check. rewrite Z.ltb_ge. intros Hl2.
  apply wp_bind, wp_slice; [rewrite length_drop; lia|]. cbn. lia.
Qed.

Lemma read_u32_wp trunc payload off :
  wp (read_u32 trunc payload off) (fun '(_, off') => (off' <= length payload)%nat).
Proof.
  unfold read_u32, len. apply wp_bind, wp_check. rewrite Z.ltb_ge. intros Hl.
  apply wp_bind, wp_slice; [lia|]. cbn. lia.
Qed.

Lemma decode_fields_wp todo i payload off m :
  (off <= length payload)%nat ->
  wp (decode_fields todo i payload off m) (fun '(_, off') => (off' <= length payload)%nat).
Proof.
  revert i off m. induction todo as [|todo IH]; intros i off m Hoff; [done|].
  cbn [decode_fields].
  apply wp_bind, wp_check; intros _.
  apply wp_bind. eapply wp_mono; [by apply read_field_wp|]. intros [k o1] H1.
  apply wp_bind, wp_check; intros _.
  apply wp_bind. eapply wp_mono; [by apply read_field_wp|]. intros [v o2] H2.
  by apply IH.
Qed.
End PanicFree.

(** No payload makes [DecodeQuery] panic. *)
Lemma DecodeQuery_total payload op : DecodeQuery payload op <> Panic.
Proof.
  apply (wp_not_Panic _ (fun _ => True)). unfold DecodeQuery.
  apply wp_bind, wp_check. rewrite Z.ltb_ge. unfold len. intros Hl.
  destruct payload as [|fc t]; [cbn in Hl; lia|]. cbn [index lookup list_lookup mbind res_bind].
  apply wp_bind, wp_check. intros _.
  do 5 (apply wp_bind; eapply wp_mono; [apply read_field_wp; first [done|cbn; lia]|]; intros [? ?] ?).
  apply wp_bind. eapply wp_mono; [by apply decode_fields_wp|]. intros [? ?] ?.
  apply wp_bind. eapply wp_mono; [apply read_u32_wp|]. intros [? ?] ?.
  apply wp_bind. eapply wp_mono; [apply read_u32_wp|]. intros [? ?] ?.
  apply wp_bind. destruct (_ <? _); [|done].
  apply wp_bind. eapply wp_mono; [by apply read_field_wp|]. by intros [? ?] ?.
Qed.

(** ** Round trip *)

Lemma fields_map_union order m : fields_map order m = list_to_map (rev order) ∪ m.
Proof.
  revert m. induction order as [|[k v] order IH]; intros m; cbn [fields_map foldl rev].
  - by rewrite list_to_map_nil, (left_id_L ∅ (∪)).
  - fold (fields_map order (<[k:=v]> m)). rewrite IH, list_to_map_app.
    by rewrite <- (assoc_L (∪)), (insert_union_singleton_l m).
Qed.

Lemma fields_map_order (m : gmap string string) order :
  range_order m order -> fields_map order ∅ = m.
Proof.
  intros H. rewrite fields_map_union, (right_id_L ∅ (∪)).
  rewrite <- (list_to_map_to_list m). symmetry. apply list_to_map_proper.
  - apply NoDup_fst_map_to_list.
  - by rewrite <- H, <- Permutation_rev.
Qed.

(** The queries whose encoding decodes back: every text fits its two-byte
    length prefix, the fields fit the one-byte capped count, and the two
    numbers are 32-bit. *)
Record encodable (q : GQLQuery) : Prop := {
  en_strings : Forall short [q_Operation q; q_Namespace q; q_EntryID q; q_Category q; q_Title q];
  en_count : Z.of_nat (size (q_Fields q)) <= MaxFieldsCount;
  en_fields : map_Forall (fun k v => short k /\ short v) (q_Fields q);
  en_creds : short (bytes_str (q_Credentials q));
  en_limit : 0 <= q_Limit q < 2 ^ 32;
  en_offset : 0 <= q_Offset q < 2 ^ 32
}.

Lemma encodable_grammar q order :
  encodable q -> range_order (q_Fields q) order ->
  query_grammar (query_wire q order) (q_Operation q) q (q_Operation q) order
    (field_wire (bytes_str (q_Credentials q))).
Proof.
  intros [Hs Hc Hf Hcr Hl Ho] Hord.
  assert (length order = size (q_Fields q)) as Hlen by (by rewrite Hord, length_map_to_list).
  assert (field_count q = len order) as Hfc.
  { unfold field_count, MaxFieldsCount, len in *. rewrite u8_small by lia.
    destruct (Z.ltb_spec 100 (Z.of_nat (size (q_Fields q)))); lia. }
  split; try done.
  - unfold query_wire. by rewrite Hfc.
  - unfold len. by rewrite Hlen.
  - rewrite Hord. apply Forall_forall. intros [k v] Hkv.
    apply elem_of_map_to_list in Hkv. by apply Hf.
  - by case_decide.
  - symmetry. by apply fields_map_order.
  - right. exists []. by rewrite app_nil_r.
Qed.

Lemma fields_map_lookup order k v : fields_map order ∅ !! k = Some v -> (k, v) ∈ order.
Proof.
  rewrite fields_map_union, (right_id_L ∅ (∪)). intros H%elem_of_list_to_map_2.
  by rewrite <- Permutation_rev in H.
Qed.

Lemma fields_map_size order : (size (fields_map order ∅) <= length order)%nat.
Proof.
  rewrite <- length_map_to_list. apply submseteq_length, NoDup_submseteq.
  - apply NoDup_map_to_list.
  - intros [k v] H%elem_of_map_to_list. by apply fields_map_lookup.
Qed.

Lemma grammar_encodable payload op q op0 order tail :
  short op -> query_grammar payload op q op0 order tail -> encodable q.
Proof.
  intros Hs0 [Hp Hc Hs HF Hop Hfl Hl Ho Ht].
  split; try done.
  - rewrite Forall_cons in Hs |- *. rewrite Hop. by case_decide; destruct Hs.
  - rewrite Hfl. pose proof (fields_map_size order). unfold len in Hc. lia.
  - rewrite Hfl. intros k v H%fields_map_lookup.
    rewrite Forall_forall in HF. apply (HF _ H).
  - by destruct Ht as [[_ ->] | (? & _ & ?)].
Qed.

(** C3. The decoder implements the payload grammar: it returns a query exactly
    when the payload is a production of the grammar denoting that query. *)
Theorem DecodeQuery_grammar payload op q :
  DecodeQuery payload op = Ret q <->
  exists op0 order tail, query_grammar payload op q op0 order tail.
Proof. apply DecodeQuery_spec. Qed.

Lemma encodable_decodes q order :
  encodable q -> range_order (q_Fields q) order ->
  DecodeQuery (query_wire q order) EmptyString = Ret q.
Proof.
  intros He Ho. apply DecodeQuery_spec. eexists _, order, _.
  apply (encodable_grammar _ order) in He; [|done].
  destruct He as [? ? ? ? Hop]. split; try done. by case_decide.
Qed.

(** C4. Encoding loses nothing exactly on the encodable queries. On them the
    decoded payload is the query, for any map iteration orders; on any other
    query [Encode] still returns bytes without an error, but decoding those
    bytes does not return the query. *)
Theorem Encode_lossless_iff q order1 order2 :
  range_order (q_Fields q) order1 -> range_order (q_Fields q) order2 ->
  exists bytes, GQLQuery_Encode order1 order2 q = Ret bytes /\
    (DecodeQuery bytes EmptyString = Ret q <-> encodable q).
Proof.
  intros H1 H2. exists (query_wire q order2).
  split; [by apply GQLQuery_Encode_wire|]. rewrite DecodeQuery_spec. split.
  - intros (op0 & order & tail & Hg). by eapply (grammar_encodable _ EmptyString).
  - intros He. by apply DecodeQuery_spec, encodable_decodes.
Qed.

Lemma Encode_lossless_iff_witness :
  exists bytes,
    GQLQuery_Encode [("b", "2"); ("a", "1")]%string [("a", "1"); ("b", "2")]%string
      (mkQuery "default" "list_entries" EmptyString EmptyString EmptyString
         {[ "a"%string := "1"%string; "b"%string := "2"%string ]} [] 5 0) = Ret bytes /\
    len bytes = 52.
Proof.
  destruct (Encode_lossless_iff
    (mkQuery "default" "list_entries" EmptyString EmptyString EmptyString
         {[ "a"%string := "1"%string; "b"%string := "2"%string ]} [] 5 0)
    [("b", "2"); ("a", "1")]%string [("a", "1"); ("b", "2")]%string) as (bytes & E & _).
  - unfold range_order. vm_compute. apply perm_swap.
  - unfold range_order. by vm_compute.
  - exists bytes. split; [exact E|]. vm_compute in E. injection E as <-. by vm_compute.
Defined.

(** C5. Decoded queries are well typed. Whatever the payload, and for an
    operation of the frame that fits a length prefix, a query the decoder
    returns has texts below 2^16 bytes, at most 100 fields and 32-bit limit
    and offset. So it can be encoded again, and for every order of its fields the
    new bytes decode to the same query: decoding normalizes a payload, and
    normalizing twice changes nothing. *)
Theorem DecodeQuery_typed payload op q order1 order2 :
  short op -> DecodeQuery payload op = Ret q ->
  range_order (q_Fields q) order1 -> range_order (q_Fields q) order2 ->
  encodable q /\
  exists bytes, GQLQuery_Encode order1 order2 q = Ret bytes /\ DecodeQuery bytes EmptyString = Ret q /\
    (len bytes = 21 + slen (q_Operation q) + slen (q_Namespace q) + slen (q_EntryID q) + slen (q_Category q)
       + slen (q_Title q) + len (q_Credentials q) + Z.of_nat (fields_size order2)).
Proof.
  intros Hop (op0 & order & tail & Hg)%DecodeQuery_spec H1 H2.
  assert (encodable q) as He by by eapply grammar_encodable.
  split; [done|]. exists (query_wire q order2). split_and!; [by apply GQLQuery_Encode_wire|by apply encodable_decodes|].
  unfold len, slen, query_wire. autorewrite with wire. unfold fieldSize. rewrite length_bytes_str. cbn [length]. lia.
Qed.

Lemma DecodeQuery_typed_witness :
  let payload := [zb 1; x00; x00] ++ [x00; x00] ++ [x00; x00] ++ [x00; x00] ++ [x00; x00]
    ++ [x00; zb 1; zb 97] ++ [x00; zb 1; zb 98] ++ be_encode 4 5 ++ be_encode 4 0 ++ [x00; x00; zb 7] in
  exists q, DecodeQuery payload "list_entries" = Ret q /\ encodable q.
Proof.
  intros payload. set (fs := ({[ "a"%string := "b"%string ]} : gmap string string)).
  exists (mkQuery EmptyString "list_entries" EmptyString EmptyString EmptyString fs [] 5 0).
  assert (DecodeQuery payload "list_entries" =
    Ret (mkQuery EmptyString "list_entries" EmptyString EmptyString EmptyString fs [] 5 0)) as E.
  { by vm_compute. }
  split; [exact E|].
  apply (DecodeQuery_typed payload "list_entries" _ (map_to_list fs) (map_to_list fs)).
  - by vm_compute.
  - exact E.
  - by unfold range_order.
  - by unfold range_order.
Defined.

(** ** Frames of queries ([NewQueryFrame] of [frame.go]) *)

Definition NewQueryFrame (order1 order2 : list (string * string)) (query : GQLQuery)
    : res gql_error Frame :=
  payload ← GQLQuery_Encode order1 order2 query;
  let opcode := if isWriteOperation (q_Operation query) then OpcodeMutate else OpcodeQuery in
  Ret {| f_Version := Version; f_Opcode := opcode; f_Flags := FlagNone;
         f_PayloadSize := u32 (len payload); f_Payload := payload |}.
