(* ===== verification/GqlValidator.v ===== *)
(** * The two-stage GQL validator ([engine/gql/validator.go])

    Stage 1 checks the frame, decodes the payload and checks every field;
    stage 2 checks the session. [SessionInfo] is the interface the daemon's
    session implements. *)

From S2P Require Import Prelude GoStd GqlOpcodes GqlFrame GqlQuery.

(** [type SessionInfo interface] *)
Class SessionInfo (S : Type) := {
  IsUnlocked : S -> bool;
  ActiveHandle : S -> string;
  UserID : S -> string;
  HasRole : S -> string -> bool
}.

(** The text of an error ([err.Error()]). *)
Definition Error (e : gql_error) : msg :=
  match e with
  | Errorf m => m
  | SyntacticError field reason details =>
      if msg_empty details
      then Sprintf "gql: syntactic error in %q: %s" [AStr field; AMsg reason]
      else Sprintf "gql: syntactic error in %q: %s (%s)" [AStr field; AMsg reason; AMsg details]
  | SemanticError op reason => Sprintf "gql: semantic error for %q: %s" [AStr op; AMsg reason]
  end.

Definition no_details : msg := Lit EmptyString.

(** ** Characters *)

Definition isIdentChar (c : Z) : bool :=
  if (97 <=? c) && (c <=? 122) then true
  else if (65 <=? c) && (c <=? 90) then true
  else if (48 <=? c) && (c <=? 57) then true
  else if (c =? 95) || (c =? 45) || (c =? 46) then true
  else false.

Definition validateStringField (name value : string) (required : bool) (maxLen : Z)
    : res gql_error unit :=
  _ ← check (required && bool_decide (value = EmptyString))
        (SyntacticError name (Lit "required field is empty") no_details);
  check (maxLen <? slen value)
    (SyntacticError name (Lit "exceeds maximum length")
       (Sprintf "%d > %d" [AInt (slen value); AInt maxLen])).

Definition validateIdentifier (name value : string) : res gql_error unit :=
  if decide (value = EmptyString) then Ret tt
  else for_range (fun i c =>
    check (negb (isIdentChar c))
      (SyntacticError name (Lit "invalid character in identifier")
         (Sprintf "position %d: character %q not allowed — only alphanumeric, _, -, . permitted"
            [AInt (Z.of_nat i); AStr (bytes_str (encode_rune c))])))
    (range_string value).

Definition validatePrintable (name value : string) : res gql_error unit :=
  if decide (value = EmptyString) then Ret tt
  else for_range (fun i c =>
    _ ← check ((c <? 32) && negb (c =? 9))
          (SyntacticError name (Lit "control character in text field")
             (Sprintf "position %d: 0x%02x" [AInt (Z.of_nat i); AInt c]));
    check (c =? 127)
      (SyntacticError name (Lit "DEL character in text field")
         (Sprintf "position %d" [AInt (Z.of_nat i)])))
    (range_string value).

(** ** Stage 1 *)

Definition validatePayloadBytes (payload : list byte) : res gql_error unit :=
  _ ← check (len payload =? 0) (SyntacticError "payload" (Lit "zero-length") no_details);
  b ← index 0 payload;
  let fieldCount := bz b in
  check (MaxFieldsCount <? fieldCount)
    (SyntacticError "field_count" (Lit "exceeds maximum")
       (Sprintf "%d > %d" [AInt fieldCount; AInt MaxFieldsCount])).

(** The body of the loop over the decoded fields. *)
Definition validateField (kv : string * string) : res gql_error unit :=
  let '(k, v) := kv in
  _ ← validateStringField "fields.key" k false MaxFieldKeyLen;
  _ ← validateIdentifier "fields.key" k;
  _ ← validateStringField "fields.value" v false MaxFieldValueLen;
  validatePrintable "fields.value" v.

Fixpoint validateFields (order : list (string * string)) : res gql_error unit :=
  match order with
  | [] => Ret tt
  | kv :: rest => _ ← validateField kv; validateFields rest
  end.

(** [if v != "" { validateStringField; validateX }] *)
Definition when_set (v : string) (body : res gql_error unit) : res gql_error unit :=
  if decide (v = EmptyString) then Ret tt else body.

Definition validateQuery (order : list (string * string)) (q : GQLQuery) (opcode : byte)
    : res gql_error unit :=
  _ ← validateStringField "namespace" (q_Namespace q) true MaxNamespaceLen;
  _ ← validateIdentifier "namespace" (q_Namespace q);
  _ ← when_set (q_EntryID q)
        (_ ← validateStringField "entry_id" (q_EntryID q) false MaxEntryIDLen;
         validateIdentifier "entry_id" (q_EntryID q));
  _ ← when_set (q_Category q)
        (_ ← validateStringField "category" (q_Category q) false MaxCategoryLen;
         validateIdentifier "category" (q_Category q));
  _ ← when_set (q_Title q)
        (_ ← validateStringField "title" (q_Title q) false MaxFieldValueLen;
         validatePrintable "title" (q_Title q));
  _ ← check (MaxFieldsCount <? Z.of_nat (size (q_Fields q)))
        (SyntacticError "fields" (Lit "too many fields")
           (Sprintf "%d > %d" [AInt (Z.of_nat (size (q_Fields q))); AInt MaxFieldsCount]));
  _ ← validateFields order;
  _ ← check (bool_decide (opcode = OpcodeQuery) && negb (isReadOperation (q_Operation q)))
        (SyntacticError "operation" (Lit "opcode mismatch")
           (Sprintf "opcode QUERY requires a read operation, got %q" [AStr (q_Operation q)]));
  check (bool_decide (opcode = OpcodeMutate) && negb (isWriteOperation (q_Operation q)))
    (SyntacticError "operation" (Lit "opcode mismatch")
       (Sprintf "opcode MUTATE requires a write operation, got %q" [AStr (q_Operation q)])).

(** ** Stage 2, and the whole validator *)

Section Validator.
Context {S : Type} `{SessionInfo S}.

Definition validateACL (q : GQLQuery) (session : option S) : res gql_error unit :=
  match session with
  | None => Err (SemanticError (q_Operation q) (Lit "no active session"))
  | Some session =>
      _ ← check (negb (IsUnlocked session))
            (SemanticError (q_Operation q) (Lit "vault locked"));
      _ ← check (bool_decide (ActiveHandle session = EmptyString))
            (SemanticError (q_Operation q) (Lit "no active MVK handle"));
      _ ← check (isWriteOperation (q_Operation q) && (len (q_Credentials q) =? 0))
            (SemanticError (q_Operation q) (Lit "write operation requires credentials"));
      let userID := UserID session in
      if bool_decide (userID <> EmptyString) && bool_decide (q_Namespace q <> EmptyString)
         && bool_decide (q_Namespace q <> userID)
      then check (negb (HasRole session "admin"))
             (SemanticError (q_Operation q)
                (Sprintf "namespace %q does not match session user %q"
                   [AStr (q_Namespace q); AStr userID]))
      else Ret tt
  end.

(** [iter] is the order in which the loop over a map visits it. *)
Definition ValidateFrame (iter : gmap string string -> list (string * string))
    (frame : Frame) (session : option S) : res gql_error (option GQLQuery) :=
  _ ← check (negb (bool_decide (f_Version frame = Version)))
        (SyntacticError "version"
           (Sprintf "unsupported version %d (expected %d)"
              [AInt (bz (f_Version frame)); AInt (bz Version)]) no_details);
  _ ← check (negb (isValidOpcode (f_Opcode frame)))
        (SyntacticError "opcode" (Sprintf "unknown opcode 0x%02x" [AInt (bz (f_Opcode frame))])
           no_details);
  if one_of (f_Opcode frame) [OpcodeResult; OpcodeError] then Ret None
  else
    _ ← check (MaxPayloadSize <? f_PayloadSize frame)
          (SyntacticError "payload_size" (Lit "exceeds maximum")
             (Sprintf "%d > %d" [AInt (f_PayloadSize frame); AInt MaxPayloadSize]));
    _ ← check (len (f_Payload frame) =? 0)
          (SyntacticError "payload" (Lit "empty payload") no_details);
    _ ← validatePayloadBytes (f_Payload frame);
    _ ← check (negb (one_of (f_Opcode frame) [OpcodeQuery; OpcodeMutate]))
          (SyntacticError "opcode" (Lit "opcode not allowed for query validation") no_details);
    query ← map_err (fun e => SyntacticError "payload" (Lit "decode failed") (Error e))
              (DecodeQuery (f_Payload frame) EmptyString);
    _ ← validateQuery (iter (q_Fields query)) query (f_Opcode frame);
    _ ← validateACL query session;
    Ret (Some query).
End Validator.

(** ** Specification: which bytes, which queries, which sessions *)

Definition ident_byte (b : byte) : Prop := isIdentChar (bz b) = true.
Definition printable (c : Z) : Prop := c = 9 \/ 32 <= c /\ c <> 127.
#[global] Instance printable_dec c : Decision (printable c).
Proof. unfold printable. apply _. Defined.
Definition text_byte (b : byte) : Prop := printable (bz b).

(** A bounded string all of whose bytes are in a class. *)
Definition bounded (P : byte -> Prop) (max : Z) (s : string) : Prop :=
  slen s <= max /\ Forall P (str_bytes s).

Definition opcode_agrees (opcode : byte) (op : string) : Prop :=
  (opcode = OpcodeQuery -> isReadOperation op = true) /\
  (opcode = OpcodeMutate -> isWriteOperation op = true).

Record query_clean (opcode : byte) (q : GQLQuery) : Prop := {
  qc_required : q_Namespace q <> EmptyString;
  qc_namespace : bounded ident_byte MaxNamespaceLen (q_Namespace q);
  qc_entry : bounded ident_byte MaxEntryIDLen (q_EntryID q);
  qc_category : bounded ident_byte MaxCategoryLen (q_Category q);
  qc_title : bounded text_byte MaxFieldValueLen (q_Title q);
  qc_count : Z.of_nat (size (q_Fields q)) <= MaxFieldsCount;
  qc_fields : map_Forall (fun k v => bounded ident_byte MaxFieldKeyLen k /\
                                     bounded text_byte MaxFieldValueLen v) (q_Fields q);
  qc_opcode : opcode_agrees opcode (q_Operation q)
}.

Definition authorized {S} `{SessionInfo S} (q : GQLQuery) (session : option S) : Prop :=
  exists s, session = Some s /\ IsUnlocked s = true /\ ActiveHandle s <> EmptyString /\
    (isWriteOperation (q_Operation q) = true -> q_Credentials q <> []) /\
    (UserID s = EmptyString \/ q_Namespace q = EmptyString \/ q_Namespace q = UserID s \/
     HasRole s "admin" = true).

(** ** The checks decide the specification *)

Lemma isIdentChar_ascii c : isIdentChar c = true -> ascii c.
Proof.
  unfold isIdentChar, ascii.
  repeat match goal with
    | |- context [if ?b then _ else _] => destruct b eqn:?
    end; rewrite ?andb_true_iff, ?orb_true_iff, ?Z.leb_le, ?Z.eqb_eq in *; lia || done.
Qed.

Lemma bounded_empty P max : 0 <= max -> bounded P max EmptyString.
Proof. split; [done|constructor]. Qed.

Lemma validateStringField_Ret name v required max :
  validateStringField name v required max = Ret tt <->
  (required = true -> v <> EmptyString) /\ slen v <= max.
Proof.
  unfold validateStringField, check.
  destruct (Z.ltb_spec max (slen v)) as [Hl|Hl];
    destruct required; cbn; try case_bool_decide; cbn; split; naive_solver lia.
Qed.

Lemma validateIdentifier_Ret name v :
  validateIdentifier name v = Ret tt <-> Forall ident_byte (str_bytes v).
Proof.
  unfold validateIdentifier. case_decide as Hv.
  { subst. split; [constructor|done]. }
  rewrite for_range_Ret with (P := fun c => isIdentChar c = true)
    by (intros; rewrite check_Ret_inv; apply negb_false_iff).
  rewrite runes_Forall_bytes by apply isIdentChar_ascii. by rewrite Forall_fmap.
Qed.

(** Non-printable characters are ASCII, so a string has one as a rune exactly
    when it has one as a byte. *)
Lemma runes_printable s : Forall printable (runes s) <-> Forall printable (bz <$> str_bytes s).
Proof.
  rewrite !Forall_forall.
  assert (forall c, ~ printable c -> c ∈ runes s <-> c ∈ bz <$> str_bytes s) as E.
  { intros c Hc. apply runes_elem_ascii. unfold printable, ascii in *. lia. }
  split; intros H c Hc; destruct (decide (printable c)) as [?|n]; try done;
    apply (E c n) in Hc; auto.
Qed.

Lemma validatePrintable_Ret name v :
  validatePrintable name v = Ret tt <-> Forall text_byte (str_bytes v).
Proof.
  unfold validatePrintable. case_decide as Hv.
  { subst. split; [constructor|done]. }
  rewrite for_range_Ret with (P := printable).
  - by rewrite runes_printable, Forall_fmap.
  - intros i c. unfold check, printable.
    destruct (Z.ltb_spec c 32), (Z.eqb_spec c 9), (Z.eqb_spec c 127); cbn;
      split; try done; intros; lia.
Qed.

Lemma seq_Ret (m n : res gql_error unit) : (_ ← m; n) = Ret tt <-> m = Ret tt /\ n = Ret tt.
Proof. destruct m as [[]| |]; cbn; naive_solver. Qed.

Lemma field_checks_Ret name v max (P : byte -> Prop) (body : res gql_error unit) :
  (body = Ret tt <-> Forall P (str_bytes v)) ->
  (_ ← validateStringField name v false max; body) = Ret tt <-> bounded P max v.
Proof.
  intros Hb. rewrite seq_Ret, validateStringField_Ret, Hb. unfold bounded. naive_solver.
Qed.

Lemma when_set_Ret v max (P : byte -> Prop) body :
  0 <= max -> (body = Ret tt <-> bounded P max v) ->
  when_set v body = Ret tt <-> bounded P max v.
Proof.
  intros Hm Hb. unfold when_set. case_decide as Hv; [|done].
  subst. split; [intros; by apply bounded_empty|done].
Qed.

Lemma validateFields_Ret order :
  validateFields order = Ret tt <->
  Forall (fun '(k, v) => bounded ident_byte MaxFieldKeyLen k /\
                         bounded text_byte MaxFieldValueLen v) order.
Proof.
  induction order as [|[k v] order IH]; cbn [validateFields validateField].
  { split; [constructor|done]. }
  rewrite seq_Ret, Forall_cons, IH, !seq_Ret, !validateStringField_Ret,
    validateIdentifier_Ret, validatePrintable_Ret.
  unfold bounded. naive_solver.
Qed.

Lemma range_order_Forall {V} (P : string -> V -> Prop) (m : gmap string V) order :
  range_order m order -> Forall (fun '(k, v) => P k v) order <-> map_Forall P m.
Proof.
  intros Ho. rewrite map_Forall_to_list, Ho. apply Forall_iff. by intros [].
Qed.

Lemma check_iff (b : bool) (e : gql_error) : check b e = Ret tt <-> b = false.
Proof. apply check_Ret_inv. Qed.

Lemma validateQuery_Ret order q opcode :
  range_order (q_Fields q) order ->
  validateQuery order q opcode = Ret tt <-> query_clean opcode q.
Proof.
  intros Ho. unfold validateQuery.
  rewrite !seq_Ret, !check_iff, validateStringField_Ret, validateIdentifier_Ret, validateFields_Ret.
  rewrite (range_order_Forall (fun k v => bounded ident_byte MaxFieldKeyLen k /\
    bounded text_byte MaxFieldValueLen v) _ _ Ho).
  rewrite (when_set_Ret _ MaxEntryIDLen ident_byte), (when_set_Ret _ MaxCategoryLen ident_byte),
    (when_set_Ret _ MaxFieldValueLen text_byte) by
    (done || apply field_checks_Ret; first [apply validateIdentifier_Ret|apply validatePrintable_Ret]).
  rewrite Z.ltb_ge, !andb_false_iff, !negb_false_iff, !bool_decide_eq_false.
  split.
  - intros. destruct_and!. split; unfold bounded, opcode_agrees; naive_solver.
  - intros [H1 [] ? ? ? ? ? [Hq Hm]]. repeat (done || split).
    + destruct (decide (opcode = OpcodeQuery)); naive_solver.
    + destruct (decide (opcode = OpcodeMutate)); naive_solver.
Qed.

(** A clean query fits the frame with room to spare: [fields_size] is at most
    100 pairs of 2 + 64 and 2 + 8192 bytes. *)
Lemma fields_size_bound order :
  Forall (fun '(k, v) => bounded ident_byte MaxFieldKeyLen k /\
                         bounded text_byte MaxFieldValueLen v) order ->
  Z.of_nat (fields_size order) <= 8260 * len order.
Proof.
  unfold len. induction 1 as [|[k v] order [[Hk _] [Hv _]] _ IH]; [done|].
  unfold slen, MaxFieldKeyLen, MaxFieldValueLen in *.
  cbn [fields_size length]. unfold fieldSize. lia.
Qed.

Lemma clean_encodable opcode q :
  query_clean opcode q -> isValidOperation (q_Operation q) = true ->
  short (bytes_str (q_Credentials q)) ->
  0 <= q_Limit q < 2 ^ 32 -> 0 <= q_Offset q < 2 ^ 32 -> encodable q.
Proof.
  intros [_ [Hn _] [He _] [Hc _] [Ht _] Hcount Hf _] [_ Hop]%valid_operation_len ? ? ?.
  unfold MaxNamespaceLen, MaxEntryIDLen, MaxCategoryLen, MaxFieldValueLen in *.
  split; try done.
  - repeat constructor; unfold short; lia.
  - eapply map_Forall_impl; [exact Hf|]. intros k v [[Hk _] [Hv _]].
    unfold short, MaxFieldKeyLen, MaxFieldValueLen in *. lia.
Qed.

Lemma clean_payload_bound opcode q order :
  query_clean opcode q -> isValidOperation (q_Operation q) = true ->
  short (bytes_str (q_Credentials q)) -> range_order (q_Fields q) order ->
  0 < len (query_wire q order) <= MaxPayloadSize.
Proof.
  intros [_ [Hn _] [He _] [Hc _] [Ht _] Hcount Hf _] [_ Hop]%valid_operation_len Hcr Ho.
  assert (Z.of_nat (fields_size order) <= 8260 * len order) as Hfs.
  { apply fields_size_bound. by apply (range_order_Forall (fun k v =>
      bounded ident_byte MaxFieldKeyLen k /\ bounded text_byte MaxFieldValueLen v) _ _ Ho). }
  assert (len order <= 100) as Hlen.
  { unfold len. rewrite Ho, length_map_to_list. done. }
  unfold MaxPayloadSize, MaxNamespaceLen, MaxEntryIDLen, MaxCategoryLen, MaxFieldValueLen, short,
    slen, len, query_wire in *.
  repeat rewrite ?length_app, ?length_field_wire, ?length_fields_wire, ?length_be_encode.
  unfold fieldSize. cbn [length]. lia.
Qed.

(** ** Theorems about the validator *)

Section ValidatorTheorems.
Context {S : Type} `{SessionInfo S}.
Context (iter : gmap string string -> list (string * string))
  (iter_order : forall m, range_order m (iter m)).
Implicit Types (f : Frame) (s : option S) (q : GQLQuery).

Lemma validateACL_Ret q s : validateACL q s = Ret tt <-> authorized q s.
Proof using Type.
  unfold validateACL, authorized. destruct s as [s|]; [|split; [done|by intros (? & ? & _)]].
  rewrite !seq_Ret, !check_iff, negb_false_iff, bool_decide_eq_false, andb_false_iff.
  assert (forall b, (b = false \/ (len (q_Credentials q) =? 0) = false) <->
    (b = true -> q_Credentials q <> [])) as Ec.
  { intros b. destruct (q_Credentials q), b; cbn; naive_solver. }
  rewrite Ec.
  assert (forall b : bool, (if b then check (negb (HasRole s "admin"))
      (SemanticError (q_Operation q) (Sprintf "namespace %q does not match session user %q"
                   [AStr (q_Namespace q); AStr (UserID s)])) else Ret tt) = Ret tt <->
    (b = true -> HasRole s "admin" = true)) as Ea.
  { intros []; rewrite ?check_iff, ?negb_false_iff; naive_solver. }
  rewrite Ea, !andb_true_iff, !bool_decide_eq_true.
  split.
  - intros (? & ? & ? & Hadm). exists s. repeat (done || split).
    destruct (decide (UserID s = EmptyString)), (decide (q_Namespace q = EmptyString)),
      (decide (q_Namespace q = UserID s)); naive_solver.
  - intros (s' & [= <-] & ? & ? & ? & Hadm). repeat (done || split). naive_solver.
Qed.

(** The frames the first stage lets through to the query checks. *)
Record frame_clean f : Prop := {
  fc_version : f_Version f = Version;
  fc_opcode : f_Opcode f = OpcodeQuery \/ f_Opcode f = OpcodeMutate;
  fc_size : f_PayloadSize f <= MaxPayloadSize
}.

Lemma ValidateFrame_Some_iff f s q :
  ValidateFrame iter f s = Ret (Some q) <->
  frame_clean f /\ DecodeQuery (f_Payload f) EmptyString = Ret q /\
  query_clean (f_Opcode f) q /\ authorized q s.
Proof using iter_order.
  unfold ValidateFrame. split.
  - intros H0. inv_res. case_match eqn:Hop; [discriminate|]. inv_res.
    destruct r, r0, r1, r2, r3, r4, r6, r7. rewrite ?negb_false_iff, ?bool_decide_eq_true in *.
    injection H0 as ->. rewrite validateQuery_Ret in * by done. rewrite validateACL_Ret in *.
    split; [|done]. split; [done| |].
    + match goal with H : one_of _ [OpcodeQuery; _] = true |- _ =>
        apply one_of_true in H; set_solver end.
    + match goal with H : (MaxPayloadSize <? _) = false |- _ => by apply Z.ltb_ge in H end.
  - intros ([Hv Ho Hs] & Hd & Hq & Ha).
    rewrite Hv. cbn [negb mbind res_bind].
    assert (isValidOpcode (f_Opcode f) = true /\
            one_of (f_Opcode f) [OpcodeResult; OpcodeError] = false /\
            one_of (f_Opcode f) [OpcodeQuery; OpcodeMutate] = true) as (E1 & E2 & E3)
      by (destruct Ho as [-> | ->]; by vm_compute).
    assert (f_Payload f <> [] /\ validatePayloadBytes (f_Payload f) = Ret tt) as [Hne Hb].
    { apply DecodeQuery_spec in Hd as (op0 & order & tail & [Hp Hc _ _ _ _ _ _ _]).
      rewrite Hp. split; [done|]. unfold validatePayloadBytes, check, index. cbn [app lookup list_lookup].
      cbn [mbind res_bind]. rewrite bz_zb, Z.mod_small by (unfold MaxFieldsCount, len in *; lia).
      by rewrite (proj2 (Z.ltb_ge _ _) Hc). }
    assert ((len (f_Payload f) =? 0) = false) as E4.
    { destruct (f_Payload f); [done|]. apply Z.eqb_neq. unfold len. cbn. lia. }
    rewrite E1, E2, E3, E4, (proj2 (Z.ltb_ge _ _) Hs), Hb, Hd. cbn [check mbind res_bind negb map_err].
    rewrite (proj2 (validateQuery_Ret _ _ _ (iter_order _)) Hq). cbn [mbind res_bind].
    by rewrite (proj2 (validateACL_Ret _ _) Ha).
Qed.

Lemma for_range_no_Panic (body : nat -> Z -> res gql_error unit) its :
  (forall i c, body i c <> Panic) -> for_range body its <> Panic.
Proof using Type.
  intros Hb. induction its as [|[i c] its IH]; [done|]. cbn.
  specialize (Hb i c). by destruct (body i c).
Qed.
End ValidatorTheorems.

#[export] Hint Extern 1 (for_range _ _ <> Panic) => apply for_range_no_Panic; intros : no_panic.

Section Total.
Context {S : Type} `{SessionInfo S}.
Context (iter : gmap string string -> list (string * string)).

Lemma validateStringField_total n v r m : validateStringField n v r m <> Panic.
Proof. unfold validateStringField. no_panic. Qed.
Lemma validateIdentifier_total n v : validateIdentifier n v <> Panic.
Proof. unfold validateIdentifier. case_decide; no_panic. Qed.
Lemma validatePrintable_total n v : validatePrintable n v <> Panic.
Proof. unfold validatePrintable. case_decide; no_panic. Qed.
#[local] Hint Resolve validateStringField_total validateIdentifier_total
  validatePrintable_total : no_panic.

Lemma validateFields_total order : validateFields order <> Panic.
Proof.
  induction order as [|[k v] order IH]; cbn [validateFields validateField]; no_panic.
Qed.
Lemma when_set_total v body : body <> Panic -> when_set v body <> Panic.
Proof. unfold when_set. by case_decide. Qed.
#[local] Hint Resolve validateFields_total when_set_total : no_panic.

Lemma validateQuery_total order q opcode : validateQuery order q opcode <> Panic.
Proof. unfold validateQuery. no_panic. Qed.

Lemma validateACL_total q (s : option S) : validateACL q s <> Panic.
Proof. unfold validateACL. destruct s as [s|]; [|done]. case_match; no_panic. Qed.

(** [validatePayloadBytes] reads the first byte after its length check. *)
Lemma validatePayloadBytes_total p : validatePayloadBytes p <> Panic.
Proof.
  unfold validatePayloadBytes. destruct p; cbn [index lookup list_lookup]; [done|]. no_panic.
Qed.
#[local] Hint Resolve validateQuery_total validateACL_total validatePayloadBytes_total
  DecodeQuery_total : no_panic.

Lemma ValidateFrame_total f (s : option S) : ValidateFrame iter f s <> Panic.
Proof.
  unfold ValidateFrame. do 2 (apply seq_no_Panic; [no_panic|intros]).
  case_match; [done|]. do 4 (apply seq_no_Panic; [no_panic|intros]).
  apply seq_no_Panic; [rewrite map_err_Panic_inv; no_panic|intros]. no_panic.
Qed.
End Total.

(** The session of the validator's tests ([engine/gql/validator_test.go]). *)
Record mockSession := {
  unlocked : bool;
  handle : string;
  userID : string;
  roles : gmap string bool
}.
#[export] Instance mockSession_info : SessionInfo mockSession := {
  IsUnlocked := unlocked;
  ActiveHandle := handle;
  UserID := userID;
  HasRole s role := default false (roles s !! role)
}.
Definition unlockedSession : mockSession :=
  {| unlocked := true; handle := "mvk:test1234"; userID := "default"; roles := ∅ |}.

(** A query that creates an entry with one field, and its credentials. *)
Definition sample_query : GQLQuery := {|
  q_Namespace := "default"; q_Operation := OpCreateEntry; q_EntryID := EmptyString;
  q_Category := "login"; q_Title := "My account"; q_Fields := {[ "user"%string := "ann"%string ]};
  q_Limit := 0; q_Offset := 0; q_Credentials := [x01; x02] |}.

Lemma sample_clean : query_clean OpcodeMutate sample_query.
Proof.
  apply (validateQuery_Ret (map_to_list (q_Fields sample_query))); [apply Permutation_refl|by vm_compute].
Qed.

Lemma sample_authorized : authorized sample_query (Some unlockedSession).
Proof. apply validateACL_Ret. by vm_compute. Qed.

(** C1. What a validated query is. [ValidateFrame] returns a query exactly when
    the frame carries the current version, a query or mutation opcode and an
    admissible size, its payload decodes to that query, every field of the
    query has only allowed bytes and an allowed length, the operation agrees
    with the opcode, and the session is unlocked with a key handle, carries
    credentials for a write, and owns the namespace or is an administrator.
    The order in which the loop visits the field map does not matter. *)
Theorem ValidateFrame_accepts {S} `{SessionInfo S} iter
    (iter_order : forall m, range_order m (iter m)) f (s : option S) q :
  ValidateFrame iter f s = Ret (Some q) <->
  frame_clean f /\ DecodeQuery (f_Payload f) EmptyString = Ret q /\
  query_clean (f_Opcode f) q /\ authorized q s.
Proof. by apply ValidateFrame_Some_iff. Qed.

Lemma ValidateFrame_accepts_witness :
  exists f, ValidateFrame map_to_list f (Some unlockedSession) = Ret (Some sample_query) /\
            frame_clean f.
Proof.
  eexists (mkFrame Version OpcodeMutate 0 0 (query_wire sample_query [("user", "ann")%string])).
  assert (ValidateFrame map_to_list (mkFrame Version OpcodeMutate 0 0
    (query_wire sample_query [("user", "ann")%string])) (Some unlockedSession)
    = Ret (Some sample_query)) as Hv by (by vm_compute).
  split; [exact Hv|].
  by apply (ValidateFrame_accepts map_to_list (fun m => Permutation_refl _)) in Hv as [? _].
Defined.

(** C7. Nothing of the GQL surface panics: not the frame decoder, not the query
    decoder and not the validator, on any bytes and any session. *)
Theorem gql_not_Panic {S} `{SessionInfo S} data payload op iter f (s : option S) :
  DecodeFrame data <> Panic /\ DecodeQuery payload op <> Panic /\
  ValidateFrame iter f s <> Panic.
Proof.
  split; [apply DecodeFrame_total|]. split; [apply DecodeQuery_total|apply ValidateFrame_total].
Qed.

Lemma NewQueryFrame_eq q order1 order2 :
  range_order (q_Fields q) order1 -> range_order (q_Fields q) order2 ->
  NewQueryFrame order1 order2 q = Ret {|
    f_Version := Version;
    f_Opcode := if isWriteOperation (q_Operation q) then OpcodeMutate else OpcodeQuery;
    f_Flags := FlagNone; f_PayloadSize := u32 (len (query_wire q order2));
    f_Payload := query_wire q order2 |}.
Proof. intros H1 H2. unfold NewQueryFrame. by rewrite GQLQuery_Encode_wire. Qed.

(** The frame of a clean query, as the client builds it, is accepted. *)
Lemma clean_accepted {S} `{SessionInfo S} iter
    (iter_order : forall m, range_order m (iter m)) q opcode (s : option S) :
  isValidOperation (q_Operation q) = true ->
  opcode = (if isWriteOperation (q_Operation q) then OpcodeMutate else OpcodeQuery) ->
  query_clean opcode q -> short (bytes_str (q_Credentials q)) ->
  0 <= q_Limit q < 2 ^ 32 -> 0 <= q_Offset q < 2 ^ 32 -> authorized q s ->
  let payload := query_wire q (iter (q_Fields q)) in
  0 < len payload <= MaxPayloadSize /\ (opcode = OpcodeQuery \/ opcode = OpcodeMutate) /\
  ValidateFrame iter (mkFrame Version opcode FlagNone (len payload) payload) s = Ret (Some q).
Proof.
  intros Hop Hopc Hq Hc Hl Ho Ha payload.
  pose proof (iter_order (q_Fields q)) as Hi.
  pose proof (clean_payload_bound _ _ _ Hq Hop Hc Hi) as Hsize. fold payload in Hsize.
  assert (opcode = OpcodeQuery \/ opcode = OpcodeMutate) as Ho2 by (subst; case_match; auto).
  split; [done|]. split; [done|]. rewrite ValidateFrame_Some_iff by done.
  split; [split; [done|exact Ho2|apply Hsize]|].
  split; [|done]. apply encodable_decodes; [by eapply clean_encodable|done].
Qed.

(** C6. Requests survive the trip: a clean query with a known operation, short
    credentials and 32-bit paging is framed, encoded, decoded and validated by
    the server into itself, whenever the session is authorized for it. *)
Theorem query_end_to_end {S} `{SessionInfo S} iter
    (iter_order : forall m, range_order m (iter m)) q opcode (s : option S) :
  isValidOperation (q_Operation q) = true ->
  opcode = (if isWriteOperation (q_Operation q) then OpcodeMutate else OpcodeQuery) ->
  query_clean opcode q -> short (bytes_str (q_Credentials q)) ->
  0 <= q_Limit q < 2 ^ 32 -> 0 <= q_Offset q < 2 ^ 32 -> authorized q s ->
  exists f bytes, NewQueryFrame (iter (q_Fields q)) (iter (q_Fields q)) q = Ret f /\
    Frame_Encode f = Ret bytes /\ DecodeFrame bytes = Ret f /\
    ValidateFrame iter f s = Ret (Some q).
Proof.
  intros Hop Hopc Hq Hc Hl Ho Ha.
  destruct (clean_accepted iter iter_order q opcode s Hop Hopc Hq Hc Hl Ho Ha) as (Hsize & Ho2 & Hv).
  rewrite NewQueryFrame_eq by done. rewrite <- Hopc.
  revert Hsize Hv. generalize (query_wire q (iter (q_Fields q))) as p. intros p Hsize Hv.
  assert (u32 (len p) = len p) as -> by (unfold MaxPayloadSize in *; apply u32_small; lia).
  eexists _, _. split; [done|]. rewrite Frame_Encode_wire, DecodeFrame_spec.
  split_and!; try done; split; try done; try apply Hsize.
  by destruct Ho2 as [-> | ->].
Qed.

Lemma query_end_to_end_witness :
  exists f bytes,
    NewQueryFrame (map_to_list (q_Fields sample_query)) (map_to_list (q_Fields sample_query))
      sample_query = Ret f /\
    Frame_Encode f = Ret bytes /\ DecodeFrame bytes = Ret f /\
    ValidateFrame map_to_list f (Some unlockedSession) = Ret (Some sample_query).
Proof.
  apply (query_end_to_end map_to_list (fun m => Permutation_refl _) sample_query OpcodeMutate);
    [by vm_compute|by vm_compute|apply sample_clean|by vm_compute|by vm_compute|by vm_compute|
     apply sample_authorized].
Defined.
