(* ===== verification/GqlPages.v ===== *)
(** * Pages of results ([engine/gql/frame.go], [types.go], [validator.go])

    How large the payload of a page of entries can be, when the entries hold
    what [ValidateFrame] accepts, and what [DecodeFrame] makes of its frame.
    [NewResultFrame] does not compare the payload with [MaxPayloadSize]. *)

From S2P Require Import Prelude GoStd Json GqlOpcodes GqlFrame GqlResult GqlQuery GqlValidator.

(** ** Entries that hold what the validator accepts *)

(** Some server, with some session, accepts a frame with the query. *)
Definition accepted (q : GQLQuery) : Prop :=
  exists (S : Type) (I : SessionInfo S) iter f (s : option S),
    (forall m, range_order m (iter m)) /\ ValidateFrame iter f s = Ret (Some q).

(** The entry has the category, the title and the fields of the query; its
    other texts are the server's own, its times are [int64]s. *)
Record entry_holds (q : GQLQuery) (e : GQLEntry) : Prop := {
  eo_category : e_Category e = q_Category q;
  eo_title : e_Title e = q_Title q;
  eo_fields : e_Fields e = q_Fields q;
  eo_created : - 2 ^ 63 <= e_CreatedAt e < 2 ^ 63;
  eo_updated : - 2 ^ 63 <= e_UpdatedAt e < 2 ^ 63
}.
Definition accepted_entry (e : GQLEntry) : Prop := exists q, accepted q /\ entry_holds q e.

(** [TotalCount] is a [uint32] and [ErrorCode] an [int32]. *)
Definition result_ints (r : GQLResult) : Prop :=
  0 <= r_TotalCount r < 2 ^ 32 /\ - 2 ^ 31 <= r_ErrorCode r < 2 ^ 31.

(** The bytes of the texts that come from no validated query. *)
Definition own_text (r : GQLResult) : Z :=
  slen (r_RequestID r) + slen (r_ErrorMsg r) +
  Z.of_nat (sum_list_with (fun e => String.length (e_ID e) + String.length (e_Type e))%nat (r_Entries r)).

(** What the validated texts of one entry take at most, all escaped. *)
Definition max_entry_json : Z := 5010000.

Section PageBounds.
Lemma map_size (m : gmap string string) :
  Z.of_nat (size m) <= MaxFieldsCount ->
  map_Forall (fun k v => slen k <= MaxFieldKeyLen /\ slen v <= MaxFieldValueLen) m ->
  len (print (json_map m)) <= 2 + 100 * 49542.
Proof.
  intros Hc Hm. unfold json_map. etransitivity; [apply obj_size|]. unfold total.
  rewrite sum_list_with_map. pose proof (merge_sort_Permutation key_le (map_to_list m)) as Hp.
  pose proof (sum_list_with_le (fun kv => member_size (kv.1, JStr kv.2)) (Z.to_nat 49542)
    (merge_sort key_le (map_to_list m))) as H.
  rewrite (Permutation_length Hp), length_map_to_list in H.
  unfold MaxFieldsCount in Hc. cut (Z.of_nat (sum_list_with (fun kv => member_size (kv.1, JStr kv.2))
    (merge_sort key_le (map_to_list m))) <= Z.of_nat (size m) * 49542); [lia|].
  etransitivity; [apply inj_le, H|lia]. intros [k v] Hkv. rewrite Hp in Hkv.
  apply elem_of_map_to_list in Hkv. destruct (Hm k v Hkv) as [Hk Hv].
  pose proof (str_member_size k v MaxFieldValueLen Hv). cbn [fst snd].
  unfold MaxFieldValueLen, MaxFieldKeyLen in *. lia.
Qed.


(** The lengths the validator lets through. *)
Lemma accepted_lengths q :
  accepted q ->
  slen (q_Category q) <= MaxCategoryLen /\ slen (q_Title q) <= MaxFieldValueLen /\
  Z.of_nat (size (q_Fields q)) <= MaxFieldsCount /\
  map_Forall (fun k v => slen k <= MaxFieldKeyLen /\ slen v <= MaxFieldValueLen) (q_Fields q).
Proof.
  intros (S & I & iter & f & s & Hi & Hv). apply (ValidateFrame_Some_iff iter Hi) in Hv as (_ & _ & Hq & _).
  destruct Hq as [_ _ _ [Hc _] [Ht _] Hn Hf _]. split_and!; try done.
  eapply map_Forall_impl; [exact Hf|]. by intros k v [[? _] [? _]].
Qed.

Lemma entry_size e :
  accepted_entry e ->
  len (print (entry_json e)) <= max_entry_json - 1 + 6 * Z.of_nat (String.length (e_ID e) + String.length (e_Type e)).
Proof.
  intros (q & (Hc & Hti & Hn & Hf)%accepted_lengths & [Ec Et Ef H1 H2]).
  rewrite <- Ec in Hc. rewrite <- Et in Hti. rewrite <- Ef in Hn, Hf. clear q Ec Et Ef.
  unfold entry_json. etransitivity; [apply obj_size|]. unfold opt_str. rewrite !total_app.
  pose proof (total_omit member_size (is_empty (e_Type e)) "type" (JStr (e_Type e))).
  pose proof (total_omit member_size (is_empty (e_Title e)) "title" (JStr (e_Title e))).
  pose proof (total_omit member_size (bool_decide (e_Fields e = ∅)) "fields" (json_map (e_Fields e))).
  pose proof (str_member_size "id" _ _ (Z.le_refl (slen (e_ID e)))).
  pose proof (str_member_size "type" _ _ (Z.le_refl (slen (e_Type e)))).
  pose proof (str_member_size "category" _ _ Hc). pose proof (str_member_size "title" _ _ Hti).
  pose proof (member_size_le "fields" _ _ (map_size _ Hn Hf)).
  pose proof (num_member_size "created_at" _ H1). pose proof (num_member_size "updated_at" _ H2).
  rewrite !total_cons in *. unfold total in *. cbn [sum_list_with slen String.length] in *.
  unfold slen, max_entry_json, MaxCategoryLen, MaxFieldValueLen in *. cbn [String.length] in *.
  lia.
Qed.

Lemma entries_size es :
  Forall accepted_entry es ->
  Z.of_nat (sum_list_with (fun e => S (length (print (entry_json e)))) es) <=
  len es * max_entry_json +
  6 * Z.of_nat (sum_list_with (fun e => String.length (e_ID e) + String.length (e_Type e))%nat es).
Proof.
  induction 1 as [|e es He _ IH]; [done|]. cbn [sum_list_with]. pose proof (entry_size e He) as Hs.
  unfold len in *. cbn [length]. lia.
Qed.

Lemma result_size r :
  Forall accepted_entry (r_Entries r) -> result_ints r ->
  len (EncodeResult r) <= 500 + len (r_Entries r) * max_entry_json + 6 * own_text r.
Proof.
  intros He [Ht Hc]. unfold EncodeResult, result_json. etransitivity; [apply obj_size|].
  unfold opt_str. rewrite !total_app.
  pose proof (total_omit member_size (is_empty (r_RequestID r)) "request_id" (JStr (r_RequestID r))).
  pose proof (total_omit member_size (is_empty (r_ErrorMsg r)) "error_msg" (JStr (r_ErrorMsg r))).
  pose proof (total_omit member_size (bool_decide (length (r_Entries r) = 0%nat)) "entries"
    (JArr (map entry_json (r_Entries r)))).
  pose proof (total_omit member_size (r_TotalCount r =? 0) "total_count" (JNum (r_TotalCount r))).
  pose proof (total_omit member_size (r_ErrorCode r =? 0) "error_code" (JNum (r_ErrorCode r))).
  pose proof (str_member_size "request_id" _ _ (Z.le_refl (slen (r_RequestID r)))).
  pose proof (str_member_size "error_msg" _ _ (Z.le_refl (slen (r_ErrorMsg r)))).
  pose proof (num_member_size "total_count" (r_TotalCount r)).
  pose proof (num_member_size "error_code" (r_ErrorCode r)).
  assert (Z.of_nat (member_size ("success"%string, JBool (r_Success r))) <= 60) by by destruct (r_Success r).
  pose proof (arr_size (map entry_json (r_Entries r))) as Ha. rewrite sum_list_with_map in Ha.
  pose proof (entries_size _ He) as Hes.
  pose proof (member_size_le "entries" _ _ Ha).
  rewrite !total_cons in *. unfold total, own_text in *. cbn [sum_list_with] in *.
  unfold slen, max_entry_json in *. cbn [String.length] in *. lia.
Qed.
End PageBounds.

(** ** A page that does not fit *)

Section BigPage.
Lemma obj_size_lower kvs : (sum_list_with (fun kv => length (print kv.2)) kvs <= length (print (JObj kvs)))%nat.
Proof.
  rewrite print_obj, !length_app. pose proof (joined_length (map member kvs)) as H.
  rewrite sum_list_with_map in H.
  assert (sum_list_with (fun kv => length (print kv.2)) kvs <= sum_list_with (fun kv => S (length (member kv))) kvs)%nat.
  { clear. induction kvs as [|kv kvs IH]; cbn [sum_list_with]; [lia|]. unfold member at 1. rewrite !length_app. lia. }
  cbn [length]. destruct (map member kvs); lia.
Qed.

Lemma arr_size_lower vs : (sum_list_with (fun v => length (print v)) vs <= length (print (JArr vs)))%nat.
Proof.
  cbn [print]. rewrite !length_app. pose proof (joined_length (map print vs)) as H.
  rewrite sum_list_with_map in H.
  assert (sum_list_with (fun v => length (print v)) vs <= sum_list_with (fun v => S (length (print v))) vs)%nat
    by (clear; induction vs; cbn; lia).
  cbn [length]. destruct (map print vs); lia.
Qed.

Definition less_thans (n : nat) : string := bytes_str (replicate n (zb 60)).

Lemma quote_less_thans n : length (quote (less_thans n)) = (2 + 6 * n)%nat.
Proof.
  unfold quote, less_thans. rewrite length_bytes_str, str_bytes_str, length_replicate, !length_app.
  assert (length (escape n (replicate n (zb 60))) = 6 * n)%nat as ->; [|cbn; lia].
  induction n as [|n IH]; [done|]. cbn [replicate escape]. change (bz (zb 60) <? 128) with true. cbv iota.
  rewrite length_app, IH. change (length (if html_safe (zb 60) then [zb 60] else escape_ascii (zb 60))) with 6%nat.
  lia.
Qed.

(** A hundred fields of [n] times a character that is escaped. *)
Definition big_fields (n : nat) : gmap string string :=
  list_to_map (map (fun i => (hex_string [zb (Z.of_nat i)], less_thans n)) (seq 0 100)).
Definition big_entry (n : nat) : GQLEntry :=
  mkEntry "id" "PASSWORD" EmptyString EmptyString (big_fields n) 0 0.

Lemma big_fields_list n :
  map_to_list (big_fields n) ≡ₚ map (fun i => (hex_string [zb (Z.of_nat i)], less_thans n)) (seq 0 100).
Proof.
  apply map_to_list_to_map. generalize (less_thans n). intros v.
  change (NoDup (map fst (map (fun i => (hex_string [zb (Z.of_nat i)], v)) (seq 0 100)))).
  rewrite map_map. cbn [fst]. by apply (bool_decide_unpack _); vm_compute.
Qed.

(** The query that creates it. *)
Definition big_query (n : nat) : GQLQuery :=
  mkQuery "default" OpCreateEntry EmptyString "PASSWORD" EmptyString (big_fields n) [x01; x02] 0 0.

Lemma big_query_clean n : slen (less_thans n) <= MaxFieldValueLen -> query_clean OpcodeMutate (big_query n).
Proof.
  intros Hn. assert (forall s, s = "default"%string \/ s = "PASSWORD"%string \/ s = EmptyString ->
    Forall ident_byte (str_bytes s)) as Hid.
  { unfold ident_byte. intros s [->|[->| ->]]; apply (bool_decide_unpack _); by vm_compute. }
  split; cbn [big_query q_Namespace q_EntryID q_Category q_Title q_Fields q_Operation].
  1: done. 1-3: by split; [vm_compute|apply Hid; auto]. 1: by split; [vm_compute|constructor]. 3: done.
  - pose proof (Permutation_length (big_fields_list n)) as H. rewrite length_map, length_map_to_list in H.
    by rewrite H.
  - intros k v Hkv. apply elem_of_map_to_list in Hkv. rewrite big_fields_list in Hkv.
    apply list_elem_of_In, in_map_iff in Hkv as (i & [= <- <-] & Hi). split; split.
    + unfold slen, hex_string. by rewrite length_bytes_str, length_hex_encode.
    + assert (forallb (fun i => forallb (fun b => isIdentChar (bz b)) (str_bytes (hex_string [zb (Z.of_nat i)])))
        (seq 0 100) = true) as Hk by by vm_compute.
      rewrite forallb_forall in Hk. specialize (Hk i Hi). rewrite forallb_forall in Hk.
      apply Forall_forall. intros b Hb. by apply Hk, list_elem_of_In.
    + exact Hn.
    + unfold less_thans. rewrite str_bytes_str. apply Forall_replicate. right. by split; vm_compute.
Qed.

Lemma big_entry_accepted n : slen (less_thans n) <= MaxFieldValueLen -> accepted_entry (big_entry n).
Proof.
  intros Hn. exists (big_query n). split; [|by split].
  exists mockSession, _, map_to_list. eexists _, (Some unlockedSession).
  split; [intros m; apply Permutation_refl|].
  apply (clean_accepted map_to_list (fun m => Permutation_refl _) (big_query n) OpcodeMutate);
    [done|done|by apply big_query_clean|by vm_compute|done|done|].
  apply validateACL_Ret. by vm_compute.
Qed.

Lemma big_entry_size n : (100 * (2 + 6 * n) <= length (print (entry_json (big_entry n))))%nat.
Proof.
  etransitivity; [|apply obj_size_lower]. unfold entry_json.
  assert (100 * (2 + 6 * n) <= length (print (json_map (big_fields n))))%nat as H.
  { etransitivity; [|apply obj_size_lower]. rewrite sum_list_with_map.
    rewrite (merge_sort_Permutation key_le (map_to_list (big_fields n))), (big_fields_list n), sum_list_with_map.
    cbn [snd fst print]. rewrite quote_less_thans. generalize (2 + 6 * n)%nat. intros k.
    assert (forall l : list nat, sum_list_with (fun _ => k) l = length l * k)%nat as ->; [|by rewrite length_seq].
    intros l. induction l as [|i l IH]; cbn [length sum_list_with]; lia. }
  rewrite !sum_list_with_app. cbn [e_Fields big_entry].
  rewrite bool_decide_false; [cbn [omit_if sum_list_with snd]; lia|].
  intros E. apply (f_equal map_to_list) in E. pose proof (big_fields_list n) as Hp. rewrite E, map_to_list_empty in Hp.
  apply Permutation_length in Hp. by rewrite length_map in Hp.
Qed.
End BigPage.

Definition big_page (n : nat) : GQLResult :=
  mkResult EmptyString true (replicate 4 (big_entry n)) 4 0 EmptyString.

Lemma big_page_ints n : result_ints (big_page n) /\ len (r_Entries (big_page n)) = 4 /\ own_text (big_page n) = 8.
Proof. by split. Qed.

Lemma big_page_size n : 400 * (2 + 6 * Z.of_nat n) <= len (EncodeResult (big_page n)).
Proof.
  pose proof (big_entry_size n) as Hb. unfold EncodeResult, len.
  etransitivity; [|apply inj_le, obj_size_lower]. rewrite !sum_list_with_app.
  cbn [r_Entries big_page]. rewrite bool_decide_false by done. cbn [omit_if sum_list_with snd].
  pose proof (arr_size_lower (map entry_json (replicate 4 (big_entry n)))) as Ha.
  cbn [replicate map sum_list_with] in Ha |- *. lia.
Qed.

(** As many characters as a field's value may have. *)
Lemma big_page_exists :
  exists n, slen (less_thans n) <= MaxFieldValueLen /\ MaxPayloadSize < len (EncodeResult (big_page n)).
Proof.
  assert (exists n, Z.of_nat n = MaxFieldValueLen) as [n Hn] by (exists (Z.to_nat MaxFieldValueLen); by rewrite Z2Nat.id).
  exists n. pose proof (big_page_size n) as Hs. unfold slen, less_thans.
  rewrite length_bytes_str, length_replicate. rewrite Hn in Hs |- *. split; [lia|].
  eapply Z.lt_le_trans; [|exact Hs]. by vm_compute.
Qed.


(** C9. How large a page of results is. When every entry of a page has the
    category, title and fields of a query [ValidateFrame] accepts, the
    payload has at most 500 bytes, 5,010,000 for each entry, and six for each
    byte of the texts no validator has seen: the request ID, the error
    message, and the entries' IDs and types. So up to three such entries, with up
    to 290,000 bytes of those texts, make a frame the decoder accepts. Four may
    not: there are four accepted entries whose payload exceeds
    [MaxPayloadSize], and whose frame [Frame_Encode] writes and [DecodeFrame]
    refuses. *)
Theorem page_bounds :
  (forall r, Forall accepted_entry (r_Entries r) -> result_ints r ->
     len (EncodeResult r) <= 500 + len (r_Entries r) * 5010000 + 6 * own_text r /\
     (len (r_Entries r) <= 3 -> own_text r <= 290000 ->
      exists bytes, Frame_Encode (NewResultFrame r) = Ret bytes /\ DecodeFrame bytes = Ret (NewResultFrame r))) /\
  (exists r, Forall accepted_entry (r_Entries r) /\ result_ints r /\ len (r_Entries r) = 4 /\ own_text r = 8 /\
     MaxPayloadSize < len (EncodeResult r) /\
     exists bytes e, Frame_Encode (NewResultFrame r) = Ret bytes /\ DecodeFrame bytes = Err e).
Proof.
  split.
  - intros r He Hi. pose proof (result_size r He Hi) as Hs. split; [done|]. intros Hn Ho.
    destruct (result_frame_roundtrip r) as (bytes & Hb & Hd & _). exists bytes. split; [done|]. apply Hd.
    unfold MaxPayloadSize, max_entry_json in *. lia.
  - destruct big_page_exists as (n & Hn & Hs). exists (big_page n).
    destruct (result_frame_roundtrip (big_page n)) as (bytes & He & _ & Hd).
    split; [by apply Forall_replicate, big_entry_accepted|].
    destruct (big_page_ints n) as (H1 & H2 & H3). split; [exact H1|]. split; [exact H2|]. split; [exact H3|].
    split; [exact Hs|].
    destruct (Hd Hs) as [e Hd']. exists bytes, e. split; assumption.
Qed.

(** An entry with what [sample_query] creates, in a page that fits. *)
Definition mail_entry : GQLEntry :=
  mkEntry "e-1" "login" "server" "My account" {[ "user"%string := "ann"%string ]} 7 (-7).
Definition mail_page : GQLResult := mkResult "r1" true [mail_entry] 1 0 EmptyString.

Lemma page_bounds_witness :
  exists bytes, Frame_Encode (NewResultFrame mail_page) = Ret bytes /\
    DecodeFrame bytes = Ret (NewResultFrame mail_page).
Proof.
  apply (proj1 page_bounds); [|by split|by vm_compute|by vm_compute].
  constructor; [|constructor]. exists sample_query. split; [|by split].
  exists mockSession, _, map_to_list. eexists _, (Some unlockedSession).
  split; [intros m; apply Permutation_refl|].
  apply (clean_accepted map_to_list (fun m => Permutation_refl _) sample_query OpcodeMutate);
    [done|done|apply sample_clean|by vm_compute|done|done|apply sample_authorized].
Defined.
