(* ===== verification/GqlSanitize.v ===== *)
(** * Sanitizing field keys ([SanitizeFieldKey] in [engine/gql/validator.go])

    [strings.TrimSpace] on the bytes of a string, from the left by decoding
    runes and from the right by decoding the last one, and the loop that keeps
    identifier characters. *)

From S2P Require Import Prelude GoStd GqlOpcodes GqlFrame GqlQuery GqlValidator.

(** ** [strings.TrimSpace] *)

(** [unicode.IsSpace(r)] *)
Definition IsSpace (r : Z) : bool :=
  one_of r [9; 10; 11; 12; 13; 32; 133; 160; 5760; 8232; 8233; 8239; 8287; 12288]
  || (8192 <=? r) && (r <=? 8202).

(** [utf8.RuneStart(b)] *)
Definition RuneStart (b : byte) : bool := negb ((128 <=? bz b) && (bz b <=? 191)).

(** Where [utf8.DecodeLastRune] starts decoding: at the last of the final
    bytes, at most four, that can start a rune. [k] bytes are behind it. *)
Fixpoint last_start (tries : nat) (rev_l : list byte) (k : nat) : option nat :=
  match tries, rev_l with
  | S tries, b :: rest => if RuneStart b then Some (S k) else last_start tries rest (S k)
  | _, _ => None
  end.

Definition decode_last_rune (l : list byte) : Z * nat :=
  match last_start 4 (rev l) 0 with
  | Some k =>
      let '(r, size) := decode_rune (drop (length l - k) l) in
      if decide (size = k) then (r, size) else (RuneError, 1%nat)
  | None => (RuneError, 1%nat)
  end.

Fixpoint trim_left (fuel : nat) (l : list byte) : list byte :=
  match fuel, l with
  | S fuel, _ :: _ =>
      let '(r, size) := decode_rune l in
      if IsSpace r then trim_left fuel (drop size l) else l
  | _, _ => l
  end.

Fixpoint trim_right (fuel : nat) (l : list byte) : list byte :=
  match fuel, l with
  | S fuel, _ :: _ =>
      let '(r, size) := decode_last_rune l in
      if IsSpace r then trim_right fuel (take (length l - size) l) else l
  | _, _ => l
  end.

Definition TrimSpace (s : string) : string :=
  let l := trim_left (String.length s) (str_bytes s) in
  bytes_str (trim_right (length l) l).

(** ** [SanitizeFieldKey] *)

(** An identifier character is one byte in UTF-8. *)
Definition SanitizeFieldKey (key : string) : string :=
  let key := TrimSpace key in
  bytes_str (foldl (fun b c => if isIdentChar c then b ++ [zb c] else b) [] (runes key)).

(** ** Lemmas *)

Definition ident_bytes (l : list byte) : list byte := filter (fun b => isIdentChar (bz b) = true) l.

Section Sanitize.
Lemma ident_bytes_app a b : ident_bytes (a ++ b) = ident_bytes a ++ ident_bytes b.
Proof. apply filter_app. Qed.

Lemma ident_bytes_plain l : Forall (fun b => ~ ascii (bz b)) l -> ident_bytes l = [].
Proof.
  induction 1 as [|b l Hb _ IH]; [done|]. unfold ident_bytes. rewrite filter_cons_False; [done|].
  intros H. by apply Hb, isIdentChar_ascii.
Qed.

Lemma IsSpace_not_ident r : IsSpace r = true -> isIdentChar r = false.
Proof.
  unfold IsSpace. rewrite orb_true_iff, andb_true_iff, one_of_true, !elem_of_cons, elem_of_nil.
  intros H. unfold isIdentChar.
  repeat match goal with |- context [if ?g then _ else _] => destruct g eqn:? end; lia.
Qed.

(** What a decoding step consumes has no identifier byte, if its rune is a space. *)
Lemma space_no_ident l r n :
  l <> [] -> decode_rune l = (r, n) -> IsSpace r = true -> ident_bytes (take n l) = [].
Proof.
  intros Hl Hd Hs. destruct l as [|b t]; [done|].
  destruct (decode_rune_spec b t) as [[_ E]|(r' & n' & E & _ & _ & HF)]; rewrite Hd in E; injection E as -> ->.
  - cbn [take]. unfold ident_bytes. rewrite filter_cons_False; [by rewrite take_0|]. by rewrite IsSpace_not_ident.
  - by apply ident_bytes_plain.
Qed.

Lemma trim_left_ident fuel l : ident_bytes (trim_left fuel l) = ident_bytes l.
Proof.
  revert l. induction fuel as [|fuel IH]; intros [|b t]; try done. cbn [trim_left].
  destruct (decode_rune (b :: t)) as [r n] eqn:E. destruct (IsSpace r) eqn:Hs; [|done].
  rewrite IH. rewrite <- (take_drop n (b :: t)) at 2. rewrite ident_bytes_app.
  by rewrite (space_no_ident _ r n) by done.
Qed.

Lemma decode_last_space l r n :
  decode_last_rune l = (r, n) -> IsSpace r = true -> ident_bytes (drop (length l - n) l) = [].
Proof.
  unfold decode_last_rune. intros Hd Hs. destruct (last_start 4 (rev l) 0) as [k|]; [|by injection Hd as <- <-].
  destruct (decode_rune (drop (length l - k) l)) as [r' size] eqn:E.
  case_decide as Hk; injection Hd as <- <-; [|done]. subst k.
  destruct (drop (length l - size) l) as [|b t] eqn:Ed; [done|].
  pose proof (space_no_ident (b :: t) r' size ltac:(done) E Hs) as H. rewrite take_ge in H; [done|].
  rewrite <- Ed, length_drop. lia.
Qed.

Lemma trim_right_ident fuel l : ident_bytes (trim_right fuel l) = ident_bytes l.
Proof.
  revert l. induction fuel as [|fuel IH]; intros [|b t]; try done. cbn [trim_right].
  destruct (decode_last_rune (b :: t)) as [r n] eqn:E. destruct (IsSpace r) eqn:Hs; [|done].
  rewrite IH. rewrite <- (take_drop (length (b :: t) - n) (b :: t)) at 3. rewrite ident_bytes_app.
  rewrite (decode_last_space _ r n E Hs). by rewrite app_nil_r.
Qed.

Lemma TrimSpace_ident s : ident_bytes (str_bytes (TrimSpace s)) = ident_bytes (str_bytes s).
Proof. unfold TrimSpace. by rewrite str_bytes_str, trim_right_ident, trim_left_ident. Qed.

(** The identifier runes of a string are its identifier bytes. *)
Lemma ident_runes s :
  zb <$> filter (fun c => isIdentChar c = true) (runes s : list Z) = ident_bytes (str_bytes s).
Proof.
  assert (forall l : list Z, filter (fun c => isIdentChar c = true) l =
                             filter (fun c => isIdentChar c = true) (filter ascii l)) as Hf.
  { intros l. rewrite list_filter_filter. apply list_filter_iff. intros c.
    split; [|by intros []]. intros H. split; [done|by apply isIdentChar_ascii]. }
  rewrite Hf, runes_ascii_filter, <- Hf. unfold ident_bytes. induction (str_bytes s) as [|b l IH]; [done|].
  cbn [fmap list_fmap]. destruct (isIdentChar (bz b)) eqn:Hb.
  - rewrite !filter_cons_True by done. cbn [fmap list_fmap]. by rewrite IH, zb_bz.
  - rewrite !filter_cons_False by (by rewrite Hb). done.
Qed.

Lemma keep_loop cs b :
  foldl (fun b c => if isIdentChar c then b ++ [zb c] else b) b cs =
  b ++ (zb <$> filter (fun c => isIdentChar c = true) (cs : list Z)).
Proof.
  revert b. induction cs as [|c cs IH]; intros b; cbn [foldl]; [by rewrite app_nil_r|]. rewrite IH.
  destruct (isIdentChar c) eqn:E.
  - rewrite filter_cons_True by done. cbn. by rewrite <- app_assoc.
  - by rewrite filter_cons_False by (by rewrite E).
Qed.

Lemma Sanitize_bytes key : str_bytes (SanitizeFieldKey key) = ident_bytes (str_bytes key).
Proof.
  unfold SanitizeFieldKey. by rewrite str_bytes_str, keep_loop, ident_runes, TrimSpace_ident.
Qed.
End Sanitize.

(** Sanitized keys. [SanitizeFieldKey] keeps exactly the identifier bytes of
    the key, in order, wherever they are; the result always passes
    [validateIdentifier] and is no longer than the key. A key is left alone
    exactly when [validateIdentifier] accepts it, so sanitizing twice is
    sanitizing once; and a key without identifier characters becomes empty. *)
Theorem SanitizeFieldKey_identifier name key :
  str_bytes (SanitizeFieldKey key) = ident_bytes (str_bytes key) /\
  validateIdentifier name (SanitizeFieldKey key) = Ret tt /\
  slen (SanitizeFieldKey key) <= slen key /\
  (SanitizeFieldKey key = key <-> validateIdentifier name key = Ret tt) /\
  SanitizeFieldKey (SanitizeFieldKey key) = SanitizeFieldKey key.
Proof.
  assert (forall k, Forall (fun b => isIdentChar (bz b) = true) (str_bytes k) -> SanitizeFieldKey k = k) as Hfix.
  { intros k Hk. rewrite <- (bytes_str_bytes (SanitizeFieldKey k)), Sanitize_bytes.
    unfold ident_bytes. rewrite filter_all by done. apply bytes_str_bytes. }
  assert (Forall (fun b => isIdentChar (bz b) = true) (str_bytes (SanitizeFieldKey key))) as HF.
  { rewrite Sanitize_bytes. apply Forall_forall. intros b Hb. by apply list_elem_of_filter in Hb as [Hb _]. }
  split_and!; [apply Sanitize_bytes|by apply validateIdentifier_Ret| | |by apply Hfix].
  - unfold slen. rewrite <- !length_str_bytes, Sanitize_bytes. unfold ident_bytes.
    apply inj_le, length_filter.
  - rewrite validateIdentifier_Ret. split; [|by apply Hfix]. intros E. by rewrite <- E.
Qed.
