(* ===== verification/Errors.v ===== *)
(** * The error system ([engine/errors/types.go], [engine/errors/logging.go])

    Error codes, [GrimlockError] with its wrapping, matching, HTTP status and
    wire form, the constructors, and the structured logger. Texts are rendered.
    The clock and the call stack the constructors read are section variables;
    an error is a value, so the [With...] methods return the changed error;
    [ErrorsHeap] has the pointers. *)

From S2P Require Import Prelude GoStd.
From stdpp Require Import pretty.
#[local] Open Scope Z_scope.

(** ** Codes *)

Definition ErrCodeVaultLocked : Z := 1001.
Definition ErrCodeVaultNotInitialized : Z := 1002.
Definition ErrCodeAuthInvalid : Z := 1003.
Definition ErrCodeAuthTimeout : Z := 1004.
Definition ErrCodeAuthLockdown : Z := 1005.
Definition ErrCodeAuthSetupFailed : Z := 1006.
Definition ErrCodeAuthTokenExpired : Z := 1007.
Definition ErrCodeStorageIO : Z := 2001.
Definition ErrCodeStorageCorruption : Z := 2002.
Definition ErrCodeStorageNotFound : Z := 2003.
Definition ErrCodeStorageQuota : Z := 2004.
Definition ErrCodeStorageIndexFailed : Z := 2005.
Definition ErrCodeStorageNonceFailed : Z := 2006.
Definition ErrCodeCryptoKeyDerivation : Z := 3001.
Definition ErrCodeCryptoEncryption : Z := 3002.
Definition ErrCodeCryptoDecryption : Z := 3003.
Definition ErrCodeCryptoInvalidKey : Z := 3004.
Definition ErrCodeCryptoEntropyFailed : Z := 3005.
Definition ErrCodeCryptoHandleUnknown : Z := 3006.
Definition ErrCodeSecurityMemlock : Z := 4001.
Definition ErrCodeSecurityLockdown : Z := 4002.
Definition ErrCodeSecurityIntegrity : Z := 4003.
Definition ErrCodeSecurityUnauthorized : Z := 4004.
Definition ErrCodeSecurityMVKMissing : Z := 4005.
Definition ErrCodeBusShutdown : Z := 5001.
Definition ErrCodeBusTimeout : Z := 5002.
Definition ErrCodeBusGated : Z := 5003.
Definition ErrCodeBusTTL : Z := 5004.
Definition ErrCodeBusModuleDuplicate : Z := 5005.
Definition ErrCodeBusNilHandler : Z := 5006.
Definition ErrCodeProtocolInvalid : Z := 6001.
Definition ErrCodeProtocolTimeout : Z := 6002.
Definition ErrCodeProtocolUnhandled : Z := 6003.
Definition ErrCodeProtocolAuth : Z := 6004.

(** ** Data *)

(** The [any] values the engine formats with ["%v"]. *)
Inductive any : Type :=
| VInt (z : Z)
| VStr (s : string)
| VStrs (l : list string).

(** ["%v"]; a string slice prints as [[a b]]. *)
Definition Sprintf_v (v : any) : string :=
  match v with
  | VInt z => pretty z
  | VStr s => s
  | VStrs l => "[" +:+ String.concat " " l +:+ "]"
  end.

Record StackFrame := mkStackFrame {
  File : string;
  Line : Z;
  Function : string
}.
Definition StackFrame_String (f : StackFrame) : string :=
  File f +:+ ":" +:+ pretty (Line f) +:+ " in " +:+ Function f.

Definition maxStackFrames : nat := 20.

(** The loop over [frames.Next()], which returns a frame and whether there are
    more, the zero frame when there is none. *)
Fixpoint next_loop (frames : list StackFrame) : list StackFrame :=
  match frames with
  | [] => [mkStackFrame EmptyString 0 EmptyString]
  | [frame] => [frame]
  | frame :: frames => frame :: next_loop frames
  end.

(** [runtime.Callers(skip, pcs)] with room for so many, and the frames
    [runtime.CallersFrames] makes of them. *)
Definition CaptureStacktrace {Pc} (Callers : Z -> nat -> list Pc) (CallersFrames : list Pc -> list StackFrame)
    (skip : Z) : list StackFrame :=
  match Callers (skip + 2) maxStackFrames with
  | [] => []
  | pcs => next_loop (CallersFrames pcs)
  end.

Lemma next_loop_spec frames : frames <> [] -> next_loop frames = frames.
Proof. induction frames as [|f [|f' fs] IH]; [done..|]. intros _. cbn [next_loop] in *. by rewrite IH. Qed.

(** A nil [Details] map is [None]. *)
Record ErrorContext := mkContext {
  BlockID : string;
  Operation : string;
  Details : option (gmap string string)
}.

(** The values of Go's [error] interface: an error without [Unwrap], one that
    wraps another with ["%w"], and a [GrimlockError]. *)
Inductive error : Type :=
| Plain (text : string)
| WrapError (text : string) (inner : error)
| Grim (e : GrimlockError)
with GrimlockError : Type :=
| mkError (Code : Z) (Message : string) (Ctx : ErrorContext) (Stack : list StackFrame)
    (Cause : option error) (Timestamp : Z) (ModuleID EventType : string).

Definition Code (e : GrimlockError) := let 'mkError c _ _ _ _ _ _ _ := e in c.
Definition Message (e : GrimlockError) := let 'mkError _ m _ _ _ _ _ _ := e in m.
Definition Ctx (e : GrimlockError) := let 'mkError _ _ x _ _ _ _ _ := e in x.
Definition Stack (e : GrimlockError) := let 'mkError _ _ _ s _ _ _ _ := e in s.
Definition Cause (e : GrimlockError) := let 'mkError _ _ _ _ c _ _ _ := e in c.
Definition Timestamp (e : GrimlockError) := let 'mkError _ _ _ _ _ t _ _ := e in t.
Definition ModuleID (e : GrimlockError) := let 'mkError _ _ _ _ _ _ m _ := e in m.
Definition EventType (e : GrimlockError) := let 'mkError _ _ _ _ _ _ _ t := e in t.

(** ** Methods *)

(** [err.Error()] for every error. *)
Fixpoint error_Error (err : error) : string :=
  match err with
  | Plain text => text
  | WrapError text _ => text
  | Grim (mkError code message _ _ cause _ _ _) =>
      match cause with
      | Some c => "[" +:+ pretty code +:+ "] " +:+ message +:+ ": " +:+ error_Error c
      | None => "[" +:+ pretty code +:+ "] " +:+ message
      end
  end.

Definition Unwrap (err : error) : option error :=
  match err with
  | Plain _ => None
  | WrapError _ inner => Some inner
  | Grim e => Cause e
  end.

Definition GrimlockError_Is (e : GrimlockError) (target : error) : bool :=
  match target with
  | Grim t => Code e =? Code t
  | _ => false
  end.

(** [errors.Is(err, target)] for a [GrimlockError] target: it walks the chain
    of [Unwrap] and asks the [Is] method of each link that has one. *)
Fixpoint errors_Is (err : error) (target : GrimlockError) : bool :=
  match err with
  | Plain _ => false
  | WrapError _ inner => errors_Is inner target
  | Grim (mkError code message ctx stack cause ts m t) =>
      GrimlockError_Is (mkError code message ctx stack cause ts m t) (Grim target)
      || match cause with
         | Some c => errors_Is c target
         | None => false
         end
  end.

Definition HTTPStatus (e : GrimlockError) : Z :=
  if Code e =? ErrCodeVaultLocked then 423
  else if Code e =? ErrCodeVaultNotInitialized then 404
  else if (Code e =? ErrCodeAuthInvalid) || (Code e =? ErrCodeAuthTokenExpired) then 401
  else if Code e =? ErrCodeAuthLockdown then 429
  else if Code e =? ErrCodeStorageNotFound then 404
  else if (Code e =? ErrCodeStorageCorruption) || (Code e =? ErrCodeCryptoDecryption) then 422
  else if (Code e =? ErrCodeSecurityUnauthorized) || (Code e =? ErrCodeSecurityLockdown) then 403
  else if Code e =? ErrCodeProtocolInvalid then 400
  else if (Code e =? ErrCodeBusTimeout) || (Code e =? ErrCodeProtocolTimeout) then 504
  else 500.

(** The local struct of [MarshalJSON]; [json.Marshal] is an argument. *)
Record wire := mkWire {
  w_Code : Z;
  w_Message : string;
  w_Ctx : ErrorContext;
  w_Stack : list StackFrame;
  w_Timestamp : Z;
  w_ModuleID : string;
  w_EventType : string
}.

Definition to_wire (e : GrimlockError) : wire := {|
  w_Code := Code e; w_Message := Message e; w_Ctx := Ctx e; w_Stack := Stack e;
  w_Timestamp := Timestamp e; w_ModuleID := ModuleID e; w_EventType := EventType e |}.

Definition MarshalJSON {A} (json_Marshal : wire -> A) (e : GrimlockError) : A :=
  json_Marshal (to_wire e).

(** [s[:n]] after the length check. *)
Definition safePrefix (s : string) (n : nat) : string :=
  if decide (String.length s <= n)%nat then s else String.substring 0 n s +:+ "...".

(** ** Constructors *)

Section Constructors.
(** [time.Now().UnixNano()] and the frames [CaptureStacktrace(2)] returns. *)
Context (now : Z) (stacktrace : list StackFrame).

Definition newError (code : Z) (msg : string) (cause : option error) (ctx : ErrorContext)
    (captureStack : bool) : GrimlockError :=
  let stack := if captureStack then stacktrace else [] in
  mkError code msg ctx stack cause now EmptyString EmptyString.

Definition op_ctx (operation : string) : ErrorContext := mkContext EmptyString operation None.

Definition NewVaultLockedError : GrimlockError :=
  newError ErrCodeVaultLocked "vault is locked" None (op_ctx "vault_access") false.

Definition NewAuthInvalidError (operation : string) (cause : option error) : GrimlockError :=
  newError ErrCodeAuthInvalid "authentication failed" cause (op_ctx operation) true.

Definition NewAuthLockdownError (attemptsRemaining : Z) : GrimlockError :=
  newError ErrCodeAuthLockdown "vault locked out after too many failed attempts" None
    (mkContext EmptyString "auth_lockdown"
       (Some {[ "remaining_attempts"%string := pretty attemptsRemaining ]})) false.

Definition NewVaultNotInitializedError : GrimlockError :=
  newError ErrCodeVaultNotInitialized "vault not initialized — run setup first" None
    (op_ctx "vault_init_check") false.

Definition NewStorageIOError (operation blockID : string) (cause : option error) : GrimlockError :=
  newError ErrCodeStorageIO "storage I/O failure" cause (mkContext blockID operation None) true.

Definition NewStorageCorruptionError (operation blockID : string)
    (details : option (gmap string string)) : GrimlockError :=
  newError ErrCodeStorageCorruption "storage data corruption detected" None
    (mkContext blockID operation details) true.

Definition NewStorageNotFoundError (blockID : string) : GrimlockError :=
  newError ErrCodeStorageNotFound ("block not found: " +:+ blockID) None
    (mkContext blockID "block_lookup" None) false.

Definition NewStorageIndexError (operation : string) (cause : option error) : GrimlockError :=
  newError ErrCodeStorageIndexFailed "vault index operation failed" cause (op_ctx operation) true.

Definition NewCryptoDecryptionError (blockID : string) (cause : option error) : GrimlockError :=
  newError ErrCodeCryptoDecryption "decryption failed — wrong key or data tampered" cause
    (mkContext blockID "chacha20poly1305_open" None) true.

Definition NewCryptoEncryptionError (operation : string) (cause : option error) : GrimlockError :=
  newError ErrCodeCryptoEncryption "encryption failed" cause (op_ctx operation) true.

Definition NewCryptoKeyDerivationError (operation : string) (cause : option error) : GrimlockError :=
  newError ErrCodeCryptoKeyDerivation "key derivation failed" cause (op_ctx operation) true.

Definition NewCryptoInvalidKeyError (got : Z) : GrimlockError :=
  newError ErrCodeCryptoInvalidKey
    ("invalid key length: got " +:+ pretty got +:+ " bytes, need 32") None
    (mkContext EmptyString "key_validation" (Some {[ "got_bytes"%string := pretty got ]})) true.

Definition NewCryptoHandleUnknownError (handle : string) : GrimlockError :=
  newError ErrCodeCryptoHandleUnknown "key handle not found" None
    (mkContext EmptyString "key_resolve"
       (Some {[ "handle_prefix"%string := safePrefix handle 8 ]})) false.

Definition NewSecurityMemlockError (cause : option error) : GrimlockError :=
  newError ErrCodeSecurityMemlock "cannot lock memory — key material may be swappable" cause
    (op_ctx "memlock_alloc") true.

Definition NewSecurityLockdownError (reason : string) (details : option (gmap string string))
    : GrimlockError :=
  newError ErrCodeSecurityLockdown "hard lockdown triggered — all key material zeroed" None
    (mkContext EmptyString "hard_lockdown" details) true.

Definition NewSecurityMVKMissingError (operation : string) : GrimlockError :=
  newError ErrCodeSecurityMVKMissing "master vault key not available — vault locked?" None
    (op_ctx operation) false.

Definition NewBusTimeoutError (eventType : string) : GrimlockError :=
  newError ErrCodeBusTimeout "event request timed out" None
    (mkContext EmptyString "bus_request" (Some {[ "event_type"%string := eventType ]})) false.

Definition NewBusShutdownError : GrimlockError :=
  newError ErrCodeBusShutdown "bus is shutting down" None (op_ctx "bus_dispatch") false.

Definition NewBusGatedError (eventType channel : string) : GrimlockError :=
  newError ErrCodeBusGated "event dropped: vault not unlocked" None
    (mkContext EmptyString "gate_check"
       (Some {[ "event_type"%string := eventType; "channel"%string := channel ]})) false.

Definition NewProtocolError (operation : string) (cause : option error) : GrimlockError :=
  newError ErrCodeProtocolInvalid "protocol error — invalid message format" cause
    (op_ctx operation) true.

(** [Wrap]; the nil error stays nil. *)
Definition Wrap (code : Z) (msg : string) (err : option error) : option GrimlockError :=
  match err with
  | None => None
  | Some (Grim ge) => Some ge
  | Some err => Some (newError code msg (Some err) (mkContext EmptyString EmptyString None) true)
  end.
End Constructors.

Definition Sentinel (code : Z) (msg : string) : GrimlockError :=
  mkError code msg (mkContext EmptyString EmptyString None) [] None 0 EmptyString EmptyString.

Definition WithDetails (e : GrimlockError) (key : string) (value : any) : GrimlockError :=
  let 'mkError c m ctx s cause ts md ev := e in
  let details := default ∅ (Details ctx) in
  mkError c m (mkContext (BlockID ctx) (Operation ctx) (Some (<[key := Sprintf_v value]> details)))
    s cause ts md ev.

Definition WithModule (e : GrimlockError) (moduleID : string) : GrimlockError :=
  let 'mkError c m ctx s cause ts _ ev := e in mkError c m ctx s cause ts moduleID ev.

Definition WithEvent (e : GrimlockError) (eventType : string) : GrimlockError :=
  let 'mkError c m ctx s cause ts md _ := e in mkError c m ctx s cause ts md eventType.

(** ** Logging ([logging.go]) *)

Definition LevelInfo : Z := 0.
Definition LevelWarn : Z := 1.
Definition LevelError : Z := 2.
Definition LevelCritical : Z := 3.
Definition LevelSecurity : Z := 4.

Definition levelLabel (level : Z) : string :=
  if level =? LevelInfo then "INFO"
  else if level =? LevelWarn then "WARN"
  else if level =? LevelError then "ERROR"
  else if level =? LevelCritical then "CRITICAL"
  else if level =? LevelSecurity then "SECURITY"
  else "ERROR".

Definition ErrorRemediation : gmap Z string := list_to_map
  [(ErrCodeVaultLocked, "Unlock the vault first (send AUTH.UNLOCK)");
   (ErrCodeVaultNotInitialized, "Run vault setup (send VAULT.INIT)");
   (ErrCodeAuthInvalid, "Check your password and try again");
   (ErrCodeAuthLockdown, "Too many failed attempts — wait for lockout to expire");
   (ErrCodeStorageIO, "Check vault file permissions and available disk space");
   (ErrCodeStorageCorruption, "Vault data may be corrupted — check HMAC and backup");
   (ErrCodeStorageNotFound, "Block does not exist — it may have been deleted");
   (ErrCodeStorageIndexFailed, "Index persist failed — check disk space and permissions");
   (ErrCodeCryptoDecryption, "Decryption failed — wrong key or tampered data");
   (ErrCodeCryptoInvalidKey, "Key material is nil or wrong length (need 32 bytes)");
   (ErrCodeSecurityMemlock, "Cannot lock memory — check OS limits (ulimit -l)");
   (ErrCodeSecurityLockdown, "Hard lockdown — restart daemon and re-enter password");
   (ErrCodeSecurityMVKMissing, "Vault is locked — unlock before this operation");
   (ErrCodeBusTimeout, "Request timed out — daemon may be overloaded");
   (ErrCodeProtocolInvalid, "Binary frame is malformed — check client version")]%string.

Definition Remediation (e : GrimlockError) : string :=
  match ErrorRemediation !! Code e with
  | Some hint => hint
  | None => "Check daemon logs for details"
  end.

(** A newline in a Go string. *)
Definition nl : string := String (Ascii.ascii_of_nat 10) EmptyString.

Section Logging.
(** The order in which a loop over a map visits it. *)
Context (iter_str : gmap string string -> list (string * string)).
Context (iter_any : gmap string any -> list (string * any)).

Definition when (b : bool) (s : string) : string := if b then s else EmptyString.

Definition ConsoleFormat (e : GrimlockError) : string :=
  "[Code " +:+ pretty (Code e) +:+ "] " +:+ Message e
  +:+ when (bool_decide (Operation (Ctx e) <> EmptyString))
        (nl +:+ "        Operation:   " +:+ Operation (Ctx e))
  +:+ when (bool_decide (BlockID (Ctx e) <> EmptyString))
        (nl +:+ "        BlockID:     " +:+ BlockID (Ctx e))
  +:+ match Cause e with
      | Some c => nl +:+ "        Cause:       " +:+ error_Error c
      | None => EmptyString
      end
  +:+ String.concat EmptyString
        ((fun '(k, v) => nl +:+ "        " +:+ k +:+ ": " +:+ v)
           <$> iter_str (default ∅ (Details (Ctx e))))
  +:+ nl +:+ "        Remediation: " +:+ Remediation e.

(** The call [Log] makes to its logger: message, cause and fields. *)
Definition Log_fields (e : GrimlockError) : gmap string any :=
  let fields : gmap string any :=
    <["operation" := VStr (Operation (Ctx e))]>
      (<["module" := VStr (ModuleID e)]> {[ "error_code"%string := VInt (Code e) ]}) in
  let fields :=
    if bool_decide (BlockID (Ctx e) <> EmptyString)
    then <["block_id" := VStr (BlockID (Ctx e))]> fields else fields in
  let fields :=
    foldl (fun fields '(k, v) => <["detail_" +:+ k := VStr v]> fields) fields
      (iter_str (default ∅ (Details (Ctx e)))) in
  let fields :=
    if bool_decide (EventType e <> EmptyString)
    then <["event_type" := VStr (EventType e)]> fields else fields in
  if 0 <? len (Stack e)
  then <["stacktrace" := VStrs (StackFrame_String <$> Stack e)]> fields else fields.

Definition GrimlockError_Log {A} (Error : string -> option error -> gmap string any -> A)
    (e : GrimlockError) : A := Error (Message e) (Cause e) (Log_fields e).

Record StdLogger := mkStdLogger {
  Prefix : string;
  DebugEnabled : bool
}.

Definition StdLogger_format (l : StdLogger) (level msg : string) (fields : gmap string any)
    : string :=
  when (bool_decide (Prefix l <> EmptyString)) (Prefix l +:+ " ")
  +:+ "[" +:+ level +:+ "] " +:+ msg
  +:+ String.concat EmptyString
        ((fun '(k, v) => " " +:+ k +:+ "=" +:+ Sprintf_v v) <$> iter_any fields).

(** Each method returns the lines it prints; a nil map has no fields. *)
Definition StdLogger_Debug (l : StdLogger) (msg : string) (fields : option (gmap string any))
    : list string :=
  if negb (DebugEnabled l) then [] else [StdLogger_format l "DEBUG" msg (default ∅ fields)].

Definition StdLogger_Info (l : StdLogger) (msg : string) (fields : option (gmap string any))
    : list string := [StdLogger_format l "INFO" msg (default ∅ fields)].

Definition StdLogger_Warn (l : StdLogger) (msg : string) (fields : option (gmap string any))
    : list string := [StdLogger_format l "WARN" msg (default ∅ fields)].

(** [Error] and [Fatal] write into the caller's map, which they return. *)
Definition StdLogger_Error (l : StdLogger) (msg : string) (err : option error)
    (fields : option (gmap string any)) : list string * option (gmap string any) :=
  let fields :=
    match err with
    | None => fields
    | Some (Grim ge) =>
        Some (<["grimlock_error" := VStr (ConsoleFormat ge)]> (default ∅ fields))
    | Some err => Some (<["error" := VStr (error_Error err)]> (default ∅ fields))
    end in
  ([StdLogger_format l "ERROR" msg (default ∅ fields)], fields).

(** After its line [log.Fatal] ends the process. *)
Definition StdLogger_Fatal (l : StdLogger) (msg : string) (err : option error)
    (fields : option (gmap string any)) : list string :=
  let fields :=
    match err with
    | None => fields
    | Some err => Some (<["error" := VStr (error_Error err)]> (default ∅ fields))
    end in
  [StdLogger_format l "FATAL" msg (default ∅ fields)].

(** The interface [StdLogger] implements; [Error] also returns the caller's map. *)
Class StructuredLogger (L : Type) := {
  sl_Debug : L -> string -> option (gmap string any) -> list string;
  sl_Info : L -> string -> option (gmap string any) -> list string;
  sl_Warn : L -> string -> option (gmap string any) -> list string;
  sl_Error : L -> string -> option error -> option (gmap string any) -> list string * option (gmap string any);
  sl_Fatal : L -> string -> option error -> option (gmap string any) -> list string
}.

#[export] Instance StdLogger_StructuredLogger : StructuredLogger StdLogger := {|
  sl_Debug := StdLogger_Debug;
  sl_Info := StdLogger_Info;
  sl_Warn := StdLogger_Warn;
  sl_Error := StdLogger_Error;
  sl_Fatal := StdLogger_Fatal
|}.
End Logging.

Definition NewStdLogger (modulePrefix : string) : StdLogger := mkStdLogger modulePrefix false.
Definition NewDebugLogger (modulePrefix : string) : StdLogger := mkStdLogger modulePrefix true.

(** ** Matching and wrapping *)

(** The errors on the [Unwrap] chain of an error, itself first. *)
Fixpoint error_chain (err : error) : list error :=
  err ::
  match err with
  | Plain _ => []
  | WrapError _ inner => error_chain inner
  | Grim (mkError _ _ _ _ cause _ _ _) =>
      match cause with
      | Some c => error_chain c
      | None => []
      end
  end.

(** Induction over an error and its causes. *)
Lemma error_chain_ind (P : error -> Prop) :
  (forall t, P (Plain t)) ->
  (forall t e, P e -> P (WrapError t e)) ->
  (forall e, (forall c, Cause e = Some c -> P c) -> P (Grim e)) ->
  forall e, P e.
Proof.
  intros HP HW HG. fix IH 1. intros [t|t e|e].
  - apply HP.
  - apply HW, IH.
  - apply HG. destruct e as [? ? ? ? [c|] ? ? ?]; cbn; intros c' Hc; [|discriminate].
    injection Hc as <-. apply IH.
Qed.

Lemma errors_Is_Grim e t :
  errors_Is (Grim e) t
  = (Code e =? Code t) || match Cause e with Some c => errors_Is c t | None => false end.
Proof. by destruct e. Qed.

Lemma error_chain_Grim e :
  error_chain (Grim e) = Grim e :: match Cause e with Some c => error_chain c | None => [] end.
Proof. by destruct e. Qed.

Lemma errors_Is_elem err t :
  errors_Is err t = true <-> exists e, Grim e ∈ error_chain err /\ Code e = Code t.
Proof.
  induction err as [s|s err IH|e IH] using error_chain_ind.
  - cbn. split; [done|]. intros (e & He & _). by apply list_elem_of_singleton in He.
  - cbn [errors_Is error_chain]. rewrite IH. set_solver.
  - rewrite errors_Is_Grim, error_chain_Grim, orb_true_iff, Z.eqb_eq.
    destruct (Cause e) as [c|] eqn:Hc; [rewrite (IH c eq_refl)|]; split.
    + intros [E|(e' & H & E)]; [exists e|exists e']; set_solver.
    + intros (e' & [[= <-]|H]%elem_of_cons & E); [by left|right]. by exists e'.
    + intros [E|E]; [exists e; set_solver|done].
    + intros (e' & [[= <-]|H]%elem_of_cons & E); [by left|set_solver].
Qed.

Lemma Wrap_cases now frames code msg err :
  (exists ge, err = Grim ge /\ Wrap now frames code msg (Some err) = Some ge) \/
  ((forall ge, err <> Grim ge) /\
   exists w, Wrap now frames code msg (Some err) = Some w /\ Code w = code /\
             Cause w = Some err /\ Message w = msg).
Proof.
  destruct err as [t|t e|ge]; [right|right|by left; exists ge].
  all: split; [done|]; eexists; split; [reflexivity|done].
Qed.

(** C39. Wrapping never hides an error and never relabels one: [errors.Is] finds
    a code in [Wrap code msg err] exactly when some [GrimlockError] on the
    chain of [err] carries it, or [err] itself is not a [GrimlockError] and it
    is the code given to [Wrap]. *)
Theorem Wrap_matching now frames code msg err target :
  exists w, Wrap now frames code msg (Some err) = Some w /\
    (errors_Is (Grim w) target = true <->
     (exists e, Grim e ∈ error_chain err /\ Code e = Code target) \/
     (forall ge, err <> Grim ge) /\ code = Code target).
Proof.
  destruct (Wrap_cases now frames code msg err)
    as [(ge & -> & Hw) | (Hne & w & Hw & Hc & Hcause & _)].
  - exists ge. split; [done|]. rewrite errors_Is_elem. split; [by left|].
    intros [H|[H _]]; [done|by destruct (H ge)].
  - exists w. split; [done|].
    rewrite errors_Is_Grim, Hcause, Hc, orb_true_iff, Z.eqb_eq, errors_Is_elem. naive_solver.
Qed.

(** ** What an error reveals of a key handle *)

Lemma safePrefix_eq h1 h2 n :
  safePrefix h1 n = safePrefix h2 n <->
  h1 = h2 \/ (n < String.length h1)%nat /\ (n < String.length h2)%nat /\
             String.substring 0 n h1 = String.substring 0 n h2.
Proof.
  unfold safePrefix.
  repeat case_decide; split; try naive_solver lia.
  - intros E. apply (f_equal String.length) in E.
    rewrite length_app_string, length_substring in E by lia. cbn in E. lia.
  - intros E. apply (f_equal String.length) in E.
    rewrite length_app_string, length_substring in E by lia. cbn in E. lia.
  - intros E. right. split_and!; [lia|lia|]. apply app_string_inj in E; [done|].
    by rewrite !length_substring by lia.
  - by intros [-> | (_ & _ & ->)].
Qed.

(** An unknown-handle error reveals at most eight characters of the handle:
    the errors for two handles are the same value exactly when the handles are
    equal, or both are longer than eight bytes and share the first eight. *)
Theorem handle_error_reveals_prefix now frames h1 h2 :
  NewCryptoHandleUnknownError now frames h1 = NewCryptoHandleUnknownError now frames h2 <->
  h1 = h2 \/ (8 < String.length h1)%nat /\ (8 < String.length h2)%nat /\
             String.substring 0 8 h1 = String.substring 0 8 h2.
Proof.
  rewrite <- (safePrefix_eq h1 h2 8). unfold NewCryptoHandleUnknownError, newError. split.
  - intros E. apply (f_equal (fun e => default ∅ (Details (Ctx e)) !! "handle_prefix"%string)) in E.
    cbn [Ctx Details default from_option id] in E. rewrite !lookup_singleton_eq in E. by injection E.
  - by intros ->.
Qed.
