(* ===== verification/ErrorsHeap.v ===== *)
(** * Errors as pointers ([engine/errors/types.go])

    [Errors] takes an error for a value. In the code a [*GrimlockError] is a
    pointer, and the details in its context are a Go map: [WithDetails],
    [WithModule] and [WithEvent] write into the object they are called on,
    [Wrap] hands the same pointer back, and two errors made from one map of
    details go on sharing it. Here errors and maps live in a heap, and a
    reference denotes the value of [Errors] that its reader sees. *)

From S2P Require Import Prelude GoStd Errors.

(** ** Heap *)

(** An [error] interface: a pointer, or an error of another package, which
    keeps its text and the error it wraps. *)
Inductive eref :=
| RPlain (text : string)
| RWrap (text : string) (inner : eref)
| RGrim (l : nat).

Record obj := mkObj {
  o_Code : Z;
  o_Message : string;
  o_BlockID : string;
  o_Operation : string;
  o_Details : option nat;     (* a map of the heap, or nil *)
  o_Stack : list StackFrame;
  o_Cause : option eref;
  o_Timestamp : Z;
  o_ModuleID : string;
  o_EventType : string
}.

Record eheap := mkHeap {
  h_errs : gmap nat obj;
  h_maps : gmap nat (gmap string string)
}.

Definition alloc_map (m : gmap string string) (h : eheap) : nat * eheap :=
  let l := fresh (dom (h_maps h)) in (l, mkHeap (h_errs h) (<[l := m]> (h_maps h))).
Definition alloc_err (o : obj) (h : eheap) : nat * eheap :=
  let l := fresh (dom (h_errs h)) in (l, mkHeap (<[l := o]> (h_errs h)) (h_maps h)).

Definition set_details (d : option nat) (o : obj) : obj :=
  mkObj (o_Code o) (o_Message o) (o_BlockID o) (o_Operation o) d (o_Stack o) (o_Cause o) (o_Timestamp o)
    (o_ModuleID o) (o_EventType o).
Definition set_module (s : string) (o : obj) : obj :=
  mkObj (o_Code o) (o_Message o) (o_BlockID o) (o_Operation o) (o_Details o) (o_Stack o) (o_Cause o)
    (o_Timestamp o) s (o_EventType o).
Definition set_event (s : string) (o : obj) : obj :=
  mkObj (o_Code o) (o_Message o) (o_BlockID o) (o_Operation o) (o_Details o) (o_Stack o) (o_Cause o)
    (o_Timestamp o) (o_ModuleID o) s.

(** ** Operations *)

Section Operations.
Context (now : Z) (stacktrace : list StackFrame).

Definition ref_newError (code : Z) (msg : string) (cause : option eref) (block operation : string)
    (details : option nat) (captureStack : bool) (h : eheap) : nat * eheap :=
  let stack := if captureStack then stacktrace else [] in
  alloc_err (mkObj code msg block operation details stack cause now EmptyString EmptyString) h.

(** The two constructors that keep a map of their caller. *)
Definition ref_NewStorageCorruptionError (operation blockID : string) (details : option nat) (h : eheap) : nat * eheap :=
  ref_newError ErrCodeStorageCorruption "storage data corruption detected" None blockID operation details true h.
Definition ref_NewSecurityLockdownError (reason : string) (details : option nat) (h : eheap) : nat * eheap :=
  ref_newError ErrCodeSecurityLockdown "hard lockdown triggered — all key material zeroed" None EmptyString
    "hard_lockdown" details true h.

Definition ref_Wrap (code : Z) (msg : string) (err : option eref) (h : eheap) : option nat * eheap :=
  match err with
  | None => (None, h)
  | Some (RGrim ge) => (Some ge, h)
  | Some err =>
      let '(l, h) := ref_newError code msg (Some err) EmptyString EmptyString None true h in (Some l, h)
  end.
End Operations.

Definition ref_Sentinel (code : Z) (msg : string) (h : eheap) : nat * eheap :=
  alloc_err (mkObj code msg EmptyString EmptyString None [] None 0 EmptyString EmptyString) h.

Definition ref_WithDetails (l : nat) (key : string) (value : any) (h : eheap) : eheap :=
  match h_errs h !! l with
  | None => h
  | Some o =>
      let '(m, h) :=
        match o_Details o with
        | Some m => (m, h)
        | None =>
            let '(m, h) := alloc_map ∅ h in
            (m, mkHeap (<[l := set_details (Some m) o]> (h_errs h)) (h_maps h))
        end in
      mkHeap (h_errs h) (alter (<[key := Sprintf_v value]>) m (h_maps h))
  end.
Definition ref_WithModule (l : nat) (moduleID : string) (h : eheap) : eheap :=
  mkHeap (alter (set_module moduleID) l (h_errs h)) (h_maps h).
Definition ref_WithEvent (l : nat) (eventType : string) (h : eheap) : eheap :=
  mkHeap (alter (set_event eventType) l (h_errs h)) (h_maps h).

(** A call of the chain [e.WithX(...).WithY(...)], on the heap and on values. *)
Inductive link :=
| LDetails (key : string) (value : any)
| LModule (moduleID : string)
| LEvent (eventType : string).

Definition ref_link (l : nat) (c : link) (h : eheap) : eheap :=
  match c with
  | LDetails key value => ref_WithDetails l key value h
  | LModule m => ref_WithModule l m h
  | LEvent t => ref_WithEvent l t h
  end.
Definition val_link (c : link) (e : GrimlockError) : GrimlockError :=
  match c with
  | LDetails key value => WithDetails e key value
  | LModule m => WithModule e m
  | LEvent t => WithEvent e t
  end.
(** What an error that shares the map sees of it. *)
Definition shared_link (c : link) (e : GrimlockError) : GrimlockError :=
  match c with
  | LDetails key value => WithDetails e key value
  | _ => e
  end.

Definition ref_chain (l : nat) (cs : list link) (h : eheap) : eheap := foldl (fun h c => ref_link l c h) h cs.
Definition val_chain (cs : list link) (e : GrimlockError) : GrimlockError := foldl (fun e c => val_link c e) e cs.
Definition shared_chain (cs : list link) (e : GrimlockError) : GrimlockError := foldl (fun e c => shared_link c e) e cs.

(** ** What a reference denotes *)

Definition obj_value (o : obj) (d : option (gmap string string)) (cause : option error) : GrimlockError :=
  mkError (o_Code o) (o_Message o) (mkContext (o_BlockID o) (o_Operation o) d) (o_Stack o) cause (o_Timestamp o)
    (o_ModuleID o) (o_EventType o).

(** The details an object shows; every map it names is allocated. *)
Inductive shows (h : eheap) : option nat -> option (gmap string string) -> Prop :=
| shows_nil : shows h None None
| shows_map m v : h_maps h !! m = Some v -> shows h (Some m) (Some v).

Inductive denotes (h : eheap) : eref -> error -> Prop :=
| denotes_plain t : denotes h (RPlain t) (Plain t)
| denotes_wrap t r e : denotes h r e -> denotes h (RWrap t r) (WrapError t e)
| denotes_grim l o d cause :
    h_errs h !! l = Some o -> shows h (o_Details o) d -> denotes_opt h (o_Cause o) cause ->
    denotes h (RGrim l) (Grim (obj_value o d cause))
with denotes_opt (h : eheap) : option eref -> option error -> Prop :=
| denotes_none : denotes_opt h None None
| denotes_some r e : denotes h r e -> denotes_opt h (Some r) (Some e).

Scheme denotes_mut := Minimality for denotes Sort Prop
  with denotes_opt_mut := Minimality for denotes_opt Sort Prop.

(** The objects a reference leads to, along causes and wrapped errors. *)
Inductive reaches (h : eheap) : eref -> nat -> Prop :=
| reaches_here l : reaches h (RGrim l) l
| reaches_wrap t r l : reaches h r l -> reaches h (RWrap t r) l
| reaches_cause l o r l' : h_errs h !! l = Some o -> o_Cause o = Some r -> reaches h r l' -> reaches h (RGrim l) l'.

(** Writing to [l] is seen at [l] and wherever its map of details is shared. *)
Definition touched (h : eheap) (l l' : nat) : Prop :=
  l' = l \/ exists o o' m, h_errs h !! l = Some o /\ h_errs h !! l' = Some o' /\
    o_Details o = Some m /\ o_Details o' = Some m.

(** No error behind [r] is touched; no error behind the cause of [l'] is. *)
Definition apart (h : eheap) (l : nat) (r : eref) : Prop := forall l2, reaches h r l2 -> ~ touched h l l2.
Definition cause_apart (h : eheap) (l l' : nat) : Prop :=
  forall o r, h_errs h !! l' = Some o -> o_Cause o = Some r -> apart h l r.

(** Details are maps of the heap. *)
Definition heap_ok (h : eheap) : Prop :=
  forall l o m, h_errs h !! l = Some o -> o_Details o = Some m -> is_Some (h_maps h !! m).

(** ** Denotation is local *)

Lemma shows_fun h d v1 v2 : shows h d v1 -> shows h d v2 -> v1 = v2.
Proof. intros [|m v E]; inversion 1; simplify_eq; done. Qed.

Lemma denotes_fun h r e1 e2 : denotes h r e1 -> denotes h r e2 -> e1 = e2.
Proof.
  intros H. revert r e1 H e2.
  apply (denotes_mut h (fun r e1 => forall e2, denotes h r e2 -> e1 = e2)
    (fun r e1 => forall e2, denotes_opt h r e2 -> e1 = e2)).
  - intros t e2. by inversion 1.
  - intros t r e _ IH e2. inversion 1; subst. f_equal. by apply IH.
  - intros l o d cause Ho Hd _ IH e2. inversion 1 as [| |l' o' d' cause' Ho' Hd' Hc']; subst.
    simplify_eq. by rewrite (shows_fun h _ _ _ Hd Hd'), (IH _ Hc').
  - intros e2. by inversion 1.
  - intros r e _ IH e2. inversion 1; subst. f_equal. by apply IH.
Qed.

(** Two heaps that agree on an object and on its map. *)
Definition agree_at (h h' : eheap) (l : nat) : Prop :=
  forall o, h_errs h !! l = Some o -> h_errs h' !! l = Some o /\
    forall m, o_Details o = Some m -> h_maps h' !! m = h_maps h !! m.

Lemma denotes_agree h h' r e :
  denotes h r e -> (forall l, reaches h r l -> agree_at h h' l) -> denotes h' r e.
Proof.
  revert r e. apply (denotes_mut h (fun r e => (forall l, reaches h r l -> agree_at h h' l) -> denotes h' r e)
    (fun r e => (forall r' l, r = Some r' -> reaches h r' l -> agree_at h h' l) -> denotes_opt h' r e)).
  - constructor.
  - intros t r e _ IH Ha. constructor. apply IH. intros l Hl. apply Ha. by constructor.
  - intros l o d cause Ho Hd _ IH Ha. destruct (Ha l (reaches_here h l) o Ho) as [Ho' Hm]. econstructor; [done| |].
    + destruct Hd as [|m v Hv] eqn:E; [constructor|]. constructor. by rewrite Hm.
    + apply IH. intros r' l' E Hr. apply Ha. by eapply reaches_cause.
  - constructor.
  - intros r e _ IH Ha. constructor. apply IH. intros l Hl. by eapply Ha.
Qed.

(** ** One call *)

(** A call rewrites the object it is called on, keeps its cause, and keeps its
    map of details unless it had none. *)
Lemma ref_link_objs l c h :
  exists f, h_errs (ref_link l c h) = alter f l (h_errs h) /\
    (forall o, o_Cause (f o) = o_Cause o) /\
    (forall o, h_errs h !! l = Some o -> o_Details (f o) = o_Details o \/
       o_Details o = None /\ exists m, o_Details (f o) = Some m /\ h_maps h !! m = None /\
         is_Some (h_maps (ref_link l c h) !! m)).
Proof.
  destruct c as [key value|md|t]; cbn [ref_link].
  - unfold ref_WithDetails. destruct (h_errs h !! l) as [o|] eqn:Eo.
    + destruct (o_Details o) as [m|] eqn:Ed; cbn [h_errs h_maps alloc_map].
      * exists id. split; [by rewrite alter_id|]. split; [done|]. by left.
      * exists (set_details (Some (fresh (dom (h_maps h))))). split; [|split; [done|]].
        { apply map_eq. intros l'. destruct (decide (l = l')) as [<-|].
          - by rewrite lookup_insert_eq, lookup_alter_eq, Eo.
          - by rewrite lookup_insert_ne, lookup_alter_ne. }
        intros o' [= <-]. right. split; [done|]. eexists. split; [done|].
        split; [apply not_elem_of_dom, is_fresh|]. cbn. by rewrite lookup_alter_eq, lookup_insert_eq.
    + exists id. split; [by rewrite alter_id|]. split; [done|]. by left.
  - exists (set_module md). split; [done|]. split; [done|]. by left.
  - exists (set_event t). split; [done|]. split; [done|]. by left.
Qed.

(** Which maps a call may write. *)
Lemma ref_link_maps l c h m :
  (forall o, h_errs h !! l = Some o -> o_Details o <> Some m) -> is_Some (h_maps h !! m) ->
  h_maps (ref_link l c h) !! m = h_maps h !! m.
Proof.
  intros Hne [v Hv]. destruct c as [key value|md|t]; cbn [ref_link]; [|done|done].
  unfold ref_WithDetails. destruct (h_errs h !! l) as [o|] eqn:Eo; [|done]. specialize (Hne o eq_refl).
  destruct (o_Details o) as [m'|]; cbn.
  - by rewrite lookup_alter_ne by congruence.
  - pose proof (is_fresh (dom (h_maps h))) as Hf. assert (fresh (dom (h_maps h)) <> m) as Hfm.
    { intros <-. apply Hf. by apply elem_of_dom. }
    by rewrite lookup_alter_ne, lookup_insert_ne by done.
Qed.

Lemma ref_link_dom l c h m : is_Some (h_maps h !! m) -> is_Some (h_maps (ref_link l c h) !! m).
Proof.
  intros Hm. destruct c as [key value|md|t]; cbn [ref_link]; [|done|done].
  unfold ref_WithDetails. destruct (h_errs h !! l) as [o|]; [|done].
  destruct (o_Details o); cbn; rewrite lookup_alter_is_Some; [done|].
  rewrite lookup_insert_is_Some. destruct (decide (fresh (dom (h_maps h)) = m)); [by left|by right].
Qed.

Lemma heap_ok_link l c h : heap_ok h -> heap_ok (ref_link l c h).
Proof.
  intros Hok l' o m. destruct (ref_link_objs l c h) as (f & -> & _ & Hd).
  destruct (decide (l = l')) as [<-|Hne].
  - rewrite lookup_alter_eq. destruct (h_errs h !! l) as [o0|] eqn:E; [|done]. intros [= <-] Hm.
    destruct (Hd o0 eq_refl) as [Eq|(En & m' & Em & _ & Hs)]; [|by simplify_eq].
    apply ref_link_dom. eapply Hok; [exact E|congruence].
  - rewrite lookup_alter_ne by done. intros Ho Hm. apply ref_link_dom. by eapply Hok.
Qed.

Lemma ref_link_reaches l c h r l' : reaches (ref_link l c h) r l' -> reaches h r l'.
Proof.
  destruct (ref_link_objs l c h) as (f & Hf & Hc & _).
  induction 1 as [l'|t r l' _ IH|l0 o r l' Ho Hr _ IH]; [constructor|by constructor|].
  rewrite Hf in Ho. apply lookup_alter_Some in Ho as [(<- & o0 & H0 & ->)|[_ Ho]].
  - rewrite Hc in Hr. by eapply reaches_cause.
  - by eapply reaches_cause.
Qed.

(** Sharing does not change: a new map is nobody else's. *)
Lemma ref_link_touched l c h l' : heap_ok h -> touched (ref_link l c h) l l' <-> touched h l l'.
Proof.
  intros Hok. destruct (decide (l' = l)) as [->|Hne]; [by split; left|].
  destruct (ref_link_objs l c h) as (f & Hf & _ & Hd). unfold touched. rewrite Hf.
  rewrite lookup_alter_eq, lookup_alter_ne by done.
  split; (intros [->|(o & o' & m & Ho & Ho' & Hm & Hm')]; [done|right]).
  - apply fmap_Some in Ho as (o0 & E0 & ->). exists o0, o', m. split_and!; [done|done| |done].
    destruct (Hd o0 E0) as [<-|(_ & m' & Em & Hf' & _)]; [done|]. simplify_eq.
    destruct (Hok _ _ _ Ho' Hm') as [v Hv]. congruence.
  - exists (f o), o', m. rewrite Ho. split_and!; [done|done| |done].
    destruct (Hd o Ho) as [->|(En & _)]; [done|congruence].
Qed.

Lemma ref_link_apart l c h r : heap_ok h -> apart h l r -> apart (ref_link l c h) l r.
Proof. intros Hok Ha l2 Hr%ref_link_reaches Ht%ref_link_touched; [by eapply Ha|done]. Qed.

Lemma ref_link_cause_apart l c h l' : heap_ok h -> cause_apart h l l' -> cause_apart (ref_link l c h) l l'.
Proof.
  intros Hok Ha o r Ho Hr. apply ref_link_apart; [done|]. destruct (ref_link_objs l c h) as (f & Hf & Hc & _).
  rewrite Hf in Ho. apply lookup_alter_Some in Ho as [(<- & o0 & H0 & ->)|[_ Ho]]; [|by eapply Ha].
  rewrite Hc in Hr. by eapply Ha.
Qed.

(** What is not touched is left alone. *)
Lemma ref_link_agree l c h l' : heap_ok h -> ~ touched h l l' -> agree_at h (ref_link l c h) l'.
Proof.
  intros Hok Ht o Ho. assert (l' <> l) as Hne by (intros ->; apply Ht; by left). split.
  - destruct (ref_link_objs l c h) as (f & -> & _). by rewrite lookup_alter_ne.
  - intros m Hm. apply ref_link_maps; [|by eapply Hok]. intros o0 H0 E. apply Ht. right. by exists o0, o, m.
Qed.

Lemma ref_link_denotes l c h r e : heap_ok h -> denotes h r e -> apart h l r -> denotes (ref_link l c h) r e.
Proof. intros Hok Hd Ha. eapply denotes_agree; [done|]. intros l' Hl. by apply ref_link_agree, Ha. Qed.

Lemma ref_link_cause l c h l' o cause :
  heap_ok h -> h_errs h !! l' = Some o -> cause_apart h l l' -> denotes_opt h (o_Cause o) cause ->
  denotes_opt (ref_link l c h) (o_Cause o) cause.
Proof.
  intros Hok Ho Ha Hd. specialize (Ha o). destruct (o_Cause o) as [r|]; inversion Hd as [|r' e Hr]; subst; constructor.
  apply ref_link_denotes; [done|done|]. by apply Ha.
Qed.

(** What is touched changes as the functions on values say. *)
Lemma WithDetails_at l key value h l' o d cause :
  h_errs h !! l' = Some o -> shows h (o_Details o) d -> touched h l l' ->
  exists o2 d2, h_errs (ref_WithDetails l key value h) !! l' = Some o2 /\
    shows (ref_WithDetails l key value h) (o_Details o2) d2 /\ o_Cause o2 = o_Cause o /\
    obj_value o2 d2 cause = WithDetails (obj_value o d cause) key value.
Proof.
  intros Ho Hd Ht.
  assert (h_errs h !! l = Some o /\ l' = l /\ o_Details o = None \/
    exists o0 m, h_errs h !! l = Some o0 /\ o_Details o0 = Some m /\ o_Details o = Some m)
    as [(E & -> & En)|(o0 & m & E & E0 & Em)].
  { destruct Ht as [->|(o0 & o' & m & E & Eo & E0 & Em)]; simplify_eq; [|right; by exists o0, m].
    destruct (o_Details o) as [m|] eqn:Em; [right; by exists o, m|by left]. }
  - unfold ref_WithDetails. rewrite E, En. rewrite En in Hd. inversion Hd; subst d.
    eexists _, (Some (<[key := Sprintf_v value]> ∅)). cbn. rewrite lookup_insert_eq. split; [done|].
    split; [|done]. constructor. cbn. by rewrite lookup_alter_eq, lookup_insert_eq.
  - unfold ref_WithDetails. rewrite E, E0. rewrite Em in Hd. inversion Hd as [|m' v Hv]; subst.
    exists o, (Some (<[key := Sprintf_v value]> v)). cbn. split; [done|]. split; [|done].
    rewrite Em. constructor. cbn. by rewrite lookup_alter_eq, Hv.
Qed.

Lemma ref_link_at l c h l' o d cause :
  h_errs h !! l' = Some o -> shows h (o_Details o) d -> touched h l l' ->
  exists o2 d2, h_errs (ref_link l c h) !! l' = Some o2 /\ shows (ref_link l c h) (o_Details o2) d2 /\
    o_Cause o2 = o_Cause o /\
    obj_value o2 d2 cause = (if decide (l' = l) then val_link else shared_link) c (obj_value o d cause).
Proof.
  intros Ho Hd Ht. destruct c as [key value|md|t]; cbn [ref_link val_link shared_link].
  - destruct (WithDetails_at l key value h l' o d cause Ho Hd Ht) as (o2 & d2 & H1 & H2 & H3 & H4).
    exists o2, d2. rewrite H4. by case_decide.
  - case_decide as E; [subst l'; exists (set_module md o), d|exists o, d]; cbn.
    + rewrite lookup_alter_eq, Ho. split_and!; [done|by destruct Hd; constructor|done|done].
    + rewrite lookup_alter_ne by done. split_and!; [done|by destruct Hd; constructor|done|done].
  - case_decide as E; [subst l'; exists (set_event t o), d|exists o, d]; cbn.
    + rewrite lookup_alter_eq, Ho. split_and!; [done|by destruct Hd; constructor|done|done].
    + rewrite lookup_alter_ne by done. split_and!; [done|by destruct Hd; constructor|done|done].
Qed.

Lemma ref_link_grim l c h l' e :
  heap_ok h -> touched h l l' -> cause_apart h l l' -> denotes h (RGrim l') (Grim e) ->
  denotes (ref_link l c h) (RGrim l') (Grim ((if decide (l' = l) then val_link else shared_link) c e)).
Proof.
  intros Hok Ht Ha Hd. inversion Hd as [| |l0 o d cause Ho Hs Hc]; subst.
  destruct (ref_link_at l c h l' o d cause Ho Hs Ht) as (o2 & d2 & H1 & H2 & H3 & <-).
  econstructor; [done|done|]. rewrite H3. by eapply ref_link_cause.
Qed.

(** ** Chains of calls *)

Lemma heap_ok_chain l cs h : heap_ok h -> heap_ok (ref_chain l cs h).
Proof. revert h. induction cs as [|c cs IH]; intros h Hok; [done|]. by apply IH, heap_ok_link. Qed.

Lemma ref_chain_denotes l cs h r e : heap_ok h -> denotes h r e -> apart h l r -> denotes (ref_chain l cs h) r e.
Proof.
  revert h. induction cs as [|c cs IH]; intros h Hok Hd Ha; [done|]. cbn.
  apply IH; [by apply heap_ok_link|by apply ref_link_denotes|by apply ref_link_apart].
Qed.

Lemma ref_chain_grim l cs h l' e :
  heap_ok h -> touched h l l' -> cause_apart h l l' -> denotes h (RGrim l') (Grim e) ->
  denotes (ref_chain l cs h) (RGrim l') (Grim ((if decide (l' = l) then val_chain else shared_chain) cs e)).
Proof.
  revert h e. induction cs as [|c cs IH]; intros h e Hok Ht Ha Hd; [by case_decide|].
  pose proof (ref_link_grim l c h l' e Hok Ht Ha Hd) as Hd'.
  apply IH in Hd'; [by case_decide|by apply heap_ok_link|by apply ref_link_touched|by apply ref_link_cause_apart].
Qed.

(** ** New errors *)

(** Allocation disturbs no reference that denotes something. *)
Lemma alloc_err_denotes o h r e :
  denotes h r e -> denotes (alloc_err o h).2 r e.
Proof.
  revert r e. apply (denotes_mut h (fun r e => denotes (alloc_err o h).2 r e) (fun r e => denotes_opt (alloc_err o h).2 r e)).
  1,2,4,5: by constructor.
  intros l o' d cause Ho Hd _ IH. econstructor; [|by destruct Hd; constructor|done]. cbn.
  rewrite lookup_insert_ne; [done|]. intros <-. apply (is_fresh (dom (h_errs h))). by apply elem_of_dom.
Qed.

Lemma ref_newError_denotes now stacktrace code msg cause c block operation details d capture h :
  denotes_opt h cause c -> shows h details d ->
  let '(l, h') := ref_newError now stacktrace code msg cause block operation details capture h in
  denotes h' (RGrim l) (Grim (newError now stacktrace code msg c (mkContext block operation d) capture)) /\
  (forall r e, denotes h r e -> denotes h' r e) /\ (heap_ok h -> heap_ok h').
Proof.
  intros Hc Hd. cbn. set (o := mkObj _ _ _ _ _ _ _ _ _ _). split_and!.
  - apply (denotes_grim _ _ o d c); [cbn; by rewrite lookup_insert_eq|by destruct Hd; constructor|].
    destruct Hc; constructor. by apply (alloc_err_denotes o h).
  - intros r e. apply (alloc_err_denotes o h).
  - intros Hok l' o' m. cbn. rewrite lookup_insert_Some. intros [[_ <-]|[_ Ho]] Hm; [|by eapply Hok].
    cbn in Hm. subst details. inversion Hd. by eexists.
Qed.

(** ** Theorems *)

(** C34. Annotating an error writes where it lives. After any chain of
    [WithDetails], [WithModule] and [WithEvent] on a pointer, that pointer
    shows the error as the chain on values would return it; every other error
    made from the same map of details shows the added details too, but neither
    module nor event; and whatever leads to none of these, through causes or
    wrapping, shows what it showed. *)
Theorem chaining_mutates l cs h :
  heap_ok h ->
  (forall e, denotes h (RGrim l) (Grim e) -> cause_apart h l l ->
     denotes (ref_chain l cs h) (RGrim l) (Grim (val_chain cs e))) /\
  (forall l' e, l' <> l -> touched h l l' -> denotes h (RGrim l') (Grim e) -> cause_apart h l l' ->
     denotes (ref_chain l cs h) (RGrim l') (Grim (shared_chain cs e))) /\
  (forall r e, denotes h r e -> apart h l r -> denotes (ref_chain l cs h) r e).
Proof.
  intros Hok. split_and!.
  - intros e Hd Ha. pose proof (ref_chain_grim l cs h l e Hok (or_introl eq_refl) Ha Hd) as H.
    by rewrite decide_True in H.
  - intros l' e Hne Ht Hd Ha. pose proof (ref_chain_grim l cs h l' e Hok Ht Ha Hd) as H.
    by rewrite decide_False in H.
  - intros r e. by apply ref_chain_denotes.
Qed.

(** [Wrap] agrees with its model on values, and disturbs nothing. But of an
    error that already is a [*GrimlockError] it returns the pointer itself, so
    a chain on the result rewrites the error that was wrapped. *)
Theorem Wrap_shares now stacktrace code msg r err h :
  denotes h r err -> heap_ok h ->
  exists l e h', ref_Wrap now stacktrace code msg (Some r) h = (Some l, h') /\
    Wrap now stacktrace code msg (Some err) = Some e /\
    denotes h' (RGrim l) (Grim e) /\ (forall r' e', denotes h r' e' -> denotes h' r' e') /\
    (forall l0, r = RGrim l0 -> cause_apart h l0 l0 ->
       forall cs, denotes (ref_chain l cs h') r (Grim (val_chain cs e))).
Proof.
  intros Hd Hok.
  assert (forall l0, r = RGrim l0 -> exists ge, err = Grim ge) as Hg by (intros l0 ->; inversion Hd; by eexists).
  destruct r as [t|t r|l0].
  1,2: inversion Hd; subst; cbn [ref_Wrap];
    pose proof (ref_newError_denotes now stacktrace code msg (Some _) (Some _) EmptyString EmptyString None None true h
      (denotes_some _ _ _ Hd) (shows_nil h)) as H;
    destruct (ref_newError _ _ _ _ _ _ _ _ _ h) as [l h'] eqn:E; destruct H as (Hn & Hk & _);
    eexists _, _, h'; split_and!; [done|done|exact Hn|exact Hk|done].
  destruct (Hg l0 eq_refl) as [ge ->]. exists l0, ge, h. split_and!; [done|done|done|done|].
  intros l [= <-] Ha cs. pose proof (ref_chain_grim l0 cs h l0 ge Hok (or_introl eq_refl) Ha Hd) as H.
  by rewrite decide_True in H.
Qed.

(** ** Examples *)

(** A caller's map of details, two errors made from it, an error that wraps
    the first, and an unrelated sentinel. *)
Definition shared_heap : eheap :=
  let '(m, h) := alloc_map {[ "file"%string := "a.db"%string ]} (mkHeap ∅ ∅) in
  let '(e1, h) := ref_NewStorageCorruptionError 5 [] "read" "b1" (Some m) h in
  let '(e2, h) := ref_NewSecurityLockdownError 6 [] "tampered" (Some m) h in
  let '(e3, h) := ref_newError 7 [] 2001 "storage I/O failure" (Some (RWrap "read: x" (RGrim e1))) "b1" "read" None false h in
  (ref_Sentinel 1001 "vault locked" h).2.

Lemma shared_heap_ok : heap_ok shared_heap.
Proof.
  intros l o m Ho Hm.
  assert (map_Forall (fun _ o => match o_Details o with Some m => bool_decide (is_Some (h_maps shared_heap !! m)) | None => true end = true)
    (h_errs shared_heap)) as Hall by (apply (bool_decide_unpack _); vm_compute; exact I).
  specialize (Hall l o Ho). cbn beta in Hall. rewrite Hm in Hall. by apply bool_decide_eq_true in Hall.
Qed.

Definition caller_details : gmap string string := {[ "file"%string := "a.db"%string ]}.
Definition annotate : list link := [LDetails "offset" (VInt 7); LModule "storage"; LEvent "STORAGE.READ"].

Lemma chaining_mutates_witness :
  denotes (ref_chain 0 annotate shared_heap) (RGrim 0)
    (Grim (val_chain annotate (NewStorageCorruptionError 5 [] "read" "b1" (Some caller_details)))) /\
  denotes (ref_chain 0 annotate shared_heap) (RGrim 1)
    (Grim (WithDetails (NewSecurityLockdownError 6 [] "tampered" (Some caller_details)) "offset" (VInt 7))) /\
  denotes (ref_chain 0 annotate shared_heap) (RGrim 3) (Grim (Sentinel 1001 "vault locked")).
Proof.
  destruct (chaining_mutates 0 annotate shared_heap shared_heap_ok) as (H1 & H2 & H3).
  assert (forall l o d, h_errs shared_heap !! l = Some o -> shows shared_heap (o_Details o) d -> o_Cause o = None ->
    denotes shared_heap (RGrim l) (Grim (obj_value o d None)) /\ cause_apart shared_heap 0 l) as Hd.
  { intros l o d Ho Hs Hc. split; [econstructor; [exact Ho|exact Hs|rewrite Hc; constructor]|].
    intros o' r Ho' Hr. congruence. }
  assert (shows shared_heap (Some 0%nat) (Some caller_details)) as Hm by by constructor.
  split; [|split].
  - destruct (Hd 0%nat _ (Some caller_details) (eq_refl _) Hm (eq_refl _)) as [Hv Ha]. exact (H1 _ Hv Ha).
  - destruct (Hd 1%nat _ (Some caller_details) (eq_refl _) Hm (eq_refl _)) as [Hv Ha].
    refine (H2 1%nat _ _ _ Hv Ha); [done|]. right. by eexists _, _, 0%nat.
  - destruct (Hd 3%nat _ None (eq_refl _) (shows_nil _) (eq_refl _)) as [Hv _]. apply (H3 _ _ Hv).
    intros l2 Hr Ht. inversion Hr as [l|?|l o r l' Ho Hc]; subst; [|by vm_compute in Ho; injection Ho as <-].
    destruct Ht as [?|(o & o' & m & _ & Ho' & _ & Hm')]; [done|]. vm_compute in Ho'. by injection Ho' as <-.
Defined.
