(* ===== verification/ErrorsJson.v ===== *)
(** * The wire form of errors ([MarshalJSON] in [engine/errors/types.go])

    [json.Marshal] of the struct [MarshalJSON] builds, and a client that reads
    it back. A field of struct type is never omitted. *)

From S2P Require Import Prelude GoStd Json Errors.

(** ** Encoding *)

Definition context_json (c : ErrorContext) : json := JObj (
  opt_str "block_id" (BlockID c) ++ opt_str "operation" (Operation c)
  ++ (let m := default ∅ (Details c) in omit_if (bool_decide (m = ∅)) "details" (json_map m))).

Definition frame_json (f : StackFrame) : json :=
  JObj [("file"%string, JStr (File f)); ("line"%string, JNum (Line f)); ("function"%string, JStr (Function f))].

Definition wire_json (w : wire) : json := JObj (
  [("code"%string, JNum (w_Code w)); ("message"%string, JStr (w_Message w));
   ("context"%string, context_json (w_Ctx w))]
  ++ omit_if (bool_decide (length (w_Stack w) = 0%nat)) "stacktrace" (JArr (map frame_json (w_Stack w)))
  ++ [("timestamp"%string, JNum (w_Timestamp w))]
  ++ opt_str "module_id" (w_ModuleID w) ++ opt_str "event_type" (w_EventType w)).

Definition MarshalJSON_bytes (e : GrimlockError) : list byte :=
  MarshalJSON (fun w => print (wire_json w)) e.

(** ** The client *)

Definition context_of (v : option json) : option ErrorContext :=
  match v with
  | Some (JObj kvs) =>
      block ← as_str (get "block_id" kvs); operation ← as_str (get "operation" kvs);
      details ← as_map (get "details" kvs);
      Some (mkContext block operation (Some details))
  | _ => None
  end.

Definition frame_of (j : json) : option StackFrame :=
  match j with
  | JObj kvs =>
      file ← as_str (get "file" kvs); line ← as_num (get "line" kvs); function ← as_str (get "function" kvs);
      Some (mkStackFrame file line function)
  | _ => None
  end.

Definition wire_of (j : json) : option wire :=
  match j with
  | JObj kvs =>
      code ← as_num (get "code" kvs); message ← as_str (get "message" kvs);
      context ← context_of (get "context" kvs); stack ← as_list frame_of (get "stacktrace" kvs);
      time ← as_num (get "timestamp" kvs); module ← as_str (get "module_id" kvs);
      event ← as_str (get "event_type" kvs);
      Some (mkWire code message context stack time module event)
  | _ => None
  end.

Definition decode_error (payload : list byte) : option wire := j ← parse payload; wire_of j.

(** ** What the client sees *)

(** The wire struct, a nil map of details being the empty one. *)
Definition visible (e : GrimlockError) : wire :=
  let w := to_wire e in
  mkWire (w_Code w) (w_Message w)
    (mkContext (BlockID (w_Ctx w)) (Operation (w_Ctx w)) (Some (default ∅ (Details (w_Ctx w)))))
    (w_Stack w) (w_Timestamp w) (w_ModuleID w) (w_EventType w).

Definition valid_context (c : ErrorContext) : ErrorContext :=
  mkContext (ToValid (BlockID c)) (ToValid (Operation c)) (Some (valid_fields (default ∅ (Details c)))).
Definition valid_frame (f : StackFrame) : StackFrame := mkStackFrame (ToValid (File f)) (Line f) (ToValid (Function f)).
Definition valid_wire (w : wire) : wire :=
  mkWire (w_Code w) (ToValid (w_Message w)) (valid_context (w_Ctx w)) (map valid_frame (w_Stack w))
    (w_Timestamp w) (ToValid (w_ModuleID w)) (ToValid (w_EventType w)).

(** Every string of the error is valid UTF-8. *)
Record error_strings_valid (e : GrimlockError) : Prop := {
  ev_message : ValidString (Message e);
  ev_block : ValidString (BlockID (Ctx e));
  ev_operation : ValidString (Operation (Ctx e));
  ev_details : map_Forall (fun k v => ValidString k /\ ValidString v) (default ∅ (Details (Ctx e)));
  ev_stack : Forall (fun f => ValidString (File f) /\ ValidString (Function f)) (Stack e);
  ev_module : ValidString (ModuleID e);
  ev_event : ValidString (EventType e)
}.

(** ** Lemmas *)

Lemma context_of_json c : context_of (Some (norm (context_json c))) = Some (valid_context c).
Proof.
  unfold context_json, opt_str. cbn [norm context_of]. read_fields.
  rewrite !as_str_opt, as_map_sorted. done.
Qed.

Lemma frame_of_json f : frame_of (norm (frame_json f)) = Some (valid_frame f).
Proof. unfold frame_json. cbn [norm frame_of]. read_fields. done. Qed.

Lemma frames_of_json fs :
  as_list frame_of (if bool_decide (length fs = 0%nat) then None else Some (norm (JArr (map frame_json fs)))) =
  Some (map valid_frame fs).
Proof. exact (as_list_opt frame_of frame_json valid_frame fs frame_of_json). Qed.

Lemma wire_of_json w : wire_of (norm (wire_json w)) = Some (valid_wire w).
Proof.
  unfold wire_json, opt_str. cbn [norm wire_of]. read_fields.
  rewrite context_of_json. cbn [mbind option_bind as_str as_num]. rewrite frames_of_json, !as_str_opt. done.
Qed.

Lemma valid_wire_id e : error_strings_valid e -> valid_wire (visible e) = visible e.
Proof.
  intros [Hm Hb Ho Hd Hs Hmod Hev]. unfold valid_wire, visible, valid_context. destruct e as [c m x s k t mo et].
  cbn in *. rewrite Hm, Hb, Ho, Hmod, Hev, valid_fields_id by done. f_equal.
  induction Hs as [|f fs [Hf Hfn] _ IH]; [done|]. cbn. rewrite IH. f_equal.
  unfold valid_frame. rewrite Hf, Hfn. by destruct f.
Qed.

Lemma MarshalJSON_visible e : MarshalJSON_bytes e = print (wire_json (visible e)).
Proof. by destruct e as [c m x s k t mo et]. Qed.

Lemma decode_MarshalJSON e : decode_error (MarshalJSON_bytes e) = Some (valid_wire (visible e)).
Proof. rewrite MarshalJSON_visible. unfold decode_error. rewrite parse_print. apply wire_of_json. Qed.

(** ** Theorem *)

(** C40. What an error reveals on the wire. A client reads back the code, the
    message, the context, the timestamp, the module, the event type and the
    whole stack trace, file names included; and of two errors whose strings
    are valid UTF-8 the wire forms are equal exactly when all of these are,
    so the chain of causes is the one thing that is never sent. *)
Theorem MarshalJSON_reveals e e' :
  error_strings_valid e -> error_strings_valid e' ->
  decode_error (MarshalJSON_bytes e) = Some (visible e) /\
  (MarshalJSON_bytes e = MarshalJSON_bytes e' <-> visible e = visible e').
Proof.
  intros He He'. pose proof (decode_MarshalJSON e) as D. pose proof (decode_MarshalJSON e') as D'.
  rewrite valid_wire_id in D, D' by done. split; [done|]. split; intros E.
  - rewrite E in D. congruence.
  - by rewrite !MarshalJSON_visible, E.
Qed.

Definition leaky_error (cause : option error) : GrimlockError :=
  mkError ErrCodeStorageIO "read failed" (mkContext "b1" "read_block" None)
    [mkStackFrame "/home/dev/engine/store.go" 42 "ReadBlock"] cause 7 EmptyString EmptyString.

Lemma MarshalJSON_reveals_witness :
  MarshalJSON_bytes (leaky_error None) = MarshalJSON_bytes (leaky_error (Some (Plain "disk"))) /\
  option_map w_Stack (decode_error (MarshalJSON_bytes (leaky_error None))) =
    Some [mkStackFrame "/home/dev/engine/store.go" 42 "ReadBlock"].
Proof.
  assert (forall c, error_strings_valid (leaky_error c)) as Hv.
  { intros c. by split; cbn; apply (bool_decide_unpack _); vm_compute. }
  destruct (MarshalJSON_reveals (leaky_error None) (leaky_error (Some (Plain "disk"))) (Hv _) (Hv _)) as [H1 H2].
  split; [by apply H2|]. by rewrite H1.
Defined.
