(* ===== verification/Lockdown.v ===== *)
(** * Progressive lockdown ([engine/security/lockdown.go])

    The manager as a record, one function per method, and traces of method
    calls. The mutex makes a method atomic, so a trace is a list of calls; a
    method that reads the clock takes the reading as its argument. The
    [OnHard] callback is an effect of a call, which records whether the
    mutex is held while the callback runs. *)

From S2P Require Import Prelude GoStd Errors.

Inductive LockdownState := LockdownNone | LockdownSoft | LockdownHard.
#[global] Instance LockdownState_eq_dec : EqDecision LockdownState.
Proof. solve_decision. Defined.

Record lockdownManager := mkLockdown {
  failures : Z;
  threshold : Z;
  overridesLeft : Z;
  maxOverrides : Z;
  lockdownUntil : Z;
  lockdownMinutes : Z;
  state : LockdownState;
  onHard : bool
}.

Record LockdownConfig := mkConfig {
  Threshold : Z;
  MaxOverrides : Z;
  LockdownMinutes : Z;
  OnHard : bool
}.

(** A run of the callback. *)
Inductive effect := HardCallback (mutex_held : bool).

Definition NewLockdownManager (cfg : LockdownConfig) : lockdownManager :=
  let th := if Threshold cfg <=? 0 then 3 else Threshold cfg in
  let mo := if MaxOverrides cfg <=? 0 then 4 else MaxOverrides cfg in
  let lm := if LockdownMinutes cfg <=? 0 then 200 else LockdownMinutes cfg in
  {| failures := 0; threshold := th; overridesLeft := mo; maxOverrides := mo;
     lockdownUntil := time_zero; lockdownMinutes := lm; state := LockdownNone;
     onHard := OnHard cfg |}.

Definition set_state (s : LockdownState) (m : lockdownManager) : lockdownManager :=
  mkLockdown (failures m) (threshold m) (overridesLeft m) (maxOverrides m) (lockdownUntil m)
    (lockdownMinutes m) s (onHard m).

Definition run_onHard (held : bool) (m : lockdownManager) : list effect :=
  if onHard m then [HardCallback held] else [].

Section Methods.
(** The clock and stack an error value is stamped with. *)
Context (stamp : Z) (frames : list StackFrame).

Definition RecordFailure (now : Z) (m : lockdownManager)
    : lockdownManager * list effect * (LockdownState * GrimlockError) :=
  match state m with
  | LockdownHard => (m, [], (LockdownHard, NewAuthLockdownError stamp frames 0))
  | LockdownSoft =>
      let left := i64 (overridesLeft m - 1) in
      let m := mkLockdown (failures m) (threshold m) left (maxOverrides m) (lockdownUntil m)
                 (lockdownMinutes m) (state m) (onHard m) in
      if left <=? 0
      then (set_state LockdownHard m, run_onHard true m,
            (LockdownHard, NewAuthLockdownError stamp frames 0))
      else (m, [], (LockdownSoft, NewAuthLockdownError stamp frames left))
  | LockdownNone =>
      let f := i64 (failures m + 1) in
      let m := mkLockdown f (threshold m) (overridesLeft m) (maxOverrides m) (lockdownUntil m)
                 (lockdownMinutes m) (state m) (onHard m) in
      if threshold m <=? f
      then (mkLockdown f (threshold m) (overridesLeft m) (maxOverrides m)
              (time_Add now (duration_mul (lockdownMinutes m) Minute)) (lockdownMinutes m)
              LockdownSoft (onHard m), [],
            (LockdownSoft, NewAuthLockdownError stamp frames 0))
      else (m, [],
            (LockdownNone,
             WithDetails (NewAuthInvalidError stamp frames "credentials" None)
               "attempts_remaining" (VInt (i64 (threshold m - f)))))
  end.
End Methods.

Definition RecordSuccess (m : lockdownManager) : lockdownManager :=
  mkLockdown 0 (threshold m) (maxOverrides m) (maxOverrides m) time_zero (lockdownMinutes m)
    LockdownNone (onHard m).

Definition State (now : Z) (m : lockdownManager) : lockdownManager * LockdownState :=
  let m :=
    if bool_decide (state m = LockdownSoft) && time_After now (lockdownUntil m)
    then mkLockdown 0 (threshold m) (maxOverrides m) (maxOverrides m) (lockdownUntil m)
           (lockdownMinutes m) LockdownNone (onHard m)
    else m in
  (m, state m).

Definition RemainingAttempts (m : lockdownManager) : Z :=
  match state m with
  | LockdownSoft => overridesLeft m
  | LockdownHard => 0
  | LockdownNone => i64 (threshold m - failures m)
  end.

Definition LockdownUntil (m : lockdownManager) : Z := lockdownUntil m.

Definition TriggerHard (m : lockdownManager) : lockdownManager * list effect :=
  (set_state LockdownHard m, run_onHard false m).

(** ** Traces of calls *)

Inductive call :=
| CRecordFailure (stamp : Z) (frames : list StackFrame) (now : Z)
| CRecordSuccess
| CState (now : Z)
| CRemainingAttempts
| CLockdownUntil
| CTriggerHard.

Definition do_call (c : call) (m : lockdownManager) : lockdownManager * list effect :=
  match c with
  | CRecordFailure stamp frames now => (RecordFailure stamp frames now m).1
  | CRecordSuccess => (RecordSuccess m, [])
  | CState now => ((State now m).1, [])
  | CRemainingAttempts | CLockdownUntil => (m, [])
  | CTriggerHard => TriggerHard m
  end.

Fixpoint run (cs : list call) (m : lockdownManager) : lockdownManager * list effect :=
  match cs with
  | [] => (m, [])
  | c :: cs =>
      let '(m, out) := do_call c m in
      let '(m, out') := run cs m in
      (m, out ++ out')
  end.

(** A failed attempt at each of the given times. *)
Definition fail_at (times : list Z) : list call := (fun t => CRecordFailure t [] t) <$> times.

(** ** The invariant *)

(** The thresholds are positive Go [int]s, the counters match the state. *)
Record lockdown_ok (m : lockdownManager) : Prop := {
  lo_threshold : 1 <= threshold m < 2 ^ 63;
  lo_overrides : 1 <= maxOverrides m < 2 ^ 63;
  lo_minutes : 1 <= lockdownMinutes m;
  lo_state :
    match state m with
    | LockdownNone => 0 <= failures m < threshold m /\ overridesLeft m = maxOverrides m
    | LockdownSoft => failures m = threshold m /\ 1 <= overridesLeft m <= maxOverrides m
    | LockdownHard => True
    end
}.

(** A configuration whose fields are Go [int]s. *)
Definition config_int (cfg : LockdownConfig) : Prop :=
  Threshold cfg < 2 ^ 63 /\ MaxOverrides cfg < 2 ^ 63.

Lemma NewLockdownManager_ok cfg : config_int cfg -> lockdown_ok (NewLockdownManager cfg).
Proof.
  intros [H1 H2]. unfold NewLockdownManager.
  destruct (Z.leb_spec (Threshold cfg) 0), (Z.leb_spec (MaxOverrides cfg) 0),
    (Z.leb_spec (LockdownMinutes cfg) 0); split; cbn; lia.
Qed.

(** The three ways an attempt can fail, with the integers in range. *)
Lemma RecordFailure_none stamp frames now m :
  lockdown_ok m -> state m = LockdownNone ->
  let m' := (RecordFailure stamp frames now m).1.1 in
  (RecordFailure stamp frames now m).1.2 = [] /\
  threshold m' = threshold m /\ maxOverrides m' = maxOverrides m /\
  overridesLeft m' = maxOverrides m /\ failures m' = failures m + 1 /\
  lockdownMinutes m' = lockdownMinutes m /\ onHard m' = onHard m /\
  state m' = if decide (failures m + 1 < threshold m) then LockdownNone else LockdownSoft.
Proof.
  intros [Ht Ho Hm Hs] E. rewrite E in Hs. unfold RecordFailure. rewrite E.
  rewrite i64_small by lia. cbv zeta. cbn [threshold overridesLeft failures].
  destruct (Z.leb_spec (threshold m) (failures m + 1)); cbn;
    [rewrite decide_False by lia|rewrite decide_True by lia]; split_and!; done || lia || tauto.
Qed.

Lemma RecordFailure_soft stamp frames now m :
  lockdown_ok m -> state m = LockdownSoft ->
  let m' := (RecordFailure stamp frames now m).1.1 in
  threshold m' = threshold m /\ maxOverrides m' = maxOverrides m /\
  overridesLeft m' = overridesLeft m - 1 /\ failures m' = failures m /\
  lockdownMinutes m' = lockdownMinutes m /\ onHard m' = onHard m /\
  if decide (1 < overridesLeft m)
  then state m' = LockdownSoft /\ (RecordFailure stamp frames now m).1.2 = []
  else state m' = LockdownHard /\ (RecordFailure stamp frames now m).1.2 = run_onHard true m.
Proof.
  intros [Ht Ho Hm Hs] E. rewrite E in Hs. unfold RecordFailure. rewrite E.
  rewrite i64_small by lia. cbv zeta. cbn [threshold overridesLeft failures].
  destruct (Z.leb_spec (overridesLeft m - 1) 0); cbn;
    [rewrite decide_False by lia|rewrite decide_True by lia]; split_and!; done || lia || tauto.
Qed.

Lemma RecordFailure_hard stamp frames now m :
  state m = LockdownHard -> (RecordFailure stamp frames now m).1 = (m, []).
Proof. intros E. unfold RecordFailure. by rewrite E. Qed.

Lemma do_call_ok c m : lockdown_ok m -> lockdown_ok (do_call c m).1.
Proof.
  intros Hok. pose proof Hok as [Ht Ho Hm Hs]. destruct c as [stamp frames now| |now| | |].
  - cbn [do_call]. destruct (state m) eqn:E.
    + destruct (RecordFailure_none stamp frames now m Hok E) as (_ & ? & ? & ? & ? & ? & ? & Es).
      split; rewrite ?Es; try lia. case_decide; lia.
    + destruct (RecordFailure_soft stamp frames now m Hok E) as (? & ? & ? & ? & ? & ? & Es).
      split; try lia. case_decide; destruct Es as [-> _]; [lia|done].
    + by rewrite RecordFailure_hard.
  - split; cbn; lia.
  - cbn [do_call fst]. unfold State.
    destruct (bool_decide _ && _); cbn [fst]; [split; cbn; lia|done].
  - done.
  - done.
  - by split.
Qed.

Lemma run_ok cs m : lockdown_ok m -> lockdown_ok (run cs m).1.
Proof.
  revert m. induction cs as [|c cs IH]; intros m Hok; [done|]. cbn.
  pose proof (do_call_ok c m Hok) as H1. destruct (do_call c m) as [m1 out].
  specialize (IH m1 H1). by destruct (run cs m1).
Qed.

Lemma run_app cs1 cs2 m :
  run (cs1 ++ cs2) m =
  let '(m1, out1) := run cs1 m in let '(m2, out2) := run cs2 m1 in (m2, out1 ++ out2).
Proof.
  revert m. induction cs1 as [|c cs1 IH]; intros m; cbn; [by destruct (run cs2 m)|].
  destruct (do_call c m) as [m1 out]. rewrite IH.
  destruct (run cs1 m1) as [m2 out1], (run cs2 m2). by rewrite app_assoc.
Qed.

(** ** Counting failures *)

(** Failures recorded in the current phase, and in total towards hard lockdown. *)
Definition strikes (m : lockdownManager) : Z :=
  match state m with
  | LockdownNone => failures m
  | LockdownSoft => threshold m + (maxOverrides m - overridesLeft m)
  | LockdownHard => threshold m + maxOverrides m
  end.

(** The phase a number of strikes puts the manager in. *)
Definition phase (m : lockdownManager) (n : Z) : LockdownState :=
  if decide (n < threshold m) then LockdownNone
  else if decide (n < threshold m + maxOverrides m) then LockdownSoft
  else LockdownHard.

Lemma state_phase m : lockdown_ok m -> state m = phase m (strikes m).
Proof.
  intros [Ht Ho Hm Hs]. unfold phase, strikes. destruct (state m).
  - rewrite decide_True; [done|lia].
  - rewrite decide_False, decide_True by lia. done.
  - rewrite !decide_False by lia. done.
Qed.

(** One failed attempt is one strike, whatever the time; the callback runs
    when the strikes reach the budget. *)
Lemma RecordFailure_strike stamp frames now m :
  lockdown_ok m ->
  let budget := threshold m + maxOverrides m in
  let '(m', out) := (RecordFailure stamp frames now m).1 in
  threshold m' = threshold m /\ maxOverrides m' = maxOverrides m /\ onHard m' = onHard m /\
  strikes m' = Z.min budget (strikes m + 1) /\
  out = if decide (strikes m + 1 = budget) then run_onHard true m else [].
Proof.
  intros Hok budget. pose proof Hok as [Ht Ho Hm Hs]. destruct (state m) eqn:E.
  - pose proof (RecordFailure_none stamp frames now m Hok E) as H.
    destruct ((RecordFailure stamp frames now m).1) as [m' out]; cbn in H.
    destruct H as (-> & Et & Eo & Eol & Ef & _ & Eh & Es).
    unfold strikes, budget. rewrite E, Es, Et, Eo, Eol, Ef.
    split_and!; try done; [|by rewrite decide_False by lia].
    case_decide; lia.
  - pose proof (RecordFailure_soft stamp frames now m Hok E) as H.
    destruct ((RecordFailure stamp frames now m).1) as [m' out]; cbn in H.
    destruct H as (Et & Eo & Eol & Ef & _ & Eh & Es).
    unfold strikes, budget. rewrite E, Et, Eo, Eol.
    case_decide as Hd; destruct Es as [-> ->]; split_and!; try done; try lia.
    + by rewrite decide_False by lia.
    + by rewrite decide_True by lia.
  - rewrite (RecordFailure_hard _ _ _ _ E). unfold strikes, budget. rewrite E.
    split_and!; try done; [lia|]. by rewrite decide_False by lia.
Qed.

Lemma run_failures times m :
  lockdown_ok m ->
  let budget := threshold m + maxOverrides m in
  let '(m', out) := run (fail_at times) m in
  lockdown_ok m' /\ threshold m' = threshold m /\ maxOverrides m' = maxOverrides m /\
  onHard m' = onHard m /\ strikes m' = Z.min budget (strikes m + len times) /\
  out = if decide (strikes m < budget <= strikes m + len times) then run_onHard true m else [].
Proof.
  revert m. induction times as [|t times IH]; intros m Hok budget.
  { cbn. unfold len. cbn. pose proof Hok as [Ht Ho Hm Hs].
    assert (strikes m <= budget) by (unfold strikes, budget; destruct (state m); lia).
    split_and!; try done; [lia|]. by rewrite decide_False by lia. }
  cbn [fail_at fmap list_fmap run do_call]. fold (fail_at times).
  pose proof (RecordFailure_strike t [] t m Hok) as Hst.
  pose proof (do_call_ok (CRecordFailure t [] t) m Hok) as Hok'. cbn [do_call] in Hok'.
  destruct ((RecordFailure t [] t m).1) as [m1 o1]. cbn [fst] in Hok'.
  destruct Hst as (Et & Eo & Eh & Es & ->).
  specialize (IH m1 Hok'). cbv zeta in IH. destruct (run (fail_at times) m1) as [m2 o2].
  destruct IH as (? & ? & ? & ? & Es2 & ->).
  pose proof Hok as [Ht Ho Hm Hs].
  assert (strikes m <= budget) by (unfold strikes, budget; destruct (state m); lia).
  assert (len (t :: times) = len times + 1) as -> by (unfold len; cbn; lia).
  rewrite Et, Eo in *. fold budget in Es, Es2 |- *.
  pose proof (len_nonneg times) as Hl.
  split_and!; try congruence; [lia|].
  assert (run_onHard true m1 = run_onHard true m) as -> by (unfold run_onHard; by rewrite Eh).
  repeat case_decide; rewrite ?app_nil_r; try done; lia.
Qed.

Lemma strikes_new cfg : config_int cfg -> strikes (NewLockdownManager cfg) = 0.
Proof. done. Qed.

(** C30. The attempt budget. From a new manager, [n] failed attempts, at any
    times, leave it open below [threshold], soft-locked below
    [threshold + maxOverrides] and hard-locked from there on; the callback
    runs exactly once, with the mutex held, when the budget is used up. The
    soft-lock timer plays no part, since only [State] looks at it: failures
    after the lock's minutes are over, which the package comment calls the end of
    the soft lock, still use up overrides and lead to hard lockdown
    ([expired_lock_still_counts]). *)
Theorem lockdown_after_failures cfg times :
  config_int cfg ->
  let m := NewLockdownManager cfg in
  let '(m', out) := run (fail_at times) m in
  state m' = phase m (len times) /\
  out = if decide (threshold m + maxOverrides m <= len times) then run_onHard true m else [].
Proof.
  intros Hc m. pose proof (NewLockdownManager_ok cfg Hc) as Hok. fold m in Hok.
  pose proof (run_failures times m Hok) as H. cbv zeta in H.
  destruct (run (fail_at times) m) as [m' out].
  destruct H as (Hok' & Et & Eo & _ & Es & ->). pose proof Hok as [Ht Ho _ _].
  pose proof (strikes_new cfg Hc) as E0. fold m in E0. pose proof (len_nonneg times) as Hl. split.
  - rewrite state_phase, Es, E0 by done. unfold phase. rewrite Et, Eo.
    repeat case_decide; done || lia.
  - repeat case_decide; done || lia.
Qed.

Lemma lockdown_after_failures_witness :
  state (run (fail_at [10; 20; 30; 40; 50; 60; 70]) (NewLockdownManager (mkConfig 0 0 0 true))).1
  = LockdownHard.
Proof.
  pose proof (lockdown_after_failures (mkConfig 0 0 0 true) [10; 20; 30; 40; 50; 60; 70]) as H.
  cbv zeta in H. destruct (run _ _) as [m' out]. cbn [fst].
  destruct H as [-> _]; [by split|]. by vm_compute.
Defined.

(** What the end of the soft lock's minutes does. A call of [State] after it
    reopens the manager with a full budget and runs no callback; a failure after
    it, with no such call before, is one more override, and the last one
    locks hard. *)
Theorem expired_lock_still_counts stamp frames now m :
  lockdown_ok m -> state m = LockdownSoft -> time_After now (lockdownUntil m) = true ->
  state (State now m).1 = LockdownNone /\ strikes (State now m).1 = 0 /\
  let '(m', out) := (RecordFailure stamp frames now m).1 in
  strikes m' = strikes m + 1 /\
  state m' = (if decide (overridesLeft m = 1) then LockdownHard else LockdownSoft) /\
  out = (if decide (overridesLeft m = 1) then run_onHard true m else []).
Proof.
  intros Hok Hs Ha. unfold State. rewrite Ha, Hs. rewrite bool_decide_true by done.
  split; [done|]. split; [done|].
  pose proof Hok as [Ht Ho _ Hl]. rewrite Hs in Hl. unfold RecordFailure. rewrite Hs, i64_small by lia.
  destruct (Z.leb_spec (overridesLeft m - 1) 0); cbn; unfold strikes; rewrite Hs;
    case_decide; split_and!; try done; cbn; lia.
Qed.

(** The default manager, soft-locked at time 10 and asked 300 minutes later. *)
Lemma expired_lock_still_counts_witness :
  let m := (run (fail_at [0; 5; 10]) (NewLockdownManager (mkConfig 0 0 0 true))).1 in
  state (State (300 * Minute) m).1 = LockdownNone /\
  state (RecordFailure 0 [] (300 * Minute) m).1.1 = LockdownSoft.
Proof.
  intros m. assert (lockdown_ok m) as Hok by (apply run_ok, NewLockdownManager_ok; by split).
  destruct (expired_lock_still_counts 0 [] (300 * Minute) m Hok) as (H1 & _ & H2); [by vm_compute..|].
  split; [exact H1|]. destruct ((RecordFailure 0 [] (300 * Minute) m).1) as [m' out].
  destruct H2 as (_ & H2 & _). cbn [fst]. rewrite H2. by vm_compute.
Defined.

(** The number of further failures that leave the state as it is. *)
Lemma RemainingAttempts_strikes m :
  lockdown_ok m -> state m <> LockdownHard ->
  RemainingAttempts m =
  (if decide (state m = LockdownNone) then threshold m else threshold m + maxOverrides m)
  - strikes m.
Proof.
  intros [Ht Ho _ Hs] Hh. unfold RemainingAttempts, strikes. destruct (state m); try done.
  - rewrite i64_small by lia. done.
  - rewrite decide_False by done. lia.
Qed.

(** [RemainingAttempts] is exact. In every state the manager can reach
    short of hard lockdown it is positive, and it is the number of further
    failures, counted without an intervening success or expiry, at which the
    state changes: fewer leave the state alone, that many move it on. *)
Theorem RemainingAttempts_exact cfg cs times :
  config_int cfg ->
  let m := (run cs (NewLockdownManager cfg)).1 in
  state m <> LockdownHard ->
  1 <= RemainingAttempts m /\
  (state (run (fail_at times) m).1 = state m <-> len times < RemainingAttempts m).
Proof.
  intros Hc m Hh. pose proof (run_ok cs _ (NewLockdownManager_ok cfg Hc)) as Hok. fold m in Hok.
  rewrite (RemainingAttempts_strikes m Hok Hh).
  pose proof (run_failures times m Hok) as H. cbv zeta in H.
  destruct (run (fail_at times) m) as [m' out]. cbn [fst].
  destruct H as (Hok' & Et & Eo & _ & Es & _). pose proof Hok as [Ht Ho _ Hs].
  pose proof (state_phase m Hok) as Em. rewrite (state_phase m' Hok'), Es.
  pose proof (len_nonneg times) as Hl.
  assert (strikes m <= threshold m + maxOverrides m) by (unfold strikes; destruct (state m); lia).
  unfold phase in *. rewrite Et, Eo.
  repeat case_decide; (split; [|split; intros]); try congruence; lia.
Qed.

Lemma RemainingAttempts_exact_witness :
  RemainingAttempts (run (fail_at [1; 2; 3; 4]) (NewLockdownManager (mkConfig 3 4 5 false))).1 = 3
  /\ 1 <= 3.
Proof.
  split; [by vm_compute|].
  apply (RemainingAttempts_exact (mkConfig 3 4 5 false) (fail_at [1; 2; 3; 4]) []);
    [by split|by vm_compute].
Defined.

Lemma do_call_hard c m :
  state m = LockdownHard -> c <> CRecordSuccess -> state (do_call c m).1 = LockdownHard.
Proof.
  intros E Hc. destruct c as [stamp frames now| |now| | |]; cbn [do_call]; try done.
  - by rewrite RecordFailure_hard.
  - unfold State. by rewrite E.
Qed.

(** Hard lockdown is left by a recorded success and by nothing else: not by
    time, not by reading the state and not by further failures. *)
Theorem hard_left_only_by_success cs m :
  state m = LockdownHard ->
  state (run cs m).1 <> LockdownHard -> CRecordSuccess ∈ cs.
Proof.
  revert m. induction cs as [|c cs IH]; intros m E Hne; [done|].
  assert (c = CRecordSuccess \/ c <> CRecordSuccess) as [->|Hc]
    by (destruct c; by (left + right)); [by left|right].
  pose proof (do_call_hard c m E Hc) as E1. cbn in Hne.
  destruct (do_call c m) as [m1 out]. apply (IH m1 E1). by destruct (run cs m1).
Qed.

Lemma hard_left_only_by_success_witness :
  CRecordSuccess ∈ [CState 5; CRecordSuccess; CRemainingAttempts].
Proof.
  apply (hard_left_only_by_success _ (TriggerHard (NewLockdownManager (mkConfig 0 0 0 true))).1);
    by vm_compute.
Defined.

(** The soft-lock window. The failure that reaches the threshold locks the
    manager until [lockdownMinutes] after it; [State] reports the lock up to
    and including that instant, and at any later one reopens the manager with
    the full budget of attempts and overrides. (Beyond 153722867 minutes the
    duration overflows.) *)
Theorem soft_lock_window stamp frames now m t :
  lockdown_ok m -> state m = LockdownNone -> failures m + 1 = threshold m ->
  lockdownMinutes m <= 153722867 ->
  let m1 := (RecordFailure stamp frames now m).1.1 in
  let until := now + lockdownMinutes m * Minute in
  let '(m2, s) := State t m1 in
  LockdownUntil m1 = until /\
  if decide (t <= until) then s = LockdownSoft /\ m2 = m1
  else s = LockdownNone /\ RemainingAttempts m2 = threshold m /\ strikes m2 = 0 /\
       overridesLeft m2 = maxOverrides m.
Proof.
  intros [Ht Ho Hm Hs] E Ef Hmin m1 until.
  assert (m1 = mkLockdown (threshold m) (threshold m) (overridesLeft m) (maxOverrides m) until
    (lockdownMinutes m) LockdownSoft (onHard m)) as ->.
  { subst m1 until. unfold RecordFailure. rewrite E, i64_small, Ef by lia. cbv zeta.
    cbn [threshold]. rewrite Z.leb_refl. cbn.
    unfold time_Add, duration_mul, Minute, Second. by rewrite i64_small by lia. }
  clearbody until. unfold State, time_After. cbn [state lockdownUntil].
  rewrite bool_decide_true by done. destruct (Z.ltb_spec until t); cbn.
  - rewrite decide_False by lia. unfold RemainingAttempts. cbn. rewrite i64_small by lia.
    split_and!; done || lia.
  - by rewrite decide_True by lia.
Qed.

Lemma soft_lock_window_witness :
  let m := (run (fail_at [1; 2]) (NewLockdownManager (mkConfig 3 4 5 false))).1 in
  (State 400 (RecordFailure 0 [] 100 m).1.1).2 = LockdownSoft.
Proof.
  intros m.
  assert (lockdown_ok m) as Hok by (apply run_ok, NewLockdownManager_ok; by split).
  pose proof (soft_lock_window 0 [] 100 m 400 Hok eq_refl eq_refl) as H. cbv zeta in H.
  destruct (State 400 (RecordFailure 0 [] 100 m).1.1) as [m2 s]. cbn [snd].
  destruct H as [_ H]; [by vm_compute|]. rewrite decide_True in H by by vm_compute. apply H.
Defined.
