(* ===== verification/RateLimiter.v ===== *)
(** * Per-subject rate limiting ([engine/security/rate_limiter.go])

    The limiter is a map from subjects to entries; a method that reads the
    clock takes the readings as arguments. The specification keeps, for each
    subject, the times of the failures since its last success. *)

From S2P Require Import Prelude GoStd.

Record rateLimitEntry := mkEntry {
  attempts : Z;
  lockedUntil : Z;
  lastAttempt : Z
}.

Abbreviation RateLimiter := (gmap string rateLimitEntry).
Definition NewRateLimiter : RateLimiter := ∅.

Definition Check (now : Z) (subject : string) (r : RateLimiter) : bool * Z :=
  match r !! subject with
  | None => (true, time_zero)
  | Some entry =>
      if time_Before now (lockedUntil entry) then (false, lockedUntil entry)
      else (true, time_zero)
  end.

(** The switch over [entry.attempts]. *)
Definition lockout_of (n : Z) : Z :=
  if 21 <=? n then 24 * Hour
  else if 16 <=? n then Hour
  else if 11 <=? n then 10 * Minute
  else if 6 <=? n then 60 * Second
  else 0.

(** [now1] and [now2] are the two clock readings. *)
Definition RecordFailure (now1 now2 : Z) (subject : string) (r : RateLimiter)
    : RateLimiter * (Z * Z) :=
  let entry := default (mkEntry 0 time_zero time_zero) (r !! subject) in
  let n := i64 (attempts entry + 1) in
  let lockout := lockout_of n in
  let until := if 0 <? lockout then time_Add now2 lockout else lockedUntil entry in
  (<[subject := mkEntry n until now1]> r, (lockout, n)).

Definition RecordSuccess (subject : string) (r : RateLimiter) : RateLimiter :=
  match r !! subject with
  | Some _ => delete subject r
  | None => r
  end.

Definition RemainingAttempts (now : Z) (subject : string) (r : RateLimiter) : Z :=
  match r !! subject with
  | None => 5
  | Some entry =>
      if time_Before now (lockedUntil entry) then -1
      else if attempts entry <? 5 then 5 - attempts entry
      else if attempts entry <? 10 then 10 - attempts entry
      else if attempts entry <? 15 then 15 - attempts entry
      else if attempts entry <? 20 then 20 - attempts entry
      else 0
  end.

Definition LockoutStatus (now : Z) (subject : string) (r : RateLimiter) : bool * Z :=
  match r !! subject with
  | None => (false, 0)
  | Some entry =>
      if time_Before now (lockedUntil entry) then (true, time_Sub (lockedUntil entry) now)
      else (false, 0)
  end.

(** ** Traces and the specification *)

Inductive call :=
| Failure (now1 now2 : Z) (subject : string)
| Success (subject : string).

Definition do_call (c : call) (r : RateLimiter) : RateLimiter :=
  match c with
  | Failure now1 now2 subject => (RecordFailure now1 now2 subject r).1
  | Success subject => RecordSuccess subject r
  end.
Definition run (cs : list call) (r : RateLimiter) : RateLimiter := foldl (flip do_call) r cs.

(** The failures of a subject since its last success, latest first, each with
    the time its lockout is counted from. *)
Definition record_call (subject : string) (h : list Z) (c : call) : list Z :=
  match c with
  | Failure _ now2 s => if decide (s = subject) then now2 :: h else h
  | Success s => if decide (s = subject) then [] else h
  end.
Definition history (cs : list call) (subject : string) : list Z :=
  foldl (record_call subject) [] cs.

(** Until when the failures of a history lock their subject out. *)
Definition locked_until (h : list Z) : Z :=
  match h with
  | [] => time_zero
  | t :: _ => if 0 <? lockout_of (len h) then t + lockout_of (len h) else time_zero
  end.

(** The entry a history leaves behind. *)
Definition represents (h : list Z) (e : option rateLimitEntry) : Prop :=
  match e with
  | None => h = []
  | Some e => h <> [] /\ attempts e = len h /\ lockedUntil e = locked_until h
  end.

Lemma lockout_of_mono n m : n <= m -> lockout_of n <= lockout_of m.
Proof.
  unfold lockout_of, Hour, Minute, Second. intros H.
  destruct (Z.leb_spec 21 n), (Z.leb_spec 16 n), (Z.leb_spec 11 n), (Z.leb_spec 6 n),
    (Z.leb_spec 21 m), (Z.leb_spec 16 m), (Z.leb_spec 11 m), (Z.leb_spec 6 m); lia.
Qed.

Lemma locked_until_cons t h :
  locked_until (t :: h)
  = if 0 <? lockout_of (len h + 1) then t + lockout_of (len h + 1) else locked_until h.
Proof.
  unfold locked_until at 1. assert (len (t :: h) = len h + 1) as -> by (unfold len; cbn; lia).
  destruct (Z.ltb_spec 0 (lockout_of (len h + 1))); [done|].
  pose proof (lockout_of_mono (len h) (len h + 1)) as Hm.
  unfold locked_until. destruct h as [|u h]; [done|].
  destruct (Z.ltb_spec 0 (lockout_of (len (u :: h)))); [lia|done].
Qed.

Lemma represents_failure now1 now2 s subject r h :
  len h + 1 < 2 ^ 63 -> represents h (r !! s) ->
  represents (if decide (subject = s) then now2 :: h else h)
    ((RecordFailure now1 now2 subject r).1 !! s).
Proof.
  intros Hl Hr. unfold RecordFailure. cbv zeta. cbn [fst]. case_decide as Hs.
  2: { by rewrite lookup_insert_ne. }
  subst s. rewrite lookup_insert_eq. cbn [represents attempts lockedUntil].
  assert (attempts (default (mkEntry 0 time_zero time_zero) (r !! subject)) = len h /\
          lockedUntil (default (mkEntry 0 time_zero time_zero) (r !! subject)) = locked_until h)
    as [-> ->].
  { destruct (r !! subject) as [e|]; cbn in *; [by destruct Hr as (_ & ? & ?)|by subst]. }
  pose proof (len_nonneg h). rewrite i64_small by lia.
  split_and!; [done|unfold len; cbn; lia|]. by rewrite locked_until_cons.
Qed.

Lemma represents_success s subject r h :
  represents h (r !! s) ->
  represents (if decide (subject = s) then [] else h) (RecordSuccess subject r !! s).
Proof.
  intros Hr. unfold RecordSuccess. case_decide as Hs.
  - subst s. destruct (r !! subject) eqn:E; [by rewrite lookup_delete_eq|by rewrite E].
  - destruct (r !! subject); [by rewrite lookup_delete_ne|done].
Qed.

Lemma length_history_le cs s : (length (history cs s) <= length cs)%nat.
Proof.
  unfold history. induction cs as [|c cs IH] using rev_ind; [done|].
  rewrite foldl_app, length_app. cbn [foldl length].
  destruct c; cbn [record_call]; case_decide; cbn [length]; lia.
Qed.

(** The representation holds after every trace of fewer than 2^63 calls. *)
Lemma run_represents cs s :
  len cs < 2 ^ 63 -> represents (history cs s) (run cs NewRateLimiter !! s).
Proof.
  unfold run, history. induction cs as [|c cs IH] using rev_ind; intros Hl; [by cbn|].
  rewrite !foldl_app. cbn [foldl flip]. unfold len in *. rewrite length_app in Hl. cbn in Hl.
  pose proof (length_history_le cs s) as Hh. unfold history in Hh.
  destruct c as [now1 now2 subject|subject]; cbn [do_call record_call].
  - apply represents_failure; [unfold len; lia|]. apply IH. lia.
  - apply represents_success. apply IH. lia.
Qed.

(** C31. The lockout policy. After any trace of recorded failures and successes,
    a subject may try again exactly from the instant its own history allows:
    the last failure since its last success plus the tier of the number of
    failures (60 s from the 6th, 10 min from the 11th, 1 h from the 16th, 24 h
    from the 21st). [LockoutStatus] agrees. Other subjects do not matter. *)
Theorem Check_policy cs s now :
  len cs < 2 ^ 63 -> time_zero <= now ->
  let r := run cs NewRateLimiter in
  let until := locked_until (history cs s) in
  ((Check now s r).1 = true <-> until <= now) /\
  ((Check now s r).1 = false -> (Check now s r).2 = until) /\
  (LockoutStatus now s r).1 = negb (Check now s r).1.
Proof.
  intros Hl Hnow r until. pose proof (run_represents cs s Hl) as Hr. fold r in Hr.
  unfold Check, LockoutStatus, time_Before, until. destruct (r !! s) as [e|].
  - destruct Hr as (_ & _ & ->). destruct (Z.ltb_spec now (locked_until (history cs s))); cbn;
      (split; [split; done || lia|done]).
  - cbn in Hr. rewrite Hr. cbn. done.
Qed.

Lemma Check_policy_witness :
  (Check (1060 * Second) "a" (run ((fun t => Failure (t * Second) (t * Second) "a")
     <$> [1;2;3;4;5;1000]) NewRateLimiter)).1 = true /\
  (Check (1059 * Second) "a" (run ((fun t => Failure (t * Second) (t * Second) "a")
     <$> [1;2;3;4;5;1000]) NewRateLimiter)).1 = false.
Proof.
  split; [|by vm_compute].
  apply (Check_policy _ "a" (1060 * Second)); by vm_compute.
Defined.

(** What [RemainingAttempts] counts. For a subject that is not locked out
    and has at most 20 failures, it is the number of further failures that
    stay in the current tier, the next one entering the next tier, except
    right at the end of a tier: after exactly 5, 10 or 15 failures the next
    failure is already in the next tier, and the answer is 5. *)
Theorem RemainingAttempts_counts cs s now :
  len cs < 2 ^ 63 -> time_zero <= now ->
  let n := len (history cs s) in
  let k := RemainingAttempts now s (run cs NewRateLimiter) in
  locked_until (history cs s) <= now -> n <= 20 ->
  (lockout_of (n + k) = lockout_of n /\ lockout_of n < lockout_of (n + k + 1)
   <-> n ∉ [5; 10; 15]) /\
  (n ∈ [5; 10; 15] -> k = 5 /\ lockout_of n < lockout_of (n + 1)).
Proof.
  intros Hl Hnow n k Hu Hn. pose proof (run_represents cs s Hl) as Hr.
  assert (k = if n <? 5 then 5 - n else if n <? 10 then 10 - n else if n <? 15 then 15 - n
              else if n <? 20 then 20 - n else 0) as Hk.
  { unfold k, RemainingAttempts. destruct (run cs NewRateLimiter !! s) as [e|].
    - destruct Hr as (_ & -> & ->). unfold time_Before.
      destruct (Z.ltb_spec now (locked_until (history cs s))); [lia|done].
    - unfold n. cbn in Hr. by rewrite Hr. }
  clearbody k. pose proof (len_nonneg (history cs s)) as H0. fold n in H0. clearbody n.
  assert (exists i, (i <= 20)%nat /\ n = Z.of_nat i) as (i & Hi & ->)
    by (exists (Z.to_nat n); lia).
  clear - Hi Hk. subst k.
  do 21 (destruct i as [|i]; [apply (bool_decide_unpack _); by vm_compute|]). lia.
Qed.

Lemma RemainingAttempts_counts_witness :
  RemainingAttempts 9 "a" (run ((fun t => Failure t t "a") <$> [1;2;3;4;5]) NewRateLimiter) = 5 /\
  lockout_of 5 < lockout_of (5 + 1).
Proof.
  pose proof (RemainingAttempts_counts ((fun t => Failure t t "a") <$> [1;2;3;4;5]) "a" 9) as H.
  cbv zeta in H. destruct H as [_ H]; [by vm_compute|by vm_compute|by vm_compute|by vm_compute|].
  apply H. by apply (bool_decide_unpack _); vm_compute.
Defined.
