(* ===== verification/AuditLog.v ===== *)
(** * The audit log ([engine/security/audit.go])

    A ring buffer of security events chained by SHA-256. [e.PrevHash] is a
    slice of the log's own [lastHash] array, so a stored event refers to that
    array: [deref] reads it in the log's current state. The hash function is
    a parameter. *)

From S2P Require Import Prelude GoStd.

(** A byte slice of an event: a slice of the log's [lastHash], or bytes of its own. *)
Inductive bytes_ref :=
| LastHash
| Own (l : list byte).

Record SecurityEvent := mkEvent {
  se_Timestamp : Z;
  se_Level : string;
  se_Module : string;
  se_Message : string;
  se_SubjectID : string;
  se_PrevHash : bytes_ref;
  se_Hash : list byte
}.
Definition zero_event : SecurityEvent :=
  mkEvent 0 EmptyString EmptyString EmptyString EmptyString (Own []) [].
#[export] Instance SecurityEvent_inhabited : Inhabited SecurityEvent := populate zero_event.

Record ringAuditLog := mkLog {
  ring : list SecurityEvent;
  cap : nat;
  head : nat;
  size : nat;
  lastHash : list byte
}.

Definition NewAuditLog (capacity : Z) : ringAuditLog :=
  let capacity := Z.to_nat (if capacity <=? 0 then 1024 else capacity) in
  mkLog (replicate capacity zero_event) capacity 0 0 (zeros 32).

(** The bytes an event's slice field denotes now. *)
Definition deref (a : ringAuditLog) (r : bytes_ref) : list byte :=
  match r with
  | LastHash => lastHash a
  | Own l => l
  end.

(** What is hashed after the previous hash. *)
Definition body (e : SecurityEvent) : list byte :=
  be_encode 8 (se_Timestamp e) ++ str_bytes (se_Level e) ++ str_bytes (se_Module e) ++
  str_bytes (se_Message e) ++ str_bytes (se_SubjectID e).

Abbreviation result := (res Empty_set).

Section Log.
Context (sha256 : list byte -> list byte).

(** The event as it is stored: stamped, linked and hashed. *)
Definition seal (now : Z) (e : SecurityEvent) (prev : list byte) : SecurityEvent :=
  let ts := if se_Timestamp e =? 0 then now else se_Timestamp e in
  let e := mkEvent ts (se_Level e) (se_Module e) (se_Message e) (se_SubjectID e)
             LastHash (se_Hash e) in
  mkEvent ts (se_Level e) (se_Module e) (se_Message e) (se_SubjectID e) LastHash
    (sha256 (prev ++ body e)).

Definition Append (now : Z) (e : SecurityEvent) (a : ringAuditLog) : result ringAuditLog :=
  let e := seal now e (lastHash a) in
  h ← copy_at 0 (se_Hash e) (lastHash a);
  let idx := ((head a + size a) mod cap a)%nat in
  ring ← set_index idx e (ring a);
  Ret (if decide (size a < cap a)%nat
       then mkLog ring (cap a) (head a) (S (size a)) h
       else mkLog ring (cap a) ((head a + 1) mod cap a)%nat (size a) h).

(** [for i := 0; i < n; i++ { result[i] = a.ring[(start+i)%a.cap] }] *)
Fixpoint copy_ring (n start : nat) (a : ringAuditLog) : result (list SecurityEvent) :=
  match n with
  | O => Ret []
  | S n =>
      e ← index (start mod cap a)%nat (ring a);
      rest ← copy_ring n (S start) a;
      Ret (e :: rest)
  end.

Definition Recent (n : Z) (a : ringAuditLog) : result (list SecurityEvent) :=
  let n := if Z.of_nat (size a) <? n then Z.of_nat (size a) else n in
  if n <? 0 then Panic
  else
    let n := Z.to_nat n in
    let start := ((head a + size a - n + cap a) mod cap a)%nat in
    copy_ring n start a.

Definition Drain (a : ringAuditLog) : result (ringAuditLog * list SecurityEvent) :=
  result ← copy_ring (size a) (head a) a;
  Ret (mkLog (ring a) (cap a) 0 0 (lastHash a), result).

(** ** The specification: the last [cap] sealed events, oldest first *)

Record log_ok (a : ringAuditLog) : Prop := {
  ok_cap : (0 < cap a)%nat;
  ok_ring : length (ring a) = cap a;
  ok_head : (head a < cap a)%nat;
  ok_size : (size a <= cap a)%nat;
  ok_hash : length (lastHash a) = 32%nat
}.

Definition contents (a : ringAuditLog) : list SecurityEvent :=
  (fun i => ring a !!! ((head a + i) mod cap a)%nat) <$> seq 0 (size a).

(** The last [n] elements of a list. *)
Definition last_n {A} (n : nat) (l : list A) : list A := drop (length l - n) l.

Lemma length_contents a : length (contents a) = size a.
Proof using Type. unfold contents. by rewrite length_fmap, length_seq. Qed.

Lemma mod_wrap x y n : (x < n)%nat -> (y <= n)%nat ->
  ((x + y) mod n = if decide (x + y < n) then x + y else x + y - n)%nat.
Proof using Type.
  intros Hx Hy. case_decide.
  - by apply Nat.mod_small.
  - replace (x + y)%nat with (x + y - n + 1 * n)%nat at 1 by lia.
    rewrite Nat.Div0.mod_add. apply Nat.mod_small. lia.
Qed.

(** The loop copies a run of positions. *)
Lemma copy_ring_eq n start a :
  log_ok a ->
  copy_ring n start a = Ret ((fun i => ring a !!! (i mod cap a)%nat) <$> seq start n).
Proof using Type.
  intros [Hc Hr _ _ _]. revert start. induction n as [|n IH]; intros start; [done|].
  cbn [copy_ring seq]. unfold index.
  destruct (lookup_lt_is_Some_2 (ring a) (start mod cap a)%nat) as [x Hx].
  { rewrite Hr. apply Nat.mod_upper_bound. lia. }
  rewrite Hx. cbn. rewrite IH. cbn. by rewrite (list_lookup_total_correct _ _ _ Hx).
Qed.

Lemma contents_seq a : contents a = (fun i => ring a !!! (i mod cap a)%nat) <$> seq (head a) (size a).
Proof using Type.
  replace (seq (head a) (size a)) with (Nat.add (head a) <$> seq 0 (size a))
    by by rewrite fmap_add_seq, Nat.add_0_r.
  by rewrite <- list_fmap_compose.
Qed.

Lemma Recent_contents n a :
  log_ok a -> 0 <= n -> Recent n a = Ret (last_n (Z.to_nat n) (contents a)).
Proof using Type.
  intros Hok Hn. unfold Recent.
  assert (exists k, (if Z.of_nat (size a) <? n then Z.of_nat (size a) else n) = Z.of_nat k /\
    (k <= size a)%nat /\ (size a - Z.to_nat n = size a - k)%nat) as (k & -> & Hk & Ek).
  { destruct (Z.ltb_spec (Z.of_nat (size a)) n);
      [exists (size a)|exists (Z.to_nat n)]; lia. }
  destruct (Z.ltb_spec (Z.of_nat k) 0); [lia|]. rewrite Nat2Z.id.
  rewrite copy_ring_eq by done. f_equal. unfold last_n. rewrite length_contents, Ek, contents_seq.
  rewrite <- fmap_drop, drop_seq. replace (size a - (size a - k))%nat with k by lia.
  set (s := (head a + (size a - k))%nat).
  replace (head a + size a - k + cap a)%nat with (s + 1 * cap a)%nat by lia.
  rewrite Nat.Div0.mod_add. clearbody s.
  apply list_eq. intros i. rewrite !list_lookup_fmap.
  destruct (decide (i < k)%nat); [|by rewrite !lookup_seq_ge by lia].
  rewrite !lookup_seq_lt by lia. cbn. f_equal. f_equal.
  by rewrite Nat.Div0.add_mod_idemp_l.
Qed.

Lemma Recent_negative n a : n < 0 -> Recent n a = Panic.
Proof using Type.
  intros Hn. unfold Recent. destruct (Z.ltb_spec (Z.of_nat (size a)) n); [lia|].
  by rewrite (proj2 (Z.ltb_lt _ _) Hn).
Qed.

Lemma Drain_contents a :
  log_ok a -> Drain a = Ret (mkLog (ring a) (cap a) 0 0 (lastHash a), contents a).
Proof using Type. intros Hok. unfold Drain. by rewrite copy_ring_eq, contents_seq by done. Qed.

(** ** Traces of calls, on the ring and on the specification *)

Inductive call :=
| CAppend (now : Z) (e : SecurityEvent)
| CRecent (n : Z)
| CDrain.

(** A call returns the new state and the events it hands out. *)
Definition do_call (c : call) (a : ringAuditLog) : result (ringAuditLog * list SecurityEvent) :=
  match c with
  | CAppend now e => a ← Append now e a; Ret (a, [])
  | CRecent n => es ← Recent n a; Ret (a, es)
  | CDrain => Drain a
  end.

Record spec_log := mkSpec { events : list SecurityEvent; newest_hash : list byte }.

Definition spec_call (cap : nat) (c : call) (s : spec_log)
    : result (spec_log * list SecurityEvent) :=
  match c with
  | CAppend now e =>
      let e := seal now e (newest_hash s) in
      Ret (mkSpec (last_n cap (events s ++ [e])) (se_Hash e), [])
  | CRecent n => if n <? 0 then Panic else Ret (s, last_n (Z.to_nat n) (events s))
  | CDrain => Ret (mkSpec [] (newest_hash s), events s)
  end.

Fixpoint run {St} (step : call -> St -> result (St * list SecurityEvent)) (cs : list call) (s : St)
    : result (St * list (list SecurityEvent)) :=
  match cs with
  | [] => Ret (s, [])
  | c :: cs =>
      '(s, out) ← step c s;
      '(s, outs) ← run step cs s;
      Ret (s, out :: outs)
  end.

(** The state of the specification a log stands for. *)
Definition abs (a : ringAuditLog) : spec_log := mkSpec (contents a) (lastHash a).

(** Events whose hashes chain [h] to [h']. *)
Fixpoint chain_ok (h : list byte) (es : list SecurityEvent) (h' : list byte) : Prop :=
  match es with
  | [] => h = h'
  | e :: es => se_Hash e = sha256 (h ++ body e) /\ chain_ok (se_Hash e) es h'
  end.

Context (sha256_length : forall l, length (sha256 l) = 32%nat).

Lemma Append_ring now e a :
  log_ok a ->
  let e' := seal now e (lastHash a) in
  exists ring', ring' = <[((head a + size a) mod cap a)%nat := e']> (ring a) /\
  Append now e a = Ret
    (if decide (size a < cap a)%nat
     then mkLog ring' (cap a) (head a) (S (size a)) (se_Hash e')
     else mkLog ring' (cap a) ((head a + 1) mod cap a)%nat (size a) (se_Hash e')).
Proof using sha256_length.
  intros [Hc Hr Hh Hs Hl] e'. eexists; split; [done|]. unfold Append. fold e'. cbv zeta.
  rewrite copy_at_fresh by (rewrite Hl; unfold e'; cbn; by rewrite sha256_length). cbn [mbind res_bind].
  unfold set_index. rewrite decide_True by (rewrite Hr; apply Nat.mod_upper_bound; lia). done.
Qed.

Lemma Append_contents now e a :
  log_ok a ->
  exists a', Append now e a = Ret a' /\ log_ok a' /\ cap a' = cap a /\
    lastHash a' = se_Hash (seal now e (lastHash a)) /\
    contents a' = last_n (cap a) (contents a ++ [seal now e (lastHash a)]).
Proof using sha256_length.
  intros Hok. destruct (Append_ring now e a Hok) as (ring' & Er & ->).
  destruct Hok as [Hc Hr Hh Hs Hl]. set (e' := seal now e (lastHash a)) in *.
  assert (length (se_Hash e') = 32%nat) as He by apply sha256_length.
  assert (length ring' = cap a) as Hr' by (rewrite Er, length_insert; done).
  eexists; split; [done|]. unfold last_n. rewrite length_app, length_contents. cbn [length].
  case_decide as Hd; cbn [cap lastHash];
    (split; [split; cbn; try done; try lia; apply Nat.mod_upper_bound; lia|
     split; [done|split; [done|]]]).
  - rewrite (proj2 (Nat.sub_0_le (size a + 1) (cap a))), drop_0 by lia.
    unfold contents. cbn [ring head cap size]. rewrite seq_S, fmap_app. f_equal.
    + apply list_fmap_ext. intros k i Hi. apply lookup_seq in Hi as [-> Hi].
      rewrite Er, list_lookup_total_insert_ne; [done|].
      rewrite !mod_wrap by lia. repeat case_decide; lia.
    + cbn. f_equal. rewrite Er. apply list_lookup_total_insert_eq.
      rewrite Hr. apply Nat.mod_upper_bound. lia.
  - assert (size a = cap a) as Es by lia. replace (size a + 1 - cap a)%nat with 1%nat by lia.
    unfold contents. cbn [ring head cap size]. rewrite Es.
    destruct (cap a) as [|c] eqn:Ec; [lia|].
    assert (exists h', (head a + 1) mod S c = h' /\
      (h' = head a + 1 /\ head a < c \/ h' = 0 /\ head a = c))%nat as (h' & -> & Hh').
    { eexists. split; [done|]. rewrite mod_wrap by lia. case_decide; lia. }
    rewrite Es in Er. rewrite seq_S at 1. cbn [seq fmap list_fmap app drop].
    rewrite fmap_app, drop_0. f_equal.
    + rewrite <- fmap_S_seq, <- list_fmap_compose.
      apply list_fmap_ext. intros k i Hi. apply lookup_seq in Hi as [-> Hi]. cbn [compose].
      assert ((h' + (0 + k)) mod S c = (head a + S (0 + k)) mod S c)%nat as ->
        by (rewrite !mod_wrap by lia; repeat case_decide; lia).
      rewrite Er, list_lookup_total_insert_ne; [done|].
      rewrite !mod_wrap by lia. repeat case_decide; lia.
    + cbn [fmap list_fmap Nat.add]. f_equal. rewrite Er.
      replace ((h' + c) mod S c)%nat with ((head a + S c) mod S c)%nat
        by (rewrite !mod_wrap by lia; repeat case_decide; lia).
      apply list_lookup_total_insert_eq. rewrite Hr. apply Nat.mod_upper_bound. lia.
Qed.

Lemma do_call_refines c a :
  log_ok a ->
  match do_call c a with
  | Ret (a', out) => log_ok a' /\ cap a' = cap a /\ spec_call (cap a) c (abs a) = Ret (abs a', out)
  | Panic => spec_call (cap a) c (abs a) = Panic
  | Err _ => False
  end.
Proof using sha256_length.
  intros Hok. destruct c as [now e|n|]; cbn [do_call spec_call].
  - destruct (Append_contents now e a Hok) as (a' & -> & Hok' & Hc & Hl & Hcont). cbn.
    split_and!; [done|done|]. unfold abs. cbn. by rewrite Hcont, Hl.
  - destruct (Z.ltb_spec n 0) as [Hn|Hn].
    + by rewrite Recent_negative.
    + by rewrite Recent_contents.
  - rewrite Drain_contents by done. split_and!; try done. destruct Hok. split; cbn; lia.
Qed.

Lemma run_refines cs a :
  log_ok a ->
  match run do_call cs a with
  | Ret (a', outs) =>
      log_ok a' /\ cap a' = cap a /\ run (spec_call (cap a)) cs (abs a) = Ret (abs a', outs)
  | Panic => run (spec_call (cap a)) cs (abs a) = Panic
  | Err _ => False
  end.
Proof using sha256_length.
  revert a. induction cs as [|c cs IH]; intros a Hok; [done|]. cbn [run].
  pose proof (do_call_refines c a Hok) as H.
  destruct (do_call c a) as [[a1 out]|[]|]; cbn [mbind res_bind]; [|by rewrite H].
  destruct H as (Hok1 & Hc1 & ->). cbn [mbind res_bind].
  specialize (IH a1 Hok1). rewrite Hc1 in IH.
  destruct (run do_call cs a1) as [[a2 outs]|[]|]; cbn [mbind res_bind]; [|by rewrite IH].
  destruct IH as (? & ? & ->). split_and!; [done|congruence|done].
Qed.

Lemma NewAuditLog_ok capacity : log_ok (NewAuditLog capacity).
Proof using Type.
  unfold NewAuditLog. destruct (Z.leb_spec capacity 0); split; cbn; rewrite ?length_replicate; lia.
Qed.

(** *** The chain *)

Lemma chain_ok_app h es1 es2 h' :
  chain_ok h (es1 ++ es2) h' <-> exists m, chain_ok h es1 m /\ chain_ok m es2 h'.
Proof using Type.
  revert h. induction es1 as [|e es1 IH]; intros h; cbn; [naive_solver|].
  rewrite IH. naive_solver.
Qed.

Definition spec_chained (s : spec_log) : Prop :=
  exists h0, length h0 = 32%nat /\ chain_ok h0 (events s) (newest_hash s) /\
    Forall (fun e => length (se_Hash e) = 32%nat /\ se_PrevHash e = LastHash) (events s) /\
    length (newest_hash s) = 32%nat.

Lemma chain_ok_length h es h' :
  chain_ok h es h' -> length h = 32%nat ->
  Forall (fun e => length (se_Hash e) = 32%nat /\ se_PrevHash e = LastHash) es ->
  length h' = 32%nat.
Proof using Type.
  revert h. induction es as [|e es IH]; intros h; cbn; [by intros <-|].
  intros [_ H] _ [[? _] ?]%Forall_cons. by eapply IH.
Qed.

Lemma spec_call_chained cap c s s' out :
  spec_call cap c s = Ret (s', out) -> spec_chained s -> spec_chained s'.
Proof using sha256_length.
  intros H (h0 & H0 & Hc & HF & Hn). destruct c as [now e|n|]; cbn [spec_call] in H.
  - injection H as <- <-. set (e' := seal now e (newest_hash s)).
    assert (length (se_Hash e') = 32%nat) as He by apply sha256_length.
    assert (chain_ok h0 (events s ++ [e']) (se_Hash e')) as Hc'
      by (apply chain_ok_app; exists (newest_hash s); split; [done|by split]).
    assert (Forall (fun e => length (se_Hash e) = 32%nat /\ se_PrevHash e = LastHash)
      (events s ++ [e'])) as HF' by (apply Forall_app; split; [done|by repeat constructor]).
    unfold last_n. revert Hc' HF'. generalize (length (events s ++ [e']) - cap)%nat as k.
    intros k. rewrite <- (take_drop k (events s ++ [e'])) at 1 2.
    intros (m & H1 & H2)%chain_ok_app [F1 F2]%Forall_app. exists m.
    split_and!; cbn; try done. by eapply chain_ok_length.
  - destruct (n <? 0); [done|]. injection H as <- <-. by exists h0.
  - injection H as <- <-. exists (newest_hash s). split_and!; cbn; done || constructor.
Qed.

Lemma run_chained capacity cs a outs :
  run do_call cs (NewAuditLog capacity) = Ret (a, outs) -> spec_chained (abs a).
Proof using sha256_length.
  intros H. pose proof (run_refines cs _ (NewAuditLog_ok capacity)) as Hr. rewrite H in Hr.
  destruct Hr as (_ & _ & Hr).
  assert (spec_chained (abs (NewAuditLog capacity))) as H0.
  { exists (zeros 32). unfold abs, contents, NewAuditLog. cbn. split_and!; done || constructor. }
  revert Hr H0. generalize (abs (NewAuditLog capacity)) (cap (NewAuditLog capacity)) (abs a).
  clear H a. intros s k s'. revert s outs. induction cs as [|c cs IH]; intros s outs; cbn [run].
  - by intros [= <- <-].
  - intros H H0. inv_res. inv_res. injection H as <- <-.
    eapply IH; [exact Hr0|]. by eapply spec_call_chained.
Qed.

Lemma app_inj_32 (a b x y : list byte) :
  length a = 32%nat -> length b = 32%nat -> a ++ x = b ++ y -> a = b /\ x = y.
Proof using Type. intros Ha Hb H. apply app_inj_1 in H; [done|lia]. Qed.

(** The texts hashed along a chain: each event's body after the hash before it. *)
Fixpoint inputs (h : list byte) (es : list SecurityEvent) : list (list byte) :=
  match es with
  | [] => []
  | e :: es => (h ++ body e) :: inputs (se_Hash e) es
  end.

(** Every event a trace of calls appends, drained and overwritten ones
    included, as it was stored. *)
Fixpoint sealed (cs : list call) (prev : list byte) : list SecurityEvent :=
  match cs with
  | [] => []
  | CAppend now e :: cs => let e := seal now e prev in e :: sealed cs (se_Hash e)
  | _ :: cs => sealed cs prev
  end.

Lemma last_n_snoc {A} n (l : list A) x : last_n (S n) (l ++ [x]) = last_n n l ++ [x].
Proof using Type.
  unfold last_n. rewrite length_app. cbn [length].
  replace (length l + 1 - S n)%nat with (length l - n)%nat by lia. apply drop_app_le. lia.
Qed.

Lemma inputs_snoc h es e m : chain_ok h es m -> inputs h (es ++ [e]) = inputs h es ++ [m ++ body e].
Proof using Type.
  revert h. induction es as [|e' es IH]; intros h; cbn; [by intros ->|]. intros [_ H]. by rewrite IH.
Qed.

Lemma chain_ok_snoc h es e h' :
  chain_ok h (es ++ [e]) h' ->
  exists m, chain_ok h es m /\ se_Hash e = h' /\ sha256 (m ++ body e) = h' /\
    inputs h (es ++ [e]) = inputs h es ++ [m ++ body e].
Proof using Type.
  intros (m & H1 & H2 & H3)%chain_ok_app. cbn in H3. exists m.
  split_and!; [done|done|congruence|by apply inputs_snoc].
Qed.

Lemma chain_end_length h es m : length h = 32%nat -> chain_ok h es m -> length m = 32%nat.
Proof using sha256_length.
  intros Hh. destruct es as [|e es _] using rev_ind; cbn; [by intros <-|].
  intros (m' & _ & _ & <- & _)%chain_ok_snoc. apply sha256_length.
Qed.

(** Two chains to one hash hash the same texts, counted from the end, or two
    texts the same distance from the end collide. *)
Lemma chain_unique h1 h2 es1 es2 h :
  length h1 = 32%nat -> length h2 = 32%nat -> chain_ok h1 es1 h -> chain_ok h2 es2 h ->
  let k := (length es1 `min` length es2)%nat in
  (last_n k (inputs h1 es1) = last_n k (inputs h2 es2) /\
   body <$> last_n k es1 = body <$> last_n k es2 /\
   se_Hash <$> last_n k es1 = se_Hash <$> last_n k es2) \/
  (exists x y, (x, y) ∈ zip (reverse (inputs h1 es1)) (reverse (inputs h2 es2)) /\
     x <> y /\ sha256 x = sha256 y).
Proof using sha256_length.
  intros L1 L2. revert es2 h. induction es1 as [|e1 es1 IH] using rev_ind; intros es2 h C1 C2.
  { left. unfold last_n. cbn [length Nat.min]. by rewrite !Nat.sub_0_r, !drop_all. }
  destruct es2 as [|e2 es2 _] using rev_ind.
  { left. rewrite Nat.min_0_r. unfold last_n. by rewrite !Nat.sub_0_r, !drop_all. }
  apply chain_ok_snoc in C1 as (m1 & C1 & E1 & S1 & I1).
  apply chain_ok_snoc in C2 as (m2 & C2 & E2 & S2 & I2).
  rewrite I1, I2, !reverse_snoc, !length_app, !Nat.add_1_r. cbn [zip zip_with length Nat.min].
  rewrite !last_n_snoc, !fmap_app. cbn [fmap list_fmap].
  destruct (decide (m1 ++ body e1 = m2 ++ body e2)) as [E|Hne].
  - assert (m1 = m2 /\ body e1 = body e2) as [-> Eb]
      by (apply app_inj_32; [exact (chain_end_length _ _ _ L1 C1)|exact (chain_end_length _ _ _ L2 C2)|done]).
    destruct (IH es2 m2 C1 C2) as [(E3 & E4 & E5)|(x & y & Hin & Hxy)].
    + left. rewrite E3, E4, E5. split_and!; congruence.
    + right. exists x, y. split; [by right|done].
  - right. eexists _, _. split; [by left|]. split; [done|congruence].
Qed.

Lemma spec_run_sealed k cs s s' outs :
  run (spec_call k) cs s = Ret (s', outs) ->
  chain_ok (newest_hash s) (sealed cs (newest_hash s)) (newest_hash s') /\
  events s' `suffix_of` events s ++ sealed cs (newest_hash s).
Proof using Type.
  revert s outs. induction cs as [|c cs IH]; intros s outs; cbn [run].
  { intros [= <- <-]. cbn. by rewrite app_nil_r. }
  intros H. inv_res. inv_res. injection H as <- <-. apply IH in Hr0 as [H1 H2].
  destruct c as [now e|n|]; cbn [spec_call sealed] in *.
  - injection Hr as <- <-. cbn [newest_hash events] in *. split; [by split|].
    etrans; [exact H2|]. unfold last_n.
    set (l := events s ++ [_]). rewrite (cons_middle _ (events s)), app_assoc. fold l.
    exists (take (length l - k) l). by rewrite app_assoc, take_drop.
  - destruct (n <? 0); [done|]. injection Hr as <- <-. done.
  - injection Hr as <- <-. cbn [newest_hash events] in *. split; [done|].
    etrans; [exact H2|]. by exists (events s).
Qed.

(** C36. The ring is a bounded queue. On every trace of calls the log returns
    what the specification returns: [Append] keeps the last [cap] events,
    sealed with their hash, [Recent n] the last [n] of them oldest first,
    [Drain] all of them, leaving none; the only panic is [Recent] of a
    negative count. *)
Theorem audit_refines capacity cs :
  match run do_call cs (NewAuditLog capacity) with
  | Ret (a, outs) =>
      run (spec_call (cap (NewAuditLog capacity))) cs (abs (NewAuditLog capacity))
      = Ret (abs a, outs)
  | Panic =>
      run (spec_call (cap (NewAuditLog capacity))) cs (abs (NewAuditLog capacity)) = Panic
  | Err _ => False
  end.
Proof using sha256_length.
  pose proof (run_refines cs _ (NewAuditLog_ok capacity)) as H.
  destruct (run do_call cs (NewAuditLog capacity)) as [[a outs]|[]|]; [|done].
  by destruct H as (_ & _ & H).
Qed.

(** C37. The log is tamper evident. After any trace, the events appended so far
    chain from the zero hash to [lastHash], the log holds the newest of them,
    and any list of events, of any length, that also chains from a 32-byte hash
    to [lastHash] has the same bodies, hashes and previous hashes as the
    appended events as far back as both go, unless the texts hashed for
    two events at the same distance from the end differ and collide. *)
Theorem audit_tamper_evident capacity cs a outs :
  run do_call cs (NewAuditLog capacity) = Ret (a, outs) ->
  let appended := sealed cs (zeros 32) in
  chain_ok (zeros 32) appended (lastHash a) /\
  contents a `suffix_of` appended /\
  forall h1 es, length h1 = 32%nat -> chain_ok h1 es (lastHash a) ->
    let k := (length es `min` length appended)%nat in
    (last_n k (inputs h1 es) = last_n k (inputs (zeros 32) appended) /\
     body <$> last_n k es = body <$> last_n k appended /\
     se_Hash <$> last_n k es = se_Hash <$> last_n k appended) \/
    (exists x y,
       (x, y) ∈ zip (reverse (inputs h1 es)) (reverse (inputs (zeros 32) appended)) /\
       x <> y /\ sha256 x = sha256 y).
Proof using sha256_length.
  intros H. pose proof (run_refines cs _ (NewAuditLog_ok capacity)) as Hr. rewrite H in Hr.
  destruct Hr as (_ & _ & [H1 H2]%spec_run_sealed). split; [exact H1|]. split; [exact H2|].
  intros h1 es L1 Hc. exact (chain_unique h1 (zeros 32) es _ (lastHash a) L1 eq_refl Hc H1).
Qed.

(** What [PrevHash] holds. It is a slice of the log's own [lastHash] array,
    so after any trace every event in the log shows the hash of the newest
    event, its own hash for the newest one, and not that of the event before. *)
Theorem PrevHash_is_newest capacity cs a outs :
  run do_call cs (NewAuditLog capacity) = Ret (a, outs) ->
  Forall (fun e => deref a (se_PrevHash e) = lastHash a) (contents a) /\
  forall es e, contents a = es ++ [e] -> deref a (se_PrevHash e) = se_Hash e.
Proof using sha256_length.
  intros (h0 & H0 & Hc & HF & _)%run_chained. cbn [abs events newest_hash] in *. split.
  - eapply Forall_impl; [exact HF|]. intros e [_ ->]. done.
  - intros es e E. rewrite E in Hc, HF.
    apply chain_ok_app in Hc as (m & _ & _ & He). apply Forall_app in HF as [_ HF].
    apply Forall_cons in HF as [[_ ->] _]. exact (eq_sym He).
Qed.
End Log.

(** A stand-in hash of 32 bytes for the examples: the length and the byte sum. *)
Definition sum_hash (l : list byte) : list byte :=
  be_encode 16 (len l) ++ be_encode 16 (foldr (fun b z => bz b + z) 0 l).
Lemma sum_hash_length l : length (sum_hash l) = 32%nat.
Proof. unfold sum_hash. by rewrite length_app, !length_be_encode. Qed.

Definition sample_event (message : string) : SecurityEvent :=
  mkEvent 0 "INFO" "auth" message EmptyString (Own []) [].
Definition sample_calls : list call :=
  [CAppend 1 (sample_event "a"); CAppend 2 (sample_event "b"); CAppend 3 (sample_event "c")].

Lemma audit_refines_witness :
  exists outs, run (spec_call sum_hash 2) sample_calls (abs (NewAuditLog 2)) = Ret outs /\
    length (events outs.1) = 2%nat.
Proof.
  pose proof (audit_refines sum_hash sum_hash_length 2 sample_calls) as H.
  destruct (run (do_call sum_hash) sample_calls (NewAuditLog 2)) as [[a outs]|[]|] eqn:E;
    [|by vm_compute in E].
  exists (abs a, outs). split; [exact H|]. vm_compute in E. injection E as <- <-. by vm_compute.
Defined.

(** A forged history of another length to the same hash shows where the
    stand-in hash collides. *)
Definition forged : list SecurityEvent :=
  (fun e => mkEvent (se_Timestamp e) (se_Level e) "htua" (se_Message e) (se_SubjectID e) LastHash (se_Hash e))
  <$> sealed sum_hash sample_calls (zeros 32).

Lemma audit_tamper_evident_witness :
  exists a outs, run (do_call sum_hash) sample_calls (NewAuditLog 2) = Ret (a, outs) /\
    chain_ok sum_hash (zeros 32) (sealed sum_hash sample_calls (zeros 32)) (lastHash a) /\
    length (contents a) = 2%nat /\
    exists x y,
      (x, y) ∈ zip (reverse (inputs (zeros 32) forged))
                   (reverse (inputs (zeros 32) (sealed sum_hash sample_calls (zeros 32)))) /\
      x <> y /\ sum_hash x = sum_hash y.
Proof.
  destruct (run (do_call sum_hash) sample_calls (NewAuditLog 2)) as [[a outs]|[]|] eqn:E;
    [|by vm_compute in E].
  destruct (audit_tamper_evident sum_hash sum_hash_length 2 sample_calls a outs E)
    as (H & _ & Ht).
  exists a, outs. split; [done|]. split; [exact H|].
  assert (chain_ok sum_hash (zeros 32) forged (lastHash a)) as Hf
    by (vm_compute in E; injection E as <- <-; repeat split; by vm_compute).
  split; [vm_compute in E; injection E as <- <-; by vm_compute|].
  destruct (Ht (zeros 32) forged eq_refl Hf) as [(_ & Hb & _)|Hc]; [|exact Hc].
  exfalso. by vm_compute in Hb.
Defined.

Lemma PrevHash_is_newest_witness :
  exists a outs, run (do_call sum_hash) sample_calls (NewAuditLog 2) = Ret (a, outs) /\
    Forall (fun e => deref a (se_PrevHash e) = lastHash a) (contents a) /\
    length (contents a) = 2%nat.
Proof.
  destruct (run (do_call sum_hash) sample_calls (NewAuditLog 2)) as [[a outs]|[]|] eqn:E;
    [|by vm_compute in E].
  destruct (PrevHash_is_newest sum_hash sum_hash_length 2 sample_calls a outs E) as [H _].
  exists a, outs. split_and!; [done|exact H|].
  vm_compute in E. injection E as <- <-. by vm_compute.
Defined.

(** The hashed bytes do not separate the fields: two different events can have
    the same body, so the same hash. *)
Lemma body_not_injective :
  exists e1 e2, se_Module e1 <> se_Module e2 /\ se_Message e1 <> se_Message e2 /\ body e1 = body e2.
Proof.
  exists (mkEvent 1 "INFO" "auth" "login" EmptyString (Own []) []).
  exists (mkEvent 1 "INFO" "authl" "ogin" EmptyString (Own []) []). by vm_compute.
Qed.
