(* ===== verification/Session.v ===== *)
(** * The session context ([engine/security/session.go])

    Each method's critical section is one atomic step on the session and the
    runtime's timers; what a method does after it releases the mutex, and the
    goroutine of a fired auto-lock timer, are tasks that any later step may
    run. All clock readings of one critical section are the same instant.
    Schedules are lists of actions, executed by [exec]. *)

From S2P Require Import Prelude GoStd.

Record SessionContext := mkSession {
  active : bool;
  mvkHandle : string;
  unlockedAt : Z;
  dispatcher : bool;
  autoLockMinutes : Z;
  autoLockTimer : option nat;
  lastActivity : Z
}.

Definition NewSessionContext : SessionContext :=
  mkSession false EmptyString time_zero false 15 None time_zero.

(** The timers of the runtime: the deadline of a running one, [None] when
    stopped or fired. *)
Abbreviation timers := (gmap nat (option Z)).

Definition Timer_Stop (t : nat) (ts : timers) : timers := <[t := None]> ts.
(** [Reset] restarts the timer; a deadline that is not after now fires at once. *)
Definition Timer_Reset (t : nat) (deadline : Z) (ts : timers) : timers := <[t := Some deadline]> ts.
Definition AfterFunc (deadline : Z) (ts : timers) : nat * timers :=
  let t := fresh (dom ts) in (t, <[t := Some deadline]> ts).

(** The events the session dispatches; the payload is kept structured. *)
Inductive event :=
| AuthReady (unlocked_at : Z)
| AuthLogout (reason : string).

(** [t.Unix()] *)
Definition Unix (t : Z) : Z := t / Second.

(** ** Critical sections *)

Definition SetAutoLockMinutes (minutes : Z) (s : SessionContext) : SessionContext :=
  mkSession (active s) (mvkHandle s) (unlockedAt s) (dispatcher s) minutes (autoLockTimer s)
    (lastActivity s).

Definition auto_lock_after (s : SessionContext) (now : Z) : Z :=
  time_Add now (duration_mul (autoLockMinutes s) Minute).

Definition ResetActivity (now : Z) (s : SessionContext) (ts : timers) : timers :=
  match autoLockTimer s with
  | Some t => Timer_Reset t (auto_lock_after s now) ts
  | None => ts
  end.

Definition SetDispatcher (d : bool) (s : SessionContext) : SessionContext :=
  mkSession (active s) (mvkHandle s) (unlockedAt s) d (autoLockMinutes s) (autoLockTimer s)
    (lastActivity s).

Definition stop_timer (s : SessionContext) (ts : timers) : timers :=
  match autoLockTimer s with
  | Some t => Timer_Stop t ts
  | None => ts
  end.

Definition Unlock (now : Z) (handle : string) (s : SessionContext) (ts : timers)
    : SessionContext * timers :=
  let ts := stop_timer s ts in
  let '(timer, ts) :=
    if 0 <? autoLockMinutes s
    then let '(t, ts) := AfterFunc (auto_lock_after s now) ts in (Some t, ts)
    else (autoLockTimer s, ts) in
  (mkSession true handle now (dispatcher s) (autoLockMinutes s) timer now, ts).

(** After the mutex is released. *)
Definition Unlock_emit (s : SessionContext) : list event :=
  if dispatcher s then [AuthReady (Unix (unlockedAt s))] else [].

(** The second component is [wasActive]. *)
Definition Lock (s : SessionContext) (ts : timers) : SessionContext * bool * timers :=
  (mkSession false EmptyString time_zero (dispatcher s) (autoLockMinutes s) (autoLockTimer s)
     time_zero, active s, stop_timer s ts).

Definition Lock_emit (wasActive : bool) (s : SessionContext) : list event :=
  if wasActive then if dispatcher s then [AuthLogout "session_locked"] else [] else [].

Definition IsUnlocked (s : SessionContext) : bool := active s.
Definition MVKHandle (s : SessionContext) : string := mvkHandle s.
Definition ActiveHandle (s : SessionContext) : string :=
  if negb (active s) then EmptyString else mvkHandle s.
Definition RequireUnlocked (s : SessionContext) : res msg unit :=
  if negb (IsUnlocked s) then Err (Lit "vault locked: no active session") else Ret tt.

(** The age is in nanoseconds; the code divides it into seconds. *)
Record health := mkHealth {
  h_active : bool;
  h_mvk_handle : bool;
  h_unlocked_at : Z;
  h_age : Z
}.
Definition Health (now : Z) (s : SessionContext) : health :=
  mkHealth (active s) (bool_decide (mvkHandle s <> EmptyString)) (Unix (unlockedAt s))
    (time_Sub now (unlockedAt s)).

(** ** The world: session, timers, clock, tasks not yet run, events sent *)

Inductive task :=
| TimerLock                      (* the goroutine of a fired timer: [s.Lock()] *)
| EmitReady                      (* the rest of [Unlock] *)
| EmitLogout (wasActive : bool)  (* the rest of [Lock] *).

Record world := mkWorld {
  session : SessionContext;
  wtimers : timers;
  now : Z;
  tasks : list task;
  sent : list event
}.

Inductive action :=
| CallSetAutoLockMinutes (minutes : Z)
| CallResetActivity
| CallSetDispatcher (d : bool)
| CallUnlock (handle : string)
| CallLock
| Tick (dt : N)
| Fire (t : nat)
| RunTask (i : nat).

Definition init (t0 : Z) : world := mkWorld NewSessionContext ∅ t0 [] [].

Definition lock_world (w : world) (ts : list task) : world :=
  let '(s, wasActive, tm) := Lock (session w) (wtimers w) in
  mkWorld s tm (now w) (ts ++ [EmitLogout wasActive]) (sent w).

Definition step (a : action) (w : world) : option world :=
  match a with
  | CallSetAutoLockMinutes m =>
      Some (mkWorld (SetAutoLockMinutes m (session w)) (wtimers w) (now w) (tasks w) (sent w))
  | CallResetActivity =>
      Some (mkWorld (session w) (ResetActivity (now w) (session w) (wtimers w)) (now w) (tasks w)
              (sent w))
  | CallSetDispatcher d =>
      Some (mkWorld (SetDispatcher d (session w)) (wtimers w) (now w) (tasks w) (sent w))
  | CallUnlock h =>
      let '(s, tm) := Unlock (now w) h (session w) (wtimers w) in
      Some (mkWorld s tm (now w) (tasks w ++ [EmitReady]) (sent w))
  | CallLock => Some (lock_world w (tasks w))
  | Tick dt => Some (mkWorld (session w) (wtimers w) (now w + Z.of_N dt) (tasks w) (sent w))
  | Fire t =>
      match wtimers w !! t with
      | Some (Some deadline) =>
          if deadline <=? now w
          then Some (mkWorld (session w) (<[t := None]> (wtimers w)) (now w)
                       (tasks w ++ [TimerLock]) (sent w))
          else None
      | _ => None
      end
  | RunTask i =>
      k ← tasks w !! i;
      let rest := delete i (tasks w) in
      match k with
      | TimerLock => Some (lock_world w rest)
      | EmitReady =>
          Some (mkWorld (session w) (wtimers w) (now w) rest (sent w ++ Unlock_emit (session w)))
      | EmitLogout was =>
          Some (mkWorld (session w) (wtimers w) (now w) rest (sent w ++ Lock_emit was (session w)))
      end
  end.

Fixpoint exec (acts : list action) (w : world) : option world :=
  match acts with
  | [] => Some w
  | a :: acts => w ← step a w; exec acts w
  end.

Definition reachable (w : world) : Prop := exists t0 acts, exec acts (init t0) = Some w.

(** ** The invariant *)

Definition locked_clean (s : SessionContext) : Prop :=
  active s = false -> mvkHandle s = EmptyString /\ unlockedAt s = time_zero /\ lastActivity s = time_zero.

(** Only the session's own timer can be running, and a locked session's is
    not, unless activity was reported while locked. *)
Definition one_timer (w : world) : Prop :=
  forall t d, wtimers w !! t = Some (Some d) -> autoLockTimer (session w) = Some t.

Definition world_ok (w : world) : Prop := locked_clean (session w) /\ one_timer w.

Lemma lookup_stop_timer s ts t d :
  stop_timer s ts !! t = Some (Some d) -> ts !! t = Some (Some d) /\ autoLockTimer s <> Some t.
Proof.
  unfold stop_timer, Timer_Stop. destruct (autoLockTimer s) as [t'|]; [|done].
  destruct (decide (t = t')) as [->|?]; simplify_map_eq; naive_solver.
Qed.

Lemma lock_world_ok w ts : world_ok w -> world_ok (lock_world w ts).
Proof.
  intros [_ Ht]. unfold lock_world, Lock. split; cbn; [done|].
  intros t d H. cbn in *. apply lookup_stop_timer in H as [H Hne].
  destruct Hne. by eapply Ht.
Qed.

Lemma step_ok a w w' : step a w = Some w' -> world_ok w -> world_ok w'.
Proof.
  intros Hs Hok. pose proof Hok as [Hc Ht]. destruct a as [m| |d|h| |dt|t|i]; cbn [step] in Hs.
  - injection Hs as <-. done.
  - injection Hs as <-. split; [done|]. intros t d H. cbn in *. unfold ResetActivity, Timer_Reset in H.
    destruct (autoLockTimer (session w)) as [t'|] eqn:E; [|rewrite <- E; by eapply Ht].
    destruct (decide (t = t')) as [->|?]; [done|]. rewrite lookup_insert_ne in H by done.
    rewrite <- E. by eapply Ht.
  - injection Hs as <-. done.
  - unfold Unlock, AfterFunc in Hs. destruct (0 <? _); injection Hs as <-; split; try done;
      intros t d H; cbn in *.
    + destruct (decide (t = fresh (dom (stop_timer (session w) (wtimers w))))) as [->|?]; [done|].
      rewrite lookup_insert_ne in H by done. apply lookup_stop_timer in H as [H Hne].
      destruct Hne. by eapply Ht.
    + apply lookup_stop_timer in H as [H Hne]. destruct Hne. by eapply Ht.
  - injection Hs as <-. by apply lock_world_ok.
  - injection Hs as <-. done.
  - destruct (wtimers w !! t) as [[d|]|] eqn:E; try done. destruct (d <=? now w); [|done].
    injection Hs as <-. split; [done|]. intros t' d' H. cbn in *.
    destruct (decide (t = t')) as [->|?]; simplify_map_eq. by eapply Ht.
  - destruct (tasks w !! i) as [[]|]; cbn in Hs; [| | |done]; injection Hs as <-; try done.
    by apply lock_world_ok.
Qed.

Lemma exec_ok acts w w' : exec acts w = Some w' -> world_ok w -> world_ok w'.
Proof.
  revert w. induction acts as [|a acts IH]; intros w; cbn; [by intros [= <-]|].
  destruct (step a w) as [w1|] eqn:E; cbn; [|done]. intros H Hok.
  eapply IH; [exact H|]. by eapply step_ok.
Qed.

Lemma reachable_ok w : reachable w -> world_ok w.
Proof. intros (t0 & acts & H). eapply exec_ok; [exact H|]. by split. Qed.

(** ** Handles do not influence anything the session sends *)

Definition erase_session (s : SessionContext) : SessionContext :=
  mkSession (active s) EmptyString (unlockedAt s) (dispatcher s) (autoLockMinutes s)
    (autoLockTimer s) (lastActivity s).
Definition erase (w : world) : world :=
  mkWorld (erase_session (session w)) (wtimers w) (now w) (tasks w) (sent w).
Definition erase_action (a : action) : action :=
  match a with
  | CallUnlock _ => CallUnlock EmptyString
  | _ => a
  end.

Lemma step_erase a w : step (erase_action a) (erase w) = erase <$> step a w.
Proof.
  destruct a as [m| |d|h| |dt|t|i]; try done; cbn [step erase_action].
  - unfold Unlock, AfterFunc, stop_timer. cbn. by destruct (0 <? _).
  - cbn. destruct (wtimers w !! t) as [[d|]|]; try done. by destruct (d <=? now w).
  - cbn. by destruct (tasks w !! i) as [[]|].
Qed.

Lemma exec_erase acts w : exec (erase_action <$> acts) (erase w) = erase <$> exec acts w.
Proof.
  revert w. induction acts as [|a acts IH]; intros w; [done|]. cbn.
  rewrite step_erase. destruct (step a w) as [w1|]; cbn; [apply IH|done].
Qed.

(** ** Auto-lock *)

(** Every auto-lock setting is positive and at most [M] minutes. *)
Definition settings_within (M : Z) (acts : list action) : Prop :=
  Forall (fun a => match a with CallSetAutoLockMinutes m => 0 < m <= M | _ => True end) acts.

(** Steps of the runtime alone: time, timers and pending tasks. *)
Definition internal (a : action) : Prop :=
  match a with
  | Tick _ | Fire _ | RunTask _ => True
  | _ => False
  end.

Definition armed (w : world) (d : Z) : Prop :=
  exists t, autoLockTimer (session w) = Some t /\ wtimers w !! t = Some (Some d).

(** An unlocked session has its timer running or its lock on the way, and no
    timer runs longer than [M] minutes from now. *)
Record guarded (M : Z) (w : world) : Prop := {
  gu_minutes : 0 < autoLockMinutes (session w) <= M;
  gu_lock : active (session w) = true -> (exists d, armed w d) \/ TimerLock ∈ tasks w;
  gu_deadline : forall t d, wtimers w !! t = Some (Some d) -> d <= now w + M * Minute
}.

Lemma elem_of_delete_ne {A} (l : list A) i x y :
  l !! i = Some y -> x <> y -> x ∈ l -> x ∈ delete i l.
Proof.
  intros Hi Hne [j Hj]%list_elem_of_lookup. rewrite delete_take_drop.
  destruct (decide (j < i)%nat).
  - apply elem_of_app. left. apply list_elem_of_lookup. exists j. by rewrite lookup_take_lt.
  - apply elem_of_app. right. apply list_elem_of_lookup. exists (j - S i)%nat.
    assert (i <> j) by congruence. rewrite lookup_drop. by replace (S i + (j - S i))%nat with j by lia.
Qed.

Lemma auto_lock_after_bound M s t :
  0 < autoLockMinutes s <= M -> M <= 153722867 ->
  auto_lock_after s t = t + autoLockMinutes s * Minute /\ auto_lock_after s t <= t + M * Minute.
Proof.
  intros H1 H2. unfold auto_lock_after, time_Add, duration_mul, Minute, Second.
  rewrite i64_small by lia. lia.
Qed.

Lemma step_guarded M a w w' :
  M <= 153722867 -> settings_within M [a] -> step a w = Some w' ->
  guarded M w -> guarded M w'.
Proof.
  intros HM Ha Hs [G1 G2 G3]. apply Forall_cons in Ha as [Ha _].
  destruct a as [m| |d|h| |dt|t|i]; cbn [step] in Hs.
  - by injection Hs as <-.
  - injection Hs as <-. unfold ResetActivity, Timer_Reset.
    destruct (autoLockTimer (session w)) as [t|] eqn:E; [|by split]. split; cbn; [done| |].
    + intros Hact. left. eexists _, t. split; [done|]. apply lookup_insert_eq.
    + intros t' d H. destruct (decide (t = t')) as [->|?]; simplify_map_eq; [|by eapply G3].
      by apply auto_lock_after_bound.
  - by injection Hs as <-.
  - unfold Unlock, AfterFunc in Hs. rewrite (proj2 (Z.ltb_lt _ _) (proj1 G1)) in Hs.
    remember (fresh (dom (stop_timer (session w) (wtimers w)))) as tn eqn:Etn. clear Etn.
    injection Hs as <-. split; cbn; [done| |].
    + intros _. left. eexists _, _. split; [done|]. apply lookup_insert_eq.
    + intros t d H. destruct (decide (tn = t)) as [->|?].
      * rewrite lookup_insert_eq in H. injection H as <-. by apply auto_lock_after_bound.
      * rewrite lookup_insert_ne in H by done. apply lookup_stop_timer in H as [H _]. by eapply G3.
  - injection Hs as <-. split; cbn; try done.
    intros t d H. apply lookup_stop_timer in H as [H _]. by eapply G3.
  - injection Hs as <-. split; cbn; try done. intros t d H. pose proof (G3 t d H). lia.
  - destruct (wtimers w !! t) as [[d|]|] eqn:E; try done. destruct (d <=? now w); [|done].
    injection Hs as <-. split; cbn; try done.
    + intros _. right. set_solver.
    + intros t' d' H. destruct (decide (t = t')) as [->|?]; simplify_map_eq. by eapply G3.
  - destruct (tasks w !! i) as [k|] eqn:Ei; cbn in Hs; [|done].
    destruct k; injection Hs as <-; split; cbn; try done.
    + intros t d H. apply lookup_stop_timer in H as [H _]. by eapply G3.
    + intros [?|?]%G2; [by left|right]. by eapply elem_of_delete_ne.
    + intros [?|?]%G2; [by left|right]. by eapply elem_of_delete_ne.
Qed.

Lemma exec_guarded M acts w w' :
  M <= 153722867 -> settings_within M acts -> exec acts w = Some w' ->
  guarded M w -> guarded M w'.
Proof.
  intros HM. revert w. induction acts as [|a acts IH]; intros w Ha; cbn; [by intros [= <-]|].
  apply Forall_cons in Ha as [H1 H2].
  destruct (step a w) as [w1|] eqn:E; cbn; [|done]. intros H G.
  eapply (IH w1); [done|done|]. eapply step_guarded; eauto. by repeat constructor.
Qed.

(** From a guarded world the runtime alone locks the session. *)
Lemma guarded_locks M w :
  guarded M w ->
  exists acts w', Forall internal acts /\ exec acts w = Some w' /\
    active (session w') = false /\ now w <= now w' <= now w + Z.max 0 (M * Minute).
Proof.
  intros [G1 G2 G3]. destruct (active (session w)) eqn:Hact.
  2: { exists [], w. split_and!; [constructor|done|done|lia|lia]. }
  assert (forall w1 i, tasks w1 !! i = Some TimerLock ->
    exists w', exec [RunTask i] w1 = Some w' /\ active (session w') = false /\ now w' = now w1) as Hrun.
  { intros w1 i Hi. cbn. rewrite Hi. cbn. by eexists. }
  destruct (G2 eq_refl) as [(d & t & Et & Hd) | [i Hi]%list_elem_of_lookup].
  - pose proof (G3 _ _ Hd) as Hb.
    set (w1 := mkWorld (session w) (wtimers w) (now w + Z.of_N (Z.to_N (d - now w))) (tasks w) (sent w)).
    set (w2 := mkWorld (session w) (<[t := None]> (wtimers w)) (now w1) (tasks w ++ [TimerLock]) (sent w)).
    destruct (Hrun w2 (length (tasks w))) as (w' & H1 & H2 & H3).
    { cbn. by rewrite list_lookup_middle. }
    exists [Tick (Z.to_N (d - now w)); Fire t; RunTask (length (tasks w))], w'.
    split; [by repeat constructor|]. split; [|split; [done|rewrite H3; cbn; lia]].
    cbn [exec step mbind option_bind] in *. cbn [wtimers]. rewrite Hd. cbn [now].
    rewrite (proj2 (Z.leb_le _ _)) by lia. cbn [mbind option_bind]. exact H1.
  - destruct (Hrun w i Hi) as (w' & ? & ? & E). exists [RunTask i], w'.
    split_and!; [by repeat constructor|done|done|lia|lia].
Qed.

(** ** Theorems *)

(** C20. A locked session keeps nothing. In every reachable world, whatever the
    interleaving of calls, timers and pending tasks, a session that is not
    active holds no handle and no timestamps, [ActiveHandle] and [MVKHandle]
    agree, and at most one timer is running, the session's own. *)
Theorem locked_session_clean w :
  reachable w ->
  (IsUnlocked (session w) = false ->
   MVKHandle (session w) = EmptyString /\ unlockedAt (session w) = time_zero /\
   lastActivity (session w) = time_zero) /\
  ActiveHandle (session w) = MVKHandle (session w) /\
  (forall t d, wtimers w !! t = Some (Some d) -> autoLockTimer (session w) = Some t).
Proof.
  intros [Hc Ht]%reachable_ok. split_and!; [done| |done].
  unfold ActiveHandle, MVKHandle. destruct (active (session w)) eqn:E; [done|].
  by destruct (Hc E) as [-> _].
Qed.

Lemma locked_session_clean_witness :
  exists w, exec [CallUnlock "mvk:1"; Tick 7; CallLock; RunTask 0] (init 5) = Some w /\
    ActiveHandle (session w) = MVKHandle (session w).
Proof.
  eexists. split; [by vm_compute|]. apply locked_session_clean.
  by exists 5, [CallUnlock "mvk:1"; Tick 7; CallLock; RunTask 0].
Defined.

(** Key handles do not leak into events. Two schedules that differ only in
    the handles given to [Unlock] run alike: both or neither can be executed,
    and then they send the same events and leave sessions that differ in the
    handle at most. *)
Theorem handle_noninterference acts1 acts2 t0 :
  erase_action <$> acts1 = erase_action <$> acts2 ->
  erase <$> exec acts1 (init t0) = erase <$> exec acts2 (init t0) /\
  sent <$> exec acts1 (init t0) = sent <$> exec acts2 (init t0).
Proof.
  intros E.
  assert (erase <$> exec acts1 (init t0) = erase <$> exec acts2 (init t0)) as H
    by (rewrite <- !exec_erase, E; done).
  split; [done|]. destruct (exec acts1 (init t0)), (exec acts2 (init t0)); try done.
  cbn in *. injection H. congruence.
Qed.

Lemma handle_noninterference_witness :
  sent <$> exec [CallSetDispatcher true; CallUnlock "mvk:a"; RunTask 0] (init 0)
  = sent <$> exec [CallSetDispatcher true; CallUnlock "mvk:b"; RunTask 0] (init 0).
Proof. by apply handle_noninterference. Defined.

(** C19. Inactivity locks the vault. While every auto-lock setting is positive
    and at most [M] minutes, from any reachable world the passing of time,
    timers and pending tasks alone can lock the session, within [M] minutes;
    an unlocked session always has its timer running or its lock pending. *)
Theorem auto_lock_always_armed M acts t0 w :
  15 <= M <= 153722867 -> settings_within M acts -> exec acts (init t0) = Some w ->
  (active (session w) = true -> (exists d, armed w d) \/ TimerLock ∈ tasks w) /\
  exists acts' w', Forall internal acts' /\ exec acts' w = Some w' /\
    active (session w') = false /\ now w <= now w' <= now w + M * Minute.
Proof.
  intros HM Ha H.
  assert (guarded M w) as G.
  { eapply (exec_guarded M acts (init t0)); [lia|done|done|]. by split; cbn; [lia| |]. }
  split; [apply G|].
  destruct (guarded_locks M w G) as (acts' & w' & ? & ? & ? & Hn).
  exists acts', w'. unfold Minute, Second in *. split_and!; try done; lia.
Qed.

Lemma auto_lock_always_armed_witness :
  exists w, exec [CallUnlock "mvk:a"; Tick 5; CallResetActivity] (init 0) = Some w /\
    exists acts' w', exec acts' w = Some w' /\ active (session w') = false.
Proof.
  eexists. split; [by vm_compute|].
  destruct (auto_lock_always_armed 15 [CallUnlock "mvk:a"; Tick 5; CallResetActivity] 0
    (mkWorld (mkSession true "mvk:a" 0 false 15 (Some 0%nat) 0)
       {[ 0%nat := Some (5 + 15 * Minute) ]} 5 [EmitReady] [])) as [_ (acts' & w' & _ & H1 & H2 & _)].
  - lia.
  - by repeat constructor.
  - by vm_compute.
  - exists acts', w'. by split.
Defined.

Lemma exec_app acts1 acts2 w : exec (acts1 ++ acts2) w = exec acts1 w ≫= exec acts2.
Proof.
  revert w. induction acts1 as [|a acts1 IH]; intros w; [done|]. cbn.
  destruct (step a w); cbn; [apply IH|done].
Qed.

Lemma exec_fire t d acts w :
  wtimers w !! t = Some (Some d) -> d <= now w ->
  exec (Fire t :: acts) w
  = exec acts (mkWorld (session w) (<[t := None]> (wtimers w)) (now w) (tasks w ++ [TimerLock]) (sent w)).
Proof. intros Ht Hd. cbn [exec step]. rewrite Ht, (proj2 (Z.leb_le _ _) Hd). done. Qed.

(** Setting the interval to 0 does not disable auto-lock. With an interval
    of 0 set after the session was unlocked, the next reported activity makes
    the running timer fire at once, and the session is locked with no time
    having passed. *)
Theorem zero_interval_locks_at_once h t0 :
  exists w, exec [CallUnlock h; CallSetAutoLockMinutes 0; CallResetActivity; Fire 0; RunTask 1]
    (init t0) = Some w /\ active (session w) = false /\ now w = t0.
Proof.
  eexists.
  change [CallUnlock h; CallSetAutoLockMinutes 0; CallResetActivity; Fire 0; RunTask 1]
    with ([CallUnlock h; CallSetAutoLockMinutes 0; CallResetActivity] ++ [Fire 0; RunTask 1]).
  rewrite exec_app.
  assert (exec [CallUnlock h; CallSetAutoLockMinutes 0; CallResetActivity] (init t0)
    = Some (mkWorld (mkSession true h t0 false 0 (Some 0%nat) t0) {[ 0%nat := Some (t0 + 0) ]} t0
        [EmitReady] [])) as -> by (by vm_compute).
  cbn [mbind option_bind]. rewrite (exec_fire 0 (t0 + 0)) by (done || (cbn; lia)).
  split; [reflexivity|done].
Qed.

(** A fired timer outlives its session. The lock of a timer that fired for
    one session is not cancelled by locking and unlocking again: it locks the
    new session, however recent. *)
Theorem stale_timer_locks_new_session h1 h2 t0 :
  exists w1 w2,
    exec [CallUnlock h1; Tick (Z.to_N (15 * Minute)); Fire 0; CallLock; CallUnlock h2] (init t0)
      = Some w1 /\
    active (session w1) = true /\ mvkHandle (session w1) = h2 /\ unlockedAt (session w1) = now w1 /\
    exec [RunTask 1] w1 = Some w2 /\ active (session w2) = false /\ now w2 = now w1.
Proof.
  set (wait := Z.to_N (15 * Minute)).
  assert (Z.of_N wait = 15 * Minute) as Hw by (by apply Z2N.id).
  clearbody wait. eexists _, _.
  change [CallUnlock h1; Tick wait; Fire 0; CallLock; CallUnlock h2]
    with ([CallUnlock h1; Tick wait] ++ [Fire 0; CallLock; CallUnlock h2]).
  rewrite exec_app.
  assert (exec [CallUnlock h1; Tick wait] (init t0)
    = Some (mkWorld (mkSession true h1 t0 false 15 (Some 0%nat) t0)
        {[ 0%nat := Some (t0 + 15 * Minute) ]} (t0 + Z.of_N wait) [EmitReady] [])) as ->
    by (by vm_compute).
  cbn [mbind option_bind]. rewrite (exec_fire 0 (t0 + 15 * Minute)) by (done || (cbn; lia)).
  split; [reflexivity|]. by split_and!.
Qed.
