(* ===== verification/Memory.v ===== *)
(** * Memory primitives ([engine/security/memguard.go], [constant_time.go])

    Byte buffers live in a heap, because the stores hand out slices of the
    buffers they later overwrite. [MemoryGuard] is the interface of the same
    name; its laws are what the stores rely on, and the Go-only guard of
    [mvk_store.go] satisfies them. A table maps keys to owned buffers; its
    lemmas serve every store of secrets. *)

From S2P Require Import Prelude GoStd Errors.

Abbreviation loc := nat.
Abbreviation heap := (gmap loc (list byte)).

(** [make([]byte, n)], with contents. *)
Definition alloc (b : list byte) (h : heap) : loc * heap :=
  let l := fresh (dom h) in (l, <[l := b]> h).

Lemma alloc_fresh b h l h' : alloc b h = (l, h') -> h !! l = None /\ h' = <[l := b]> h.
Proof.
  unfold alloc. intros [= <- <-]. split; [|done]. apply not_elem_of_dom, is_fresh.
Qed.

(** [for i := range b { b[i] = 0 }] *)
Definition zero_loop (b : list byte) : list byte :=
  foldl (fun b i => <[i := x00]> b) b (seq 0 (length b)).

Definition zeroize (l : loc) (h : heap) : heap := alter zero_loop l h.

Lemma zero_loop_zeros b : zero_loop b = zeros (length b).
Proof.
  unfold zero_loop.
  assert (forall n, (n <= length b)%nat ->
    foldl (fun b i => <[i := x00]> b) b (seq 0 n) = zeros n ++ drop n b) as H.
  { induction n as [|n IH]; intros Hn; [done|].
    rewrite seq_S, foldl_app, IH by lia. cbn [foldl Nat.add].
    destruct (lookup_lt_is_Some_2 b n) as [x Hx]; [lia|].
    rewrite (drop_S b x n Hx), insert_app_r_alt, length_zeros, Nat.sub_diag
      by (rewrite length_zeros; lia).
    cbn. unfold zeros. by rewrite app_comm_cons, replicate_cons_app, <- app_assoc. }
  rewrite H, drop_ge by lia. apply app_nil_r.
Qed.

Lemma zeroize_insert l h b : h !! l = Some b -> zeroize l h = <[l := zeros (length b)]> h.
Proof.
  intros Hb. unfold zeroize. apply map_eq. intros k. destruct (decide (k = l)) as [->|Hk].
  - by rewrite lookup_alter_eq, lookup_insert_eq, Hb, <- zero_loop_zeros.
  - by rewrite lookup_alter_ne, lookup_insert_ne by done.
Qed.

(** ** Constant-time comparison *)

(** The loop [for i := range a { v |= a[i] ^ b[i] }], with the indices it visits. *)
Fixpoint cte_loop (i : nat) (v : Z) (a b : list byte) : Z * list nat :=
  match a, b with
  | x :: a, y :: b =>
      let '(v, visited) := cte_loop (S i) (Z.lor v (Z.lxor (bz x) (bz y))) a b in
      (v, i :: visited)
  | _, _ => (v, [])
  end.

Definition constantTimeEqual (a b : list byte) : bool :=
  if negb (len a =? len b) then false
  else (cte_loop 0 0 a b).1 =? 0.

Lemma cte_loop_zero a b i v :
  0 <= v -> length a = length b -> (cte_loop i v a b).1 = 0 <-> v = 0 /\ a = b.
Proof.
  revert b i v. induction a as [|x a IH]; intros [|y b] i v Hv Hl; try done; cbn [cte_loop].
  { naive_solver. }
  pose proof (bz_range x). pose proof (bz_range y).
  assert (0 <= Z.lxor (bz x) (bz y)) as Hx by (apply Z.lxor_nonneg; lia).
  specialize (IH b (S i) (Z.lor v (Z.lxor (bz x) (bz y)))).
  destruct (cte_loop (S i) (Z.lor v (Z.lxor (bz x) (bz y))) a b) as [v' tr]. cbn in *.
  rewrite IH by (apply Z.lor_nonneg || injection Hl; lia || done).
  rewrite Z.lor_eq_0_iff, Z.lxor_eq_0_iff. split.
  - intros [[-> E] ->]. apply (inj bz) in E. by subst.
  - by intros [-> [= -> ->]].
Qed.

Lemma cte_loop_visits a b i v :
  length a = length b -> (cte_loop i v a b).2 = seq i (length a).
Proof.
  revert b i v. induction a as [|x a IH]; intros [|y b] i v Hl; try done. cbn in *.
  specialize (IH b (S i) (Z.lor v (Z.lxor (bz x) (bz y)))).
  destruct (cte_loop _ _ a b). cbn in *. by rewrite IH by lia.
Qed.

Lemma constantTimeEqual_iff a b : constantTimeEqual a b = true <-> a = b.
Proof.
  unfold constantTimeEqual. destruct (Z.eqb_spec (len a) (len b)) as [E|E]; cbn.
  - rewrite Z.eqb_eq, cte_loop_zero by (unfold len in E; lia). naive_solver.
  - split; [done|]. by intros ->.
Qed.

(** The comparison is exact and does not look at contents: it answers
    whether the slices are equal, and on slices of equal length its loop
    visits every index once, in order, whatever the bytes. *)
Theorem constantTimeEqual_correct a b :
  (constantTimeEqual a b = true <-> a = b) /\
  (len a = len b -> (cte_loop 0 0 a b).2 = seq 0 (length a)).
Proof.
  split; [apply constantTimeEqual_iff|]. intros E. apply cte_loop_visits. unfold len in E. lia.
Qed.

(** ** The interface *)

Class MemoryGuard := {
  mg_Lock : loc -> heap -> heap * option error;
  mg_Unlock : loc -> heap -> heap * option error;
  mg_Zeroize : loc -> heap -> heap;
  mg_CompareConstantTime : list byte -> list byte -> bool;
  mg_AllocLocked : nat -> heap -> res error (loc * heap)
}.

(** What the interface's comments promise: zeroed fresh memory from
    [AllocLocked], zeros after [Zeroize], contents untouched by [Unlock]. *)
Class MemoryGuardLaws (G : MemoryGuard) : Prop := {
  Zeroize_zeros l h b : h !! l = Some b -> mg_Zeroize l h = <[l := zeros (length b)]> h;
  Unlock_contents l h : (mg_Unlock l h).1 = h;
  AllocLocked_zeroed n h l h' :
    mg_AllocLocked n h = Ret (l, h') -> h !! l = None /\ h' = <[l := zeros n]> h;
  AllocLocked_no_panic n h : mg_AllocLocked n h <> Panic;
  Compare_equal a b : mg_CompareConstantTime a b = true <-> a = b
}.

Definition goMemoryGuard : MemoryGuard := {|
  mg_Lock _ h := (h, None);
  mg_Unlock _ h := (h, None);
  mg_Zeroize := zeroize;
  mg_CompareConstantTime := constantTimeEqual;
  mg_AllocLocked n h := Ret (alloc (zeros n) h)
|}.

#[export] Instance goMemoryGuard_laws : MemoryGuardLaws goMemoryGuard.
Proof.
  split.
  - intros l h b. apply zeroize_insert.
  - done.
  - intros n h l h' E%Ret_inj. by apply alloc_fresh in E.
  - done.
  - apply constantTimeEqual_iff.
Qed.

(** ** Tables of owned buffers *)

Abbreviation table := (gmap string loc).

(** The secrets [m] a table holds, and that its buffers are not shared. *)
Record table_ok (h : heap) (t : table) (m : gmap string (list byte)) : Prop := {
  to_lookup k : m !! k = t !! k ≫= (h !!.);
  to_alloc k l : t !! k = Some l -> is_Some (h !! l);
  to_inj k1 k2 l : t !! k1 = Some l -> t !! k2 = Some l -> k1 = k2
}.

(** Every buffer of [A] is still owned by the table or is all zeros. *)
Definition clean (h : heap) (t : table) (A : list loc) : Prop :=
  Forall (fun l => (exists k, t !! k = Some l) /\ is_Some (h !! l) \/ exists n, h !! l = Some (zeros n)) A.

Lemma table_ok_empty h : table_ok h ∅ ∅.
Proof. split; intros *; by rewrite ?lookup_empty. Qed.

Lemma table_ok_None h t m k : table_ok h t m -> m !! k = None <-> t !! k = None.
Proof.
  intros [Hl Ha _]. rewrite Hl. destruct (t !! k) as [l|] eqn:E; cbn; [|done].
  destruct (Ha k l E) as [b ->]. done.
Qed.

Lemma table_ok_alloc h t m l b :
  h !! l = None -> table_ok h t m -> table_ok (<[l := b]> h) t m.
Proof.
  intros Hf [Hl Ha Hi]. split; [| |done].
  - intros k. rewrite Hl. destruct (t !! k) as [l'|] eqn:E; cbn; [|done].
    destruct (Ha k l' E) as [b' Hb]. assert (l <> l') by congruence. by rewrite lookup_insert_ne.
  - intros k l' E. destruct (Ha k l' E) as [b' Hb]. assert (l <> l') by congruence.
    by rewrite lookup_insert_ne.
Qed.

Lemma table_ok_insert h t m k l b :
  h !! l = None -> table_ok h t m ->
  table_ok (<[l := b]> h) (<[k := l]> t) (<[k := b]> m).
Proof.
  intros Hf Hok. pose proof (table_ok_alloc h t m l b Hf Hok) as [Hl Ha Hi].
  assert (forall k, t !! k <> Some l) as Hno
    by (intros k' E; destruct (to_alloc _ _ _ Hok k' l E); congruence).
  split.
  - intros k'. destruct (decide (k = k')) as [->|?].
    + rewrite !lookup_insert_eq. cbn. by rewrite lookup_insert_eq.
    + rewrite !lookup_insert_ne by done. apply Hl.
  - intros k' l'. destruct (decide (k = k')) as [->|?].
    + rewrite lookup_insert_eq. intros [= <-]. by rewrite lookup_insert_eq.
    + rewrite lookup_insert_ne by done. apply Ha.
  - intros k1 k2 l'. destruct (decide (k1 = k)) as [->|?], (decide (k2 = k)) as [->|?];
      rewrite ?lookup_insert_eq, ?lookup_insert_ne by done; try done; try naive_solver.
Qed.

Lemma table_ok_remove h t m k l b :
  t !! k = Some l -> table_ok h t m -> table_ok (<[l := b]> h) (delete k t) (delete k m).
Proof.
  intros Hk [Hl Ha Hi]. split.
  - intros k'. destruct (decide (k = k')) as [->|?]; [by rewrite !lookup_delete_eq|].
    rewrite !lookup_delete_ne, Hl by done. destruct (t !! k') as [l'|] eqn:E; cbn; [|done].
    rewrite lookup_insert_ne; [done|]. intros ->. by apply n, (Hi k k' l').
  - intros k' l' [_ E]%lookup_delete_Some. destruct (decide (l = l')) as [->|?].
    + by rewrite lookup_insert_eq.
    + rewrite lookup_insert_ne by done. by eapply Ha.
  - intros k1 k2 l' [_ E1]%lookup_delete_Some [_ E2]%lookup_delete_Some. by eapply Hi.
Qed.

Lemma clean_alloc h t A l b : h !! l = None -> clean h t A -> clean (<[l := b]> h) t A.
Proof.
  intros Hf HA. eapply Forall_impl; [exact HA|]. cbn. intros l' H. assert (l <> l') by (destruct H as [[_ []]|[]]; congruence).
  rewrite lookup_insert_ne by done. exact H.
Qed.

Lemma clean_insert h t A k l b :
  h !! l = None -> t !! k = None -> clean h t A ->
  clean (<[l := b]> h) (<[k := l]> t) (l :: A).
Proof.
  intros Hf Hk HA. constructor.
  - left. split; [exists k|]; by rewrite lookup_insert_eq.
  - apply (clean_alloc _ _ _ l b) in HA; [|done]. eapply Forall_impl; [exact HA|].
    intros l' [[[k' E] ?]|?]; [left|by right]. split; [|done]. exists k'.
    rewrite lookup_insert_ne by congruence. done.
Qed.

Lemma clean_remove h t A k l n :
  t !! k = Some l -> clean h t A -> clean (<[l := zeros n]> h) (delete k t) A.
Proof.
  intros Hk HA. eapply Forall_impl; [exact HA|]. cbn. intros l' H. destruct (decide (l = l')) as [->|?].
  { right. exists n. by rewrite lookup_insert_eq. }
  rewrite lookup_insert_ne by done. destruct H as [[[k' E] ?]|?]; [left|by right].
  split; [|done]. exists k'. rewrite lookup_delete_ne by congruence. done.
Qed.

(** Nothing owned any more: everything is zeros. *)
Lemma clean_empty h A : clean h ∅ A -> Forall (fun l => exists n, h !! l = Some (zeros n)) A.
Proof.
  intros HA. eapply Forall_impl; [exact HA|]. cbn. intros l [[[k E] _]|H]; [|done]. by rewrite lookup_empty in E.
Qed.

(** Zeroing and dropping one slot of a table. *)
Section Zeroing.
Context {G : MemoryGuard} {L : MemoryGuardLaws G}.

Definition drop_slot (k : string) (l : loc) (st : heap * table) : heap * table :=
  let '(h, t) := st in ((mg_Unlock l (mg_Zeroize l h)).1, delete k t).

Lemma drop_slot_ok h t m A k l :
  t !! k = Some l -> table_ok h t m -> clean h t A ->
  table_ok (drop_slot k l (h, t)).1 (drop_slot k l (h, t)).2 (delete k m) /\
  clean (drop_slot k l (h, t)).1 (drop_slot k l (h, t)).2 A.
Proof using L.
  intros Hk Hok HA. cbn. destruct (to_alloc _ _ _ Hok k l Hk) as [b Hb].
  rewrite Unlock_contents, (Zeroize_zeros _ _ b Hb). split.
  - by apply table_ok_remove.
  - by apply clean_remove.
Qed.

(** The loop [for k, buf := range slots { zeroize(buf); delete(slots, k) }]. *)
Definition drop_slots (order : list (string * loc)) (st : heap * table) : heap * table :=
  foldl (fun st '(k, l) => drop_slot k l st) st order.

Lemma drop_slots_ok order h t m A :
  NoDup order.*1 -> (forall k l, (k, l) ∈ order -> t !! k = Some l) ->
  table_ok h t m -> clean h t A ->
  let '(h', t') := drop_slots order (h, t) in
  table_ok h' t' (foldl (fun m '(k, _) => delete k m) m order) /\ clean h' t' A /\
  t' = foldl (fun t '(k, _) => delete k t) t order.
Proof using L.
  revert h t m. induction order as [|[k l] order IH]; intros h t m Hnd Hin Hok HA; [done|].
  cbn [drop_slots foldl]. apply NoDup_cons in Hnd as [Hk Hnd].
  destruct (drop_slot_ok h t m A k l) as [H1 H2]; [apply Hin; by left|done|done|].
  specialize (IH (drop_slot k l (h, t)).1 (drop_slot k l (h, t)).2 (delete k m) Hnd).
  cbn [drop_slot fst snd] in *. apply IH; [|done|done].
  intros k' l' H. rewrite lookup_delete_ne; [apply Hin; by right|].
  intros ->. apply Hk. apply list_elem_of_fmap. by exists (k', l').
Qed.

Lemma foldl_delete_all {V W} (m : gmap string V) (order : list (string * W)) :
  (forall k, is_Some (m !! k) -> k ∈ order.*1) ->
  foldl (fun m '(k, _) => delete k m) m order = ∅.
Proof using Type.
  revert m. induction order as [|[k w] order IH]; intros m H; cbn.
  - apply map_empty. intros k. destruct (m !! k) eqn:E; [|done].
    exfalso. assert (is_Some (m !! k)) as Hs by eauto. apply H in Hs. by apply elem_of_nil in Hs.
  - apply IH. intros k' [v [Hne E]%lookup_delete_Some].
    assert (is_Some (m !! k')) as Hs by eauto. apply H in Hs. cbn in Hs.
    apply elem_of_cons in Hs as [->|?]; done.
Qed.

(** Over the whole table, in any order, the loop leaves an empty table and
    only zeros behind. *)
Lemma drop_all order h t m A :
  order ≡ₚ map_to_list t -> table_ok h t m -> clean h t A ->
  (drop_slots order (h, t)).2 = ∅ /\
  Forall (fun l => exists n, (drop_slots order (h, t)).1 !! l = Some (zeros n)) A /\
  table_ok (drop_slots order (h, t)).1 ∅ ∅.
Proof using L.
  intros Ho Hok HA.
  pose proof (drop_slots_ok order h t m A) as H.
  destruct (drop_slots order (h, t)) as [h' t']. cbn [fst snd].
  destruct H as (Hok' & HA' & ->).
  - rewrite Ho. apply NoDup_fst_map_to_list.
  - intros k l Hkl. rewrite Ho in Hkl. by apply elem_of_map_to_list.
  - done.
  - done.
  - assert (foldl (fun t '(k, _) => delete k t) t order = ∅) as E.
    { apply foldl_delete_all. intros k [l Hl]. rewrite Ho. apply list_elem_of_fmap.
      exists (k, l). by rewrite elem_of_map_to_list. }
    rewrite E in *. split_and!; [done|by apply clean_empty|apply table_ok_empty].
Qed.
End Zeroing.
