(* ===== verification/SecretStores.v ===== *)
(** * Stores of key material ([engine/security/mvk_store.go], [secret_guard.go])

    Both keep a table from random names to buffers they own. A store is its
    table together with the heap its buffers live in; slices returned to the
    caller are locations of that heap. What [rand.Read] gives, an error or the
    bytes it filled in, is an argument. *)

From S2P Require Import Prelude GoStd Errors Memory.

Definition state : Type := heap * table.
Definition rand : Type := error + list byte.

(** ** [lockedMVKStore] *)

Definition randomHandle (rnd : rand) : res error string :=
  match rnd with
  | inr b => Ret (hex_string b)
  | inl _ => Panic
  end.

Section MVKStore.
Context {G : MemoryGuard}.
(** Clock and stack of the errors. *)
Context (stamp : Z) (frames : list StackFrame).

Definition NewLockedMVKStore : table := ∅.

Definition MVK_Store (key : list byte) (rnd : rand) (st : state)
    : res error (state * string) :=
  let '(h, t) := st in
  '(locked, h) ← map_err (fun e => Grim (NewSecurityMemlockError stamp frames (Some e)))
                   (mg_AllocLocked (length key) h);
  buf ← copy_at 0 key (default [] (h !! locked));
  let h := <[locked := buf]> h in
  handle ← randomHandle rnd;
  Ret ((h, <[handle := locked]> t), handle).

Definition MVK_Retrieve (handle : string) (st : state) : option loc := st.2 !! handle.

Definition MVK_Revoke (handle : string) (st : state) : state :=
  match st.2 !! handle with
  | Some key => drop_slot handle key st
  | None => st
  end.

(** [order] is the order in which the loops over the map visit it. *)
Definition MVK_RevokeAll (order : list (string * loc)) (st : state) : state :=
  drop_slots order st.

Definition MVK_Handles (order : list (string * loc)) : list string := order.*1.
End MVKStore.

(** ** [SecretGuard] *)

Definition NewSecretGuard : table := ∅.

Definition SG_Store (secret : list byte) (rnd : rand) (st : state)
    : res error (state * string) :=
  let '(h, t) := st in
  match rnd with
  | inl err => Err err
  | inr raw =>
      let token := hex_string raw in
      let '(buf, h) := alloc (zeros (length secret)) h in
      b ← copy_at 0 secret (default [] (h !! buf));
      Ret ((<[buf := b]> h, <[token := buf]> t), token)
  end.

Definition SG_Retrieve (token : string) (st : state) : res error (state * option loc) :=
  let '(h, t) := st in
  match t !! token with
  | None => Ret (st, None)
  | Some buf =>
      let contents := default [] (h !! buf) in
      let '(out, h) := alloc (zeros (length contents)) h in
      b ← copy_at 0 contents (default [] (h !! out));
      let h := zeroize buf (<[out := b]> h) in
      Ret ((h, delete token t), Some out)
  end.

Definition SG_Wipe (token : string) (st : state) : state :=
  let '(h, t) := st in
  match t !! token with
  | Some buf => (zeroize buf h, delete token t)
  | None => st
  end.

Definition SG_WipeAll (order : list (string * loc)) (st : state) : state :=
  foldl (fun '(h, t) '(token, buf) => (zeroize buf h, delete token t)) st order.

Definition SG_Count (st : state) : Z := Z.of_nat (size st.2).

(** ** Lemmas on the operations *)

Lemma alloc_copy (h : heap) l n (b : list byte) :
  length b = n -> copy_at (E := error) 0 b (default [] (<[l := zeros n]> h !! l)) = Ret b.
Proof.
  intros Hn. rewrite lookup_insert_eq. cbn [from_option id default].
  apply copy_at_fresh. by rewrite length_zeros.
Qed.

Section MVKLemmas.
Context {G : MemoryGuard} {L : MemoryGuardLaws G}.
Context (stamp : Z) (frames : list StackFrame).

Lemma MVK_Store_cases key rnd h t :
  (exists e, MVK_Store stamp frames key rnd (h, t) = Err e) \/
  ((exists e, rnd = inl e) /\ MVK_Store stamp frames key rnd (h, t) = Panic) \/
  (exists b l, rnd = inr b /\ h !! l = None /\
    MVK_Store stamp frames key rnd (h, t)
    = Ret ((<[l := key]> h, <[hex_string b := l]> t), hex_string b)).
Proof using L.
  unfold MVK_Store. destruct (mg_AllocLocked (length key) h) as [[l h']|e|] eqn:E.
  - apply AllocLocked_zeroed in E as [Hl ->]. cbn [map_err mbind res_bind].
    rewrite alloc_copy by done. cbn [mbind res_bind]. rewrite insert_insert_eq.
    destruct rnd as [e|b]; cbn; [right; left; by eauto|right; right]. by exists b, l.
  - left. by eexists.
  - by destruct (AllocLocked_no_panic (length key) h).
Qed.

Lemma MVK_Revoke_ok handle h t m A :
  table_ok h t m -> clean h t A ->
  let '(h', t') := MVK_Revoke handle (h, t) in
  table_ok h' t' (delete handle m) /\ clean h' t' A /\ t' = delete handle t.
Proof using L.
  intros Hok HA. unfold MVK_Revoke. cbn [snd]. destruct (t !! handle) as [l|] eqn:E.
  - destruct (drop_slot_ok h t m A handle l E Hok HA) as [H1 H2]. by cbn in *.
  - rewrite !delete_id; [done|done|by apply (table_ok_None h t m)].
Qed.
End MVKLemmas.

(** The guard's own zeroing loop is the Go-only guard's. *)
Lemma SG_WipeAll_drop order st :
  SG_WipeAll order st = drop_slots (G := goMemoryGuard) order st.
Proof.
  revert st. induction order as [|[k l] order IH]; intros [h t]; [done|]. apply IH.
Qed.

Lemma SG_Wipe_Revoke token st :
  SG_Wipe token st = MVK_Revoke (G := goMemoryGuard) token st.
Proof. destruct st as [h t]. unfold SG_Wipe, MVK_Revoke. cbn. by destruct (t !! token). Qed.

Lemma SG_Store_cases secret rnd h t :
  (exists e, rnd = inl e /\ SG_Store secret rnd (h, t) = Err e) \/
  (exists b l, rnd = inr b /\ h !! l = None /\
    SG_Store secret rnd (h, t)
    = Ret ((<[l := secret]> h, <[hex_string b := l]> t), hex_string b)).
Proof.
  unfold SG_Store. destruct rnd as [e|b]; [left; by exists e|right].
  destruct (alloc (zeros (length secret)) h) as [l h'] eqn:E.
  apply alloc_fresh in E as [Hl ->]. exists b, l. split_and!; [done|done|].
  rewrite alloc_copy by done. cbn. by rewrite insert_insert_eq.
Qed.

(** A retrieval copies the secret into a buffer of the caller's and zeroes
    the slot's buffer. *)
Lemma SG_Retrieve_some token h t m l :
  table_ok h t m -> t !! token = Some l ->
  exists b out, h !! l = Some b /\ h !! out = None /\ out <> l /\
    SG_Retrieve token (h, t)
    = Ret ((<[l := zeros (length b)]> (<[out := b]> h), delete token t), Some out).
Proof.
  intros Hok Ht. destruct (to_alloc _ _ _ Hok token l Ht) as [b Hb].
  unfold SG_Retrieve. rewrite Ht, Hb. cbn [default from_option id].
  destruct (alloc (zeros (length b)) h) as [out h'] eqn:E.
  apply alloc_fresh in E as [Ho ->]. exists b, out.
  assert (out <> l) by congruence. split_and!; try done.
  rewrite alloc_copy by done. cbn [mbind res_bind]. rewrite insert_insert_eq.
  do 3 f_equal. apply zeroize_insert. by rewrite lookup_insert_ne.
Qed.

(** ** Traces

    A trace also keeps the secrets that were stored under the names handed
    out ([g_secrets]) and every buffer the store ever allocated ([g_buffers]). *)

Record ghost := mkGhost {
  g_state : state;
  g_secrets : gmap string (list byte);
  g_buffers : list loc
}.

Inductive call :=
| Store (secret : list byte) (rnd : rand)
| Retrieve (name : string)
| Drop (name : string)
| DropAll.

(** The random bytes a trace draws. *)
Definition draws (cs : list call) : list (list byte) :=
  omap (fun c => match c with Store _ (inr b) => Some b | _ => None end) cs.

(** A successful [Store] that returned [name]. *)
Definition stored (secret : list byte) (r : res error (state * string)) (g : ghost) : option ghost :=
  match r with
  | Ret (st, name) =>
      Some (mkGhost st (<[name := secret]> (g_secrets g)) (option_list (st.2 !! name) ++ g_buffers g))
  | Err _ => Some g
  | Panic => None
  end.

Section Traces.
Context {G : MemoryGuard} {L : MemoryGuardLaws G}.
Context (stamp : Z) (frames : list StackFrame).
(** The order in which a loop over the table visits it. *)
Context (iter : table -> list (string * loc)) (iter_order : forall t, iter t ≡ₚ map_to_list t).

Definition mvk_step (c : call) (g : ghost) : option ghost :=
  let st := g_state g in
  match c with
  | Store key rnd => stored key (MVK_Store stamp frames key rnd st) g
  | Retrieve _ => Some g
  | Drop handle => Some (mkGhost (MVK_Revoke handle st) (delete handle (g_secrets g)) (g_buffers g))
  | DropAll => Some (mkGhost (MVK_RevokeAll (iter st.2) st) ∅ (g_buffers g))
  end.

Definition sg_step (c : call) (g : ghost) : option ghost :=
  let st := g_state g in
  match c with
  | Store secret rnd => stored secret (SG_Store secret rnd st) g
  | Retrieve token =>
      match SG_Retrieve token st with
      | Ret (st, _) => Some (mkGhost st (delete token (g_secrets g)) (g_buffers g))
      | _ => None
      end
  | Drop token => Some (mkGhost (SG_Wipe token st) (delete token (g_secrets g)) (g_buffers g))
  | DropAll => Some (mkGhost (SG_WipeAll (iter st.2) st) ∅ (g_buffers g))
  end.

Fixpoint trace (step : call -> ghost -> option ghost) (cs : list call) (g : ghost) : option ghost :=
  match cs with
  | [] => Some g
  | c :: cs => g ← step c g; trace step cs g
  end.

(** A fresh store in any heap. *)
Definition start (h : heap) : ghost := mkGhost (h, ∅) ∅ [].

(** The table holds the secrets, other buffers are zeros, and the names in
    use were drawn among [D]. *)
Record stored_ok (D : list (list byte)) (g : ghost) : Prop := {
  so_table : table_ok (g_state g).1 (g_state g).2 (g_secrets g);
  so_clean : clean (g_state g).1 (g_state g).2 (g_buffers g);
  so_drawn k : is_Some ((g_state g).2 !! k) -> k ∈ hex_string <$> D
}.

Lemma stored_ok_store D g b l secret r :
  stored_ok D g -> b ∉ D -> (g_state g).1 !! l = None ->
  r = Ret ((<[l := secret]> (g_state g).1, <[hex_string b := l]> (g_state g).2), hex_string b) ->
  exists g', stored secret r g = Some g' /\ stored_ok (D ++ [b]) g'.
Proof using Type.
  intros [H1 H2 H3] Hb Hl ->. eexists; split; [reflexivity|].
  assert ((g_state g).2 !! hex_string b = None) as Hn.
  { apply eq_None_not_Some. intros (b' & E & Hb')%H3%list_elem_of_fmap.
    apply (inj hex_string) in E. by subst. }
  cbn [snd]. rewrite lookup_insert_eq. cbn [option_list app]. split; cbn [g_state g_secrets g_buffers fst snd].
  - by apply table_ok_insert.
  - by apply clean_insert.
  - intros k Hk. rewrite fmap_app, elem_of_app. cbn.
    destruct (decide (k = hex_string b)) as [->|?]; [right; by left|left].
    rewrite lookup_insert_ne in Hk by done. by apply H3.
Qed.

Lemma stored_ok_weaken D D' g : stored_ok D g -> stored_ok (D ++ D') g.
Proof using Type.
  intros [H1 H2 H3]. split; [done|done|]. intros k Hk. rewrite fmap_app. apply elem_of_app. auto.
Qed.

Lemma stored_ok_drop_all D g :
  stored_ok D g ->
  let st := drop_slots (iter (g_state g).2) (g_state g) in
  stored_ok D (mkGhost st ∅ (g_buffers g)) /\ st.2 = ∅ /\
  Forall (fun l => exists n, st.1 !! l = Some (zeros n)) (g_buffers g).
Proof using L iter_order.
  intros [H1 H2 H3]. destruct (g_state g) as [h t]. cbn [fst snd] in *.
  destruct (drop_all (iter t) h t (g_secrets g) (g_buffers g)) as (E & HF & Hok); try done.
  cbv zeta. split; [|done]. destruct (drop_slots (iter t) (h, t)) as [h' t']. cbn in *. subst t'.
  split; cbn; [done| |].
  - eapply Forall_impl; [exact HF|]. cbn. auto.
  - intros k [? Hk]. by rewrite lookup_empty in Hk.
Qed.

Lemma stored_ok_drop D g name :
  stored_ok D g ->
  stored_ok D (mkGhost (MVK_Revoke name (g_state g)) (delete name (g_secrets g)) (g_buffers g)).
Proof using L.
  intros [H1 H2 H3]. destruct (g_state g) as [h t]. cbn [fst snd] in *.
  pose proof (MVK_Revoke_ok name h t (g_secrets g) (g_buffers g) H1 H2) as H.
  destruct (MVK_Revoke name (h, t)) as [h' t']. destruct H as (? & ? & ->).
  split; cbn; [done|done|]. intros k [l [_ Hk]%lookup_delete_Some]. apply H3. by exists l.
Qed.

(** A trace whose draws are distinct keeps the invariant. *)
Lemma trace_ok (step : call -> ghost -> option ghost) :
  (forall D c g g', step c g = Some g' -> stored_ok D g -> NoDup (D ++ draws [c]) ->
     stored_ok (D ++ draws [c]) g') ->
  forall cs g g' D, trace step cs g = Some g' -> stored_ok D g -> NoDup (D ++ draws cs) ->
    stored_ok (D ++ draws cs) g'.
Proof using Type.
  intros Hstep cs. induction cs as [|c cs IH]; intros g g' D; cbn [trace].
  - intros [= <-]. unfold draws. cbn. by rewrite app_nil_r.
  - destruct (step c g) as [g1|] eqn:E; cbn [mbind option_bind]; [|done].
    change (c :: cs) with ([c] ++ cs). unfold draws. rewrite omap_app. fold (draws [c]) (draws cs).
    rewrite app_assoc. intros H Hok Hnd. eapply IH; [exact H| |done].
    eapply Hstep; [exact E|done|]. by apply NoDup_app in Hnd as [? _].
Qed.

Lemma mvk_step_ok D c g g' :
  mvk_step c g = Some g' -> stored_ok D g -> NoDup (D ++ draws [c]) -> stored_ok (D ++ draws [c]) g'.
Proof using L iter_order.
  intros Hs Hok Hnd. destruct c as [key rnd|name|name|]; cbn [mvk_step] in Hs.
  - destruct (g_state g) as [h t] eqn:Eg.
    destruct (MVK_Store_cases stamp frames key rnd h t) as [[e E]|[[_ E]|(b & l & -> & Hl & E)]];
      rewrite E in Hs; [| done|].
    + injection Hs as <-. by apply stored_ok_weaken.
    + destruct (stored_ok_store D g b l key (Ret ((<[l := key]> h, <[hex_string b := l]> t), hex_string b)))
        as (g2 & E2 & Hok2); rewrite ?Eg; try done.
      * apply NoDup_app in Hnd as (_ & Hnd & _). intros Hb. apply (Hnd b Hb). by left.
      * rewrite Hs in E2. by injection E2 as <-.
  - injection Hs as <-. by apply stored_ok_weaken.
  - injection Hs as <-. by apply stored_ok_weaken, stored_ok_drop.
  - injection Hs as <-. by apply stored_ok_weaken, stored_ok_drop_all.
Qed.

Lemma start_ok h : stored_ok [] (start h).
Proof using Type.
  split; cbn; [apply table_ok_empty|constructor|]. intros k [? Hk]. by rewrite lookup_empty in Hk.
Qed.

Lemma Retrieve_contents D g name :
  stored_ok D g ->
  MVK_Retrieve name (g_state g) ≫= ((g_state g).1 !!.) = g_secrets g !! name.
Proof using Type. intros [[Hl _ _] _ _]. symmetry. apply Hl. Qed.

(** C24. The key store keeps keys and forgets them. Over any law-abiding memory
    guard, after any trace of stores, retrievals and revocations whose random
    handles are distinct: a handle's slice holds exactly the key stored under
    it, and nothing once it is revoked; every buffer the store ever allocated
    is still owned by a live handle or is all zeros, so a slice retrieved
    before a revocation reads zeros after it; and [RevokeAll] leaves no handle
    and only zeros. *)
Theorem mvk_store_no_residue h0 cs g :
  trace mvk_step cs (start h0) = Some g -> NoDup (draws cs) ->
  (forall handle, MVK_Retrieve handle (g_state g) ≫= ((g_state g).1 !!.) = g_secrets g !! handle) /\
  clean (g_state g).1 (g_state g).2 (g_buffers g) /\
  let st := MVK_RevokeAll (iter (g_state g).2) (g_state g) in
  st.2 = ∅ /\ Forall (fun l => exists n, st.1 !! l = Some (zeros n)) (g_buffers g).
Proof using L iter_order.
  intros H Hnd.
  assert (stored_ok ([] ++ draws cs) g) as Hok.
  { eapply trace_ok; [apply mvk_step_ok|exact H|apply start_ok|done]. }
  split_and!.
  - intros handle. by eapply Retrieve_contents.
  - apply Hok.
  - by apply (stored_ok_drop_all ([] ++ draws cs) g).
Qed.
End Traces.

Section SecretGuardTraces.
Context (iter : table -> list (string * loc)) (iter_order : forall t, iter t ≡ₚ map_to_list t).

Lemma sg_step_ok D c g g' :
  sg_step iter c g = Some g' -> stored_ok D g -> NoDup (D ++ draws [c]) ->
  stored_ok (D ++ draws [c]) g'.
Proof using iter_order.
  intros Hs Hok Hnd. destruct c as [secret rnd|name|name|]; cbn [sg_step] in Hs.
  - destruct (g_state g) as [h t] eqn:Eg.
    destruct (SG_Store_cases secret rnd h t) as [(e & -> & E)|(b & l & -> & Hl & E)]; rewrite E in Hs.
    + injection Hs as <-. by apply stored_ok_weaken.
    + destruct (stored_ok_store D g b l secret
        (Ret ((<[l := secret]> h, <[hex_string b := l]> t), hex_string b)))
        as (g2 & E2 & Hok2); rewrite ?Eg; try done.
      * apply NoDup_app in Hnd as (_ & Hnd & _). intros Hb. apply (Hnd b Hb). by left.
      * rewrite Hs in E2. by injection E2 as <-.
  - apply stored_ok_weaken. destruct Hok as [H1 H2 H3]. destruct (g_state g) as [h t]; cbn [fst snd] in *.
    destruct (t !! name) as [l|] eqn:Et.
    + destruct (SG_Retrieve_some name h t _ l H1 Et) as (b & out & Hb & Ho & Hne & E).
      rewrite E in Hs. injection Hs as <-. split; cbn.
      * apply table_ok_remove; [done|]. by apply table_ok_alloc.
      * apply clean_remove; [done|]. by apply clean_alloc.
      * intros k [l' [_ Hk]%lookup_delete_Some]. apply H3. by exists l'.
    + unfold SG_Retrieve in Hs. rewrite Et in Hs. injection Hs as <-.
      rewrite delete_id by (by apply (table_ok_None h t)). by split.
  - injection Hs as <-. rewrite SG_Wipe_Revoke. by apply stored_ok_weaken, stored_ok_drop.
  - injection Hs as <-. rewrite SG_WipeAll_drop. apply stored_ok_weaken.
    by apply (stored_ok_drop_all (G := goMemoryGuard)).
Qed.

(** C25. A guarded secret can be taken once and is then gone. After any trace of
    the secret guard whose random tokens are distinct, retrieving a live token
    gives a fresh buffer with exactly the stored secret, turns the guard's own
    buffer into zeros and frees the token, so a second retrieval finds
    nothing; and every buffer the guard ever allocated is owned by a live
    token or is all zeros, all of them after [WipeAll]. *)
Theorem secret_guard_single_use h0 cs g :
  trace (sg_step iter) cs (start h0) = Some g -> NoDup (draws cs) ->
  let '(h, t) := g_state g in
  (forall token l, t !! token = Some l ->
     exists st out secret n, SG_Retrieve token (h, t) = Ret (st, Some out) /\
       g_secrets g !! token = Some secret /\ h !! out = None /\ st.1 !! out = Some secret /\
       st.1 !! l = Some (zeros n) /\ SG_Retrieve token st = Ret (st, None)) /\
  (forall token, t !! token = None -> SG_Retrieve token (h, t) = Ret ((h, t), None)) /\
  clean h t (g_buffers g) /\
  (SG_WipeAll (iter t) (h, t)).2 = ∅ /\
  Forall (fun l => exists n, (SG_WipeAll (iter t) (h, t)).1 !! l = Some (zeros n)) (g_buffers g).
Proof using iter_order.
  intros H Hnd.
  assert (stored_ok ([] ++ draws cs) g) as Hok
    by (eapply trace_ok; [apply sg_step_ok|exact H|apply start_ok|done]).
  pose proof (stored_ok_drop_all (G := goMemoryGuard) iter iter_order _ _ Hok) as (_ & E & HF).
  destruct Hok as [H1 H2 _]. destruct (g_state g) as [h t]. cbn [fst snd] in *.
  rewrite SG_WipeAll_drop. split_and!; try done.
  - intros token l Ht.
    destruct (SG_Retrieve_some token h t _ l H1 Ht) as (b & out & Hb & Ho & Hne & ->).
    eexists _, out, b, (length b). split; [reflexivity|]. cbn [fst].
    split_and!; [|done|by rewrite lookup_insert_ne, lookup_insert_eq by done|by rewrite lookup_insert_eq|].
    + rewrite (to_lookup _ _ _ H1), Ht. done.
    + unfold SG_Retrieve. by rewrite lookup_delete_eq.
  - intros token Ht. unfold SG_Retrieve. by rewrite Ht.
Qed.
End SecretGuardTraces.

Definition sample_trace : list call :=
  [Store [x01; x02] (inr [x0a]); Store [x03] (inr [x0b]); Retrieve "0a"; Drop "0b";
   Store [x04] (inr [x0c])].

Lemma mvk_store_no_residue_witness :
  exists g, trace (mvk_step (G := goMemoryGuard) 0 [] map_to_list) sample_trace (start ∅) = Some g /\
    (MVK_RevokeAll (G := goMemoryGuard) (map_to_list (g_state g).2) (g_state g)).2 = ∅ /\
    length (g_buffers g) = 3%nat.
Proof.
  destruct (trace (mvk_step (G := goMemoryGuard) 0 [] map_to_list) sample_trace (start ∅))
    as [g|] eqn:E; [|by vm_compute in E].
  exists g. split; [done|].
  destruct (mvk_store_no_residue (G := goMemoryGuard) 0 [] map_to_list (fun t => Permutation_refl _)
    ∅ sample_trace g E) as (_ & _ & H & _).
  - by apply (bool_decide_unpack _); vm_compute.
  - split; [exact H|]. vm_compute in E. injection E as <-. by vm_compute.
Defined.

Lemma secret_guard_single_use_witness :
  exists g, trace (sg_step map_to_list) sample_trace (start ∅) = Some g /\
    (SG_WipeAll (map_to_list (g_state g).2) (g_state g)).2 = ∅ /\ SG_Count (g_state g) = 1.
Proof.
  destruct (trace (sg_step map_to_list) sample_trace (start ∅)) as [g|] eqn:E; [|by vm_compute in E].
  exists g. split; [done|].
  pose proof (secret_guard_single_use map_to_list (fun t => Permutation_refl _) ∅ sample_trace g E) as H.
  assert (SG_Count (g_state g) = 1) as Hc by (vm_compute in E; injection E as <-; by vm_compute).
  split; [|exact Hc]. clear E Hc. destruct (g_state g) as [h t].
  destruct H as (_ & _ & _ & H & _); [by apply (bool_decide_unpack _); vm_compute|exact H].
Defined.
