(* ===== verification/Zkp.v ===== *)
(** * Challenge-response authentication ([engine/security/zkp.go])

    The verifier's two maps, its methods, the client's [ComputeProof] and the
    background cleanup. BLAKE2b and the random bytes are parameters; a method
    that reads the clock takes the reading. *)

From S2P Require Import Prelude GoStd.

Definition ZKPNonceSize : nat := 32.
Definition ZKPProofSize : nat := 32.
Definition zkpNonceTTL : Z := 5 * Minute.

Record ZKPVerifier := mkVerifier {
  pending : gmap string (list byte);
  expiries : gmap string Z
}.
Definition NewZKPVerifier : ZKPVerifier := mkVerifier ∅ ∅.

Record ZKPChallenge := mkChallenge { Nonce : string; ExpiresAt : Z }.

(** The bytes a [rand.Read] fills in, or its error. *)
Abbreviation rand := (msg + list byte)%type.

Section Zkp.
(** [blake2b.New256(nil)] over one input. *)
Context (blake2b256 : list byte -> list byte).

Definition IssueChallenge (id nonce : rand) (now : Z) (v : ZKPVerifier)
    : res msg (ZKPVerifier * (string * ZKPChallenge)) :=
  match id with
  | inl err => Err (Sprintf "nonce generation failed: %w" [AMsg err])
  | inr rawID =>
      let challengeID := hex_string rawID in
      match nonce with
      | inl err => Err (Sprintf "nonce generation failed: %w" [AMsg err])
      | inr nonce =>
          let expiry := time_Add now zkpNonceTTL in
          Ret (mkVerifier (<[challengeID := nonce]> (pending v))
                 (<[challengeID := expiry]> (expiries v)),
               (challengeID, mkChallenge (hex_string nonce) expiry))
      end
  end.

Definition ErrNotFound : msg := Lit "challenge not found or already consumed".
Definition ErrExpired : msg := Lit "challenge expired".
Definition ErrLength : msg := Lit "invalid proof or key length".
Definition ErrFailed : msg := Lit "proof verification failed".

Definition VerifyProof (challengeID : string) (derivedKey proof : list byte) (now : Z)
    (v : ZKPVerifier) : ZKPVerifier * res msg unit :=
  let nonce := pending v !! challengeID in
  let expiry := default time_zero (expiries v !! challengeID) in
  let v := mkVerifier (delete challengeID (pending v)) (delete challengeID (expiries v)) in
  (v,
   match nonce with
   | None => Err ErrNotFound
   | Some nonce =>
       _ ← check (time_After now expiry) ErrExpired;
       _ ← check (negb (len derivedKey =? Z.of_nat ZKPProofSize)
                  || negb (len proof =? Z.of_nat ZKPProofSize)) ErrLength;
       let nonceHash := blake2b256 nonce in
       expected ← xor_loop ZKPProofSize 0 derivedKey nonceHash;
       check (negb (bool_decide (expected = proof))) ErrFailed
   end).

Definition ComputeProof (derivedKey : list byte) (nonceHex : string) : res msg (list byte) :=
  match hex_decode (str_bytes nonceHex) with
  | None => Err (Lit "invalid nonce")
  | Some nonceBytes =>
      _ ← check (negb (len nonceBytes =? Z.of_nat ZKPNonceSize)) (Lit "invalid nonce");
      _ ← check (negb (len derivedKey =? Z.of_nat ZKPProofSize)) (Lit "invalid derived key length");
      let nonceHash := blake2b256 nonceBytes in
      xor_loop ZKPProofSize 0 derivedKey nonceHash
  end.

(** [order] is the order in which the loops over [expiries] visit it. *)
Fixpoint count_loop (now : Z) (order : list (string * Z)) (v : ZKPVerifier) : ZKPVerifier * Z :=
  match order with
  | [] => (v, 0)
  | (id, expiry) :: order =>
      if time_Before now expiry
      then let '(v, n) := count_loop now order v in (v, 1 + n)
      else count_loop now order (mkVerifier (delete id (pending v)) (delete id (expiries v)))
  end.

Definition PendingCount (now : Z) (order : list (string * Z)) (v : ZKPVerifier)
    : ZKPVerifier * Z := count_loop now order v.

(** One tick of [cleanupLoop]. *)
Definition cleanup (now : Z) (order : list (string * Z)) (v : ZKPVerifier) : ZKPVerifier :=
  foldl (fun v '(id, expiry) =>
    if time_After now expiry
    then mkVerifier (delete id (pending v)) (delete id (expiries v)) else v) v order.

(** ** Lemmas *)

Context (blake2b256_length : forall l, length (blake2b256 l) = 32%nat).

Lemma xor_32 (a nonce : list byte) :
  len a = 32 -> xor_loop (E := msg) ZKPProofSize 0 a (blake2b256 nonce) = Ret (xor_bytes a (blake2b256 nonce)).
Proof using blake2b256_length.
  intros Ha. apply xor_loop_all; [unfold len, ZKPProofSize in *; lia|apply blake2b256_length].
Qed.

Lemma VerifyProof_accepts_iff id key proof now v :
  (VerifyProof id key proof now v).2 = Ret tt <->
  exists nonce, pending v !! id = Some nonce /\
    now <= default time_zero (expiries v !! id) /\ len key = 32 /\
    proof = xor_bytes key (blake2b256 nonce).
Proof using blake2b256_length.
  unfold VerifyProof. cbn [snd]. destruct (pending v !! id) as [nonce|]; [|naive_solver].
  unfold time_After. change (Z.of_nat ZKPProofSize) with 32.
  destruct (Z.ltb_spec (default time_zero (expiries v !! id)) now) as [Hx|Hx]; cbn [check mbind res_bind].
  { split; [done|]. intros (? & _ & ? & _). lia. }
  destruct (Z.eqb_spec (len key) 32) as [Hk|Hk]; cbn [negb orb check mbind res_bind]; [|split; [done|naive_solver]].
  assert (length (xor_bytes key (blake2b256 nonce)) = 32%nat) as Hl
    by (rewrite length_xor_bytes, blake2b256_length; unfold len in *; lia).
  destruct (Z.eqb_spec (len proof) 32) as [Hp|Hp]; cbn [negb orb check mbind res_bind].
  - rewrite xor_32 by done. cbn. case_bool_decide as E; cbn; [subst|]; split; try done; [naive_solver|].
    intros (n & [= <-] & _ & _ & ?). congruence.
  - split; [done|]. intros (n & [= <-] & _ & _ & ->). unfold len in *. lia.
Qed.

Lemma ComputeProof_spec key nonce :
  len key = 32 -> length nonce = 32%nat ->
  ComputeProof key (hex_string nonce) = Ret (xor_bytes key (blake2b256 nonce)).
Proof using blake2b256_length.
  intros Hk Hn. unfold ComputeProof, hex_string. rewrite str_bytes_str, hex_decode_encode.
  assert (len nonce = 32) as -> by (unfold len; lia). rewrite Hk. cbn [check mbind res_bind negb Z.of_nat ZKPNonceSize ZKPProofSize].
  by apply xor_32.
Qed.

(** Removing a challenge other than [id] does not matter to [id]. *)
Lemma VerifyProof_ext id key proof now v v' :
  pending v !! id = pending v' !! id -> expiries v !! id = expiries v' !! id ->
  (VerifyProof id key proof now v).2 = (VerifyProof id key proof now v').2.
Proof using Type. intros E1 E2. unfold VerifyProof. cbn. by rewrite E1, E2. Qed.

(** ** Traces *)

Inductive call :=
| Issue (id nonce : rand) (now : Z)
| Verify (id : string) (key proof : list byte) (now : Z)
| Count (now : Z)
| Cleanup (now : Z).

Context (iter : gmap string Z -> list (string * Z)).

Definition do_call (c : call) (v : ZKPVerifier) : ZKPVerifier :=
  match c with
  | Issue id nonce now => match IssueChallenge id nonce now v with Ret (v, _) => v | _ => v end
  | Verify id key proof now => (VerifyProof id key proof now v).1
  | Count now => (PendingCount now (iter (expiries v)) v).1
  | Cleanup now => cleanup now (iter (expiries v)) v
  end.
Definition run (cs : list call) (v : ZKPVerifier) : ZKPVerifier := foldl (flip do_call) v cs.

(** The challenge names a trace issues. *)
Definition issued (cs : list call) : list string :=
  omap (fun c => match c with Issue (inr id) _ _ => Some (hex_string id) | _ => None end) cs.

Lemma count_loop_None now order v id :
  pending v !! id = None -> pending (count_loop now order v).1 !! id = None.
Proof using Type.
  revert v. induction order as [|[i e] order IH]; intros v H; [done|]. cbn.
  case_match.
  - specialize (IH v H). by destruct (count_loop now order v).
  - apply IH. cbn. by rewrite lookup_delete_None; right.
Qed.

Lemma cleanup_None now order v id :
  pending v !! id = None -> pending (cleanup now order v) !! id = None.
Proof using Type.
  unfold cleanup. revert v. induction order as [|[i e] order IH]; intros v H; [done|]. cbn.
  apply IH. case_match; [|done]. cbn. by rewrite lookup_delete_None; right.
Qed.

Lemma run_None cs v id :
  pending v !! id = None -> id ∉ issued cs -> pending (run cs v) !! id = None.
Proof using Type.
  unfold run. revert v. induction cs as [|c cs IH]; intros v H Hi; [done|]. cbn.
  change (c :: cs) with ([c] ++ cs) in Hi. unfold issued in Hi. rewrite omap_app in Hi.
  apply not_elem_of_app in Hi as [Hc Hi]. apply IH; [|done].
  destruct c as [[e|i] [e'|n] now|i k p now|now|now]; cbn; try done.
  - rewrite lookup_insert_ne; [done|]. intros <-. apply Hc. cbn. by left.
  - by rewrite lookup_delete_None; right.
  - by apply count_loop_None.
  - by apply cleanup_None.
Qed.

(** Both cleanup loops drop the challenges whose expiry passes a test. *)
Definition prune (P : Z -> bool) (order : list (string * Z)) (v : ZKPVerifier) : ZKPVerifier :=
  foldl (fun v '(id, expiry) =>
    if P expiry then mkVerifier (delete id (pending v)) (delete id (expiries v)) else v) v order.

Lemma count_loop_prune now order v :
  count_loop now order v
  = (prune (fun e => negb (time_Before now e)) order v,
     len (filter (fun p => now < p.2) order)).
Proof using Type.
  revert v. induction order as [|[id e] order IH]; intros v; [done|]. cbn [count_loop prune foldl].
  unfold time_Before. destruct (Z.ltb_spec now e); cbn [negb].
  - rewrite IH. rewrite filter_cons_True by done. unfold len. cbn [length]. f_equal. lia.
  - rewrite IH. by rewrite filter_cons_False by (cbn; lia).
Qed.

Lemma prune_keep P order v id :
  (forall e, (id, e) ∈ order -> P e = false) ->
  pending (prune P order v) !! id = pending v !! id /\ expiries (prune P order v) !! id = expiries v !! id.
Proof using Type.
  unfold prune. revert v. induction order as [|[i e] order IH]; intros v H; [done|]. cbn.
  destruct (IH (if P e then mkVerifier (delete i (pending v)) (delete i (expiries v)) else v))
    as [-> ->]; [intros; apply H; by right|].
  destruct (P e) eqn:E; [|done]. cbn.
  assert (i <> id) by (intros ->; specialize (H e); rewrite E in H; by discriminate H; left).
  by rewrite !lookup_delete_ne.
Qed.

Lemma prune_None P order v id : pending v !! id = None -> pending (prune P order v) !! id = None.
Proof using Type.
  unfold prune. revert v. induction order as [|[i e] order IH]; intros v H; [done|]. cbn.
  apply IH. case_match; [|done]. cbn. by rewrite lookup_delete_None; right.
Qed.

Lemma prune_out P order v id e :
  (id, e) ∈ order -> P e = true -> pending (prune P order v) !! id = None.
Proof using Type.
  revert v. induction order as [|[i e'] order IH]; intros v Hin HP; [by apply elem_of_nil in Hin|].
  cbn [prune foldl]. apply elem_of_cons in Hin as [[= <- <-]|Hin]; [|by apply IH].
  rewrite HP. apply prune_None. cbn. apply lookup_delete_eq.
Qed.

(** A pruned verifier accepts what it accepted before, except the challenges pruned. *)
Lemma prune_accepts P order v id key proof now :
  order ≡ₚ map_to_list (expiries v) ->
  (VerifyProof id key proof now (prune P order v)).2 = Ret tt <->
  (VerifyProof id key proof now v).2 = Ret tt /\ (forall e, expiries v !! id = Some e -> P e = false).
Proof using blake2b256_length.
  intros Ho.
  assert (forall e, (id, e) ∈ order <-> expiries v !! id = Some e) as Hin
    by (intros e; by rewrite Ho, elem_of_map_to_list).
  destruct (expiries v !! id) as [e|] eqn:Ee; [destruct (P e) eqn:EP|].
  - rewrite !VerifyProof_accepts_iff, (prune_out P order v id e) by (done || by apply Hin).
    split; [by intros (n & [=] & _)|]. intros [_ H]. by rewrite (H e eq_refl) in EP.
  - destruct (prune_keep P order v id) as [E1 E2]; [intros e' [= <-]%Hin; done|].
    rewrite (VerifyProof_ext id key proof now _ v) by done.
    split; [intros H; split; [done|by intros e' [= <-]]|by intros [? _]].
  - destruct (prune_keep P order v id) as [E1 E2]; [intros e' [=]%Hin|].
    rewrite (VerifyProof_ext id key proof now _ v) by done.
    split; [intros H; split; [done|by intros e' [=]]|by intros [? _]].
Qed.

(** C26. A proof is accepted exactly when its challenge is pending and not past
    its expiry, the derived key has 32 bytes and the proof is the key xored
    with the hash of the nonce; and whatever the answer, the challenge is
    consumed: no later trace of calls that does not issue it again makes any
    proof for it accepted. *)
Theorem VerifyProof_single_use id key proof now v cs key' proof' now' :
  ((VerifyProof id key proof now v).2 = Ret tt <->
   exists nonce, pending v !! id = Some nonce /\ now <= default time_zero (expiries v !! id) /\
     len key = 32 /\ proof = xor_bytes key (blake2b256 nonce)) /\
  (id ∉ issued cs ->
   (VerifyProof id key' proof' now' (run cs (VerifyProof id key proof now v).1)).2
   = Err ErrNotFound).
Proof using blake2b256_length.
  split; [apply VerifyProof_accepts_iff|]. intros Hi.
  assert (pending (run cs (VerifyProof id key proof now v).1) !! id = None) as E.
  { apply run_None; [|done]. cbn. apply lookup_delete_eq. }
  unfold VerifyProof at 1. cbn [snd]. by rewrite E.
Qed.

(** C29. The protocol completes, and it gives the derived key away. The client
    that knows the 32-byte derived key computes a proof from the challenge
    that the verifier accepts until the challenge expires; and anyone who saw
    the challenge and the proof computes that derived key from them. *)
Theorem proof_completes_and_reveals_key rawID nonce t v key now :
  length nonce = 32%nat -> len key = 32 -> now <= t + 5 * Minute ->
  exists v' id ch proof,
    IssueChallenge (inr rawID) (inr nonce) t v = Ret (v', (id, ch)) /\
    ComputeProof key (Nonce ch) = Ret proof /\
    (VerifyProof id key proof now v').2 = Ret tt /\
    (hash ← from_option Ret Panic (blake2b256 <$> hex_decode (str_bytes (Nonce ch)));
     xor_loop ZKPProofSize 0 proof hash) = Ret (E := msg) key.
Proof using blake2b256_length.
  intros Hn Hk Ht. eexists _, _, _, (xor_bytes key (blake2b256 nonce)).
  split; [reflexivity|]. cbn [Nonce].
  split; [by apply ComputeProof_spec|]. split.
  - apply VerifyProof_accepts_iff. exists nonce. cbn. rewrite !lookup_insert_eq.
    by split_and!.
  - unfold hex_string. rewrite str_bytes_str, hex_decode_encode. cbn [fmap option_fmap option_map from_option mbind res_bind].
    assert (length key = 32%nat) as Hk' by (unfold len in Hk; lia).
    rewrite xor_loop_all; [|by rewrite length_xor_bytes, blake2b256_length, Hk'|apply blake2b256_length].
    rewrite xor_bytes_cancel; [done|]. by rewrite blake2b256_length.
Qed.

(** Cleanup forgets only the expired. The background cleanup at [t] changes
    no later answer about acceptance; [PendingCount] counts the challenges
    that expire after [t], but it also removes one that expires exactly at
    [t], which the verifier would still accept at that instant. *)
Theorem cleanup_keeps_answers t now v id key proof :
  (forall m, iter m ≡ₚ map_to_list m) -> t <= now ->
  ((VerifyProof id key proof now (cleanup t (iter (expiries v)) v)).2 = Ret tt <->
   (VerifyProof id key proof now v).2 = Ret tt) /\
  (PendingCount t (iter (expiries v)) v).2
    = Z.of_nat (size (filter (fun p => t < p.2) (expiries v))) /\
  ((VerifyProof id key proof now (PendingCount t (iter (expiries v)) v).1).2 = Ret tt <->
   (VerifyProof id key proof now v).2 = Ret tt /\ expiries v !! id <> Some t).
Proof using blake2b256_length.
  intros Hi Ht. split_and!.
  - change (cleanup t (iter (expiries v)) v) with (prune (time_After t) (iter (expiries v)) v).
    rewrite prune_accepts by done. split; [tauto|]. intros H. split; [done|].
    apply VerifyProof_accepts_iff in H as (nonce & _ & Hx & _). intros e E. rewrite E in Hx.
    cbn in Hx. unfold time_After. apply Z.ltb_ge. lia.
  - unfold PendingCount. rewrite count_loop_prune. cbn [snd]. unfold len. f_equal.
    by rewrite Hi, size_map_filter.
  - unfold PendingCount. rewrite count_loop_prune. cbn [fst]. rewrite prune_accepts by done.
    split; intros [H He]; (split; [done|]).
    + intros E. specialize (He t E). unfold time_Before in He. rewrite Z.ltb_irrefl in He. done.
    + apply VerifyProof_accepts_iff in H as (nonce & _ & Hx & _). intros e E. rewrite E in Hx, He.
      cbn in Hx. unfold time_Before. apply negb_false_iff, Z.ltb_lt.
      assert (e <> t) by congruence. lia.
Qed.
End Zkp.

(** A stand-in hash of 32 bytes for the examples: the input, cut and padded. *)
Definition pad_hash (l : list byte) : list byte := take 32 (l ++ zeros 32).
Lemma pad_hash_length l : length (pad_hash l) = 32%nat.
Proof. unfold pad_hash. rewrite length_take, length_app, length_zeros. lia. Qed.

Definition sample_verifier : ZKPVerifier :=
  mkVerifier {[ "0a"%string := replicate 32 x05 ]} {[ "0a"%string := 100 ]}.

Lemma VerifyProof_single_use_witness :
  (VerifyProof pad_hash "0a" (replicate 32 x01) (replicate 32 x04) 100 sample_verifier).2 = Ret tt /\
  (VerifyProof pad_hash "0a" (replicate 32 x01) (replicate 32 x04) 100
     (VerifyProof pad_hash "0a" (replicate 32 x01) (replicate 32 x04) 100 sample_verifier).1).2
  = Err ErrNotFound.
Proof.
  destruct (VerifyProof_single_use pad_hash pad_hash_length map_to_list "0a" (replicate 32 x01)
    (replicate 32 x04) 100 sample_verifier [] (replicate 32 x01) (replicate 32 x04) 100) as [H1 H2].
  split; [apply H1|apply H2].
  - exists (replicate 32 x05). by split_and!; vm_compute.
  - by apply not_elem_of_nil.
Defined.

Lemma proof_completes_and_reveals_key_witness :
  exists v' id ch proof,
    IssueChallenge (inr [x0a]) (inr (replicate 32 x05)) 0 NewZKPVerifier = Ret (v', (id, ch)) /\
    (VerifyProof pad_hash id (replicate 32 x01) proof (4 * Minute) v').2 = Ret tt.
Proof.
  destruct (proof_completes_and_reveals_key pad_hash pad_hash_length [x0a] (replicate 32 x05) 0
    NewZKPVerifier (replicate 32 x01) (4 * Minute)) as (v' & id & ch & proof & H1 & _ & H3 & _);
    [done|done|by vm_compute|].
  by exists v', id, ch, proof.
Defined.

Lemma cleanup_keeps_answers_witness :
  (VerifyProof pad_hash "0a" (replicate 32 x01) (replicate 32 x04) 100
     (cleanup 100 (map_to_list (expiries sample_verifier)) sample_verifier)).2 = Ret tt /\
  (PendingCount 100 (map_to_list (expiries sample_verifier)) sample_verifier).2 = 0.
Proof.
  destruct (cleanup_keeps_answers pad_hash pad_hash_length map_to_list 100 100 sample_verifier "0a"
    (replicate 32 x01) (replicate 32 x04)) as (H1 & H2 & _); [done|lia|].
  split; [apply H1; by vm_compute|]. by rewrite H2.
Defined.
