(* ===== verification/Event.v ===== *)
(** * Events of the kernel ([engine/kernel/event.go], [uuid.go], and the
    constructors of [bus.go])

    The event record, every event type, the routing prefix and the event
    constructors. The clock and the random bytes of an identifier are
    arguments. *)

From S2P Require Import Prelude GoStd.

Definition EventType : Type := string.

Definition EvAuthSetup : EventType := "AUTH.SETUP".
Definition EvAuthUnlock : EventType := "AUTH.UNLOCK".
Definition EvAuthResult : EventType := "AUTH.RESULT".
Definition EvAuthLockdown : EventType := "AUTH.LOCKDOWN".
Definition EvAuthLogout : EventType := "AUTH.LOGOUT".
Definition EvAuthStatus : EventType := "AUTH.STATUS".
Definition EvAuthInitReady : EventType := "AUTH.INIT_READY".
Definition EvAuthKeyReady : EventType := "AUTH.KEY_READY".
Definition EvAuthReady : EventType := "AUTH.READY".
Definition EvAuthGetHandle : EventType := "AUTH.GET_HANDLE".
Definition EvCryptoEncrypt : EventType := "CRYPTO.ENCRYPT".
Definition EvCryptoDecrypt : EventType := "CRYPTO.DECRYPT".
Definition EvCryptoDerive : EventType := "CRYPTO.DERIVE_KEY".
Definition EvCryptoShred : EventType := "CRYPTO.SHRED".
Definition EvCryptoResult : EventType := "CRYPTO.RESULT".
Definition EvStorageWrite : EventType := "STORAGE.WRITE".
Definition EvStorageRead : EventType := "STORAGE.READ".
Definition EvStorageDelete : EventType := "STORAGE.DELETE".
Definition EvStorageList : EventType := "STORAGE.LIST".
Definition EvStorageResult : EventType := "STORAGE.RESULT".
Definition EvStorageIngestProgress : EventType := "STORAGE.INGEST_PROGRESS".
Definition EvStorageVFSMount : EventType := "STORAGE.VFS_MOUNT".
Definition EvStorageReady : EventType := "STORAGE.READY".
Definition EvEntryCreate : EventType := "ENTRY.CREATE".
Definition EvEntryRead : EventType := "ENTRY.READ".
Definition EvEntryUpdate : EventType := "ENTRY.UPDATE".
Definition EvEntryDelete : EventType := "ENTRY.DELETE".
Definition EvEntryIngest : EventType := "ENTRY.INGEST".
Definition EvEntryResult : EventType := "ENTRY.RESULT".
Definition EvEntryQuery : EventType := "ENTRY.QUERY".
Definition EvToolSSHGen : EventType := "TOOL.SSH_GEN".
Definition EvToolResult : EventType := "TOOL.RESULT".
Definition EvSecMemLock : EventType := "SECURITY.MEM_LOCK".
Definition EvSecZeroize : EventType := "SECURITY.ZEROIZE".
Definition EvSecAudit : EventType := "SECURITY.AUDIT".
Definition EvSecPanic : EventType := "SECURITY.PANIC".
Definition EvSecLockdown : EventType := "SECURITY.LOCKDOWN".
Definition EvSyncBegin : EventType := "SYNC.BEGIN".
Definition EvSyncComplete : EventType := "SYNC.COMPLETE".
Definition EvSyncDiscover : EventType := "SYNC.DISCOVER".
Definition EvSyncPair : EventType := "SYNC.PAIR".
Definition EvSyncPull : EventType := "SYNC.PULL".
Definition EvSyncPushVer : EventType := "SYNC.PUSH_VERSION".
Definition EvSyncConflict : EventType := "SYNC.CONFLICT".
Definition EvBiometricAuthenticate : EventType := "BIOMETRIC.AUTHENTICATE".
Definition EvBiometricResult : EventType := "BIOMETRIC.RESULT".
Definition EvIntegrityCheck : EventType := "INTEGRITY.CHECK".
Definition EvIntegrityViolation : EventType := "INTEGRITY.VIOLATION".
Definition EvWorkspaceCreate : EventType := "WORKSPACE.CREATE".
Definition EvWorkspaceSwitch : EventType := "WORKSPACE.SWITCH".
Definition EvWorkspaceDelete : EventType := "WORKSPACE.DELETE".
Definition EvWorkspaceResult : EventType := "WORKSPACE.RESULT".
Definition EvKernelStatus : EventType := "KERNEL.STATUS".
Definition EvKernelStateReport : EventType := "KERNEL.STATE_REPORT".
Definition EvKernelStateMirror : EventType := "KERNEL.STATE_MIRROR".
Definition EvReconnectResume : EventType := "RECONNECT.RESUME".
Definition EvReconnectSync : EventType := "RECONNECT.SYNC".
Definition EvGQLQuery : EventType := "GQL.QUERY".
Definition EvGQLResult : EventType := "GQL.RESULT".
Definition EvSystemError : EventType := "SYSTEM.ERROR".
Definition EvSystemHealthCheck : EventType := "SYSTEM.HEALTH_CHECK".
Definition EvSystemLog : EventType := "SYSTEM.LOG".

Definition defaultTTL : Z := 8.

Record Event := mkEvent {
  ID : string;
  Type_ : EventType;
  Payload : list byte;
  ReplyTo : string;
  Origin : string;
  Timestamp : Z;
  TTL : Z
}.
#[global] Instance Event_eq_dec : EqDecision Event.
Proof. solve_decision. Defined.

(** [for i, c := range s { if c == '.' { return s[:i] } }; return s] *)
Fixpoint channel_loop (s : string) (its : list (nat * Z)) : string :=
  match its with
  | [] => s
  | (i, c) :: its => if c =? 46 then String.substring 0 i s else channel_loop s its
  end.
Definition Channel (et : EventType) : string := channel_loop et (range_string et).

(** [newID]: [raw] is what [rand.Read] left in the array. *)
Definition newID_bytes (raw : list byte) : list byte :=
  let b := <[6%nat := zb (Z.lor (Z.land (bz (default x00 (raw !! 6%nat))) 15) 64)]> raw in
  <[8%nat := zb (Z.lor (Z.land (bz (default x00 (b !! 8%nat))) 63) 128)]> b.

Definition newID (raw : list byte) : string :=
  let b := newID_bytes raw in
  hex_string (take 4 b) +:+ "-" +:+ hex_string (take 2 (drop 4 b)) +:+ "-" +:+
  hex_string (take 2 (drop 6 b)) +:+ "-" +:+ hex_string (take 2 (drop 8 b)) +:+ "-" +:+
  hex_string (take 6 (drop 10 b)).

Definition NewEvent (raw : list byte) (now : Z) (origin : string) (t : EventType)
    (payload : list byte) : Event :=
  {| ID := newID raw; Type_ := t; Payload := payload; ReplyTo := EmptyString; Origin := origin;
     Timestamp := now; TTL := defaultTTL |}.

Definition ReplyEvent (raw : list byte) (now : Z) (origin : string) (t : EventType) (req : Event)
    (payload : list byte) : Event :=
  let e := NewEvent raw now origin t payload in
  {| ID := ID e; Type_ := Type_ e; Payload := Payload e; ReplyTo := ID req; Origin := Origin e;
     Timestamp := Timestamp e; TTL := TTL e |}.

(** ** Routing prefix *)

(** The first dot of a byte list: what is before it, or nothing. *)
Fixpoint before_dot (l : list byte) : option (list byte) :=
  match l with
  | [] => None
  | b :: l => if bz b =? 46 then Some [] else cons b <$> before_dot l
  end.

Lemma before_dot_app l1 l2 :
  Forall (fun b => bz b <> 46) l1 -> before_dot (l1 ++ l2) = app l1 <$> before_dot l2.
Proof.
  induction 1 as [|b l1 Hb _ IH]; [cbn; by destruct (before_dot l2)|]. cbn.
  rewrite (proj2 (Z.eqb_neq _ _) Hb), IH. by destruct (before_dot l2).
Qed.

Lemma before_dot_spec l :
  match before_dot l with
  | Some p => Forall (fun b => bz b <> 46) p /\ exists rest, l = p ++ zb 46 :: rest
  | None => Forall (fun b => bz b <> 46) l
  end.
Proof.
  induction l as [|b l IH]; [constructor|]. cbn. destruct (Z.eqb_spec (bz b) 46) as [E|E].
  - split; [constructor|]. exists l. cbn. f_equal. apply (inj bz). by rewrite E.
  - destruct (before_dot l) as [p|]; cbn.
    + destruct IH as [HF [rest ->]]. split; [by constructor|]. by exists rest.
    + by constructor.
Qed.

(** The loop stops at the first dot byte: runes before it have no dot byte. *)
Lemma channel_loop_spec s fuel pos l :
  (length l <= fuel)%nat ->
  channel_loop s (range_fuel fuel pos l)
  = match before_dot l with
    | Some p => String.substring 0 (pos + length p) s
    | None => s
    end.
Proof.
  revert pos l. induction fuel as [|fuel IH]; intros pos [|b t] Hl; try done; [cbn in Hl; lia|].
  cbn [range_fuel].
  destruct (decode_rune_spec b t) as [[Hb ->] | (r & n & -> & Hr & Hn & Hall)]; cbn [channel_loop].
  - cbn [before_dot]. destruct (Z.eqb_spec (bz b) 46) as [E|E].
    { cbn. by rewrite Nat.add_0_r. }
    change (drop 1 (b :: t)) with t. cbn in Hl. rewrite IH by lia.
    destruct (before_dot t) as [p|]; cbn; [|done]. f_equal. lia.
  - destruct (Z.eqb_spec r 46) as [->|_]; [by destruct Hr; unfold ascii|].
    rewrite IH by (rewrite length_drop; cbn in *; lia).
    assert (Forall (fun c => bz c <> 46) (take n (b :: t))) as HF.
    { eapply Forall_impl; [exact Hall|]. cbn. unfold ascii. lia. }
    pose proof (before_dot_app (take n (b :: t)) (drop n (b :: t)) HF) as E.
    rewrite take_drop in E. rewrite E.
    destruct (before_dot (drop n (b :: t))) as [p|]; cbn; [|done].
    f_equal. rewrite length_app, length_take. lia.
Qed.

Lemma substring_bytes n s :
  (n <= String.length s)%nat -> str_bytes (String.substring 0 n s) = take n (str_bytes s).
Proof.
  revert n. induction s as [|c s IH]; intros [|n] Hn; try done.
  cbn in Hn.
  change (str_bytes (String.substring 0 (S n) (String c s)))
    with (Ascii.byte_of_ascii c :: str_bytes (String.substring 0 n s)).
  change (str_bytes (String c s)) with (Ascii.byte_of_ascii c :: str_bytes s).
  cbn [take]. f_equal. apply IH. lia.
Qed.

Lemma Channel_bytes et :
  str_bytes (Channel et) = default (str_bytes et) (before_dot (str_bytes et)).
Proof.
  unfold Channel, range_string.
  rewrite channel_loop_spec by (by rewrite length_str_bytes).
  pose proof (before_dot_spec (str_bytes et)) as H.
  destruct (before_dot (str_bytes et)) as [p|]; [|done]. destruct H as [_ [rest E]]. cbn.
  rewrite substring_bytes; [rewrite E; by rewrite take_app_length|].
  rewrite <- length_str_bytes, E, length_app. lia.
Qed.

(** The routing prefix. The channel of an event type is what precedes its
    first dot: it contains no dot, and the type is the channel alone or the
    channel, a dot and the rest; no other string has this property. *)
Theorem Channel_prefix et ch :
  ch = Channel et <->
  Forall (fun b => bz b <> 46) (str_bytes ch) /\
  (et = ch \/ exists rest, str_bytes et = str_bytes ch ++ zb 46 :: rest).
Proof.
  pose proof (Channel_bytes et) as E. pose proof (before_dot_spec (str_bytes et)) as H. split.
  - intros ->. rewrite E. destruct (before_dot (str_bytes et)) as [p|]; cbn.
    + destruct H as [HF Hr]. split; [done|by right].
    + split; [done|]. left. rewrite <- (bytes_str_bytes et) at 1. rewrite <- (bytes_str_bytes (Channel et)).
      by rewrite E.
  - intros [HF Hr]. rewrite <- (bytes_str_bytes ch), <- (bytes_str_bytes (Channel et)). f_equal.
    rewrite E. destruct Hr as [->|[rest Hr]].
    + pose proof (before_dot_app (str_bytes ch) [] HF) as Hb. rewrite app_nil_r in Hb. by rewrite Hb.
    + rewrite Hr, (before_dot_app _ _ HF).
      assert (before_dot (zb 46 :: rest) = Some []) as -> by by vm_compute.
      cbn [fmap option_fmap option_map default from_option id]. by rewrite app_nil_r.
Qed.

(** ** Identifiers *)

Lemma length_hex_string l : String.length (hex_string l) = (2 * length l)%nat.
Proof. unfold hex_string. by rewrite length_bytes_str, length_hex_encode. Qed.

Lemma app_hex_inj a b (s t : string) :
  length a = length b -> hex_string a +:+ s = hex_string b +:+ t -> a = b /\ s = t.
Proof.
  intros Hl. assert (String.length (hex_string a) = String.length (hex_string b)) as Hs
    by (rewrite !length_hex_string; lia).
  intros H. destruct (app_string_inj2 _ _ _ _ H Hs) as [E ->]. by apply (inj hex_string) in E.
Qed.

Lemma length_newID_bytes raw : length (newID_bytes raw) = length raw.
Proof. unfold newID_bytes. by rewrite !length_insert. Qed.

Lemma version_nibble b : bz (zb (Z.lor (Z.land (bz b) 15) 64)) / 16 = 4.
Proof. destruct b; by vm_compute. Qed.
Lemma variant_bits b : bz (zb (Z.lor (Z.land (bz b) 63) 128)) / 64 = 2.
Proof. destruct b; by vm_compute. Qed.

(** Identifiers are version 4 UUIDs. From any sixteen random bytes the text
    has 36 characters, its version nibble is 4 and its variant bits are 10,
    and two draws give the same text exactly when they agree on the other 122
    bits, that is, on the bytes after the two fixed fields are set. *)
Theorem newID_uuid raw raw' :
  length raw = 16%nat -> length raw' = 16%nat ->
  String.length (newID raw) = 36%nat /\
  (exists b6 b8, newID_bytes raw !! 6%nat = Some b6 /\ bz b6 / 16 = 4 /\
                 newID_bytes raw !! 8%nat = Some b8 /\ bz b8 / 64 = 2) /\
  (newID raw = newID raw' <-> newID_bytes raw = newID_bytes raw').
Proof.
  intros H1 H2. pose proof (length_newID_bytes raw) as L1. pose proof (length_newID_bytes raw') as L2.
  split_and!.
  - unfold newID. rewrite !length_app_string, !length_hex_string, !length_take, !length_drop.
    rewrite L1, H1. done.
  - destruct (lookup_lt_is_Some_2 raw 6%nat) as [x6 E6]; [lia|].
    destruct (lookup_lt_is_Some_2 raw 8%nat) as [x8 E8]; [lia|].
    unfold newID_bytes. rewrite (list_lookup_insert_ne _ 6 8) by done. rewrite E6, E8.
    cbn [default from_option id]. eexists _, _. split.
    { rewrite list_lookup_insert_ne by done. apply list_lookup_insert_eq. lia. }
    split; [apply version_nibble|]. split; [|apply variant_bits].
    apply list_lookup_insert_eq. rewrite length_insert. lia.
  - split; [|intros E; unfold newID; by rewrite E].
    unfold newID. set (b := newID_bytes raw) in *. set (b' := newID_bytes raw') in *.
    clearbody b b'. intros E.
    apply app_hex_inj in E as [E1 E]; [|rewrite !length_take; lia].
    injection E as E. apply app_hex_inj in E as [E2 E]; [|rewrite !length_take, !length_drop; lia].
    injection E as E. apply app_hex_inj in E as [E3 E]; [|rewrite !length_take, !length_drop; lia].
    injection E as E. apply app_hex_inj in E as [E4 E]; [|rewrite !length_take, !length_drop; lia].
    injection E as E. apply (inj hex_string) in E.
    revert L1 L2 E1 E2 E3 E4 E. rewrite H1, H2. clear.
    do 16 (destruct b as [|? b]; [done|]). do 16 (destruct b' as [|? b']; [done|]).
    destruct b, b'; try done. cbn. congruence.
Qed.

Lemma newID_uuid_witness :
  newID (replicate 16 xff) = "ffffffff-ffff-4fff-bfff-ffffffffffff"%string /\
  String.length (newID (replicate 16 xff)) = 36%nat.
Proof. split; [by vm_compute|]. by apply (newID_uuid (replicate 16 xff) (replicate 16 xff)). Defined.
