(* ===== verification/Bus.v ===== *)
(** * The event bus ([engine/kernel/bus.go], [dispatcher.go])

    The bus record, its registration, gate, dispatch and request operations,
    and a world that also holds the reply channels, the handler goroutines and
    the requests in flight. Handlers are opaque values: a dispatch yields the
    goroutines it starts, and what a handler does are further actions of the
    world. [strings.ToUpper] is a parameter. A call is one step,
    except that anything can happen while a [Request] waits; [BusThreads] runs
    the locked sections of [Dispatch] and [Request] one by one. *)

From S2P Require Import Prelude GoStd Event.

Section Bus.
Context {Handler : Type}.
Context (ToUpper : string -> string).

(** ** Data *)

Record Module := mkModule {
  m_ID : string;
  m_Channels : list string;
  m_Handle : Handler
}.

Record namedHandler := mkNamed {
  nh_id : string;
  nh_handler : Handler
}.

Record bus := mkBus {
  modules : gmap string Module;
  channelHandlers : gmap string (list namedHandler);
  typeHandlers : gmap string (list namedHandler);
  pending : gmap string nat;
  gatedChannels : gset string;
  gateOpen : bool;
  cancelled : bool
}.

Definition set_modules f (b : bus) := mkBus (f (modules b)) (channelHandlers b) (typeHandlers b)
  (pending b) (gatedChannels b) (gateOpen b) (cancelled b).
Definition set_channelHandlers f (b : bus) := mkBus (modules b) (f (channelHandlers b)) (typeHandlers b)
  (pending b) (gatedChannels b) (gateOpen b) (cancelled b).
Definition set_typeHandlers f (b : bus) := mkBus (modules b) (channelHandlers b) (f (typeHandlers b))
  (pending b) (gatedChannels b) (gateOpen b) (cancelled b).
Definition set_pending f (b : bus) := mkBus (modules b) (channelHandlers b) (typeHandlers b)
  (f (pending b)) (gatedChannels b) (gateOpen b) (cancelled b).
Definition set_gate open (b : bus) := mkBus (modules b) (channelHandlers b) (typeHandlers b)
  (pending b) (gatedChannels b) open (cancelled b).

(** [NewBus()], and [NewBus(WithGatedChannels(channels...))]. *)
Definition NewBus (gated : list string) : bus :=
  mkBus ∅ ∅ ∅ ∅ (list_to_set (ToUpper <$> gated)) false false.

Definition OpenGate : bus -> bus := set_gate true.
Definition CloseGate : bus -> bus := set_gate false.

(** ** Registration *)

(** [b.m[k] = append(b.m[k], h)] *)
Definition append_at (k : string) (h : namedHandler) (m : gmap string (list namedHandler))
    : gmap string (list namedHandler) :=
  <[k := default [] (m !! k) ++ [h]]> m.

Definition Register (m : Module) (b : bus) : bus * bool :=
  match modules b !! m_ID m with
  | Some _ => (b, false)
  | None =>
      let b := set_modules (insert (m_ID m) m) b in
      (set_channelHandlers (fun ch =>
         foldl (fun hs c => append_at (ToUpper c) (mkNamed (m_ID m) (m_Handle m)) hs) ch (m_Channels m)) b,
       true)
  end.

(** The loop that filters [handlers] into its own backing array: [i] is the
    next element to read, [j] the next position to write. *)
Fixpoint filter_in_place (keep : namedHandler -> bool) (fuel i j : nat) (buf : list namedHandler)
    : list namedHandler :=
  match fuel with
  | O => take j buf
  | S fuel =>
      match buf !! i with
      | Some h =>
          if keep h then filter_in_place keep fuel (S i) (S j) (<[j := h]> buf)
          else filter_in_place keep fuel (S i) j buf
      | None => take j buf
      end
  end.

Definition remove_id (id : string) (handlers : list namedHandler) : list namedHandler :=
  filter_in_place (fun h => negb (bool_decide (nh_id h = id))) (length handlers) 0 0 handlers.

Definition remove_at (id k : string) (m : gmap string (list namedHandler))
    : gmap string (list namedHandler) :=
  <[k := remove_id id (default [] (m !! k))]> m.

Definition Unregister (moduleID : string) (b : bus) : bus :=
  match modules b !! moduleID with
  | None => b
  | Some m =>
      let b := set_channelHandlers (fun ch =>
        foldl (fun hs c => remove_at moduleID (ToUpper c) hs) ch (m_Channels m)) b in
      set_modules (delete moduleID) b
  end.

(** A nil handler panics before anything changes; [raw] are the random bytes
    of the subscription's identifier. *)
Definition Subscribe (raw : list byte) (eventType : EventType) (handler : option Handler) (b : bus)
    : res Empty_set (bus * string) :=
  match handler with
  | None => Panic
  | Some handler =>
      let id := newID raw in
      Ret (set_typeHandlers (append_at eventType (mkNamed id handler)) b, id)
  end.

(** The function [Subscribe] returns. *)
Definition unsubscribe (eventType : EventType) (id : string) : bus -> bus :=
  set_typeHandlers (remove_at id eventType).

(** ** Dispatch *)

(** The event as it goes on the bus, [None] when its TTL is exhausted. *)
Definition hop (now : Z) (e : Event) : option Event :=
  if (TTL e <=? 0) && negb (TTL e =? 0) then None
  else
    let ttl := (if TTL e <=? 0 then defaultTTL else TTL e) - 1 in
    let ts := if Timestamp e =? 0 then now else Timestamp e in
    Some (mkEvent (ID e) (Type_ e) (Payload e) (ReplyTo e) (Origin e) ts ttl).

(** Reply channels have room for one event; sending to a full one is skipped. *)
Abbreviation chans := (gmap nat (option Event)).

Definition send (c : nat) (e : Event) (cs : chans) : chans :=
  match cs !! c with
  | Some None => <[c := Some e]> cs
  | _ => cs
  end.

Definition signal_reply (b : bus) (e : Event) (cs : chans) : chans :=
  if decide (ReplyTo e = EmptyString) then cs
  else match pending b !! ReplyTo e with
       | Some c => send c e cs
       | None => cs
       end.

Definition recipients (b : bus) (e : Event) : list Handler :=
  (nh_handler <$> default [] (channelHandlers b !! Channel (Type_ e)))
  ++ (nh_handler <$> default [] (typeHandlers b !! Type_ e)).

(** Dispatch changes only the reply channels, and starts one goroutine for
    each handler. *)
Definition Dispatch (now : Z) (e : Event) (b : bus) (cs : chans) : chans * list (Handler * Event) :=
  match hop now e with
  | None => (cs, [])
  | Some e =>
      let cs := signal_reply b e cs in
      let isGated := bool_decide (Channel (Type_ e) ∈ gatedChannels b) in
      if isGated && negb (gateOpen b) then (cs, [])
      else (cs, (fun h => (h, e)) <$> recipients b e)
  end.

(** ** Requests and shutdown *)

Record world := mkWorld {
  w_bus : bus;
  w_chans : chans;
  w_goroutines : list (Handler * Event);
  w_requests : gmap nat string;          (* reply channel of a waiting request -> event ID *)
  w_results : list (string * Event)      (* replies returned, with the request's event ID *)
}.

(** The reply channel [c] is made and registered under the event's ID. *)
Definition Request_register (id : string) (c : nat) (w : world) : world :=
  mkWorld (set_pending (insert id c) (w_bus w)) (<[c := None]> (w_chans w)) (w_goroutines w)
    (<[c := id]> (w_requests w)) (w_results w).

(** Up to the [select]: the event's ID is filled in, a reply channel is made
    and registered, and the event is dispatched. *)
Definition Request_start (raw : list byte) (now : Z) (e : Event) (w : world) : world :=
  let id := if decide (ID e = EmptyString) then newID raw else ID e in
  let e := mkEvent id (Type_ e) (Payload e) (ReplyTo e) (Origin e) (Timestamp e) (TTL e) in
  let w := Request_register id (fresh (dom (w_chans w))) w in
  let '(cs, started) := Dispatch now e (w_bus w) (w_chans w) in
  mkWorld (w_bus w) cs (w_goroutines w ++ started) (w_requests w) (w_results w).

(** The deferred deletion, which every way out of [Request] runs. *)
Definition Request_leave (c : nat) (id : string) (w : world) : world :=
  mkWorld (set_pending (delete id) (w_bus w)) (w_chans w) (w_goroutines w)
    (delete c (w_requests w)) (w_results w).

(** [case reply := <-replyCh] *)
Definition Request_reply (c : nat) (w : world) : option world :=
  id ← w_requests w !! c;
  buffered ← w_chans w !! c;
  reply ← buffered;
  let w := Request_leave c id w in
  Some (mkWorld (w_bus w) (<[c := None]> (w_chans w)) (w_goroutines w) (w_requests w)
          (w_results w ++ [(id, reply)])).

(** [case <-ctx.Done()] or [case <-b.ctx.Done()] *)
Definition Request_abandon (c : nat) (w : world) : option world :=
  id ← w_requests w !! c; Some (Request_leave c id w).

(** The modules whose [Stop] is called, in the order of the loop over the map;
    when they are done or the context ends, the bus context is cancelled. *)
Definition Shutdown (order : list (string * Module)) (b : bus) : bus * list Module :=
  (mkBus (modules b) (channelHandlers b) (typeHandlers b) (pending b) (gatedChannels b)
     (gateOpen b) true, order.*2).

Inductive action :=
| ARegister (m : Module)
| AUnregister (id : string)
| ASubscribe (raw : list byte) (t : EventType) (h : Handler)
| AUnsubscribe (t : EventType) (id : string)
| AGate (open : bool)
| ADispatch (now : Z) (e : Event)
| ARequest (raw : list byte) (now : Z) (e : Event)
| AReply (c : nat)
| AAbandon (c : nat)
| AShutdown (order : list (string * Module))
| AFinish (i : nat).                    (* a handler goroutine ends *)

Definition on_bus (f : bus -> bus) (w : world) : world :=
  mkWorld (f (w_bus w)) (w_chans w) (w_goroutines w) (w_requests w) (w_results w).

Definition step (a : action) (w : world) : option world :=
  match a with
  | ARegister m => Some (on_bus (fun b => (Register m b).1) w)
  | AUnregister id => Some (on_bus (Unregister id) w)
  | ASubscribe raw t h =>
      match Subscribe raw t (Some h) (w_bus w) with
      | Ret (b, _) => Some (on_bus (fun _ => b) w)
      | _ => None
      end
  | AUnsubscribe t id => Some (on_bus (unsubscribe t id) w)
  | AGate open => Some (on_bus (if open then OpenGate else CloseGate) w)
  | ADispatch now e =>
      let '(cs, started) := Dispatch now e (w_bus w) (w_chans w) in
      Some (mkWorld (w_bus w) cs (w_goroutines w ++ started) (w_requests w) (w_results w))
  | ARequest raw now e => Some (Request_start raw now e w)
  | AReply c => Request_reply c w
  | AAbandon c => Request_abandon c w
  | AShutdown order => Some (on_bus (fun b => (Shutdown order b).1) w)
  | AFinish i => Some (mkWorld (w_bus w) (w_chans w) (delete i (w_goroutines w)) (w_requests w) (w_results w))
  end.

Fixpoint exec (acts : list action) (w : world) : option world :=
  match acts with
  | [] => Some w
  | a :: acts => w ← step a w; exec acts w
  end.

Definition init (gated : list string) : world := mkWorld (NewBus gated) ∅ [] ∅ [].

(** ** The specification of routing

    Modules in the order they registered, subscriptions in the order they
    were made. *)

Record registry := mkRegistry {
  r_modules : list Module;
  r_subs : list (EventType * namedHandler)
}.

Definition spec_step (a : action) (r : registry) : registry :=
  match a with
  | ARegister m =>
      if decide (m_ID m ∈ (m_ID <$> r_modules r)) then r
      else mkRegistry (r_modules r ++ [m]) (r_subs r)
  | AUnregister id => mkRegistry (filter (fun m => m_ID m <> id) (r_modules r)) (r_subs r)
  | ASubscribe raw t h => mkRegistry (r_modules r) (r_subs r ++ [(t, mkNamed (newID raw) h)])
  | AUnsubscribe t id =>
      mkRegistry (r_modules r) (filter (fun s => ~ (s.1 = t /\ nh_id s.2 = id)) (r_subs r))
  | _ => r
  end.

(** A module gets an event once for every time it lists the event's channel. *)
Definition module_handlers (ch : string) (m : Module) : list namedHandler :=
  replicate (length (filter (ch =.) (ToUpper <$> m_Channels m))) (mkNamed (m_ID m) (m_Handle m)).

Definition channel_spec (ch : string) (ms : list Module) : list namedHandler :=
  ms ≫= module_handlers ch.
Definition type_spec (t : EventType) (subs : list (EventType * namedHandler)) : list namedHandler :=
  (filter (fun s => s.1 = t) subs).*2.

#[local] Arguments channel_spec : simpl never.
#[local] Arguments type_spec : simpl never.

Definition spec_recipients (r : registry) (e : Event) : list Handler :=
  nh_handler <$> channel_spec (Channel (Type_ e)) (r_modules r) ++ type_spec (Type_ e) (r_subs r).

Record routes (b : bus) (r : registry) : Prop := {
  ro_nodup : NoDup (m_ID <$> r_modules r);
  ro_modules id m : modules b !! id = Some m <-> m ∈ r_modules r /\ m_ID m = id;
  ro_channels ch : default [] (channelHandlers b !! ch) = channel_spec ch (r_modules r);
  ro_types t : default [] (typeHandlers b !! t) = type_spec t (r_subs r)
}.
(** ** Lemmas on registration *)

Definition other_id (id : string) (h : namedHandler) : Prop := nh_id h <> id.
#[local] Instance other_id_dec id h : Decision (other_id id h).
Proof. unfold other_id. apply _. Defined.

(** The in-place loop is a filter: at every turn the result is what was kept
    so far and the filtered rest. *)
Lemma filter_in_place_eq (P : namedHandler -> Prop) `{!forall h, Decision (P h)} n i j buf :
  (j <= i)%nat -> n = (length buf - i)%nat -> (i <= length buf)%nat ->
  filter_in_place (fun h => bool_decide (P h)) n i j buf = take j buf ++ filter P (drop i buf).
Proof using Type.
  revert i j buf. induction n as [|n IH]; intros i j buf Hj Hn Hi; cbn [filter_in_place].
  - rewrite (drop_ge buf) by lia. by rewrite filter_nil, app_nil_r.
  - destruct (lookup_lt_is_Some_2 buf i) as [h Hh]; [lia|]. rewrite Hh.
    rewrite (drop_S buf h i Hh), filter_cons. case_bool_decide as HP.
    + rewrite decide_True by done. rewrite IH by (rewrite ?length_insert; lia).
      rewrite drop_insert_lt by lia.
      rewrite (take_S_r _ _ h) by (apply list_lookup_insert_eq; lia).
      rewrite take_insert_ge by lia. by rewrite <- app_assoc.
    + rewrite decide_False by done. apply IH; lia.
Qed.

Lemma remove_id_filter id hs : remove_id id hs = filter (other_id id) hs.
Proof using Type.
  unfold remove_id. transitivity (filter_in_place (fun h => bool_decide (other_id id h)) (length hs) 0 0 hs).
  - assert (forall n i j buf, filter_in_place (fun h => negb (bool_decide (nh_id h = id))) n i j buf
      = filter_in_place (fun h => bool_decide (other_id id h)) n i j buf) as H; [|apply H].
    induction n as [|n IH]; intros i j buf; [done|]. cbn.
    destruct (buf !! i) as [h|]; [|done].
    assert (negb (bool_decide (nh_id h = id)) = bool_decide (other_id id h)) as ->
      by (unfold other_id; repeat case_bool_decide; done || tauto).
    by rewrite !IH.
  - rewrite (filter_in_place_eq (other_id id)) by lia. by rewrite drop_0.
Qed.

Lemma append_at_lookup k h m k' :
  default [] (append_at k h m !! k') = default [] (m !! k') ++ (if decide (k = k') then [h] else []).
Proof using Type.
  unfold append_at. case_decide as E; [subst|].
  - by rewrite lookup_insert_eq.
  - by rewrite lookup_insert_ne, app_nil_r.
Qed.

Lemma remove_at_lookup id k m k' :
  default [] (remove_at id k m !! k')
  = if decide (k = k') then filter (other_id id) (default [] (m !! k')) else default [] (m !! k').
Proof using Type.
  unfold remove_at. case_decide as E; [subst|].
  - rewrite lookup_insert_eq. cbn. apply remove_id_filter.
  - by rewrite lookup_insert_ne.
Qed.

Lemma append_all_lookup h chs m ch :
  default [] (foldl (fun hs c => append_at (ToUpper c) h hs) m chs !! ch)
  = default [] (m !! ch) ++ replicate (length (filter (ch =.) (ToUpper <$> chs))) h.
Proof using Type.
  revert m. induction chs as [|c chs IH]; intros m; cbn [foldl]; [by rewrite app_nil_r|].
  rewrite IH, append_at_lookup, fmap_cons, filter_cons, <- app_assoc. f_equal.
  destruct (decide (ToUpper c = ch)) as [E|E].
  - by rewrite decide_True.
  - by rewrite decide_False by congruence.
Qed.

Lemma remove_all_lookup id chs m ch :
  default [] (foldl (fun hs c => remove_at id (ToUpper c) hs) m chs !! ch)
  = if decide (ch ∈ ToUpper <$> chs) then filter (other_id id) (default [] (m !! ch))
    else default [] (m !! ch).
Proof using Type.
  revert m. induction chs as [|c chs IH]; intros m; cbn [foldl].
  - rewrite decide_False; [done|]. apply not_elem_of_nil.
  - rewrite IH, remove_at_lookup, fmap_cons.
    destruct (decide (ToUpper c = ch)) as [->|E].
    + rewrite (decide_True (P := ch ∈ ch :: _)) by by left.
      case_decide; [|done]. by apply list_filter_filter_r.
    + destruct (decide (ch ∈ ToUpper <$> chs)).
      * by rewrite decide_True by by right.
      * rewrite decide_False; [done|]. rewrite elem_of_cons. naive_solver.
Qed.

(** Filtering handlers by identifier is filtering modules. *)
Lemma channel_spec_filter id ch ms :
  filter (other_id id) (channel_spec ch ms) = channel_spec ch (filter (fun m => m_ID m <> id) ms).
Proof using Type.
  unfold channel_spec. induction ms as [|m ms IH]; [done|].
  rewrite bind_cons, filter_app, IH, filter_cons. unfold module_handlers at 1.
  set (n := length _). assert (forall h : namedHandler, (other_id id h) \/ ~ other_id id h) as _ by
    (intros; unfold other_id; destruct (decide (nh_id h = id)); tauto).
  case_decide as Hm.
  - rewrite bind_cons. f_equal. unfold module_handlers. fold n.
    induction n as [|n IHn]; [done|]. cbn [replicate]. rewrite filter_cons_True by done. by rewrite IHn.
  - induction n as [|n IHn]; [done|]. cbn [replicate].
    rewrite filter_cons_False by (unfold other_id; cbn; tauto). exact IHn.
Qed.

Lemma filter_other_all id (hs : list namedHandler) :
  (forall h, h ∈ hs -> nh_id h <> id) -> filter (other_id id) hs = hs.
Proof using Type.
  induction hs as [|h hs IH]; intros H; [done|].
  rewrite filter_cons_True by (apply H; by left). f_equal. apply IH. intros h' Hh'. apply H. by right.
Qed.

Lemma elem_of_channel_spec ch ms h :
  h ∈ channel_spec ch ms ->
  exists m, m ∈ ms /\ nh_id h = m_ID m /\ ch ∈ ToUpper <$> m_Channels m.
Proof using Type.
  intros (m & Hh & Hm)%list_elem_of_bind. exists m. split; [done|].
  unfold module_handlers in Hh. apply elem_of_replicate in Hh as [-> Hn]. split; [done|].
  destruct (filter (ch =.) (ToUpper <$> m_Channels m)) as [|x l] eqn:E; [done|].
  assert (x ∈ filter (ch =.) (ToUpper <$> m_Channels m)) as Hx by (rewrite E; by left).
  apply list_elem_of_filter in Hx as [-> Hx]. exact Hx.
Qed.

Lemma routes_init gated : routes (NewBus gated) (mkRegistry [] []).
Proof using Type.
  split; cbn; [constructor| | |]; intros *; rewrite lookup_empty; [|done|done].
  split; [done|]. intros [H _]. by apply elem_of_nil in H.
Qed.

Lemma routes_Register m b r :
  routes b r -> routes (Register m b).1 (spec_step (ARegister m) r).
Proof using Type.
  intros [Hnd Hm Hc Ht]. unfold Register, spec_step.
  destruct (modules b !! m_ID m) as [m'|] eqn:E.
  - apply Hm in E as [Hin E]. rewrite decide_True; [by split|].
    apply list_elem_of_fmap. by exists m'.
  - assert (m_ID m ∉ m_ID <$> r_modules r) as Hn.
    { intros (m' & E' & Hin)%list_elem_of_fmap.
      assert (modules b !! m_ID m = Some m') as E2 by by apply Hm. congruence. }
    rewrite decide_False by done. split; cbn.
    + rewrite fmap_app. apply NoDup_app. split_and!; [done| |apply NoDup_singleton].
      intros x Hx Hx'. apply list_elem_of_singleton in Hx' as ->. done.
    + intros id m'. rewrite elem_of_app, list_elem_of_singleton.
      destruct (decide (m_ID m = id)) as [<-|Hne].
      * rewrite lookup_insert_eq. split; [intros [= <-]; split; [by right|done]|].
        intros [[Hin| ->] E']; [|done]. exfalso. apply Hn, list_elem_of_fmap. by exists m'.
      * rewrite lookup_insert_ne, Hm by done. naive_solver.
    + intros ch. rewrite append_all_lookup, Hc. unfold channel_spec.
      rewrite bind_app. f_equal. cbn. by rewrite app_nil_r.
    + done.
Qed.

Lemma routes_Unregister id b r :
  routes b r -> routes (Unregister id b) (spec_step (AUnregister id) r).
Proof using Type.
  intros [Hnd Hm Hc Ht]. unfold Unregister, spec_step.
  assert (forall m, m_ID m = id -> m ∈ r_modules r -> modules b !! id = Some m) as Hin
    by (intros m <- H; by apply Hm).
  assert (NoDup (m_ID <$> filter (fun m => m_ID m <> id) (r_modules r))) as Hnd'.
  { clear - Hnd. induction (r_modules r) as [|m ms IH]; [done|].
    rewrite fmap_cons in Hnd. apply NoDup_cons in Hnd as [Hx Hnd]. rewrite filter_cons.
    case_decide; [|by apply IH]. rewrite fmap_cons. apply NoDup_cons. split; [|by apply IH].
    intros (m' & E & [_ Hm']%list_elem_of_filter)%list_elem_of_fmap. apply Hx, list_elem_of_fmap. by exists m'. }
  assert (forall ch, channel_spec ch (filter (fun m => m_ID m <> id) (r_modules r))
    = filter (other_id id) (channel_spec ch (r_modules r))) as Hspec by (intros; by rewrite channel_spec_filter).
  destruct (modules b !! id) as [m|] eqn:E.
  - split; cbn.
    + done.
    + intros id' m'. rewrite list_elem_of_filter. destruct (decide (id = id')) as [<-|Hne].
      * rewrite lookup_delete_eq. naive_solver.
      * rewrite lookup_delete_ne, Hm by done. naive_solver.
    + intros ch. rewrite remove_all_lookup, Hc, Hspec. case_decide as Hch; [done|].
      symmetry. apply filter_other_all. intros h (m' & Hm' & Eh & Hin')%elem_of_channel_spec Eid.
      rewrite Eid in Eh. specialize (Hin m' (eq_sym Eh) Hm'). injection Hin as ->. done.
    + done.
  - assert (forall m, m ∈ r_modules r -> m_ID m <> id) as Hno
      by (intros m Hmr Em; specialize (Hin m Em Hmr); congruence).
    split; cbn; [done| | |done].
    + intros id' m'. rewrite Hm, list_elem_of_filter. naive_solver.
    + intros ch. rewrite Hc, Hspec. symmetry. apply filter_other_all.
      intros h (m' & Hm' & Eh & _)%elem_of_channel_spec. rewrite Eh. by apply Hno.
Qed.

Lemma routes_Subscribe raw t h b r :
  routes b r ->
  routes (set_typeHandlers (append_at t (mkNamed (newID raw) h)) b) (spec_step (ASubscribe raw t h) r).
Proof using Type.
  intros [Hnd Hm Hc Ht]. split; cbn; try done. intros t'.
  rewrite append_at_lookup, Ht. unfold type_spec. rewrite filter_app, fmap_app. f_equal.
  destruct (decide (t = t')) as [->|Hne]; [by rewrite filter_cons_True|by rewrite filter_cons_False].
Qed.

Lemma routes_unsubscribe t id b r :
  routes b r -> routes (unsubscribe t id b) (spec_step (AUnsubscribe t id) r).
Proof using Type.
  intros [Hnd Hm Hc Ht]. split; cbn; try done. intros t'. rewrite remove_at_lookup, Ht.
  unfold type_spec. clear. induction (r_subs r) as [|[t1 h] subs IH]; [by case_decide|].
  destruct (decide (t1 = t')) as [->|Ht1].
  - rewrite (filter_cons_True _ (t', h)) by done. rewrite fmap_cons.
    destruct (decide (t = t' /\ nh_id h = id)) as [[-> Hid]|Hq].
    + revert IH. repeat (case_decide as Hd; [clear Hd|done]). intros IH.
      rewrite filter_cons_False by (unfold other_id; cbn; tauto).
      rewrite (filter_cons_False _ (t', h)) by (cbn; tauto). exact IH.
    + rewrite (filter_cons_True _ (t', h)) by (cbn; naive_solver).
      rewrite (filter_cons_True _ (t', h)) by done. rewrite fmap_cons, <- IH.
      case_decide as Hd; [|done].
      rewrite filter_cons_True; [done|]. unfold other_id. cbn. naive_solver.
  - rewrite (filter_cons_False _ (t1, h)) by done.
    destruct (decide (t1 = t /\ nh_id h = id)) as [Hq|Hq].
    + rewrite (filter_cons_False _ (t1, h)) by (cbn; tauto). exact IH.
    + rewrite (filter_cons_True _ (t1, h)) by (cbn; tauto).
      rewrite (filter_cons_False _ (t1, h)) by done. exact IH.
Qed.

Lemma routes_ext b b' r :
  modules b = modules b' -> channelHandlers b = channelHandlers b' ->
  typeHandlers b = typeHandlers b' -> routes b r -> routes b' r.
Proof using Type. intros E1 E2 E3 [? ? ? ?]. split; [done| | |]; by rewrite <- ?E1, <- ?E2, <- ?E3. Qed.

Lemma step_routes a w w' r :
  step a w = Some w' -> routes (w_bus w) r -> routes (w_bus w') (spec_step a r).
Proof using Type.
  intros Hs Hr. destruct a as [m|id|raw t h|t id|open|now e|raw now e|c|c|order|i]; cbn [step] in Hs.
  - injection Hs as <-. by apply routes_Register.
  - injection Hs as <-. by apply routes_Unregister.
  - injection Hs as <-. by apply routes_Subscribe.
  - injection Hs as <-. by apply routes_unsubscribe.
  - injection Hs as <-. by destruct open; (eapply routes_ext; [..|exact Hr]).
  - destruct (Dispatch now e (w_bus w) (w_chans w)). by injection Hs as <-.
  - injection Hs as <-. unfold Request_start. destruct (Dispatch _ _ _ _). cbn.
    by eapply routes_ext; [..|exact Hr].
  - unfold Request_reply in Hs. destruct (w_requests w !! c) as [id|]; [|done]. cbn in Hs.
    destruct (w_chans w !! c) as [[e|]|]; try done. injection Hs as <-. cbn.
    by eapply routes_ext; [..|exact Hr].
  - unfold Request_abandon in Hs. destruct (w_requests w !! c) as [id|]; [|done].
    injection Hs as <-. by eapply routes_ext; [..|exact Hr].
  - injection Hs as <-. by eapply routes_ext; [..|exact Hr].
  - by injection Hs as <-.
Qed.

Lemma exec_routes acts w w' r :
  exec acts w = Some w' -> routes (w_bus w) r ->
  routes (w_bus w') (foldl (flip spec_step) r acts).
Proof using Type.
  revert w r. induction acts as [|a acts IH]; intros w r; cbn; [by intros [= <-]|].
  destruct (step a w) as [w1|] eqn:E; cbn; [|done]. intros H Hr.
  eapply IH; [exact H|]. by eapply step_routes.
Qed.

Lemma recipients_spec b r e : routes b r -> recipients b e = spec_recipients r e.
Proof using Type.
  intros [_ _ Hc Ht]. unfold recipients, spec_recipients. by rewrite Hc, Ht, fmap_app.
Qed.
(** ** Lemmas on requests *)

Record requests_ok (w : world) : Prop := {
  rq_pending id c : pending (w_bus w) !! id = Some c -> w_requests w !! c = Some id;
  rq_chan c id : w_requests w !! c = Some id -> is_Some (w_chans w !! c);
  rq_buffer c id e : w_requests w !! c = Some id -> w_chans w !! c = Some (Some e) -> ReplyTo e = id;
  rq_results id e : (id, e) ∈ w_results w -> ReplyTo e = id
}.

Lemma hop_ReplyTo now e e' : hop now e = Some e' -> ReplyTo e' = ReplyTo e /\ Type_ e' = Type_ e.
Proof using Type. unfold hop. case_match; [done|]. by intros [= <-]. Qed.

(** What a dispatch can do to a reply channel: fill the empty channel of a
    request that waits for this event's [ReplyTo]. *)
Lemma Dispatch_chans now e b cs c :
  (Dispatch now e b cs).1 !! c = cs !! c \/
  exists e', hop now e = Some e' /\ ReplyTo e <> EmptyString /\
    pending b !! ReplyTo e = Some c /\ cs !! c = Some None /\
    (Dispatch now e b cs).1 !! c = Some (Some e').
Proof using Type.
  unfold Dispatch. destruct (hop now e) as [e'|] eqn:E; [|by left].
  destruct (hop_ReplyTo now e e' E) as [Er _].
  assert ((if bool_decide (Channel (Type_ e') ∈ gatedChannels b) && negb (gateOpen b)
    then (signal_reply b e' cs, [])
    else (signal_reply b e' cs, (fun h => (h, e')) <$> recipients b e')).1 = signal_reply b e' cs)
    as -> by by case_match.
  unfold signal_reply, send. rewrite Er. case_decide; [by left|].
  destruct (pending b !! ReplyTo e) as [c'|] eqn:Ep; [|by left].
  destruct (cs !! c') as [[?|]|] eqn:Ec; [by left| |by left].
  destruct (decide (c = c')) as [->|?]; [|left; by rewrite lookup_insert_ne].
  right. exists e'. by rewrite lookup_insert_eq.
Qed.

Lemma Dispatch_ok now e w cs' started b :
  Dispatch now e b (w_chans w) = (cs', started) -> pending b = pending (w_bus w) ->
  requests_ok w ->
  requests_ok (mkWorld b cs' (w_goroutines w ++ started) (w_requests w) (w_results w)).
Proof using Type.
  intros E Hp [H1 H2 H3 H4].
  assert (forall c, cs' !! c = w_chans w !! c \/ exists e', hop now e = Some e' /\
    pending b !! ReplyTo e = Some c /\ cs' !! c = Some (Some e')) as Hc.
  { intros c. pose proof (Dispatch_chans now e b (w_chans w) c) as H. rewrite E in H. cbn in H.
    destruct H as [?|(e' & ? & _ & ? & _ & ?)]; [by left|right]. by exists e'. }
  split; cbn.
  - intros id c. rewrite Hp. apply H1.
  - intros c id Hr. destruct (Hc c) as [->|(e' & _ & _ & ->)]; [by eapply H2|done].
  - intros c id e' Hr Hb. destruct (Hc c) as [Ec|(e2 & Eh & Ep & Ec)]; rewrite Ec in Hb.
    + by eapply H3.
    + injection Hb as <-. rewrite Hp in Ep. apply H1 in Ep. rewrite Hr in Ep. injection Ep as ->.
      apply (hop_ReplyTo now e e2 Eh).
  - done.
Qed.

Lemma Request_register_ok id c w :
  w_chans w !! c = None -> requests_ok w -> requests_ok (Request_register id c w).
Proof using Type.
  intros Hc [H1 H2 H3 H4].
  assert (w_requests w !! c = None) as Hrc.
  { destruct (w_requests w !! c) as [i|] eqn:E; [|done]. apply H2 in E as [? ?]. congruence. }
  split; cbn.
  - intros id' c'. destruct (decide (id = id')) as [<-|?].
    + rewrite lookup_insert_eq. intros [= <-]. by rewrite lookup_insert_eq.
    + rewrite lookup_insert_ne by done. intros Hp%H1. rewrite lookup_insert_ne; [done|congruence].
  - intros c' id'. destruct (decide (c = c')) as [<-|?]; rewrite ?lookup_insert_eq, ?lookup_insert_ne by done.
    + done.
    + apply H2.
  - intros c' id' e'. destruct (decide (c = c')) as [<-|?]; rewrite ?lookup_insert_eq, ?lookup_insert_ne by done.
    + done.
    + apply H3.
  - done.
Qed.

Lemma fresh_chan (w : world) : w_chans w !! fresh (dom (w_chans w)) = None.
Proof using Type. apply not_elem_of_dom, is_fresh. Qed.

Lemma Request_start_ok raw now e w : requests_ok w -> requests_ok (Request_start raw now e w).
Proof using Type.
  intros Hw. unfold Request_start.
  set (id := if decide (ID e = EmptyString) then newID raw else ID e).
  pose proof (Request_register_ok id _ w (fresh_chan w) Hw) as Hr.
  destruct (Dispatch now _ _ _) as [cs started] eqn:E. by eapply Dispatch_ok in E.
Qed.

Lemma Request_leave_ok c id w :
  w_requests w !! c = Some id -> requests_ok w -> requests_ok (Request_leave c id w).
Proof using Type.
  intros Hc [H1 H2 H3 H4]. split; cbn; [| | |done].
  - intros id' c' [Hne Hp]%lookup_delete_Some. apply H1 in Hp.
    rewrite lookup_delete_ne; [done|congruence].
  - intros c' id' [_ Hr]%lookup_delete_Some. by eapply H2.
  - intros c' id' e' [_ Hr]%lookup_delete_Some. by apply H3.
Qed.

Lemma requests_ok_ext w w' :
  pending (w_bus w) = pending (w_bus w') -> w_chans w = w_chans w' ->
  w_requests w = w_requests w' -> w_results w = w_results w' -> requests_ok w -> requests_ok w'.
Proof using Type.
  intros E1 E2 E3 E4 [? ? ? ?]. split; by rewrite <- ?E1, <- ?E2, <- ?E3, <- ?E4.
Qed.

Lemma step_requests a w w' : step a w = Some w' -> requests_ok w -> requests_ok w'.
Proof using Type.
  intros Hs Hr. destruct a as [m|id|raw t h|t id|open|now e|raw now e|c|c|order|i]; cbn [step] in Hs.
  - injection Hs as <-. eapply requests_ok_ext; [..|exact Hr]; try done.
    cbn. unfold Register. by destruct (modules _ !! _).
  - injection Hs as <-. eapply requests_ok_ext; [..|exact Hr]; try done.
    cbn. unfold Unregister. by destruct (modules _ !! _).
  - injection Hs as <-. by eapply requests_ok_ext; [..|exact Hr].
  - injection Hs as <-. by eapply requests_ok_ext; [..|exact Hr].
  - injection Hs as <-. by destruct open; (eapply requests_ok_ext; [..|exact Hr]).
  - destruct (Dispatch now e (w_bus w) (w_chans w)) as [cs started] eqn:E. injection Hs as <-.
    by eapply Dispatch_ok.
  - injection Hs as <-. by apply Request_start_ok.
  - unfold Request_reply in Hs. destruct (w_requests w !! c) as [id|] eqn:Ec; [|done]. cbn in Hs.
    destruct (w_chans w !! c) as [[e|]|] eqn:Eb; try done. injection Hs as <-.
    pose proof (rq_buffer _ Hr c id e Ec Eb) as Hre.
    destruct (Request_leave_ok c id w Ec Hr) as [H1 H2 H3 H4]. split; cbn in *.
    + done.
    + intros c' id' [Hne Hr']%lookup_delete_Some. rewrite lookup_insert_ne by congruence.
      apply (rq_chan _ Hr c' id' Hr').
    + intros c' id' e' [Hne Hr']%lookup_delete_Some. rewrite lookup_insert_ne by congruence.
      by apply (rq_buffer _ Hr).
    + intros id' e' [Hin|Hin]%elem_of_app; [by apply H4|].
      apply list_elem_of_singleton in Hin. by injection Hin as -> ->.
  - unfold Request_abandon in Hs. destruct (w_requests w !! c) as [id|] eqn:Ec; [|done].
    injection Hs as <-. by apply Request_leave_ok.
  - injection Hs as <-. by eapply requests_ok_ext; [..|exact Hr].
  - injection Hs as <-. by eapply requests_ok_ext; [..|exact Hr].
Qed.

Lemma exec_requests acts w w' : exec acts w = Some w' -> requests_ok w -> requests_ok w'.
Proof using Type.
  revert w. induction acts as [|a acts IH]; intros w; cbn; [by intros [= <-]|].
  destruct (step a w) as [w1|] eqn:E; cbn; [|done]. intros H Hr.
  eapply IH; [exact H|]. by eapply step_requests.
Qed.

Lemma requests_init gated : requests_ok (init gated).
Proof using Type.
  split; cbn; intros *; rewrite ?lookup_empty; try done. intros H. by apply elem_of_nil in H.
Qed.

(** ** Theorems *)

(** C10. Routing. After any trace of registrations, unregistrations,
    subscriptions, requests and dispatches, dispatching an event starts
    exactly these handlers, in order: for every module still registered, in
    order of registration, its handler once per time it lists the event's
    channel; then the live subscriptions to the event's exact type, oldest
    first. While the gate is closed an event of a gated channel starts none,
    and neither does one whose TTL is negative. *)
Theorem dispatch_delivers gated acts w now e :
  exec acts (init gated) = Some w ->
  (Dispatch now e (w_bus w) (w_chans w)).2 =
  match hop now e with
  | None => []
  | Some e' =>
      if bool_decide (Channel (Type_ e) ∈ gatedChannels (w_bus w)) && negb (gateOpen (w_bus w)) then []
      else (fun h => (h, e')) <$> spec_recipients (foldl (flip spec_step) (mkRegistry [] []) acts) e
  end.
Proof using Type.
  intros H. pose proof (exec_routes _ _ _ _ H (routes_init gated)) as Hr.
  unfold Dispatch. destruct (hop now e) as [e'|] eqn:E; [|done].
  destruct (hop_ReplyTo now e e' E) as [_ Et]. rewrite Et, (recipients_spec _ _ e' Hr).
  unfold spec_recipients. rewrite Et. by case_match.
Qed.

(** Requests get their own replies. In every reachable world each reply
    returned by [Request] carries the ID of that request in [ReplyTo]. *)
Theorem request_gets_own_reply gated acts w id e :
  exec acts (init gated) = Some w -> (id, e) ∈ w_results w -> ReplyTo e = id.
Proof using Type.
  intros H. apply (rq_results w). by eapply exec_requests; [|apply requests_init].
Qed.

(** The first reply wins, gate or no gate. If a request waits on an empty
    channel, the first dispatched event that answers it is what the request
    returns, even when a later one also answers it and even when the gate
    keeps the event from every handler. *)
Theorem first_reply_wins w id c now1 e1 e1' now2 e2 :
  pending (w_bus w) !! id = Some c -> w_requests w !! c = Some id ->
  w_chans w !! c = Some None -> id <> EmptyString ->
  ReplyTo e1 = id -> hop now1 e1 = Some e1' ->
  exists w', exec [ADispatch now1 e1; ADispatch now2 e2; AReply c] w = Some w' /\
    w_results w' = w_results w ++ [(id, e1')] /\ pending (w_bus w') !! id = None.
Proof using Type.
  intros Hp Hr Hc Hid He1 Hh. cbn [exec step].
  destruct (Dispatch now1 e1 (w_bus w) (w_chans w)) as [cs1 s1] eqn:E1. cbn [mbind option_bind].
  assert (cs1 !! c = Some (Some e1')) as Hc1.
  { unfold Dispatch in E1. rewrite Hh in E1. destruct (hop_ReplyTo now1 e1 e1' Hh) as [Er _].
    assert (signal_reply (w_bus w) e1' (w_chans w) = <[c := Some e1']> (w_chans w)) as Es.
    { unfold signal_reply, send. rewrite Er, He1, decide_False by done. by rewrite Hp, Hc. }
    rewrite Es in E1. case_match; injection E1 as <- _; by rewrite lookup_insert_eq. }
  cbn [w_bus w_chans w_goroutines w_requests w_results].
  destruct (Dispatch now2 e2 (w_bus w) cs1) as [cs2 s2] eqn:E2. cbn [mbind option_bind].
  assert (cs2 !! c = Some (Some e1')) as Hc2.
  { pose proof (Dispatch_chans now2 e2 (w_bus w) cs1 c) as H. rewrite E2 in H. cbn in H.
    destruct H as [->|(? & _ & _ & _ & H & _)]; [done|congruence]. }
  unfold Request_reply. cbn [w_bus w_chans w_goroutines w_requests w_results].
  rewrite Hr. cbn [mbind option_bind]. rewrite Hc2. cbn [mbind option_bind].
  eexists. split; [reflexivity|]. cbn. by rewrite lookup_delete_eq.
Qed.
End Bus.

(** The event after [n] hops, as it would be dispatched again unchanged. *)
Fixpoint hops (n : nat) (now : Z) (e : Event) : option Event :=
  match n with
  | O => Some e
  | S n => e ← hop now e; hops n now e
  end.

Lemma hop_cases now e :
  0 <= TTL e ->
  exists e', hop now e = Some e' /\ TTL e' = (if decide (TTL e = 0) then 7 else TTL e - 1).
Proof.
  intros H. unfold hop. destruct (Z.leb_spec (TTL e) 0), (Z.eqb_spec (TTL e) 0); cbn; try lia;
    (eexists; split; [reflexivity|]); cbn.
  - by rewrite decide_True.
  - by rewrite decide_False.
Qed.

(** The TTL never breaks a cycle. An event whose TTL is not negative can be
    dispatched again any number of times: at 0 its TTL starts again at the
    default instead of dropping the event. Only a negative TTL, which no
    dispatch produces, is dropped. *)
Theorem ttl_never_exhausted n now e :
  (0 <= TTL e -> exists e', hops n now e = Some e' /\ 0 <= TTL e' <= Z.max 7 (TTL e)) /\
  (hop now e = None <-> TTL e < 0).
Proof.
  split.
  - revert e. induction n as [|n IH]; intros e H; cbn [hops]; [exists e; split; [done|lia]|].
    destruct (hop_cases now e H) as (e1 & -> & E1). cbn [mbind option_bind].
    assert (0 <= TTL e1 <= Z.max 7 (TTL e)) as Hb by (rewrite E1; case_decide; lia).
    destruct (IH e1) as (e' & ? & ?); [lia|]. exists e'. split; [done|lia].
  - unfold hop. destruct (Z.leb_spec (TTL e) 0), (Z.eqb_spec (TTL e) 0); cbn; split; try done; lia.
Qed.

(** [strings.ToUpper] on ASCII text, for the examples. *)
Definition ascii_ToUpper (s : string) : string :=
  bytes_str ((fun b => if (97 <=? bz b) && (bz b <=? 122) then zb (bz b - 32) else b) <$> str_bytes s).

Definition ping (id reply_to : string) : Event := mkEvent id "CRYPTO.PING" [] reply_to "test" 1 8.

Definition sample_acts : list action :=
  [ARegister (mkModule "crypto" ["crypto"; "Tool"]%string 1%nat);
   ARegister (mkModule "spy" ["CRYPTO"]%string 2%nat);
   ASubscribe (replicate 16 x01) "CRYPTO.PING" 3%nat;
   ARequest [] 5 (ping "req" EmptyString);
   AUnregister "spy";
   ADispatch 6 (ping "rep" "req");
   AReply 0].

Lemma dispatch_delivers_witness :
  exists w, exec ascii_ToUpper sample_acts (init ascii_ToUpper []) = Some w /\
    (Dispatch 7 (ping "x" EmptyString) (w_bus w) (w_chans w)).2
    = (fun h => (h, mkEvent "x" "CRYPTO.PING" [] EmptyString "test" 1 7)) <$> [1; 3]%nat.
Proof.
  destruct (exec ascii_ToUpper sample_acts (init ascii_ToUpper [])) as [w|] eqn:E;
    [|by vm_compute in E].
  exists w. split; [done|].
  rewrite (dispatch_delivers ascii_ToUpper [] sample_acts w 7 (ping "x" EmptyString) E).
  assert (gateOpen (w_bus w) = false /\ gatedChannels (w_bus w) = ∅) as [-> ->]
    by (vm_compute in E; injection E as <-; by vm_compute).
  by vm_compute.
Defined.

Lemma request_gets_own_reply_witness :
  exists w, exec ascii_ToUpper sample_acts (init ascii_ToUpper []) = Some w /\
    exists e, w_results w = [("req"%string, e)] /\ ReplyTo e = "req"%string.
Proof.
  destruct (exec ascii_ToUpper sample_acts (init ascii_ToUpper [])) as [w|] eqn:E;
    [|by vm_compute in E].
  exists w. split; [done|].
  assert (exists e, w_results w = [("req"%string, e)]) as [e He]
    by (vm_compute in E; injection E as <-; by eexists).
  exists e. split; [done|].
  apply (request_gets_own_reply ascii_ToUpper [] sample_acts w "req" e E). rewrite He. by left.
Defined.

Lemma first_reply_wins_witness :
  exists w w', exec ascii_ToUpper (take 4 sample_acts) (init ascii_ToUpper []) = Some w /\
    exec ascii_ToUpper [ADispatch 6 (ping "a" "req"); ADispatch 7 (ping "b" "req"); AReply 0] w = Some w' /\
    w_results w' = [("req"%string, mkEvent "a" "CRYPTO.PING" [] "req" "test" 1 7)].
Proof.
  destruct (exec ascii_ToUpper (take 4 sample_acts) (init ascii_ToUpper [])) as [w|] eqn:E;
    [|by vm_compute in E].
  destruct (first_reply_wins ascii_ToUpper w "req" 0%nat 6 (ping "a" "req")
    (mkEvent "a" "CRYPTO.PING" [] "req" "test" 1 7) 7 (ping "b" "req")) as (w' & H1 & H2 & _);
    try (vm_compute in E; injection E as <-; by vm_compute).
  exists w, w'. split; [done|]. split; [exact H1|]. rewrite H2.
  vm_compute in E. injection E as <-. by vm_compute.
Defined.
