(* ===== verification/BusThreads.v ===== *)
(** * The event bus, critical section by critical section ([engine/kernel/bus.go])

    [Bus] takes a call of [Dispatch] as one step. The code releases a lock and
    takes another three times on the way: it looks up the waiting request,
    sends on its channel, reads the gate, copies the handlers and starts their
    goroutines one by one. [BusLocks] takes the locks themselves apart.
    [Request] registers its channel, dispatches, waits
    in a [select] for the reply or the end of a context, and deletes its entry
    in a deferred call. Here each of these is a step of the calling thread,
    and any other call can come between two of them. *)

From S2P Require Import Prelude GoStd Event Bus.

Section Threads.
Context {Handler : Type}.
Context (ToUpper : string -> string).
#[local] Abbreviation world := (world (Handler := Handler)).

(** ** Threads *)

(** Where a thread is in [Dispatch], after the TTL and the time stamp, or in a
    [Request] that has its reply. *)
Inductive stage :=
| SReply (e : Event)                            (* [if e.ReplyTo != ""], the lookup *)
| SSend (c : nat) (e : Event)                   (* the [select] that sends or gives up *)
| SGate (e : Event)                             (* the gate check *)
| SHandlers (e : Event)                         (* the copy of the handlers *)
| SSpawn (handlers : list Handler) (e : Event)  (* [for _, h := range chHandlers] *)
| SLeave (c : nat)                              (* the deferred deletion of [Request] *).

(** A thread in [Dispatch]; [t_req] is the reply channel when [Request] called it. *)
Record thread := mkThread {
  t_stage : stage;
  t_req : option nat
}.

(** [f_waiting] are the reply channels of the requests in their [select]. *)
Record fworld := mkF {
  f_w : world;
  f_threads : gmap nat thread;
  f_waiting : gset nat
}.

Definition with_chans (cs : gmap nat (option Event)) (w : world) : world :=
  mkWorld (w_bus w) cs (w_goroutines w) (w_requests w) (w_results w).
Definition with_goroutines (gs : list (Handler * Event)) (w : world) : world :=
  mkWorld (w_bus w) (w_chans w) (w_goroutines w ++ gs) (w_requests w) (w_results w).

(** [case reply := <-replyCh]; the deferred deletion of the entry. *)
Definition receive (c : nat) (w : world) : option world :=
  id ← w_requests w !! c;
  buffered ← w_chans w !! c;
  reply ← buffered;
  Some (mkWorld (w_bus w) (<[c := None]> (w_chans w)) (w_goroutines w) (w_requests w)
          (w_results w ++ [(id, reply)])).
Definition leave_request (c : nat) (w : world) : world :=
  match w_requests w !! c with
  | Some id => Request_leave c id w
  | None => w
  end.

Definition gate_open (w : world) (e : Event) : bool :=
  negb (bool_decide (Channel (Type_ e) ∈ gatedChannels (w_bus w)) && negb (gateOpen (w_bus w))).

(** One critical section; [None] when [Dispatch] returns. *)
Definition advance (s : stage) (w : world) : world * option stage :=
  match s with
  | SReply e =>
      (w, Some (if decide (ReplyTo e = EmptyString) then SGate e
                else match pending (w_bus w) !! ReplyTo e with
                     | Some c => SSend c e
                     | None => SGate e
                     end))
  | SSend c e => (with_chans (send c e (w_chans w)) w, Some (SGate e))
  | SGate e => (w, if gate_open w e then Some (SHandlers e) else None)
  | SHandlers e => (w, Some (SSpawn (recipients (w_bus w) e) e))
  | SSpawn [] e => (w, None)
  | SSpawn (h :: hs) e => (with_goroutines [(h, e)] w, Some (SSpawn hs e))
  | SLeave c => (leave_request c w, None)
  end.

(** ** Steps *)

Definition leave (req : option nat) (waiting : gset nat) : gset nat :=
  match req with
  | Some c => {[c]} ∪ waiting
  | None => waiting
  end.

(** The start of [Dispatch], which touches nothing shared. *)
Definition begin (now : Z) (e : Event) (req : option nat) (f : fworld) : fworld :=
  match hop now e with
  | None => mkF (f_w f) (f_threads f) (leave req (f_waiting f))
  | Some e =>
      mkF (f_w f) (<[fresh (dom (f_threads f)) := mkThread (SReply e) req]> (f_threads f)) (f_waiting f)
  end.

(** One of the cases of the [select] in [Request]: only the deletion is left. *)
Definition leave_select (c : nat) (w : world) (f : fworld) : option fworld :=
  if decide (c ∈ f_waiting f)
  then Some (mkF w (<[fresh (dom (f_threads f)) := mkThread (SLeave c) None]> (f_threads f)) (f_waiting f ∖ {[c]}))
  else None.

Inductive faction :=
| FCall (a : action (Handler := Handler))     (* a call that is one critical section *)
| FDispatch (now : Z) (e : Event)
| FRequest (raw : list byte) (now : Z) (e : Event)
| FReceive (c : nat)                          (* a waiting [Request] gets its reply *)
| FGiveUp (c : nat)                           (* or its context ends, or the bus's *)
| FRun (i : nat).

Definition fstep (a : faction) (f : fworld) : option fworld :=
  match a with
  | FCall (ADispatch _ _) | FCall (ARequest _ _ _) | FCall (AReply _)
  | FCall (AAbandon _) => None
  | FCall a => w ← step ToUpper a (f_w f); Some (mkF w (f_threads f) (f_waiting f))
  | FDispatch now e => Some (begin now e None f)
  | FRequest raw now e =>
      let id := if decide (ID e = EmptyString) then newID raw else ID e in
      let e := mkEvent id (Type_ e) (Payload e) (ReplyTo e) (Origin e) (Timestamp e) (TTL e) in
      let c := fresh (dom (w_chans (f_w f))) in
      Some (begin now e (Some c) (mkF (Request_register id c (f_w f)) (f_threads f) (f_waiting f)))
  | FReceive c => w ← receive c (f_w f); leave_select c w f
  | FGiveUp c => leave_select c (f_w f) f
  | FRun i =>
      t ← f_threads f !! i;
      match advance (t_stage t) (f_w f) with
      | (w, Some s) => Some (mkF w (<[i := mkThread s (t_req t)]> (f_threads f)) (f_waiting f))
      | (w, None) => Some (mkF w (delete i (f_threads f)) (leave (t_req t) (f_waiting f)))
      end
  end.

Fixpoint fexec (acts : list faction) (f : fworld) : option fworld :=
  match acts with
  | [] => Some f
  | a :: acts => f ← fstep a f; fexec acts f
  end.

Definition finit (gated : list string) : fworld := mkF (init ToUpper gated) ∅ ∅.

Lemma fexec_app a b f : fexec (a ++ b) f = fexec a f ≫= fexec b.
Proof using Type.
  revert f. induction a as [|x a IH]; intros f; [done|]. cbn. destruct (fstep x f); cbn; [apply IH|done].
Qed.

(** Induction on traces, growing at the end. *)
Lemma fexec_ind (P : list faction -> fworld -> Prop) f0 :
  P [] f0 ->
  (forall acts a f f', fexec acts f0 = Some f -> P acts f -> fstep a f = Some f' -> P (acts ++ [a]) f') ->
  forall acts f, fexec acts f0 = Some f -> P acts f.
Proof using Type.
  intros H0 HS acts. induction acts as [|a acts IH] using rev_ind; intros f; [by intros [= <-]|].
  rewrite fexec_app. destruct (fexec acts f0) as [f1|] eqn:E; [|done]. cbn [mbind option_bind fexec].
  destruct (fstep a f1) as [f2|] eqn:E2; [|done]. intros [= <-]. eapply HS; [exact E| |exact E2]. by apply IH.
Qed.

(** ** Alone, a thread does what the atomic call does *)

(** What is left of [Dispatch] when nothing intervenes. *)
Definition rest_gate (e : Event) (w : world) : world :=
  if gate_open w e then with_goroutines ((fun h => (h, e)) <$> recipients (w_bus w) e) w else w.
Definition rest (s : stage) (w : world) : world :=
  match s with
  | SReply e => rest_gate e (with_chans (signal_reply (w_bus w) e (w_chans w)) w)
  | SSend c e => rest_gate e (with_chans (send c e (w_chans w)) w)
  | SGate e => rest_gate e w
  | SHandlers e => with_goroutines ((fun h => (h, e)) <$> recipients (w_bus w) e) w
  | SSpawn hs e => with_goroutines ((fun h => (h, e)) <$> hs) w
  | SLeave c => leave_request c w
  end.

(** How many sections it has left, at most. *)
Definition left_over (s : stage) (w : world) : nat :=
  match s with
  | SReply e => 5 + length (recipients (w_bus w) e)
  | SSend _ e => 4 + length (recipients (w_bus w) e)
  | SGate e => 3 + length (recipients (w_bus w) e)
  | SHandlers e => 2 + length (recipients (w_bus w) e)
  | SSpawn hs _ => 1 + length hs
  | SLeave _ => 1
  end.

Lemma with_goroutines_nil w : with_goroutines [] w = w.
Proof using Type. destruct w. unfold with_goroutines. cbn. by rewrite app_nil_r. Qed.
Lemma with_goroutines_app a b w : with_goroutines b (with_goroutines a w) = with_goroutines (a ++ b) w.
Proof using Type. unfold with_goroutines. cbn. by rewrite app_assoc. Qed.

(** One section leads to the same end. *)
Lemma advance_rest s w :
  match advance s w with
  | (w', Some s') => rest s' w' = rest s w /\ (left_over s' w' < left_over s w)%nat
  | (w', None) => w' = rest s w /\ (0 < left_over s w)%nat
  end.
Proof using Type.
  destruct s as [e|c e|e|e|[|h hs] e|c]; cbn [advance rest left_over].
  - unfold signal_reply. destruct w as [b cs gs rs res]. case_decide; [cbn; split; [done|lia]|].
    cbn. destruct (pending b !! ReplyTo e); cbn; (split; [done|lia]).
  - split; [done|cbn; lia].
  - unfold rest_gate. destruct (gate_open w e); (split; [done|cbn; lia]).
  - split; [done|cbn; lia].
  - split; [by rewrite with_goroutines_nil|lia].
  - split; [by rewrite with_goroutines_app|cbn; lia].
  - split; [done|lia].
Qed.

Lemma run_alone n i s req f :
  f_threads f !! i = Some (mkThread s req) -> (left_over s (f_w f) <= n)%nat ->
  exists k, (1 <= k <= n)%nat /\
    fexec (replicate k (FRun i)) f =
    Some (mkF (rest s (f_w f)) (delete i (f_threads f)) (leave req (f_waiting f))).
Proof using Type.
  revert s f. induction n as [|n IH]; intros s f Hi Hn.
  { pose proof (advance_rest s (f_w f)) as H. destruct (advance s (f_w f)) as [w' [s'|]]; lia. }
  pose proof (advance_rest s (f_w f)) as H. destruct (advance s (f_w f)) as [w' [s'|]] eqn:E.
  - destruct H as [Hr Hl].
    destruct (IH s' (mkF w' (<[i := mkThread s' req]> (f_threads f)) (f_waiting f))) as (k & Hk & Hx).
    { apply lookup_insert_eq. } { cbn. lia. }
    exists (S k). split; [lia|]. cbn [replicate fexec fstep]. rewrite Hi. cbn [mbind option_bind t_stage t_req].
    rewrite E. cbn [mbind option_bind]. rewrite Hx. cbn [f_w f_threads f_waiting]. by rewrite Hr, delete_insert_eq.
  - destruct H as [-> _]. exists 1%nat. split; [lia|]. cbn [replicate fexec fstep]. rewrite Hi.
    cbn [mbind option_bind t_stage t_req]. by rewrite E.
Qed.

Lemma rest_Dispatch now e e' w :
  hop now e = Some e' ->
  rest (SReply e') w = (let '(cs, started) := Dispatch now e (w_bus w) (w_chans w) in
                        with_goroutines started (with_chans cs w)).
Proof using Type.
  intros E. unfold Dispatch. rewrite E. cbn [rest]. unfold rest_gate, gate_open. cbn.
  destruct (bool_decide _ && negb _); cbn; [by rewrite with_goroutines_nil|done].
Qed.

(** The world without threads that an atomic world stands for. *)
Definition embed (w : world) : fworld := mkF w ∅ (dom (w_requests w)).

Lemma begin_alone now e req w waiting :
  exists facts, fexec facts (begin now e req (mkF w ∅ waiting)) =
    Some (mkF (let '(cs, started) := Dispatch now e (w_bus w) (w_chans w) in
               with_goroutines started (with_chans cs w)) ∅ (leave req waiting)).
Proof using Type.
  unfold begin. cbn [f_w f_threads f_waiting]. destruct (hop now e) as [e'|] eqn:E.
  - set (i := fresh _). set (f := mkF w (<[i := mkThread (SReply e') req]> ∅) waiting).
    destruct (run_alone _ i (SReply e') req f (lookup_insert_eq _ _ _) (le_n _)) as (k & _ & Hx).
    exists (replicate k (FRun i)). rewrite Hx. unfold f. cbn [f_w f_threads f_waiting].
    by rewrite (rest_Dispatch now e e' w E), delete_insert_id by apply lookup_empty.
  - exists []. unfold Dispatch. rewrite E, with_goroutines_nil. by destruct w.
Qed.

Lemma Request_reply_split c w w' :
  Request_reply c w = Some w' ->
  exists w1, receive c w = Some w1 /\ leave_request c w1 = w' /\ w_requests w !! c <> None /\
    w_requests w' = delete c (w_requests w).
Proof using Type.
  unfold Request_reply, receive. destruct (w_requests w !! c) as [id|] eqn:Er; [|done]. cbn.
  destruct (w_chans w !! c) as [[e|]|]; [|done..]. intros [= <-]. eexists. split; [reflexivity|].
  unfold leave_request. cbn. by rewrite Er.
Qed.

Lemma step_embed a w w' :
  step ToUpper a w = Some w' -> exists facts, fexec facts (embed w) = Some (embed w').
Proof using Type.
  intros Hs. assert (forall a, fstep (FCall a) (embed w) = Some (embed w') ->
    exists facts, fexec facts (embed w) = Some (embed w')) as Hone.
  { intros a' Ha. exists [FCall a']. cbn [fexec]. by rewrite Ha. }
  assert (forall c w1 acts, w_requests w !! c <> None -> w_requests (leave_request c w1) = delete c (w_requests w) ->
    fexec acts (embed w) = leave_select c w1 (embed w) -> exists facts, fexec facts (embed w) = Some (embed (leave_request c w1))) as Hleave.
  { intros c w1 acts Hc E Hx. exists (acts ++ [FRun (fresh (dom (∅ : gmap nat thread)))]).
    rewrite fexec_app, Hx. unfold leave_select, embed. cbn [f_w f_threads f_waiting].
    rewrite decide_True by (apply elem_of_dom; by destruct (w_requests w !! c)).
    cbn [mbind option_bind fexec fstep f_threads f_w f_waiting].
    rewrite lookup_insert_eq. cbn [mbind option_bind t_stage t_req advance leave].
    by rewrite delete_insert_id, E, dom_delete_L by apply lookup_empty. }
  destruct a as [m|id|raw t h|t id|open|now e|raw now e|c|c|order|i].
  1-5,10,11: match goal with H : step _ ?a _ = _ |- _ => apply (Hone a) end;
    cbn [fstep f_w f_threads f_waiting embed]; rewrite Hs; cbn [step] in Hs; by injection Hs as <-.
  - cbn [step] in Hs. destruct (begin_alone now e None w (dom (w_requests w))) as [facts Hx].
    exists (FDispatch now e :: facts). cbn [fexec fstep mbind option_bind]. unfold embed. rewrite Hx.
    destruct (Dispatch now e (w_bus w) (w_chans w)) as [cs started]. by injection Hs as <-.
  - cbn [step] in Hs. set (id := if decide (ID e = EmptyString) then newID raw else ID e) in *.
    set (c := fresh (dom (w_chans w))) in *.
    set (e1 := mkEvent id (Type_ e) (Payload e) (ReplyTo e) (Origin e) (Timestamp e) (TTL e)) in *.
    destruct (begin_alone now e1 (Some c) (Request_register id c w) (dom (w_requests w))) as [facts Hx].
    exists (FRequest raw now e :: facts). cbn [fexec fstep mbind option_bind embed f_w f_threads f_waiting].
    fold id c e1. rewrite Hx. injection Hs as <-. unfold Request_start. fold id c e1. cbn.
    destruct (Dispatch now e1 _ _) as [cs started]. unfold embed, with_goroutines, with_chans, Request_register. cbn.
    by rewrite dom_insert_L.
  - apply Request_reply_split in Hs as (w1 & H1 & <- & Hc & E). apply (Hleave c w1 [FReceive c] Hc E).
    cbn [fexec fstep embed f_w]. rewrite H1. cbn [mbind option_bind]. by destruct (leave_select c w1 _).
  - cbn [step] in Hs. unfold Request_abandon in Hs. destruct (w_requests w !! c) as [id|] eqn:Er; [|done].
    injection Hs as <-. assert (Request_leave c id w = leave_request c w) as -> by (unfold leave_request; by rewrite Er).
    apply (Hleave c w [FGiveUp c]); [by rewrite Er|unfold leave_request; by rewrite Er|].
    cbn [fexec fstep]. by destruct (leave_select c _ _).
Qed.

(** ** Replies *)

(** As [requests_ok], and a thread about to send holds a channel that, if its
    request still waits, waits for this very reply. *)
Record freplies_ok (f : fworld) : Prop := {
  fr_base : requests_ok (f_w f);
  fr_send i c e req : f_threads f !! i = Some (mkThread (SSend c e) req) ->
    is_Some (w_chans (f_w f) !! c) /\ forall id, w_requests (f_w f) !! c = Some id -> ReplyTo e = id
}.

(** A step that keeps the domain of the channels and adds no request. *)
Lemma freplies_mono f w (T : gmap nat thread) W :
  freplies_ok f -> requests_ok w ->
  (forall c, is_Some (w_chans (f_w f) !! c) -> is_Some (w_chans w !! c)) ->
  (forall c id, is_Some (w_chans (f_w f) !! c) -> w_requests w !! c = Some id -> w_requests (f_w f) !! c = Some id) ->
  (forall i c e req, T !! i = Some (mkThread (SSend c e) req) ->
     f_threads f !! i = Some (mkThread (SSend c e) req) \/
     (is_Some (w_chans w !! c) /\ forall id, w_requests w !! c = Some id -> ReplyTo e = id)) ->
  freplies_ok (mkF w T W).
Proof using Type.
  intros [Hb Hs] Hw Hc Hr HT. split; [done|]. cbn. intros i c e req Hi.
  destruct (HT i c e req Hi) as [Ho|Hn]; [|done]. apply Hs in Ho as [H1 H2].
  split; [by apply Hc|]. intros id Hid. apply H2. by apply Hr.
Qed.

(** The calls that are one critical section. *)
Definition one_section (a : action (Handler := Handler)) : Prop :=
  match a with ADispatch _ _ | ARequest _ _ _ | AReply _ | AAbandon _ => False | _ => True end.

Lemma fstep_call a f f' :
  fstep (FCall a) f = Some f' ->
  exists w W, step ToUpper a (f_w f) = Some w /\ f' = mkF w (f_threads f) W /\ one_section a.
Proof using Type.
  intros Hs. destruct a; cbn [fstep] in Hs; try done.
  all: match type of Hs with context [step ToUpper ?a ?w] => destruct (step ToUpper a w) as [w1|] eqn:E end; [|done].
  all: injection Hs as <-; exists w1; eexists; done.
Qed.

(** A request leaves its [select] with a reply or without. *)
Definition picks (c : nat) (w w' : world) : Prop := receive c w = Some w' \/ w' = w.

Lemma fstep_select a f f' :
  fstep a f = Some f' ->
  match a with
  | FReceive c | FGiveUp c =>
      exists w W, picks c (f_w f) w /\
        f' = mkF w (<[fresh (dom (f_threads f)) := mkThread (SLeave c) None]> (f_threads f)) W
  | _ => True
  end.
Proof using Type.
  destruct a as [a|now e|raw now e|c|c|i]; try done; cbn [fstep]; unfold leave_select.
  - destruct (receive c (f_w f)) as [w|] eqn:E; [|done]. cbn. case_decide; [|done]. intros [= <-].
    eexists w, _. by split; [left|].
  - case_decide; [|done]. intros [= <-]. eexists _, _. by split; [right|].
Qed.

(** A step of one critical section neither forgets a channel nor adds a request. *)
Lemma step_calls a f w (T : gmap nat thread) W :
  step ToUpper a (f_w f) = Some w -> one_section a -> T = f_threads f -> freplies_ok f -> freplies_ok (mkF w T W).
Proof using Type.
  intros Hs Hsec -> Hok. apply (freplies_mono f); [done|by eapply step_requests, Hok| | |by left].
  all: intros c *; destruct a as [m|id0|raw t h|t id0|open|now e|raw now e|c1|c1|order|i]; cbn [step] in Hs;
    try by injection Hs as <-.
  all: done.
Qed.

Lemma picks_replies c f w i W :
  picks c (f_w f) w -> freplies_ok f -> freplies_ok (mkF w (<[i := mkThread (SLeave c) None]> (f_threads f)) W).
Proof using Type.
  intros Hs Hok. pose proof Hok as [Hb _].
  assert (forall (T : gmap nat thread) j c' e' r, <[i := mkThread (SLeave c) None]> T !! j = Some (mkThread (SSend c' e') r) ->
    T !! j = Some (mkThread (SSend c' e') r)) as HT by by intros * [[_ [=]]|[_ Hj]]%lookup_insert_Some.
  destruct Hs as [Hs| ->]; [|by apply (freplies_mono f); try done; intros * Hj%HT; left].
  destruct Hb as [B1 B2 B3 B4]. unfold receive in Hs.
  destruct (w_requests (f_w f) !! c) as [id|] eqn:Er; [|done]. cbn in Hs.
  destruct (w_chans (f_w f) !! c) as [[e|]|] eqn:Ec; try done. injection Hs as <-.
  assert (forall c', is_Some (w_chans (f_w f) !! c') -> is_Some (<[c := None]> (w_chans (f_w f)) !! c')) as Hdom.
  { intros c' Hc'. destruct (decide (c = c')) as [<-|]; [by rewrite lookup_insert_eq|by rewrite lookup_insert_ne]. }
  apply (freplies_mono f); [done| |done|done|by intros * Hj%HT; left].
  split; cbn; [done| | |].
  - intros c' id' Hc'%B2. by apply Hdom.
  - intros c' id' e' Hc'. destruct (decide (c = c')) as [<-|]; [by rewrite lookup_insert_eq|].
    rewrite lookup_insert_ne by done. by apply B3.
  - intros id' e' [Hin|Hin]%elem_of_app; [by apply B4|]. apply list_elem_of_singleton in Hin. injection Hin as -> ->.
    by eapply B3.
Qed.

Lemma begin_replies now e req f : freplies_ok f -> freplies_ok (begin now e req f).
Proof using Type.
  intros Hok. unfold begin. destruct (hop now e) as [e'|];
    (apply (freplies_mono f); [done|apply Hok|done|done|]); [|by left].
  intros i c e2 r [[_ [=]]|[_ H]]%lookup_insert_Some. by left.
Qed.

Lemma advance_replies i t f w ost :
  f_threads f !! i = Some t -> advance (t_stage t) (f_w f) = (w, ost) -> freplies_ok f ->
  requests_ok w /\ (forall c id, w_requests w !! c = Some id -> w_requests (f_w f) !! c = Some id) /\
  (forall c, is_Some (w_chans (f_w f) !! c) -> is_Some (w_chans w !! c)) /\
  (forall c e, ost = Some (SSend c e) ->
     is_Some (w_chans w !! c) /\ forall id, w_requests w !! c = Some id -> ReplyTo e = id).
Proof using Type.
  intros Hi Ha [Hb Hs]. destruct t as [s req]. cbn [t_stage] in Ha.
  destruct s as [e|c e|e|e|[|h hs] e|c]; cbn [advance] in Ha; injection Ha as <- <-.
  - split_and!; [done|done|done|]. intros c e' E. injection E as E. case_decide; [done|].
    destruct (pending (w_bus (f_w f)) !! ReplyTo e) as [c'|] eqn:Ep; [|done]. injection E as -> <-.
    pose proof (rq_pending _ Hb _ _ Ep) as Hr. split; [by eapply rq_chan|]. intros id. rewrite Hr. congruence.
  - destruct (Hs i c e req Hi) as [H1 H2]. split_and!; [|done| |by intros].
    + destruct Hb as [B1 B2 B3 B4]. split; cbn; [done| | |done]; unfold send.
      * intros c' id Hc'%B2. destruct (w_chans (f_w f) !! c) as [[?|]|] eqn:E; [done| |done].
        destruct (decide (c = c')) as [<-|]; [by rewrite lookup_insert_eq|by rewrite lookup_insert_ne].
      * intros c' id e' Hc' Hbuf. destruct (w_chans (f_w f) !! c) as [[?|]|] eqn:E; [by eapply B3| |by eapply B3].
        destruct (decide (c = c')) as [<-|]; [|rewrite lookup_insert_ne in Hbuf by done; by eapply B3].
        rewrite lookup_insert_eq in Hbuf. injection Hbuf as <-. by apply H2.
    + intros c' Hc'. cbn. unfold send. destruct (w_chans (f_w f) !! c) as [[?|]|] eqn:E; [done| |done].
      destruct (decide (c = c')) as [<-|]; [by rewrite lookup_insert_eq|by rewrite lookup_insert_ne].
  - split_and!; [done|done|done|]. intros c e'. by case_match.
  - split_and!; by intros.
  - split_and!; by intros.
  - split_and!; [|done|done|by intros]. by eapply requests_ok_ext; [..|exact Hb].
  - unfold leave_request. destruct (w_requests (f_w f) !! c) as [id|] eqn:E; [|done].
    split_and!; [by apply Request_leave_ok| |done|done]. intros c' id' Hd. cbn in Hd. by apply lookup_delete_Some in Hd as [_ ?].
Qed.

Lemma fstep_replies a f f' : fstep a f = Some f' -> freplies_ok f -> freplies_ok f'.
Proof using Type.
  intros Hs Hok. destruct a as [a|now e|raw now e|c|c|i].
  4,5: by apply fstep_select in Hs as (w & W & Hp & ->); apply picks_replies.
  all: cbn [fstep] in Hs.
  - apply fstep_call in Hs as (w & W & H & -> & Hsec).
    by eapply step_calls.
  - injection Hs as <-. by apply begin_replies.
  - injection Hs as <-. apply begin_replies. pose proof (fresh_chan (f_w f)) as Hc.
    apply (freplies_mono f); [done|by apply Request_register_ok, Hok| | |by left]; cbn.
    + intros c Hi. rewrite lookup_insert_ne; [done|]. intros <-. rewrite Hc in Hi. by destruct Hi.
    + intros c id Hi. rewrite lookup_insert_ne; [done|]. intros <-. rewrite Hc in Hi. by destruct Hi.
  - destruct (f_threads f !! i) as [t|] eqn:Ei; [|done]. cbn [mbind option_bind] in Hs.
    destruct (advance (t_stage t) (f_w f)) as [w ost] eqn:Ea.
    destruct (advance_replies i t f w ost Ei Ea Hok) as (H1 & H2 & H3 & H4).
    destruct ost as [s|]; injection Hs as <-; (apply (freplies_mono f); [done|done|done|by intros c id _; apply H2|]).
    + intros j c e r [[_ [= -> _]]|[_ Hj]]%lookup_insert_Some; [right; by apply H4|by left].
    + intros j c e r [_ Hj]%lookup_delete_Some. by left.
Qed.

Lemma fexec_replies gated acts f : fexec acts (finit gated) = Some f -> freplies_ok f.
Proof using Type.
  revert acts f. apply (fexec_ind (fun _ => freplies_ok)).
  - split; [apply requests_init|]. intros i c e req Hi. cbn in Hi. by rewrite lookup_empty in Hi.
  - intros acts a f f' _ Hok Hs. by eapply fstep_replies.
Qed.

(** ** Routing *)

(** The registrations and subscriptions a trace leaves in force. *)
Definition call (a : faction) : option (action (Handler := Handler)) :=
  match a with FCall a => Some a | _ => None end.
Definition registered (acts : list faction) : registry (Handler := Handler) :=
  foldl (flip spec_step) (mkRegistry [] []) (omap call acts).

Lemma registered_snoc acts a :
  registered (acts ++ [a]) = match call a with Some a => spec_step a (registered acts) | None => registered acts end.
Proof using Type. unfold registered. rewrite omap_app. cbn. destruct (call a); [by rewrite foldl_snoc|by rewrite app_nil_r]. Qed.

Lemma begin_bus now e req f : w_bus (f_w (begin now e req f)) = w_bus (f_w f).
Proof using Type. unfold begin. by destruct (hop now e). Qed.

(** Threads and replies only ever remove pending entries. *)
Definition only_pending (b b' : bus (Handler := Handler)) : Prop :=
  exists P, b' = set_pending (fun _ => P) b /\ forall id c, P !! id = Some c -> pending b !! id = Some c.

Lemma only_pending_refl b : only_pending b b.
Proof using Type. exists (pending b). by destruct b. Qed.

Lemma advance_bus s w : only_pending (w_bus w) (w_bus (advance s w).1).
Proof using Type.
  destruct s as [e|c e|e|e|[|h hs] e|c]; try apply only_pending_refl. cbn [advance fst]. unfold leave_request.
  destruct (w_requests w !! c) as [id|]; [|apply only_pending_refl].
  exists (delete id (pending (w_bus w))). split; [done|]. by intros id' c' [_ ?]%lookup_delete_Some.
Qed.

Lemma picks_bus c w w' : picks c w w' -> w_bus w' = w_bus w /\ w_goroutines w' = w_goroutines w.
Proof using Type.
  intros [H| ->]; [|done]. unfold receive in H. destruct (w_requests w !! c); [|done]. cbn in H.
  destruct (w_chans w !! c) as [[?|]|]; [|done..]. by injection H as <-.
Qed.

(** What a step that is no call does to the bus, apart from registering requests. *)
Lemma fstep_bus a f f' :
  fstep a f = Some f' ->
  match a with
  | FCall a => exists w W, step ToUpper a (f_w f) = Some w /\ f' = mkF w (f_threads f) W /\ one_section a
  | FRequest raw now e =>
      w_bus (f_w f') = set_pending (insert (if decide (ID e = EmptyString) then newID raw else ID e)
        (fresh (dom (w_chans (f_w f))))) (w_bus (f_w f))
  | _ => only_pending (w_bus (f_w f)) (w_bus (f_w f'))
  end.
Proof using Type.
  intros Hs. destruct a as [a|now e|raw now e|c|c|i]; [by apply fstep_call|..].
  3,4: apply fstep_select in Hs as (w & W & [E _]%picks_bus & ->); cbn; rewrite E; apply only_pending_refl.
  - injection Hs as <-. rewrite begin_bus. apply only_pending_refl.
  - injection Hs as <-. by rewrite begin_bus.
  - cbn [fstep] in Hs. destruct (f_threads f !! i) as [t|]; [|done]. cbn [mbind option_bind] in Hs.
    pose proof (advance_bus (t_stage t) (f_w f)) as Hb. destruct (advance (t_stage t) (f_w f)) as [w [s|]];
      by injection Hs as <-.
Qed.

Lemma fexec_routes gated acts f :
  fexec acts (finit gated) = Some f -> routes ToUpper (w_bus (f_w f)) (registered acts).
Proof using Type.
  revert acts f. apply (fexec_ind (fun acts f => routes ToUpper (w_bus (f_w f)) (registered acts))).
  { apply routes_init. }
  intros acts a f f' _ Hr Hs. rewrite registered_snoc. apply fstep_bus in Hs.
  destruct a as [a|now e|raw now e|c|c|i]; cbn [call].
  2,4-6: destruct Hs as (P & -> & _); by eapply routes_ext; [..|exact Hr].
  - destruct Hs as (w & W & H & -> & _). by eapply step_routes.
  - rewrite Hs. by eapply routes_ext; [..|exact Hr].
Qed.

(** ** What a handler's goroutine shows of the past *)

(** After the first [k] actions of a trace the gate let the event through. *)
Definition passed_gate (gated : list string) (acts : list faction) (k : nat) (e : Event) : Prop :=
  exists f, fexec (take k acts) (finit gated) = Some f /\ gate_open (f_w f) e = true.

Definition seen_gate gated acts e : Prop := exists k, (k <= length acts)%nat /\ passed_gate gated acts k e.
Definition seen_both gated acts h e : Prop :=
  exists k1 k2, (k1 <= k2 <= length acts)%nat /\ passed_gate gated acts k1 e /\
    h ∈ spec_recipients ToUpper (registered (take k2 acts)) e.

Lemma passed_gate_snoc gated acts a k e :
  (k <= length acts)%nat -> passed_gate gated acts k e -> passed_gate gated (acts ++ [a]) k e.
Proof using Type. intros Hk. unfold passed_gate. by rewrite take_app_le. Qed.
Lemma seen_gate_snoc gated acts a e : seen_gate gated acts e -> seen_gate gated (acts ++ [a]) e.
Proof using Type.
  intros (k & Hk & H). exists k. rewrite length_app. split; [lia|]. by apply passed_gate_snoc.
Qed.
Lemma seen_both_snoc gated acts a h e : seen_both gated acts h e -> seen_both gated (acts ++ [a]) h e.
Proof using Type.
  intros (k1 & k2 & Hk & H1 & H2). exists k1, k2. rewrite length_app, take_app_le by lia.
  split_and!; [lia|lia|by apply passed_gate_snoc; [lia|]|done].
Qed.

Record history gated (acts : list faction) (f : fworld) : Prop := {
  hi_handlers i e req : f_threads f !! i = Some (mkThread (SHandlers e) req) -> seen_gate gated acts e;
  hi_spawn i hs e req h :
    f_threads f !! i = Some (mkThread (SSpawn hs e) req) -> h ∈ hs -> seen_both gated acts h e;
  hi_started h e : (h, e) ∈ w_goroutines (f_w f) -> seen_both gated acts h e
}.

(** A step that starts nothing and puts no thread past the gate. *)
Lemma history_mono gated acts a f f' :
  history gated acts f ->
  (forall i s req, f_threads f' !! i = Some (mkThread s req) ->
     f_threads f !! i = Some (mkThread s req) \/
     match s with
     | SHandlers e => seen_gate gated acts e
     | SSpawn hs e => forall h, h ∈ hs -> seen_both gated acts h e
     | _ => True
     end) ->
  (forall h e, (h, e) ∈ w_goroutines (f_w f') -> (h, e) ∈ w_goroutines (f_w f) \/ seen_both gated acts h e) ->
  history gated (acts ++ [a]) f'.
Proof using Type.
  intros [H1 H2 H3] HT HG. split.
  - intros i e req [Hi|Hi]%HT; apply seen_gate_snoc; [by eapply H1|done].
  - intros i hs e req h [Hi|Hi]%HT Hh; apply seen_both_snoc; [by eapply H2|by apply Hi].
  - intros h e [Hg|Hg]%HG; apply seen_both_snoc; [by apply H3|done].
Qed.

Definition starts_none (a : action (Handler := Handler)) : Prop :=
  match a with ADispatch _ _ | ARequest _ _ _ => False | _ => True end.
Lemma one_section_starts_none a : one_section a -> starts_none a.
Proof using Type. by destruct a. Qed.

Lemma step_goroutines a w w' :
  step ToUpper a w = Some w' -> starts_none a ->
  match a with AFinish i => w_goroutines w' = delete i (w_goroutines w) | _ => w_goroutines w' = w_goroutines w end.
Proof using Type.
  intros Hs Ha. destruct a; cbn [step] in Hs; try done; try by injection Hs as <-.
  - unfold Request_reply in Hs. destruct (w_requests w !! c); [|done]. cbn in Hs.
    destruct (w_chans w !! c) as [[?|]|]; try done. by injection Hs as <-.
  - unfold Request_abandon in Hs. destruct (w_requests w !! c); [|done]. by injection Hs as <-.
Qed.

Lemma begin_history gated acts a now e req f :
  history gated acts f -> history gated (acts ++ [a]) (begin now e req f).
Proof using Type.
  intros H. apply (history_mono gated acts a f); [done| |].
  - unfold begin. destruct (hop now e); cbn; [|by left].
    intros i s r [[_ [= <- _]]|[_ Hi]]%lookup_insert_Some; [by right|by left].
  - unfold begin. destruct (hop now e); by left.
Qed.

Lemma run_history gated acts i f f' :
  fexec acts (finit gated) = Some f -> fstep (FRun i) f = Some f' -> history gated acts f ->
  history gated (acts ++ [FRun i]) f'.
Proof using Type.
  intros Hx Hs H. cbn [fstep] in Hs. destruct (f_threads f !! i) as [[s req]|] eqn:Ei; [|done].
  cbn [mbind option_bind t_stage t_req] in Hs. apply (history_mono gated acts _ f); [done| |].
  - destruct s as [e|c e|e|e|[|h hs] e|c]; cbn [advance] in Hs; try injection Hs as Hs.
    + subst f'. intros j s r; cbn; intros [[_ [= <- _]]|[_ Hj]]%lookup_insert_Some; [right|by left].
      case_decide; [done|]. by destruct (pending _ !! _).
    + subst f'. intros j s r; cbn; intros [[_ [= <- _]]|[_ Hj]]%lookup_insert_Some; [by right|by left].
    + destruct (gate_open (f_w f) e) eqn:Eg; injection Hs as <-; intros j s r; cbn.
      * intros [[_ [= <- _]]|[_ Hj]]%lookup_insert_Some; [right|by left].
        exists (length acts). split; [done|]. exists f. by rewrite firstn_all.
      * intros [_ Hj]%lookup_delete_Some. by left.
    + subst f'. intros j s r; cbn; intros [[_ [= <- _]]|[_ Hj]]%lookup_insert_Some; [right|by left].
      intros h Hh. destruct (hi_handlers _ _ _ H _ _ _ Ei) as (k & Hk & Hg). exists k, (length acts).
      split_and!; [done|done|done|]. rewrite firstn_all.
      rewrite <- (recipients_spec ToUpper _ _ e (fexec_routes _ _ _ Hx)). done.
    + subst f'. intros j s r; cbn; intros [_ Hj]%lookup_delete_Some. by left.
    + subst f'. intros j s r; cbn; intros [[_ [= <- _]]|[_ Hj]]%lookup_insert_Some; [right|by left].
      intros h' Hh'. eapply (hi_spawn _ _ _ H); [exact Ei|by right].
    + subst f'. intros j s r; cbn; intros [_ Hj]%lookup_delete_Some. by left.
  - intros h' e' Hg. destruct s as [e|c e|e|e|[|h hs] e|c]; cbn [advance] in Hs; try injection Hs as Hs;
      try (subst f'; by left).
    + destruct (gate_open (f_w f) e); injection Hs as <-; by left.
    + subst f'. cbn in Hg. apply elem_of_app in Hg as [Hg|Hg]; [by left|right].
      apply list_elem_of_singleton in Hg as [= -> ->]. eapply (hi_spawn _ _ _ H); [exact Ei|by left].
    + subst f'. left. cbn in Hg. unfold leave_request in Hg. by destruct (w_requests (f_w f) !! c).
Qed.

Lemma fexec_history gated acts f : fexec acts (finit gated) = Some f -> history gated acts f.
Proof using Type.
  revert acts f. apply (fexec_ind (history gated)).
  { split; cbn; intros *; rewrite ?lookup_empty; try done. intros H. by apply elem_of_nil in H. }
  intros acts a f f' Hx H Hs. destruct a as [a|now e|raw now e|c|c|i].
  4,5: apply fstep_select in Hs as (w & W & [_ Eg]%picks_bus & ->); apply (history_mono gated acts _ f); [done| |];
    [cbn; intros j s r [[_ [= <- _]]|[_ Hj]]%lookup_insert_Some; [by right|by left]|cbn; rewrite Eg; by left].
  - apply fstep_call in Hs as (w & W & Hs & -> & Ha). apply (history_mono gated acts _ f); [done|by left|].
    intros h e Hg. left. apply step_goroutines in Hs; [|by apply one_section_starts_none]. cbn in Hg.
    destruct a; try (by rewrite Hs in Hg). rewrite Hs in Hg.
    by eapply elem_of_sublist, sublist_delete.
  - injection Hs as <-. by apply begin_history.
  - injection Hs as <-. apply begin_history. by destruct H.
  - by eapply run_history.
Qed.

(** ** The gate *)

Definition gated_by (gated : list string) (b : bus (Handler := Handler)) : Prop :=
  gatedChannels b = list_to_set (ToUpper <$> gated) /\ gateOpen b = false.
Definition never_opens (acts : list faction) : Prop :=
  Forall (fun a => match a with FCall (AGate true) => False | _ => True end) acts.

Lemma step_gate gated a w w' :
  step ToUpper a w = Some w' -> (match a with AGate true => False | _ => True end) ->
  gated_by gated (w_bus w) -> gated_by gated (w_bus w').
Proof using Type.
  intros Hs Ha [Hg Ho]. destruct a as [m|id|raw t h|t id|open|now e|raw now e|c|c|order|i]; cbn [step] in Hs;
    try by injection Hs as <-.
  - injection Hs as <-. unfold on_bus, Register. cbn. by destruct (modules _ !! _).
  - injection Hs as <-. unfold on_bus, Unregister. cbn. by destruct (modules _ !! _).
  - destruct open; [done|]. by injection Hs as <-.
  - destruct (Dispatch _ _ _ _). by injection Hs as <-.
  - injection Hs as <-. unfold Request_start. by destruct (Dispatch _ _ _ _).
  - unfold Request_reply in Hs. destruct (w_requests w !! c); [|done]. cbn in Hs.
    destruct (w_chans w !! c) as [[?|]|]; try done. by injection Hs as <-.
  - unfold Request_abandon in Hs. destruct (w_requests w !! c); [|done]. by injection Hs as <-.
Qed.

Lemma fexec_gate gated acts f :
  fexec acts (finit gated) = Some f -> never_opens acts -> gated_by gated (w_bus (f_w f)).
Proof using Type.
  revert acts f. apply (fexec_ind (fun acts f => never_opens acts -> gated_by gated (w_bus (f_w f)))).
  { by intros _. }
  intros acts a f f' _ IH Hs [Hn [Ha _]%Forall_cons]%Forall_app. specialize (IH Hn). apply fstep_bus in Hs.
  destruct a as [a|now e|raw now e|c|c|i].
  2,4-6: by destruct Hs as (P & -> & _).
  - destruct Hs as (w & W & Hs & -> & _). eapply step_gate; [exact Hs|by destruct a as [| | | |[]| | | | | |]|done].
  - by rewrite Hs.
Qed.

(** ** A thread among the others *)

(** How often a trace runs thread [i]. *)
Definition runs (i : nat) (a : faction) : bool :=
  match a with FRun j => (j =? i)%nat | _ => false end.
Definition own (i : nat) (acts : list faction) : nat := sum_list (Nat.b2n ∘ runs i <$> acts).

Lemma fresh_thread f i t : f_threads f !! i = Some t -> fresh (dom (f_threads f)) <> i.
Proof using Type. intros Hi E. apply (is_fresh (dom (f_threads f))). rewrite E. by apply elem_of_dom. Qed.

Lemma fstep_other a f f' i t :
  fstep a f = Some f' -> f_threads f !! i = Some t -> own i [a] = 0%nat -> f_threads f' !! i = Some t.
Proof using Type.
  intros Hs Hi Ha. assert (forall now e req f1, f_threads f1 = f_threads f ->
    f_threads (begin now e req f1) !! i = Some t) as Hbegin.
  { intros now e req f1 E. unfold begin. destruct (hop now e); cbn; rewrite E; [|done].
    by rewrite lookup_insert_ne by (by eapply fresh_thread). }
  destruct a as [a|now e|raw now e|c|c|j].
  4,5: apply fstep_select in Hs as (w & W & _ & ->); cbn; by rewrite lookup_insert_ne by (by eapply fresh_thread).
  - by apply fstep_call in Hs as (w & W & _ & -> & _).
  - injection Hs as <-. by apply Hbegin.
  - injection Hs as <-. by apply Hbegin.
  - assert (j <> i) as Hne by (intros ->; unfold own in Ha; cbn in Ha; by rewrite Nat.eqb_refl in Ha).
    cbn [fstep] in Hs. destruct (f_threads f !! j); [|done]. cbn in Hs.
    destruct (advance _ _) as [w [s|]]; injection Hs as <-; cbn;
      [by rewrite lookup_insert_ne|by rewrite lookup_delete_ne].
Qed.

Lemma own_cons i a acts : own i (a :: acts) = (own i [a] + own i acts)%nat.
Proof using Type. unfold own. cbn. lia. Qed.

(** Goroutines only come at the end, as long as none finishes. *)
Definition grows (a : faction) : Prop := match a with FCall (AFinish _) => False | _ => True end.
Definition no_finish (acts : list faction) : Prop := Forall grows acts.

Lemma fstep_grows a f f' :
  fstep a f = Some f' -> grows a -> w_goroutines (f_w f) `prefix_of` w_goroutines (f_w f').
Proof using Type.
  intros Hs Hn. destruct a as [a|now e|raw now e|c|c|i].
  4,5: by apply fstep_select in Hs as (w & W & [_ Eg]%picks_bus & ->); cbn; rewrite Eg.
  - apply fstep_call in Hs as (w & W & Hs & -> & Ha). apply step_goroutines in Hs; [|by apply one_section_starts_none]. cbn.
    by destruct a; try (by rewrite Hs).
  - injection Hs as <-. unfold begin. by destruct (hop now e).
  - injection Hs as <-. unfold begin. by destruct (hop now _).
  - cbn [fstep] in Hs. destruct (f_threads f !! i) as [[s req]|]; [|done]. cbn in Hs.
    destruct s as [e|c e|e|e|[|h hs] e|c]; cbn [advance] in Hs; try (by injection Hs as <-).
    + destruct (gate_open _ _); by injection Hs as <-.
    + injection Hs as <-. cbn. by eexists.
    + injection Hs as <-. cbn. unfold leave_request. by destruct (w_requests (f_w f) !! c).
Qed.

(** Whatever runs in between, a thread that has copied the handlers starts
    them one by one. *)
Lemma spawn_progress acts f f' i hs e req :
  fexec acts f = Some f' -> f_threads f !! i = Some (mkThread (SSpawn hs e) req) ->
  no_finish acts -> (own i acts <= length hs)%nat ->
  f_threads f' !! i = Some (mkThread (SSpawn (drop (own i acts) hs) e) req) /\
  exists extra, w_goroutines (f_w f') = w_goroutines (f_w f) ++ extra /\
    ((fun h => (h, e)) <$> take (own i acts) hs) `sublist_of` extra.
Proof using Type.
  revert f hs. induction acts as [|a acts IH]; intros f hs Hx Hi Hn Ho.
  { injection Hx as <-. split; [done|]. exists []. by rewrite app_nil_r. }
  cbn [fexec] in Hx. destruct (fstep a f) as [f1|] eqn:Ea; [|done]. cbn [mbind option_bind] in Hx.
  apply Forall_cons in Hn as [Ha Hn]. rewrite own_cons in Ho |- *.
  destruct (fstep_grows a f f1 Ea Ha) as [ex Eg].
  destruct (decide (own i [a] = 0%nat)) as [E0|E1].
  - rewrite E0 in Ho |- *. cbn [Nat.add] in Ho |- *.
    destruct (IH f1 hs Hx (fstep_other a f f1 i _ Ea Hi E0) Hn Ho) as [H1 (extra & -> & H2)].
    split; [done|]. exists (ex ++ extra). rewrite Eg, app_assoc. split; [done|]. by apply sublist_inserts_l.
  - destruct a as [a|now e0|raw now e0|c|c|j]; try done. unfold own in E1. cbn in E1.
    destruct (Nat.eqb_spec j i) as [->|]; [|done].
    assert (own i [FRun i] = 1%nat) as E by (unfold own; cbn; by rewrite Nat.eqb_refl). rewrite E in Ho |- *.
    destruct hs as [|h hs]; [cbn in Ho; lia|]. cbn [fstep] in Ea. rewrite Hi in Ea. injection Ea as <-.
    destruct (IH _ hs Hx (lookup_insert_eq _ _ _) Hn) as [H1 (extra & -> & H2)]; [cbn in Ho; lia|].
    split; [done|]. exists ((h, e) :: extra). cbn. split; [by rewrite <- app_assoc|]. by constructor.
Qed.

(** ** A handler that stays registered *)

(** Thread [i] still has to start [h] with [e], or has done so. *)
Definition on_way (i : nat) (h : Handler) (e : Event) (f : fworld) : Prop :=
  (h, e) ∈ w_goroutines (f_w f) \/
  exists s req, f_threads f !! i = Some (mkThread s req) /\
    match s with
    | SReply e' | SSend _ e' | SGate e' | SHandlers e' => e' = e
    | SSpawn hs e' => e' = e /\ h ∈ hs
    | SLeave _ => False
    end.

(** The gate lets [e] through and [h] is due to get it. *)
Definition listens (h : Handler) (e : Event) (f : fworld) : Prop :=
  gate_open (f_w f) e = true /\ h ∈ recipients (w_bus (f_w f)) e.

Lemma begin_on_way now e req e' h f :
  hop now e = Some e' -> on_way (fresh (dom (f_threads f))) h e' (begin now e req f).
Proof using Type.
  intros E. right. unfold begin. rewrite E. exists (SReply e'), req. cbn. by rewrite lookup_insert_eq.
Qed.

Lemma fstep_on_way a f f' i h e :
  fstep a f = Some f' -> grows a -> listens h e f -> on_way i h e f -> on_way i h e f'.
Proof using Type.
  intros Hs Ha [Hg Hh] [Hin|(s & req & Hi & Hm)].
  { left. destruct (fstep_grows a f f' Hs Ha) as [ex ->]. apply elem_of_app. by left. }
  destruct (decide (own i [a] = 0%nat)) as [E|E].
  { right. exists s, req. split; [by eapply fstep_other|done]. }
  destruct a as [a|now e0|raw now e0|c|c|j]; try done. unfold own in E. cbn in E.
  destruct (Nat.eqb_spec j i) as [->|]; [|done]. cbn [fstep] in Hs. rewrite Hi in Hs.
  cbn [mbind option_bind t_stage t_req] in Hs.
  destruct s as [e1|c e1|e1|e1|[|h1 hs] e1|c]; cbn [advance] in Hs; try done.
  - injection Hs as <-. right. subst e1. eexists _, req. cbn. rewrite lookup_insert_eq. split; [done|].
    case_decide; [done|]. by destruct (pending _ !! _).
  - injection Hs as <-. right. eexists _, req. cbn. by rewrite lookup_insert_eq.
  - subst e1. rewrite Hg in Hs. injection Hs as <-. right. eexists _, req. cbn. by rewrite lookup_insert_eq.
  - injection Hs as <-. right. subst e1. eexists _, req. cbn. by rewrite lookup_insert_eq.
  - destruct Hm as [_ Hm]. by apply elem_of_nil in Hm.
  - injection Hs as <-. destruct Hm as [-> [<-|Hm]%elem_of_cons].
    + left. cbn. apply elem_of_app. right. by apply list_elem_of_singleton.
    + right. eexists _, req. cbn. by rewrite lookup_insert_eq.
Qed.

Lemma on_way_returned i h e f : on_way i h e f -> f_threads f !! i = None -> (h, e) ∈ w_goroutines (f_w f).
Proof using Type. intros [Hin|(s & req & Hi & _)]; [done|]. by rewrite Hi. Qed.

Lemma fexec_grows acts f f' :
  fexec acts f = Some f' -> no_finish acts -> w_goroutines (f_w f) `prefix_of` w_goroutines (f_w f').
Proof using Type.
  revert f. induction acts as [|a acts IH]; intros f; [by intros [= <-]|]. cbn [fexec].
  destruct (fstep a f) as [f1|] eqn:E; [|done]. intros Hx [Ha Hn]%Forall_cons.
  etrans; [by eapply fstep_grows|]. by apply IH.
Qed.

Lemma fexec_on_way acts f f' i h e :
  fexec acts f = Some f' -> no_finish acts -> on_way i h e f ->
  (forall k f1, (k < length acts)%nat -> fexec (take k acts) f = Some f1 -> listens h e f1) -> on_way i h e f'.
Proof using Type.
  revert f. induction acts as [|a acts IH]; intros f; [by intros [= <-]|]. cbn [fexec].
  destruct (fstep a f) as [f1|] eqn:E; [|done]. intros Hx [Ha Hn]%Forall_cons Ho Hl.
  apply (IH f1); [done|done| |].
  - eapply fstep_on_way; [exact E|done| |done]. apply (Hl 0%nat); [cbn; lia|done].
  - intros k f2 Hk H2. apply (Hl (S k)); [cbn; lia|]. cbn [take fexec]. by rewrite E.
Qed.

(** ** A request nobody can answer *)

(** No entry of [pending] leads to the channel, it is empty, and no thread is
    about to send on it. *)
Definition orphaned (c : nat) (f : fworld) : Prop :=
  (forall id, pending (w_bus (f_w f)) !! id <> Some c) /\
  w_chans (f_w f) !! c = Some None /\
  (forall i e req, f_threads f !! i <> Some (mkThread (SSend c e) req)).

Lemma step_orphaned a w w' c :
  step ToUpper a w = Some w' -> one_section a ->
  (forall id, pending (w_bus w) !! id <> Some c) -> w_chans w !! c = Some None ->
  (forall id, pending (w_bus w') !! id <> Some c) /\ w_chans w' !! c = Some None.
Proof using Type.
  intros Hs Ha Hp Hc. destruct a as [m|id0|raw t h|t id0|open|now e|raw now e|c1|c1|order|i];
    cbn [step] in Hs; try done; try (by injection Hs as <-).
  - injection Hs as <-. cbn. unfold Register. by destruct (modules _ !! _).
  - injection Hs as <-. cbn. unfold Unregister. by destruct (modules _ !! _).
  - injection Hs as <-. by destruct open.
Qed.

Lemma begin_orphaned now e req f c : orphaned c f -> orphaned c (begin now e req f).
Proof using Type.
  intros (Hp & Hc & Ht). unfold begin. destruct (hop now e) as [e'|]; [|done].
  split_and!; [done|done|]. intros i e1 r. cbn. intros [[_ [=]]|[_ Hi]]%lookup_insert_Some. by eapply Ht.
Qed.

Lemma picks_orphaned c c1 w w' :
  picks c1 w w' -> w_chans w !! c = Some None -> w_bus w' = w_bus w /\ w_chans w' !! c = Some None.
Proof using Type.
  intros [H| ->]; [|done]. unfold receive in H. destruct (w_requests w !! c1); [|done]. cbn in H.
  destruct (w_chans w !! c1) as [[e|]|] eqn:E; try done. injection H as <-. intros Hc. split; [done|]. cbn.
  rewrite lookup_insert_ne; [done|]. intros ->. congruence.
Qed.

Lemma advance_orphaned s w w' ost c :
  advance s w = (w', ost) -> (forall id, pending (w_bus w) !! id <> Some c) -> w_chans w !! c = Some None ->
  (forall e, s <> SSend c e) ->
  (forall id, pending (w_bus w') !! id <> Some c) /\ w_chans w' !! c = Some None /\ (forall e, ost <> Some (SSend c e)).
Proof using Type.
  intros Ea Hp Hc Hs.
  destruct s as [e|c1 e|e|e|[|h hs] e|c1]; cbn [advance] in Ea; injection Ea as <- <-; (split_and!; [try done| |]); try done.
  - intros e1 Ea. injection Ea as Ea. case_decide; [done|].
    destruct (pending (w_bus w) !! ReplyTo e) eqn:Ep; [|done]. injection Ea as -> _. by eapply Hp.
  - assert (c1 <> c) as Hne by (intros ->; by eapply Hs). cbn. unfold send.
    destruct (w_chans w !! c1) as [[?|]|]; [done|by rewrite lookup_insert_ne|done].
  - intros e1. by destruct (gate_open w e).
  - unfold leave_request. destruct (w_requests w !! c1) as [i1|]; [|done]. cbn.
    intros id [_ Hd]%lookup_delete_Some. by eapply Hp.
  - unfold leave_request. by destruct (w_requests w !! c1).
Qed.

Lemma fstep_orphaned a f f' c : fstep a f = Some f' -> orphaned c f -> orphaned c f'.
Proof using Type.
  intros Hs Ho. pose proof Ho as (Hp & Hc & Ht). destruct a as [a|now e|raw now e|c1|c1|i].
  4,5: apply fstep_select in Hs as (w & W & Hp' & ->); destruct (picks_orphaned c c1 _ _ Hp' Hc) as [Eb Hc'];
    split_and!; cbn; [by rewrite Eb|done|]; intros j e r [[_ [=]]|[_ Hj]]%lookup_insert_Some; by eapply Ht.
  - apply fstep_call in Hs as (w & W & Hs & -> & Ha).
    destruct (step_orphaned a _ _ c Hs Ha Hp Hc) as [H1 H2]. done.
  - injection Hs as <-. by apply begin_orphaned.
  - injection Hs as <-. apply begin_orphaned.
    assert (fresh (dom (w_chans (f_w f))) <> c) as Hne.
    { intros E. pose proof (fresh_chan (f_w f)) as Hf. rewrite E in Hf. congruence. }
    split_and!; [|cbn; by rewrite lookup_insert_ne|done].
    intros id. cbn. intros [[_ Hd]|[_ Hd]]%lookup_insert_Some; [done|by eapply Hp].
  - cbn [fstep] in Hs. destruct (f_threads f !! i) as [[s req]|] eqn:Ei; [|done].
    cbn [mbind option_bind t_stage t_req] in Hs. destruct (advance s (f_w f)) as [w ost] eqn:Ea.
    destruct (advance_orphaned s _ _ _ c Ea Hp Hc) as (Hp' & Hc' & Hst); [intros e ->; by eapply Ht|].
    destruct ost as [s'|]; injection Hs as <-; (split_and!; [done|done|]); cbn.
    + intros j e r [[_ [= -> _]]|[_ Hj]]%lookup_insert_Some; [by eapply Hst|by eapply Ht].
    + intros j e r [_ Hj]%lookup_delete_Some. by eapply Ht.
Qed.

Lemma fexec_orphaned acts f f' c : fexec acts f = Some f' -> orphaned c f -> orphaned c f'.
Proof using Type.
  revert f. induction acts as [|a acts IH]; intros f; [by intros [= <-]|]. cbn [fexec].
  destruct (fstep a f) as [f1|] eqn:E; [|done]. intros Hx Ho. eapply IH; [exact Hx|]. by eapply fstep_orphaned.
Qed.

Lemma orphaned_no_reply c f : orphaned c f -> fstep (FReceive c) f = None.
Proof using Type.
  intros (_ & Hc & _). cbn [fstep]. unfold receive. rewrite Hc.
  by destruct (w_requests (f_w f) !! c).
Qed.

(** Once a request with the same ID has left, only a reply that is buffered, or
    that a thread is about to send, can still come. *)
Lemma leave_orphans gated acts f f1 i r c1 c2 id :
  fexec acts (finit gated) = Some f -> f_threads f !! i = Some (mkThread (SLeave c1) r) ->
  w_requests (f_w f) !! c1 = Some id -> w_requests (f_w f) !! c2 = Some id ->
  fstep (FRun i) f = Some f1 ->
  w_chans (f_w f1) = w_chans (f_w f) /\ f_threads f1 = delete i (f_threads f) /\
  f_waiting f1 = leave r (f_waiting f) /\
  (c1 <> c2 -> w_requests (f_w f1) !! c2 = Some id) /\
  forall id', pending (w_bus (f_w f1)) !! id' <> Some c2.
Proof using Type.
  intros Hx Hi E1 E2. cbn [fstep]. rewrite Hi. cbn [mbind option_bind t_stage t_req advance].
  intros [= <-]. cbn [f_w f_threads f_waiting]. unfold leave_request. rewrite E1. split_and!; try done.
  - intros Hne. cbn. by rewrite lookup_delete_ne.
  - intros id'. cbn. intros [Hne Hp]%lookup_delete_Some.
    apply (rq_pending _ (fr_base _ (fexec_replies gated acts f Hx))) in Hp. congruence.
Qed.

Lemma buffered_received c id e f :
  w_requests (f_w f) !! c = Some id -> w_chans (f_w f) !! c = Some (Some e) -> c ∈ f_waiting f ->
  is_Some (fstep (FReceive c) f).
Proof using Type.
  intros Hr Hc Hw. cbn [fstep]. unfold receive. rewrite Hr. cbn [mbind option_bind]. rewrite Hc.
  cbn [mbind option_bind]. unfold leave_select. by rewrite decide_True.
Qed.

(** A thread about to send on the channel of a waiting request has it answered. *)
Lemma sent_received c id j e req f :
  f_threads f !! j = Some (mkThread (SSend c e) req) -> w_requests (f_w f) !! c = Some id ->
  is_Some (w_chans (f_w f) !! c) -> c ∈ f_waiting f ->
  exists f1, fstep (FRun j) f = Some f1 /\ is_Some (fstep (FReceive c) f1).
Proof using Type.
  intros Hj Hr [b Hb] Hw. cbn [fstep]. rewrite Hj. cbn [mbind option_bind t_stage t_req advance].
  eexists. split; [done|]. assert (exists e', send c e (w_chans (f_w f)) !! c = Some (Some e')) as [e' He].
  { unfold send. rewrite Hb. destruct b as [e'|]; [by exists e'|]. exists e. by rewrite lookup_insert_eq. }
  by eapply (buffered_received c id e').
Qed.

(** ** The same property of atomic calls *)

Lemma exec_snoc (acts : list (action (Handler := Handler))) a w : exec ToUpper (acts ++ [a]) w = exec ToUpper acts w ≫= step ToUpper a.
Proof using Type.
  revert w. induction acts as [|x acts IH]; intros w; cbn; [by destruct (step ToUpper a w)|].
  destruct (step ToUpper x w); cbn; [apply IH|done].
Qed.

(** With one step for each call, gate and registration are seen at once. *)
Definition seen_at_once gated (acts : list (action (Handler := Handler))) h e : Prop :=
  exists k w, (k <= length acts)%nat /\ exec ToUpper (take k acts) (init ToUpper gated) = Some w /\
    gate_open w e = true /\ h ∈ recipients (w_bus w) e.

Lemma Dispatch_started now e b cs h e' w :
  (h, e') ∈ (Dispatch now e b cs).2 -> w_bus w = b -> gate_open w e' = true /\ h ∈ recipients b e'.
Proof using Type.
  intros H <-. unfold Dispatch in H. destruct (hop now e) as [e1|]; [|by apply elem_of_nil in H].
  unfold gate_open. destruct (bool_decide (Channel (Type_ e1) ∈ gatedChannels (w_bus w)) && negb (gateOpen (w_bus w))) eqn:Eg;
    [by apply elem_of_nil in H|].
  cbn in H. apply list_elem_of_fmap in H as (h1 & [= -> ->] & Hh). by rewrite Eg.
Qed.

Lemma exec_at_once gated acts w h e :
  exec ToUpper acts (init ToUpper gated) = Some w -> (h, e) ∈ w_goroutines w -> seen_at_once gated acts h e.
Proof using Type.
  revert w. induction acts as [|a acts IH] using rev_ind; intros w.
  { intros [= <-] H. by apply elem_of_nil in H. }
  rewrite exec_snoc. destruct (exec ToUpper acts (init ToUpper gated)) as [w0|] eqn:E0; [|done].
  cbn [mbind option_bind]. intros Hs Hg.
  assert ((h, e) ∈ w_goroutines w0 -> seen_at_once gated (acts ++ [a]) h e) as Hold.
  { intros Ho. destruct (IH w0 eq_refl Ho) as (k & w1 & Hk & H1). exists k, w1.
    rewrite length_app, take_app_le by lia. split; [lia|done]. }
  assert (forall (b : bus (Handler := Handler)) now e0 cs, w_bus w0 = b \/ (exists id c, b = set_pending (insert id c) (w_bus w0)) ->
    (h, e) ∈ (Dispatch now e0 b cs).2 -> seen_at_once gated (acts ++ [a]) h e) as Hnew.
  { intros b now e0 cs Hb Hd. exists (length acts), w0. rewrite length_app, take_app_length.
    split; [cbn; lia|]. split; [done|].
    apply (Dispatch_started now e0 b cs h e (on_bus (fun _ => b) w0)) in Hd as [H1 H2]; [|done].
    by destruct Hb as [<-|(id & c & ->)]. }
  destruct a as [m|id0|raw t h0|t id0|open|now e0|raw now e0|c1|c1|order|i].
  1-5,8-11: (apply step_goroutines in Hs; [|done]; rewrite Hs in Hg; apply Hold; try done;
    by eapply elem_of_sublist, sublist_delete).
  - cbn [step] in Hs. destruct (Dispatch now e0 (w_bus w0) (w_chans w0)) as [cs st] eqn:Ed. injection Hs as <-.
    cbn in Hg. apply elem_of_app in Hg as [Hg|Hg]; [by apply Hold|].
    eapply (Hnew (w_bus w0)); [by left|]. by rewrite Ed.
  - injection Hs as <-. unfold Request_start in Hg.
    destruct (Dispatch now _ _ _) as [cs st] eqn:Ed. cbn in Hg. apply elem_of_app in Hg as [Hg|Hg]; [by apply Hold|].
    match type of Ed with Dispatch ?n ?e ?b ?cs = _ => apply (Hnew b n e cs); [right; by eexists _, _|by rewrite Ed] end.
Qed.

(** ** Theorems *)

(** Coarse and fine agree. Every world the atomic operations of the bus can
    reach is reached by running their critical sections one by one: each call
    of [Dispatch] or [Request] is a run of its thread's sections. *)
Theorem atomic_calls_refine gated acts w :
  exec ToUpper acts (init ToUpper gated) = Some w ->
  exists facts, fexec facts (finit gated) = Some (embed w).
Proof using Type.
  assert (forall w0 w, exec ToUpper acts w0 = Some w -> exists facts, fexec facts (embed w0) = Some (embed w)) as H.
  { induction acts as [|a acts IH]; intros w0 w1; [intros [= <-]; by exists []|]. cbn [exec].
    destruct (step ToUpper a w0) as [w2|] eqn:E; [|done]. intros H.
    destruct (step_embed a w0 w2 E) as [f1 H1]. destruct (IH w2 w1 H) as [f2 H2].
    exists (f1 ++ f2). rewrite fexec_app, H1. exact H2. }
  intros Hx. destruct (H _ _ Hx) as [facts Hf]. exists facts. rewrite <- Hf. unfold embed, finit. cbn.
  by rewrite dom_empty_L.
Qed.

(** C16. Requests get their own replies, however the critical sections of all
    the calls interleave: each reply [Request] returned carries in [ReplyTo]
    the ID under which that request registered its channel. *)
Theorem replies_under_interleaving gated acts f id e :
  fexec acts (finit gated) = Some f -> (id, e) ∈ w_results (f_w f) -> ReplyTo e = id.
Proof using Type. intros H%fexec_replies. apply H. Qed.

(** C12. No handler runs unasked. If, under any interleaving, a handler's
    goroutine holds an event, then the event's channel was free or the gate
    open at some moment, and at that moment or a later one the handler was
    among those the registrations and subscriptions then in force call for. *)
Theorem handlers_were_routed gated acts f h e :
  fexec acts (finit gated) = Some f -> (h, e) ∈ w_goroutines (f_w f) ->
  exists k1 k2, (k1 <= k2 <= length acts)%nat /\
    (exists f1, fexec (take k1 acts) (finit gated) = Some f1 /\ gate_open (f_w f1) e = true) /\
    h ∈ spec_recipients ToUpper (registered (take k2 acts)) e.
Proof using Type. intros H%fexec_history. apply (hi_started _ _ _ H). Qed.

(** C11. A closed gate holds. Under any interleaving in which the gate is never
    opened, no handler's goroutine ever holds an event of a gated channel,
    whoever registers, subscribes, requests or replies: before the vault is
    unlocked nothing reads or writes blocks through the bus. *)
Theorem gate_holds gated acts f h e :
  fexec acts (finit gated) = Some f -> never_opens acts -> (h, e) ∈ w_goroutines (f_w f) ->
  (Channel (Type_ e) ∉ ToUpper <$> gated).
Proof using Type.
  intros Hx Hn Hg. destruct (hi_started _ _ _ (fexec_history gated acts f Hx) h e Hg) as (k & _ & _ & (f1 & H1 & Ho) & _).
  assert (never_opens (take k acts)) as Hn' by by apply Forall_take.
  destruct (fexec_gate gated _ f1 H1 Hn') as [Hc Hf]. unfold gate_open in Ho. rewrite Hc, Hf in Ho.
  intros Hin. rewrite bool_decide_true in Ho; [done|]. by apply elem_of_list_to_set.
Qed.

(** C13. Whoever stays registered is told. Take a dispatch and whatever any
    threads do from then on. If in every state up to the one in which it
    returns the gate lets the event through and a handler is due to get it,
    by a channel or by a subscription, then that handler's goroutine has been
    started with the event by then, and still is there at the end. *)
Theorem registered_handlers_reached now e e' f acts f1 more f2 h :
  hop now e = Some e' ->
  fexec (FDispatch now e :: acts) f = Some f1 -> f_threads f1 !! fresh (dom (f_threads f)) = None ->
  (forall k fk, (k < length acts)%nat -> fexec (FDispatch now e :: take k acts) f = Some fk ->
     gate_open (f_w fk) e' = true /\ h ∈ recipients (w_bus (f_w fk)) e') ->
  fexec more f1 = Some f2 -> no_finish (acts ++ more) ->
  (h, e') ∈ w_goroutines (f_w f2).
Proof using Type.
  intros Hh Hx Hr Hl Hm [Hn1 Hn2]%Forall_app. destruct (fexec_grows more f1 f2 Hm Hn2) as [ex ->].
  apply elem_of_app. left. eapply on_way_returned; [|exact Hr]. cbn [fexec fstep mbind option_bind] in Hx.
  eapply fexec_on_way; [exact Hx|done|by apply begin_on_way|].
  intros k fk Hk Hfk. by apply (Hl k).
Qed.

(** C17. A request that shares its ID with another is cut off when the other
    leaves. Take two requests with one event ID, the second waiting in its
    [select], and let the first run its deferred deletion, which removes the
    only entry of [pending] there is for the ID. The second stays registered,
    and it can get a reply in some continuation exactly when its reply
    is buffered already or a thread holds its channel and is about to send:
    no event dispatched, or looked up, from then on ever reaches it. *)
Theorem reused_id_never_answered gated acts f f1 i r c1 c2 id :
  fexec acts (finit gated) = Some f -> f_threads f !! i = Some (mkThread (SLeave c1) r) ->
  c1 <> c2 -> w_requests (f_w f) !! c1 = Some id -> w_requests (f_w f) !! c2 = Some id ->
  c2 ∈ f_waiting f -> fstep (FRun i) f = Some f1 ->
  w_requests (f_w f1) !! c2 = Some id /\
  ((exists more f2, fexec more f1 = Some f2 /\ is_Some (fstep (FReceive c2) f2)) <->
   (exists e, w_chans (f_w f) !! c2 = Some (Some e)) \/
   (exists j e req, f_threads f !! j = Some (mkThread (SSend c2 e) req))).
Proof using Type.
  intros Hx Hi Hne E1 E2 Hw Hs.
  destruct (leave_orphans gated acts f f1 i r c1 c2 id Hx Hi E1 E2 Hs) as (Ec & Et & Ew & Er & Hp).
  pose proof (Er Hne) as Hr. split; [exact Hr|].
  assert (c2 ∈ f_waiting f1) as Hw1 by (rewrite Ew; destruct r; cbn; set_solver).
  destruct (rq_chan _ (fr_base _ (fexec_replies gated acts f Hx)) c2 id E2) as [b Hb]. split.
  - intros (more & f2 & Hm & Hrec). destruct b as [e|]; [left; by exists e|]. right.
    destruct (decide (map_Exists (fun _ t =>
      match t_stage t with SSend c _ => bool_decide (c = c2) | _ => false end = true) (f_threads f)))
      as [(j & [s q] & Hj & Hst)|Hno].
    { destruct s as [|c e| | | |]; try done. apply bool_decide_eq_true in Hst as ->. by exists j, e, q. }
    destruct Hrec as [f3 Hrec]. rewrite (orphaned_no_reply c2 f2) in Hrec; [done|].
    eapply fexec_orphaned; [exact Hm|]. split_and!; [exact Hp|by rewrite Ec|].
    intros j e q Hj. rewrite Et in Hj. apply lookup_delete_Some in Hj as [_ Hj].
    apply Hno. exists j. eexists. split; [exact Hj|]. by apply bool_decide_eq_true.
  - intros [(e & He)|(j & e & q & Hj)].
    + exists [], f1. split; [done|]. apply (buffered_received c2 id e); [done|by rewrite Ec|done].
    + assert (f_threads f1 !! j = Some (mkThread (SSend c2 e) q)) as Hj1
        by (rewrite Et, lookup_delete_ne; [done|intros ->; congruence]).
      destruct (sent_received c2 id j e q f1 Hj1 Hr) as (f2 & H2 & H3); [by rewrite Ec, Hb|done|].
      exists [FRun j], f2. cbn [fexec]. by rewrite H2.
Qed.

(** The copied handlers all start, in order. Once a dispatch has copied
    the handlers, and runs one section per handler, the goroutines started
    meanwhile contain one for each of them, in the order of the copy, each
    with the event, no matter who registers, unregisters, closes the gate or
    dispatches in between; the thread is then at the end of its loop. *)
Theorem copied_handlers_start acts f f' i hs e req :
  fexec acts f = Some f' -> f_threads f !! i = Some (mkThread (SSpawn hs e) req) ->
  no_finish acts -> own i acts = length hs ->
  f_threads f' !! i = Some (mkThread (SSpawn [] e) req) /\
  exists extra, w_goroutines (f_w f') = w_goroutines (f_w f) ++ extra /\
    ((fun h => (h, e)) <$> hs) `sublist_of` extra.
Proof using Type.
  intros Hx Hi Hn Ho. destruct (spawn_progress acts f f' i hs e req Hx Hi Hn) as [H1 H2]; [lia|].
  rewrite Ho, drop_ge in H1 by done. rewrite Ho, take_ge in H2 by done. done.
Qed.
End Threads.

(** ** What only the interleaving can do *)

Definition store : Event := mkEvent "e" "STORAGE.WRITE" [] EmptyString "test" 1 8.

(** The gate closes, and then the module registers, between the gate check of
    a dispatch and its copy of the handlers. *)
Definition late_acts : list (faction (Handler := nat)) :=
  [FCall (AGate true); FDispatch 5 store; FRun 0; FRun 0; FCall (AGate false);
   FCall (ARegister (mkModule "late" ["storage"]%string 1%nat)); FRun 0; FRun 0].

(** Gate and handlers are not read together. With atomic calls a handler
    that got an event was registered at a moment when the gate let the event
    through. The code reads the gate and the handlers under different locks,
    and there is a run in which a module that registered only after the gate
    of its channel had closed, and at no moment while it was open, still gets
    an event. *)
Theorem gate_and_handlers_apart :
  (forall gated acts w (h : nat) e,
     exec ascii_ToUpper acts (init ascii_ToUpper gated) = Some w -> (h, e) ∈ w_goroutines w ->
     exists k w1, (k <= length acts)%nat /\
       exec ascii_ToUpper (take k acts) (init ascii_ToUpper gated) = Some w1 /\
       gate_open w1 e = true /\ h ∈ recipients (w_bus w1) e) /\
  exists acts f h e,
    fexec ascii_ToUpper acts (finit ascii_ToUpper ["storage"]%string) = Some f /\
    (h, e) ∈ w_goroutines (f_w f) /\
    forall k f1, fexec ascii_ToUpper (take k acts) (finit ascii_ToUpper ["storage"]%string) = Some f1 ->
      gate_open (f_w f1) e = true -> (h : nat) ∉ recipients (w_bus (f_w f1)) e.
Proof.
  split; [intros *; apply exec_at_once|].
  exists late_acts. destruct (fexec ascii_ToUpper late_acts _) as [f|] eqn:E; [|by vm_compute in E].
  exists f, 1%nat, (mkEvent "e" "STORAGE.WRITE" [] EmptyString "test" 1 7). split; [done|]. split.
  { vm_compute in E. injection E as <-. by left. }
  clear E. intros k f1 Hk Hg.
  do 9 (destruct k as [|k]; [vm_compute in Hk; injection Hk as <-; vm_compute in Hg |- *;
    first [done|by intros ?%elem_of_nil]|]).
  rewrite take_ge in Hk by (cbn; lia). vm_compute in Hk. injection Hk as <-. by vm_compute in Hg.
Qed.

(** The same event is requested twice, and the first request gives up. *)
Definition retry_acts : list (faction (Handler := nat)) :=
  [FRequest [] 5 (ping "req" EmptyString); FRun 0; FRun 0; FRun 0; FRun 0;
   FRequest [] 6 (ping "req" EmptyString); FRun 0; FRun 0; FRun 0; FRun 0;
   FGiveUp 0].

(** ** Examples *)

(** Two requests whose threads and replies interleave. *)
Definition woven_acts : list (faction (Handler := nat)) :=
  [FCall (ARegister (mkModule "crypto" ["crypto"]%string 1%nat));
   FRequest [] 5 (ping "a" EmptyString); FRequest [] 6 (ping "b" EmptyString);
   FRun 1; FRun 0; FRun 0; FRun 1; FRun 1; FRun 0; FRun 0; FRun 1; FRun 0; FRun 1;
   FDispatch 7 (ping "ra" "a"); FDispatch 8 (ping "rb" "b");
   FRun 1; FRun 0; FRun 1; FRun 0; FReceive 1; FReceive 0; FRun 1; FRun 0].

Lemma atomic_calls_refine_witness :
  exists w, exec ascii_ToUpper sample_acts (init ascii_ToUpper []) = Some w /\
    exists facts, fexec ascii_ToUpper facts (finit ascii_ToUpper []) = Some (embed w).
Proof.
  destruct (exec ascii_ToUpper sample_acts (init ascii_ToUpper [])) as [w|] eqn:E; [|by vm_compute in E].
  exists w. split; [done|]. exact (atomic_calls_refine ascii_ToUpper [] sample_acts w E).
Defined.

Lemma replies_under_interleaving_witness :
  exists f, fexec ascii_ToUpper woven_acts (finit ascii_ToUpper []) = Some f /\
    exists e, ("b"%string, e) ∈ w_results (f_w f) /\ ID e = "rb"%string /\ ReplyTo e = "b"%string.
Proof.
  destruct (fexec ascii_ToUpper woven_acts (finit ascii_ToUpper [])) as [f|] eqn:E; [|by vm_compute in E].
  exists f. split; [done|]. exists (mkEvent "rb" "CRYPTO.PING" [] "b" "test" 1 7).
  assert (("b"%string, mkEvent "rb" "CRYPTO.PING" [] "b" "test" 1 7) ∈ w_results (f_w f)) as Hin
    by (vm_compute in E; injection E as <-; by left).
  split; [exact Hin|]. split; [done|]. exact (replies_under_interleaving ascii_ToUpper [] woven_acts f _ _ E Hin).
Defined.

Lemma handlers_were_routed_witness :
  exists f h e, fexec ascii_ToUpper late_acts (finit ascii_ToUpper ["storage"]%string) = Some f /\
    (h, e) ∈ w_goroutines (f_w f) /\ exists k1 k2, (k1 <= k2 <= 8)%nat /\
    (exists f1, fexec ascii_ToUpper (take k1 late_acts) (finit ascii_ToUpper ["storage"]%string) = Some f1 /\
       gate_open (f_w f1) e = true) /\
    h ∈ spec_recipients ascii_ToUpper (registered (take k2 late_acts)) e.
Proof.
  destruct (fexec ascii_ToUpper late_acts (finit ascii_ToUpper ["storage"]%string)) as [f|] eqn:E; [|by vm_compute in E].
  exists f, 1%nat, (mkEvent "e" "STORAGE.WRITE" [] EmptyString "test" 1 7). split; [done|].
  assert ((1%nat, mkEvent "e" "STORAGE.WRITE" [] EmptyString "test" 1 7) ∈ w_goroutines (f_w f)) as Hg
    by (vm_compute in E; injection E as <-; by left).
  split; [exact Hg|]. exact (handlers_were_routed ascii_ToUpper ["storage"]%string late_acts f _ _ E Hg).
Defined.

Definition spawning : fworld (Handler := nat) :=
  mkF (init ascii_ToUpper []) {[0%nat := mkThread (SSpawn [4; 5]%nat store) None]} ∅.
Definition spawn_acts : list (faction (Handler := nat)) :=
  [FDispatch 9 store; FRun 0; FRun 1; FCall (AGate false); FRun 0].

(** The second request still waits when the first one's deletion runs, and a
    reply that comes then finds nobody. *)
Lemma reused_id_never_answered_witness :
  exists f f1, fexec ascii_ToUpper retry_acts (finit ascii_ToUpper []) = Some f /\
    fstep ascii_ToUpper (FRun 0) f = Some f1 /\
    w_requests (f_w f1) !! 1%nat = Some "req"%string /\
    ~ exists more f2, fexec ascii_ToUpper more f1 = Some f2 /\ is_Some (fstep ascii_ToUpper (FReceive 1) f2).
Proof.
  destruct (fexec ascii_ToUpper retry_acts (finit ascii_ToUpper [])) as [f|] eqn:E; [|by vm_compute in E].
  destruct (fstep ascii_ToUpper (FRun 0) f) as [f1|] eqn:E1;
    [|vm_compute in E; injection E as <-; by vm_compute in E1].
  exists f, f1. split; [done|]. split; [done|].
  destruct (reused_id_never_answered ascii_ToUpper [] retry_acts f f1 0 None 0 1 "req" E) as [Hr Hiff];
    [by vm_compute in E; injection E as <-; vm_compute|done|by vm_compute in E; injection E as <-; vm_compute..
    |vm_compute in E; injection E as <-; by apply (bool_decide_unpack _); vm_compute|exact E1|].
  split; [exact Hr|]. rewrite Hiff. vm_compute in E. injection E as <-.
  intros [(e & He)|(j & e & q & Hj)]; [by vm_compute in He|].
  change (f_threads _) with ({[0%nat := mkThread (Handler := nat) (SLeave 0) None]} : gmap nat thread) in Hj.
  by apply lookup_singleton_Some in Hj as [_ [=]].
Defined.

Lemma copied_handlers_start_witness :
  exists f', fexec ascii_ToUpper spawn_acts spawning = Some f' /\
    exists extra, w_goroutines (f_w f') = [] ++ extra /\ [(4%nat, store); (5%nat, store)] `sublist_of` extra.
Proof.
  destruct (fexec ascii_ToUpper spawn_acts spawning) as [f'|] eqn:E; [|by vm_compute in E].
  exists f'. split; [done|].
  destruct (copied_handlers_start ascii_ToUpper spawn_acts spawning f' 0%nat [4; 5]%nat store None E) as [_ H].
  - by vm_compute.
  - by repeat constructor.
  - by vm_compute.
  - exact H.
Defined.

(** "api" is registered when an event is dispatched, and stays; "late" comes and
    goes while the dispatch runs, and another dispatch overtakes it. *)
Definition api_module : Module := mkModule "api" ["storage"; "crypto"]%string 7%nat.
Definition late_module : Module := mkModule "late" ["storage"]%string 9%nat.
Definition api_world : fworld (Handler := nat) :=
  mkF (on_bus (fun b => (Register ascii_ToUpper api_module b).1) (init ascii_ToUpper ["storage"]%string)) ∅ ∅.
Definition open_api : fworld (Handler := nat) :=
  mkF (on_bus OpenGate (f_w api_world)) ∅ ∅.
Definition busy_acts : list (faction (Handler := nat)) :=
  [FRun 0; FCall (ARegister late_module); FDispatch 9 (ping "p" EmptyString); FRun 1; FRun 0; FRun 0;
   FCall (AUnregister "late"); FRun 1; FRun 0; FRun 0; FRun 0].

Lemma registered_handlers_reached_witness :
  exists f1 f2, fexec ascii_ToUpper (FDispatch 5 store :: busy_acts) open_api = Some f1 /\
    fexec ascii_ToUpper [FCall (AGate false); FRun 1; FRun 1] f1 = Some f2 /\
    (7%nat, mkEvent "e" "STORAGE.WRITE" [] EmptyString "test" 1 7) ∈ w_goroutines (f_w f2).
Proof.
  destruct (fexec ascii_ToUpper (FDispatch 5 store :: busy_acts) open_api) as [f1|] eqn:E1; [|by vm_compute in E1].
  exists f1. assert (f_threads f1 !! fresh (dom (f_threads open_api)) = None) as Hr
    by (vm_compute in E1; injection E1 as <-; by vm_compute).
  destruct (fexec ascii_ToUpper [FCall (AGate false); FRun 1; FRun 1] f1) as [f2|] eqn:E2;
    [|vm_compute in E1; injection E1 as <-; by vm_compute in E2].
  exists f2. split; [done|]. split; [done|].
  refine (registered_handlers_reached ascii_ToUpper 5 store _ open_api busy_acts f1 _ f2 7%nat eq_refl E1 Hr _ E2 _).
  - intros k fk Hk Hfk. clear E1 E2 Hr.
    do 11 (destruct k as [|k]; [vm_compute in Hfk; injection Hfk as <-; split;
      [by vm_compute|vm_compute; by repeat (first [left|right])]|]).
    cbn in Hk. lia.
  - by repeat constructor.
Defined.

Definition gated_acts : list (faction (Handler := nat)) :=
  [FCall (ARegister (mkModule "blocks" ["storage"; "crypto"]%string 1%nat)); FDispatch 5 store; FRun 0; FRun 0;
   FDispatch 6 (ping "p" EmptyString); FRun 0; FRun 0; FRun 0; FRun 0].

Lemma gate_holds_witness :
  exists f e, fexec ascii_ToUpper gated_acts (finit ascii_ToUpper ["storage"]%string) = Some f /\
    w_goroutines (f_w f) = [(1%nat, e)] /\ Channel (Type_ e) ∉ ascii_ToUpper <$> ["storage"]%string.
Proof.
  destruct (fexec ascii_ToUpper gated_acts (finit ascii_ToUpper ["storage"]%string)) as [f|] eqn:E; [|by vm_compute in E].
  exists f, (mkEvent "p" "CRYPTO.PING" [] EmptyString "test" 1 7). split; [done|].
  assert (w_goroutines (f_w f) = [(1%nat, mkEvent "p" "CRYPTO.PING" [] EmptyString "test" 1 7)]) as Hg
    by (vm_compute in E; injection E as <-; reflexivity).
  split; [exact Hg|]. apply (gate_holds ascii_ToUpper ["storage"]%string gated_acts f 1%nat _ E).
  - by repeat constructor.
  - rewrite Hg. by left.
Defined.
