(* ===== verification/BusLocks.v ===== *)
(** * The locks of the event bus ([engine/kernel/bus.go])

    [BusThreads] runs a locked section as one step. Here [mu], [pendingMu] and
    [gateMu] are state, and a thread takes a lock, reads, and releases the lock
    in separate steps, so a call can be held up: a thread that needs a
    lock it cannot have makes no step. Two things are shown. The sections are
    atomic: a run of locks, reads and unlocks is a run of [BusThreads]. And
    every call returns: no order of steps leads to a deadlock, and none goes
    on for ever.

    What a body writes is visible only to those who hold the same lock, so
    the write and the [Unlock] after it are one step. A [sync.RWMutex] gives
    the lock to the readers it held back before the next writer gets it; the
    lock here may also let that writer overtake them, so it has every run of the
    code and more. The methods of a module that [Register] calls under [mu],
    [ID] and [Channels], are data of the module. [Shutdown] copies the modules
    under [mu]; its end, when the modules have stopped and the context is
    cancelled, is an action of its own. *)

From Stdlib Require Import Relation_Operators Lexicographic_Product Inverse_Image.
From S2P Require Import Prelude GoStd Event Bus BusThreads.

(** ** Locks *)

Inductive lock := LMu | LPending | LGate.
#[export] Instance lock_eq_dec : EqDecision lock.
Proof. solve_decision. Defined.

(** A thread in [Dispatch] or at the end of [Request], or another call. *)
Abbreviation tid := (nat + nat)%type.

(** The writer is the thread that has called [Lock]: it bars new readers, and
    holds the lock when the last reader has left. *)
Record RWMutex := mkRW {
  rw_writer : option tid;
  rw_readers : gset tid
}.
Definition unlocked : RWMutex := mkRW None ∅.

Definition RW_RLock (t : tid) (r : RWMutex) : option RWMutex :=
  match rw_writer r with
  | None => Some (mkRW None ({[t]} ∪ rw_readers r))
  | Some _ => None
  end.
Definition RW_RUnlock (t : tid) (r : RWMutex) : RWMutex := mkRW (rw_writer r) (rw_readers r ∖ {[t]}).

(** The first half of [Lock]; all of it for a [sync.Mutex], which has no readers. *)
Definition RW_Lock (t : tid) (r : RWMutex) : option RWMutex :=
  match rw_writer r with
  | None => Some (mkRW (Some t) (rw_readers r))
  | Some _ => None
  end.
(** The second half: no reader is left. *)
Definition acquired (r : RWMutex) : bool := bool_decide (rw_readers r = ∅).
Definition RW_Unlock (r : RWMutex) : RWMutex := mkRW None (rw_readers r).

Definition locks := lock -> RWMutex.
Definition set_lock (x : lock) (r : RWMutex) (L : locks) : locks :=
  fun y => if decide (x = y) then r else L y.

Section Locks.
Context {Handler : Type}.
Context (ToUpper : string -> string).
#[local] Abbreviation world := (world (Handler := Handler)).
#[local] Abbreviation stage := (stage (Handler := Handler)).
#[local] Abbreviation faction := (faction (Handler := Handler)).

(** ** Threads *)

(** Where a thread is in a stage of [Dispatch]: before the stage's lock, right
    after it, or with what it has read under it. *)
Inductive dpc :=
| DAt (s : stage)
| DHeld (s : stage)
| DFound (e : Event) (ch : option nat)
| DGated (e : Event) (isGated : bool)
| DOpen (e : Event) (isGated open : bool)
| DFirst (e : Event) (chHandlers : list Handler)
| DBoth (e : Event) (chHandlers : list Handler).

(** [d_req] is the reply channel when [Request] called [Dispatch]. *)
Record dthread := mkD {
  d_pc : dpc;
  d_req : option nat
}.

(** The calls whose body is a single section with an exclusive lock. *)
Inductive lcall :=
| KRegister (m : Module (Handler := Handler))
| KUnregister (id : string)
| KSubscribe (raw : list byte) (t : EventType) (h : Handler)
| KUnsubscribe (t : EventType) (id : string)
| KGate (open : bool)
| KRequest (raw : list byte) (now : Z) (e : Event).

Inductive cpc :=
| CAt (k : lcall)          (* before [Lock] *)
| CQueued (k : lcall)      (* in [Lock], waiting for the readers to leave *)
| CHeld (k : lcall)
| CShutdown                (* [Shutdown], before [RLock] *)
| CModules                 (* [Shutdown], copying the modules *).

Record lworld := mkL {
  l_w : world;
  l_threads : gmap nat dthread;
  l_calls : gmap nat cpc;
  l_waiting : gset nat;
  l_locks : locks
}.

Inductive mode := Shared | Exclusive.

(** The lock a stage takes. *)
Definition stage_lock (s : stage) : option (lock * mode) :=
  match s with
  | SReply e => if decide (ReplyTo e = EmptyString) then None else Some (LPending, Exclusive)
  | SSend _ _ => None
  | SGate _ => Some (LGate, Shared)
  | SHandlers _ => Some (LMu, Shared)
  | SSpawn _ _ => None
  | SLeave _ => Some (LPending, Exclusive)
  end.

Definition call_lock (k : lcall) : lock :=
  match k with
  | KRegister _ | KUnregister _ | KSubscribe _ _ _ | KUnsubscribe _ _ => LMu
  | KGate _ => LGate
  | KRequest _ _ _ => LPending
  end.

(** One step of a thread in [Dispatch]; [None] when it is blocked. The rest is
    the locks, the shared state, and where the thread is then, [None] when
    the call returns. *)
Definition d_step (t : tid) (d : dpc) (L : locks) (w : world) : option (locks * world * option dpc) :=
  match d with
  | DAt s =>
      match stage_lock s with
      | Some (x, Shared) => r ← RW_RLock t (L x); Some (set_lock x r L, w, Some (DHeld s))
      | Some (x, Exclusive) => r ← RW_Lock t (L x); Some (set_lock x r L, w, Some (DHeld s))
      | None =>
          match s with
          | SReply e => Some (L, w, Some (DAt (SGate e)))
          | SSend c e => Some (L, with_chans (send c e (w_chans w)) w, Some (DAt (SGate e)))
          | SSpawn [] e => Some (L, w, None)
          | SSpawn (h :: hs) e => Some (L, with_goroutines [(h, e)] w, Some (DAt (SSpawn hs e)))
          | _ => None
          end
      end
  | DHeld (SReply e) => Some (L, w, Some (DFound e (pending (w_bus w) !! ReplyTo e)))
  | DFound e ch =>
      Some (set_lock LPending (RW_Unlock (L LPending)) L, w,
            Some (DAt (match ch with Some c => SSend c e | None => SGate e end)))
  | DHeld (SGate e) =>
      Some (L, w, Some (DGated e (bool_decide (Channel (Type_ e) ∈ gatedChannels (w_bus w)))))
  | DGated e isGated => Some (L, w, Some (DOpen e isGated (gateOpen (w_bus w))))
  | DOpen e isGated open =>
      Some (set_lock LGate (RW_RUnlock t (L LGate)) L, w,
            if isGated && negb open then None else Some (DAt (SHandlers e)))
  | DHeld (SHandlers e) =>
      Some (L, w, Some (DFirst e (nh_handler <$> default [] (channelHandlers (w_bus w) !! Channel (Type_ e)))))
  | DFirst e hs =>
      Some (L, w, Some (DBoth e (hs ++ (nh_handler <$> default [] (typeHandlers (w_bus w) !! Type_ e)))))
  | DBoth e hs => Some (set_lock LMu (RW_RUnlock t (L LMu)) L, w, Some (DAt (SSpawn hs e)))
  | DHeld (SLeave c) => Some (set_lock LPending (RW_Unlock (L LPending)) L, leave_request c w, None)
  | DHeld (SSend _ _) | DHeld (SSpawn _ _) => None
  end.

(** The start of [Dispatch], and the way out of the [select] of [Request]. *)
Definition l_begin (now : Z) (e : Event) (req : option nat) (l : lworld) : lworld :=
  match hop now e with
  | None => mkL (l_w l) (l_threads l) (l_calls l) (leave req (l_waiting l)) (l_locks l)
  | Some e =>
      mkL (l_w l) (<[fresh (dom (l_threads l)) := mkD (DAt (SReply e)) req]> (l_threads l)) (l_calls l)
        (l_waiting l) (l_locks l)
  end.
Definition l_leave_select (c : nat) (w : world) (l : lworld) : option lworld :=
  if decide (c ∈ l_waiting l)
  then Some (mkL w (<[fresh (dom (l_threads l)) := mkD (DAt (SLeave c)) None]> (l_threads l)) (l_calls l)
               (l_waiting l ∖ {[c]}) (l_locks l))
  else None.

(** What a call does under its lock. *)
Definition l_on_bus (f : bus (Handler := Handler) -> bus) (l : lworld) : lworld :=
  mkL (on_bus f (l_w l)) (l_threads l) (l_calls l) (l_waiting l) (l_locks l).
Definition c_body (k : lcall) (l : lworld) : lworld :=
  match k with
  | KRegister m => l_on_bus (fun b => (Register ToUpper m b).1) l
  | KUnregister id => l_on_bus (Unregister ToUpper id) l
  | KSubscribe raw t h => l_on_bus (set_typeHandlers (append_at t (mkNamed (newID raw) h))) l
  | KUnsubscribe t id => l_on_bus (unsubscribe t id) l
  | KGate open => l_on_bus (if open then OpenGate else CloseGate) l
  | KRequest raw now e =>
      let id := if decide (ID e = EmptyString) then newID raw else ID e in
      let e := mkEvent id (Type_ e) (Payload e) (ReplyTo e) (Origin e) (Timestamp e) (TTL e) in
      let c := fresh (dom (w_chans (l_w l))) in
      l_begin now e (Some c)
        (mkL (Request_register id c (l_w l)) (l_threads l) (l_calls l) (l_waiting l) (l_locks l))
  end.

Definition set_call (j : nat) (p : cpc) (L : locks) (l : lworld) : lworld :=
  mkL (l_w l) (l_threads l) (<[j := p]> (l_calls l)) (l_waiting l) L.

(** One step of another call. *)
Definition c_step (j : nat) (p : cpc) (l : lworld) : option lworld :=
  let L := l_locks l in
  match p with
  | CAt k =>
      r ← RW_Lock (inr j) (L (call_lock k));
      Some (set_call j (if decide (call_lock k = LPending) then CHeld k else CQueued k)
              (set_lock (call_lock k) r L) l)
  | CQueued k => if acquired (L (call_lock k)) then Some (set_call j (CHeld k) L l) else None
  | CHeld k =>
      Some (c_body k (mkL (l_w l) (l_threads l) (delete j (l_calls l)) (l_waiting l)
                        (set_lock (call_lock k) (RW_Unlock (L (call_lock k))) L)))
  | CShutdown => r ← RW_RLock (inr j) (L LMu); Some (set_call j CModules (set_lock LMu r L) l)
  | CModules =>
      Some (mkL (l_w l) (l_threads l) (delete j (l_calls l)) (l_waiting l)
              (set_lock LMu (RW_RUnlock (inr j) (L LMu)) L))
  end.

Inductive laction :=
| LCall (k : lcall)
| LShut
| LDispatch (now : Z) (e : Event)
| LReceive (c : nat)
| LGiveUp (c : nat)
| LShutdown (order : list (string * Module (Handler := Handler)))   (* [b.cancel()] *)
| LFinish (i : nat)
| LRun (i : nat)            (* a thread in [Dispatch] *)
| LRunCall (j : nat).       (* another call *)

Definition lstep (a : laction) (l : lworld) : option lworld :=
  match a with
  | LCall k => Some (set_call (fresh (dom (l_calls l))) (CAt k) (l_locks l) l)
  | LShut => Some (set_call (fresh (dom (l_calls l))) CShutdown (l_locks l) l)
  | LDispatch now e => Some (l_begin now e None l)
  | LReceive c => w ← receive c (l_w l); l_leave_select c w l
  | LGiveUp c => l_leave_select c (l_w l) l
  | LShutdown order =>
      w ← step ToUpper (AShutdown order) (l_w l);
      Some (mkL w (l_threads l) (l_calls l) (l_waiting l) (l_locks l))
  | LFinish i =>
      w ← step ToUpper (AFinish i) (l_w l);
      Some (mkL w (l_threads l) (l_calls l) (l_waiting l) (l_locks l))
  | LRun i =>
      d ← l_threads l !! i;
      '(L, w, next) ← d_step (inl i) (d_pc d) (l_locks l) (l_w l);
      Some (match next with
            | Some p => mkL w (<[i := mkD p (d_req d)]> (l_threads l)) (l_calls l) (l_waiting l) L
            | None => mkL w (delete i (l_threads l)) (l_calls l) (leave (d_req d) (l_waiting l)) L
            end)
  | LRunCall j => p ← l_calls l !! j; c_step j p l
  end.

Fixpoint lexec (acts : list laction) (l : lworld) : option lworld :=
  match acts with
  | [] => Some l
  | a :: acts => l ← lstep a l; lexec acts l
  end.

Definition linit (gated : list string) : lworld :=
  mkL (init ToUpper gated) ∅ ∅ ∅ (fun _ => unlocked).

(** ** Who holds what *)

Inductive phase := Reading | Announced | Writing.
Abbreviation use := (option (lock * phase)).

Definition d_use (d : dpc) : use :=
  match d with
  | DAt _ => None
  | DHeld s => '(x, m) ← stage_lock s; Some (x, match m with Shared => Reading | Exclusive => Writing end)
  | DFound _ _ => Some (LPending, Writing)
  | DGated _ _ | DOpen _ _ _ => Some (LGate, Reading)
  | DFirst _ _ | DBoth _ _ => Some (LMu, Reading)
  end.
Definition c_use (p : cpc) : use :=
  match p with
  | CAt _ => None
  | CQueued k => Some (call_lock k, Announced)
  | CHeld k => Some (call_lock k, Writing)
  | CShutdown => None
  | CModules => Some (LMu, Reading)
  end.
Definition uses (l : lworld) (t : tid) : use :=
  match t with
  | inl i => d ← l_threads l !! i; d_use (d_pc d)
  | inr j => p ← l_calls l !! j; c_use p
  end.

(** A lock is what the threads' positions say. *)
Record lock_ok (U : tid -> use) (x : lock) (r : RWMutex) : Prop := {
  lk_writer t : rw_writer r = Some t <-> U t = Some (x, Announced) \/ U t = Some (x, Writing);
  lk_reader t : t ∈ rw_readers r <-> U t = Some (x, Reading);
  lk_writing t : U t = Some (x, Writing) -> rw_readers r = ∅
}.
(** Nobody reads under the mutex [pendingMu]. *)
Definition locks_ok (U : tid -> use) (L : locks) : Prop :=
  (forall x, lock_ok U x (L x)) /\ (forall t, U t <> Some (LPending, Reading)).

(** What a step does to the locks and to the use of its thread. *)
Inductive lock_move (t : tid) : use -> locks -> use -> locks -> Prop :=
| move_none u L : lock_move t u L u L
| move_rlock x r L : x <> LPending -> RW_RLock t (L x) = Some r ->
    lock_move t None L (Some (x, Reading)) (set_lock x r L)
| move_runlock x L : lock_move t (Some (x, Reading)) L None (set_lock x (RW_RUnlock t (L x)) L)
| move_mutex r L : RW_Lock t (L LPending) = Some r ->
    lock_move t None L (Some (LPending, Writing)) (set_lock LPending r L)
| move_announce x r L : RW_Lock t (L x) = Some r ->
    lock_move t None L (Some (x, Announced)) (set_lock x r L)
| move_acquire x L : acquired (L x) = true ->
    lock_move t (Some (x, Announced)) L (Some (x, Writing)) L
| move_unlock x L : lock_move t (Some (x, Writing)) L None (set_lock x (RW_Unlock (L x)) L).

Lemma set_lock_eq x r L : set_lock x r L x = r.
Proof using Type. unfold set_lock. by rewrite decide_True. Qed.
Lemma set_lock_ne x y r L : x <> y -> set_lock x r L y = L y.
Proof using Type. intros. unfold set_lock. by rewrite decide_False. Qed.

(** A writer that holds its lock excludes everybody. *)
Lemma writing_alone U L t s x p :
  locks_ok U L -> U t = Some (x, Writing) -> U s = Some (x, p) -> s = t.
Proof using Type.
  intros [Hok _] Ht Hs. destruct (Hok x) as [Hw Hr Hx].
  assert (rw_writer (L x) = Some t) as Et by (apply Hw; by right). destruct p.
  - apply Hr in Hs. rewrite (Hx t Ht) in Hs. set_solver.
  - assert (rw_writer (L x) = Some s) by (apply Hw; by left). congruence.
  - assert (rw_writer (L x) = Some s) by (apply Hw; by right). congruence.
Qed.

Lemma lock_ok_same U U' x r :
  lock_ok U x r -> (forall s p, U' s = Some (x, p) <-> U s = Some (x, p)) -> lock_ok U' x r.
Proof using Type. intros [Hw Hr Hx] E. split; intros t; rewrite !E; eauto. Qed.

Lemma lock_ok_upd U U' x r r' t :
  lock_ok U x r -> (forall s, s <> t -> U' s = U s) ->
  (forall s, s <> t -> rw_writer r' = Some s <-> rw_writer r = Some s) ->
  (rw_writer r' = Some t <-> U' t = Some (x, Announced) \/ U' t = Some (x, Writing)) ->
  (forall s, s <> t -> s ∈ rw_readers r' <-> s ∈ rw_readers r) ->
  (t ∈ rw_readers r' <-> U' t = Some (x, Reading)) ->
  (forall s, U' s = Some (x, Writing) -> rw_readers r' = ∅) ->
  lock_ok U' x r'.
Proof using Type.
  intros [Hw Hr Hx] E W1 W2 R1 R2 HX. split; [| |exact HX].
  - intros s. destruct (decide (s = t)) as [->|Hs]; [done|]. rewrite (E s Hs), (W1 s Hs). apply Hw.
  - intros s. destruct (decide (s = t)) as [->|Hs]; [done|]. rewrite (E s Hs), (R1 s Hs). apply Hr.
Qed.

(** Each operation leaves its lock as the new use of its thread says. *)
Section Moves.
Context (U U' : tid -> use) (x : lock) (r r' : RWMutex) (t : tid).
Context (Hok : lock_ok U x r) (Hs : forall s, s <> t -> U' s = U s).

(** Nobody else is writing a lock that has no writer, or that [t] writes. *)
Lemma not_writing s :
  rw_writer r = None \/ rw_writer r = Some t -> s <> t -> U' s <> Some (x, Writing).
Proof using Hok Hs.
  intros Hw Hne H. rewrite (Hs s Hne) in H. pose proof (proj2 (lk_writer _ _ _ Hok s) (or_intror H)).
  destruct Hw; congruence.
Qed.

Lemma rlock_ok : RW_RLock t r = Some r' -> U' t = Some (x, Reading) -> lock_ok U' x r'.
Proof using Hok Hs.
  unfold RW_RLock. intros Hl Ht'. destruct (rw_writer r) eqn:Ew; [done|]. injection Hl as <-.
  apply (lock_ok_upd U U' x r _ t); cbn [rw_writer rw_readers]; rewrite ?Ew, ?Ht'.
  1-3: done. 1: clear; naive_solver. 1-2: clear; set_solver.
  intros s H. destruct (decide (s = t)) as [->|Hne]; [congruence|]. by destruct (not_writing s (or_introl Ew) Hne).
Qed.

Lemma runlock_ok : U t = Some (x, Reading) -> U' t = None -> lock_ok U' x (RW_RUnlock t r).
Proof using Hok Hs.
  intros Ht Ht'. assert (rw_writer r <> Some t) as Hnw by (rewrite (lk_writer _ _ _ Hok), Ht; clear; naive_solver).
  apply (lock_ok_upd U U' x r _ t); cbn [rw_writer rw_readers RW_RUnlock]; rewrite ?Ht'.
  1-3: done. 1: clear -Hnw; naive_solver. 1-2: clear; set_solver.
  intros s H. destruct (decide (s = t)) as [->|Hne]; [congruence|]. rewrite (Hs s Hne) in H.
  rewrite (lk_writing _ _ _ Hok s H). clear; set_solver.
Qed.

Lemma lock_waits p :
  RW_Lock t r = Some r' -> U t = None -> U' t = Some (x, p) ->
  p = Announced \/ p = Writing /\ rw_readers r = ∅ -> lock_ok U' x r'.
Proof using Hok Hs.
  unfold RW_Lock. intros Hl Ht Ht' Hp. destruct (rw_writer r) eqn:Ew; [done|]. injection Hl as <-.
  apply (lock_ok_upd U U' x r _ t); cbn [rw_writer rw_readers]; rewrite ?Ew, ?Ht'.
  1-2: done. 1: clear; naive_solver. 1: clear -Hp; naive_solver. 1: done.
  - rewrite (lk_reader _ _ _ Hok), Ht. clear -Hp; naive_solver.
  - intros s H. destruct (decide (s = t)) as [->|Hne]; [|by destruct (not_writing s (or_introl Ew) Hne)].
    destruct Hp as [->|[_ Hp]]; [congruence|exact Hp].
Qed.

Lemma acquire_ok :
  acquired r = true -> U t = Some (x, Announced) -> U' t = Some (x, Writing) -> lock_ok U' x r.
Proof using Hok Hs.
  intros Ha Ht Ht'. apply (lock_ok_upd U U' x r _ t); rewrite ?Ht'.
  1-3: done. 1: rewrite (lk_writer _ _ _ Hok), Ht; clear; naive_solver. 1: done.
  1: rewrite (lk_reader _ _ _ Hok), Ht; clear; naive_solver.
  intros _ _. by apply bool_decide_eq_true in Ha.
Qed.

Lemma unlock_ok : U t = Some (x, Writing) -> U' t = None -> lock_ok U' x (RW_Unlock r).
Proof using Hok Hs.
  intros Ht Ht'. pose proof (lk_writing _ _ _ Hok t Ht) as Er.
  pose proof (proj2 (lk_writer _ _ _ Hok t) (or_intror Ht)) as Ew.
  apply (lock_ok_upd U U' x r _ t); cbn [rw_writer rw_readers RW_Unlock]; rewrite ?Ew, ?Ht', ?Er.
  1-2: done. 1-2: clear; naive_solver. 1: done. 1: clear; set_solver. done.
Qed.
End Moves.

Lemma lock_move_ok U U' L L' t u u' :
  locks_ok U L -> U t = u -> lock_move t u L u' L' -> U' t = u' -> (forall s, s <> t -> U' s = U s) ->
  locks_ok U' L'.
Proof using Type.
  intros [Hok Hm] Ht Hmv Ht' Hs. split.
  2: { intros s. destruct (decide (s = t)) as [->|]; [|rewrite Hs by done; apply Hm].
       specialize (Hm t). destruct Hmv; congruence. }
  assert (forall y, (forall p, u <> Some (y, p)) -> (forall p, u' <> Some (y, p)) -> lock_ok U' y (L y)) as Hother.
  { intros y H1 H2. apply (lock_ok_same U); [done|]. intros s p.
    destruct (decide (s = t)) as [->|]; [naive_solver congruence|by rewrite Hs]. }
  assert (forall x r', (forall p y, u = Some (y, p) -> y = x) -> (forall p y, u' = Some (y, p) -> y = x) ->
    lock_ok U' x r' -> forall y, lock_ok U' y (set_lock x r' L y)) as Hset.
  { intros x r' H1 H2 Hx y. destruct (decide (x = y)) as [<-|Hne]; [by rewrite set_lock_eq|].
    rewrite set_lock_ne by done. apply Hother; naive_solver. }
  assert (rw_readers (L LPending) = ∅) as Er.
  { apply set_eq. intros s. split; [|clear; set_solver]. intros H%(lk_reader _ _ _ (Hok LPending)). by apply Hm in H. }
  destruct Hmv as [u L|x r L Hx Hl|x L|r L Hl|x r L Hl|x L Ha|x L].
  - intros y. apply (lock_ok_same U); [done|]. intros s p.
    destruct (decide (s = t)) as [->|]; [by rewrite Ht, Ht'|by rewrite Hs].
  - apply Hset; [done|naive_solver|]. by eapply rlock_ok.
  - apply Hset; [naive_solver|done|]. by eapply runlock_ok.
  - apply Hset; [done|naive_solver|]. eapply lock_waits; eauto.
  - apply Hset; [done|naive_solver|]. eapply lock_waits; eauto.
  - intros y. destruct (decide (x = y)) as [<-|Hne]; [by eapply acquire_ok|apply Hother; naive_solver].
  - apply Hset; [naive_solver|done|]. by eapply unlock_ok.
Qed.

(** ** What is read under a lock stays true under it *)

(** The part of the bus a lock protects is the same. *)
Definition keeps (x : lock) (b b' : bus (Handler := Handler)) : Prop :=
  match x with
  | LMu => channelHandlers b' = channelHandlers b /\ typeHandlers b' = typeHandlers b
  | LPending => pending b' = pending b
  | LGate => gateOpen b' = gateOpen b /\ gatedChannels b' = gatedChannels b
  end.

Definition current (d : dpc) (b : bus (Handler := Handler)) : Prop :=
  match d with
  | DAt _ => True
  | DHeld s => stage_lock s <> None
  | DFound e ch => ReplyTo e <> EmptyString /\ ch = pending b !! ReplyTo e
  | DGated e isGated => isGated = bool_decide (Channel (Type_ e) ∈ gatedChannels b)
  | DOpen e isGated open =>
      isGated = bool_decide (Channel (Type_ e) ∈ gatedChannels b) /\ open = gateOpen b
  | DFirst e hs => hs = (nh_handler <$> default [] (channelHandlers b !! Channel (Type_ e)))
  | DBoth e hs => hs = recipients b e
  end.

Lemma current_keeps d b b' :
  (forall x p, d_use d = Some (x, p) -> keeps x b b') -> current d b -> current d b'.
Proof using Type.
  intros Hk. destruct d as [s|s|e ch|e g|e g o|e hs|e hs]; cbn [current]; try done.
  all: specialize (Hk _ _ eq_refl); cbn [keeps] in Hk; unfold recipients.
  all: lazymatch type of Hk with _ /\ _ => destruct Hk as [E1 E2]; rewrite ?E1, ?E2 | _ => rewrite Hk end; done.
Qed.

Lemma keeps_refl x b : keeps x b b.
Proof using Type. by destruct x. Qed.

Lemma stage_lock_mode s x m :
  stage_lock s = Some (x, m) -> match m with Shared => x <> LPending | Exclusive => x = LPending end.
Proof using Type. destruct s; cbn; [case_decide|..]; by intros [= <- <-]. Qed.

(** A thread takes its lock, or runs a stage that needs none. *)
Lemma d_step_at t s L w L' w' next :
  d_step t (DAt s) L w = Some (L', w', next) ->
  (w' = w /\ next = Some (DHeld s) /\ stage_lock s <> None /\ lock_move t None L (d_use (DHeld s)) L') \/
  (stage_lock s = None /\ L' = L /\ advance s w = (w', match next with Some (DAt s) => Some s | _ => None end) /\
   match next with None | Some (DAt _) => True | _ => False end).
Proof using Type.
  cbn [d_step d_use]. destruct (stage_lock s) as [[x m]|] eqn:Es.
  - left. apply stage_lock_mode in Es as Hx. destruct m.
    + destruct (RW_RLock t (L x)) as [r|] eqn:El; [|done]. injection H as <- <- <-.
      split_and!; [done..|]. by apply move_rlock.
    + subst x. destruct (RW_Lock t (L LPending)) as [r|] eqn:El; [|done]. injection H as <- <- <-.
      split_and!; [done..|]. by apply move_mutex.
  - right. destruct s as [e|c e|e|e|[|h hs] e|c]; try done; injection H as <- <- <-; try done.
    cbn [stage_lock] in Es. cbn [advance]. by case_decide.
Qed.

Lemma d_step_move t d L w L' w' next :
  d_step t d L w = Some (L', w', next) -> current d (w_bus w) ->
  lock_move t (d_use d) L (next ≫= d_use) L'.
Proof using Type.
  intros H Hc. destruct d as [s|[e|c e|e|e|hs e|c]|e ch|e g|e g o|e hs|e hs].
  { apply d_step_at in H as [(_ & -> & _ & H)|(_ & -> & _ & Hn)]; [exact H|].
    destruct next as [[]|]; try done; apply move_none. }
  all: cbn [d_step] in H; try done; injection H as <- <- <-; cbn [d_use mbind option_bind stage_lock].
  all: try apply move_none; try apply move_runlock; try apply move_unlock.
  - cbn [current stage_lock] in Hc. case_decide; [done|]. apply move_none.
  - destruct (g && negb o); apply move_runlock.
Qed.

(** A thread changes what a lock protects only when it holds the lock alone. *)
Lemma d_step_keeps t d L w L' w' next x :
  d_step t d L w = Some (L', w', next) -> d_use d <> Some (x, Writing) -> keeps x (w_bus w) (w_bus w').
Proof using Type.
  intros H Hu. destruct d as [s|[e|c e|e|e|hs e|c]|e ch|e g|e g o|e hs|e hs].
  { apply d_step_at in H as [(-> & _)|(Es & _ & Ha & _)]; [apply keeps_refl|].
    destruct s as [e|c e|e|e|[|h hs] e|c]; try done; cbn [advance] in Ha; injection Ha as <- _; apply keeps_refl. }
  all: cbn [d_step] in H; try done; injection H as <- <- <-; try apply keeps_refl.
  unfold leave_request. destruct (w_requests w !! c); [|apply keeps_refl].
  by destruct x.
Qed.

Lemma d_step_current t d L w L' w' p :
  d_step t d L w = Some (L', w', Some p) -> current d (w_bus w) -> current p (w_bus w').
Proof using Type.
  intros H Hc. destruct d as [s|[e|c e|e|e|hs e|c]|e ch|e g|e g o|e hs|e hs].
  { apply d_step_at in H as [(-> & [= ->] & Hs & _)|(_ & _ & _ & Hn)]; [done|]. by destruct p. }
  all: cbn [d_step] in H; try done; try injection H as <- <- <-; cbn [current] in *; try done.
  - split; [|done]. cbn in Hc. by case_decide.
  - destruct (g && negb o); [done|]. by injection H as <- <- <-.
  - by rewrite Hc.
Qed.

(** ** The sections a run of locks and reads stands for *)

Definition abs_stage (d : dpc) : stage :=
  match d with
  | DAt s | DHeld s => s
  | DFound e _ => SReply e
  | DGated e _ | DOpen e _ _ => SGate e
  | DFirst e _ | DBoth e _ => SHandlers e
  end.
Definition abs_thread (d : dthread) : thread (Handler := Handler) :=
  mkThread (abs_stage (d_pc d)) (d_req d).
Definition abs (l : lworld) : fworld := mkF (l_w l) (abs_thread <$> l_threads l) (l_waiting l).

(** A bound on the steps a thread has left, those of its loop over the handlers
    apart. *)
Definition d_weight (d : dpc) : nat :=
  match d with
  | DAt (SReply _) => 13
  | DHeld (SReply _) => 12
  | DFound _ _ => 11
  | DAt (SSend _ _) => 10
  | DAt (SGate _) => 9
  | DHeld (SGate _) => 8
  | DGated _ _ => 7
  | DOpen _ _ _ => 6
  | DAt (SHandlers _) => 5
  | DHeld (SHandlers _) => 4
  | DFirst _ _ => 3
  | DBoth _ _ => 2
  | DAt (SSpawn _ _) => 1
  | DAt (SLeave _) => 2
  | DHeld (SLeave _) => 1
  | DHeld _ => 0
  end.
(** The step that ends a stage's section: the release of its lock, or the
    stage itself when it takes none. *)
Definition ends_section (d : dpc) : bool :=
  match d with
  | DAt s => match stage_lock s with Some _ => false | None => true end
  | DHeld (SLeave _) | DFound _ _ | DOpen _ _ _ | DBoth _ _ => true
  | DHeld _ | DGated _ _ | DFirst _ _ => false
  end.

(** The section of [BusThreads] that a call's body is. *)
Definition section_of (k : lcall) : faction :=
  match k with
  | KRegister m => FCall (ARegister m)
  | KUnregister id => FCall (AUnregister id)
  | KSubscribe raw t h => FCall (ASubscribe raw t h)
  | KUnsubscribe t id => FCall (AUnsubscribe t id)
  | KGate open => FCall (AGate open)
  | KRequest raw now e => FRequest raw now e
  end.

(** The section a step completes, if any, and those of a trace. *)
Definition section_at (a : laction) (l : lworld) : option faction :=
  match a with
  | LCall _ | LShut => None
  | LDispatch now e => Some (FDispatch now e)
  | LReceive c => Some (FReceive c)
  | LGiveUp c => Some (FGiveUp c)
  | LShutdown order => Some (FCall (AShutdown order))
  | LFinish i => Some (FCall (AFinish i))
  | LRun i => d ← l_threads l !! i; if ends_section (d_pc d) then Some (FRun i) else None
  | LRunCall j => p ← l_calls l !! j; match p with CHeld k => Some (section_of k) | _ => None end
  end.
Fixpoint sections (acts : list laction) (l : lworld) : list faction :=
  match acts with
  | [] => []
  | a :: acts =>
      option_list (section_at a l) ++ match lstep a l with Some l => sections acts l | None => [] end
  end.

Lemma d_step_sections t d L w L' w' next :
  d_step t d L w = Some (L', w', next) -> current d (w_bus w) ->
  if ends_section d
  then advance (abs_stage d) w = (w', abs_stage <$> next) /\
       match next with Some p => exists s, p = DAt s | None => True end
  else w' = w /\ exists p, next = Some p /\ abs_stage p = abs_stage d /\ (d_weight p < d_weight d)%nat.
Proof using Type.
  intros H Hc. destruct d as [s|[e|c e|e|e|hs e|c]|e ch|e g|e g o|e hs|e hs].
  { apply d_step_at in H as [(-> & -> & Hs & _)|(Es & _ & Ha & Hn)]; cbn [ends_section abs_stage].
    - destruct (stage_lock s) as [xm|] eqn:Es; [|done]. split; [done|]. eexists. split_and!; [done..|].
      destruct s; try done; cbn; lia.
    - rewrite Es, Ha. split; [by destruct next as [[]|]|]. destruct next as [[]|]; try done. by eexists. }
  all: cbn [d_step] in H; try done; injection H as <- <- <-; cbn [ends_section abs_stage advance current] in *.
  - split; [done|]. eexists. split_and!; [done..|]. cbn; lia.
  - split; [done|]. eexists. split_and!; [done..|]. cbn; lia.
  - split; [done|]. eexists. split_and!; [done..|]. cbn; lia.
  - done.
  - destruct Hc as [Hr ->]. rewrite decide_False by done.
    destruct (pending _ !! _); (split; [done|by eexists]).
  - split; [done|]. eexists. split_and!; [done..|]. cbn; lia.
  - destruct Hc as [-> ->]. unfold gate_open.
    destruct (bool_decide _ && negb _); (split; [done|]); [done|by eexists].
  - split; [done|]. eexists. split_and!; [done..|]. cbn; lia.
  - subst hs. split; [done|by eexists].
Qed.

(** ** The invariant *)

Record linv (l : lworld) : Prop := {
  li_locks : locks_ok (uses l) (l_locks l);
  li_current i d : l_threads l !! i = Some d -> current (d_pc d) (w_bus (l_w l))
}.

(** A step that takes no lock and at most starts a thread. *)
Definition adds (l l' : lworld) : Prop :=
  (forall t, uses l' t = uses l t) /\ l_locks l' = l_locks l /\
  (forall i d, l_threads l' !! i = Some d -> l_threads l !! i = Some d \/ exists s, d_pc d = DAt s).

Lemma adds_inv l l' :
  adds l l' ->
  (forall i d x p, l_threads l !! i = Some d -> d_use (d_pc d) = Some (x, p) ->
     keeps x (w_bus (l_w l)) (w_bus (l_w l'))) ->
  linv l -> linv l'.
Proof using Type.
  intros (Hu & HL & HT) Hk [Hl Hc]. split.
  - rewrite HL. split; [|intros t; rewrite Hu; apply Hl]. intros x.
    apply (lock_ok_same (uses l)); [apply Hl|]. intros t p. by rewrite Hu.
  - intros i d [Hi|[s ->]]%HT; [|done]. eapply current_keeps; [|by eapply Hc]. intros x p. by apply (Hk i).
Qed.

(** A new thread at a stage uses no lock. *)
Lemma adds_thread l s req w W :
  adds l (mkL w (<[fresh (dom (l_threads l)) := mkD (DAt s) req]> (l_threads l)) (l_calls l) W (l_locks l)).
Proof using Type.
  split_and!; [|done|].
  - intros [i|j]; [|done]. cbn. destruct (decide (fresh (dom (l_threads l)) = i)) as [<-|Hne].
    + rewrite lookup_insert_eq. by rewrite (proj1 (not_elem_of_dom _ _) (is_fresh (dom (l_threads l)))).
    + by rewrite lookup_insert_ne.
  - intros i d. cbn. intros [[_ <-]|[_ Hi]]%lookup_insert_Some; [right; by exists s|by left].
Qed.
Lemma adds_same l w W : adds l (mkL w (l_threads l) (l_calls l) W (l_locks l)).
Proof using Type. split_and!; [done..|by left]. Qed.

Lemma l_begin_adds now e req l : adds l (l_begin now e req l).
Proof using Type. unfold l_begin. destruct (hop now e); [apply adds_thread|apply adds_same]. Qed.
Lemma l_begin_w now e req l : l_w (l_begin now e req l) = l_w l.
Proof using Type. unfold l_begin. by destruct (hop now e). Qed.

Lemma l_begin_abs now e req l : abs (l_begin now e req l) = begin now e req (abs l).
Proof using Type.
  unfold l_begin, begin, abs. destruct (hop now e); [|done].
  cbn [f_w f_threads f_waiting l_w l_threads l_waiting]. by rewrite fmap_insert, dom_fmap_L.
Qed.
Lemma l_leave_select_abs c w l : abs <$> l_leave_select c w l = leave_select c w (abs l).
Proof using Type.
  unfold l_leave_select, leave_select, abs. cbn [f_w f_threads f_waiting]. case_decide; [|done].
  cbn. by rewrite fmap_insert, dom_fmap_L.
Qed.

Lemma c_body_adds k l : adds l (c_body k l).
Proof using Type.
  destruct k as [m|id|raw t h|t id|open|raw now e]; try apply adds_same.
  unfold c_body. cbv zeta.
  match goal with |- adds _ (l_begin ?n ?e ?r ?l0) => destruct (l_begin_adds n e r l0) as (H1 & H2 & H3) end.
  by split_and!.
Qed.
Lemma c_body_keeps k l x : x <> call_lock k -> keeps x (w_bus (l_w l)) (w_bus (l_w (c_body k l))).
Proof using Type.
  intros Hx. destruct k as [m|id|raw t h|t id|open|raw now e]; cbn [call_lock c_body] in *.
  6: { rewrite l_begin_w. by destruct x. }
  all: destruct x; try done; cbn; unfold Register, Unregister.
  all: try by destruct (modules _ !! _). all: by destruct open.
Qed.

Lemma c_body_abs k l : fstep ToUpper (section_of k) (abs l) = Some (abs (c_body k l)).
Proof using Type.
  destruct k as [m|id|raw t h|t id|open|raw now e]; try done.
  cbn [section_of fstep c_body]. by rewrite l_begin_abs.
Qed.

Lemma c_step_inv j p l l' :
  l_calls l !! j = Some p -> c_step j p l = Some l' -> linv l -> linv l'.
Proof using Type.
  intros Hj Hs [Hl Hc].
  assert (uses l (inr j) = c_use p) as Hu by (cbn; by rewrite Hj).
  assert (forall q t, t <> inr j -> uses (set_call j q (l_locks l) l) t = uses l t) as Hother.
  { intros q [i|j'] Ht; [done|]. cbn. rewrite lookup_insert_ne; [done|congruence]. }
  assert (forall L q, linv (set_call j q L l) <-> locks_ok (uses (set_call j q L l)) L) as Hset.
  { intros L q. split; [by intros []|]. intros HL. split; [done|]. exact Hc. }
  assert (forall L, (forall t, t <> inr j -> uses (mkL (l_w l) (l_threads l) (delete j (l_calls l)) (l_waiting l) L) t
    = uses l t) /\ uses (mkL (l_w l) (l_threads l) (delete j (l_calls l)) (l_waiting l) L) (inr j) = None) as Hdel.
  { intros L. split; [|cbn; by rewrite lookup_delete_eq].
    intros [i|j'] Ht; [done|]. cbn. rewrite lookup_delete_ne; [done|congruence]. }
  destruct p as [k|k|k| |]; cbn [c_step] in Hs.
  - destruct (RW_Lock (inr j) (l_locks l (call_lock k))) as [r|] eqn:El; [|done]. injection Hs as <-.
    apply Hset. eapply lock_move_ok; [exact Hl|exact Hu| |reflexivity|apply Hother].
    cbn. rewrite lookup_insert_eq. cbn. case_decide as Ek; [|by apply move_announce].
    cbn. rewrite Ek in *. by apply move_mutex.
  - destruct (acquired (l_locks l (call_lock k))) eqn:Ea; [|done]. injection Hs as <-.
    apply Hset. eapply lock_move_ok; [exact Hl|exact Hu| |reflexivity|apply Hother].
    cbn. rewrite lookup_insert_eq. by apply move_acquire.
  - injection Hs as <-. set (l0 := mkL _ _ _ _ _).
    assert (linv l0) as H0.
    { split; [|exact Hc]. eapply lock_move_ok; [exact Hl|exact Hu| |apply Hdel|apply Hdel]. apply move_unlock. }
    apply (adds_inv l0); [apply c_body_adds| |exact H0].
    intros i d x q Hi Hq. apply c_body_keeps. intros ->. change (l_threads l !! i = Some d) in Hi.
    assert (uses l (inl i) = Some (call_lock k, q)) as Hi' by (cbn; by rewrite Hi).
    by pose proof (writing_alone _ _ _ _ _ _ Hl Hu Hi').
  - destruct (RW_RLock (inr j) (l_locks l LMu)) as [r|] eqn:El; [|done]. injection Hs as <-.
    apply Hset. eapply lock_move_ok; [exact Hl|exact Hu| |reflexivity|apply Hother].
    cbn. rewrite lookup_insert_eq. by apply move_rlock.
  - injection Hs as <-. split; [|exact Hc].
    eapply lock_move_ok; [exact Hl|exact Hu| |apply Hdel|apply Hdel]. apply move_runlock.
Qed.

Lemma run_inv i d l L w next :
  l_threads l !! i = Some d -> d_step (inl i) (d_pc d) (l_locks l) (l_w l) = Some (L, w, next) -> linv l ->
  linv (match next with
        | Some p => mkL w (<[i := mkD p (d_req d)]> (l_threads l)) (l_calls l) (l_waiting l) L
        | None => mkL w (delete i (l_threads l)) (l_calls l) (leave (d_req d) (l_waiting l)) L
        end).
Proof using Type.
  intros Hi Hs [Hl Hc].
  assert (uses l (inl i) = d_use (d_pc d)) as Hu by (cbn; by rewrite Hi).
  pose proof (d_step_move _ _ _ _ _ _ _ Hs (Hc i d Hi)) as Hm.
  assert (forall j d', j <> i -> l_threads l !! j = Some d' -> current (d_pc d') (w_bus w)) as Hcur.
  { intros j d' Hne Hj. eapply current_keeps; [|by eapply Hc]. intros x p Hp.
    eapply d_step_keeps; [exact Hs|]. intros Hw. rewrite <- Hu in Hw.
    assert (uses l (inl j) = Some (x, p)) as Hj' by (cbn; by rewrite Hj).
    pose proof (writing_alone _ _ _ _ _ _ Hl Hw Hj'). congruence. }
  destruct next as [p|]; split; cbn [l_locks l_threads l_w].
  - eapply lock_move_ok; [exact Hl|exact Hu|exact Hm|cbn; by rewrite lookup_insert_eq|].
    intros [j|j] Ht; [|done]. cbn. rewrite lookup_insert_ne; [done|congruence].
  - intros j d' [[<- <-]|[Hne Hj]]%lookup_insert_Some; [|by eapply Hcur].
    cbn [d_pc]. eapply d_step_current; [exact Hs|by eapply Hc].
  - eapply lock_move_ok; [exact Hl|exact Hu|exact Hm|cbn; by rewrite lookup_delete_eq|].
    intros [j|j] Ht; [|done]. cbn. rewrite lookup_delete_ne; [done|congruence].
  - intros j d' [Hne Hj]%lookup_delete_Some. by eapply Hcur.
Qed.

Lemma lstep_inv a l l' : lstep a l = Some l' -> linv l -> linv l'.
Proof using Type.
  intros Hs Hi. assert (forall w c l', w_bus w = w_bus (l_w l) -> l_leave_select c w l = Some l' -> linv l') as Hsel.
  { intros w c l1 Hw H1. unfold l_leave_select in H1. case_decide; [|done]. injection H1 as <-.
    apply (adds_inv l); [apply adds_thread| |done]. intros. cbn. rewrite Hw. apply keeps_refl. }
  assert (forall p, c_use p = None -> linv (set_call (fresh (dom (l_calls l))) p (l_locks l) l)) as Hnew.
  { intros p Hp. apply (adds_inv l); [|intros; apply keeps_refl|done]. split_and!; [|done|by left].
    intros [i|j]; [done|]. cbn. destruct (decide (fresh (dom (l_calls l)) = j)) as [<-|Hne].
    - rewrite lookup_insert_eq. by rewrite (proj1 (not_elem_of_dom _ _) (is_fresh (dom (l_calls l)))).
    - by rewrite lookup_insert_ne. }
  destruct a as [k| |now e|c|c|order|i|i|j]; cbn [lstep] in Hs.
  - injection Hs as <-. by apply Hnew.
  - injection Hs as <-. by apply Hnew.
  - injection Hs as <-. apply (adds_inv l); [apply l_begin_adds| |done].
    intros. rewrite l_begin_w. apply keeps_refl.
  - destruct (receive c (l_w l)) as [w|] eqn:Er; [|done]. apply (Hsel w c); [|exact Hs].
    by apply (picks_bus c (l_w l) w); left.
  - by apply (Hsel (l_w l) c).
  - injection Hs as <-. apply (adds_inv l); [apply adds_same| |done]. intros. by destruct x.
  - injection Hs as <-. apply (adds_inv l); [apply adds_same| |done]. intros. by destruct x.
  - destruct (l_threads l !! i) as [d|] eqn:Ei; [|done]. cbn [mbind option_bind] in Hs.
    destruct (d_step _ _ _ _) as [[[L w] next]|] eqn:Ed; [|done]. cbn [mbind option_bind] in Hs.
    injection Hs as <-. by eapply run_inv.
  - destruct (l_calls l !! j) as [p|] eqn:Ej; [|done]. by eapply c_step_inv.
Qed.

(** A step is nothing or one section to [BusThreads]. *)
Lemma lstep_sections a l l' :
  lstep a l = Some l' -> linv l ->
  match section_at a l with
  | Some fa => fstep ToUpper fa (abs l) = Some (abs l')
  | None => abs l' = abs l
  end.
Proof using Type.
  intros Hs Hi. destruct a as [k| |now e|c|c|order|i|i|j]; cbn [lstep section_at] in *.
  - by injection Hs as <-.
  - by injection Hs as <-.
  - injection Hs as <-. by rewrite l_begin_abs.
  - cbn [fstep abs f_w]. destruct (receive c (l_w l)) as [w|]; [|done].
    cbn [mbind option_bind] in *. by rewrite <- l_leave_select_abs, Hs.
  - cbn [fstep abs f_w]. by rewrite <- l_leave_select_abs, Hs.
  - by injection Hs as <-.
  - by injection Hs as <-.
  - destruct (l_threads l !! i) as [d|] eqn:Ei; [|done]. cbn [mbind option_bind] in *.
    destruct (d_step _ _ _ _) as [[[L w] next]|] eqn:Ed; [|done]. cbn [mbind option_bind] in Hs.
    injection Hs as <-. pose proof (d_step_sections _ _ _ _ _ _ _ Ed (li_current l Hi i d Ei)) as H.
    destruct (ends_section (d_pc d)).
    + destruct H as [Ha _]. unfold abs. cbn [fstep f_threads f_w f_waiting]. rewrite lookup_fmap, Ei.
      cbn [fmap option_fmap option_map mbind option_bind abs_thread t_stage t_req]. rewrite Ha.
      destruct next as [p|]; cbn [fmap option_fmap option_map l_w l_threads l_waiting].
      * by rewrite fmap_insert.
      * by rewrite fmap_delete.
    + destruct H as (-> & p & -> & Ep & _). unfold abs. cbn. f_equal.
      rewrite fmap_insert. unfold abs_thread at 1. cbn. rewrite Ep. apply insert_id. by rewrite lookup_fmap, Ei.
  - destruct (l_calls l !! j) as [p|] eqn:Ej; [|done]. cbn [mbind option_bind] in *.
    destruct p as [k|k|k| |]; cbn [c_step] in Hs.
    + destruct (RW_Lock _ _); [|done]. by injection Hs as <-.
    + destruct (acquired _); [|done]. by injection Hs as <-.
    + injection Hs as <-. by rewrite <- c_body_abs.
    + destruct (RW_RLock _ _); [|done]. by injection Hs as <-.
    + by injection Hs as <-.
Qed.

Lemma linit_inv gated : linv (linit gated).
Proof using Type.
  split; [|intros i d Hi; cbn in Hi; by rewrite lookup_empty in Hi].
  assert (forall t, uses (linit gated) t = None) as E by (by intros [i|j]).
  split; [|intros t; by rewrite E]. intros x. split; intros t; rewrite ?E; cbn.
  - naive_solver.
  - split; [|done]. set_solver.
  - done.
Qed.

Lemma lexec_sections acts l l' :
  lexec acts l = Some l' -> linv l -> linv l' /\ fexec ToUpper (sections acts l) (abs l) = Some (abs l').
Proof using Type.
  revert l. induction acts as [|a acts IH]; intros l; cbn [lexec sections].
  { by intros [= <-]. }
  destruct (lstep a l) as [l1|] eqn:E; [|done]. cbn [mbind option_bind]. intros Hx Hi.
  destruct (IH l1 Hx (lstep_inv _ _ _ E Hi)) as [H' Hf]. split; [exact H'|].
  pose proof (lstep_sections _ _ _ E Hi) as H. rewrite fexec_app.
  destruct (section_at a l) as [fa|]; cbn.
  - by rewrite H.
  - by rewrite <- H.
Qed.

Lemma abs_linit gated : abs (linit gated) = finit ToUpper gated.
Proof using Type. unfold abs. cbn. by rewrite fmap_empty. Qed.

(** ** Calls return *)

(** The steps of calls that have begun. *)
Definition internal (a : laction) : Prop :=
  match a with LRun _ | LRunCall _ => True | _ => False end.
Definition run_step (l l' : lworld) : Prop := exists a, internal a /\ lstep a l = Some l'.
Definition can_run (l : lworld) : Prop := exists l', run_step l l'.

Lemma thread_runs l i d :
  l_threads l !! i = Some d -> is_Some (d_step (inl i) (d_pc d) (l_locks l) (l_w l)) -> can_run l.
Proof using Type.
  intros Hi [[[L w] next] Hs]. eexists. exists (LRun i). split; [done|].
  cbn [lstep]. rewrite Hi. cbn [mbind option_bind]. rewrite Hs. reflexivity.
Qed.
Lemma call_runs l j p : l_calls l !! j = Some p -> is_Some (c_step j p l) -> can_run l.
Proof using Type.
  intros Hj [l' Hs]. exists l', (LRunCall j). split; [done|]. cbn [lstep]. by rewrite Hj.
Qed.

(** A thread that has its lock is never held up. *)
Lemma d_step_held t d L w :
  current d (w_bus w) -> (forall s, d <> DAt s) -> is_Some (d_step t d L w).
Proof using Type.
  intros Hc Hd. destruct d as [s|[e|c e|e|e|hs e|c]|e ch|e g|e g o|e hs|e hs]; cbn in *;
    first [done|by eexists|by destruct (Hd s)].
Qed.

(** Nor is one whose lock nobody writes. *)
Lemma d_step_free t s L w :
  (forall x m, stage_lock s = Some (x, m) -> rw_writer (L x) = None) -> is_Some (d_step t (DAt s) L w).
Proof using Type.
  intros HL. cbn [d_step]. destruct (stage_lock s) as [[x m]|] eqn:Es.
  - unfold RW_RLock, RW_Lock. rewrite (HL x m eq_refl). destruct m; by eexists.
  - destruct s as [e|c e|e|e|[|h hs] e|c]; first [done|by eexists].
Qed.

(** Somebody can run when a lock is in use: its holder, or the readers a writer
    waits for, or that writer. *)
Lemma holder_runs l t x p : linv l -> uses l t = Some (x, p) -> p <> Announced -> can_run l.
Proof using Type.
  intros [_ Hc] Hu Hp. destruct t as [i|j]; cbn in Hu.
  - destruct (l_threads l !! i) as [d|] eqn:Ei; [|done]. eapply thread_runs; [exact Ei|].
    apply d_step_held; [by eapply Hc|]. intros s E. cbn in Hu. by rewrite E in Hu.
  - destruct (l_calls l !! j) as [[k|k|k| |]|] eqn:Ej; cbn in Hu; try congruence;
      (eapply call_runs; [exact Ej|by eexists]).
Qed.
Lemma user_runs l t x p : linv l -> uses l t = Some (x, p) -> can_run l.
Proof using Type.
  intros Hi Hu. destruct (decide (rw_readers (l_locks l x) = ∅)) as [Er|(s & Hs)%set_choose_L].
  - destruct p; try (by eapply holder_runs).
    destruct t as [i|j]; cbn in Hu.
    + destruct (l_threads l !! i) as [[d r]|]; [|done]. cbn in Hu. destruct d; cbn in Hu; try done.
      destruct (stage_lock s) as [[y []]|]; done.
    + destruct (l_calls l !! j) as [[k|k|k| |]|] eqn:Ej; cbn in Hu; try congruence.
      injection Hu as <-. eapply call_runs; [exact Ej|]. cbn [c_step].
      unfold acquired. rewrite bool_decide_true by done. by eexists.
  - apply (lk_reader _ _ _ (proj1 (li_locks l Hi) x)) in Hs. by eapply holder_runs.
Qed.

Lemma writer_or_free l x : linv l -> can_run l \/ rw_writer (l_locks l x) = None.
Proof using Type.
  intros Hi. destruct (rw_writer (l_locks l x)) as [t|] eqn:E; [left|by right].
  apply (lk_writer _ _ _ (proj1 (li_locks l Hi) x)) in E as [E|E]; by eapply user_runs.
Qed.

(** No deadlock. *)
Lemma someone_runs l : linv l -> l_threads l <> ∅ \/ l_calls l <> ∅ -> can_run l.
Proof using Type.
  intros Hi [(i & d & Hd)%map_choose|(j & p & Hp)%map_choose].
  - destruct d as [d r]. destruct (d_use d) as [[x p]|] eqn:Eu.
    { apply (user_runs l (inl i) x p Hi). cbn. by rewrite Hd. }
    pose proof (li_current l Hi i _ Hd) as Hc. cbn [d_pc] in Hc.
    destruct d as [s|s| | | | |]; try done.
    + destruct (stage_lock s) as [[x m]|] eqn:Es.
      * destruct (writer_or_free l x Hi) as [|Hw]; [done|]. eapply thread_runs; [exact Hd|].
        apply d_step_free. rewrite Es. by intros ? ? [= <- _].
      * eapply thread_runs; [exact Hd|]. apply d_step_free. by rewrite Es.
    + cbn in Eu, Hc. by destruct (stage_lock s) as [[]|].
  - destruct p as [k|k|k| |].
    + destruct (writer_or_free l (call_lock k) Hi) as [|Hw]; [done|]. eapply call_runs; [exact Hp|].
      cbn [c_step]. unfold RW_Lock. rewrite Hw. by eexists.
    + apply (user_runs l (inr j) (call_lock k) Announced Hi). cbn. by rewrite Hp.
    + apply (user_runs l (inr j) (call_lock k) Writing Hi). cbn. by rewrite Hp.
    + destruct (writer_or_free l LMu Hi) as [|Hw]; [done|]. eapply call_runs; [exact Hp|].
      cbn [c_step]. unfold RW_RLock. rewrite Hw. by eexists.
    + apply (user_runs l (inr j) LMu Reading Hi). cbn. by rewrite Hp.
Qed.

(** *** No call goes on for ever *)

(** The handlers it is about to start. *)
Definition d_spawns (d : dpc) : nat :=
  match d with DAt (SSpawn hs _) => length hs | _ => 0 end.
Definition c_weight (p : cpc) : nat :=
  match p with CAt _ => 16 | CQueued _ => 15 | CHeld _ => 14 | CShutdown => 2 | CModules => 1 end.

Definition total {A} (w : A -> nat) (m : gmap nat A) : nat :=
  map_fold (fun _ x n => w x + n)%nat 0%nat m.
Definition work (l : lworld) : nat * nat :=
  (total (d_weight ∘ d_pc) (l_threads l) + total c_weight (l_calls l),
   total (d_spawns ∘ d_pc) (l_threads l))%nat.

Lemma total_insert {A} (w : A -> nat) m i x :
  m !! i = None -> total w (<[i := x]> m) = (w x + total w m)%nat.
Proof using Type. intros Hi. unfold total. rewrite map_fold_insert_L; [done|lia|done]. Qed.
Lemma total_delete {A} (w : A -> nat) m i x :
  m !! i = Some x -> total w m = (w x + total w (delete i m))%nat.
Proof using Type.
  intros Hi. rewrite <- (total_insert w (delete i m) i x) by apply lookup_delete_eq. by rewrite insert_delete_id.
Qed.
Lemma total_update {A} (w : A -> nat) m i x y :
  m !! i = Some x -> (total w (<[i := y]> m) + w x = total w m + w y)%nat.
Proof using Type.
  intros Hi. rewrite <- (insert_delete_eq m i y), total_insert by apply lookup_delete_eq.
  rewrite (total_delete w m i x Hi). lia.
Qed.

Lemma d_step_less t d L w L' w' next :
  d_step t d L w = Some (L', w', next) ->
  match next with
  | Some p => (d_weight p < d_weight d)%nat \/ (d_weight p = d_weight d /\ d_spawns p < d_spawns d)%nat
  | None => (0 < d_weight d)%nat
  end.
Proof using Type.
  intros H. destruct d as [s|[e|c e|e|e|hs e|c]|e ch|e g|e g o|e hs|e hs]; cbn [d_step] in H.
  { destruct (stage_lock s) as [[x m]|] eqn:Es.
    - destruct m; [destruct (RW_RLock t (L x))|destruct (RW_Lock t (L x))]; try done; injection H as <- <- <-;
        left; destruct s as [e|c e|e|e|hs e|c]; cbn in *; lia || done.
    - destruct s as [e|c e|e|e|[|h hs] e|c]; try done; injection H as <- <- <-; cbn; lia. }
  all: try done; injection H as <- <- <-; cbn; try lia.
  - destruct ch; cbn; lia.
  - destruct (g && negb o); cbn; lia.
Qed.

Lemma l_begin_work now e req l :
  (total (d_weight ∘ d_pc) (l_threads (l_begin now e req l)) <= 13 + total (d_weight ∘ d_pc) (l_threads l))%nat.
Proof using Type.
  unfold l_begin. destruct (hop now e); [|cbn; lia]. cbn [l_threads].
  rewrite total_insert by (apply not_elem_of_dom, is_fresh). cbn. lia.
Qed.

Lemma c_body_work k l :
  (total (d_weight ∘ d_pc) (l_threads (c_body k l)) <= 13 + total (d_weight ∘ d_pc) (l_threads l))%nat /\
  l_calls (c_body k l) = l_calls l.
Proof using Type.
  destruct k as [m|id|raw t h|t id|open|raw now e]; try (split; [cbn; lia|done]).
  cbn [c_body]. split; [apply (l_begin_work _ _ _ (mkL _ _ _ _ _))|]. unfold l_begin. by destruct (hop _ _).
Qed.

Lemma run_step_less l l' : run_step l l' -> slexprod _ _ lt lt (work l') (work l).
Proof using Type.
  intros (a & Ha & Hs). unfold work.
  assert (forall a1 a2 b1 b2, (a1 < b1)%nat \/ (a1 = b1 /\ a2 < b2)%nat -> slexprod _ _ lt lt (a1, a2) (b1, b2)) as Hlex.
  { intros a1 a2 b1 b2 [H|[-> H]]; [by apply left_slex|by apply right_slex]. }
  apply Hlex. destruct a as [| | | | | | |i|j]; try done; cbn [lstep] in Hs.
  - destruct (l_threads l !! i) as [d|] eqn:Ei; [|done]. cbn [mbind option_bind] in Hs.
    destruct (d_step _ _ _ _) as [[[L w] next]|] eqn:Ed; [|done]. cbn [mbind option_bind] in Hs.
    injection Hs as <-. apply d_step_less in Ed. destruct next as [p|]; cbn [l_threads l_calls].
    + pose proof (total_update (d_weight ∘ d_pc) (l_threads l) i d (mkD p (d_req d)) Ei) as H1.
      pose proof (total_update (d_spawns ∘ d_pc) (l_threads l) i d (mkD p (d_req d)) Ei) as H2.
      cbn [compose d_pc] in *. lia.
    + rewrite (total_delete (d_weight ∘ d_pc) (l_threads l) i d Ei). cbn [compose]. lia.
  - destruct (l_calls l !! j) as [p|] eqn:Ej; [|done]. cbn [mbind option_bind] in Hs. left.
    destruct p as [k|k|k| |]; cbn [c_step] in Hs.
    + destruct (RW_Lock _ _); [|done]. injection Hs as <-. cbn [l_threads l_calls set_call].
      pose proof (total_update c_weight (l_calls l) j _ (if decide (call_lock k = LPending) then CHeld k else CQueued k) Ej) as H.
      case_decide; cbn in *; lia.
    + destruct (acquired _); [|done]. injection Hs as <-. cbn [l_threads l_calls set_call].
      pose proof (total_update c_weight (l_calls l) j _ (CHeld k) Ej) as H. cbn in *; lia.
    + injection Hs as <-. set (l0 := mkL _ _ _ _ _). destruct (c_body_work k l0) as [H1 ->].
      rewrite (total_delete c_weight (l_calls l) j _ Ej). subst l0. cbn [l_threads l_calls c_weight] in *. lia.
    + destruct (RW_RLock _ _); [|done]. injection Hs as <-. cbn [l_threads l_calls set_call].
      pose proof (total_update c_weight (l_calls l) j _ CModules Ej) as H. cbn in *; lia.
    + injection Hs as <-. cbn [l_threads l_calls]. rewrite (total_delete c_weight (l_calls l) j _ Ej). cbn; lia.
Qed.

Lemma runs_end l : Acc (fun l2 l1 => run_step l1 l2) l.
Proof using Type.
  assert (well_founded (fun l2 l1 => slexprod _ _ lt lt (work l2) (work l1))) as Hwf
    by (apply wf_inverse_image, wf_slexprod; apply lt_wf).
  induction (Hwf l) as [l _ IH]. constructor. intros l' Hs. by apply IH, run_step_less.
Qed.

(** ** Every run of sections is a run of locks *)

Lemma lexec_app acts1 acts2 l : lexec (acts1 ++ acts2) l = lexec acts1 l ≫= lexec acts2.
Proof using Type.
  revert l. induction acts1 as [|a acts1 IH]; intros l; [done|]. cbn. destruct (lstep a l); cbn; [apply IH|done].
Qed.
Lemma sections_app acts1 acts2 l l1 :
  lexec acts1 l = Some l1 -> sections (acts1 ++ acts2) l = sections acts1 l ++ sections acts2 l1.
Proof using Type.
  revert l. induction acts1 as [|a acts1 IH]; intros l; cbn; [by intros [= <-]|].
  destruct (lstep a l) as [l2|]; [|done]. cbn. intros Hx. by rewrite (IH l2 Hx), app_assoc.
Qed.

(** No thread apart from [i] is inside a section, and no other call goes on. *)
Definition idle_but (i : option nat) (l : lworld) : Prop :=
  (forall j d, Some j <> i -> l_threads l !! j = Some d -> exists s, d_pc d = DAt s) /\ l_calls l = ∅.
Abbreviation idle := (idle_but None).

Lemma idle_but_uses i l x p t : idle_but i l -> uses l t = Some (x, p) -> exists j, i = Some j /\ t = inl j.
Proof using Type.
  intros [Ht Hc] Hu. destruct t as [j|j]; cbn in Hu; [|by rewrite Hc in Hu].
  destruct (l_threads l !! j) as [d|] eqn:Ej; [|done]. cbn in Hu.
  destruct (decide (Some j = i)) as [<-|Hne]; [by exists j|].
  destruct (Ht j d Hne Ej) as [s Es]. by rewrite Es in Hu.
Qed.
Lemma idle_free l x : linv l -> idle l -> l_locks l x = unlocked.
Proof using Type.
  intros [[Hl _] _] Hi. destruct (Hl x) as [Hw Hr _].
  assert (forall t p, uses l t <> Some (x, p)) as Hno.
  { intros t p Hu. by apply (idle_but_uses None l) in Hu as (j & [=] & _). }
  destruct (l_locks l x) as [w rs]. cbn in *. unfold unlocked. f_equal.
  - destruct w as [t|]; [|done]. destruct (proj1 (Hw t) eq_refl) as [H|H]; by apply Hno in H.
  - apply set_eq. intros t. split; [intros H%Hr; by apply Hno in H|]. clear. set_solver.
Qed.

(** Among idle threads, a thread runs its section to the end. *)
Lemma run_section i d l :
  linv l -> idle_but (Some i) l -> l_threads l !! i = Some d ->
  exists n l', lexec (replicate n (LRun i)) l = Some l' /\
    sections (replicate n (LRun i)) l = [FRun i] /\ idle l'.
Proof using Type.
  remember (d_weight (d_pc d)) as m eqn:Em. revert l d Em.
  induction m as [m IH] using lt_wf_ind. intros l d Em Hi Hid Hd.
  assert (is_Some (d_step (inl i) (d_pc d) (l_locks l) (l_w l))) as [[[L w] next] Hs].
  { destruct (d_pc d) as [s|s| | | | |] eqn:Ed; try (apply d_step_held; [rewrite <- Ed; by eapply li_current|done]).
    apply d_step_free. intros x m' _. destruct (rw_writer (l_locks l x)) as [t|] eqn:Ew; [|done].
    exfalso. apply (lk_writer _ _ _ (proj1 (li_locks l Hi) x)) in Ew.
    assert (exists p, uses l t = Some (x, p)) as [p Hp] by (destruct Ew as [E|E]; by eexists).
    pose proof (idle_but_uses _ _ _ _ _ Hid Hp) as (j & [= <-] & ->). cbn in Hp. rewrite Hd in Hp.
    cbn in Hp. by rewrite Ed in Hp. }
  pose proof (d_step_sections _ _ _ _ _ _ _ Hs (li_current l Hi i d Hd)) as Hsec.
  assert (exists l1, lstep (LRun i) l = Some l1 /\ l_calls l1 = l_calls l /\
    l_threads l1 = match next with Some p => <[i := mkD p (d_req d)]> (l_threads l) | None => delete i (l_threads l) end)
    as (l1 & H1 & Hc1 & Ht1).
  { cbn [lstep]. rewrite Hd. cbn [mbind option_bind]. rewrite Hs. eexists. split; [reflexivity|].
    by destruct next. }
  assert (section_at (LRun i) l = if ends_section (d_pc d) then Some (FRun i) else None) as Hat
    by (cbn; by rewrite Hd).
  destruct Hid as [Ho Hc]. destruct (ends_section (d_pc d)).
  - exists 1%nat, l1. cbn [replicate lexec sections]. rewrite H1, Hat. split_and!; [done|done|].
    split; [|by rewrite Hc1]. intros j d' _. rewrite Ht1. destruct Hsec as [_ Hn]. destruct next as [p|].
    + intros [[<- <-]|[Hne Hj]]%lookup_insert_Some; [exact Hn|]. apply (Ho j d'); [congruence|done].
    + intros [Hne Hj]%lookup_delete_Some. apply (Ho j d'); [congruence|done].
  - destruct Hsec as (-> & p & -> & _ & Hlt).
    destruct (IH (d_weight p) ltac:(lia) l1 (mkD p (d_req d))) as (n & l' & Hx & Hss & Hid').
    + done.
    + by eapply lstep_inv.
    + split; [|by rewrite Hc1]. intros j d' Hne. rewrite Ht1, lookup_insert_ne by congruence. by apply Ho.
    + rewrite Ht1. apply lookup_insert_eq.
    + exists (S n), l'. cbn [replicate lexec sections]. rewrite H1, Hat. cbn. rewrite Hx, Hss. done.
Qed.

Lemma adds_idle l l' : adds l l' -> l_calls l' = l_calls l -> idle l -> idle l'.
Proof using Type.
  intros (_ & _ & HT) Ec [Ht Hc]. split; [|by rewrite Ec]. intros j d Hj [Hd|Hd]%HT; [by eapply Ht|done].
Qed.
Lemma l_leave_select_idle c w l l' : l_leave_select c w l = Some l' -> idle l -> idle l'.
Proof using Type.
  unfold l_leave_select. case_decide; [|done]. intros [= <-]. apply adds_idle; [apply adds_thread|done].
Qed.

(** A run that completes one given section and leaves nothing open. *)
Definition does (fa : faction) (l : lworld) : Prop :=
  exists acts l', lexec acts l = Some l' /\ sections acts l = [fa] /\ idle l'.

Lemma does_later fa a l l1 : lstep a l = Some l1 -> section_at a l = None -> does fa l1 -> does fa l.
Proof using Type.
  intros H1 Ha (acts & l' & Hx & Hs & Hi). exists (a :: acts), l'. cbn [lexec sections].
  rewrite H1, Ha. cbn. by rewrite Hx, Hs.
Qed.
Lemma does_now fa a l l1 : lstep a l = Some l1 -> section_at a l = Some fa -> idle l1 -> does fa l.
Proof using Type.
  intros H1 Ha Hi. exists [a], l1. cbn [lexec sections]. by rewrite H1, Ha.
Qed.

(** A call runs alone: [Lock], the wait for the readers, and the body. *)
Lemma call_section k l : linv l -> idle l -> does (section_of k) l.
Proof using Type.
  intros Hi Hid. pose proof (idle_free l (call_lock k) Hi Hid) as HL. destruct Hid as [Ht Hc].
  set (j := fresh (dom (l_calls l))).
  (* the call is all there is, and is at [q] *)
  assert (forall q L, (match q with
      | CAt k' => k' = k /\ L (call_lock k) = unlocked
      | CQueued k' => k' = k /\ rw_readers (L (call_lock k)) = ∅
      | CHeld k' => k' = k
      | CShutdown | CModules => False
      end) -> does (section_of k) (mkL (l_w l) (l_threads l) {[j := q]} (l_waiting l) L)) as H.
  { assert (forall L, does (section_of k) (mkL (l_w l) (l_threads l) {[j := CHeld k]} (l_waiting l) L)) as Hheld.
    { intros L. eapply (does_now _ (LRunCall j)); cbn [lstep section_at l_calls]; rewrite ?lookup_singleton_eq;
        [reflexivity|done|]. eapply adds_idle; [apply c_body_adds|apply c_body_work|].
      split; [exact Ht|]. cbn. apply delete_singleton_eq. }
    assert (forall L, rw_readers (L (call_lock k)) = ∅ ->
      does (section_of k) (mkL (l_w l) (l_threads l) {[j := CQueued k]} (l_waiting l) L)) as Hqueued.
    { intros L HR. eapply (does_later _ (LRunCall j)); cbn [lstep section_at l_calls]; rewrite ?lookup_singleton_eq;
        [|done|].
      - cbn [mbind option_bind c_step l_locks]. unfold acquired. rewrite bool_decide_true by done. reflexivity.
      - unfold set_call. cbn. rewrite insert_singleton_eq. apply Hheld. }
    intros [k'|k'|k'| |] L; [intros [-> HU]|intros [-> HU]; by apply Hqueued|intros ->; apply Hheld|done|done].
    eapply (does_later _ (LRunCall j)); cbn [lstep section_at l_calls]; rewrite ?lookup_singleton_eq; [|done|].
    - cbn [mbind option_bind c_step l_locks]. unfold RW_Lock. rewrite HU. reflexivity.
    - unfold set_call. cbn. rewrite insert_singleton_eq. case_decide; [apply Hheld|apply Hqueued].
      by rewrite set_lock_eq. }
  eapply (does_later _ (LCall k)); [reflexivity|done|]. fold j. unfold set_call. rewrite Hc. by apply H.
Qed.

(** From an idle state every section can be run, and ends idle. *)
Lemma section_does fa l f' :
  linv l -> idle l -> fstep ToUpper fa (abs l) = Some f' -> does fa l.
Proof using Type.
  intros Hi Hid Hf. destruct fa as [a|now e|raw now e|c|c|i].
  - destruct a as [m|id|raw t h|t id|open|now e|raw now e|c|c|order|i]; try done.
    + by apply (call_section (KRegister m)).
    + by apply (call_section (KUnregister id)).
    + by apply (call_section (KSubscribe raw t h)).
    + by apply (call_section (KUnsubscribe t id)).
    + by apply (call_section (KGate open)).
    + by eapply (does_now _ (LShutdown order)).
    + by eapply (does_now _ (LFinish i)).
  - eapply (does_now _ (LDispatch now e)); [done|done|]. eapply adds_idle; [apply l_begin_adds| |done].
    unfold l_begin. by destruct (hop now e).
  - by apply (call_section (KRequest raw now e)).
  - assert (exists l1, lstep (LReceive c) l = Some l1 /\ idle l1) as (l1 & H1 & H2).
    { cbn [fstep abs f_w] in Hf. cbn [lstep]. destruct (receive c (l_w l)) as [w|]; [|done].
      cbn [mbind option_bind] in *. rewrite <- l_leave_select_abs in Hf.
      destruct (l_leave_select c w l) as [l1|] eqn:E; [|done]. exists l1. split; [done|].
      by eapply l_leave_select_idle. }
    by eapply (does_now _ (LReceive c)).
  - cbn [fstep abs f_w] in Hf. rewrite <- l_leave_select_abs in Hf.
    destruct (l_leave_select c (l_w l) l) as [l1|] eqn:E; [|done].
    eapply (does_now _ (LGiveUp c)); [exact E|done|]. by eapply l_leave_select_idle.
  - cbn [fstep abs f_threads] in Hf. rewrite lookup_fmap in Hf.
    destruct (l_threads l !! i) as [d|] eqn:Ei; [|done].
    destruct (run_section i d l Hi) as (n & l' & H1 & H2 & H3); [|done|by eexists _, _].
    split; [intros j d' _; by apply Hid|apply Hid].
Qed.

Lemma sections_realised facts l f' :
  linv l -> idle l -> fexec ToUpper facts (abs l) = Some f' ->
  exists acts l', lexec acts l = Some l' /\ sections acts l = facts /\ abs l' = f'.
Proof using Type.
  revert l. induction facts as [|fa facts IH]; intros l Hi Hid; cbn [fexec].
  { intros [= <-]. by exists [], l. }
  destruct (fstep ToUpper fa (abs l)) as [f1|] eqn:E; [|done]. cbn [mbind option_bind]. intros Hx.
  destruct (section_does fa l f1 Hi Hid E) as (acts1 & l1 & H1 & H2 & H3).
  destruct (lexec_sections acts1 l l1 H1 Hi) as [Hi1 Hf1]. rewrite H2 in Hf1. cbn in Hf1. rewrite E in Hf1.
  injection Hf1 as ->. destruct (IH l1 Hi1 H3 Hx) as (acts & l' & H4 & H5 & H6).
  exists (acts1 ++ acts), l'. rewrite lexec_app, H1, (sections_app _ _ _ _ H1), H2, H5. done.
Qed.

(** ** Theorems *)

(** C14. The locks of the bus make its sections atomic. A run of threads that
    take [mu], [pendingMu] and [gateMu], read and write under them and release
    them in separate steps, however they interleave, ends in the state of the
    run of [BusThreads] that runs each section at once, in the order in which
    the sections end; and every run of [BusThreads] is such a run. *)
Theorem locks_make_sections_atomic gated :
  (forall acts l, lexec acts (linit gated) = Some l ->
     fexec ToUpper (sections acts (linit gated)) (finit ToUpper gated) = Some (abs l)) /\
  (forall facts f, fexec ToUpper facts (finit ToUpper gated) = Some f ->
     exists acts l, lexec acts (linit gated) = Some l /\ sections acts (linit gated) = facts /\ abs l = f).
Proof using Type.
  rewrite <- abs_linit. split.
  - intros acts l Hx. by apply (lexec_sections acts _ l Hx), linit_inv.
  - intros facts f Hx. apply sections_realised; [apply linit_inv| |exact Hx].
    split; [|done]. intros j d _ Hj. cbn in Hj. by rewrite lookup_empty in Hj.
Qed.

(** C15. Every call on the bus returns, for any number of threads. From every state
    the program can reach, the calls under way cannot run for ever, in
    whatever order their threads are scheduled; and as long as one of them has
    not returned, some thread can run: no lock is forgotten, no two calls wait
    for each other, and no full reply channel stops a [Dispatch]. So any run
    of the calls under way ends with all of them returned, except for the
    requests that are in their [select], which hold nothing. *)
Theorem calls_return gated acts l :
  lexec acts (linit gated) = Some l ->
  Acc (fun l2 l1 => run_step l1 l2) l /\
  forall l', rtc run_step l l' ->
    (can_run l' <-> l_threads l' <> ∅ \/ l_calls l' <> ∅).
Proof using Type.
  intros Hx. split; [apply runs_end|]. intros l' Hr.
  assert (linv l') as Hi.
  { apply lexec_sections in Hx as [Hi _]; [|apply linit_inv].
    induction Hr as [|l l1 l' (a & _ & Hs) _ IH]; [done|]. by apply IH, (lstep_inv _ _ _ Hs). }
  split; [|by apply someone_runs]. intros (l2 & a & Ha & Hs).
  destruct a as [| | | | | | |i|j]; try done; cbn [lstep] in Hs.
  - left. intros E. by rewrite E in Hs.
  - right. intros E. by rewrite E in Hs.
Qed.
End Locks.

(** ** Examples *)

Definition m_api : Module (Handler := nat) := mkModule "api" ["crypto"]%string 7%nat.
Definition m_late : Module (Handler := nat) := mkModule "late" ["crypto"]%string 9%nat.

(** One dispatch holds [mu] to read, a registration waits for it, and a second
    dispatch waits behind the registration. *)
Definition queue_acts : list (laction (Handler := nat)) :=
  [LCall (KRegister m_api); LRunCall 0; LRunCall 0; LRunCall 0;
   LDispatch 5 (ping "p" EmptyString); LRun 0; LRun 0; LRun 0; LRun 0; LRun 0; LRun 0;
   LCall (KRegister m_late); LRunCall 0;
   LDispatch 6 (ping "q" EmptyString); LRun 1; LRun 1; LRun 1; LRun 1; LRun 1].

Lemma locks_make_sections_atomic_witness :
  exists l, lexec ascii_ToUpper queue_acts (linit ascii_ToUpper ["storage"]%string) = Some l /\
    fexec ascii_ToUpper
      [FCall (ARegister m_api); FDispatch 5 (ping "p" EmptyString); FRun 0; FRun 0;
       FDispatch 6 (ping "q" EmptyString); FRun 1; FRun 1]
      (finit ascii_ToUpper ["storage"]%string) = Some (abs l).
Proof.
  destruct (locks_make_sections_atomic (Handler := nat) ascii_ToUpper ["storage"]%string) as [H _].
  destruct (lexec ascii_ToUpper queue_acts _) as [l|] eqn:E; [|by vm_compute in E].
  exists l. split; [done|]. exact (H queue_acts l E).
Defined.

Lemma calls_return_witness :
  exists l, lexec ascii_ToUpper queue_acts (linit ascii_ToUpper ["storage"]%string) = Some l /\
    lstep ascii_ToUpper (LRun 1) l = None /\ lstep ascii_ToUpper (LRunCall 0) l = None /\
    can_run ascii_ToUpper l /\ Acc (fun l2 l1 => run_step ascii_ToUpper l1 l2) l.
Proof.
  destruct (lexec ascii_ToUpper queue_acts (linit ascii_ToUpper ["storage"]%string)) as [l|] eqn:E; [|by vm_compute in E].
  destruct (calls_return ascii_ToUpper ["storage"]%string queue_acts l E) as [Hacc Hrun].
  assert (lstep ascii_ToUpper (LRun 1) l = None /\ lstep ascii_ToUpper (LRunCall 0) l = None /\
    is_Some (l_threads l !! 1%nat)) as (H1 & H2 & [d Hd]).
  { change (from_option (fun l => lstep ascii_ToUpper (LRun 1) l = None /\
      lstep ascii_ToUpper (LRunCall 0) l = None /\ is_Some (l_threads l !! 1%nat)) False (Some l)).
    rewrite <- E. vm_compute. split_and!; [done|done|by eexists]. }
  exists l. split; [done|]. split; [exact H1|]. split; [exact H2|]. split; [|exact Hacc].
  apply (Hrun l (rtc_refl _ l)). left. intros E0. by rewrite E0 in Hd.
Defined.
