(* ===== verification/Kernel.v ===== *)
(** * Handlers and module factories ([engine/kernel/handler.go],
    [module_factory.go])

    A handler call prints log lines and returns, fails or panics. A log line
    keeps its format's arguments except the elapsed time. *)

From S2P Require Import Prelude GoStd Event Bus.

(** ** Handlers and the builder *)

Inductive herror :=
| HandlerError (text : msg)
| handlerPanicError (event value : string)
(** [fmt.Errorf(format, id, inner)] whose format wraps [inner] with [%w]. *)
| wrapError (format id : string) (inner : herror).

(** [err.Error()] *)
Fixpoint herror_Error (e : herror) : msg :=
  match e with
  | HandlerError text => text
  | handlerPanicError event _ => Sprintf "panic in handler for %s: recovered" [AStr event]
  | wrapError format id inner => Sprintf format [AStr id; AMsg (herror_Error inner)]
  end.

Inductive outcome :=
| Returned (err : option herror)
| Panicked (value : string).

Inductive log_line :=
| LogPanic (prefix event value : string)
| LogHandlerError (prefix event : string) (err : herror)
| LogHandlerOk (prefix event : string)
| LogMetric (prefix label status : string)
| LogOther (text : string).

Definition Handler : Type := Event -> list log_line * outcome.

Record HandlerBuilder := mkBuilder {
  base : Handler;
  decorators : list (Handler -> Handler)
}.

Definition NewHandlerBuilder (h : Handler) : HandlerBuilder := mkBuilder h [].

Definition recovery (modulePrefix : string) (next : Handler) : Handler := fun e =>
  let '(logs, r) := next e in
  match r with
  | Panicked v =>
      (logs ++ [LogPanic modulePrefix (Type_ e) v], Returned (Some (handlerPanicError (Type_ e) v)))
  | Returned _ => (logs, r)
  end.

Definition logging (modulePrefix : string) (next : Handler) : Handler := fun e =>
  let '(logs, r) := next e in
  match r with
  | Panicked _ => (logs, r)
  | Returned (Some err) => (logs ++ [LogHandlerError modulePrefix (Type_ e) err], r)
  | Returned None => (logs ++ [LogHandlerOk modulePrefix (Type_ e)], r)
  end.

Definition metrics (modulePrefix eventLabel : string) (next : Handler) : Handler := fun e =>
  let '(logs, r) := next e in
  match r with
  | Panicked _ => (logs, r)
  | Returned err =>
      let status := match err with Some _ => "error"%string | None => "ok"%string end in
      (logs ++ [LogMetric modulePrefix eventLabel status], r)
  end.

Definition add_decorator (d : Handler -> Handler) (b : HandlerBuilder) : HandlerBuilder :=
  mkBuilder (base b) (decorators b ++ [d]).

Definition WithRecovery (modulePrefix : string) := add_decorator (recovery modulePrefix).
Definition WithLogging (modulePrefix : string) := add_decorator (logging modulePrefix).
Definition WithMetrics (modulePrefix eventLabel : string) :=
  add_decorator (metrics modulePrefix eventLabel).

(** [for i := len(b.decorators) - 1; i >= 0; i-- { h = b.decorators[i](h) }] *)
Definition Build (b : HandlerBuilder) : Handler :=
  foldl (fun h d => d h) (base b) (rev (decorators b)).

(** The standalone decorators. *)
Definition WithRecovery1 (modulePrefix : string) (h : Handler) : Handler :=
  Build (WithRecovery modulePrefix (NewHandlerBuilder h)).
Definition WithLogging1 (modulePrefix : string) (h : Handler) : Handler :=
  Build (WithLogging modulePrefix (NewHandlerBuilder h)).

(** The calls a builder can receive. *)
Inductive decoration :=
| DRecovery (prefix : string)
| DLogging (prefix : string)
| DMetrics (prefix label : string).

Definition decorate (d : decoration) : HandlerBuilder -> HandlerBuilder :=
  match d with
  | DRecovery p => WithRecovery p
  | DLogging p => WithLogging p
  | DMetrics p l => WithMetrics p l
  end.

Definition is_recovery (d : decoration) : bool :=
  match d with
  | DRecovery _ => true
  | _ => false
  end.

Definition builder (h : Handler) (ds : list decoration) : HandlerBuilder :=
  foldl (flip decorate) (NewHandlerBuilder h) ds.

(** ** The goroutine of a dispatched handler ([Dispatch] in [bus.go]) *)

(** It recovers a panic and logs it, and logs an error; nothing escapes. *)
Definition run_goroutine (h : Handler) (e : Event) : list log_line :=
  let '(logs, r) := h e in
  match r with
  | Panicked v => logs ++ [LogPanic "[bus]" (Type_ e) v]
  | Returned (Some err) => logs ++ [LogHandlerError "[bus]" (Type_ e) err]
  | Returned None => logs
  end.

(** ** Lemmas *)

Lemma Build_foldr b e : Build b e = foldr (fun d h => d h) (base b) (decorators b) e.
Proof.
  unfold Build. generalize (base b) (decorators b). intros h ds.
  assert (foldl (fun h d => d h) h (rev ds) = foldr (fun d h => d h) h ds) as ->; [|done].
  induction ds as [|d ds IH]; [done|]. cbn [foldr rev]. by rewrite foldl_app, <- IH.
Qed.

Definition decoration_fun (d : decoration) : Handler -> Handler :=
  match d with
  | DRecovery p => recovery p
  | DLogging p => logging p
  | DMetrics p l => metrics p l
  end.

Fixpoint layers (ds : list decoration) (h : Handler) : Handler :=
  match ds with
  | [] => h
  | d :: ds => decoration_fun d (layers ds h)
  end.

Lemma builder_fields h ds :
  base (builder h ds) = h /\
  decorators (builder h ds) = map decoration_fun ds.
Proof.
  unfold builder. induction ds as [|d ds IH] using rev_ind; [done|].
  rewrite foldl_app, map_app. destruct IH as [IHb IHd]. cbn [foldl flip]. rewrite <- IHd.
  split; [etransitivity; [|exact IHb]|]; by destruct d.
Qed.

Lemma Build_builder h ds e : Build (builder h ds) e = layers ds h e.
Proof.
  rewrite Build_foldr. destruct (builder_fields h ds) as [-> ->].
  assert (foldr (fun d h => d h) h (map decoration_fun ds) = layers ds h) as ->; [|done].
  induction ds as [|d ds IH]; [done|]. cbn [map foldr layers]. by rewrite <- IH.
Qed.

(** What the layers make of the base handler's outcome. *)
Definition layered (ds : list decoration) (e : Event) (r : outcome) : outcome :=
  match r with
  | Returned err => Returned err
  | Panicked v =>
      if existsb is_recovery ds then Returned (Some (handlerPanicError (Type_ e) v)) else Panicked v
  end.

(** The line a layer prints when the layers inside it end with [r]. *)
Definition layer_line (d : decoration) (e : Event) (r : outcome) : list log_line :=
  match d, r with
  | DRecovery p, Panicked v => [LogPanic p (Type_ e) v]
  | DLogging p, Returned (Some err) => [LogHandlerError p (Type_ e) err]
  | DLogging p, Returned None => [LogHandlerOk p (Type_ e)]
  | DMetrics p l, Returned (Some _) => [LogMetric p l "error"]
  | DMetrics p l, Returned None => [LogMetric p l "ok"]
  | _, _ => []
  end.

Fixpoint layer_lines (ds : list decoration) (e : Event) (r : outcome) : list log_line :=
  match ds with
  | [] => []
  | d :: ds => layer_lines ds e r ++ layer_line d e (layered ds e r)
  end.

Lemma layers_spec h ds e logs r :
  h e = (logs, r) ->
  layers ds h e = (logs ++ layer_lines ds e r, layered ds e r).
Proof.
  intros Hh. induction ds as [|d ds IH]; [cbn; rewrite app_nil_r, Hh; by destruct r|].
  cbn [layers layer_lines]. rewrite app_assoc.
  destruct d; cbn [decoration_fun]; unfold recovery, logging, metrics; rewrite IH;
    unfold layered; destruct r as [[err|]|v]; cbn; rewrite ?app_nil_r; try done;
    by destruct (existsb is_recovery ds); cbn; rewrite ?app_nil_r.
Qed.

(** C38. The builder's layers. The built handler runs the base handler once and
    then the layers from the last added to the first, each seeing the outcome
    of the layers inside it: an outcome that is not a panic passes unchanged,
    a panic ends at the first recovery it meets as an error that names the
    event, so the built handler panics exactly when the base handler does and
    no recovery layer was added, wherever it stands. A logging or metrics
    layer prints its line exactly when what it wraps returned, the recovery
    layer when it caught a panic. *)
Theorem Build_layers h ds e logs r :
  h e = (logs, r) ->
  Build (builder h ds) e = (logs ++ layer_lines ds e r, layered ds e r) /\
  (forall v, (Build (builder h ds) e).2 = Panicked v <-> r = Panicked v /\ existsb is_recovery ds = false).
Proof.
  intros Hh. rewrite Build_builder, (layers_spec h ds e logs r Hh). split; [done|]. intros v. cbn [snd].
  unfold layered. destruct r as [err|v']; [naive_solver|].
  destruct (existsb is_recovery ds); naive_solver.
Qed.

Definition panicky : Handler := fun e => ([LogOther "working"], Panicked "index out of range").
Definition kernel_event : Event := NewEvent (replicate 16 Byte.x00) 0 "client" "crypto.unlock" [].

Lemma Build_layers_witness :
  Build (builder panicky [DLogging "[a]"; DRecovery "[b]"; DMetrics "[c]" "unlock"]) kernel_event =
    ([LogOther "working"; LogPanic "[b]" "crypto.unlock" "index out of range";
      LogHandlerError "[a]" "crypto.unlock" (handlerPanicError "crypto.unlock" "index out of range")],
     Returned (Some (handlerPanicError "crypto.unlock" "index out of range"))).
Proof.
  exact (proj1 (Build_layers panicky [DLogging "[a]"; DRecovery "[b]"; DMetrics "[c]" "unlock"]
    kernel_event [LogOther "working"] (Panicked "index out of range") eq_refl)).
Defined.

(** ** Module configuration and factories *)

Record ModuleConfig := mkModuleConfig {
  cfg_ID : string;
  cfg_Channels : list string;
  cfg_DebugLogging : bool
}.

Record BaseModule := mkBase {
  base_id : string;
  base_channels : list string
}.
Definition NewBaseModule (cfg : ModuleConfig) : BaseModule := mkBase (cfg_ID cfg) (cfg_Channels cfg).

(** What makes modules from a configuration; [M] is what [Create] returns. *)
Class ModuleFactory (F M : Type) := Create : F -> ModuleConfig -> M.

(** [FactoryFunc.Create] applies the function. *)
Definition FactoryFunc_Create {M} (f : ModuleConfig -> M) (cfg : ModuleConfig) : M := f cfg.
#[export] Instance FactoryFunc_ModuleFactory M : ModuleFactory (ModuleConfig -> M) M := FactoryFunc_Create.
