(* ===== verification/Registry.v ===== *)
(** * The dispatcher interface and the module registry
    ([engine/kernel/dispatcher.go], [registry.go])

    [Dispatcher] is the interface with what it promises about registration.
    The registry is proved against it, for modules whose [Start] is any
    function of the dispatcher; both models of the bus implement it. *)

From S2P Require Import Prelude GoStd Event Bus BusThreads Kernel.

#[local] Abbreviation Module := (Module (Handler := Handler)).

(** ** The interface *)

(** [Request] blocks: it is entered, and later returns its reply or gives up. *)
Class Dispatcher (D : Type) := {
  dp_Dispatch : Z -> Event -> D -> D;
  dp_Request : list byte -> Z -> Event -> D -> D;
  dp_Request_reply : nat -> D -> option D;
  dp_Request_abandon : nat -> D -> option D;
  dp_Subscribe : list byte -> EventType -> option Handler -> D -> res Empty_set (D * string);
  dp_unsubscribe : EventType -> string -> D -> D;
  dp_Register : Module -> D -> D * bool;
  dp_Unregister : string -> D -> D;
  dp_Shutdown : list (string * Module) -> D -> D * list Module;
  (** The module registered under an ID. *)
  registered : D -> string -> option Module
}.

(** [order] goes once through the registered modules. *)
Definition enumerates {D} `{Dispatcher D} (order : list (string * Module)) (d : D) : Prop :=
  NoDup order /\ forall id m, (id, m) ∈ order <-> registered d id = Some m.

Class DispatcherLaws (D : Type) `{Dispatcher D} := {
  Register_registered m d id :
    registered (dp_Register m d).1 id =
    match registered d (m_ID m) with
    | Some _ => registered d id
    | None => if decide (m_ID m = id) then Some m else registered d id
    end;
  Register_reports m d : (dp_Register m d).2 = negb (bool_decide (is_Some (registered d (m_ID m))));
  Register_dup m d : is_Some (registered d (m_ID m)) -> (dp_Register m d).1 = d;
  Unregister_registered id d id' :
    registered (dp_Unregister id d) id' = if decide (id = id') then None else registered d id';
  Dispatch_registered now e d id : registered (dp_Dispatch now e d) id = registered d id;
  Request_registered raw now e d id : registered (dp_Request raw now e d) id = registered d id;
  Request_reply_registered c d d' id : dp_Request_reply c d = Some d' -> registered d' id = registered d id;
  Request_abandon_registered c d d' id : dp_Request_abandon c d = Some d' -> registered d' id = registered d id;
  Subscribe_registered raw t h d d' s id :
    dp_Subscribe raw t h d = Ret (d', s) -> registered d' id = registered d id;
  unsubscribe_registered t s d id : registered (dp_unsubscribe t s d) id = registered d id;
  Shutdown_registered order d id : registered (dp_Shutdown order d).1 id = registered d id;
  Shutdown_stops order d : enumerates order d -> (dp_Shutdown order d).2 = order.*2
}.

(** ** The registry *)

Section Registry.
Context {D : Type} `{DispatcherLaws D}.

Record Registry := mkRegistry {
  reg_bus : D;
  started : list Module
}.

Definition NewRegistry (d : D) : Registry := mkRegistry d [].

Definition Add (m : Module) (r : Registry) : Registry * option herror :=
  match dp_Register m (reg_bus r) with
  | (d, false) =>
      (mkRegistry d (started r), Some (wrapError "register %s: %w" (m_ID m)
        (HandlerError (Sprintf "module %q already registered" [AStr (m_ID m)]))))
  | (d, true) => (mkRegistry d (started r ++ [m]), None)
  end.

Definition Bus_ (r : Registry) : D := reg_bus r.
Definition Modules (r : Registry) : list Module := started r.

Definition add_all (ms : list Module) (r : Registry) : Registry := foldl (fun r m => (Add m r).1) r ms.

(** ** Lemmas on registration *)

Record registry_ok (r : Registry) : Prop := {
  ok_nodup : NoDup (m_ID <$> started r);
  ok_bus id m : registered (reg_bus r) id = Some m <-> m ∈ started r /\ m_ID m = id
}.

Lemma NewRegistry_ok d : (forall id, registered d id = None) -> registry_ok (NewRegistry d).
Proof using Type.
  intros Hd. split; [apply NoDup_nil_2|]. intros id m. cbn. rewrite Hd. split; [done|]. by intros [?%elem_of_nil _].
Qed.

(** [Add] either records a module with a new ID or changes nothing. *)
Lemma Add_cases m r :
  registry_ok r ->
  (m_ID m ∈ m_ID <$> started r /\ (Add m r).1 = r /\ (Add m r).2 <> None) \/
  ((m_ID m ∉ m_ID <$> started r) /\ started (Add m r).1 = started r ++ [m] /\ (Add m r).2 = None /\
   forall id, registered (reg_bus (Add m r).1) id
     = if decide (m_ID m = id) then Some m else registered (reg_bus r) id).
Proof using All.
  intros [Hnd Hm]. unfold Add. pose proof (Register_reports m (reg_bus r)) as Hrep.
  pose proof (Register_registered m (reg_bus r)) as Hreg. pose proof (Register_dup m (reg_bus r)) as Hdup.
  destruct (dp_Register m (reg_bus r)) as [d ok]. cbn [fst snd] in *. subst ok.
  destruct (registered (reg_bus r) (m_ID m)) as [m'|] eqn:E; cbn in *.
  - left. apply Hm in E as [Hin E]. rewrite Hdup by done. split_and!; [|by destruct r|done].
    rewrite <- E. by apply list_elem_of_fmap_2.
  - right. split_and!; [|done|done|done]. intros (m' & E' & Hin)%list_elem_of_fmap.
    assert (registered (reg_bus r) (m_ID m) = Some m') as E2 by by apply Hm. congruence.
Qed.

Lemma Add_ok m r : registry_ok r -> registry_ok (Add m r).1.
Proof using All.
  intros Hr. destruct (Add_cases m r Hr) as [(_ & -> & _)|(Hn & Es & _ & Hreg)]; [done|].
  destruct Hr as [Hnd Hm]. split.
  - rewrite Es, fmap_app. apply NoDup_app. split_and!; [done| |apply NoDup_singleton].
    intros x Hx Hx'. apply list_elem_of_singleton in Hx' as ->. done.
  - intros id m'. rewrite Hreg, Es, elem_of_app, list_elem_of_singleton. case_decide as Hid.
    + split; [intros [= <-]; split; [by right|done]|].
      intros [[Hin| ->] E']; [|done]. destruct Hn. apply list_elem_of_fmap. exists m'. by rewrite E'.
    + rewrite Hm. naive_solver.
Qed.

Lemma add_all_ok ms r : registry_ok r -> registry_ok (add_all ms r).
Proof using All.
  unfold add_all. revert r. induction ms as [|m ms IH]; intros r Hr; [done|]. apply IH. by apply Add_ok.
Qed.

Lemma add_all_recorded ms r :
  registry_ok r ->
  exists new, started (add_all ms r) = started r ++ new /\ sublist new ms /\
    forall m, m ∈ ms -> m_ID m ∈ m_ID <$> started (add_all ms r).
Proof using All.
  unfold add_all. revert r. induction ms as [|m ms IH]; intros r Hr.
  { exists []. rewrite app_nil_r. split_and!; [done|constructor|]. intros m Hm. by apply elem_of_nil in Hm. }
  cbn [foldl]. destruct (IH (Add m r).1 (Add_ok m r Hr)) as (new & E & Hs & Hin). rewrite E in Hin |- *.
  destruct (Add_cases m r Hr) as [(Hd & E1 & _)|(_ & E1 & _ & _)]; rewrite E1 in Hin |- *.
  - exists new. split_and!; [done|by apply sublist_cons|]. intros m' [->|Hm']%elem_of_cons; [|by apply Hin].
    rewrite fmap_app. apply elem_of_app. by left.
  - exists (m :: new). rewrite <- app_assoc in Hin |- *. cbn in Hin |- *.
    split_and!; [done|by apply sublist_skip|]. intros m' [->|Hm']%elem_of_cons; [|by apply Hin].
    rewrite fmap_app. set_solver.
Qed.

Lemma sublist_whole {X} (l k : list X) : sublist l k -> (length k <= length l)%nat -> l = k.
Proof using Type.
  induction 1 as [|x l k Hs IH|x l k Hs IH]; cbn; intros Hl; [done|f_equal; apply IH; lia|].
  apply sublist_length in Hs. lia.
Qed.

(** Modules with distinct IDs are all recorded, in order. *)
Lemma add_all_distinct ms d :
  (forall id, registered d id = None) -> NoDup (m_ID <$> ms) -> started (add_all ms (NewRegistry d)) = ms.
Proof using All.
  intros Hd Hnd. destruct (add_all_recorded ms _ (NewRegistry_ok d Hd)) as (new & E & Hs & Hin).
  rewrite E in Hin |- *. cbn in Hin |- *. apply sublist_whole; [done|].
  assert ((m_ID <$> ms) ⊆+ (m_ID <$> new)) as Hsub.
  { apply NoDup_submseteq; [done|]. intros id (m & -> & Hm)%list_elem_of_fmap. by apply Hin. }
  apply submseteq_length in Hsub. by rewrite !length_fmap in Hsub.
Qed.

(** ** Start-up *)

(** A module's [Start], which may use the dispatcher. *)
Context (Start : Module -> D -> D * option herror).

(** The dispatcher afterwards, the modules whose [Start] was called, in order,
    and the error of the first that failed. *)
Fixpoint start_loop (ms : list Module) (d : D) : D * list Module * option herror :=
  match ms with
  | [] => (d, [], None)
  | m :: ms =>
      match Start m d with
      | (d, Some err) => (d, [m], Some (wrapError "start %s: %w" (m_ID m) err))
      | (d, None) => let '(d, called, err) := start_loop ms d in (d, m :: called, err)
      end
  end.

Definition StartAll (r : Registry) : Registry * list Module * option herror :=
  let '(d, called, err) := start_loop (started r) (reg_bus r) in (mkRegistry d (started r), called, err).

(** The dispatcher after these modules' [Start]. *)
Definition after (ms : list Module) (d : D) : D := foldl (fun d m => (Start m d).1) d ms.
(** Each of them succeeds on the dispatcher the ones before leave. *)
Fixpoint all_start (ms : list Module) (d : D) : Prop :=
  match ms with
  | [] => True
  | m :: ms => (Start m d).2 = None /\ all_start ms (Start m d).1
  end.

Lemma start_loop_spec ms d :
  let '(d', called, err) := start_loop ms d in
  d' = after called d /\
  match err with
  | None => called = ms /\ all_start ms d
  | Some e => exists pre m rest err, ms = pre ++ m :: rest /\ called = pre ++ [m] /\ all_start pre d /\
      (Start m (after pre d)).2 = Some err /\ e = wrapError "start %s: %w" (m_ID m) err
  end.
Proof using Type.
  revert d. induction ms as [|m ms IH]; intros d; [done|]. cbn [start_loop].
  destruct (Start m d) as [d1 [err|]] eqn:E.
  - cbn. rewrite E. split; [done|]. exists [], m, ms, err. cbn. by rewrite E.
  - specialize (IH d1). destruct (start_loop ms d1) as [[d' called] [e|]]; destruct IH as [-> IH]; cbn; rewrite E.
    + split; [done|]. destruct IH as (pre & m' & rest & err & -> & -> & Ha & Hs & ->).
      exists (m :: pre), m', rest, err. cbn. by rewrite E.
    + destruct IH as [-> Ha]. done.
Qed.

Lemma after_registered ms d id :
  (forall m d id, registered (Start m d).1 id = registered d id) -> registered (after ms d) id = registered d id.
Proof using Type.
  intros HS. unfold after. revert d. induction ms as [|m ms IH]; intros d; [done|]. cbn. by rewrite IH.
Qed.

(** C18. A module's life in the registry, over any dispatcher that keeps its
    promises. However many modules are added, the recorded ones have distinct
    IDs and are exactly the dispatcher's, a refused duplicate changing
    nothing. [StartAll] calls [Start] in the order of addition, each on the
    dispatcher its predecessors leave, up to the first that fails, whose ID
    the error carries. If no [Start] registers or unregisters modules, the
    registry still agrees with the dispatcher afterwards, and [Shutdown]
    stops every recorded module once, those never started included. *)
Theorem registry_lifecycle d ms order :
  (forall id, registered d id = None) ->
  (forall m d id, registered (Start m d).1 id = registered d id) ->
  let r := add_all ms (NewRegistry d) in
  let '(r', called, err) := StartAll r in
  registry_ok r /\ sublist (Modules r) ms /\ (forall m, m ∈ ms -> m_ID m ∈ m_ID <$> Modules r) /\
  reg_bus r' = after called (reg_bus r) /\ Modules r' = Modules r /\
  match err with
  | None => called = Modules r /\ all_start (Modules r) (reg_bus r)
  | Some e => exists pre m rest err, Modules r = pre ++ m :: rest /\ called = pre ++ [m] /\
      all_start pre (reg_bus r) /\ (Start m (after pre (reg_bus r))).2 = Some err /\
      e = wrapError "start %s: %w" (m_ID m) err
  end /\
  registry_ok r' /\
  (enumerates order (reg_bus r') -> (dp_Shutdown order (reg_bus r')).2 ≡ₚ Modules r).
Proof using All.
  intros Hd HS r. pose proof (add_all_ok ms _ (NewRegistry_ok d Hd)) as Hok. fold r in Hok.
  destruct (add_all_recorded ms _ (NewRegistry_ok d Hd)) as (new & E & Hs & Hin). fold r in E, Hin.
  unfold StartAll. pose proof (start_loop_spec (started r) (reg_bus r)) as Hsl.
  destruct (start_loop (started r) (reg_bus r)) as [[d' called] err]. destruct Hsl as [-> Hsl].
  assert (registry_ok (mkRegistry (after called (reg_bus r)) (started r))) as Hok'.
  { destruct Hok as [Hnd Hm]. split; [done|]. intros id m. cbn. rewrite after_registered by done. apply Hm. }
  split; [done|]. split; [unfold Modules; by rewrite E|].
  split_and!; [done|done|done|exact Hsl|done|].
  intros [Hno Hen]. cbn [reg_bus]. rewrite Shutdown_stops by done.
  destruct Hok' as [Hnd Hm]. cbn in Hm, Hen. apply NoDup_Permutation.
  - assert (forall x, x ∈ order -> x.1 = m_ID x.2) as Hid by (intros [id m] Hx; apply Hen, Hm in Hx as [_ <-]; done).
    clear - Hno Hid. induction Hno as [|x l Hx Hno IH]; [constructor|]. constructor; [|apply IH; set_solver].
    intros (y & Ey & Hy)%list_elem_of_fmap. apply Hx. replace x with y; [done|].
    destruct x as [i m], y as [i' m']. cbn in Ey. subst. f_equal.
    transitivity (m_ID m'); [apply (Hid (i', m')); by right|symmetry; apply (Hid (i, m')); by left].
  - by eapply NoDup_fmap_1.
  - intros m. rewrite list_elem_of_fmap. unfold Modules. split.
    + intros ([id m'] & -> & Hx). cbn. apply Hen, Hm in Hx. by destruct Hx.
    + intros Hin'. exists (m_ID m, m). split; [done|]. apply Hen, Hm. done.
Qed.
End Registry.

(** ** The bus is a dispatcher *)

Section Instances.
Context (ToUpper : string -> string).
#[local] Abbreviation world := (world (Handler := Handler)).
#[local] Abbreviation fworld := (fworld (Handler := Handler)).

Definition subscribe_on (raw : list byte) (t : EventType) (h : option Handler) (w : world)
    : res Empty_set (world * string) :=
  p ← Subscribe raw t h (w_bus w); Ret (on_bus (fun _ => p.1) w, p.2).
Definition dispatch_on (now : Z) (e : Event) (w : world) : world :=
  let '(cs, started) := Dispatch now e (w_bus w) (w_chans w) in with_goroutines started (with_chans cs w).

#[export] Instance world_Dispatcher : Dispatcher world := {|
  dp_Dispatch := dispatch_on;
  dp_Request := Request_start;
  dp_Request_reply := Request_reply;
  dp_Request_abandon := Request_abandon;
  dp_Subscribe := subscribe_on;
  dp_unsubscribe t id := on_bus (unsubscribe t id);
  dp_Register m w := (on_bus (fun b => (Register ToUpper m b).1) w, (Register ToUpper m (w_bus w)).2);
  dp_Unregister id := on_bus (Unregister ToUpper id);
  dp_Shutdown order w := (on_bus (fun b => (Shutdown order b).1) w, (Shutdown order (w_bus w)).2);
  registered w id := modules (w_bus w) !! id
|}.

Lemma Register_modules m (b : bus (Handler := Handler)) :
  modules (Register ToUpper m b).1 =
    (match modules b !! m_ID m with Some _ => modules b | None => <[m_ID m := m]> (modules b) end) /\
  (Register ToUpper m b).2 = negb (bool_decide (is_Some (modules b !! m_ID m))) /\
  (is_Some (modules b !! m_ID m) -> (Register ToUpper m b).1 = b).
Proof using Type. unfold Register. destruct (modules b !! m_ID m); cbn; split_and!; try done; by intros []. Qed.

Lemma Unregister_modules id (b : bus (Handler := Handler)) : modules (Unregister ToUpper id b) = delete id (modules b).
Proof using Type. unfold Unregister. destruct (modules b !! id) eqn:E; cbn; [done|]. by rewrite delete_id. Qed.

Lemma step_modules (a : action (Handler := Handler)) w w' :
  step ToUpper a w = Some w' ->
  match a with
  | ARegister m => modules (w_bus w') = modules (Register ToUpper m (w_bus w)).1
  | AUnregister id => modules (w_bus w') = modules (Unregister ToUpper id (w_bus w))
  | _ => modules (w_bus w') = modules (w_bus w)
  end.
Proof using Type.
  intros Hs. destruct a as [m|id|raw t h|t id|open|now e|raw now e|c|c|order|i]; cbn [step] in Hs;
    try by injection Hs as <-.
  - by destruct open; injection Hs as <-.
  - destruct (Dispatch _ _ _ _). by injection Hs as <-.
  - injection Hs as <-. unfold Request_start. by destruct (Dispatch _ _ _ _).
  - unfold Request_reply in Hs. destruct (w_requests w !! c); [|done]. cbn in Hs.
    destruct (w_chans w !! c) as [[?|]|]; try done. by injection Hs as <-.
  - unfold Request_abandon in Hs. destruct (w_requests w !! c); [|done]. by injection Hs as <-.
Qed.

Lemma subscribe_modules raw t h w w' s : subscribe_on raw t h w = Ret (w', s) -> modules (w_bus w') = modules (w_bus w).
Proof using Type. unfold subscribe_on. destruct h; cbn; [|done]. by intros [= <- _]. Qed.

Lemma delete_modules (ms : gmap string Module) id id' :
  delete id ms !! id' = if decide (id = id') then None else ms !! id'.
Proof using Type. case_decide as E; [subst; apply lookup_delete_eq|by rewrite lookup_delete_ne]. Qed.

Lemma insert_modules (ms : gmap string Module) m id :
  (match ms !! m_ID m with Some _ => ms | None => <[m_ID m := m]> ms end) !! id =
  match ms !! m_ID m with
  | Some _ => ms !! id
  | None => if decide (m_ID m = id) then Some m else ms !! id
  end.
Proof using Type.
  destruct (ms !! m_ID m); [done|]. case_decide as E; [subst; apply lookup_insert_eq|by rewrite lookup_insert_ne].
Qed.

#[export] Instance world_DispatcherLaws : DispatcherLaws world.
Proof using Type.
  split; cbn.
  - intros m w id. destruct (Register_modules m (w_bus w)) as [-> _]. apply insert_modules.
  - intros m w. apply Register_modules.
  - intros m [b cs gs rq rs] Hm. cbn in *. unfold on_bus. cbn. by rewrite (proj2 (proj2 (Register_modules m b))).
  - intros id w id'. rewrite Unregister_modules. apply delete_modules.
  - intros now e w id. unfold dispatch_on. by destruct (Dispatch _ _ _ _).
  - intros raw now e w id. unfold Request_start. by destruct (Dispatch _ _ _ _).
  - intros c w w' id H. by rewrite (step_modules (AReply c) w w' H).
  - intros c w w' id H. by rewrite (step_modules (AAbandon c) w w' H).
  - intros raw t h w w' s id H. by rewrite (subscribe_modules raw t h w w' s H).
  - done.
  - done.
  - done.
Qed.

(** The same over threads: [Dispatch] and [Request] return when their thread
    is done, and until then others go on. *)
Definition on_world (g : world -> world) (f : fworld) : fworld := mkF (g (f_w f)) (f_threads f) (f_waiting f).
Definition request_on (raw : list byte) (now : Z) (e : Event) (f : fworld) : fworld :=
  default f (fstep ToUpper (FRequest raw now e) f).

#[export] Instance fworld_Dispatcher : Dispatcher fworld := {|
  dp_Dispatch now e := begin now e None;
  dp_Request := request_on;
  dp_Request_reply c := fstep ToUpper (FReceive c);
  dp_Request_abandon c := fstep ToUpper (FGiveUp c);
  dp_Subscribe raw t h f :=
    p ← subscribe_on raw t h (f_w f); Ret (on_world (fun _ => p.1) f, p.2);
  dp_unsubscribe t id := on_world (on_bus (unsubscribe t id));
  dp_Register m f := (on_world (fun w => (dp_Register m w).1) f, (dp_Register m (f_w f)).2);
  dp_Unregister id := on_world (dp_Unregister id);
  dp_Shutdown order f := (on_world (fun w => (dp_Shutdown order w).1) f, (dp_Shutdown order (f_w f)).2);
  registered f id := registered (f_w f) id
|}.

#[export] Instance fworld_DispatcherLaws : DispatcherLaws fworld.
Proof using Type.
  split.
  - intros m f. apply (Register_registered m (f_w f)).
  - intros m f. apply (Register_reports m (f_w f)).
  - intros m [w ts W] Hm. change (mkF (dp_Register m w).1 ts W = mkF w ts W).
    by rewrite (Register_dup m w).
  - intros id f. apply (Unregister_registered id (f_w f)).
  - intros now e f id. cbn. by rewrite begin_bus.
  - intros raw now e f id. cbn. unfold request_on. cbn. by rewrite begin_bus.
  - intros c f f' id H. apply (fstep_select ToUpper (FReceive c)) in H as (w & W & [E _]%picks_bus & ->). cbn. by rewrite E.
  - intros c f f' id H. apply (fstep_select ToUpper (FGiveUp c)) in H as (w & W & [E _]%picks_bus & ->). cbn. by rewrite E.
  - intros raw t h f f' s id H. cbn in H. destruct (subscribe_on raw t h (f_w f)) as [[w i]| |] eqn:E; try done.
    injection H as <- _. cbn. by rewrite (subscribe_modules _ _ _ _ _ _ E).
  - done.
  - done.
  - done.
Qed.
(** Adding modules to a bus is registering them one after the other. *)
Lemma Add_step m (r : Registry (D := world)) :
  step ToUpper (ARegister m) (reg_bus r) = Some (reg_bus (Add m r).1).
Proof using Type. unfold Add. cbn. by destruct (Register ToUpper m (w_bus (reg_bus r))).2. Qed.

Lemma add_all_exec ms (r : Registry (D := world)) :
  exec ToUpper (ARegister <$> ms) (reg_bus r) = Some (reg_bus (add_all ms r)).
Proof using Type.
  unfold add_all. revert r. induction ms as [|m ms IH]; intros r; [done|].
  rewrite fmap_cons. cbn [exec foldl]. rewrite (Add_step m r). apply IH.
Qed.

Lemma Add_world m (r : Registry (D := world)) :
  w_bus (reg_bus (Add m r).1) = (Register ToUpper m (w_bus (reg_bus r))).1 /\
  started (Add m r).1 = (if (Register ToUpper m (w_bus (reg_bus r))).2 then started r ++ [m] else started r) /\
  gatedChannels (Register ToUpper m (w_bus (reg_bus r))).1 = gatedChannels (w_bus (reg_bus r)).
Proof using Type.
  unfold Add. cbn [dp_Register world_Dispatcher]. split_and!.
  - by destruct (Register ToUpper m (w_bus (reg_bus r))).2.
  - by destruct (Register ToUpper m (w_bus (reg_bus r))).2.
  - unfold Register. by destruct (modules _ !! _).
Qed.

Lemma add_all_world ms gated :
  routes ToUpper (w_bus (reg_bus (add_all ms (NewRegistry (init ToUpper gated)))))
    (Bus.mkRegistry (started (add_all ms (NewRegistry (init ToUpper gated)))) []) /\
  gatedChannels (w_bus (reg_bus (add_all ms (NewRegistry (init ToUpper gated))))) =
    list_to_set (ToUpper <$> gated).
Proof using Type.
  induction ms as [|m ms IH] using rev_ind; [split; [apply routes_init|done]|].
  unfold add_all in *. rewrite foldl_snoc. set (r := foldl _ _ ms) in *. destruct IH as [Hr Hg].
  pose proof (routes_Register ToUpper m _ _ Hr) as Hr'.
  assert (Hm : forall id, modules (w_bus (reg_bus r)) !! id <> None <-> id ∈ m_ID <$> started r).
  { intros id. rewrite list_elem_of_fmap. destruct Hr as [_ Hm _ _]. cbn in Hm. split.
    - destruct (modules (w_bus (reg_bus r)) !! id) as [m'|] eqn:E; [|done]. apply Hm in E as [? <-]. by exists m'.
    - intros (m' & -> & Hin) E. by rewrite (proj2 (Hm (m_ID m') m') (conj Hin eq_refl)) in E. }
  specialize (Hm (m_ID m)). destruct (Add_world m r) as (-> & -> & Hgc). rewrite Hgc. split; [|exact Hg].
  destruct (Register_modules m (w_bus (reg_bus r))) as (_ & -> & _). cbn [spec_step r_modules r_subs] in Hr'.
  case_bool_decide as Hs; cbn.
  - rewrite decide_True in Hr'; [exact Hr'|]. apply Hm. by destruct Hs as [? ->].
  - rewrite decide_False in Hr'; [exact Hr'|]. intros Hn%Hm. apply Hs. by destruct (modules _ !! _).
Qed.

Lemma elem_of_channel_handlers ch m (ms : list Module) :
  m ∈ ms -> ch ∈ ToUpper <$> m_Channels m -> mkNamed (m_ID m) (m_Handle m) ∈ channel_spec ToUpper ch ms.
Proof using Type.
  intros Hm Hch. apply list_elem_of_bind. exists m. split; [|done]. unfold module_handlers.
  apply elem_of_replicate. split; [done|]. intros E%length_zero_iff_nil.
  assert (ch ∈ filter (ch =.) (ToUpper <$> m_Channels m)) as Hin by by apply list_elem_of_filter.
  rewrite E in Hin. by apply elem_of_nil in Hin.
Qed.

(** Events reach modules that have not started. As soon as a module is
    added to a registry over a fresh bus, an event of one of its channels,
    unless that channel is gated, is delivered to it, whether or not
    [StartAll] has run: nothing in the bus waits for [Start]. *)
Theorem delivered_before_start gated ms m now e e' :
  let r := add_all ms (NewRegistry (init ToUpper gated)) in
  m ∈ Modules r -> Channel (Type_ e) ∈ ToUpper <$> m_Channels m ->
  (Channel (Type_ e) ∉ ToUpper <$> gated) -> hop now e = Some e' ->
  (m_Handle m, e') ∈ w_goroutines (dp_Dispatch now e (reg_bus r)).
Proof using Type.
  intros r Hm Hch Hg Hh. destruct (add_all_world ms gated) as [Hr Hgate]. fold r in Hr, Hgate.
  cbn. unfold dispatch_on, Dispatch. rewrite Hh. destruct (hop_ReplyTo now e e' Hh) as [_ Et].
  rewrite Et, Hgate, bool_decide_false by (by rewrite elem_of_list_to_set). cbn.
  apply elem_of_app. right. apply list_elem_of_fmap. exists (m_Handle m). split; [done|].
  rewrite (recipients_spec ToUpper _ _ e' Hr). unfold spec_recipients. rewrite Et.
  apply list_elem_of_fmap. exists (mkNamed (m_ID m) (m_Handle m)). split; [done|].
  apply elem_of_app. left. by apply elem_of_channel_handlers.
Qed.
End Instances.

(** ** Examples *)

Definition sample_module (id channel : string) : Module := mkModule id [channel] panicky.

(** "crypto" dispatches an event when it starts, "storage" fails to start. *)
Definition sample_start (m : Module) (d : world (Handler := Handler)) : world * option herror :=
  if String.eqb (m_ID m) "storage" then (d, Some (HandlerError (Lit "disk missing")))
  else (dispatch_on 3 (ping "hello" EmptyString) d, None).

Definition sample_modules : list Module :=
  [sample_module "crypto" "crypto"; sample_module "storage" "storage"; sample_module "crypto" "tool";
   sample_module "session" "auth"].

#[local] Instance ascii_Dispatcher : Dispatcher (world (Handler := Handler)) := world_Dispatcher ascii_ToUpper.
#[local] Instance ascii_DispatcherLaws : DispatcherLaws (world (Handler := Handler)) :=
  world_DispatcherLaws ascii_ToUpper.

Lemma sample_start_registered m d id :
  registered (sample_start m d).1 id = registered d id.
Proof.
  unfold sample_start. destruct (String.eqb _ _); [done|].
  exact (Dispatch_registered 3 (ping "hello" EmptyString) d id).
Qed.

Lemma registry_lifecycle_witness :
  let r := add_all sample_modules (NewRegistry (init ascii_ToUpper [])) in
  let '(r', called, err) := StartAll sample_start r in
  (m_ID <$> called) = ["crypto"; "storage"]%string /\
  err = Some (wrapError "start %s: %w" "storage" (HandlerError (Lit "disk missing"))) /\
  exists order, enumerates order (reg_bus r') /\ (dp_Shutdown order (reg_bus r')).2 ≡ₚ Modules r.
Proof.
  intros r. pose (order := (fun m => (m_ID m, m)) <$> Modules r).
  pose proof (registry_lifecycle sample_start
    (init ascii_ToUpper []) sample_modules order (fun _ => lookup_empty _) sample_start_registered) as H.
  cbv zeta in H. fold r in H. destruct (StartAll sample_start r) as [[r' called] err] eqn:E.
  destruct H as (_ & _ & _ & _ & Hm & _ & Hok & Hsd).
  assert ((m_ID <$> called) = ["crypto"; "storage"]%string /\
    err = Some (wrapError "start %s: %w" "storage" (HandlerError (Lit "disk missing")))) as [H1 H2]
    by (vm_compute in E; injection E as _ <- <-; by vm_compute).
  split_and!; [exact H1|exact H2|]. exists order. clear E H1 H2. clearbody r.
  assert (enumerates order (reg_bus r')) as Hen.
  { destruct Hok as [Hnd Hb]. change (started r') with (Modules r') in Hnd, Hb. split.
    - apply NoDup_fmap_2_strong; [by intros x y _ _ [= _ ->]|]. eapply NoDup_fmap_1. rewrite <- Hm. exact Hnd.
    - intros id m. rewrite Hb, Hm. unfold order. rewrite list_elem_of_fmap. naive_solver. }
  split; [exact Hen|exact (Hsd Hen)].
Defined.

Lemma delivered_before_start_witness :
  let r := add_all sample_modules (NewRegistry (init ascii_ToUpper ["storage"]%string)) in
  (panicky, mkEvent "x" "CRYPTO.PING" [] EmptyString "test" 1 7) ∈
    w_goroutines (dp_Dispatch 3 (ping "x" EmptyString) (reg_bus r)).
Proof.
  apply (delivered_before_start ascii_ToUpper ["storage"]%string sample_modules (sample_module "crypto" "crypto") 3
    (ping "x" EmptyString)).
  - by vm_compute; left.
  - by apply (bool_decide_unpack _); vm_compute.
  - by apply (bool_decide_unpack _); vm_compute.
  - by vm_compute.
Defined.
