(* ===== verification/SessionBus.v ===== *)
(** * The session and its dispatcher
    ([engine/security/session.go] over [engine/kernel/dispatcher.go])

    [Session] keeps the events a session sends as a list. Here each of them
    becomes the kernel event the code builds and is dispatched in the same
    step, on any implementation of the dispatcher interface, while other calls
    use the dispatcher in between; on the threads of [BusThreads] that dispatch
    is only begun, and goes on among the others. *)

From S2P Require Import Prelude GoStd Json Event Bus BusThreads Kernel Registry Session.

(** ** Events *)

(** [kernel.NewEvent("session", t, payload)], with the payload marshalled from
    a map: its keys are sorted. *)
Definition ready_event (raw : list byte) (now unlocked_at : Z) : Event :=
  NewEvent raw now "session" EvAuthReady
    (print (JObj [("unlocked", JBool true); ("unlocked_at", JNum unlocked_at)]%string)).
Definition logout_event (raw : list byte) (now : Z) (reason : string) : Event :=
  NewEvent raw now "session" EvAuthLogout (print (JObj [("reason", JStr reason)]%string)).

Definition session_event (raw : list byte) (now : Z) (ev : Session.event) : Event :=
  match ev with
  | AuthReady unlocked_at => ready_event raw now unlocked_at
  | AuthLogout reason => logout_event raw now reason
  end.

(** What a step added to the events sent. *)
Definition emitted (w w' : Session.world) : list Session.event := drop (length (sent w)) (sent w').

(** ** Counting *)

Definition count {X} (p : X -> bool) (l : list X) : nat := length (filter (fun x => p x = true) l).

#[local] Arguments count : simpl never.

Lemma count_nil {X} (p : X -> bool) : count p [] = 0%nat.
Proof. done. Qed.
Lemma count_one {X} (p : X -> bool) x : count p [x] = Nat.b2n (p x).
Proof. unfold count. rewrite filter_cons. by destruct (p x). Qed.
Lemma count_app {X} (p : X -> bool) a b : count p (a ++ b) = (count p a + count p b)%nat.
Proof. unfold count. by rewrite filter_app, length_app. Qed.
Lemma count_delete {X} (p : X -> bool) l i x :
  l !! i = Some x -> count p l = (count p (delete i l) + Nat.b2n (p x))%nat.
Proof.
  intros Hi. rewrite <- (take_drop_middle l i x Hi) at 1. rewrite delete_take_drop, !count_app.
  change (x :: drop (S i) l) with ([x] ++ drop (S i) l). rewrite count_app, count_one. lia.
Qed.

(** ** The two together *)

Section Composed.
Context {D : Type} `{DispatcherLaws D}.
(** The calls of others on the dispatcher. *)
Context {A : Type} (other : A -> D -> option D).

Record sworld := mkS {
  s_session : Session.world;
  s_bus : D
}.

Inductive saction :=
| SessionStep (raw : list byte) (a : Session.action)
| OtherStep (a : A).

Definition dispatch_all (raw : list byte) (now : Z) (evs : list Session.event) (d : D) : D :=
  foldl (fun d ev => dp_Dispatch now (session_event raw now ev) d) d evs.

Definition sstep (a : saction) (w : sworld) : option sworld :=
  match a with
  | SessionStep raw a =>
      s ← Session.step a (s_session w);
      Some (mkS s (dispatch_all raw (now s) (emitted (s_session w) s) (s_bus w)))
  | OtherStep a => d ← other a (s_bus w); Some (mkS (s_session w) d)
  end.

Fixpoint sexec (acts : list saction) (w : sworld) : option sworld :=
  match acts with
  | [] => Some w
  | a :: acts => w ← sstep a w; sexec acts w
  end.

Definition sinit (t0 : Z) (d : D) : sworld := mkS (Session.init t0) d.

(** ** Lemmas *)

Definition session_acts (acts : list saction) : list Session.action :=
  omap (fun a => match a with SessionStep _ a => Some a | OtherStep _ => None end) acts.

Lemma sexec_session acts w w' :
  sexec acts w = Some w' -> Session.exec (session_acts acts) (s_session w) = Some (s_session w').
Proof using Type.
  revert w. induction acts as [|[raw a|a] acts IH]; intros w; cbn; [by intros [= <-]| |].
  - destruct (Session.step a (s_session w)) as [s|]; [|done]. cbn. intros Hx%IH. exact Hx.
  - destruct (other a (s_bus w)) as [d|]; [|done]. cbn. intros Hx%IH. exact Hx.
Qed.

Lemma dispatch_all_registered raw now evs d id : registered (dispatch_all raw now evs d) id = registered d id.
Proof using All.
  revert d. unfold dispatch_all. induction evs as [|ev evs IH]; intros d; [done|]. cbn. by rewrite IH, Dispatch_registered.
Qed.

Definition erase_saction (a : saction) : saction :=
  match a with
  | SessionStep raw a => SessionStep raw (erase_action a)
  | OtherStep a => OtherStep a
  end.
Definition erase_sworld (w : sworld) : sworld := mkS (erase (s_session w)) (s_bus w).

Lemma sstep_erase a w : sstep (erase_saction a) (erase_sworld w) = erase_sworld <$> sstep a w.
Proof using Type.
  destruct a as [raw a|a]; cbn.
  - rewrite step_erase. by destruct (Session.step a (s_session w)).
  - by destruct (other a (s_bus w)).
Qed.

Lemma sexec_erase acts w : sexec (erase_saction <$> acts) (erase_sworld w) = erase_sworld <$> sexec acts w.
Proof using Type.
  revert w. induction acts as [|a acts IH]; intros w; [done|]. cbn.
  rewrite sstep_erase. destruct (sstep a w) as [w1|]; cbn; [apply IH|done].
Qed.

(** ** Counting events *)

Definition is_unlock (a : Session.action) : bool := match a with CallUnlock _ => true | _ => false end.
Definition is_logout (e : Session.event) : bool := match e with AuthLogout _ => true | _ => false end.
Definition logout_due (t : task) : bool := match t with EmitLogout true => true | _ => false end.
Definition is_ready (e : Session.event) : bool := match e with AuthReady _ => true | _ => false end.
Definition ready_due (t : task) : bool := match t with EmitReady => true | _ => false end.

(** Logouts sent or due, and the one an unlocked session may still cause. *)
Definition logouts (w : Session.world) : nat :=
  (count is_logout (sent w) + count logout_due (tasks w) + Nat.b2n (active (session w)))%nat.
Definition readies (w : Session.world) : nat :=
  (count is_ready (sent w) + count ready_due (tasks w))%nat.

Lemma step_counts a w w' :
  Session.step a w = Some w' ->
  (logouts w' <= logouts w + Nat.b2n (is_unlock a) /\ readies w' <= readies w + Nat.b2n (is_unlock a))%nat.
Proof using Type.
  intros Hs. unfold logouts, readies. destruct a as [m| |d|h| |dt|t|i]; cbn [Session.step] in Hs.
  - injection Hs as <-. cbn. lia.
  - injection Hs as <-. cbn. lia.
  - injection Hs as <-. cbn. lia.
  - destruct (Unlock _ _ _ _) as [s tm] eqn:E. injection Hs as <-. cbn. rewrite !count_app, ?count_one, ?count_nil. cbn.
    destruct (active s), (active (session w)); cbn; lia.
  - injection Hs as <-. unfold lock_world, Lock. cbn. rewrite !count_app, ?count_one, ?count_nil. destruct (active (session w)); cbn; lia.
  - injection Hs as <-. cbn. lia.
  - destruct (wtimers w !! t) as [[d|]|]; try done. destruct (d <=? now w); [|done].
    injection Hs as <-. cbn. rewrite !count_app, ?count_one, ?count_nil. cbn. lia.
  - destruct (tasks w !! i) as [k|] eqn:Ei; [|done]. cbn in Hs.
    rewrite (count_delete logout_due _ _ _ Ei), (count_delete ready_due _ _ _ Ei).
    destruct k as [| |was]; injection Hs as <-; cbn.
    + unfold lock_world, Lock. cbn. rewrite !count_app, ?count_one, ?count_nil. destruct (active (session w)); cbn; lia.
    + unfold Unlock_emit. destruct (Session.dispatcher (session w)); rewrite !count_app, ?count_one, ?count_nil; cbn; lia.
    + unfold Lock_emit. destruct was; [destruct (Session.dispatcher (session w))|];
        rewrite !count_app, ?count_one, ?count_nil; cbn; lia.
Qed.

Lemma exec_counts acts w w' :
  Session.exec acts w = Some w' ->
  (logouts w' <= logouts w + count is_unlock acts /\ readies w' <= readies w + count is_unlock acts)%nat.
Proof using Type.
  revert w. induction acts as [|a acts IH]; intros w; cbn; [intros [= <-]; lia|].
  destruct (Session.step a w) as [w1|] eqn:E; [|done]. cbn. intros Hx%IH. pose proof (step_counts a w w1 E).
  change (a :: acts) with ([a] ++ acts). rewrite count_app, count_one. lia.
Qed.

(** ** Theorems *)

(** C21. Key handles do not reach the bus. Two runs of a session and a
    dispatcher, with any other calls on the dispatcher in between, that differ
    only in the handles given to [Unlock] leave the dispatcher in the same
    state: the same events on it, the same handlers started, the same replies. *)
Theorem handles_stay_off_the_bus acts1 acts2 t0 d :
  erase_saction <$> acts1 = erase_saction <$> acts2 ->
  s_bus <$> sexec acts1 (sinit t0 d) = s_bus <$> sexec acts2 (sinit t0 d).
Proof using Type.
  intros E.
  assert (forall acts, s_bus <$> sexec acts (sinit t0 d) = s_bus <$> sexec (erase_saction <$> acts) (sinit t0 d)) as Hb.
  { intros acts. change (sinit t0 d) with (erase_sworld (sinit t0 d)) at 2. rewrite sexec_erase.
    by destruct (sexec acts (sinit t0 d)). }
  by rewrite (Hb acts1), (Hb acts2), E.
Qed.

(** A logout for every unlock at most. Under any interleaving of calls,
    timers, pending tasks and other uses of the dispatcher, the session has
    sent at most as many AUTH.LOGOUT events, and at most as many AUTH.READY
    events, as [Unlock] was called; an unlocked session or a logout not yet
    sent leaves at least one logout to come. Its steps never change which
    modules are registered. *)
Theorem logouts_match_unlocks acts t0 d w :
  sexec acts (sinit t0 d) = Some w ->
  (count is_logout (sent (s_session w)) + count logout_due (tasks (s_session w))
     + Nat.b2n (active (session (s_session w))) <= count is_unlock (session_acts acts))%nat /\
  (count is_ready (sent (s_session w)) <= count is_unlock (session_acts acts))%nat /\
  (forall raw a w' id, sstep (SessionStep raw a) w = Some w' -> registered (s_bus w') id = registered (s_bus w) id).
Proof using All.
  intros Hx. apply sexec_session, exec_counts in Hx as [Hl Hr]. cbn in Hl, Hr. unfold logouts, readies in *. cbn in *.
  rewrite !count_nil in Hl, Hr. split_and!; [lia|lia|]. intros raw a w' id Hs. cbn in Hs.
  destruct (Session.step a (s_session w)) as [s|]; [|done]. injection Hs as <-. apply dispatch_all_registered.
Qed.

(** Ready can follow logout. [Unlock] and [Lock] send their events after
    they release the mutex. There is a run in which the vault is unlocked and
    locked again, the dispatcher gets AUTH.LOGOUT first and AUTH.READY last,
    and that event says the vault is unlocked, since the year 1, while the
    session is locked. *)
Theorem ready_after_logout h raw1 raw2 t0 d :
  exists w, sexec [SessionStep [] (CallSetDispatcher true); SessionStep [] (CallUnlock h); SessionStep [] CallLock;
      SessionStep raw1 (RunTask 1); SessionStep raw2 (RunTask 0)] (sinit t0 d) = Some w /\
    IsUnlocked (session (s_session w)) = false /\ tasks (s_session w) = [] /\
    exists logout ready, s_bus w = dp_Dispatch t0 ready (dp_Dispatch t0 logout d) /\
      Type_ logout = EvAuthLogout /\ Type_ ready = EvAuthReady /\
      parse (Payload ready)
        = Some (JObj [("unlocked", JBool true); ("unlocked_at", JNum (-62135596800))]%string).
Proof using Type.
  exists (mkS (Session.mkWorld (mkSession false EmptyString time_zero true 15 (Some 0%nat) time_zero)
    {[0%nat := None]} t0 [] [AuthLogout "session_locked"; AuthReady (-62135596800)])
    (dp_Dispatch t0 (session_event raw2 t0 (AuthReady (-62135596800)))
      (dp_Dispatch t0 (session_event raw1 t0 (AuthLogout "session_locked")) d))).
  split; [reflexivity|]. split; [done|]. split; [done|].
  exists (session_event raw1 t0 (AuthLogout "session_locked")), (session_event raw2 t0 (AuthReady (-62135596800))).
  split; [done|]. split; [done|]. split; [done|]. apply parse_print.
Qed.
End Composed.

(** ** On the bus *)

Section OnTheBus.
Context (ToUpper : string -> string).
#[local] Instance bus_Dispatcher : Dispatcher (Bus.world (Handler := Handler)) := world_Dispatcher ToUpper.

Lemma dispatch_unanswered now e e' (w : Bus.world (Handler := Handler)) :
  hop now e = Some e' -> ReplyTo e' = EmptyString ->
  w_bus (dp_Dispatch now e w) = w_bus w /\
  w_goroutines (dp_Dispatch now e w) = w_goroutines w ++
    (if gate_open w e' then (fun h => (h, e')) <$> recipients (w_bus w) e' else []).
Proof using Type.
  intros Hh Hr. change (dp_Dispatch now e w) with (dispatch_on now e w). unfold dispatch_on.
  rewrite <- (rest_Dispatch now e e' w Hh). cbn [rest]. unfold signal_reply, rest_gate. rewrite decide_True by done.
  change (gate_open (with_chans (w_chans w) w) e') with (gate_open w e').
  destruct (gate_open w e'); cbn; [done|by rewrite app_nil_r].
Qed.

Lemma hop_fresh raw now origin t payload :
  hop now (NewEvent raw now origin t payload) = Some (mkEvent (newID raw) t payload EmptyString origin now 7).
Proof using Type. unfold hop. cbn. do 2 f_equal. by destruct (now =? 0). Qed.

(** C22. Locking tells who listens. When an unlocked session with a dispatcher
    is locked and its pending emission runs, the session holds no handle any
    more, and the bus has started, in order, the handlers registered for the
    channel AUTH or subscribed to AUTH.LOGOUT, each with the same event whose
    payload parses to the reason alone; a closed gate on AUTH keeps it from
    all of them. A session already locked starts none. *)
Theorem lock_notifies raw (w : sworld (D := Bus.world (Handler := Handler))) :
  Session.dispatcher (session (s_session w)) = true ->
  exists w', sexec (Bus.step ToUpper)
      [SessionStep [] CallLock; SessionStep raw (RunTask (length (tasks (s_session w))))] w = Some w' /\
    mvkHandle (session (s_session w')) = EmptyString /\ active (session (s_session w')) = false /\
    exists e, Type_ e = EvAuthLogout /\ Origin e = "session"%string /\
      parse (Payload e) = Some (JObj [("reason", JStr "session_locked")]%string) /\
      w_bus (s_bus w') = w_bus (s_bus w) /\
      w_goroutines (s_bus w') = w_goroutines (s_bus w) ++
        (if active (session (s_session w)) && gate_open (s_bus w) e
         then (fun h => (h, e)) <$> recipients (w_bus (s_bus w)) e else []).
Proof using Type.
  intros Hd. destruct w as [s b]. cbn [s_session s_bus] in *.
  cbn [sexec sstep Session.step mbind option_bind s_session s_bus]. unfold lock_world, Lock.
  cbn [tasks session wtimers sent now mbind option_bind]. rewrite list_lookup_middle by done.
  cbn [mbind option_bind]. unfold emitted. cbn [sent]. rewrite drop_all.
  unfold Lock_emit. cbn [Session.dispatcher]. rewrite Hd.
  rewrite drop_app_length. set (now := Session.now s).
  eexists. split; [reflexivity|]. cbn [s_session s_bus session mvkHandle active]. split; [done|]. split; [done|].
  exists (mkEvent (newID raw) EvAuthLogout (print (JObj [("reason", JStr "session_locked")]%string)) EmptyString
    "session" now 7). split; [done|]. split; [done|]. split; [apply parse_print|].
  destruct (active (session s)); cbn [dispatch_all foldl andb session_event Session.now]; [|by rewrite app_nil_r].
  apply (dispatch_unanswered now (logout_event raw now "session_locked")); [|reflexivity].
  unfold logout_event. apply hop_fresh.
Qed.
End OnTheBus.

(** ** On the threads of the bus *)

Section OnThreads.
Context (ToUpper : string -> string).
#[local] Instance threads_Dispatcher : Dispatcher (fworld (Handler := Handler)) := fworld_Dispatcher ToUpper.
#[local] Abbreviation sworld := (sworld (D := fworld (Handler := Handler))).
#[local] Abbreviation saction := (saction (A := faction (Handler := Handler))).

(** [Lock]'s event, as the bus hands it on. *)
Definition logout_on_bus (raw : list byte) (now : Z) : Event :=
  mkEvent (newID raw) EvAuthLogout (print (JObj [("reason", JStr "session_locked")]%string)) EmptyString "session" now 7.

Lemma hop_logout raw now : hop now (session_event raw now (AuthLogout "session_locked")) = Some (logout_on_bus raw now).
Proof using Type.
  unfold session_event, logout_event, logout_on_bus. generalize (print (JObj [("reason", JStr "session_locked")]%string)).
  intros payload. apply hop_fresh.
Qed.

Definition others_grow (acts : list saction) : Prop :=
  Forall (fun a => match a with OtherStep a => grows a | SessionStep _ _ => True end) acts.

Lemma dispatch_all_on_way raw now evs i h e f : on_way i h e f -> on_way i h e (dispatch_all raw now evs f).
Proof using Type.
  revert f. unfold dispatch_all. induction evs as [|ev evs IH]; intros f H; [done|]. apply IH.
  change (dp_Dispatch now (session_event raw now ev) f) with (begin now (session_event raw now ev) None f).
  destruct H as [Hin|(s & req & Hi & Hm)]; [left|right].
  - unfold begin. by destruct (hop _ _).
  - exists s, req. split; [|done]. by eapply (fstep_other ToUpper (FDispatch now (session_event raw now ev))).
Qed.

Lemma sstep_on_way a (w w' : sworld) i h e :
  sstep (fstep ToUpper) a w = Some w' -> others_grow [a] -> listens h e (s_bus w) ->
  on_way i h e (s_bus w) -> on_way i h e (s_bus w').
Proof using Type.
  intros Hs [Ha _]%Forall_cons Hl Ho. destruct a as [raw a|a]; cbn [sstep] in Hs.
  - destruct (Session.step a (s_session w)) as [s|]; [|done]. injection Hs as <-. by apply dispatch_all_on_way.
  - destruct (fstep ToUpper a (s_bus w)) as [f|] eqn:E; [|done]. injection Hs as <-. by eapply fstep_on_way.
Qed.

Lemma sexec_on_way acts (w w' : sworld) i h e :
  sexec (fstep ToUpper) acts w = Some w' -> others_grow acts -> on_way i h e (s_bus w) ->
  (forall k wk, (k < length acts)%nat -> sexec (fstep ToUpper) (take k acts) w = Some wk -> listens h e (s_bus wk)) ->
  on_way i h e (s_bus w').
Proof using Type.
  revert w. induction acts as [|a acts IH]; intros w; [by intros [= <-]|]. cbn [sexec].
  destruct (sstep _ a w) as [w1|] eqn:E; [|done]. intros Hx [Ha Hn]%Forall_cons Ho Hl.
  apply (IH w1); [done|done| |].
  - eapply sstep_on_way; [exact E|by apply Forall_singleton| |done]. apply (Hl 0%nat); [cbn; lia|done].
  - intros k wk Hk Hwk. apply (Hl (S k)); [cbn; lia|]. cbn [take sexec]. by rewrite E.
Qed.

(** C23. A lock is heard. When a session with a dispatcher that was locked while
    unlocked runs the emission it still owes, and from then on the session,
    its timers and any threads of the bus go on as they like, every handler
    that is due to get AUTH.LOGOUT and not gated off, in every state until the
    thread of that dispatch has returned, has by then been started with the
    event, whose payload parses to the reason alone. *)
Theorem lock_is_heard raw (w w1 : sworld) i acts h :
  let e := logout_on_bus raw (now (s_session w)) in
  Session.dispatcher (session (s_session w)) = true -> tasks (s_session w) !! i = Some (EmitLogout true) ->
  sexec (fstep ToUpper) (SessionStep raw (RunTask i) :: acts) w = Some w1 -> others_grow acts ->
  f_threads (s_bus w1) !! fresh (dom (f_threads (s_bus w))) = None ->
  (forall k wk, (k < length acts)%nat -> sexec (fstep ToUpper) (SessionStep raw (RunTask i) :: take k acts) w = Some wk ->
     gate_open (f_w (s_bus wk)) e = true /\ h ∈ recipients (w_bus (f_w (s_bus wk))) e) ->
  (h, e) ∈ w_goroutines (f_w (s_bus w1)) /\
  parse (Payload e) = Some (JObj [("reason", JStr "session_locked")]%string).
Proof using Type.
  intros e Hd Ht Hx Hn Hr Hl. split; [|apply parse_print]. eapply on_way_returned; [|exact Hr].
  cbn [sexec sstep Session.step] in Hx, Hl. rewrite Ht in Hx, Hl. cbn [mbind option_bind] in Hx, Hl.
  unfold emitted in Hx, Hl. cbn [sent] in Hx, Hl. rewrite drop_app_length in Hx, Hl.
  unfold Lock_emit in Hx, Hl. rewrite Hd in Hx, Hl.
  eapply sexec_on_way; [exact Hx|done| |exact Hl].
  exact (begin_on_way _ _ None e h (s_bus w) (hop_logout raw (now (s_session w)))).
Qed.
End OnThreads.

(** ** Examples *)

Definition listener : Handler := fun e => ([], Returned None).
Definition listening : Bus.world (Handler := Handler) :=
  on_bus (fun b => (Register ascii_ToUpper (mkModule "api" ["auth"]%string listener) b).1) (Bus.init ascii_ToUpper []).
#[local] Instance example_Dispatcher : Dispatcher (Bus.world (Handler := Handler)) := world_Dispatcher ascii_ToUpper.
#[local] Instance example_Laws : DispatcherLaws (Bus.world (Handler := Handler)) := world_DispatcherLaws ascii_ToUpper.

(** Unlock, ready, lock, logout, with another call in between. *)
Definition session_run (h : string) : list (saction (A := Bus.action (Handler := Handler))) :=
  [SessionStep [] (CallSetDispatcher true); SessionStep [] (CallUnlock h); SessionStep [] (RunTask 0);
   OtherStep (ADispatch 3 (ping "x" EmptyString)); SessionStep [] CallLock; SessionStep [] (RunTask 0)].

Lemma handles_stay_off_the_bus_witness :
  s_bus <$> sexec (Bus.step ascii_ToUpper) (session_run "mvk:a") (sinit 5 listening)
  = s_bus <$> sexec (Bus.step ascii_ToUpper) (session_run "mvk:b") (sinit 5 listening).
Proof. by apply handles_stay_off_the_bus. Defined.

Lemma logouts_match_unlocks_witness :
  exists w, sexec (Bus.step ascii_ToUpper) (session_run "mvk:a") (sinit 5 listening) = Some w /\
    count is_logout (sent (s_session w)) = 1%nat /\
    (count is_logout (sent (s_session w)) + count logout_due (tasks (s_session w))
       + Nat.b2n (active (session (s_session w))) <= 1)%nat.
Proof.
  destruct (sexec (Bus.step ascii_ToUpper) (session_run "mvk:a") (sinit 5 listening)) as [w|] eqn:E; [|by vm_compute in E].
  exists w. split; [done|].
  destruct (logouts_match_unlocks (Bus.step ascii_ToUpper) (session_run "mvk:a") 5 listening w E) as [H _].
  split; [vm_compute in E; injection E as <-; by vm_compute|exact H].
Defined.

Definition unlocked_world : sworld (D := Bus.world (Handler := Handler)) :=
  mkS (Session.mkWorld (mkSession true "mvk:a" 5 true 15 None 5) ∅ 9 [] []) listening.

Lemma lock_notifies_witness :
  exists w', sexec (Bus.step ascii_ToUpper) [SessionStep [] CallLock; SessionStep [] (RunTask 0)] unlocked_world = Some w' /\
    exists e, Type_ e = EvAuthLogout /\
      w_goroutines (s_bus w') = if gate_open listening e then (fun h => (h, e)) <$> recipients (w_bus listening) e else [].
Proof.
  destruct (lock_notifies ascii_ToUpper [] unlocked_world eq_refl) as (w' & H1 & _ & _ & e & H2 & _ & _ & _ & H3).
  exists w'. split; [exact H1|]. exists e. split; [exact H2|exact H3].
Defined.

(** A session just locked, its emission pending, and what others do meanwhile. *)
Definition just_locked : sworld (D := fworld (Handler := Handler)) :=
  mkS (Session.mkWorld (mkSession false EmptyString time_zero true 15 None time_zero) ∅ 9 [EmitLogout true] [])
    (mkF listening ∅ ∅).
#[local] Instance example_threads : Dispatcher (fworld (Handler := Handler)) := fworld_Dispatcher ascii_ToUpper.
Definition after_lock : list (saction (A := faction (Handler := Handler))) :=
  [OtherStep (FRun 0); SessionStep [] (CallUnlock "mvk:b"); OtherStep (FRun 0); SessionStep [] (RunTask 0);
   OtherStep (FRun 1); OtherStep (FRun 0); OtherStep (FRun 0); OtherStep (FRun 0)].

Lemma lock_is_heard_witness :
  exists w1, sexec (fstep ascii_ToUpper) (SessionStep [] (RunTask 0) :: after_lock) just_locked = Some w1 /\
    (listener, logout_on_bus [] 9) ∈ w_goroutines (f_w (s_bus w1)).
Proof.
  destruct (sexec (fstep ascii_ToUpper) (SessionStep [] (RunTask 0) :: after_lock) just_locked) as [w1|] eqn:E;
    [|by vm_compute in E].
  exists w1. split; [done|].
  apply (lock_is_heard ascii_ToUpper [] just_locked w1 0 after_lock listener eq_refl eq_refl E).
  - by repeat constructor.
  - vm_compute in E. injection E as <-. by vm_compute.
  - intros k wk Hk Hwk. clear E.
    do 8 (destruct k as [|k]; [vm_compute in Hwk; injection Hwk as <-; split; [by vm_compute|vm_compute; by left]|]).
    cbn in Hk. lia.
Defined.
