(* ===== verification/Interfaces.v ===== *)
(** * The interfaces of the security package
    ([MVKStore] in [engine/security/mvk_store.go], [LockdownManager] in
    [lockdown.go], [AuditLog] in [audit.go])

    Each interface is a class of operations and a class of laws over an
    abstract view of its state: the keys a store holds, the strikes a manager
    counts, the events a log keeps. The implementations modelled elsewhere
    discharge the laws, and clients are proved against them. *)

From S2P Require Import Prelude GoStd Errors Memory SecretStores Lockdown AuditLog.

(** ** Key stores *)

(** What a retrieved slice holds is a value: callers must not keep the slice. *)
Class MVKStore (S : Type) := {
  ms_Store : list byte -> rand -> S -> res error (S * string);
  ms_Retrieve : string -> S -> option (list byte);
  ms_Revoke : string -> S -> S;
  ms_RevokeAll : S -> S;
  ms_Handles : S -> list string
}.

Class MVKStoreLaws (S : Type) `{MVKStore S} := {
  ms_ok : S -> Prop;
  ms_keys : S -> gmap string (list byte);
  Store_keys key rnd s s' h :
    ms_ok s -> ms_Store key rnd s = Ret (s', h) -> ms_ok s' /\ ms_keys s' = <[h := key]> (ms_keys s);
  Retrieve_keys h s : ms_ok s -> ms_Retrieve h s = ms_keys s !! h;
  Revoke_keys h s : ms_ok s -> ms_ok (ms_Revoke h s) /\ ms_keys (ms_Revoke h s) = delete h (ms_keys s);
  RevokeAll_keys s : ms_ok s -> ms_ok (ms_RevokeAll s) /\ ms_keys (ms_RevokeAll s) = ∅;
  Handles_keys s : ms_ok s -> ms_Handles s ≡ₚ (map_to_list (ms_keys s)).*1
}.

(** Calls on a store and what they return. *)
Inductive key_call :=
| KStore (key : list byte) (rnd : rand)
| KRetrieve (handle : string)
| KRevoke (handle : string)
| KRevokeAll
| KHandles.

Inductive key_out :=
| OHandle (handle : string)
| OError (e : error)
| OKey (key : option (list byte))
| ODone
| OHandles (handles : list string).

(** The code that draws a handle panics when the random source fails. *)
Fixpoint key_run {S} `{MVKStore S} (cs : list key_call) (s : S) : option (S * list key_out) :=
  match cs with
  | [] => Some (s, [])
  | c :: cs =>
      '(s, o) ←
        match c with
        | KStore key rnd =>
            match ms_Store key rnd s with
            | Ret (s, h) => Some (s, OHandle h)
            | Err e => Some (s, OError e)
            | Panic => None
            end
        | KRetrieve h => Some (s, OKey (ms_Retrieve h s))
        | KRevoke h => Some (ms_Revoke h s, ODone)
        | KRevokeAll => Some (ms_RevokeAll s, ODone)
        | KHandles => Some (s, OHandles (ms_Handles s))
        end;
      '(s, os) ← key_run cs s;
      Some (s, o :: os)
  end.

(** The same calls on a map from handles to keys: a store may refuse a key and
    chooses the handles, everything else is determined. *)
Inductive key_spec : list key_call -> list key_out -> gmap string (list byte) -> gmap string (list byte) -> Prop :=
| spec_end m : key_spec [] [] m m
| spec_stored key rnd h cs os m m' :
    key_spec cs os (<[h := key]> m) m' -> key_spec (KStore key rnd :: cs) (OHandle h :: os) m m'
| spec_refused key rnd e cs os m m' :
    key_spec cs os m m' -> key_spec (KStore key rnd :: cs) (OError e :: os) m m'
| spec_retrieve h cs os m m' :
    key_spec cs os m m' -> key_spec (KRetrieve h :: cs) (OKey (m !! h) :: os) m m'
| spec_revoke h cs os m m' :
    key_spec cs os (delete h m) m' -> key_spec (KRevoke h :: cs) (ODone :: os) m m'
| spec_revoke_all cs os m m' :
    key_spec cs os ∅ m' -> key_spec (KRevokeAll :: cs) (ODone :: os) m m'
| spec_handles hs cs os m m' :
    hs ≡ₚ (map_to_list m).*1 -> key_spec cs os m m' -> key_spec (KHandles :: cs) (OHandles hs :: os) m m'.

Lemma key_run_spec {S} `{MVKStoreLaws S} cs s s' os :
  ms_ok s -> key_run cs s = Some (s', os) -> ms_ok s' /\ key_spec cs os (ms_keys s) (ms_keys s').
Proof.
  revert s os. induction cs as [|c cs IH]; intros s os Hs; cbn [key_run].
  { intros [= <- <-]. split; [done|constructor]. }
  destruct c as [key rnd|h|h| |]; cbn [mbind option_bind].
  - destruct (ms_Store key rnd s) as [[s1 h]|e|] eqn:E; cbn [mbind option_bind]; [| |done].
    + destruct (Store_keys key rnd s s1 h Hs E) as [H1 E1].
      destruct (key_run cs s1) as [[s2 os2]|] eqn:E2; [|done]. intros [= <- <-].
      destruct (IH s1 os2 H1 E2) as [? Hsp]. split; [done|]. constructor. by rewrite <- E1.
    + destruct (key_run cs s) as [[s2 os2]|] eqn:E2; [|done]. intros [= <- <-].
      destruct (IH s os2 Hs E2). split; [done|by constructor].
  - destruct (key_run cs s) as [[s2 os2]|] eqn:E2; [|done]. intros [= <- <-].
    destruct (IH s os2 Hs E2). split; [done|]. rewrite Retrieve_keys by done. by constructor.
  - destruct (Revoke_keys h s Hs) as [H1 E1].
    destruct (key_run cs (ms_Revoke h s)) as [[s2 os2]|] eqn:E2; [|done]. intros [= <- <-].
    destruct (IH _ os2 H1 E2) as [? Hsp]. split; [done|]. constructor. by rewrite <- E1.
  - destruct (RevokeAll_keys s Hs) as [H1 E1].
    destruct (key_run cs (ms_RevokeAll s)) as [[s2 os2]|] eqn:E2; [|done]. intros [= <- <-].
    destruct (IH _ os2 H1 E2) as [? Hsp]. split; [done|]. constructor. by rewrite <- E1.
  - destruct (key_run cs s) as [[s2 os2]|] eqn:E2; [|done]. intros [= <- <-].
    destruct (IH s os2 Hs E2). split; [done|]. constructor; [by apply Handles_keys|done].
Qed.

Lemma is_Some_alt_None {A} (o : option A) : is_Some o <-> ~ (o = None).
Proof. destruct o; split; try done; by intros []. Qed.

Lemma elem_of_keys {A} (m : gmap string A) k : k ∈ (map_to_list m).*1 <-> is_Some (m !! k).
Proof.
  rewrite list_elem_of_fmap. split.
  - intros ([k' a] & -> & Hk%elem_of_map_to_list). by exists a.
  - intros [a Hk]. exists (k, a). by rewrite elem_of_map_to_list.
Qed.

Section LockedMVKStore.
Context {G : MemoryGuard} {L : MemoryGuardLaws G}.
Context (stamp : Z) (frames : list StackFrame).
(** The order in which a loop over the table visits it. *)
Context (iter : table -> list (string * loc)) (iter_order : forall t, iter t ≡ₚ map_to_list t).

#[export] Instance locked_MVKStore : MVKStore SecretStores.state := {|
  ms_Store := MVK_Store stamp frames;
  ms_Retrieve h st := MVK_Retrieve h st ≫= (st.1 !!.);
  ms_Revoke := MVK_Revoke;
  ms_RevokeAll st := MVK_RevokeAll (iter st.2) st;
  ms_Handles st := MVK_Handles (iter st.2)
|}.

(** The keys behind a table of slots. *)
Definition slots (st : SecretStores.state) : gmap string (list byte) := omap (fun l => st.1 !! l) st.2.

Lemma slots_table st m : table_ok st.1 st.2 m -> slots st = m.
Proof using Type.
  intros [Hl _ _]. apply map_eq. intros k. unfold slots. by rewrite Hl, lookup_omap.
Qed.

Lemma slots_handles st m : table_ok st.1 st.2 m -> (map_to_list st.2).*1 ≡ₚ (map_to_list (slots st)).*1.
Proof using Type.
  intros Hok. rewrite (slots_table _ _ Hok). apply NoDup_Permutation; [apply NoDup_fst_map_to_list..|].
  intros k. rewrite !elem_of_keys. rewrite !is_Some_alt_None. by rewrite (table_ok_None _ _ _ _ Hok).
Qed.

#[export] Instance locked_MVKStoreLaws : MVKStoreLaws SecretStores.state.
Proof using L iter_order.
  refine {| ms_ok st := exists m, table_ok st.1 st.2 m; ms_keys := slots |}; cbn.
  - intros key rnd [h t] st' name [m Hok] Hs. cbn in Hok.
    destruct (MVK_Store_cases stamp frames key rnd h t) as [[e E]|[[_ E]|(b & l & -> & Hl & E)]];
      rewrite E in Hs; try done. injection Hs as <- <-.
    pose proof (table_ok_insert h t m (hex_string b) l key Hl Hok) as Hok'.
    split; [by eexists|]. rewrite (slots_table (h, t) m Hok). by apply slots_table.
  - intros name st [m Hok]. by rewrite (slots_table _ _ Hok), (to_lookup _ _ _ Hok).
  - intros name [h t] [m Hok]. cbn in Hok.
    pose proof (MVK_Revoke_ok name h t m [] Hok (ListDef.Forall_nil _)) as Hr.
    destruct (MVK_Revoke name (h, t)) as [h' t'] eqn:E. destruct Hr as (Hok' & _ & _).
    split; [by eexists|]. rewrite (slots_table (h, t) m Hok). by apply slots_table.
  - intros [h t] [m Hok]. cbn in Hok. unfold MVK_RevokeAll.
    destruct (drop_all (iter t) h t m [] (iter_order t) Hok (ListDef.Forall_nil _)) as (E & _ & Hok').
    rewrite <- E in Hok' at 1. split; [by eexists|]. by apply slots_table.
  - intros st [m Hok]. unfold MVK_Handles. rewrite iter_order. by eapply slots_handles.
Defined.
End LockedMVKStore.

(** A key store is a map. Over any store that keeps the interface's laws,
    and so over the locked store with any law-abiding memory guard, whatever
    handles the random source draws, every trace of calls returns what a map
    from handles to keys would: a handle retrieves the key last stored under
    it until it is revoked, unknown handles retrieve nothing, and the handles
    listed are exactly those in use. *)
Theorem key_store_is_a_map {G : MemoryGuard} `{!MemoryGuardLaws G} stamp frames iter h0 cs st os :
  (forall t, iter t ≡ₚ map_to_list t) ->
  key_run (H := locked_MVKStore stamp frames iter) cs (h0, NewLockedMVKStore) = Some (st, os) ->
  exists m, key_spec cs os ∅ m /\ forall handle, MVK_Retrieve handle st ≫= (st.1 !!.) = m !! handle.
Proof.
  intros Hi H. pose (Hlaws := locked_MVKStoreLaws stamp frames iter Hi).
  assert (@ms_ok _ _ Hlaws (h0, NewLockedMVKStore)) as H0 by exact (ex_intro _ ∅ (table_ok_empty h0)).
  destruct (key_run_spec cs _ st os H0 H) as [H1 Hs]. exists (slots st). split; [exact Hs|].
  intros handle. apply (@Retrieve_keys _ _ Hlaws handle st H1).
Qed.

(** ** Lockdown managers *)

Class LockdownManager (S : Type) := {
  lm_RecordFailure : Z -> list StackFrame -> Z -> S -> S * (LockdownState * GrimlockError);
  lm_RecordSuccess : S -> S;
  lm_State : Z -> S -> S * LockdownState;
  lm_RemainingAttempts : S -> Z;
  lm_LockdownUntil : S -> Z;
  lm_TriggerHard : S -> S
}.

(** A manager counts strikes: below [lm_soft] it is open, below [lm_hard] soft
    locked, and from there on hard locked. *)
Definition phase_of (soft hard strikes : Z) : LockdownState :=
  if decide (strikes < soft) then LockdownNone
  else if decide (strikes < hard) then LockdownSoft
  else LockdownHard.

Class LockdownManagerLaws (S : Type) `{LockdownManager S} := {
  lm_ok : S -> Prop;
  lm_strikes : S -> Z;
  lm_soft : S -> Z;
  lm_hard : S -> Z;
  lm_bounds s : lm_ok s -> 0 <= lm_strikes s <= lm_hard s /\ 0 < lm_soft s < lm_hard s;
  failure_law stamp frames now s :
    lm_ok s ->
    let '(s', (st, _)) := lm_RecordFailure stamp frames now s in
    lm_ok s' /\ lm_soft s' = lm_soft s /\ lm_hard s' = lm_hard s /\
    lm_strikes s' = Z.min (lm_hard s) (lm_strikes s + 1) /\ st = phase_of (lm_soft s) (lm_hard s) (lm_strikes s');
  success_law s :
    lm_ok s -> lm_ok (lm_RecordSuccess s) /\ lm_soft (lm_RecordSuccess s) = lm_soft s /\
    lm_hard (lm_RecordSuccess s) = lm_hard s /\ lm_strikes (lm_RecordSuccess s) = 0;
  (** [State] forgets the strikes of a soft lock that has run out. *)
  state_law now s :
    lm_ok s ->
    let '(s', st) := lm_State now s in
    lm_ok s' /\ lm_soft s' = lm_soft s /\ lm_hard s' = lm_hard s /\
    st = phase_of (lm_soft s) (lm_hard s) (lm_strikes s') /\
    (s' = s \/ phase_of (lm_soft s) (lm_hard s) (lm_strikes s) = LockdownSoft /\ lm_LockdownUntil s < now /\
      lm_strikes s' = 0);
  remaining_law s :
    lm_ok s -> lm_RemainingAttempts s =
      (if decide (lm_strikes s < lm_soft s) then lm_soft s else lm_hard s) - lm_strikes s;
  trigger_law s :
    lm_ok s -> lm_ok (lm_TriggerHard s) /\ lm_soft (lm_TriggerHard s) = lm_soft s /\
    lm_hard (lm_TriggerHard s) = lm_hard s /\ lm_strikes (lm_TriggerHard s) = lm_hard s
}.

#[export] Instance lockdownManager_interface : LockdownManager lockdownManager := {|
  lm_RecordFailure stamp frames now m :=
    let '(m, _, r) := RecordFailure stamp frames now m in (m, r);
  lm_RecordSuccess := RecordSuccess;
  lm_State := State;
  lm_RemainingAttempts := RemainingAttempts;
  lm_LockdownUntil := LockdownUntil;
  lm_TriggerHard m := (TriggerHard m).1
|}.

Lemma RecordFailure_result stamp frames now m :
  (RecordFailure stamp frames now m).2.1 = state (RecordFailure stamp frames now m).1.1.
Proof. unfold RecordFailure. destruct (state m) eqn:E; cbn; [|by case_match|done]. case_match; cbn; by rewrite ?E. Qed.

Lemma phase_phase_of m : phase_of (threshold m) (threshold m + maxOverrides m) (strikes m) = phase m (strikes m).
Proof. done. Qed.

Lemma strikes_bounds m : lockdown_ok m -> 0 <= strikes m <= threshold m + maxOverrides m.
Proof. intros [Ht Ho Hm Hs]. unfold strikes. destruct (state m); lia. Qed.

Lemma remaining_strikes m :
  lockdown_ok m ->
  RemainingAttempts m =
    (if decide (strikes m < threshold m) then threshold m else threshold m + maxOverrides m) - strikes m.
Proof.
  intros [Ht Ho Hm Hs]. unfold RemainingAttempts, strikes. destruct (state m).
  - rewrite decide_True by lia. rewrite i64_small; lia.
  - rewrite decide_False by lia. lia.
  - rewrite decide_False by lia. lia.
Qed.

#[export] Instance lockdownManager_laws : LockdownManagerLaws lockdownManager.
Proof.
  refine {| lm_ok := lockdown_ok; lm_strikes := strikes; lm_soft := threshold;
            lm_hard m := threshold m + maxOverrides m |}; cbn [lm_RecordFailure lm_RecordSuccess lm_State
    lm_RemainingAttempts lm_LockdownUntil lm_TriggerHard lockdownManager_interface].
  - intros m Hok. split; [by apply strikes_bounds|]. destruct Hok. lia.
  - intros stamp frames now m Hok. pose proof (RecordFailure_strike stamp frames now m Hok) as Hst.
    assert (lockdown_ok (RecordFailure stamp frames now m).1.1) as Hok'
      by exact (Lockdown.do_call_ok (Lockdown.CRecordFailure stamp frames now) m Hok).
    pose proof (RecordFailure_result stamp frames now m) as Hr.
    destruct (RecordFailure stamp frames now m) as [[m' out] [st err]]. cbn in *.
    destruct Hst as (Et & Eo & _ & Es & _). split_and!; [done|done|lia|done|].
    rewrite Hr, (state_phase m' Hok'). unfold phase, phase_of. by rewrite Et, Eo.
  - intros m Hok. split; [apply (Lockdown.do_call_ok CRecordSuccess m Hok)|done].
  - intros now m Hok. assert (lockdown_ok (State now m).1) as Hok' by exact (Lockdown.do_call_ok (CState now) m Hok).
    unfold State in *. destruct (bool_decide (state m = LockdownSoft) && time_After now (lockdownUntil m)) eqn:E; cbn in *.
    + apply andb_true_iff in E as [Es%bool_decide_eq_true Ea]. split_and!; try done.
      * unfold phase_of. destruct Hok'. cbn in *. rewrite decide_True; [done|cbn; lia].
      * right. pose proof (state_phase m Hok) as Ep. rewrite Es in Ep. split; [done|]. split; [|done].
        unfold time_After in Ea. unfold LockdownUntil. lia.
    + split_and!; try done; [by apply state_phase|by left].
  - intros m Hok. by apply remaining_strikes.
  - intros m Hok. split; [apply (Lockdown.do_call_ok CTriggerHard m Hok)|done].
Defined.

(** ** Audit logs *)

Class AuditLog (A : Type) := {
  al_Append : Z -> SecurityEvent -> A -> result A;
  al_Recent : Z -> A -> result (list SecurityEvent);
  al_Drain : A -> result (A * list SecurityEvent)
}.

(** A log holds its newest [al_cap] events, sealed. *)
Class AuditLogLaws (sha256 : list byte -> list byte) (A : Type) `{AuditLog A} := {
  al_ok : A -> Prop;
  al_spec : A -> spec_log;
  al_cap : A -> nat;
  append_law now e a :
    al_ok a -> exists a', al_Append now e a = Ret a' /\ al_ok a' /\ al_cap a' = al_cap a /\
      spec_call sha256 (al_cap a) (CAppend now e) (al_spec a) = Ret (al_spec a', []);
  recent_law n a :
    al_ok a -> al_Recent n a = ('(_, es) ← spec_call sha256 (al_cap a) (CRecent n) (al_spec a); Ret es);
  drain_law a :
    al_ok a -> exists a' es, al_Drain a = Ret (a', es) /\ al_ok a' /\ al_cap a' = al_cap a /\
      spec_call sha256 (al_cap a) CDrain (al_spec a) = Ret (al_spec a', es)
}.

Section RingLog.
Context (sha256 : list byte -> list byte) (sha256_length : forall l, length (sha256 l) = 32%nat).

#[export] Instance ring_AuditLog : AuditLog ringAuditLog := {|
  al_Append := Append sha256;
  al_Recent := Recent;
  al_Drain := Drain
|}.

#[export] Instance ring_AuditLogLaws : AuditLogLaws sha256 ringAuditLog.
Proof using sha256_length.
  refine {| al_ok := log_ok; al_spec := abs; al_cap := cap |}; cbn [al_Append al_Recent al_Drain ring_AuditLog].
  - intros now e a Hok. pose proof (do_call_refines sha256 sha256_length (CAppend now e) a Hok) as H. cbn [do_call] in H.
    destruct (Append sha256 now e a) as [a'|[]|]; cbn [mbind res_bind] in H; [|done].
    exists a'. by destruct H as (? & ? & ?).
  - intros n a Hok. pose proof (do_call_refines sha256 sha256_length (CRecent n) a Hok) as H. cbn [do_call] in H.
    destruct (Recent n a) as [es|[]|]; cbn [mbind res_bind] in H; [destruct H as (_ & _ & H)|]; by rewrite H.
  - intros a Hok. pose proof (do_call_refines sha256 sha256_length CDrain a Hok) as H. cbn [do_call] in H.
    destruct (Drain a) as [[a' es]|[]|]; [|done]. exists a', es. by destruct H as (? & ? & ?).
Defined.
End RingLog.

(** ** Examples *)

Definition sample_keys : list key_call :=
  [KStore [x01; x02] (inr [x0a]); KStore [x03] (inr [x0b]); KRetrieve "0a"; KRevoke "0a"; KRetrieve "0a"; KHandles].

Lemma key_store_is_a_map_witness :
  exists st os, key_run (H := locked_MVKStore (G := goMemoryGuard) 0 [] map_to_list) sample_keys
      (∅, NewLockedMVKStore) = Some (st, os) /\
    os = [OHandle "0a"; OHandle "0b"; OKey (Some [x01; x02]); ODone; OKey None; OHandles ["0b"]]%string /\
    exists m, key_spec sample_keys os ∅ m.
Proof.
  destruct (key_run (H := locked_MVKStore (G := goMemoryGuard) 0 [] map_to_list) sample_keys (∅, NewLockedMVKStore))
    as [[st os]|] eqn:E; [|by vm_compute in E].
  exists st, os. split; [done|]. split; [vm_compute in E; by injection E as _ <-|].
  destruct (key_store_is_a_map (G := goMemoryGuard) 0 [] map_to_list ∅ sample_keys st os (fun t => Permutation_refl _) E)
    as (m & Hm & _).
  exists m. exact Hm.
Defined.
