(* ===== verification/Storage.v ===== *)
(** * Block storage ([engine/storage])

    The repository holds the storage interfaces and one implementation over
    them: a write transaction that buffers blocks and replays them on the
    store. The store itself is the interface [BlockStore], a class here; the
    laws of a store say what a call that succeeds does to its contents.

    A block's bytes are values: what a caller does to the slices of a block
    after staging it is outside the model. *)

From S2P Require Import Prelude GoStd.

(** ** Data ([block.go], [entry.go]) *)

Definition Category : Type := string.
Definition CategoryPassword : Category := "PASSWORD".
Definition CategorySSHKey : Category := "SSH_KEY".
Definition CategoryCertificate : Category := "CERTIFICATE".
Definition CategoryFileVault : Category := "FILE_VAULT".

Record Block := mkBlock {
  b_ID : string;
  b_Nonce : list byte;
  b_HMAC : list byte;
  b_Data : list byte;
  b_Category : Category;
  b_CreatedAt : Z;
  b_UpdatedAt : Z
}.

#[global] Instance Block_eq_dec : EqDecision Block.
Proof. solve_decision. Defined.

Record BlockMeta := mkBlockMeta {
  m_ID : string;
  m_Size : Z;
  m_Category : Category;
  m_CreatedAt : Z;
  m_UpdatedAt : Z
}.

(** ** The store ([interface.go]) *)

(** A call that can change the store returns the store it leaves, and an error
    or nil; it may change the store and fail. A read returns an error or its
    result. *)
Class BlockStore (S E : Type) := {
  WriteBlock : Block -> S -> S * option E;
  ReadBlock : string -> S -> E + Block;
  DeleteBlock : string -> S -> S * option E;
  ListBlocks : S -> E + list BlockMeta;
  QueryBlocks : Category -> S -> E + list BlockMeta;
  Flush : S -> S * option E;
  Close : S -> S * option E
}.

(** Metadata that [QueryBlocks(category)] selects: the empty category selects all. *)
Definition selects (category : Category) (m : BlockMeta) : bool :=
  bool_decide (category = EmptyString) || bool_decide (m_Category m = category).

(** The metadata of the block stored under an ID; how its size is measured is
    the store's choice. *)
Definition describes (m : BlockMeta) (b : Block) : Prop :=
  m_Category m = b_Category b /\ m_CreatedAt m = b_CreatedAt b /\ m_UpdatedAt m = b_UpdatedAt b.

(** What the successful calls do to the blocks in the store, and what the
    successful reads say of them. *)
Class BlockStoreLaws (S E : Type) `{BlockStore S E} := {
  contents : S -> gmap string Block;
  write_law b s s' : WriteBlock b s = (s', None) -> contents s' = <[b_ID b := b]> (contents s);
  delete_law id s s' : DeleteBlock id s = (s', None) -> contents s' = delete id (contents s);
  flush_law s s' : Flush s = (s', None) -> contents s' = contents s;
  read_law id s b : ReadBlock id s = inr b -> contents s !! id = Some b;
  list_law s ms : ListBlocks s = inr ms ->
    (forall m, m ∈ ms -> exists b, contents s !! m_ID m = Some b /\ describes m b) /\
    (forall id b, contents s !! id = Some b -> exists m, m ∈ ms /\ m_ID m = id);
  query_law category s ms : QueryBlocks category s = inr ms ->
    exists all, ListBlocks s = inr all /\ ms = filter (fun m => selects category m = true) all
}.

(** [NopStrategy] *)
Definition Nop_Name : string := "nop".
Definition Nop_OnWrite {E} (b : Block) : Block * option E := (b, None).
Definition Nop_OnRead {E} (b : Block) : Block * option E := (b, None).
Definition Nop_OnTrigger {E} (_ : string) : option E := None.

(** The interceptor interface [NopStrategy] implements. *)
Class StorageStrategy (T E : Type) := {
  st_Name : T -> string;
  st_OnWrite : T -> Block -> Block * option E;
  st_OnRead : T -> Block -> Block * option E;
  st_OnTrigger : T -> string -> option E
}.

#[export] Instance Nop_StorageStrategy E : StorageStrategy unit E := {|
  st_Name _ := Nop_Name;
  st_OnWrite _ := Nop_OnWrite;
  st_OnRead _ := Nop_OnRead;
  st_OnTrigger _ := Nop_OnTrigger
|}.

(** ** The write transaction ([blockstore_v2.go]) *)

Section Transaction.
Context {S E : Type} `{BlockStore S E}.

Inductive tx_error :=
| ErrTransactionClosed
| StoreError (e : E).

(** The transaction without its reference to the store, which the calls take
    and return. *)
Record transaction := mkTx {
  writes : list Block;
  deletes : list string;
  done_ : bool
}.

Definition NewInMemoryWriteTransaction : transaction := mkTx [] [] false.

Definition tx_WriteBlock (b : Block) (t : transaction) : transaction * option tx_error :=
  if done_ t then (t, Some ErrTransactionClosed)
  else (mkTx (writes t ++ [b]) (deletes t) (done_ t), None).

Definition tx_DeleteBlock (id : string) (t : transaction) : transaction * option tx_error :=
  if done_ t then (t, Some ErrTransactionClosed)
  else (mkTx (writes t) (deletes t ++ [id]) (done_ t), None).

(** [for _, x := range xs { if err := f(x); err != nil { return err } }] *)
Fixpoint each {A} (f : A -> S -> S * option E) (xs : list A) (s : S) : S * option E :=
  match xs with
  | [] => (s, None)
  | x :: xs =>
      match f x s with
      | (s, Some e) => (s, Some e)
      | (s, None) => each f xs s
      end
  end.

Definition Commit (t : transaction) (s : S) : transaction * S * option tx_error :=
  if done_ t then (t, s, Some ErrTransactionClosed)
  else
    let t := mkTx (writes t) (deletes t) true in
    match each WriteBlock (writes t) s with
    | (s, Some e) => (t, s, Some (StoreError e))
    | (s, None) =>
        match each DeleteBlock (deletes t) s with
        | (s, Some e) => (t, s, Some (StoreError e))
        | (s, None) => let '(s, err) := Flush s in (t, s, StoreError <$> err)
        end
    end.

Definition Rollback (t : transaction) : transaction := mkTx [] [] true.

(** The interface the transaction implements. *)
Class WriteTransaction (T Er : Type) := {
  wt_WriteBlock : Block -> T -> T * option Er;
  wt_DeleteBlock : string -> T -> T * option Er;
  wt_Commit : T -> S -> T * S * option Er;
  wt_Rollback : T -> T
}.

#[export] Instance InMemory_WriteTransaction : WriteTransaction transaction tx_error := {|
  wt_WriteBlock := tx_WriteBlock;
  wt_DeleteBlock := tx_DeleteBlock;
  wt_Commit := Commit;
  wt_Rollback := Rollback
|}.

(** The store with transactions, and its snapshots. *)
Class ReadTransaction (T : Type) := {
  rt_ReadBlock : string -> T -> E + Block;
  rt_ListBlocks : T -> E + list BlockMeta;
  rt_QueryBlocks : Category -> T -> E + list BlockMeta;
  rt_Close : T -> T
}.

Class BlockStoreV2 (WT RT : Type) `{WriteTransaction WT E} `{ReadTransaction RT} := {
  BeginWrite : S -> S * (E + WT);
  BeginRead : S -> S * (E + RT)
}.

(** ** Traces *)

(** The calls on one transaction, and what others do to the store meanwhile. *)
Inductive tx_action :=
| XWrite (b : Block)
| XDelete (id : string)
| XCommit
| XRollback
| XStore (f : S -> S).

Definition tx_step (w : transaction * S) (a : tx_action) : transaction * S :=
  let '(t, s) := w in
  match a with
  | XWrite b => ((tx_WriteBlock b t).1, s)
  | XDelete id => ((tx_DeleteBlock id t).1, s)
  | XCommit => (Commit t s).1
  | XRollback => (Rollback t, s)
  | XStore f => (t, f s)
  end.

Definition tx_run (acts : list tx_action) (w : transaction * S) : transaction * S := foldl tx_step w acts.
End Transaction.

(** ** Specification *)

Section Spec.
Context {S E : Type} `{BlockStoreLaws S E}.

(** The promise of the interface's comment: "Returns an error if any operation
    fails; the store remains unchanged". *)
Definition atomic (T Er : Type) `{WriteTransaction S T Er} : Prop :=
  forall (t t' : T) (s s' : S) (e : Er), wt_Commit t s = (t', s', Some e) -> contents s' = contents s.

Inductive op :=
| OWrite (b : Block)
| ODelete (id : string)
| OFlush.

Definition do (o : op) : S -> S * option E :=
  match o with
  | OWrite b => WriteBlock b
  | ODelete id => DeleteBlock id
  | OFlush => Flush
  end.

Definition effect (o : op) (m : gmap string Block) : gmap string Block :=
  match o with
  | OWrite b => <[b_ID b := b]> m
  | ODelete id => delete id m
  | OFlush => m
  end.

(** Everything staged before the transaction is closed. *)
Definition staging (a : tx_action (S := S)) : Prop :=
  match a with
  | XCommit | XRollback => False
  | _ => True
  end.
Definition staged_write (a : tx_action (S := S)) : option Block :=
  match a with
  | XWrite b => Some b
  | _ => None
  end.
Definition staged_delete (a : tx_action (S := S)) : option string :=
  match a with
  | XDelete id => Some id
  | _ => None
  end.
(** What the others did to the store. *)
Definition direct (acts : list (tx_action (S := S))) (s : S) : S :=
  foldl (fun s a => match a with XStore f => f s | _ => s end) s acts.

Definition last_write (id : string) (ws : list Block) : option Block :=
  last (filter (fun b => b_ID b = id) ws).

(** ** Lemmas *)

Lemma each_app {A} (f : A -> S -> S * option E) xs ys s :
  each f (xs ++ ys) s =
  match each f xs s with
  | (s, Some e) => (s, Some e)
  | (s, None) => each f ys s
  end.
Proof. revert s. induction xs as [|x xs IH]; intros s; cbn; [done|]. destruct (f x s) as [s1 [e|]]; auto. Qed.

Lemma each_map {A B} (g : A -> B) (f : B -> S -> S * option E) xs s :
  each f (map g xs) s = each (fun x => f (g x)) xs s.
Proof. revert s. induction xs as [|x xs IH]; intros s; cbn; [done|]. destruct (f (g x) s) as [s1 [e|]]; auto. Qed.

Definition ops (ws : list Block) (ids : list string) : list op :=
  map OWrite ws ++ map ODelete ids ++ [OFlush].

Lemma Commit_ops ws ids s :
  Commit (mkTx ws ids false) s =
  let '(s', err) := each do (ops ws ids) s in (mkTx ws ids true, s', StoreError <$> err).
Proof.
  unfold Commit, ops. cbn [done_ writes deletes]. rewrite !each_app, !each_map. cbn [do].
  change (each (fun x => WriteBlock x) ws s) with (each WriteBlock ws s).
  destruct (each WriteBlock ws s) as [s1 [e|]]; [done|]. rewrite each_app, each_map.
  change (each (fun x => do (ODelete x)) ids s1) with (each DeleteBlock ids s1).
  destruct (each DeleteBlock ids s1) as [s2 [e|]]; [done|]. cbn.
  by destruct (Flush s2) as [s3 [e|]].
Qed.

Lemma do_law o s s' : do o s = (s', None) -> contents s' = effect o (contents s).
Proof. destruct o; cbn; [apply write_law|apply delete_law|apply flush_law]. Qed.

Lemma each_spec os s s' err :
  each do os s = (s', err) ->
  match err with
  | None => contents s' = foldl (flip effect) (contents s) os
  | Some e => exists pre o post s1, os = pre ++ o :: post /\ each do pre s = (s1, None) /\
      contents s1 = foldl (flip effect) (contents s) pre /\ do o s1 = (s', Some e)
  end.
Proof.
  revert s. induction os as [|o os IH]; intros s Hs; cbn in Hs; [by injection Hs as <- <-|].
  destruct (do o s) as [s1 [e|]] eqn:Ho.
  - injection Hs as <- <-. by exists [], o, os, s.
  - apply do_law in Ho as Hc. specialize (IH s1 Hs). destruct err as [e|].
    + destruct IH as (pre & o' & post & s2 & -> & Hp & Hcp & Hf).
      exists (o :: pre), o', post, s2. cbn [each foldl flip]. by rewrite Ho, <- Hc.
    + cbn [foldl flip]. by rewrite <- Hc.
Qed.

Lemma effect_writes ws m id :
  foldl (flip effect) m (map OWrite ws) !! id =
  match last_write id ws with
  | Some b => Some b
  | None => m !! id
  end.
Proof.
  unfold last_write. induction ws as [|b ws IH] using rev_ind; [done|].
  rewrite map_app, foldl_app, filter_app. cbn [foldl map flip effect].
  destruct (decide (b_ID b = id)) as [<-|Hne].
  - rewrite lookup_insert_eq, filter_cons_True, filter_nil, last_snoc by done. done.
  - rewrite lookup_insert_ne, filter_cons_False, filter_nil, app_nil_r by done. done.
Qed.

Lemma effect_deletes ids m id :
  foldl (flip effect) m (map ODelete ids) !! id = if decide (id ∈ ids) then None else m !! id.
Proof.
  revert m. induction ids as [|i ids IH]; intros m; cbn [map foldl flip effect].
  - by rewrite decide_False by apply not_elem_of_nil.
  - rewrite IH. destruct (decide (id ∈ ids)) as [Hin|Hn].
    + by rewrite decide_True by set_solver.
    + destruct (decide (i = id)) as [->|Hne].
      * rewrite lookup_delete_eq, decide_True by set_solver. done.
      * rewrite lookup_delete_ne, decide_False by set_solver. done.
Qed.

Lemma tx_run_staging acts ws ids s :
  Forall staging acts ->
  tx_run acts (mkTx ws ids false, s) =
  (mkTx (ws ++ omap staged_write acts) (ids ++ omap staged_delete acts) false, direct acts s).
Proof.
  unfold tx_run, direct. revert ws ids s.
  induction acts as [|a acts IH]; intros ws ids s Ha; [cbn; by rewrite !app_nil_r|].
  apply Forall_cons in Ha as [Ha Has].
  destruct a; try done; cbn [foldl tx_step tx_WriteBlock tx_DeleteBlock done_ fst]; rewrite IH by done;
    cbn; by rewrite <- ?app_assoc.
Qed.

Lemma tx_run_closed acts t s : done_ t = true -> (tx_run acts (t, s)).2 = direct acts s.
Proof.
  unfold tx_run, direct. revert t s. induction acts as [|a acts IH]; intros t s Ht; [done|].
  destruct a; cbn [foldl tx_step]; unfold tx_WriteBlock, tx_DeleteBlock, Commit; rewrite ?Ht; by apply IH.
Qed.

(** What an ID holds after a transaction that succeeded. *)
Definition final (ws : list Block) (ids : list string) (s : S) (id : string) : option Block :=
  if decide (id ∈ ids) then None
  else match last_write id ws with
       | Some b => Some b
       | None => contents s !! id
       end.

Lemma ops_final ws ids s id : foldl (flip effect) (contents s) (ops ws ids) !! id = final ws ids s id.
Proof.
  unfold ops, final. rewrite !foldl_app. cbn [foldl flip effect].
  rewrite effect_deletes. case_decide; [done|]. apply effect_writes.
Qed.

Lemma Commit_success ws ids s t s' :
  Commit (mkTx ws ids false) s = (t, s', None) -> forall id, contents s' !! id = final ws ids s id.
Proof.
  rewrite Commit_ops. destruct (each do (ops ws ids) s) as [s1 err] eqn:Ed. intros [= _ -> He] id.
  destruct err; [done|]. apply each_spec in Ed. rewrite Ed. apply ops_final.
Qed.

(** The metadata listed are those of the blocks in the store. *)
Lemma query_contents category s ms id :
  QueryBlocks category s = inr ms ->
  id ∈ (m_ID <$> ms) <-> exists b, contents s !! id = Some b /\ (category = EmptyString \/ b_Category b = category).
Proof.
  intros (all & Hl & ->)%query_law. destruct (list_law s all Hl) as [H1 H2].
  rewrite list_elem_of_fmap. unfold selects. split.
  - intros (m & -> & [Hs Hm]%list_elem_of_filter). destruct (H1 m Hm) as (b & Hb & Hc & _). exists b. split; [done|].
    apply orb_true_iff in Hs as [Hs%bool_decide_eq_true|Hs%bool_decide_eq_true]; [by left|right; by rewrite <- Hc].
  - intros (b & Hb & Hcat). destruct (H2 id b Hb) as (m & Hm & <-). exists m. split; [done|].
    apply list_elem_of_filter. split; [|done]. destruct (H1 m Hm) as (b' & Hb' & Hc & _).
    rewrite Hb in Hb'. injection Hb' as <-. apply orb_true_iff.
    destruct Hcat as [->|Hcat]; [by left; apply bool_decide_eq_true|right; apply bool_decide_eq_true; by rewrite Hc].
Qed.

(** ** Theorems *)

(** C32. What a transaction does to the store. Until it is committed nothing
    staged reaches the store, which only others change. [Commit] writes the
    staged blocks in order, then applies the staged deletions, whatever the
    order in which they were staged, then flushes. If it returns nil, an ID
    staged for deletion is absent, even one written after its deletion was
    staged; every other ID holds the last block staged for it, or what it held
    before. If it fails, every call before the failing one succeeded and its
    effect stays: nothing is undone. Once committed or rolled back the
    transaction never touches the store again. *)
Theorem Commit_effect acts s later :
  Forall staging acts ->
  let ws := omap staged_write acts in
  let ids := omap staged_delete acts in
  let s0 := direct acts s in
  tx_run acts (NewInMemoryWriteTransaction, s) = (mkTx ws ids false, s0) /\
  (exists s' err, Commit (mkTx ws ids false) s0 = (mkTx ws ids true, s', StoreError <$> err) /\
    match err with
    | None => forall id, contents s' !! id = final ws ids s0 id
    | Some e => exists pre o post s1, ops ws ids = pre ++ o :: post /\
        contents s1 = foldl (flip effect) (contents s0) pre /\ do o s1 = (s', Some e)
    end /\
    (tx_run (XCommit :: later) (mkTx ws ids false, s0)).2 = direct later s') /\
  (tx_run (XRollback :: later) (mkTx ws ids false, s0)).2 = direct later s0.
Proof.
  intros Ha ws ids s0. split; [by apply tx_run_staging|]. split; [|exact (tx_run_closed later (Rollback _) s0 eq_refl)].
  pose proof (Commit_ops ws ids s0) as HC.
  destruct (each do (ops ws ids) s0) as [s' err] eqn:Ed. exists s', err. split; [done|]. split.
  - apply each_spec in Ed. destruct err as [e|].
    + destruct Ed as (pre & o & post & s1 & ? & _ & ? & ?). by exists pre, o, post, s1.
    + intros id. rewrite Ed. apply ops_final.
  - unfold tx_run. cbn [foldl tx_step]. rewrite HC. exact (tx_run_closed later (mkTx ws ids true) s' eq_refl).
Qed.

(** What readers see after a commit. Once a commit has returned nil, a query
    that succeeds lists exactly the IDs whose block, after the transaction, has
    the category asked for, or every ID that holds a block if the category is
    empty; and a block that can be read is the last one staged for its ID, or
    the one it held if none was staged, and never one whose ID was staged for
    deletion. *)
Theorem Commit_visible ws ids s t s' category ms id :
  Commit (mkTx ws ids false) s = (t, s', None) -> QueryBlocks category s' = inr ms ->
  (id ∈ (m_ID <$> ms) <->
     exists b, final ws ids s id = Some b /\ (category = EmptyString \/ b_Category b = category)) /\
  (forall b, ReadBlock id s' = inr b -> final ws ids s id = Some b).
Proof.
  intros HC HQ. pose proof (Commit_success ws ids s t s' HC id) as Hf. rewrite <- Hf.
  split; [by apply query_contents|]. intros b. apply read_law.
Qed.
End Spec.

(** ** A store of bounded size *)

(** It refuses a new block when it holds [limit] of them. *)
Definition limit : nat := 2.

(** The size of a block is that of its ciphertext. *)
Definition meta_of (kb : string * Block) : BlockMeta :=
  mkBlockMeta kb.1 (len (b_Data kb.2)) (b_Category kb.2) (b_CreatedAt kb.2) (b_UpdatedAt kb.2).
Definition metas (m : gmap string Block) : list BlockMeta := meta_of <$> map_to_list m.

#[global] Instance bounded_store : BlockStore (gmap string Block) string := {|
  WriteBlock b m :=
    if decide (m !! b_ID b = None /\ (limit <= size m)%nat) then (m, Some "store full"%string)
    else (<[b_ID b := b]> m, None);
  ReadBlock id m := match m !! id with Some b => inr b | None => inl "not found"%string end;
  DeleteBlock id m := (delete id m, None);
  ListBlocks m := inr (metas m);
  QueryBlocks category m := inr (filter (fun meta => selects category meta = true) (metas m));
  Flush m := (m, None);
  Close m := (m, None)
|}.

#[global] Instance bounded_laws : BlockStoreLaws (gmap string Block) string.
Proof.
  refine {| contents m := m |}.
  - intros b s s' E. cbn in E. case_decide; by injection E as <-.
  - intros id s s' E. cbn in E. by injection E as <-.
  - intros s s' E. cbn in E. by injection E as <-.
  - intros id s b E. cbn in E. destruct (s !! id); congruence.
  - intros s ms E. cbn in E. injection E as <-. split.
    + intros m ([id b] & -> & Hb%elem_of_map_to_list)%list_elem_of_fmap. by exists b.
    + intros id b Hb. exists (meta_of (id, b)). split; [|done]. apply list_elem_of_fmap_2.
      by apply elem_of_map_to_list.
  - intros category s ms E. cbn in E. injection E as <-. by eexists.
Defined.

Definition sample_block (id : string) (t : Z) : Block := mkBlock id [] [] [] CategoryPassword t t.

Definition abc : list Block := [sample_block "a" 1; sample_block "b" 2; sample_block "c" 3].

(** The transaction is not atomic on this store. *)
Lemma InMemory_not_atomic : ~ atomic (S := gmap string Block) (E := string) transaction (tx_error (E := string)).
Proof.
  intros H.
  assert (exists s', Commit (E := string) (mkTx abc [] false) (∅ : gmap string Block) =
    (mkTx abc [] true, s', Some (StoreError "store full"%string)) /\ size s' = 2%nat) as (s' & HC & Hs)
    by (eexists; split; by vm_compute).
  apply H in HC. cbn in HC. by rewrite HC in Hs.
Qed.

(** A deletion staged before a write of the same ID wins, and when the store
    is full half-way the blocks before stay. *)
Lemma Commit_effect_witness :
  (exists s', Commit (E := string) (mkTx [sample_block "a" 1; sample_block "b" 2] ["a"%string] false)
     (∅ : gmap string Block) = (mkTx [sample_block "a" 1; sample_block "b" 2] ["a"%string] true, s', None) /\
     s' !! "a"%string = None /\ s' !! "b"%string = Some (sample_block "b" 2)) /\
  (exists s', Commit (E := string) (mkTx abc [] false)
     (∅ : gmap string Block) = (mkTx abc [] true, s',
        Some (StoreError "store full"%string)) /\ size s' = 2%nat).
Proof.
  split.
  - destruct (Commit_effect (S := gmap string Block) (E := string)
      [XDelete "a"; XWrite (sample_block "a" 1); XWrite (sample_block "b" 2)] ∅ []) as (_ & (s' & err & HC & He & _) & _);
      [by repeat constructor|].
    destruct err as [e|]; [by vm_compute in HC|].
    exists s'. split; [exact HC|]. by rewrite !He.
  - eexists. by split; vm_compute.
Defined.

(** A query after the commit of a write and a deletion. *)
Lemma Commit_visible_witness :
  let s0 : gmap string Block := {[ "a"%string := sample_block "a" 1 ]} in
  exists t s' ms, Commit (E := string) (mkTx [sample_block "b" 2] ["a"%string] false) s0 = (t, s', None) /\
    QueryBlocks CategoryPassword s' = inr ms /\ "b"%string ∈ (m_ID <$> ms) /\ ~ "a"%string ∈ (m_ID <$> ms).
Proof.
  intros s0.
  assert (exists t s' ms, Commit (E := string) (mkTx [sample_block "b" 2] ["a"%string] false) s0 = (t, s', None) /\
    QueryBlocks CategoryPassword s' = inr ms) as (t & s' & ms & HC & HQ).
  { eexists _, _, _. split; reflexivity. }
  exists t, s', ms. split; [exact HC|]. split; [exact HQ|]. split.
  - apply (Commit_visible [sample_block "b" 2] ["a"%string] s0 t s' CategoryPassword ms "b" HC HQ).
    exists (sample_block "b" 2). split; [by vm_compute|by right].
  - intros H. apply (Commit_visible [sample_block "b" 2] ["a"%string] s0 t s' CategoryPassword ms "a" HC HQ) in H.
    destruct H as (b & H & _). by vm_compute in H.
Defined.
