(* ===== verification/StorageHeap.v ===== *)
(** * What a write transaction shares with its caller ([engine/storage])

    A [Block] holds three slices. [WriteBlock] stages the block by copying the
    struct, so the staged block and the caller's share their bytes. Here blocks
    refer to buffers of a heap and others may overwrite those between calls; a
    store call reads the bytes as they are then. *)

From S2P Require Import Prelude GoStd Memory Storage.

(** ** Blocks and transactions over a heap *)

Record BlockRef := mkBlockRef {
  r_ID : string;
  r_Nonce : loc;
  r_HMAC : loc;
  r_Data : loc;
  r_Category : Category;
  r_CreatedAt : Z;
  r_UpdatedAt : Z
}.

Definition bytes_at (h : heap) (l : loc) : list byte := default [] (h !! l).

(** The block a reference stands for now. *)
Definition deref (h : heap) (r : BlockRef) : Block :=
  mkBlock (r_ID r) (bytes_at h (r_Nonce r)) (bytes_at h (r_HMAC r)) (bytes_at h (r_Data r))
    (r_Category r) (r_CreatedAt r) (r_UpdatedAt r).

Definition refs (r : BlockRef) : list loc := [r_Nonce r; r_HMAC r; r_Data r].

Section Transaction.
Context {S E : Type} `{BlockStore S E}.

Record ref_transaction := mkRefTx {
  ref_writes : list BlockRef;
  ref_deletes : list string;
  ref_done : bool
}.

Definition ref_New : ref_transaction := mkRefTx [] [] false.

Definition ref_WriteBlock (b : BlockRef) (t : ref_transaction) : ref_transaction * option (tx_error (E := E)) :=
  if ref_done t then (t, Some ErrTransactionClosed)
  else (mkRefTx (ref_writes t ++ [b]) (ref_deletes t) (ref_done t), None).

Definition ref_DeleteBlock (id : string) (t : ref_transaction) : ref_transaction * option (tx_error (E := E)) :=
  if ref_done t then (t, Some ErrTransactionClosed)
  else (mkRefTx (ref_writes t) (ref_deletes t ++ [id]) (ref_done t), None).

Definition ref_Commit (h : heap) (t : ref_transaction) (s : S) : ref_transaction * S * option (tx_error (E := E)) :=
  if ref_done t then (t, s, Some ErrTransactionClosed)
  else
    let t := mkRefTx (ref_writes t) (ref_deletes t) true in
    match each (fun b => WriteBlock (deref h b)) (ref_writes t) s with
    | (s, Some e) => (t, s, Some (StoreError e))
    | (s, None) =>
        match each DeleteBlock (ref_deletes t) s with
        | (s, Some e) => (t, s, Some (StoreError e))
        | (s, None) => let '(s, err) := Flush s in (t, s, StoreError <$> err)
        end
    end.

Definition ref_Rollback (t : ref_transaction) : ref_transaction := mkRefTx [] [] true.

(** The transaction of values it is in a heap. *)
Definition view (h : heap) (t : ref_transaction) : transaction :=
  mkTx (deref h <$> ref_writes t) (ref_deletes t) (ref_done t).

(** ** Traces of staging *)

(** [AMutate l f]: whoever holds the buffer overwrites it. *)
Inductive ref_action :=
| AWrite (b : BlockRef)
| ADelete (id : string)
| AMutate (l : loc) (f : list byte -> list byte).

Definition ref_step (w : ref_transaction * heap) (a : ref_action) : ref_transaction * heap :=
  let '(t, h) := w in
  match a with
  | AWrite b => ((ref_WriteBlock b t).1, h)
  | ADelete id => ((ref_DeleteBlock id t).1, h)
  | AMutate l f => (t, alter f l h)
  end.
Definition ref_run (acts : list ref_action) (w : ref_transaction * heap) : ref_transaction * heap :=
  foldl ref_step w acts.

Definition staged_ref (a : ref_action) : option BlockRef := match a with AWrite b => Some b | _ => None end.
Definition staged_id (a : ref_action) : option string := match a with ADelete id => Some id | _ => None end.

Definition mutate (h : heap) (a : ref_action) : heap := match a with AMutate l f => alter f l h | _ => h end.

(** The blocks as they were when they were staged. *)
Fixpoint staged_values (acts : list ref_action) (h : heap) : list Block :=
  match acts with
  | [] => []
  | a :: acts => match a with AWrite b => [deref h b] | _ => [] end ++ staged_values acts (mutate h a)
  end.

(** No buffer is overwritten once a block that uses it is staged. *)
Fixpoint undisturbed (acts : list ref_action) (held : list loc) : Prop :=
  match acts with
  | [] => True
  | AWrite b :: acts => undisturbed acts (held ++ refs b)
  | AMutate l _ :: acts => (l ∉ held) /\ undisturbed acts held
  | _ :: acts => undisturbed acts held
  end.

(** ** Lemmas *)

Lemma each_fmap {A B} (g : A -> B) (f : B -> S -> S * option E) xs s :
  each (fun x => f (g x)) xs s = each f (g <$> xs) s.
Proof using Type. revert s. induction xs as [|x xs IH]; intros s; cbn; [done|]. destruct (f (g x) s) as [s1 [e|]]; auto. Qed.

(** Committing is committing the values of the moment. *)
Lemma ref_Commit_view h t s :
  let '(t', s', err) := ref_Commit h t s in Commit (view h t) s = (view h t', s', err).
Proof using Type.
  unfold ref_Commit, Commit, view. cbn [done_ writes deletes]. destruct (ref_done t) eqn:Et; [by rewrite Et|].
  cbn [ref_writes ref_deletes ref_done]. rewrite each_fmap.
  destruct (each WriteBlock _ s) as [s1 [e|]]; [done|].
  destruct (each DeleteBlock _ s1) as [s2 [e|]]; [done|]. by destruct (Flush s2).
Qed.

Lemma ref_run_open acts ws ids h :
  ref_run acts (mkRefTx ws ids false, h) =
  (mkRefTx (ws ++ omap staged_ref acts) (ids ++ omap staged_id acts) false, foldl mutate h acts).
Proof using Type.
  revert ws ids h. induction acts as [|a acts IH]; intros ws ids h; [by cbn; rewrite !app_nil_r|].
  unfold ref_run in *. cbn [foldl ref_step]. destruct a; cbn [ref_WriteBlock ref_DeleteBlock ref_done ref_writes ref_deletes fst mutate];
    rewrite IH; cbn; by rewrite <- ?app_assoc.
Qed.

Lemma bytes_at_mutate acts held h l :
  undisturbed acts held -> l ∈ held -> bytes_at (foldl mutate h acts) l = bytes_at h l.
Proof using Type.
  revert held h. induction acts as [|a acts IH]; intros held h Hu Hl; [done|]. cbn [foldl].
  destruct a as [b|id|k f]; cbn [undisturbed mutate] in *.
  - apply (IH (held ++ refs b)); [done|]. apply elem_of_app. by left.
  - by apply (IH held).
  - destruct Hu as [Hk Hu]. rewrite (IH held) by done. unfold bytes_at.
    rewrite lookup_alter_ne; [done|]. intros ->. done.
Qed.

Lemma staged_values_undisturbed acts held h :
  undisturbed acts held -> deref (foldl mutate h acts) <$> omap staged_ref acts = staged_values acts h.
Proof using Type.
  revert held h. induction acts as [|a acts IH]; intros held h Hu; [done|]. cbn [foldl staged_values].
  destruct a as [b|id|k f]; cbn [omap list_omap staged_ref fmap list_fmap app mutate undisturbed] in *.
  - rewrite <- (IH (held ++ refs b)) by done. cbn. f_equal.
    assert (forall l, l ∈ refs b -> bytes_at (foldl mutate h acts) l = bytes_at h l) as Hb.
    { intros l Hl. eapply bytes_at_mutate; [exact Hu|]. apply elem_of_app. by right. }
    unfold deref. rewrite !Hb; [done|..]; unfold refs; set_solver.
  - by apply (IH held).
  - destruct Hu as [_ Hu]. by apply (IH held).
Qed.

(** ** Theorem *)

(** C33. Staged blocks share their bytes with the caller. Committing after any
    trace is committing the transaction of the values the staged blocks have at
    that moment. If no buffer is overwritten after a block that uses it is
    staged, these are the values staged. But a caller that zeroes a buffer
    after [WriteBlock] returned, as the engine does with key material, makes
    [Commit] write zeros for every staged block with that data, without an
    error, whatever was staged. *)
Theorem staged_blocks_share_bytes acts h s l :
  let '(t, h') := ref_run acts (ref_New, h) in
  let value_tx h := mkTx (deref h <$> omap staged_ref acts) (omap staged_id acts) false in
  (forall h'', let '(t', s', err) := ref_Commit h'' t s in Commit (value_tx h'') s = (view h'' t', s', err)) /\
  (undisturbed acts [] -> deref h' <$> omap staged_ref acts = staged_values acts h) /\
  Forall (fun b => r_Data b = l -> b_Data (deref (zeroize l h') b) = zeros (length (b_Data (deref h' b))))
    (omap staged_ref acts).
Proof using Type.
  unfold ref_New. rewrite ref_run_open. cbn [app]. split_and!.
  - intros h''. exact (ref_Commit_view h'' (mkRefTx _ _ false) s).
  - apply staged_values_undisturbed.
  - apply Forall_forall. intros b _ <-. cbn [deref b_Data]. unfold bytes_at.
    unfold zeroize. rewrite lookup_alter_eq.
    destruct (foldl mutate h acts !! r_Data b) as [x|]; [|done]. apply zero_loop_zeros.
Qed.
End Transaction.

Definition sample_ref (id : string) (data : loc) : BlockRef := mkBlockRef id 0%nat 0%nat data CategoryPassword 1 1.

(** Staged, zeroed, committed: the store has the zeros. *)
Example zeroed_before_commit :
  let h : heap := <[0%nat := [x01]]> (<[1%nat := [x05; x06]]> ∅) in
  let '(t, h') := ref_run (E := string) [AWrite (sample_ref "a" 1%nat); AMutate 1%nat zero_loop] (ref_New, h) in
  b_Data <$> ((ref_Commit (E := string) h' t (∅ : gmap string Block)).1.2 !! "a"%string) = Some [x00; x00].
Proof. by vm_compute. Qed.
