(* ===== verification/Intrusion.v ===== *)
(** * Intrusion detection ([engine/security/intrusion_detector.go])

    A method's readings of the clock are arguments: one for the pruning, one
    for the recorded timestamp, one for the anomaly. A method returns the
    detector and the callbacks it starts. The specification recomputes every
    anomaly from the full log of operations. *)

From S2P Require Import Prelude GoStd.

(** ** Data *)

Definition AnomalyType : Type := string.
Definition AnomalyRapidAuthFailures : AnomalyType := "RAPID_AUTH_FAILURES".
Definition AnomalyRapidEntryAccess : AnomalyType := "RAPID_ENTRY_ACCESS".
Definition AnomalyDataExfil : AnomalyType := "POSSIBLE_DATA_EXFIL".

Record AnomalyEvent := mkAnomaly {
  an_Type : AnomalyType;
  an_Subject : string;
  an_Detail : msg;
  an_Timestamp : Z;
  an_Severity : string
}.

Abbreviation counters := (gmap string (list Z)).

Record IntrusionDetector := mkDetector {
  authFailures : counters;
  entryReads : counters;
  ingestOps : counters;
  deleteOps : counters;
  windowSize : Z;
  authFailThreshold : Z;
  readRateThreshold : Z;
  exfilThreshold : Z;
  onAnomaly : bool;   (** the callback is not nil *)
  history : list AnomalyEvent;
  historyMax : Z
}.

Definition NewIntrusionDetector (onAnomaly : bool) : IntrusionDetector :=
  mkDetector ∅ ∅ ∅ ∅ (5 * Minute) 3 50 20 onAnomaly [] 100.

(** The four maps. *)
Inductive kind := KAuth | KRead | KIngest | KDelete.
#[global] Instance kind_eq_dec : EqDecision kind.
Proof. solve_decision. Defined.

Definition counters_of (k : kind) (d : IntrusionDetector) : counters :=
  match k with
  | KAuth => authFailures d
  | KRead => entryReads d
  | KIngest => ingestOps d
  | KDelete => deleteOps d
  end.

Definition set_counters (k : kind) (m : counters) (d : IntrusionDetector) : IntrusionDetector :=
  let pick k' old := if decide (k = k') then m else old in
  mkDetector (pick KAuth (authFailures d)) (pick KRead (entryReads d)) (pick KIngest (ingestOps d))
    (pick KDelete (deleteOps d)) (windowSize d) (authFailThreshold d) (readRateThreshold d)
    (exfilThreshold d) (onAnomaly d) (history d) (historyMax d).

Definition set_history (h : list AnomalyEvent) (d : IntrusionDetector) : IntrusionDetector :=
  mkDetector (authFailures d) (entryReads d) (ingestOps d) (deleteOps d) (windowSize d)
    (authFailThreshold d) (readRateThreshold d) (exfilThreshold d) (onAnomaly d) h (historyMax d).

(** ** Operations *)

Fixpoint prune_loop (cutoff : Z) (timestamps : list Z) : list Z :=
  match timestamps with
  | t :: rest => if time_Before t cutoff then prune_loop cutoff rest else timestamps
  | [] => []
  end.

Definition pruneWindow (now : Z) (d : IntrusionDetector) (timestamps : list Z) : list Z :=
  prune_loop (time_Add now (- windowSize d)) timestamps.

(** [m[subject] = prune(m[subject]); m[subject] = append(m[subject], now)] *)
Definition record_op (k : kind) (t1 t2 : Z) (subject : string) (d : IntrusionDetector)
    : IntrusionDetector :=
  let m := counters_of k d in
  let m := <[subject := pruneWindow t1 d (default [] (m !! subject))]> m in
  set_counters k (<[subject := default [] (m !! subject) ++ [t2]]> m) d.

Definition emit (ev : AnomalyEvent) (d : IntrusionDetector) : IntrusionDetector * list AnomalyEvent :=
  let h := if historyMax d <=? len (history d) then drop 1 (history d) else history d in
  (set_history (h ++ [ev]) d, if onAnomaly d then [ev] else []).

Definition RecordAuthFailure (t1 t2 t3 : Z) (subject : string) (d : IntrusionDetector)
    : IntrusionDetector * list AnomalyEvent :=
  let d := record_op KAuth t1 t2 subject d in
  let total := map_fold (fun _ timestamps total => total + len timestamps) 0 (authFailures d) in
  if authFailThreshold d <=? total then
    emit (mkAnomaly AnomalyRapidAuthFailures subject
      (Sprintf "%d auth failures across all subjects in %s window" [AInt total; ADur (windowSize d)])
      t3 "MEDIUM") d
  else (d, []).

Definition RecordEntryRead (t1 t2 t3 : Z) (subject : string) (d : IntrusionDetector)
    : IntrusionDetector * list AnomalyEvent :=
  let d := record_op KRead t1 t2 subject d in
  let count := len (default [] (entryReads d !! subject)) in
  if readRateThreshold d <=? count then
    emit (mkAnomaly AnomalyRapidEntryAccess subject
      (Sprintf "%d entry reads for subject=%q in %s window — possible vault scan"
        [AInt count; AStr subject; ADur (windowSize d)])
      t3 "HIGH") d
  else (d, []).

Definition checkExfilPattern (t3 : Z) (subject : string) (d : IntrusionDetector)
    : IntrusionDetector * list AnomalyEvent :=
  let ingests := len (default [] (ingestOps d !! subject)) in
  let deletes := len (default [] (deleteOps d !! subject)) in
  let combined := ingests + deletes in
  if (exfilThreshold d <=? combined) && (0 <? ingests) && (0 <? deletes) then
    emit (mkAnomaly AnomalyDataExfil subject
      (Sprintf "subject=%q: %d ingest + %d delete ops in %s window — possible data staging"
        [AStr subject; AInt ingests; AInt deletes; ADur (windowSize d)])
      t3 "HIGH") d
  else (d, []).

Definition RecordIngestOp (t1 t2 t3 : Z) (subject : string) (d : IntrusionDetector)
    : IntrusionDetector * list AnomalyEvent :=
  checkExfilPattern t3 subject (record_op KIngest t1 t2 subject d).

Definition RecordDeleteOp (t1 t2 t3 : Z) (subject : string) (d : IntrusionDetector)
    : IntrusionDetector * list AnomalyEvent :=
  checkExfilPattern t3 subject (record_op KDelete t1 t2 subject d).

(** [for i, ev := range history { result[len(history)-1-i] = ev }] *)
Fixpoint reverse_loop (i : nat) (evs result : list AnomalyEvent) (n : nat) : list AnomalyEvent :=
  match evs with
  | [] => result
  | ev :: evs => reverse_loop (S i) evs (<[(n - 1 - i)%nat := ev]> result) n
  end.

Definition zero_anomaly : AnomalyEvent :=
  mkAnomaly EmptyString EmptyString (Lit EmptyString) time_zero EmptyString.

Definition History (d : IntrusionDetector) : list AnomalyEvent :=
  let n := length (history d) in
  reverse_loop 0 (history d) (replicate n zero_anomaly) n.

(** ** Traces *)

(** One call: its kind, its subject and its clock readings. *)
Record entry := mkOp {
  op_kind : kind;
  op_subject : string;
  op_t1 : Z;
  op_t2 : Z;
  op_t3 : Z
}.

Definition handle_op (e : entry) : IntrusionDetector -> IntrusionDetector * list AnomalyEvent :=
  match op_kind e with
  | KAuth => RecordAuthFailure
  | KRead => RecordEntryRead
  | KIngest => RecordIngestOp
  | KDelete => RecordDeleteOp
  end (op_t1 e) (op_t2 e) (op_t3 e) (op_subject e).

(** The detector and the callbacks after a trace. *)
Definition run_ops (es : list entry) (d : IntrusionDetector) : IntrusionDetector * list AnomalyEvent :=
  foldl (fun '(d, fired) e => let '(d, new) := handle_op e d in (d, fired ++ new)) (d, []) es.

Definition clock_readings (es : list entry) : list Z :=
  es ≫= fun e => [op_t1 e; op_t2 e; op_t3 e].

(** ** Specification *)

Definition is_op (k : kind) (s : string) (e : entry) : Prop := op_kind e = k /\ op_subject e = s.
#[global] Instance is_op_dec k s e : Decision (is_op k s e).
Proof. unfold is_op. apply _. Defined.

(** When the operations of one kind by one subject happened. *)
Definition times (k : kind) (s : string) (log : list entry) : list Z :=
  op_t2 <$> filter (is_op k s) log.

(** Those within five minutes before the latest of them. *)
Definition window (k : kind) (s : string) (log : list entry) : list Z :=
  match last (filter (is_op k s) log) with
  | None => []
  | Some e => filter (fun t => op_t1 e - 5 * Minute <= t) (times k s log)
  end.

Definition total_failures (log : list entry) : Z :=
  Z.of_nat (sum_list_with (fun s => length (window KAuth s log)) (remove_dups (op_subject <$> log))).

(** The anomaly of the last operation [e] of [log]. *)
Definition spec_anomaly (log : list entry) (e : entry) : option AnomalyEvent :=
  let s := op_subject e in
  let reads := len (window KRead s log) in
  let ingests := len (window KIngest s log) in
  let deletes := len (window KDelete s log) in
  match op_kind e with
  | KAuth =>
      if 3 <=? total_failures log then
        Some (mkAnomaly AnomalyRapidAuthFailures s
          (Sprintf "%d auth failures across all subjects in %s window"
            [AInt (total_failures log); ADur (5 * Minute)]) (op_t3 e) "MEDIUM")
      else None
  | KRead =>
      if 50 <=? reads then
        Some (mkAnomaly AnomalyRapidEntryAccess s
          (Sprintf "%d entry reads for subject=%q in %s window — possible vault scan"
            [AInt reads; AStr s; ADur (5 * Minute)]) (op_t3 e) "HIGH")
      else None
  | KIngest | KDelete =>
      if (20 <=? ingests + deletes) && (0 <? ingests) && (0 <? deletes) then
        Some (mkAnomaly AnomalyDataExfil s
          (Sprintf "subject=%q: %d ingest + %d delete ops in %s window — possible data staging"
            [AStr s; AInt ingests; AInt deletes; ADur (5 * Minute)]) (op_t3 e) "HIGH")
      else None
  end.

Definition spec_anomalies (es : list entry) : list AnomalyEvent :=
  seq 0 (length es) ≫= fun i =>
    option_list (e ← es !! i; spec_anomaly (take (S i) es) e).

(** ** Windows *)

Lemma prune_loop_filter c l : StronglySorted Z.le l -> prune_loop c l = filter (fun t => c <= t) l.
Proof.
  induction 1 as [|t l Hs IH Ht]; [done|]. cbn [prune_loop]. unfold time_Before.
  destruct (Z.ltb_spec t c).
  - by rewrite filter_cons_False by lia.
  - symmetry. apply filter_all, Forall_cons. split; [lia|].
    eapply Forall_impl; [exact Ht|]. cbn. lia.
Qed.

Lemma times_snoc_same log e :
  times (op_kind e) (op_subject e) (log ++ [e]) = times (op_kind e) (op_subject e) log ++ [op_t2 e].
Proof. unfold times. by rewrite filter_app, filter_cons_True, fmap_app. Qed.

Lemma filter_op_other k s log e : ~ is_op k s e -> filter (is_op k s) (log ++ [e]) = filter (is_op k s) log.
Proof. intros H. by rewrite filter_app, filter_cons_False, filter_nil, app_nil_r. Qed.

Lemma window_snoc_other k s log e : ~ is_op k s e -> window k s (log ++ [e]) = window k s log.
Proof. intros H. unfold window, times. by rewrite filter_op_other. Qed.

Lemma readings_app es es' : clock_readings (es ++ es') = clock_readings es ++ clock_readings es'.
Proof. apply bind_app. Qed.

(** A clock that does not go back. *)
Abbreviation monotone es := (StronglySorted Z.le (clock_readings es)).

Lemma monotone_app_inv es es' :
  monotone (es ++ es') ->
  monotone es /\ monotone es' /\ forall x y, x ∈ clock_readings es -> y ∈ clock_readings es' -> x <= y.
Proof.
  rewrite readings_app. generalize (clock_readings es) (clock_readings es'). intros l l'.
  induction l as [|x l IH]; cbn.
  - intros H. split_and!; [constructor|done|]. intros x y Hx. by apply elem_of_nil in Hx.
  - inversion_clear 1 as [|? ? Hs Hx]. apply Forall_app in Hx as [Hx Hx'].
    destruct (IH Hs) as (H1 & H2 & H3). split_and!; [by constructor|done|].
    intros a b [->|Ha]%elem_of_cons Hb; [|by apply H3]. by eapply Forall_forall in Hx'.
Qed.

Lemma elem_of_readings e es t : e ∈ es -> t ∈ [op_t1 e; op_t2 e; op_t3 e] -> t ∈ clock_readings es.
Proof. intros He Ht. apply list_elem_of_bind. by exists e. Qed.

Lemma times_sorted k s es : monotone es -> StronglySorted Z.le (times k s es).
Proof.
  induction es as [|e es IH]; [constructor|]. intros H.
  destruct (monotone_app_inv [e] es H) as (_ & Hs & Hle). unfold times.
  destruct (decide (is_op k s e)).
  - rewrite filter_cons_True, fmap_cons by done. constructor; [by apply IH|].
    apply Forall_forall. intros t (e' & -> & [_ He']%list_elem_of_filter)%list_elem_of_fmap.
    apply Hle; eapply elem_of_readings; [by left|set_solver|exact He'|set_solver].
  - rewrite filter_cons_False by done. by apply IH.
Qed.

Lemma window_snoc_same log e :
  monotone (log ++ [e]) ->
  window (op_kind e) (op_subject e) (log ++ [e]) =
  prune_loop (op_t1 e - 5 * Minute) (window (op_kind e) (op_subject e) log) ++ [op_t2 e].
Proof.
  intros Hm. destruct (monotone_app_inv _ _ Hm) as (Hl & He & Hle).
  pose proof (times_sorted (op_kind e) (op_subject e) log Hl) as Hs.
  unfold window. rewrite filter_app, filter_cons_True, filter_nil, last_snoc, times_snoc_same by done.
  rewrite filter_app, filter_cons_True, filter_nil.
  2: { inversion_clear He as [|? ? _ H]. apply Forall_cons in H as [H _]. unfold Minute, Second. lia. }
  f_equal. destruct (last _) as [e0|] eqn:E.
  - apply last_Some_elem_of, list_elem_of_filter in E as [_ He0].
    rewrite prune_loop_filter by by apply StronglySorted_filter.
    rewrite list_filter_filter. apply list_filter_iff. intros t.
    assert (op_t1 e0 <= op_t1 e) by
      (apply Hle; eapply elem_of_readings; [exact He0|set_solver|by left|set_solver]).
    lia.
  - apply last_None in E. unfold times. by rewrite E.
Qed.

(** ** The sum over the map *)

Lemma sum_list_fmap_insert (m : counters) i x (L : list string) :
  m !! i = None -> NoDup L -> i ∈ L ->
  (sum_list_with (fun s => length (default [] (<[i := x]> m !! s))) L =
   length x + sum_list_with (fun s => length (default [] (m !! s))) L)%nat.
Proof.
  intros Hi Hnd (l1 & l2 & ->)%list_elem_of_split.
  apply NoDup_app in Hnd as (_ & Hd & Hnd). apply NoDup_cons in Hnd as [Hi2 _].
  assert (forall l : list string, i ∉ l ->
    sum_list_with (fun s => length (default [] (<[i := x]> m !! s))) l =
    sum_list_with (fun s => length (default [] (m !! s))) l) as Heq.
  { intros l. induction l as [|s l IH]; [done|]. intros [Hne Hl]%not_elem_of_cons. cbn.
    rewrite lookup_insert_ne by done. by rewrite IH. }
  rewrite !sum_list_with_app. cbn [sum_list_with]. rewrite lookup_insert_eq, Hi, (Heq l2) by done.
  rewrite (Heq l1) by (intros H; apply (Hd i H); by left). cbn. lia.
Qed.

Lemma map_fold_sum (m : counters) (L : list string) :
  NoDup L -> (forall s, s ∈ dom m -> s ∈ L) ->
  map_fold (fun _ timestamps total => total + len timestamps) 0 m =
  Z.of_nat (sum_list_with (fun s => length (default [] (m !! s))) L).
Proof.
  intros Hnd. induction m as [|i x m Hi IH] using map_ind; intros HL.
  - rewrite map_fold_empty. clear. induction L as [|s L IH]; [done|]. cbn. by rewrite lookup_empty.
  - rewrite map_fold_insert_L; [|intros; lia|done].
    rewrite IH by (intros s Hs; apply HL; rewrite dom_insert_L; set_solver).
    rewrite sum_list_fmap_insert; [unfold len; lia|done|done|]. apply HL. rewrite dom_insert_L. set_solver.
Qed.

(** ** The invariant *)

(** What never changes. *)
Record config_ok (cb : bool) (d : IntrusionDetector) : Prop := {
  c_window : windowSize d = 5 * Minute;
  c_auth : authFailThreshold d = 3;
  c_read : readRateThreshold d = 50;
  c_exfil : exfilThreshold d = 20;
  c_max : historyMax d = 100;
  c_callback : onAnomaly d = cb
}.

Record counters_ok (es : list entry) (d : IntrusionDetector) : Prop := {
  w_window k s : default [] (counters_of k d !! s) = window k s es;
  w_subjects s : s ∈ dom (authFailures d) -> s ∈ op_subject <$> es
}.

Definition newest (n : nat) (evs : list AnomalyEvent) : list AnomalyEvent := drop (length evs - n) evs.

Lemma counters_of_set k k' m d :
  counters_of k' (set_counters k m d) = if decide (k = k') then m else counters_of k' d.
Proof. by destruct k, k'. Qed.

Lemma record_op_ok cb es e d :
  monotone (es ++ [e]) -> config_ok cb d -> counters_ok es d ->
  counters_ok (es ++ [e]) (record_op (op_kind e) (op_t1 e) (op_t2 e) (op_subject e) d).
Proof.
  intros Hm Hc [Hw Hs]. split.
  - intros k s. unfold record_op. rewrite insert_insert_eq, lookup_insert_eq, counters_of_set.
    cbn [default from_option id]. destruct (decide (is_op k s e)) as [[<- <-]|Hn].
    + rewrite decide_True, lookup_insert_eq by done. cbn [default from_option id].
      rewrite window_snoc_same by done. unfold pruneWindow, time_Add. rewrite (c_window cb d Hc), Hw. done.
    + rewrite window_snoc_other by done. rewrite <- Hw. case_decide as Hk; [|done]. subst k.
      rewrite lookup_insert_ne; [done|]. intros <-. by apply Hn.
  - intros s. unfold record_op. rewrite insert_insert_eq, fmap_app, elem_of_app.
    rewrite (counters_of_set _ KAuth). case_decide as Hk; [|by left; apply Hs].
    rewrite Hk, dom_insert_L. intros [->%elem_of_singleton|Hin]%elem_of_union; [right; by left|left; by apply Hs].
Qed.

Lemma record_op_rest k t1 t2 s d :
  history (record_op k t1 t2 s d) = history d /\
  forall cb, config_ok cb d -> config_ok cb (record_op k t1 t2 s d).
Proof. split; [done|]. by intros cb []. Qed.

Lemma emit_ok cb es evs ev d :
  config_ok cb d -> counters_ok es d -> history d = newest 100 evs ->
  exists d', emit ev d = (d', if cb then [ev] else []) /\
    config_ok cb d' /\ counters_ok es d' /\ history d' = newest 100 (evs ++ [ev]).
Proof.
  intros Hc [Hw Hs] Hh. unfold emit. rewrite (c_callback cb d Hc), (c_max cb d Hc), Hh.
  eexists. split; [reflexivity|]. split_and!.
  - by destruct Hc.
  - split; [intros k s; rewrite <- Hw; by destruct k|exact Hs].
  - cbn [history set_history]. unfold newest, len. rewrite length_app, length_drop. cbn [length].
    destruct (Z.leb_spec 100 (Z.of_nat (length evs - (length evs - 100)))).
    + rewrite drop_drop, drop_app_le by lia. do 2 f_equal. lia.
    + replace (length evs - 100)%nat with 0%nat by lia.
      replace (length evs + 1 - 100)%nat with 0%nat by lia. done.
Qed.

Lemma total_ok es d :
  counters_ok es d ->
  map_fold (fun _ timestamps total => total + len timestamps) 0 (authFailures d) = total_failures es.
Proof.
  intros [Hw Hs]. rewrite (map_fold_sum _ (remove_dups (op_subject <$> es))).
  - unfold total_failures. f_equal. induction (remove_dups _) as [|s L IH]; [done|]. cbn.
    rewrite IH. f_equal. f_equal. apply (Hw KAuth).
  - apply NoDup_remove_dups.
  - intros s Hin. by apply elem_of_remove_dups, Hs.
Qed.

(** One call records its operation and emits the specified anomaly. *)
Lemma handle_op_ok cb es evs e d :
  monotone (es ++ [e]) -> config_ok cb d -> counters_ok es d -> history d = newest 100 evs ->
  let new := option_list (spec_anomaly (es ++ [e]) e) in
  exists d', handle_op e d = (d', if cb then new else []) /\
    config_ok cb d' /\ counters_ok (es ++ [e]) d' /\ history d' = newest 100 (evs ++ new).
Proof.
  intros Hm Hc Hw Hh new. pose proof (record_op_ok cb es e d Hm Hc Hw) as Hw'.
  destruct (record_op_rest (op_kind e) (op_t1 e) (op_t2 e) (op_subject e) d) as [Hh' Hc'].
  rewrite Hh in Hh'. specialize (Hc' cb Hc).
  unfold handle_op, RecordAuthFailure, RecordEntryRead, RecordIngestOp, RecordDeleteOp, checkExfilPattern.
  unfold new, spec_anomaly.
  destruct (op_kind e) eqn:Ek; rewrite ?(c_auth cb _ Hc'), ?(c_read cb _ Hc'), ?(c_exfil cb _ Hc'),
    ?(total_ok _ _ Hw'), ?(c_window cb _ Hc');
    rewrite <- ?(w_window _ _ Hw' KRead), <- ?(w_window _ _ Hw' KIngest), <- ?(w_window _ _ Hw' KDelete);
    cbn [counters_of];
    (case_match; [by apply emit_ok|]); eexists; cbn [option_list]; rewrite app_nil_r;
    (split; [by destruct cb|done]).
Qed.

Lemma bind_ext_elem {A B} (f g : A -> list B) (l : list A) :
  (forall x, x ∈ l -> f x = g x) -> l ≫= f = l ≫= g.
Proof.
  induction l as [|x l IH]; [done|]. intros H. cbn. rewrite H by by left.
  f_equal. apply IH. intros y Hy. apply H. by right.
Qed.

Lemma spec_anomalies_snoc es e :
  spec_anomalies (es ++ [e]) = spec_anomalies es ++ option_list (spec_anomaly (es ++ [e]) e).
Proof.
  unfold spec_anomalies. rewrite length_app, seq_app, bind_app. f_equal.
  - apply bind_ext_elem. intros i [_ Hi]%elem_of_seq. rewrite lookup_app_l by lia.
    by rewrite take_app_le by lia.
  - cbn. rewrite list_lookup_middle by done. cbn. rewrite app_nil_r, take_ge; [done|].
    rewrite length_app. cbn. lia.
Qed.

Lemma reverse_loop_spec i evs result n :
  length result = n -> (i + length evs = n)%nat ->
  reverse_loop i evs result n = reverse evs ++ drop (length evs) result.
Proof.
  revert i result. induction evs as [|ev evs IH]; intros i result Hr Hi; [done|]. cbn [reverse_loop length] in *.
  replace (n - 1 - i)%nat with (length evs) by lia.
  rewrite IH by (rewrite ?length_insert; lia). rewrite reverse_cons, <- app_assoc. f_equal.
  rewrite (drop_S _ ev) by (apply list_lookup_insert_eq; lia). by rewrite drop_insert_lt by lia.
Qed.

Lemma History_reverse d : History d = reverse (history d).
Proof.
  unfold History. rewrite reverse_loop_spec by (by rewrite ?length_replicate).
  by rewrite drop_ge, app_nil_r by (by rewrite length_replicate).
Qed.

Lemma run_ops_ok cb es :
  monotone es ->
  exists d, run_ops es (NewIntrusionDetector cb) = (d, if cb then spec_anomalies es else []) /\
    config_ok cb d /\ counters_ok es d /\ history d = newest 100 (spec_anomalies es).
Proof.
  induction es as [|e es IH] using rev_ind; intros Hm.
  - exists (NewIntrusionDetector cb). split_and!; [by destruct cb|done| |done].
    split; [by intros [] s|]. intros s H. set_solver.
  - destruct (IH (proj1 (monotone_app_inv _ _ Hm))) as (d & Hr & Hc & Hw & Hh).
    destruct (handle_op_ok cb es _ e d Hm Hc Hw Hh) as (d' & Ho & Hc' & Hw' & Hh').
    exists d'. rewrite spec_anomalies_snoc. unfold run_ops in *. rewrite foldl_app, Hr. cbn [foldl].
    rewrite Ho. split_and!; [by destruct cb|done|done|done].
Qed.

(** C35. The detector, operation by operation. On any trace with a clock that
    does not go back, the callbacks and the history are exactly those of the
    specification: a read is reported when the reader made 50 in the last five
    minutes, itself included; an authentication failure when the failures of
    all subjects, each counted over the five minutes before that subject's own
    last failure, however long ago, are three; an ingest or delete when the
    subject did both and 20 together, each counted over the five minutes
    before the last of its kind, so that ingests of hours ago still count
    with a delete of now ([stale_ingests_reported]). The history is the latest
    100 anomalies, newest first, with or without a callback. *)
Theorem detector_exact cb es :
  monotone es ->
  let '(d, fired) := run_ops es (NewIntrusionDetector cb) in
  fired = (if cb then spec_anomalies es else []) /\
  History d = reverse (newest 100 (spec_anomalies es)).
Proof.
  intros Hm. destruct (run_ops_ok cb es Hm) as (d & -> & _ & _ & Hh).
  cbv beta iota zeta. by rewrite History_reverse, Hh.
Qed.

(** Three failures, each of another subject and an hour after the one before. *)
Definition hourly_failures : list entry :=
  [mkOp KAuth "alice" 0 0 0; mkOp KAuth "bob" Hour Hour Hour;
   mkOp KAuth "carol" (2 * Hour) (2 * Hour) (2 * Hour)].

(** 19 ingests, and ten hours later a single delete. *)
Definition stale_ingests : list entry :=
  replicate 19 (mkOp KIngest "alice" 0 0 0) ++
  [mkOp KDelete "alice" (10 * Hour) (10 * Hour) (10 * Hour)].

(** The comment on [exfilThreshold] speaks of 20 operations in five minutes. Only the
    list of the operation's own kind is pruned: here one operation lies in the
    last five minutes, and 20 are reported for them. *)
Lemma stale_ingests_reported :
  (filter (fun e => 10 * Hour - 5 * Minute <= op_t2 e) stale_ingests)
    = [mkOp KDelete "alice" (10 * Hour) (10 * Hour) (10 * Hour)] /\
  (run_ops stale_ingests (NewIntrusionDetector true)).2 =
    [mkAnomaly AnomalyDataExfil "alice"
       (Sprintf "subject=%q: %d ingest + %d delete ops in %s window — possible data staging"
          [AStr "alice"; AInt 19; AInt 1; ADur (5 * Minute)]) (10 * Hour) "HIGH"].
Proof. split; by vm_compute. Qed.

Lemma detector_exact_witness :
  exists d ev, run_ops hourly_failures (NewIntrusionDetector true) = (d, [ev]) /\
    an_Type ev = AnomalyRapidAuthFailures /\ History d = [ev].
Proof.
  assert (monotone hourly_failures) as Hm by (cbn; unfold Hour, Minute, Second; repeat constructor; lia).
  pose proof (detector_exact true hourly_failures Hm) as H.
  destruct (run_ops hourly_failures (NewIntrusionDetector true)) as [d fired].
  destruct H as [-> H]. exists d. eexists. split_and!; [by vm_compute|by vm_compute|].
  rewrite H. by vm_compute.
Defined.
