(* ===== verification/Crypto.v ===== *)
(** * Key derivation, encryption and shredding ([engine/crypto], [engine/bridge])

    HKDF, Argon2id and ChaCha20-Poly1305 come from golang.org/x/crypto and are
    parameters, as are the hash functions and the source of random bytes. The
    platform is 64-bit: [int(off)] is the identity on [int64]. *)

From S2P Require Import Prelude GoStd Memory.

(** ** Keys ([engine.go], [interface.go]) *)

Definition KeyLen : Z := 32.

Definition ValidateKeyLength (key : list byte) : option msg :=
  if len key =? 0 then Some (Lit "crypto/engine: key is empty (vault may be locked)")
  else if negb (len key =? KeyLen) then
    Some (Sprintf "crypto/engine: invalid key length %d (want %d)" [AInt (len key); AInt KeyLen])
  else None.

Record KDFOptions := mkKDF {
  kdf_Time : Z;
  kdf_Memory : Z;
  kdf_Threads : Z;
  kdf_KeyLen : Z;
  kdf_Salt : list byte
}.

Definition DefaultKDFOptions : KDFOptions := mkKDF 4 131072 2 32 [].

Section Provider.
(** [hkdf.New(sha256.New, secret, salt, info)] read for [n] bytes. *)
Context (hkdf : list byte -> list byte -> list byte -> nat -> msg + list byte).
Context (sha256 : list byte -> list byte).
(** [hmac.New(sha256.New, key)] over a message. *)
Context (hmac_sha256 : list byte -> list byte -> list byte).
(** [argon2.IDKey(password, salt, time, memory, threads, keyLen)] *)
Context (IDKey : list byte -> list byte -> Z -> Z -> Z -> Z -> list byte).
(** [chacha20poly1305.New(key)]: the error or nil; and the methods of the
    cipher made from a key: nonce, plaintext or ciphertext, additional data. *)
Context (New_cipher : list byte -> option msg).
Context (Seal : list byte -> list byte -> list byte -> list byte -> list byte).
Context (Open : list byte -> list byte -> list byte -> list byte -> option (list byte)).

(** *** [argon.go], [hkdf.go] *)

Definition or_default (v d : Z) : Z := if v =? 0 then d else v.

Definition DeriveArgon2id (password : list byte) (opts : KDFOptions) : res msg (list byte) :=
  if len (kdf_Salt opts) =? 0 then Err (Lit "argon2id: salt is required")
  else
    let keyLen := or_default (kdf_KeyLen opts) 32 in
    let time := or_default (kdf_Time opts) (kdf_Time DefaultKDFOptions) in
    let memory := or_default (kdf_Memory opts) (kdf_Memory DefaultKDFOptions) in
    let threads := or_default (kdf_Threads opts) (kdf_Threads DefaultKDFOptions) in
    Ret (IDKey password (kdf_Salt opts) time memory threads keyLen).

(** [copy(key[:], result)] into a zeroed array of 32 bytes. *)
Definition HMACKey (mvk : list byte) : list byte :=
  splice 0 (take 32 (hmac_sha256 mvk (str_bytes "grimlocker-hmac-v1"))) (zeros 32).

Definition DeriveHKDF (secret salt info : list byte) (keyLen : Z) : res msg (list byte) :=
  if keyLen <=? 0 then Err (Lit "hkdf: keyLen must be > 0")
  else match hkdf secret salt info (Z.to_nat keyLen) with
       | inl err => Err (Sprintf "hkdf: expand: %w" [AMsg err])
       | inr key => Ret key
       end.

(** *** [coordinate.go] *)

(** The loop over the offsets, with the array as it is on return. *)
Fixpoint mvk_loop (i : nat) (offsets : list Z) (entropyData mvk : list byte)
    : list byte * option msg :=
  match offsets with
  | [] => (mvk, None)
  | off :: offsets =>
      if (off <? 0) || (len entropyData <=? off) then
        (mvk, Some (Sprintf "mvk: offset %d out of bounds (file size %d)" [AInt off; AInt (len entropyData)]))
      else
        let b := default x00 (entropyData !! Z.to_nat off) in
        let x := default x00 (mvk !! i) in
        mvk_loop (S i) offsets entropyData (<[i := xor_byte x b]> mvk)
  end.

Definition DeriveXORAsMVK (entropyData : list byte) (offsets : list Z) : list byte * option msg :=
  mvk_loop 0 offsets entropyData (zeros 32).

Definition coordinate_offset (buf : list byte) (fileSize : Z) (i : nat) : Z :=
  let val := be_decode (take 4 (drop (i * 4) buf)) in
  i64 (u64 val mod u64 fileSize).

Definition DeriveCoordinateOffsets (argonHash : list byte) (fileSize : Z) : res msg (list Z) :=
  if fileSize <=? 0 then Err (Sprintf "coordinate offsets: invalid file size %d" [AInt fileSize])
  else match hkdf argonHash [] (str_bytes "grimlocker-coordinates-v1") 128 with
       | inl err => Err (Sprintf "coordinate offsets: hkdf: %w" [AMsg err])
       | inr buf => Ret (map (coordinate_offset buf fileSize) (seq 0 32))
       end.

(** *** [chacha.go], [engine.go] *)

Definition ValidateAndNewCipher (key : list byte) : res msg (list byte) :=
  match ValidateKeyLength key with
  | Some err => Err err
  | None =>
      match New_cipher key with
      | Some err => Err (Sprintf "crypto/engine: cipher creation failed: %w" [AMsg err])
      | None => Ret key
      end
  end.

Definition Encrypt (key nonce plaintext aad : list byte) : res msg (list byte) :=
  if negb (len key =? 32) then Err (Lit "chacha: invalid key")
  else if negb (len nonce =? 12) then Err (Lit "chacha: invalid nonce")
  else match New_cipher key with
       | Some err => Err (Sprintf "chacha: create cipher: %w" [AMsg err])
       | None => Ret (Seal key nonce plaintext aad)
       end.

Definition Decrypt (key nonce ciphertext aad : list byte) : res msg (list byte) :=
  if negb (len key =? 32) then Err (Lit "chacha: invalid key")
  else if negb (len nonce =? 12) then Err (Lit "chacha: invalid nonce")
  else match New_cipher key with
       | Some err => Err (Sprintf "chacha: create cipher: %w" [AMsg err])
       | None =>
           match Open key nonce ciphertext aad with
           | None => Err (Lit "chacha: authentication failed")
           | Some plaintext => Ret plaintext
           end
       end.

(** *** The Go fallback of the bridge ([gofallback.go]) *)

Definition GoSecureZero (b : list byte) : list byte := zero_loop b.

Fixpoint extract_loop (i : nat) (offsets : list Z) (entropyData extracted : list byte)
    : res msg (list byte) :=
  match offsets with
  | [] => Ret extracted
  | off :: offsets =>
      if (off <? 0) || (len entropyData <=? off) then
        Err (Sprintf "coordinate: offset %d out of range" [AInt off])
      else extract_loop (S i) offsets entropyData
             (<[i := default x00 (entropyData !! Z.to_nat off)]> extracted)
  end.

Definition GoDeriveCoordinate (entropyData : list byte) (offsets : list Z) : res msg (list byte) :=
  extracted ← extract_loop 0 offsets entropyData (zeros (length offsets));
  match hkdf (sha256 extracted) [] (str_bytes "grimlocker-coordinate-salt-v1") 32 with
  | inl err => Err (Sprintf "coordinate: hkdf: %w" [AMsg err])
  | inr key => Ret key
  end.

Definition GoDeriveWorkspaceKey (masterKey : list byte) (workspaceID : string) : res msg (list byte) :=
  match hkdf masterKey [] (str_bytes ("grimlocker-workspace-v1:" +:+ workspaceID)) 32 with
  | inl err => Err (Sprintf "workspace key: hkdf: %w" [AMsg err])
  | inr key => Ret key
  end.
End Provider.

(** ** The master key *)

Definition in_range (entropyData : list byte) (off : Z) : bool := (0 <=? off) && (off <? len entropyData).

(** The offsets before the first one out of range. *)
Fixpoint valid_prefix (entropyData : list byte) (offsets : list Z) : list Z :=
  match offsets with
  | [] => []
  | off :: offsets =>
      if in_range entropyData off then off :: valid_prefix entropyData offsets else []
  end.

Definition byte_at (entropyData : list byte) (off : Z) : byte :=
  default x00 (entropyData !! Z.to_nat off).

Lemma valid_prefix_le data offsets : (length (valid_prefix data offsets) <= length offsets)%nat.
Proof. induction offsets as [|off offsets IH]; cbn; [lia|]. destruct (in_range data off); cbn; lia. Qed.

Lemma valid_prefix_all data offsets :
  valid_prefix data offsets = offsets <-> Forall (fun off => 0 <= off < len data) offsets.
Proof.
  induction offsets as [|off offsets IH]; [done|]. cbn. rewrite Forall_cons, <- IH. unfold in_range.
  destruct (Z.leb_spec 0 off), (Z.ltb_spec off (len data)); cbn; (split; [|intros [? ?]]); try lia; try done.
  - by intros [= ->].
  - by f_equal.
Qed.

Lemma xor_byte_zero b : xor_byte x00 b = b.
Proof. unfold xor_byte. cbn. apply zb_bz. Qed.

Lemma mvk_loop_spec offsets data got :
  (length got + length offsets = 32)%nat ->
  let pre := valid_prefix data offsets in
  (mvk_loop (length got) offsets data (got ++ zeros (length offsets))).1 =
    got ++ map (byte_at data) pre ++ zeros (length offsets - length pre) /\
  ((mvk_loop (length got) offsets data (got ++ zeros (length offsets))).2 = None <-> pre = offsets).
Proof.
  revert got. induction offsets as [|off offsets IH]; intros got Hl; [done|].
  cbn [mvk_loop valid_prefix length zeros replicate]. unfold in_range.
  assert ((0 <=? off) && (off <? len data) = negb ((off <? 0) || (len data <=? off))) as -> by lia.
  destruct ((off <? 0) || (len data <=? off)); cbn [negb]; [by split|].
  rewrite list_lookup_middle by done. cbn [default from_option id].
  rewrite insert_app_r_alt, Nat.sub_diag by lia. cbn [list_insert insert]. rewrite xor_byte_zero.
  specialize (IH (got ++ [byte_at data off])). cbn [length] in Hl. rewrite length_app in IH.
  cbn [length] in IH. rewrite Nat.add_1_r, <- app_assoc in IH. destruct IH as [IH1 IH2]; [lia|].
  unfold zeros in *. split.
  - etransitivity; [exact IH1|]. cbn. by rewrite <- app_assoc.
  - etransitivity; [exact IH2|]. split; [by intros ->|by intros [=]].
Qed.

Lemma coordinate_offset_range buf n i :
  0 < n < 2 ^ 63 ->
  coordinate_offset buf n i = be_decode (take 4 (drop (i * 4) buf)) mod n /\
  0 <= coordinate_offset buf n i < n.
Proof.
  intros Hn. unfold coordinate_offset. set (v := be_decode _).
  assert (0 <= v < 2 ^ 32) as Hv.
  { pose proof (be_decode_range (take 4 (drop (i * 4) buf))) as H. fold v in H. unfold len in H.
    rewrite length_take in H. split; [lia|]. eapply Z.lt_le_trans; [apply H|].
    apply Z.pow_le_mono_r; lia. }
  unfold u64. rewrite !(Z.mod_small _ (2 ^ 64)) by lia. pose proof (Z.mod_pos_bound v n) as Hm.
  rewrite i64_small by lia. split; [done|lia].
Qed.

(** C27. The master key. [DeriveXORAsMVK] copies entropy bytes: with any 32
    offsets, byte [i] of the key is the byte at offset [i], up to the first
    offset out of range, which is an error and leaves the rest zero. The
    offsets of [DeriveCoordinateOffsets] for a non-empty file of the right
    size are never out of range: offset [i] is the [i]-th 32-bit word of the
    HKDF output modulo the size, which for the 2 MB entropy file is its low 21
    bits, so for such a file the master key is derived without error whenever
    HKDF succeeds. *)
Theorem master_key_derivation hkdf entropyData offsets argonHash :
  length offsets = 32%nat -> 0 < len entropyData < 2 ^ 63 ->
  let pre := valid_prefix entropyData offsets in
  (DeriveXORAsMVK entropyData offsets).1 = map (byte_at entropyData) pre ++ zeros (32 - length pre) /\
  ((DeriveXORAsMVK entropyData offsets).2 = None <-> Forall (fun off => 0 <= off < len entropyData) offsets) /\
  match DeriveCoordinateOffsets hkdf argonHash (len entropyData) with
  | Ret offs =>
      exists buf, hkdf argonHash [] (str_bytes "grimlocker-coordinates-v1") 128%nat = inr buf /\
      offs = map (fun i => be_decode (take 4 (drop (i * 4) buf)) mod len entropyData) (seq 0 32) /\
      DeriveXORAsMVK entropyData offs = (map (byte_at entropyData) offs, None) /\
      (len entropyData = 2 ^ 21 ->
       offs = map (fun i => Z.land (be_decode (take 4 (drop (i * 4) buf))) (Z.ones 21)) (seq 0 32))
  | Err _ => exists err, hkdf argonHash [] (str_bytes "grimlocker-coordinates-v1") 128%nat = inl err
  | Panic => False
  end.
Proof.
  intros Hl Hn pre. unfold DeriveXORAsMVK.
  assert (forall os, length os = 32%nat -> (mvk_loop 0 os entropyData (zeros 32)).1 =
    map (byte_at entropyData) (valid_prefix entropyData os) ++ zeros (32 - length (valid_prefix entropyData os)) /\
    ((mvk_loop 0 os entropyData (zeros 32)).2 = None <-> Forall (fun off => 0 <= off < len entropyData) os)) as Hmvk.
  { intros os Hos. destruct (mvk_loop_spec os entropyData []) as [H1 H2]; [done|].
    rewrite <- valid_prefix_all. by rewrite Hos in H1, H2. }
  destruct (Hmvk offsets Hl) as [H1 H2]. split; [done|]. split; [done|].
  unfold DeriveCoordinateOffsets. destruct (Z.leb_spec (len entropyData) 0); [lia|].
  destruct (hkdf argonHash [] _ 128%nat) as [err|buf] eqn:E; [by exists err|]. exists buf. split; [done|].
  set (offs := map (coordinate_offset buf (len entropyData)) (seq 0 32)).
  assert (offs = map (fun i => be_decode (take 4 (drop (i * 4) buf)) mod len entropyData) (seq 0 32)) as Ho.
  { apply map_ext. intros i. by apply coordinate_offset_range. }
  assert (Forall (fun off => 0 <= off < len entropyData) offs) as Hr.
  { apply Forall_map, Forall_forall. intros i _. by apply coordinate_offset_range. }
  assert (length offs = 32%nat) as Hlo by (unfold offs; by rewrite length_map, length_seq).
  clearbody offs. destruct (Hmvk offs Hlo) as [H3 H4]. split_and!; [done| |].
  - destruct (mvk_loop 0 offs entropyData (zeros 32)) as [m e]. cbn in H3, H4.
    apply H4 in Hr as He. subst e. apply valid_prefix_all in Hr.
    rewrite Hr, Hlo, Nat.sub_diag, app_nil_r in H3. by rewrite H3.
  - intros H21. rewrite Ho, H21. apply map_ext. intros i. by rewrite Z.land_ones.
Qed.

(** A stand-in for HKDF that reads at most 255 blocks of 32 bytes. *)
Definition sample_hkdf (secret salt info : list byte) (n : nat) : msg + list byte :=
  if decide (n <= 255 * 32)%nat
  then inr (map (fun i => zb (Z.of_nat (i * i) + bz (default x00 (secret !! 0%nat)))) (seq 0 n))
  else inl (Lit "hkdf: entropy limit reached").

Lemma master_key_derivation_witness :
  let data := map zb [10; 20; 30; 40; 50] in
  let offsets := [4; 0; 7] ++ replicate 29 1 in
  DeriveXORAsMVK data offsets =
    (map zb [50; 10] ++ zeros 30,
     Some (Sprintf "mvk: offset %d out of bounds (file size %d)" [AInt 7; AInt 5])) /\
  exists offs, DeriveCoordinateOffsets sample_hkdf [x01] 5 = Ret offs /\
    DeriveXORAsMVK data offs = (map (byte_at data) offs, None).
Proof.
  intros data offsets.
  assert (length offsets = 32%nat) as Hl by done.
  assert (0 < len data < 2 ^ 63) as Hd by by vm_compute.
  destruct (master_key_derivation sample_hkdf data offsets [x01] Hl Hd) as (H1 & _ & H3).
  split.
  - assert ((DeriveXORAsMVK data offsets).1 = map zb [50; 10] ++ zeros 30) as <- by (rewrite H1; by vm_compute).
    by vm_compute.
  - change (len data) with 5 in H3.
    destruct (DeriveCoordinateOffsets sample_hkdf [x01] 5) as [offs|e|] eqn:E; [|by vm_compute in E|done].
    exists offs. split; [done|]. by destruct H3 as (_ & _ & _ & H & _).
Defined.

(** ** Encryption *)

Section Cipher.
Context (New_cipher : list byte -> option msg).
Context (Seal : list byte -> list byte -> list byte -> list byte -> list byte).
Context (Open : list byte -> list byte -> list byte -> list byte -> option (list byte)).
(** A 32-byte key is accepted, and the cipher opens what it sealed. *)
Context (New_ok : forall key, len key = 32 -> New_cipher key = None).
Context (Open_Seal : forall key nonce pt aad, Open key nonce (Seal key nonce pt aad) aad = Some pt).

Lemma Encrypt_Decrypt key nonce plaintext aad :
  match Encrypt New_cipher Seal key nonce plaintext aad with
  | Ret c => len key = 32 /\ len nonce = 12 /\ Decrypt New_cipher Open key nonce c aad = Ret plaintext
  | Err _ => len key <> 32 \/ len nonce <> 12
  | Panic => False
  end.
Proof using New_ok Open_Seal.
  unfold Encrypt, Decrypt. destruct (Z.eqb_spec (len key) 32) as [Hk|Hk]; cbn [negb]; [|by left].
  destruct (Z.eqb_spec (len nonce) 12) as [Hn|Hn]; cbn [negb]; [|by right].
  rewrite New_ok by done. by rewrite Open_Seal.
Qed.
End Cipher.

(** ** Shredding and the entropy file ([shredder.go], [entropy.go]) *)

Definition shredPasses : nat := 7.
Definition shredBufSize : Z := 65536.
Definition totalSize : Z := 2 * 1024 * 1024.
Definition chunkSize : Z := 64 * 1024.

Section Files.
Context {W R : Type}.
(** The seekable writer, at its start after [Seek0], and [rand.Read]. *)
Context (Seek0 : W -> W * option msg) (Write : list byte -> W -> W * option msg).
Context (rand_Read : Z -> R -> R * (msg + list byte)).

(** [for remaining > 0 { ... }] *)
Fixpoint shred_pass (fuel : nat) (pass : nat) (remaining : Z) (w : W) (r : R)
    : option (W * R * option msg) :=
  if remaining <=? 0 then Some (w, r, None)
  else match fuel with
  | O => None
  | S fuel =>
      let chunk := if remaining <? shredBufSize then remaining else shredBufSize in
      match rand_Read chunk r with
      | (r, inl err) => Some (w, r, Some (Sprintf "shred pass %d rand: %w" [AInt (Z.of_nat pass); AMsg err]))
      | (r, inr buf) =>
          match Write buf w with
          | (w, Some err) => Some (w, r, Some (Sprintf "shred pass %d write: %w" [AInt (Z.of_nat pass); AMsg err]))
          | (w, None) => shred_pass fuel pass (remaining - chunk) w r
          end
      end
  end.

(** [for pass := 0; pass < n; pass++], the last [k] of them. *)
Fixpoint shred_loop (n k : nat) (fileSize : Z) (w : W) (r : R) : option (W * R * option msg) :=
  match k with
  | O => Some (w, r, None)
  | S k' =>
      let pass := (n - k)%nat in
      match Seek0 w with
      | (w, Some err) => Some (w, r, Some (Sprintf "shred pass %d seek: %w" [AInt (Z.of_nat pass); AMsg err]))
      | (w, None) =>
          match shred_pass (Z.to_nat fileSize) pass fileSize w r with
          | Some (w, r, None) => shred_loop n k' fileSize w r
          | stop => stop
          end
      end
  end.

Definition Shred (w : W) (fileSize : Z) (r : R) : option (W * R * option msg) :=
  shred_loop shredPasses shredPasses fileSize w r.

(** The loop that fills the entropy file, with the calls of [progressFn]: the
    bytes written so far, of which the percentage and the message are made. *)
Fixpoint entropy_loop (fuel : nat) (written : Z) (w : W) (r : R) (progress : list Z)
    : option (W * R * list Z * option msg) :=
  if totalSize <=? written then Some (w, r, progress, None)
  else match fuel with
  | O => None
  | S fuel =>
      match rand_Read chunkSize r with
      | (r, inl err) => Some (w, r, progress, Some (Sprintf "read entropy: %w" [AMsg err]))
      | (r, inr buf) =>
          let toWrite := if chunkSize <? totalSize - written then chunkSize else totalSize - written in
          match Write (take (Z.to_nat toWrite) buf) w with
          | (w, Some err) => Some (w, r, progress, Some (Sprintf "write entropy: %w" [AMsg err]))
          | (w, None) =>
              let written := written + toWrite in
              entropy_loop fuel written w r (progress ++ [written])
          end
      end
  end.

(** [OpenFile] gives the empty file or an error, [Sync] an error or nil. *)
Definition GenerateEntropyFileWithProgress (OpenFile : msg + W) (Sync : W -> option msg) (r : R)
    : option (option W * R * list Z * option msg) :=
  match OpenFile with
  | inl err => Some (None, r, [], Some (Sprintf "open entropy file: %w" [AMsg err]))
  | inr w =>
      match entropy_loop 32 0 w r [] with
      | Some (w, r, progress, None) =>
          Some (Some w, r, progress, (fun err => Sprintf "sync entropy file: %w" [AMsg err]) <$> Sync w)
      | Some (w, r, progress, err) => Some (Some w, r, progress, err)
      | None => None
      end
  end.

(** Both terminate: every chunk takes at least one byte. *)
Lemma shred_pass_total pass fuel remaining w r :
  (Z.to_nat remaining <= fuel)%nat -> is_Some (shred_pass fuel pass remaining w r).
Proof.
  revert remaining w r. induction fuel as [|fuel IH]; intros remaining w r Hf; cbn;
    destruct (Z.leb_spec remaining 0); try by eexists. { lia. }
  set (chunk := if remaining <? shredBufSize then remaining else shredBufSize).
  destruct (rand_Read chunk r) as [r1 [err|buf]]; [by eexists|].
  destruct (Write buf w) as [w1 [err|]]; [by eexists|]. apply IH.
  assert (1 <= chunk) by (unfold chunk, shredBufSize; case_match; lia). lia.
Qed.

Lemma Shred_total w fileSize r : is_Some (Shred w fileSize r).
Proof.
  unfold Shred. generalize shredPasses at 2. intros k. revert w r.
  induction k as [|k IH]; intros w r; cbn [shred_loop]; [by eexists|].
  destruct (Seek0 w) as [w1 [err|]]; [by eexists|].
  destruct (shred_pass_total (shredPasses - S k) (Z.to_nat fileSize) fileSize w1 r (le_n _))
    as [[[w2 r2] [err|]] ->]; [by eexists|apply IH].
Qed.

Lemma entropy_loop_total fuel written w r progress :
  totalSize - written <= Z.of_nat fuel * chunkSize -> is_Some (entropy_loop fuel written w r progress).
Proof.
  revert written w r progress. induction fuel as [|fuel IH]; intros written w r progress Hf; cbn [entropy_loop];
    destruct (Z.leb_spec totalSize written); try by eexists. { lia. }
  destruct (rand_Read chunkSize r) as [r1 [err|buf]]; [by eexists|].
  set (n := if _ <? _ then _ else _). destruct (Write _ w) as [w1 [err|]]; [by eexists|].
  apply IH. unfold n. destruct (Z.ltb_spec chunkSize (totalSize - written)); unfold chunkSize in *; lia.
Qed.
End Files.

(** ** A file in memory: its bytes and the position of the next write. *)

Section MemoryFile.
Context (stream : nat -> byte).

Abbreviation file := (list byte * nat)%type.
Definition file_Seek0 (f : file) : file * option msg := ((f.1, 0%nat), None).
Definition file_Write (b : list byte) (f : file) : file * option msg :=
  ((splice f.2 b f.1, f.2 + length b)%nat, None).
(** The random bytes drawn so far are counted. *)
Definition draw (k n : nat) : list byte := map stream (seq k n).
Definition stream_Read (n : Z) (k : nat) : nat * (msg + list byte) :=
  ((k + Z.to_nat n)%nat, inr (draw k (Z.to_nat n))).

Lemma length_draw k n : length (draw k n) = n.
Proof using Type. unfold draw. by rewrite length_map, length_seq. Qed.
Lemma draw_app k m n : draw k m ++ draw (k + m) n = draw k (m + n).
Proof using Type. unfold draw. by rewrite seq_app, map_app. Qed.

Lemma splice_splice off (a b c : list byte) :
  (off <= length c)%nat -> splice (off + length a) b (splice off a c) = splice off (a ++ b) c.
Proof using Type.
  intros Ho. unfold splice. rewrite length_app, Nat.add_assoc.
  rewrite take_app_ge, drop_app_ge by (rewrite length_take; lia). rewrite !length_take.
  replace (off + length a - off `min` length c)%nat with (length a) by lia.
  replace (off + length a + length b - off `min` length c)%nat with (length a + length b)%nat by lia.
  rewrite take_app_length, drop_app_add, drop_drop. by rewrite <- !app_assoc.
Qed.

Lemma shred_pass_file pass fuel n c pos k :
  (n <= fuel)%nat -> (pos <= length c)%nat ->
  shred_pass file_Write stream_Read fuel pass (Z.of_nat n) (c, pos) k =
  Some (splice pos (draw k n) c, (pos + n)%nat, (k + n)%nat, None).
Proof using Type.
  revert n c pos k. induction fuel as [|fuel IH]; intros n c pos k Hf Hp; cbn [shred_pass];
    destruct (Z.leb_spec (Z.of_nat n) 0); try lia.
  1, 2: replace n with 0%nat by lia; unfold splice; cbn; rewrite !Nat.add_0_r, take_drop; done.
  set (chunk := if _ <? _ then _ else _).
  assert (1 <= chunk <= Z.of_nat n) as Hc by (unfold chunk, shredBufSize; case_match; lia).
  cbn [stream_Read file_Write fst snd].
  replace (Z.of_nat n - chunk) with (Z.of_nat (n - Z.to_nat chunk)) by lia.
  rewrite length_draw, IH by (unfold splice; rewrite ?length_app, ?length_take, ?length_drop, ?length_draw; lia).
  rewrite <- (length_draw k (Z.to_nat chunk)) at 1. rewrite splice_splice, draw_app by done.
  assert (Z.to_nat chunk + (n - Z.to_nat chunk) = n)%nat as E by lia. by rewrite <- !Nat.add_assoc, E.
Qed.

(** Shredding a file of [n] bytes or more: seven passes over its first [n]
    bytes, which end as the last pass's draws; what is past them stays. *)
Lemma Shred_overwrites c pos n k :
  (n <= length c)%nat ->
  Shred file_Seek0 file_Write stream_Read (c, pos) (Z.of_nat n) k =
  Some (draw (k + 6 * n) n ++ drop n c, n, (k + 7 * n)%nat, None).
Proof using Type.
  intros Hn. unfold Shred, shredPasses. cbn [shred_loop file_Seek0 fst].
  assert (forall pass c' k', length c' = length c -> drop n c' = drop n c ->
    shred_pass file_Write stream_Read (Z.to_nat (Z.of_nat n)) pass (Z.of_nat n) (c', 0%nat) k' =
    Some (draw k' n ++ drop n c, n, (k' + n)%nat, None)) as Hp.
  { intros pass c' k' Hl Hd. rewrite shred_pass_file by lia. unfold splice. cbn [take app Nat.add].
    by rewrite length_draw, Hd. }
  assert (forall k', length (draw k' n ++ drop n c) = length c) as Hl
    by (intros k'; rewrite length_app, length_draw, length_drop; lia).
  assert (forall k', drop n (draw k' n ++ drop n c) = drop n c) as Hd
    by (intros k'; by rewrite drop_app_length' by by rewrite length_draw).
  do 7 (rewrite Hp by first [done|apply Hl|apply Hd]; cbn [fst]).
  replace (k + 6 * n)%nat with (k + n + n + n + n + n + n)%nat by lia.
  by replace (k + 7 * n)%nat with (k + n + n + n + n + n + n + n)%nat by lia.
Qed.

Lemma entropy_loop_file k fuel n progress :
  (fuel + n = 32)%nat ->
  entropy_loop file_Write stream_Read fuel (Z.of_nat n * chunkSize)
    (draw k (n * Z.to_nat chunkSize), (n * Z.to_nat chunkSize)%nat) (k + n * Z.to_nat chunkSize)%nat progress =
  Some (draw k (Z.to_nat totalSize), Z.to_nat totalSize, (k + Z.to_nat totalSize)%nat,
    progress ++ map (fun i => Z.of_nat (S i) * chunkSize) (seq n fuel), None).
Proof using Type.
  assert (totalSize = 32 * chunkSize) as Ht by done. assert (0 < chunkSize) as Hc by done.
  assert (Z.to_nat totalSize = 32 * Z.to_nat chunkSize)%nat as Htn by (rewrite Ht; lia).
  revert n progress. induction fuel as [|fuel IH]; intros n progress Hn; cbn [entropy_loop].
  { cbn in Hn. subst n. rewrite Htn, Ht, app_nil_r. by destruct (Z.leb_spec (32 * chunkSize) (Z.of_nat 32 * chunkSize)); [|lia]. }
  destruct (Z.leb_spec totalSize (Z.of_nat n * chunkSize)); [nia|].
  set (toWrite := if _ <? _ then _ else _).
  assert (toWrite = chunkSize) as -> by (unfold toWrite; case_match; nia).
  unfold stream_Read at 1, file_Write at 1. cbn [fst snd]. cbn [seq map].
  rewrite take_ge by (rewrite length_draw; lia). rewrite length_draw.
  assert (splice (n * Z.to_nat chunkSize) (draw (k + n * Z.to_nat chunkSize) (Z.to_nat chunkSize))
    (draw k (n * Z.to_nat chunkSize)) = draw k (S n * Z.to_nat chunkSize)) as ->.
  { unfold splice. rewrite take_ge, drop_ge by (rewrite !length_draw; lia).
    rewrite app_nil_r, draw_app. f_equal. lia. }
  replace (Z.of_nat n * chunkSize + chunkSize) with (Z.of_nat (S n) * chunkSize) by lia.
  replace (n * Z.to_nat chunkSize + Z.to_nat chunkSize)%nat with (S n * Z.to_nat chunkSize)%nat by lia.
  replace (k + n * Z.to_nat chunkSize + Z.to_nat chunkSize)%nat with (k + S n * Z.to_nat chunkSize)%nat by lia.
  rewrite IH by lia. by rewrite <- app_assoc.
Qed.

(** The entropy file has 2 MB of fresh bytes, written in 32 steps. *)
Lemma entropy_file_exact k :
  GenerateEntropyFileWithProgress file_Write stream_Read (inr ([], 0%nat)) (fun _ => None) k =
  Some (Some (draw k (Z.to_nat totalSize), Z.to_nat totalSize), (k + Z.to_nat totalSize)%nat,
        map (fun i => Z.of_nat (S i) * chunkSize) (seq 0 32), None).
Proof using Type.
  unfold GenerateEntropyFileWithProgress. pose proof (entropy_loop_file k 32 0 [] eq_refl) as H.
  cbn [Nat.mul] in H. rewrite Nat.add_0_r in H. change (Z.of_nat 0 * chunkSize) with 0 in H.
  change (draw k 0) with (@nil byte) in H. rewrite H. reflexivity.
Qed.
End MemoryFile.

Lemma entropy_file_total {W R} (Write : list byte -> W -> W * option msg) (rand_Read : Z -> R -> R * (msg + list byte)) open Sync r :
  is_Some (GenerateEntropyFileWithProgress Write rand_Read open Sync r).
Proof.
  unfold GenerateEntropyFileWithProgress. destruct open as [err|w]; [by eexists|].
  destruct (entropy_loop_total Write rand_Read 32 0 w r []) as [[[[w' r'] progress] [err|]] ->]; [done|by eexists..].
Qed.

(** C28. Writing files ends, and writes every byte. With any writer and any
    source of random bytes, failing or not, [Shred] and the generator of the
    entropy file return. When no call fails, shredding a file of [n] bytes or
    more leaves the draws of the seventh pass in its first [n] bytes and the
    rest as it was, and the entropy file is 2 MiB of fresh bytes, each drawn
    once, reported in 32 steps of 64 KiB. *)
Theorem file_writers_end {W R} Seek0 Write rand_Read open Sync (w : W) (r : R) fileSize stream c pos n k :
  (n <= length c)%nat ->
  is_Some (Shred Seek0 Write rand_Read w fileSize r) /\
  is_Some (GenerateEntropyFileWithProgress Write rand_Read open Sync r) /\
  Shred file_Seek0 file_Write (stream_Read stream) (c, pos) (Z.of_nat n) k =
    Some (draw stream (k + 6 * n) n ++ drop n c, n, (k + 7 * n)%nat, None) /\
  GenerateEntropyFileWithProgress file_Write (stream_Read stream) (inr ([], 0%nat)) (fun _ => None) k =
    Some (Some (draw stream k (Z.to_nat totalSize), Z.to_nat totalSize), (k + Z.to_nat totalSize)%nat,
          map (fun i => Z.of_nat (S i) * chunkSize) (seq 0 32), None).
Proof.
  intros Hn. split_and!; [apply Shred_total|apply entropy_file_total|by apply Shred_overwrites|apply entropy_file_exact].
Qed.

(** A writer that always fails, and a file of three bytes of which two are shredded. *)
Lemma file_writers_end_witness :
  is_Some (Shred (W := unit) (R := unit) (fun w => (w, None)) (fun _ w => (w, Some (Lit "disk full")))
    (fun _ r => (r, inr [])) tt 5 tt) /\
  Shred file_Seek0 file_Write (stream_Read (fun i => zb (Z.of_nat i))) ([x01; x02; x03], 0%nat) 2 100%nat =
    Some ([zb 112; zb 113; x03], 2%nat, 114%nat, None).
Proof.
  assert (2 <= length [x01; x02; x03])%nat as Hn by (cbn; lia).
  destruct (file_writers_end (W := unit) (R := unit) (fun w => (w, None)) (fun _ w => (w, Some (Lit "disk full")))
    (fun _ r => (r, inr [])) (inr tt) (fun _ => None) tt tt 5 (fun i => zb (Z.of_nat i)) [x01; x02; x03] 0 2 100 Hn)
    as (H1 & _ & H3 & _).
  split; [exact H1|]. change 2 with (Z.of_nat 2). rewrite H3. by vm_compute.
Defined.
