(* ===== verification/Bridge.v ===== *)
(** * The bridge to the enclave and the crypto provider ([engine/bridge],
    [engine/crypto/provider.go], [chacha.go])

    The enclave's interface is a class; [DefaultBridge] is its instance in pure
    Go, and the provider is a client of whatever bridge it was built with. The
    state [B] is what the bridge keeps; a method takes and returns it, and a
    buffer that a method overwrites is returned too. *)

From S2P Require Import Prelude GoStd Json Base64 Memory Crypto.

(** ** The interface ([interface.go]) *)

Class RustBridge (B : Type) := {
  InitCore : B -> B * option msg;
  ShutdownCore : B -> B;
  SecureZero : list byte -> B -> B * list byte;
  DeriveCoordinate : list byte -> list Z -> B -> B * res msg (list byte);
  DeriveWorkspaceKey : list byte -> string -> B -> B * res msg (list byte);
  MVKStore : list byte -> B -> B * (string * option msg);
  MVKRevoke : string -> B -> B;
  EncryptHandle : string -> list byte -> list byte -> B -> B * (list byte * option msg);
  DecryptHandle : string -> list byte -> list byte -> B -> B * (list byte * option msg);
  GenerateEntropyFile : string -> Z -> B -> B * option msg
}.

(** What its comments promise of two of them: [SecureZero] overwrites the
    buffer with zeros, and what is encrypted under the handle of a stored key
    decrypts under it. *)
Class RustBridgeLaws (B : Type) `{RustBridge B} := {
  zero_law b s : (SecureZero b s).2 = zeros (length b);
  handle_law mvk s s1 h plaintext aad s2 c :
    MVKStore mvk s = (s1, (h, None)) -> EncryptHandle h plaintext aad s1 = (s2, (c, None)) ->
    (DecryptHandle h c aad s2).2 = (plaintext, None)
}.

Section Default.
(** As in [Crypto]: HKDF and SHA-256. *)
Context (hkdf : list byte -> list byte -> list byte -> nat -> msg + list byte).
Context (sha256 : list byte -> list byte).

(** [DefaultBridge{}] has no state. A nil slice is the empty list. *)
Definition DefaultBridge : RustBridge unit := {|
  InitCore s := (s, None);
  ShutdownCore s := s;
  SecureZero b s := (s, GoSecureZero b);
  DeriveCoordinate entropyData offsets s := (s, GoDeriveCoordinate hkdf sha256 entropyData offsets);
  DeriveWorkspaceKey masterKey workspaceID s := (s, GoDeriveWorkspaceKey hkdf masterKey workspaceID);
  MVKStore mvk s := (s, (EmptyString, None));
  MVKRevoke handle s := s;
  EncryptHandle handle plaintext aad s := (s, ([], None));
  DecryptHandle handle ciphertext aad s := (s, ([], None));
  GenerateEntropyFile path lineCount s := (s, None)
|}.

(** It keeps the first promise and breaks the second: a plaintext survives
    exactly when it is empty, although no call fails. *)
Lemma DefaultBridge_zero b s : (@SecureZero unit DefaultBridge b s).2 = zeros (length b).
Proof. apply zero_loop_zeros. Qed.

Lemma DefaultBridge_handles mvk plaintext aad s :
  let '(s1, (h, e1)) := @MVKStore unit DefaultBridge mvk s in
  let '(s2, (c, e2)) := @EncryptHandle unit DefaultBridge h plaintext aad s1 in
  e1 = None /\ e2 = None /\
  ((@DecryptHandle unit DefaultBridge h c aad s2).2 = (plaintext, None) <-> plaintext = []).
Proof. cbn. repeat split; [by intros [=]|by intros ->]. Qed.
End Default.

(** ** The helpers ([rustbridge_helpers.go]) *)

(** The loop over the offsets; [i] counts the ones before. *)
Fixpoint offsets_loop (i : nat) (offsets : list Z) (buf : list byte) : list byte :=
  match offsets with
  | [] => buf
  | o :: offsets =>
      let buf := if decide (0 < i)%nat then buf ++ [c_comma] else buf in
      offsets_loop (S i) offsets (buf ++ decimal o)
  end.

Definition EncodeOffsetsJSON (offsets : list Z) : string :=
  bytes_str (offsets_loop 0 offsets [c_lbracket] ++ [c_rbracket]).

Definition Base64Encode (data : list byte) : string := EncodeToString data.
Definition Base64Decode (s : string) : list byte * option msg := DecodeString s.

(** ** The provider ([provider.go], [chacha.go]) *)

Record provider (B : Type) := mkProvider { rb : B }.
Arguments mkProvider {B} _.
Arguments rb {B} _.

Definition New {B} (b : B) : provider B := mkProvider b.

Section Provider.
Context {B : Type} `{RustBridge B}.

Definition Bridge (p : provider B) : B := rb p.

(** A delegated call, and the provider it leaves. *)
Definition provider_SecureZero (b : list byte) (p : provider B) : provider B * list byte :=
  let '(s, b) := SecureZero b (rb p) in (mkProvider s, b).
Definition provider_DeriveCoordinate (entropyData : list byte) (offsets : list Z) (p : provider B)
    : provider B * res msg (list byte) :=
  let '(s, key) := DeriveCoordinate entropyData offsets (rb p) in (mkProvider s, key).
Definition provider_DeriveWorkspaceKey (masterKey : list byte) (workspaceID : string) (p : provider B)
    : provider B * res msg (list byte) :=
  let '(s, key) := DeriveWorkspaceKey masterKey workspaceID (rb p) in (mkProvider s, key).
End Provider.

Section Nonce.
Context {R : Type} (rand_Read : Z -> R -> R * (msg + list byte)).

(** [rand.Read(nonce[:])] fills the array or fails. *)
Definition NewNonce (r : R) : R * res msg (list byte) :=
  match rand_Read 12 r with
  | (r, inl err) => (r, Err (Sprintf "nonce: %w" [AMsg err]))
  | (r, inr nonce) => (r, Ret nonce)
  end.
End Nonce.

(** ** Lemmas *)

(** The first offset out of range, if there is one. *)
Definition first_bad (entropyData : list byte) (offsets : list Z) : option Z :=
  head (drop (length (valid_prefix entropyData offsets)) offsets).

Lemma first_bad_None data offsets :
  first_bad data offsets = None <-> Forall (fun off => 0 <= off < len data) offsets.
Proof.
  rewrite <- valid_prefix_all. unfold first_bad. split.
  - intros H. assert (length offsets <= length (valid_prefix data offsets))%nat as Hl.
    { destruct (drop _ offsets) eqn:E; [|done]. apply (f_equal length) in E. rewrite length_drop in E. cbn in E. lia. }
    clear H. induction offsets as [|off offsets IH]; [done|]. cbn in *. destruct (in_range data off); cbn in *; [|lia].
    f_equal. apply IH. lia.
  - intros ->. by rewrite drop_ge by done.
Qed.

Lemma extract_loop_spec data offsets got :
  extract_loop (length got) offsets data (got ++ zeros (length offsets)) =
  match first_bad data offsets with
  | None => Ret (got ++ map (byte_at data) offsets)
  | Some off => Err (Sprintf "coordinate: offset %d out of range" [AInt off])
  end.
Proof.
  revert got. induction offsets as [|off offsets IH]; intros got; [done|].
  unfold first_bad in *. cbn [extract_loop valid_prefix length zeros replicate]. unfold in_range.
  assert ((0 <=? off) && (off <? len data) = negb ((off <? 0) || (len data <=? off))) as -> by lia.
  destruct ((off <? 0) || (len data <=? off)); cbn [negb length drop]; [done|].
  rewrite insert_app_r_alt, Nat.sub_diag by lia. cbn [list_insert insert].
  specialize (IH (got ++ [byte_at data off])). rewrite length_app, <- app_assoc, Nat.add_1_r in IH.
  unfold zeros in *. etransitivity; [exact IH|]. by rewrite <- app_assoc.
Qed.

Lemma offsets_loop_joined offsets i buf :
  offsets_loop i offsets buf =
  buf ++ match offsets with
         | [] => []
         | _ => (if decide (0 < i)%nat then [c_comma] else []) ++ joined (map decimal offsets)
         end.
Proof.
  revert i buf. induction offsets as [|o offsets IH]; intros i buf; cbn [offsets_loop map]; [by rewrite app_nil_r|].
  rewrite IH, joined_cons. destruct (decide (0 < S i)%nat); [|lia].
  case_decide; rewrite <- !app_assoc; by destruct offsets.
Qed.

Lemma EncodeOffsetsJSON_print offsets :
  str_bytes (EncodeOffsetsJSON offsets) = print (JArr (map JNum offsets)).
Proof.
  unfold EncodeOffsetsJSON. rewrite str_bytes_str, offsets_loop_joined. cbn [print].
  rewrite map_map. by destruct offsets.
Qed.

Lemma joined_decimals_bound offsets :
  Forall (fun o => - 2 ^ 63 <= o < 2 ^ 63) offsets ->
  Z.of_nat (sum_list_with (fun p => S (length p)) (map decimal offsets)) <= 21 * len offsets.
Proof.
  induction 1 as [|o offsets Ho _ IH]; [done|]. cbn [map sum_list_with].
  pose proof (decimal_bound o Ho) as Hd. unfold len in *. cbn [length]. lia.
Qed.

Lemma omap_JNum zs : omap (fun j => as_num (Some j)) (map JNum zs) = zs.
Proof. induction zs as [|z zs IH]; [done|]. cbn in *. by rewrite IH. Qed.

(** ** Theorems *)

(** Offsets over the bridge. The text of [EncodeOffsetsJSON] is JSON: a
    reader gets back the array of the offsets, each exact, so two lists of
    offsets never share a text. For 64-bit offsets it is at most 21 bytes per
    offset and the brackets long. *)
Theorem EncodeOffsetsJSON_roundtrip offsets :
  parse (str_bytes (EncodeOffsetsJSON offsets)) = Some (JArr (map JNum offsets)) /\
  (forall offsets', EncodeOffsetsJSON offsets' = EncodeOffsetsJSON offsets -> offsets' = offsets) /\
  (Forall (fun o => - 2 ^ 63 <= o < 2 ^ 63) offsets -> slen (EncodeOffsetsJSON offsets) <= 21 * len offsets + 2).
Proof.
  assert (forall os, parse (str_bytes (EncodeOffsetsJSON os)) = Some (JArr (map JNum os))) as Hp.
  { intros os. rewrite EncodeOffsetsJSON_print, parse_print. cbn [norm]. by rewrite map_map. }
  split_and!; [apply Hp| |].
  - intros os E. pose proof (Hp os) as H1. rewrite E, Hp in H1. injection H1 as H1.
    apply (f_equal (omap (fun j => as_num (Some j)))) in H1. by rewrite !omap_JNum in H1.
  - intros HF. pose proof (joined_decimals_bound offsets HF) as Hb.
    unfold slen. rewrite <- length_str_bytes, EncodeOffsetsJSON_print. cbn [print]. rewrite map_map.
    rewrite !length_app. change (map (fun x => print (JNum x)) offsets) with (map decimal offsets).
    pose proof (joined_length (map decimal offsets)) as Hj. destruct offsets; cbn [map length] in *; lia.
Qed.

(** Base64 over the bridge. [Base64Decode] gets back the data from the text
    [Base64Encode] wrote, and from that text with line breaks inserted
    anywhere. The text has four characters for every three bytes begun, all of
    the standard alphabet or padding. *)
Theorem Base64_roundtrip data s :
  unbroken (str_bytes s) = unbroken (str_bytes (Base64Encode data)) ->
  Base64Decode s = (data, None) /\
  slen (Base64Encode data) = 4 * ((len data + 2) / 3) /\
  Forall (fun c => c ∈ pad :: alphabet) (str_bytes (Base64Encode data)).
Proof.
  unfold Base64Decode, Base64Encode, DecodeString, EncodeToString. rewrite str_bytes_str. intros Hs.
  split_and!; [|unfold slen; rewrite length_bytes_str; apply length_encode|apply encode_characters].
  assert (unbroken (encode data) = encode data) as E.
  { apply filter_all. eapply Forall_impl; [apply encode_characters|]. intros c Hc.
    assert (Forall (fun c => newline c = false) (pad :: alphabet)) as HF by (apply (bool_decide_unpack _); by vm_compute).
    by eapply Forall_forall in HF. }
  rewrite E in Hs. rewrite (decode_unbroken _ 0 0 [] data); [done|]. by rewrite Hs, decode_encode.
Qed.

Lemma Base64_roundtrip_witness :
  Base64Decode (bytes_str (str_bytes "TW" ++ [zb 13; zb 10] ++ str_bytes "FuTQ==")) = (map zb [77; 97; 110; 77], None) /\
  Base64Encode (map zb [77; 97; 110; 77]) = "TWFuTQ=="%string.
Proof.
  split; [|by vm_compute].
  apply (Base64_roundtrip (map zb [77; 97; 110; 77])). by vm_compute.
Defined.

(** The fallback bridge is no enclave. [DefaultBridge] zeroes buffers as the
    interface promises, but it does not meet the interface: storing a key
    succeeds with the empty handle, encrypting succeeds with no ciphertext and
    decrypting succeeds with no plaintext, so every plaintext but the empty one
    is lost without an error. *)
Theorem DefaultBridge_loses_data hkdf sha256 :
  let D := DefaultBridge hkdf sha256 in
  (forall b s, (@SecureZero unit D b s).2 = zeros (length b)) /\
  (forall mvk plaintext aad s, exists h s1 c s2,
     @MVKStore unit D mvk s = (s1, (h, None)) /\ @EncryptHandle unit D h plaintext aad s1 = (s2, (c, None)) /\
     ((@DecryptHandle unit D h c aad s2).2 = (plaintext, None) <-> plaintext = [])) /\
  ~ inhabited (@RustBridgeLaws unit D).
Proof.
  intros D. split_and!; [apply DefaultBridge_zero| |].
  - intros mvk plaintext aad s. exists EmptyString, s, [], s. split_and!; [done..|].
    exact (proj2 (proj2 (DefaultBridge_handles hkdf sha256 mvk plaintext aad s))).
  - intros [[_ H]]. by specialize (H [] tt tt EmptyString [x00] [] tt [] eq_refl eq_refl).
Qed.

(** The coordinate key. A provider over the fallback bridge derives, from
    offsets that are all inside the entropy data, the 32 bytes HKDF makes of
    the SHA-256 of the bytes at those offsets in order, and nothing else of the
    data matters; otherwise the error names the first offset outside. It never
    panics. The offsets [DeriveCoordinateOffsets] computes for that data are
    all inside, so such a derivation fails only if HKDF does. *)
Theorem coordinate_key hkdf sha256 entropyData offsets argonHash :
  0 < len entropyData < 2 ^ 63 ->
  let p := New tt in
  let derive os := (@provider_DeriveCoordinate unit (DefaultBridge hkdf sha256) entropyData os p).2 in
  let expand os := hkdf (sha256 (map (byte_at entropyData) os)) [] (str_bytes "grimlocker-coordinate-salt-v1") 32%nat in
  let key os := match expand os with
                | inl err => Err (Sprintf "coordinate: hkdf: %w" [AMsg err])
                | inr k => Ret k
                end in
  derive offsets =
    match first_bad entropyData offsets with
    | Some off => Err (Sprintf "coordinate: offset %d out of range" [AInt off])
    | None => key offsets
    end /\
  (first_bad entropyData offsets = None <-> Forall (fun off => 0 <= off < len entropyData) offsets) /\
  match DeriveCoordinateOffsets hkdf argonHash (len entropyData) with
  | Ret os => length os = 32%nat /\ derive os = key os
  | _ => True
  end.
Proof.
  intros Hn p derive expand key.
  assert (forall os, derive os = match first_bad entropyData os with
    | Some off => Err (Sprintf "coordinate: offset %d out of range" [AInt off])
    | None => key os end) as Hd.
  { intros os. unfold derive, key, expand. cbn. unfold GoDeriveCoordinate.
    pose proof (extract_loop_spec entropyData os []) as H. cbn [app length] in H. rewrite H.
    by destruct (first_bad entropyData os). }
  split_and!; [apply Hd|apply first_bad_None|].
  unfold DeriveCoordinateOffsets. destruct (Z.leb_spec (len entropyData) 0); [lia|].
  destruct (hkdf argonHash [] _ 128%nat) as [err|buf]; [done|].
  split; [by rewrite length_map, length_seq|]. rewrite Hd.
  assert (first_bad entropyData (map (coordinate_offset buf (len entropyData)) (seq 0 32)) = None) as ->; [|done].
  apply first_bad_None, Forall_map, Forall_forall. intros i _. by apply coordinate_offset_range.
Qed.

Lemma coordinate_key_witness :
  let data := map zb [10; 20; 30; 40; 50] in
  let derive os := (@provider_DeriveCoordinate unit (DefaultBridge sample_hkdf (fun b => b)) data os (New tt)).2 in
  derive [1; 7; 9] = Err (Sprintf "coordinate: offset %d out of range" [AInt 7]) /\
  match DeriveCoordinateOffsets sample_hkdf [x01] 5 with
  | Ret os => length os = 32%nat
  | _ => False
  end.
Proof.
  intros data derive. assert (0 < len data < 2 ^ 63) as Hd by by vm_compute.
  destruct (coordinate_key sample_hkdf (fun b => b) data [1; 7; 9] [x01] Hd) as (H1 & _ & H3).
  split; [exact H1|]. change (len data) with 5 in H3.
  destruct (DeriveCoordinateOffsets sample_hkdf [x01] 5) as [os|e|] eqn:E; [by destruct H3|by vm_compute in E..].
Defined.

(** ** Encrypting under a workspace key *)

(** Workspace encryption. With a provider over the fallback bridge, a
    derived workspace key and a fresh nonce always have the lengths [Encrypt]
    wants, so encrypting under them succeeds and decrypting under the same key,
    nonce and additional data gives the plaintext back; only HKDF or the random
    source can stop it, and neither call panics. [Encrypt] itself refuses
    exactly the keys that are not 32 bytes and the nonces that are not 12. It
    relies on HKDF and [rand.Read] filling what they are asked to fill, and on
    the cipher taking 32-byte keys and opening what it sealed. *)
Theorem workspace_encryption {R} hkdf sha256 (rand_Read : Z -> R -> R * (msg + list byte)) New_cipher Seal Open
    (Hkdf : forall secret salt info n k, hkdf secret salt info n = inr k -> length k = n)
    (Hrand : forall n r r' b, rand_Read n r = (r', inr b) -> len b = n)
    (Hnew : forall key, len key = 32 -> New_cipher key = None)
    (Hopen : forall key nonce pt aad, Open key nonce (Seal key nonce pt aad) aad = Some pt)
    mk ws r key nonce plaintext aad :
  let D := DefaultBridge hkdf sha256 in
  match (@provider_DeriveWorkspaceKey unit D mk ws (New tt)).2, (NewNonce rand_Read r).2 with
  | Ret wk, Ret fresh => exists c, Encrypt New_cipher Seal wk fresh plaintext aad = Ret c /\
      Decrypt New_cipher Open wk fresh c aad = Ret plaintext
  | Err e, _ => exists err, e = Sprintf "workspace key: hkdf: %w" [AMsg err]
  | Ret _, Err e => exists err, e = Sprintf "nonce: %w" [AMsg err]
  | _, _ => False
  end /\
  ((exists c, Encrypt New_cipher Seal key nonce plaintext aad = Ret c) <-> len key = 32 /\ len nonce = 12).
Proof.
  intros D.
  assert (forall k n, len k = 32 -> len n = 12 -> exists c, Encrypt New_cipher Seal k n plaintext aad = Ret c /\
      Decrypt New_cipher Open k n c aad = Ret plaintext) as Hok.
  { intros k n Hk Hn. pose proof (Encrypt_Decrypt New_cipher Seal Open Hnew Hopen k n plaintext aad) as H.
    destruct (Encrypt New_cipher Seal k n plaintext aad) as [c|e|]; [|by destruct H|done].
    exists c. by destruct H as (_ & _ & ?). }
  split.
  - cbn. unfold GoDeriveWorkspaceKey, NewNonce. destruct (hkdf mk [] _ 32%nat) as [err|wk] eqn:Ek; [by exists err|].
    destruct (rand_Read 12 r) as [r' [err|n]] eqn:En; cbn; [by exists err|].
    apply Hok; [unfold len; by rewrite (Hkdf _ _ _ _ _ Ek)|by eapply Hrand].
  - split; [|intros [Hk Hn]; destruct (Hok key nonce Hk Hn) as (c & ? & _); by exists c].
    intros [c Hc]. pose proof (Encrypt_Decrypt New_cipher Seal Open Hnew Hopen key nonce plaintext aad) as H.
    rewrite Hc in H. by destruct H as (? & ? & _).
Qed.

(** A cipher that writes the key, the nonce and the additional data before the
    plaintext and wants them back, and a source of random bytes that counts. *)
Definition sample_Seal (key nonce plaintext aad : list byte) : list byte := key ++ nonce ++ aad ++ plaintext.
Definition sample_Open (key nonce ciphertext aad : list byte) : option (list byte) :=
  strip (key ++ nonce ++ aad) ciphertext.
Definition sample_Read (n : Z) (r : Z) : Z * (msg + list byte) :=
  if n <? 0 then (r, inl (Lit "negative")) else (r + n, inr (map (fun i => zb (r + Z.of_nat i)) (seq 0 (Z.to_nat n)))).

Lemma strip_app p l : strip p (p ++ l) = Some l.
Proof. induction p as [|a p IH]; [done|]. cbn [app]. by rewrite strip_cons. Qed.

Lemma sample_laws :
  (forall secret salt info n k, sample_hkdf secret salt info n = inr k -> length k = n) /\
  (forall n r r' b, sample_Read n r = (r', inr b) -> len b = n) /\
  (forall key nonce pt aad, sample_Open key nonce (sample_Seal key nonce pt aad) aad = Some pt).
Proof.
  split_and!.
  - intros secret salt info n k. unfold sample_hkdf. case_decide; [|done]. intros [= <-]. by rewrite length_map, length_seq.
  - intros n r r' b. unfold sample_Read. destruct (Z.ltb_spec n 0); [done|]. intros [= _ <-].
    unfold len. rewrite length_map, length_seq. lia.
  - intros key nonce pt aad. unfold sample_Open, sample_Seal. rewrite !app_assoc. apply strip_app.
Qed.

Lemma workspace_encryption_witness :
  match (@provider_DeriveWorkspaceKey unit (DefaultBridge sample_hkdf (fun b => b)) [x01] "ws" (New tt)).2,
        (NewNonce sample_Read 7).2 with
  | Ret wk, Ret fresh => exists c, Encrypt (fun _ => None) sample_Seal wk fresh [x05] [] = Ret c /\
      Decrypt (fun _ => None) sample_Open wk fresh c [] = Ret [x05]
  | _, _ => False
  end.
Proof.
  destruct sample_laws as (Hk & Hr & Ho).
  destruct (workspace_encryption sample_hkdf (fun b => b) sample_Read (fun _ => None) sample_Seal sample_Open
    Hk Hr (fun _ _ => eq_refl) Ho [x01] "ws" 7 [] [] [x05] []) as [H _].
  exact H.
Defined.
