(* ===== verification/Provider.v ===== *)
(** * The crypto provider's interface ([engine/crypto/interface.go])

    [Provider] as a class with what its comments promise, the provider of
    [provider.go] as its instance over any bridge that keeps the promises made
    for it, and the path from a password to an encrypted block as a client of
    the interface. *)

From S2P Require Import Prelude GoStd Memory Crypto Bridge.

(** ** The interface *)

(** [P] is what an implementation keeps, [R] the random source, [F] the file
    system. *)
Class Provider (P R F : Type) := {
  cp_Encrypt : list byte -> list byte -> list byte -> list byte -> res msg (list byte);
  cp_Decrypt : list byte -> list byte -> list byte -> list byte -> res msg (list byte);
  cp_NewNonce : R -> R * res msg (list byte);
  cp_DeriveArgon2id : list byte -> KDFOptions -> res msg (list byte);
  cp_DeriveHKDF : list byte -> list byte -> list byte -> Z -> res msg (list byte);
  cp_DeriveCoordinate : list byte -> list Z -> P -> P * res msg (list byte);
  cp_DeriveCoordinateOffsets : list byte -> Z -> res msg (list Z);
  cp_DeriveXORAsMVK : list byte -> list Z -> list byte * option msg;
  cp_HMACKey : list byte -> list byte;
  cp_SecureZero : list byte -> P -> P * list byte;
  (** The file left behind, the progress reported, and an error or nil. *)
  cp_GenerateEntropyFileWithProgress : F -> R -> option (option F * R * list Z * option msg);
  cp_DeriveWorkspaceKey : list byte -> string -> P -> P * res msg (list byte)
}.

Class ProviderLaws (P R F : Type) `{Provider P R F} := {
  encrypt_law key nonce pt aad :
    len key = 32 -> len nonce = 12 ->
    exists c, cp_Encrypt key nonce pt aad = Ret c /\ cp_Decrypt key nonce c aad = Ret pt;
  encrypt_refuses key nonce pt aad :
    len key <> 32 \/ len nonce <> 12 ->
    (exists e, cp_Encrypt key nonce pt aad = Err e) /\ exists e, cp_Decrypt key nonce pt aad = Err e;
  nonce_law r r' n : cp_NewNonce r = (r', Ret n) -> len n = 12;
  offsets_law h size os :
    0 < size < 2 ^ 63 -> cp_DeriveCoordinateOffsets h size = Ret os ->
    length os = 32%nat /\ Forall (fun off => 0 <= off < size) os;
  mvk_law data os :
    length os = 32%nat -> Forall (fun off => 0 <= off < len data) os -> 0 < len data < 2 ^ 63 ->
    exists k, cp_DeriveXORAsMVK data os = (k, None) /\ len k = 32;
  hmac_law mvk : len (cp_HMACKey mvk) = 32;
  securezero_law b p : (cp_SecureZero b p).2 = zeros (length b);
  workspace_law mk ws p k : (cp_DeriveWorkspaceKey mk ws p).2 = Ret k -> len k = 32
}.

(** ** From a password to a block *)

Section Client.
Context {P R F : Type} `{ProviderLaws P R F}.

(** From a password to a block, over any provider that keeps the interface's
    promises. The offsets derived from a password hash for an entropy file are
    always suitable for [DeriveXORAsMVK] on that file: it gives a 32-byte key
    without an error, and what is encrypted under that key and a fresh nonce
    decrypts to the same plaintext with the same additional data. *)
Theorem password_to_block password opts entropy hash offsets r r' nonce plaintext aad :
  0 < len entropy < 2 ^ 63 ->
  cp_DeriveArgon2id password opts = Ret hash ->
  cp_DeriveCoordinateOffsets hash (len entropy) = Ret offsets ->
  cp_NewNonce r = (r', Ret nonce) ->
  exists key, cp_DeriveXORAsMVK entropy offsets = (key, None) /\ len key = 32 /\
    exists c, cp_Encrypt key nonce plaintext aad = Ret c /\ cp_Decrypt key nonce c aad = Ret plaintext.
Proof using All.
  intros Hn _ Ho Hr. destruct (offsets_law _ _ _ Hn Ho) as [Hl Hin].
  destruct (mvk_law _ _ Hl Hin Hn) as (key & Hk & Hlen). exists key. split; [done|]. split; [done|].
  apply encrypt_law; [done|]. by eapply nonce_law.
Qed.
End Client.

(** ** The provider of [provider.go] *)

Section Instance_.
Context (hkdf : list byte -> list byte -> list byte -> nat -> msg + list byte).
Context (hmac_sha256 : list byte -> list byte -> list byte).
Context (IDKey : list byte -> list byte -> Z -> Z -> Z -> Z -> list byte).
Context (New_cipher : list byte -> option msg).
Context (Seal : list byte -> list byte -> list byte -> list byte -> list byte).
Context (Open : list byte -> list byte -> list byte -> list byte -> option (list byte)).
Context {B R W : Type} `{RustBridge B}.
Context (rand_Read : Z -> R -> R * (msg + list byte)).
Context (Write : list byte -> W -> W * option msg) (OpenFile : W -> msg + W) (Sync : W -> option msg).

#[export] Instance provider_Provider : Provider (provider B) R W := {|
  cp_Encrypt := Encrypt New_cipher Seal;
  cp_Decrypt := Decrypt New_cipher Open;
  cp_NewNonce := NewNonce rand_Read;
  cp_DeriveArgon2id := DeriveArgon2id IDKey;
  cp_DeriveHKDF := DeriveHKDF hkdf;
  cp_DeriveCoordinate := provider_DeriveCoordinate;
  cp_DeriveCoordinateOffsets := DeriveCoordinateOffsets hkdf;
  cp_DeriveXORAsMVK := DeriveXORAsMVK;
  cp_HMACKey := HMACKey hmac_sha256;
  cp_SecureZero := provider_SecureZero;
  cp_GenerateEntropyFileWithProgress w := GenerateEntropyFileWithProgress Write rand_Read (OpenFile w) Sync;
  cp_DeriveWorkspaceKey := provider_DeriveWorkspaceKey
|}.

(** What it relies on: the cipher, the random source and the bridge. *)
Context (New_ok : forall key, len key = 32 -> New_cipher key = None).
Context (Open_Seal : forall key nonce pt aad, Open key nonce (Seal key nonce pt aad) aad = Some pt).
Context (Read_fills : forall n r r' b, rand_Read n r = (r', inr b) -> len b = n).
Context (hmac_length : forall key m, length (hmac_sha256 key m) = 32%nat).
Context (bridge_zero : forall b s, (SecureZero b s).2 = zeros (length b)).
Context (bridge_workspace : forall mk ws s k, (DeriveWorkspaceKey mk ws s).2 = Ret k -> len k = 32).

#[export] Instance provider_ProviderLaws : ProviderLaws (provider B) R W.
Proof using New_ok Open_Seal Read_fills hmac_length bridge_zero bridge_workspace.
  split; cbn.
  - intros key nonce pt aad Hk Hn. pose proof (Encrypt_Decrypt New_cipher Seal Open New_ok Open_Seal key nonce pt aad) as Hd.
    destruct (Encrypt New_cipher Seal key nonce pt aad) as [c|e|]; [|lia|done]. exists c. by destruct Hd as (_ & _ & ?).
  - intros key nonce pt aad Hkn. unfold Encrypt, Decrypt.
    destruct (Z.eqb_spec (len key) 32), (Z.eqb_spec (len nonce) 12); cbn; (split; eexists; reflexivity) || lia.
  - intros r r' n. unfold NewNonce. destruct (rand_Read 12 r) as [r1 [e|b]] eqn:E; [done|].
    intros [= _ <-]. by eapply Read_fills.
  - intros h size os Hn. unfold DeriveCoordinateOffsets. destruct (size <=? 0); [done|].
    destruct (hkdf h [] _ 128%nat) as [e|buf]; [done|]. intros <-%Ret_inj. rewrite length_map, length_seq. split; [done|].
    apply Forall_map, Forall_forall. intros i _. by apply coordinate_offset_range.
  - intros data os Hl Hr _. destruct (mvk_loop_spec os data []) as [H1 H2]; [done|]. cbn in H1, H2.
    rewrite Hl in H1, H2. fold (DeriveXORAsMVK data os) in H1, H2. apply valid_prefix_all in Hr. apply H2 in Hr as He.
    destruct (DeriveXORAsMVK data os) as [k e]. cbn in H1, He. subst e. exists k. split; [done|].
    rewrite Hr, Hl, app_nil_r in H1. subst k. unfold len. by rewrite length_map, Hl.
  - intros mvk. unfold HMACKey. rewrite take_ge by (by rewrite hmac_length).
    unfold splice, len. by rewrite !length_app, length_drop, hmac_length.
  - intros b [s]. unfold provider_SecureZero. cbn. specialize (bridge_zero b s). by destruct (SecureZero b s).
  - intros mk ws [s] k. unfold provider_DeriveWorkspaceKey. cbn. specialize (bridge_workspace mk ws s k).
    by destruct (DeriveWorkspaceKey mk ws s).
Qed.
End Instance_.

(** ** Example: the provider over the Go bridge *)

Definition sample_provider : Provider (provider unit) Z unit :=
  @provider_Provider sample_hkdf (fun key m => take 32 (key ++ m ++ zeros 32)) (fun pw salt _ _ _ _ => pw ++ salt)
    (fun _ => None) sample_Seal sample_Open unit Z unit (DefaultBridge sample_hkdf (fun b => b)) sample_Read
    (fun _ w => (w, None)) inr (fun _ => None).

Lemma sample_provider_laws : @ProviderLaws (provider unit) Z unit sample_provider.
Proof.
  destruct sample_laws as (Hk & Hr & Ho). apply provider_ProviderLaws; try done.
  - intros key m. rewrite length_take, !length_app, length_zeros. lia.
  - intros b s. apply DefaultBridge_zero.
  - intros mk ws s k. cbn. unfold GoDeriveWorkspaceKey. destruct (sample_hkdf mk [] _ 32%nat) eqn:E; [done|].
    intros [= <-]. unfold len. by rewrite (Hk _ _ _ _ _ E).
Qed.

Lemma password_to_block_witness :
  let entropy := map zb [10; 20; 30; 40; 50] in
  exists offsets, DeriveCoordinateOffsets sample_hkdf (map zb [1; 2; 7]) 5 = Ret offsets /\
    exists key, DeriveXORAsMVK entropy offsets = (key, None) /\ len key = 32 /\
      exists c, Encrypt (fun _ => None) sample_Seal key (map zb [0; 1; 2; 3; 4; 5; 6; 7; 8; 9; 10; 11]) [x05] [] = Ret c.
Proof.
  intros entropy.
  destruct (DeriveCoordinateOffsets sample_hkdf (map zb [1; 2; 7]) 5) as [offsets|e|] eqn:E; [|by vm_compute in E..].
  exists offsets. split; [done|].
  destruct (password_to_block (H0 := sample_provider_laws) (map zb [1; 2]) (mkKDF 0 0 0 0 (map zb [7])) entropy (map zb [1; 2; 7]) offsets 0 12
    (map zb [0; 1; 2; 3; 4; 5; 6; 7; 8; 9; 10; 11]) [x05] []) as (key & Hk & Hl & c & Hc & _).
  - by vm_compute.
  - by vm_compute.
  - exact E.
  - by vm_compute.
  - exists key. split; [exact Hk|]. split; [exact Hl|]. exists c. exact Hc.
Defined.
