(* ===== verification/Tier.v ===== *)
(** * The tier interfaces ([engine/provider/interfaces.go])

    The interfaces a deployment tier implements, as classes over the
    interfaces of the other packages. The repository holds no implementation.
    Where a comment says what an implementation does (key material is
    delegated to the security module, the storage adapter is among the kernel
    modules) it is a law, and what follows for the daemon's start-up and for
    keys is proved for every tier that keeps it. *)

From S2P Require Import Prelude GoStd Errors Memory SecretStores Lockdown AuditLog Event Bus Kernel Registry Session.
From S2P Require Import Interfaces Storage Provider.

(** ** Authentication *)

(** [D] is the dispatcher, [L] the lockdown manager, [G] the audit log. The
    handler works on the objects it is given: here they are arguments. *)
Class AuthProvider (A D L G : Type) `{Dispatcher D} `{LockdownManager L} `{AuditLog G} := {
  ap_HandleUnlockEvent : A -> D -> SessionContext -> (list byte -> string -> unit) -> Handler;
  ap_StoreMVK : list byte -> rand -> A -> res error (A * string);
  ap_RetrieveMVK : string -> A -> option (list byte);
  ap_RevokeMVK : string -> A -> A;
  ap_Lockdown : A -> L;
  ap_AuditLog : A -> G;
  ap_Tier : A -> string
}.

(** [K] is the security module's key store. *)
Class AuthProviderLaws (A D L G K : Type) `{AuthProvider A D L G} `{MVKStoreLaws K} := {
  ap_keys : A -> K;
  StoreMVK_delegates key rnd a :
    match ap_StoreMVK key rnd a with
    | Ret (a', h) => ms_Store key rnd (ap_keys a) = Ret (ap_keys a', h)
    | Err e => ms_Store key rnd (ap_keys a) = Err e
    | Panic => ms_Store key rnd (ap_keys a) = Panic
    end;
  RetrieveMVK_delegates h a : ap_RetrieveMVK h a = ms_Retrieve h (ap_keys a);
  RevokeMVK_delegates h a : ap_keys (ap_RevokeMVK h a) = ms_Revoke h (ap_keys a)
}.

Class IdentityProvider (I : Type) := {
  ip_Protocol : I -> string;
  ip_Validate : list byte -> I -> error + string
}.

Class UserAuthenticator (U : Type) := {
  ua_Authenticate : list byte -> U -> error + string;
  ua_CreateIdentity : string -> list byte -> U -> U * option error;
  ua_RevokeIdentity : string -> U -> U * option error;
  ua_ListIdentities : U -> error + list string
}.

(** ** Audit records *)

Record AuditEntry := mkAuditEntry {
  ae_Timestamp : Z;
  ae_Level : string;
  ae_Module : string;
  ae_Message : string;
  ae_Details : gmap string string
}.

Class AuditLogger (G : Type) := {
  ag_Log : string -> string -> string -> gmap string string -> G -> G;
  ag_Query : string -> string -> Z -> G -> list AuditEntry;
  ag_Flush : G -> G * option error
}.

(** ** Storage and the vault *)

(** Embeds [BlockStore]. *)
Class StorageProvider (S E : Type) `{BlockStore S E} := {
  sp_SetMVKFunc : (unit -> list byte) -> S -> S;
  sp_LoadIndex : S -> S * option E;
  sp_KernelModule : S -> Module (Handler := Handler)
}.

Class VaultProvider (V A D L G S E P R F : Type) `{AuthProvider A D L G} `{StorageProvider S E} `{Provider P R F} := {
  vp_Auth : V -> A;
  vp_Storage : V -> S;
  vp_Crypto : V -> P;
  vp_Tier : V -> string;
  vp_KernelModules : V -> list (Module (Handler := Handler))
}.

(** "security, crypto, storage adapter — in registration order" *)
Class VaultProviderLaws (V A D L G S E P R F : Type) `{VaultProvider V A D L G S E P R F} := {
  modules_end_in_storage v : exists ms, vp_KernelModules v = ms ++ [sp_KernelModule (vp_Storage v)];
  modules_distinct v : NoDup (Bus.m_ID <$> vp_KernelModules v)
}.

(** ** What holds for every tier *)

Section Auth.
Context {A D L G K : Type} `{AuthProviderLaws A D L G K}.

(** Keys of a tier. Whatever tier authenticates, a key stored through it is
    retrieved under the handle returned, other handles keep what they had,
    and a revoked handle retrieves nothing while the others stay. *)
Theorem tier_keys key rnd a a' h :
  ms_ok (ap_keys a) -> ap_StoreMVK key rnd a = Ret (a', h) ->
  ap_RetrieveMVK h a' = Some key /\
  (forall h', h' <> h -> ap_RetrieveMVK h' a' = ap_RetrieveMVK h' a) /\
  ap_RetrieveMVK h (ap_RevokeMVK h a') = None /\
  (forall h', h' <> h -> ap_RetrieveMVK h' (ap_RevokeMVK h a') = ap_RetrieveMVK h' a).
Proof using All.
  intros Ha E. pose proof (StoreMVK_delegates key rnd a) as Hd. rewrite E in Hd.
  destruct (Store_keys _ _ _ _ _ Ha Hd) as [Ha' Hk]. destruct (Revoke_keys h _ Ha') as [Ha'' Hr].
  rewrite <- (RevokeMVK_delegates h a') in Ha'', Hr.
  assert (forall x y, ms_ok (ap_keys y) -> ap_RetrieveMVK x y = ms_keys (ap_keys y) !! x) as Hget.
  { intros x y Hy. rewrite RetrieveMVK_delegates. by apply Retrieve_keys. }
  split_and!.
  - by rewrite Hget, Hk, lookup_insert_eq.
  - intros h' Hne. by rewrite !Hget, Hk, lookup_insert_ne.
  - by rewrite Hget, Hr, lookup_delete_eq.
  - intros h' Hne. by rewrite !Hget, Hr, lookup_delete_ne, Hk, lookup_insert_ne.
Qed.
End Auth.

Section Vault.
Context {V A D L G S E P R F : Type} `{VaultProviderLaws V A D L G S E P R F}.
Context {DL : DispatcherLaws D}.

(** A tier starts up. Over any dispatcher with nothing registered, adding
    the modules of any tier to a registry registers every one of them, in the
    order the tier lists them, without an error; the storage adapter is among
    them, and under its ID the dispatcher knows it. *)
Theorem tier_registers v (d : D) :
  (forall id, registered d id = None) ->
  let r := add_all (vp_KernelModules v) (NewRegistry d) in
  Modules r = vp_KernelModules v /\
  (forall m, m ∈ vp_KernelModules v -> registered (reg_bus r) (Bus.m_ID m) = Some m) /\
  registered (reg_bus r) (Bus.m_ID (sp_KernelModule (vp_Storage v))) = Some (sp_KernelModule (vp_Storage v)).
Proof using All.
  intros Hd r. pose proof (add_all_ok (vp_KernelModules v) _ (NewRegistry_ok d Hd)) as [_ Hb]. fold r in Hb.
  assert (started r = vp_KernelModules v) as Es by (apply add_all_distinct; [done|apply modules_distinct]).
  assert (forall m, m ∈ vp_KernelModules v -> registered (reg_bus r) (Bus.m_ID m) = Some m) as Hin
    by (intros m Hm; apply Hb; by rewrite Es).
  split; [exact Es|]. split; [exact Hin|]. apply Hin.
  destruct (modules_end_in_storage v) as [ms ->]. apply elem_of_app. right. by left.
Qed.
End Vault.

(** ** Example: a tier made of the engine's own parts *)

Definition example_store : SecretStores.state := (∅, NewLockedMVKStore).
#[local] Instance example_MVKStore : Interfaces.MVKStore SecretStores.state :=
  locked_MVKStore (G := goMemoryGuard) 0 [] map_to_list.
#[local] Instance example_MVKStoreLaws : MVKStoreLaws SecretStores.state :=
  locked_MVKStoreLaws (G := goMemoryGuard) 0 [] map_to_list (fun t => Permutation_refl _).
#[local] Instance example_AuditLog : AuditLog ringAuditLog := ring_AuditLog (fun _ => zeros 32).
#[local] Instance example_Dispatcher : Dispatcher (Bus.world (Handler := Handler)) := world_Dispatcher ascii_ToUpper.
#[local] Instance example_DispatcherLaws : DispatcherLaws (Bus.world (Handler := Handler)) :=
  world_DispatcherLaws ascii_ToUpper.

#[local] Instance example_Auth :
  AuthProvider SecretStores.state (Bus.world (Handler := Handler)) lockdownManager ringAuditLog := {|
  ap_HandleUnlockEvent _ _ _ _ := panicky;
  ap_StoreMVK := MVK_Store (G := goMemoryGuard) 0 [];
  ap_RetrieveMVK h st := MVK_Retrieve h st ≫= (st.1 !!.);
  ap_RevokeMVK := MVK_Revoke (G := goMemoryGuard);
  ap_Lockdown _ := NewLockdownManager (mkConfig 3 4 200 false);
  ap_AuditLog _ := NewAuditLog 16;
  ap_Tier _ := "local-argon2id"%string
|}.

#[local] Instance example_AuthLaws :
  AuthProviderLaws SecretStores.state (Bus.world (Handler := Handler)) lockdownManager ringAuditLog SecretStores.state.
Proof.
  refine {| ap_keys := id |}; [|done|done].
  intros key rnd a. cbn. by destruct (MVK_Store 0 [] key rnd a) as [[a' h]|e|].
Defined.

Lemma tier_keys_witness :
  exists a', ap_StoreMVK [x01; x02] (inr [x0a]) example_store = Ret (a', "0a"%string) /\
    ap_RetrieveMVK "0a" a' = Some [x01; x02] /\ ap_RetrieveMVK "0a" (ap_RevokeMVK "0a" a') = None.
Proof.
  destruct (ap_StoreMVK [x01; x02] (inr [x0a]) example_store) as [[a' h]|e|] eqn:E; [|by vm_compute in E..].
  exists a'. assert (h = "0a"%string) as -> by (vm_compute in E; by injection E as _ <-).
  destruct (tier_keys [x01; x02] (inr [x0a]) example_store a' "0a") as (H1 & _ & H2 & _).
  - exact (ex_intro _ ∅ (table_ok_empty ∅)).
  - exact E.
  - split; [done|]. split; [exact H1|exact H2].
Defined.

#[local] Instance example_Storage : StorageProvider (gmap string Block) string := {|
  sp_SetMVKFunc _ s := s;
  sp_LoadIndex s := (s, None);
  sp_KernelModule _ := mkModule "storage" ["STORAGE"]%string panicky
|}.
#[local] Existing Instance sample_provider.

#[local] Instance example_Vault :
  VaultProvider unit SecretStores.state (Bus.world (Handler := Handler)) lockdownManager ringAuditLog
    (gmap string Block) string (Bridge.provider unit) Z unit := {|
  vp_Auth _ := example_store;
  vp_Storage _ := ∅;
  vp_Crypto _ := Bridge.New tt;
  vp_Tier _ := "single"%string;
  vp_KernelModules _ := [mkModule "security" ["AUTH"]%string panicky; mkModule "storage" ["STORAGE"]%string panicky]
|}.

#[local] Instance example_VaultLaws :
  VaultProviderLaws unit SecretStores.state (Bus.world (Handler := Handler)) lockdownManager ringAuditLog
    (gmap string Block) string (Bridge.provider unit) Z unit.
Proof.
  split.
  - intros []. by exists [mkModule "security" ["AUTH"]%string panicky].
  - intros []. by apply (bool_decide_unpack _); vm_compute.
Qed.

Lemma tier_registers_witness :
  let r := add_all (vp_KernelModules tt) (NewRegistry (Bus.init ascii_ToUpper ["STORAGE"]%string)) in
  (Bus.m_ID <$> Modules r) = ["security"; "storage"]%string /\
  registered (reg_bus r) "storage" = Some (mkModule "storage" ["STORAGE"]%string panicky).
Proof.
  intros r. destruct (tier_registers tt (Bus.init ascii_ToUpper ["STORAGE"]%string) (fun _ => lookup_empty _)) as (H1 & _ & H2).
  fold r in H1, H2. split; [by rewrite H1|exact H2].
Defined.
