(* ===== verification/Tools.v ===== *)
(** * The SSH key tool ([engine/tools/ssh_gen.go])

    The passphrase generator, and the Ed25519 key pair with its
    [authorized_keys] line. Key generation, the encodings of
    golang.org/x/crypto/ssh and PEM are parameters. *)

From S2P Require Import Prelude GoStd Json.

(** ** The passphrase generator *)

Definition chars : list byte :=
  str_bytes "ABCDEFGHIJKLMNOPQRSTUVWXYZabcdefghijklmnopqrstuvwxyz0123456789!@#$%^&*()-_=+".

(** [b[i] = chars[int(b[i])%len(chars)]] *)
Definition pick (b : byte) : byte := default x00 (chars !! Z.to_nat (bz b mod len chars)).

Section Passphrase.
Context {R : Type} (rand_Read : Z -> R -> R * (msg + list byte)).

(** [make([]byte, length)] panics when [length] is negative. *)
Definition generateSecurePassphrase (length : Z) (r : R) : R * res msg string :=
  if length <? 0 then (r, Panic)
  else match rand_Read length r with
       | (r, inl err) => (r, Err (Sprintf "passphrase: %w" [AMsg err]))
       | (r, inr b) => (r, Ret (bytes_str (map pick b)))
       end.
End Passphrase.

(** ** Key pairs *)

Record SSHKeyPair := mkSSHKeyPair {
  kp_PublicKey : string;
  kp_PrivateKeyPEM : list byte;
  kp_Fingerprint : string;
  kp_Comment : string;
  kp_EntryID : string
}.

(** [json.Marshal] of a key pair: the private key has the tag [-]. *)
Definition keypair_json (k : SSHKeyPair) : json := JObj (
  [("public_key"%string, JStr (kp_PublicKey k)); ("fingerprint"%string, JStr (kp_Fingerprint k));
   ("comment"%string, JStr (kp_Comment k))]
  ++ opt_str "entry_id" (kp_EntryID k)).

Definition newline : byte := zb 10.

Section KeyPair.
Context {R Pub Priv SshPub Block : Type}.
(** [ed25519.GenerateKey(rand.Reader)] and [ssh.NewPublicKey] *)
Context (GenerateKey : R -> R * (msg + Pub * Priv)) (NewPublicKey : Pub -> msg + SshPub).
Context (MarshalAuthorizedKey : SshPub -> list byte) (FingerprintSHA256 : SshPub -> string).
(** [ssh.MarshalPrivateKey] and the variant with a passphrase draw from
    [rand.Reader]; [pem.EncodeToMemory]. *)
Context (MarshalPrivateKey : Priv -> string -> R -> R * (msg + Block)).
Context (MarshalPrivateKeyWithPassphrase : Priv -> string -> list byte -> R -> R * (msg + Block)).
Context (EncodeToMemory : Block -> list byte).

Definition marshalEd25519PrivateKey (key : Priv) (comment : string) (r : R) : R * res msg (list byte) :=
  match MarshalPrivateKey key comment r with
  | (r, inl err) => (r, Err (Sprintf "MarshalPrivateKey: %w" [AMsg err]))
  | (r, inr pemBlock) => (r, Ret (EncodeToMemory pemBlock))
  end.

Definition marshalEd25519PrivateKeyWithPassphrase (key : Priv) (comment passphrase : string) (r : R)
    : R * res msg (list byte) :=
  match MarshalPrivateKeyWithPassphrase key comment (str_bytes passphrase) r with
  | (r, inl err) => (r, Err (Sprintf "MarshalPrivateKeyWithPassphrase: %w" [AMsg err]))
  | (r, inr pemBlock) => (r, Ret (EncodeToMemory pemBlock))
  end.

(** The public line: with a comment, a final newline is stripped and the
    comment and a newline are appended. *)
Definition public_line (pubLine : list byte) (comment : string) : list byte :=
  if is_empty comment then pubLine
  else
    let pubLine :=
      if decide (last pubLine = Some newline) then take (length pubLine - 1) pubLine else pubLine in
    pubLine ++ str_bytes " " ++ str_bytes comment ++ [newline].

Definition GenerateEd25519Pair (comment passphrase : string) (r : R) : R * res msg SSHKeyPair :=
  match GenerateKey r with
  | (r, inl err) => (r, Err (Sprintf "generate Ed25519 key: %w" [AMsg err]))
  | (r, inr (pubKey, privKey)) =>
      match NewPublicKey pubKey with
      | inl err => (r, Err (Sprintf "marshal SSH public key: %w" [AMsg err]))
      | inr sshPub =>
          let pubLine := public_line (MarshalAuthorizedKey sshPub) comment in
          let fingerprint := FingerprintSHA256 sshPub in
          let '(r, privPEM) :=
            if is_empty passphrase then marshalEd25519PrivateKey privKey comment r
            else marshalEd25519PrivateKeyWithPassphrase privKey comment passphrase r in
          (r, match privPEM with
              | Err err => Err (Sprintf "marshal private key: %w" [AMsg err])
              | Panic => Panic
              | Ret privPEM => Ret (mkSSHKeyPair (bytes_str pubLine) privPEM fingerprint comment EmptyString)
              end)
      end
  end.
End KeyPair.

(** ** Lemmas *)

(** The bytes that give the [i]-th character. *)
Definition preimages (c : byte) : list byte := filter (fun b => pick b = c) (zb <$> seqZ 0 256).

Lemma pick_alphabet b : pick b ∈ chars.
Proof.
  unfold pick. pose proof (Z.mod_pos_bound (bz b) (len chars) ltac:(by vm_compute)) as H.
  set (i := Z.to_nat _). assert (i < length chars)%nat as Hi by (unfold i, len in *; lia).
  destruct (lookup_lt_is_Some_2 _ _ Hi) as [c Hc]. rewrite Hc. by eapply list_elem_of_lookup_2.
Qed.

(** All the draws of [rand.Read] that give a passphrase. *)
Fixpoint draws_of (passphrase : list byte) : list (list byte) :=
  match passphrase with
  | [] => [[]]
  | c :: passphrase => preimages c ≫= (fun b => cons b <$> draws_of passphrase)
  end.
Definition draws (passphrase : string) : list (list byte) := draws_of (str_bytes passphrase).

(** How many of its characters are among the first 28. *)
Definition favours (c : byte) : bool := bool_decide (c ∈ take 28 chars).
Definition favoured (l : list byte) : nat := length (filter (fun c => favours c = true) l).

Lemma elem_of_preimages b c : b ∈ preimages c <-> pick b = c.
Proof.
  unfold preimages. rewrite list_elem_of_filter. split; [by intros []|]. intros E. split; [done|].
  apply list_elem_of_fmap. exists (bz b). split; [by rewrite zb_bz|]. apply elem_of_seqZ. pose proof (bz_range b). lia.
Qed.

Lemma NoDup_preimages c : NoDup (preimages c).
Proof.
  apply NoDup_filter. apply (bool_decide_unpack (NoDup (zb <$> seqZ 0 256))). by vm_compute.
Qed.

Lemma elem_of_draws b l : b ∈ draws_of l <-> map pick b = l.
Proof.
  revert b. induction l as [|c l IH]; intros b; cbn [draws_of].
  { rewrite list_elem_of_singleton. by destruct b. }
  rewrite list_elem_of_bind. split.
  - intros (x & (b' & -> & Hb)%list_elem_of_fmap & Hx). cbn. f_equal; [by apply elem_of_preimages|by apply IH].
  - destruct b as [|x b]; [done|]. intros [= Hx Hb]. exists x. split; [|by apply elem_of_preimages].
    apply list_elem_of_fmap. exists b. split; [done|by apply IH].
Qed.

Lemma NoDup_draws l : NoDup (draws_of l).
Proof.
  induction l as [|c l IH]; [apply NoDup_singleton|]. cbn [draws_of].
  apply NoDup_bind; [|intros b _; by apply (NoDup_fmap_2 (cons b))|apply NoDup_preimages].
  intros x y b _ _ (? & -> & _)%list_elem_of_fmap (? & [= ? _] & _)%list_elem_of_fmap. done.
Qed.

Lemma preimages_favours c :
  c ∈ chars -> length (preimages c) = (if favours c then 4 else 3)%nat.
Proof.
  intros Hc. assert (Forall (fun c => length (preimages c) = (if favours c then 4 else 3)%nat) chars) as HF
    by (apply (bool_decide_unpack _); by vm_compute).
  by eapply Forall_forall in HF.
Qed.

Lemma length_bind_const {A B} (f : A -> list B) (n : nat) l :
  (forall x, length (f x) = n) -> length (l ≫= f) = (length l * n)%nat.
Proof. intros Hf. induction l as [|x l IH]; [done|]. cbn. rewrite length_app, Hf. f_equal. exact IH. Qed.

Lemma length_draws l :
  Forall (fun c => c ∈ chars) l ->
  length (draws_of l) = (4 ^ favoured l * 3 ^ (length l - favoured l))%nat.
Proof.
  induction 1 as [|c l Hc _ IH]; [done|]. cbn [draws_of].
  rewrite (length_bind_const _ (length (draws_of l))) by (intros; apply length_fmap).
  rewrite IH, preimages_favours by done. unfold favoured. rewrite filter_cons.
  pose proof (length_filter (fun c => favours c = true) l) as Hle. destruct (favours c); cbn [length].
  - rewrite decide_True by done. cbn [length]. rewrite Nat.sub_succ, Nat.pow_succ_r'. lia.
  - rewrite decide_False by done. rewrite Nat.sub_succ_l, Nat.pow_succ_r' by done. lia.
Qed.

Definition count_newlines (l : list byte) : nat := length (filter (fun b => b = newline) l).

Lemma count_newlines_app a b : count_newlines (a ++ b) = (count_newlines a + count_newlines b)%nat.
Proof. unfold count_newlines. by rewrite filter_app, length_app. Qed.

Lemma count_newlines_none l : newline ∉ l -> count_newlines l = 0%nat.
Proof.
  unfold count_newlines. induction l as [|c l IH]; [done|]. intros [Hc Hl]%not_elem_of_cons.
  rewrite filter_cons_False by (intros E; by rewrite E in Hc). by apply IH.
Qed.

Lemma public_line_base base comment :
  public_line (base ++ [newline]) comment =
  base ++ (if is_empty comment then [] else str_bytes " " ++ str_bytes comment) ++ [newline].
Proof.
  unfold public_line. destruct (is_empty comment); [done|]. rewrite last_snoc, decide_True by done.
  rewrite length_app, Nat.add_sub, take_app_length. by rewrite <- !app_assoc.
Qed.

(** ** Theorems *)

(** Passphrases are not uniform. For a length that is not negative the
    generator gives that many characters of its alphabet, or the error of the
    random source; a negative length panics. The characters are bytes modulo
    76, and 256 is not a multiple of 76: of the equally likely draws, 4^k 3^(n-k)
    give a passphrase of n characters of which k are among the first 28, [A] to
    [b]. The most likely passphrases are (4/3)^n times as likely as the least. *)
Theorem passphrase_draws {R} (rand_Read : Z -> R -> R * (msg + list byte)) length_ r passphrase :
  match (generateSecurePassphrase rand_Read length_ r).2 with
  | Panic => length_ < 0
  | Err e => 0 <= length_ /\ exists err, (rand_Read length_ r).2 = inl err /\ e = Sprintf "passphrase: %w" [AMsg err]
  | Ret s => 0 <= length_ /\ Forall (fun c => c ∈ chars) (str_bytes s) /\
      exists b, (rand_Read length_ r).2 = inr b /\ slen s = len b /\ b ∈ draws s
  end /\
  (forall b, b ∈ draws passphrase <-> map pick b = str_bytes passphrase) /\ NoDup (draws passphrase) /\
  (Forall (fun c => c ∈ chars) (str_bytes passphrase) ->
   let k := favoured (str_bytes passphrase) in
   length (draws passphrase) = (4 ^ k * 3 ^ (String.length passphrase - k))%nat).
Proof.
  split_and!; [|intros b; apply elem_of_draws|apply NoDup_draws|].
  - unfold generateSecurePassphrase. destruct (Z.ltb_spec length_ 0); [done|].
    destruct (rand_Read length_ r) as [r' [err|b]]; cbn [snd]; [by split; [|exists err]|].
    split; [done|]. rewrite str_bytes_str. split; [apply Forall_map, Forall_forall; intros x _; apply pick_alphabet|].
    exists b. split_and!; [done|unfold slen, len; by rewrite length_bytes_str, length_map|].
    apply elem_of_draws. by rewrite str_bytes_str.
  - intros HF k. unfold draws. by rewrite length_draws, length_str_bytes.
Qed.

(** The public key line. [ssh.MarshalAuthorizedKey] writes one line. The
    public key of a generated pair is that line with a space and the comment
    before its newline, or the line itself for an empty comment; so it is one
    line exactly when the comment has no newline, and every newline in the
    comment starts another line, whose text the comment chooses. The pair's
    JSON is the same whatever its private key is. *)
Theorem public_key_lines {R Pub Priv SshPub Block : Type} GenerateKey NewPublicKey MarshalAuthorizedKey
    FingerprintSHA256 MarshalPrivateKey MarshalPrivateKeyWithPassphrase EncodeToMemory
    (Hline : forall k : SshPub, exists base, MarshalAuthorizedKey k = base ++ [newline] /\ newline ∉ base)
    comment passphrase (r : R) :
  match (@GenerateEd25519Pair R Pub Priv SshPub Block GenerateKey NewPublicKey MarshalAuthorizedKey FingerprintSHA256
    MarshalPrivateKey MarshalPrivateKeyWithPassphrase EncodeToMemory comment passphrase r).2 with
  | Ret kp =>
      (exists k base, MarshalAuthorizedKey k = base ++ [newline] /\ kp_Fingerprint kp = FingerprintSHA256 k /\
        str_bytes (kp_PublicKey kp) =
          base ++ (if is_empty comment then [] else str_bytes " " ++ str_bytes comment) ++ [newline]) /\
      count_newlines (str_bytes (kp_PublicKey kp)) = S (count_newlines (str_bytes comment)) /\
      kp_Comment kp = comment /\
      (forall pem, keypair_json (mkSSHKeyPair (kp_PublicKey kp) pem (kp_Fingerprint kp) comment (kp_EntryID kp)) =
                   keypair_json kp)
  | Err _ => True
  | Panic => False
  end.
Proof.
  unfold GenerateEd25519Pair. destruct (GenerateKey r) as [r1 [err|[pub priv]]]; [done|].
  destruct (NewPublicKey pub) as [err|k]; [done|].
  destruct (if is_empty passphrase then _ else _) as [r2 [pem|e|]] eqn:Em; cbn [snd]; [|done|].
  - destruct (Hline k) as (base & Hk & Hb). cbn [kp_PublicKey kp_Fingerprint kp_Comment kp_EntryID]. rewrite str_bytes_str, Hk, public_line_base. split_and!; [by exists k, base| |done..].
    rewrite !count_newlines_app.
    rewrite (count_newlines_none base) by done.
    assert (count_newlines [newline] = 1%nat) as -> by done.
    destruct (is_empty comment) eqn:Ec.
    + unfold is_empty in Ec. apply bool_decide_eq_true in Ec. by subst comment.
    + rewrite count_newlines_app. assert (count_newlines (str_bytes " ") = 0%nat) as -> by by vm_compute. lia.
  - revert Em. unfold marshalEd25519PrivateKey, marshalEd25519PrivateKeyWithPassphrase. repeat case_match; by intros [=].
Qed.

(** An encoding with one key, whose comment smuggles a second line in. *)
Lemma public_key_lines_witness :
  let comment := bytes_str (str_bytes "me" ++ [newline] ++ str_bytes "ssh-ed25519 EVIL") in
  exists kp, (GenerateEd25519Pair (R := unit) (fun r => (r, inr (tt, tt))) (fun _ => inr tt)
    (fun _ => str_bytes "ssh-ed25519 AAAA" ++ [newline]) (fun _ => "SHA256:0"%string)
    (fun _ _ r => (r, inr tt)) (fun _ _ _ r => (r, inr tt)) (fun _ => [x01]) comment EmptyString tt).2 = Ret kp /\
  count_newlines (str_bytes (kp_PublicKey kp)) = 2%nat.
Proof.
  intros comment. eexists. split; [reflexivity|].
  assert (forall k : unit, exists base, str_bytes "ssh-ed25519 AAAA" ++ [newline] = base ++ [newline] /\ newline ∉ base) as H.
  { intros _. exists (str_bytes "ssh-ed25519 AAAA"). split; [done|]. apply (bool_decide_unpack _). by vm_compute. }
  destruct (public_key_lines (R := unit) (fun r => (r, inr (tt, tt))) (fun _ => inr tt)
    (fun _ : unit => str_bytes "ssh-ed25519 AAAA" ++ [newline]) (fun _ => "SHA256:0"%string)
    (fun _ _ r => (r, inr tt)) (fun _ _ _ r => (r, inr tt)) (fun _ => [x01]) H comment EmptyString tt) as (_ & Hn & _).
  rewrite Hn. by vm_compute.
Defined.
