(* ===== verification/Pqc.v ===== *)
(** * Post-quantum readiness ([engine/crypto/pqc_ready.go])

    The status report and the key encapsulation interface, whose only
    implementation in the repository is a placeholder that always fails. *)

From S2P Require Import Prelude GoStd.

(** ** Data *)

Definition PQCAlgorithm : Type := string.
Definition AlgoMLKEM768 : PQCAlgorithm := "ML-KEM-768".
Definition AlgoMLDSA65 : PQCAlgorithm := "ML-DSA-65".
Definition AlgoHybridX25519MLKEM : PQCAlgorithm := "X25519+ML-KEM-768".
Definition AlgoChaCha20Poly1305 : PQCAlgorithm := "ChaCha20-Poly1305".

(** The constants of [PQCSafetyLevel], in the order of [iota]. *)
Definition PQCSafetyClassical : Z := 0.
Definition PQCSafetyQuantumReduced : Z := 1.
Definition PQCSafetyQuantumFull : Z := 2.

Record PQCStatus := mkPQCStatus {
  SymmetricAlgo : PQCAlgorithm;
  SymmetricSafety : Z;
  KEMAvailable : bool;
  SigAvailable : bool;
  HybridMode : bool;
  Notes : list string
}.

Definition CurrentPQCStatus : PQCStatus := mkPQCStatus
  AlgoChaCha20Poly1305 PQCSafetyQuantumReduced false false false
  [("ChaCha20-Poly1305 with 256-bit keys is quantum-safe for symmetric operations " +:+
    "(Grover's algorithm reduces effective strength to 128 bits — still secure).");
   ("Key encapsulation (ML-KEM / CRYSTALS-Kyber) is not yet integrated. " +:+
    "When available, enable HybridMode for X25519 + ML-KEM key agreement.");
   "Signature scheme (ML-DSA / CRYSTALS-Dilithium) is not yet integrated.";
   "Migration path: implement PQCProvider interface and inject via SetPQCProvider()."]%string.

(** ** The interface *)

Class PQCProvider (P R : Type) := {
  GenerateKEMKeyPair : P -> R -> R * res msg (list byte * list byte);
  Encapsulate : P -> list byte -> R -> R * res msg (list byte * list byte);
  Decapsulate : P -> list byte -> list byte -> res msg (list byte);
  Algorithm : P -> PQCAlgorithm
}.

(** ** The placeholder *)

Inductive notImplementedPQCProvider := mkNotImplemented.

Definition notImplemented : msg := Lit "PQC not yet implemented — see crypto/pqc_ready.go migration notes".

#[global] Instance notImplemented_provider R : PQCProvider notImplementedPQCProvider R := {|
  GenerateKEMKeyPair _ r := (r, Err notImplemented);
  Encapsulate _ _ r := (r, Err notImplemented);
  Decapsulate _ _ _ := Err notImplemented;
  Algorithm _ := EmptyString
|}.

Definition DefaultPQCProvider : notImplementedPQCProvider := mkNotImplemented.

(** The report agrees with the provider: no mechanism is available, no call of
    the placeholder returns a key or a secret, and the algorithm it names is none of
    the known ones. *)
Lemma CurrentPQCStatus_honest {R} (r : R) public private ciphertext :
  KEMAvailable CurrentPQCStatus = false /\
  (exists e, (GenerateKEMKeyPair DefaultPQCProvider r).2 = Err e) /\
  (exists e, (Encapsulate DefaultPQCProvider public r).2 = Err e) /\
  (exists e, Decapsulate (R := R) DefaultPQCProvider private ciphertext = Err e) /\
  (Algorithm (R := R) DefaultPQCProvider ∉ [AlgoMLKEM768; AlgoMLDSA65; AlgoHybridX25519MLKEM; AlgoChaCha20Poly1305]).
Proof.
  split_and!; try by eexists.
  apply (bool_decide_unpack _). by vm_compute.
Qed.
