(* ===== verification/Port.v ===== *)
(** * The engine's public names ([engine/port.go])

    The aliases under which the daemon imports the engine, each the model of
    what it stands for. *)

From S2P Require Import Prelude GoStd GqlQuery GqlResult GqlValidator Errors Lockdown AuditLog Session Memory Event Bus.
From S2P Require Import Kernel Registry Interfaces Storage Intrusion Pqc Crypto Bridge Provider.

Definition CryptoProvider := Provider.Provider.
Definition KDFOptions := Crypto.KDFOptions.
Definition PQCProvider := Pqc.PQCProvider.

Definition BlockStore := Storage.BlockStore.
Definition BlockStoreV2 {S E} `{Storage.BlockStore S E} := Storage.BlockStoreV2 (S := S) (E := E).
Definition WriteTransaction {S} := Storage.WriteTransaction (S := S).
Definition ReadTransaction {E} := Storage.ReadTransaction (E := E).
Definition StorageStrategy := Storage.StorageStrategy.

Definition SessionContext := Session.SessionContext.
Definition LockdownManager := Interfaces.LockdownManager.
Definition AuditLog := Interfaces.AuditLog.
Definition MVKStore := Interfaces.MVKStore.
Definition MemoryGuard := Memory.MemoryGuard.
Definition IntrusionDetector := Intrusion.IntrusionDetector.

Definition SessionInfo := GqlValidator.SessionInfo.
Definition GQLQuery := GqlQuery.GQLQuery.
Definition GQLEntry := GqlResult.GQLEntry.
Definition GQLResult := GqlResult.GQLResult.

Definition Dispatcher := Registry.Dispatcher.
Definition Module := Bus.Module (Handler := Kernel.Handler).
Definition Event := Event.Event.
Definition Handler := Kernel.Handler.
Definition EventType := Event.EventType.
Definition ModuleFactory := Kernel.ModuleFactory.

Definition GrimlockError := Errors.GrimlockError.
Definition StructuredLogger := Errors.StructuredLogger.
